(* ===== verification/_CoqProject ===== *)
-Q . S2P
Prelude.v
Ring.v
Crc32.v
Cnum.v
Yenc.v
Config.v
Log.v
Json.v
Paths.v
Job.v
Nzb.v
JobStore.v
JobCrash.v
Queue.v
Gf16.v
Rs.v
Par2.v
Par2Repair.v
Par2Restore.v
Nntp.v
NntpPool.v
Segment.v
Assembly.v
Worker.v
Download.v
Output.v
Finalizer.v
Complete.v
Threads.v
Rar5.v
Rar5Stream.v
Volumes.v
Extract.v
ExtractFrame.v
ExtractData.v
FinalizeArchive.v
PkgInstall.v
Utf8.v
ApiConfig.v
Interact.v
Listen.v
Main.v
JobJson.v
Status.v
Api.v
Httpd.v
