(* ===== verification/Prelude.v ===== *)
(** * PS5 NZB Downloader: a Rocq verification development (root file)

    The program is a daemon for a game console: it takes NZB files over HTTP,
    downloads the Usenet articles they name, checks and repairs the result with
    PAR2, and extracts or moves the files to the output directory. Its own C
    code is under [src/src/]; the rest of the repository is an SDK and vendored
    libraries. Paths below are relative to [src/src/].

    ** How the program is put together

    [main.c] starts three parties that share one queue under one mutex:
    - the HTTP server ([web/]), whose handlers call [queue_*];
    - the downloader thread ([download/download.c], [downloader_main]), which
      takes the next queued job, has the connection pool ([nntp/nntp_pool.c])
      fetch its segments, and verifies and repairs it ([par2/]);
    - the finalizer thread ([finalizer_main]), to which the downloader hands a
      finished job for extraction or for the move to the output directory.
    A job ([queue/job.h]) is stored as three files, so that the queue survives a
    restart ([queue/job.c], [queue/queue.c]).

    ** Files of the development

    - [Prelude]: bytes, C strings, machine integers, lemmas on lists,
      the tactics and hints every file uses. [Ring]: ring buffers.
    - [Cnum]: [strtol], [strtoul], [atoi] and [%d].
    - [Crc32] ([util/crc32.c]); [Yenc] ([yenc/yenc.c]); [Config]
      ([config/config.c]); [Log] ([log/log.c]); [Paths] ([storage/paths.c]).
    - [Json]: cJSON's trees and accessors, its text form as the class
      [JsonCodec].
    - [Job], [JobStore], [JobCrash] ([queue/job.c], [queue/job.h]): the data of
      a job, its three files, and the crash safety of one save.
    - [Nzb] ([nzb/nzb_parse.c]): from the events of the XML parser to a job.
    - [Queue] ([queue/queue.c]).
    - [Gf16], [Rs] ([par2/rs.c]): the field and the solver; the solver is proved
      against the class [GaloisField], of which the tables are an instance.
    - [Par2], [Par2Repair], [Par2Restore] ([par2/par2.c]): packets, block layout,
      verification; the stages of a repair, and that it restores the originals.
    - [Nntp] ([nntp/nntp_conn.c]), [NntpPool] ([nntp/nntp_pool.c]): one
      connection; the retries of one fetch and the pool of worker threads.
    - [Segment], [Assembly] ([download/download.c]): one article's lines into
      the file; all segments of a file at once.
    - [Worker], [Download], [Output], [Finalizer] ([download/download.c],
      [storage/shadowmount.c]): the two worker threads in a world where the API
      threads act between any two of their steps. [Complete]: a job that goes
      through both threads to its end.
    - [Threads] ([download/download.c], [main.c]): the loops of the two threads,
      the queue between them, and the main thread that starts and stops them.
    - [Rar5], [Rar5Stream] ([extract/rar5_crypt.c]): the operations of the
      decrypting reader, and the stream it makes of an encrypted volume.
    - [Volumes], [Extract] ([extract/extract.c]): archive names and volume sets;
      the extraction against the class [ExtractDisk] of libarchive's and the
      system's calls. [ExtractFrame] proves what it leaves alone, with the laws
      [DiskFrame]; [ExtractData] what it writes, with [DiskWrites] and
      [Reliable]; [FinalizeArchive] puts it into the finalizer's world.
    - [Utf8] ([web/api_jobs.c]): the text of an NFO file. [PkgInstall]
      ([system/pkg_install.c]).
    - [ApiConfig] ([web/api_config.c], [web/app_state.c]), [JobJson]
      ([web/job_json.c]), [Status] ([web/api_status.c], [web/api_logs.c]), [Api]
      ([web/api_jobs.c], [web/api_system.c]), [Httpd] ([web/httpd.c],
      [web/asset.c]): the settings, jobs as JSON, the status page, the handlers,
      and the way from a request to its handler.
    - [Interact]: programs as interaction trees, protocols on their calls, and
      bounds on the calls until they end. [Listen] ([web/httpd.c]): the listening
      socket and the accept loop. [Main] ([main.c], [util/notify.c]): start-up and
      shutdown.

    ** State and operations

    A C struct is a record with the same fields; an array that grows is a list;
    a NUL-terminated string the list of its bytes; an integer a [Z] whose
    wrap-around is written where it can happen. A function that changes state
    takes the state and returns it with its result; the functions of [Segment]
    thread the context and the file, those of [Nntp] the connection, those of
    [Extract] the disk, the handlers of [Api] what the threads share.

    The main thread, whose behaviour is the order of its calls, is an interaction
    tree over the calls of [Listen.sysE]; [Listen.in_order] says which call is in
    order after which, and [Interact.obeys] that a program keeps to it whatever
    is answered.

    Concurrency is modelled in five ways. [NntpPool.pool_step] is a step
    relation whose steps are the critical sections of the pool. [Assembly.file_run]
    interleaves the callbacks of all segments of a file. [Worker] is a state
    monad with faults: before each point where a worker takes the queue lock or
    looks at a job, it lets the other threads do a batch of events ([tick]),
    read from a script; a theorem for all scripts is one for all interleavings,
    and a pointer to a removed job is a fault. [ApiConfig.config_step] interleaves
    the two critical sections of changes to the settings, and
    [Httpd.server_step] whole requests with steps of the workers: each handler
    holds the queue lock at most once. [Threads.thread_step] is a step relation
    of the two worker threads and the main thread, where only their hand-over,
    their stop and their ends count; one turn of it is a run of [Worker]'s monad.

    Calls that leave the program are parameters, or outcomes in an input
    record: sockets and TLS, [open]/[write]/[rename] failures, [qsort] (any
    sorting permutation), MD5, rapidyenc (its decoding contract in [Yenc]),
    cJSON's text form ([JsonCodec]), expat ([Nzb]), the clock, [statfs], AES,
    PBKDF2 and SHA-256 ([Rar5]), libarchive ([ExtractDisk]), libmicrohttpd's
    form parser ([Httpd.body_chunk]), the console's installer. Each class of laws
    has an instance. Memory allocation succeeds, except that of the segment
    buffer ([Segment.sc_wbuf]), whose failure the code handles.

    ** What the theorems show

    - Data integrity: the checksum is CRC-32 ([Crc32]), yEnc lines decode
      ([Yenc]), an article comes through the connection line by line ([Nntp]),
      segments stay in their range and assemble to the file in every order, and
      after broken connections ([Assembly]); PAR2 packets are parsed back, the
      layout tiles the blocks, verification counts the damaged blocks exactly
      ([Par2]), and a repair puts back every file of the set ([Gf16], [Rs],
      [Par2Restore]).
    - Archives: volumes of a set come in order ([Volumes]); an encrypted RAR5
      volume is read as the plain one ([Rar5Stream]); an extraction stays inside
      its directory where links are not followed ([ExtractFrame]), writes every
      file whole ([ExtractData]), and from the finalizer's call on puts the
      archive into the output directory ([FinalizeArchive]).
    - Persistence: saving and loading a job, a configuration, a queue
      ([JobStore], [Config], [Queue]); a crash at any step of a save leaves the
      old file or the new ([JobCrash]).
    - State machines: the queue's invariant and each of its commands ([Queue]);
      every fetch of the pool is called back once, shutdown drains it
      ([NntpPool]).
    - The workers, against every interleaving: what is handed over was verified
      ([Download]); a busy job is never freed; the output is placed or nothing is
      lost; a job whose server cannot be reached ends as failed ([Finalizer]).
    - Start-up and shutdown: jobs are handed over in order and none is lost, a
      stop ends all threads ([Threads]); the server returns soon after a stop
      ([Listen]); the program takes down everything it set up, in order, on every
      way out ([Main]). A job goes through ([Complete]): where nothing is in the
      way, every step from the queue to the output directory succeeds.
    - The web interface: whatever is requested, the queue and the settings stay
      well formed, uploads arrive whole, the URLs of a job reach its handlers
      ([Httpd]); removal and eject do what they answer ([Api]); NFO text is valid
      UTF-8 ([Utf8]); progress and speed are right ([JobJson], [Status]); the
      settings shown can be sent back ([ApiConfig]).
    - Flaws: a PAR2 file and a RAR5 header on which a parser never ends, a RAR5
      header whose length wraps, a job freed while the finalizer still holds it,
      a cancellation that is overwritten, an archive whose link leads out of the
      output directory, a nested archive that is silently left packed, settings
      that are lost or become other settings, a URL that overruns the stack, the
      output of one job removed with another, a list of errors always empty, a
      refused connection closed twice, a socket left open at the stop, a busy port
      announced as served.

    ** Fuel and bounds

    Loops that are not structural take fuel, chosen by the definitions that
    call them and large enough by a lemma: the line and body readers of [Nntp]
    one turn more than the bytes that can still arrive
    ([Nntp.read_line_loop_stream]); [fgets] and [fread] loops the length of the
    input and one more; [hash_loop] likewise ([Par2.hash_loop_result]); the
    UTF-8 test the length of the text ([Utf8.utf8_text_accepted]); a growing buffer
    64 doublings ([Httpd.grow_cap_enough]); [%d] twenty digits. Two loops leave
    their fuel to the caller, because they need not end: [Par2.parse_par2_file],
    where [Par2.par2_parse_terminates] gives a fuel that suffices when packet
    lengths are below [2^63] and [Par2.par2_parse_loops_forever] shows the other
    case; and [Rar5.find_file_crypt], see [Rar5Stream.rar5_extra_loops_forever].
    Buffer sizes ([PATH_MAX]-like constants, [SEG_WBUF_SIZE],
    [LOG_RING_CAPACITY], [JOB_MAX_PKGS]) are the code's.

    ** Not modelled

    - Log lines that the program writes, thread names and stack sizes, socket
      options, the initialisation of locks, the freeing of plain memory.
    - The figures [download.c] keeps for the progress display while it works; what
      is made of them is in [JobJson] and [Status].
    - [vendor/], and the repository's SDK: third-party code. *)

From Stdlib Require Import ZArith Lia List.
From Stdlib Require Import Strings.Byte Strings.String Sorting.Sorted.
From stdpp Require Import base list gmap.

#[global] Open Scope Z_scope.
#[global] Set Default Goal Selector "!".

(** ** Bytes and C strings

    A [char] or [unsigned char] is a [byte]; a NUL-terminated string is the
    list of its bytes before the terminator. *)

Definition b2z (b : byte) : Z := Z.of_N (Byte.to_N b).

Definition z2b (z : Z) : byte :=
  match Byte.of_N (Z.to_N (z mod 256)) with
  | Some b => b
  | None => x00
  end.

Abbreviation cstr := (list byte).

Declare Scope cstr_scope.
Delimit Scope cstr_scope with cs.
Notation "$ s" := (list_byte_of_string s%string)
  (at level 1, s at level 0, format "$ s") : cstr_scope.
#[global] Open Scope cstr_scope.

#[global] Instance byte_eq_decision : EqDecision byte := Byte.byte_eq_dec.

#[global] Instance byte_countable : Countable byte :=
  inj_countable Byte.to_N Byte.of_N Byte.of_to_N.

(** The machine integers of the target (LP64): values are kept as [Z] and
    every operation that can leave its range is wrapped explicitly. *)
Definition u8 (z : Z) : Z := z mod 2 ^ 8.
Definition u16 (z : Z) : Z := z mod 2 ^ 16.
Definition u32 (z : Z) : Z := z mod 2 ^ 32.
Definition u64 (z : Z) : Z := z mod 2 ^ 64.
Definition s32 (z : Z) : Z := (z + 2 ^ 31) mod 2 ^ 32 - 2 ^ 31.
Definition s64 (z : Z) : Z := (z + 2 ^ 63) mod 2 ^ 64 - 2 ^ 63.

(** [snprintf(buf, n, "%s", s)]: at most [n - 1] bytes are kept. *)
Definition str_fit (n : nat) (s : cstr) : cstr := take (n - 1) s.

(** A [char] array read as a C string: the bytes before the first NUL. *)
Fixpoint c_str (l : list byte) : cstr :=
  match l with
  | [] => []
  | c :: t => if decide (c = x00) then [] else c :: c_str t
  end.

(** A value that a C string can have: no NUL inside. *)
Definition no_nul (s : cstr) : Prop := Forall (λ c, c ≠ x00) s.

(** ASCII classes of <ctype.h> in the C locale. *)
Definition tolower (c : byte) : byte :=
  let z := b2z c in
  if (65 <=? z) && (z <=? 90) then z2b (z + 32) else c.

Definition isspace (c : byte) : bool :=
  let z := b2z c in (z =? 32) || ((9 <=? z) && (z <=? 13)).

Definition isdigit (c : byte) : bool :=
  let z := b2z c in (48 <=? z) && (z <=? 57).

(** [strcasecmp(a, b) == 0] *)
Definition strcase_eq (a b : cstr) : bool :=
  bool_decide (tolower <$> a = tolower <$> b).

(** The tail [s + strlen(s) - n] of a string of length at least [n]. *)
Definition str_tail (n : nat) (s : cstr) : cstr := drop (length s - n) s.

Definition has_suffix (s suffix : cstr) : bool :=
  (length suffix <=? length s)%nat && bool_decide (str_tail (length suffix) s = suffix).

Definition has_suffix_ci (s suffix : cstr) : bool :=
  (length suffix <=? length s)%nat && strcase_eq (str_tail (length suffix) s) suffix.

(** Regular files: path to content. *)
Abbreviation file_system := (gmap cstr (list byte)).

(** [pwrite(fd, buf, n, off)] on a file's content: a hole before [off] reads as
    zeros. *)
Definition pwrite (data : list byte) (off : nat) (buf : list byte) : list byte :=
  take off data ++ replicate (off - length data) x00 ++ buf ++ drop (off + length buf) data.

(** ** Lemmas on bytes *)

Lemma b2z_range b : 0 <= b2z b < 256.
Proof.
  unfold b2z. split; [apply N2Z.is_nonneg|].
  pose proof (Byte.to_N_bounded b). lia.
Qed.

Lemma b2z_z2b z : b2z (z2b z) = z mod 256.
Proof.
  unfold b2z, z2b. pose proof (Z.mod_pos_bound z 256 ltac:(lia)) as Hb.
  destruct (Byte.of_N _) as [b|] eqn:E.
  - apply Byte.to_of_N in E. rewrite E. lia.
  - apply Byte.of_N_None_iff in E. lia.
Qed.

Lemma z2b_b2z b : z2b (b2z b) = b.
Proof.
  unfold z2b. rewrite Z.mod_small by apply b2z_range.
  unfold b2z. rewrite N2Z.id, Byte.of_to_N. done.
Qed.

#[global] Instance b2z_inj : Inj (=) (=) b2z.
Proof. intros a b H. rewrite <- (z2b_b2z a), <- (z2b_b2z b), H. done. Qed.

Lemma z2b_small z : 0 <= z < 256 → b2z (z2b z) = z.
Proof. intros. rewrite b2z_z2b. apply Z.mod_small. lia. Qed.

Create HintDb bytes.
#[export] Hint Resolve b2z_range : bytes.

(** ** Lemmas on bit operations *)

(** Non-negative numbers below [2^n] are those with no bit from [n] on. *)
Lemma testbit_bound n z :
  0 <= n → 0 <= z → (z < 2 ^ n ↔ ∀ i, n <= i → Z.testbit z i = false).
Proof.
  intros Hn Hz. split.
  - intros Hlt i Hi. destruct (decide (z = 0)) as [->|]; [apply Z.bits_0|].
    apply Z.bits_above_log2; [lia|].
    apply Z.log2_lt_pow2 in Hlt; lia.
  - intros Hb. destruct (Z.lt_ge_cases z (2 ^ n)) as [|Hge]; [done|].
    assert (n <= Z.log2 z) as Hl by (apply Z.log2_le_pow2; [pose proof (Z.pow_pos_nonneg 2 n); lia|done]).
    specialize (Hb (Z.log2 z) Hl).
    rewrite Z.bit_log2 in Hb; [done|pose proof (Z.pow_pos_nonneg 2 n); lia].
Qed.

Lemma lxor_bound n a b :
  0 <= n → 0 <= a < 2 ^ n → 0 <= b < 2 ^ n → 0 <= Z.lxor a b < 2 ^ n.
Proof.
  intros Hn [Ha Ha'] [Hb Hb'].
  assert (0 <= Z.lxor a b) by (apply Z.lxor_nonneg; lia).
  split; [done|].
  apply testbit_bound; [done..|]. intros i Hi. rewrite Z.lxor_spec.
  rewrite (proj1 (testbit_bound n a Hn Ha)), (proj1 (testbit_bound n b Hn Hb)); done.
Qed.

Lemma shiftr_bound n z k : 0 <= k → 0 <= z < 2 ^ (n + k) → 0 <= n → 0 <= Z.shiftr z k < 2 ^ n.
Proof.
  intros Hk [Hz Hlt] Hn. rewrite Z.shiftr_div_pow2 by done.
  split; [apply Z.div_pos; [done|apply Z.pow_pos_nonneg; lia]|].
  apply Z.div_lt_upper_bound; [apply Z.pow_pos_nonneg; lia|].
  rewrite <- Z.pow_add_r by lia. rewrite Z.add_comm. done.
Qed.

(** [lxor] is the addition of a vector space over GF(2): the equations the
    rewriting of sums needs. *)
Lemma lxor_cancel_l a b : Z.lxor a (Z.lxor a b) = b.
Proof. rewrite <- Z.lxor_assoc, Z.lxor_nilpotent. apply Z.lxor_0_l. Qed.

Lemma lxor_swap a b c : Z.lxor a (Z.lxor b c) = Z.lxor b (Z.lxor a c).
Proof. rewrite <- !Z.lxor_assoc, (Z.lxor_comm a b). done. Qed.

Lemma lxor_exchange a b c d :
  Z.lxor (Z.lxor a b) (Z.lxor c d) = Z.lxor (Z.lxor a c) (Z.lxor b d).
Proof. rewrite !Z.lxor_assoc, (lxor_swap b c d). done. Qed.

Lemma mod_pow2_S v n :
  v mod 2 ^ Z.of_nat (S n) =
  Z.lxor (if Z.testbit v 0 then 1 else 0) (Z.shiftl (Z.shiftr v 1 mod 2 ^ Z.of_nat n) 1).
Proof.
  apply Z.bits_inj'. intros i Hi.
  rewrite Z.lxor_spec, Z.shiftl_spec by done.
  destruct (decide (i = 0)) as [->|Hne].
  - rewrite Z.mod_pow2_bits_low by lia. rewrite (Z.testbit_neg_r _ (0 - 1)) by lia.
    destruct (Z.testbit v 0); done.
  - assert (Z.testbit (if Z.testbit v 0 then 1 else 0) i = false) as ->.
    { destruct (Z.testbit v 0); [|apply Z.bits_0].
      apply (proj1 (testbit_bound 1 1 ltac:(lia) ltac:(lia))); lia. }
    destruct (Z.lt_ge_cases i (Z.of_nat (S n))).
    + rewrite !Z.mod_pow2_bits_low by lia. rewrite Z.shiftr_spec by lia.
      rewrite xorb_false_l. f_equal. lia.
    + rewrite !Z.mod_pow2_bits_high by lia. done.
Qed.

(** [n] low bits, the rest above them. *)
Lemma lor_low n lo v : 0 <= n → 0 <= lo < 2 ^ n → Z.lor lo (Z.shiftl v n) = lo + 2 ^ n * v.
Proof.
  intros Hn Hlo. symmetry. apply Z.bits_inj'. intros i Hi. rewrite Z.lor_spec, Z.shiftl_spec by done.
  replace (lo + 2 ^ n * v) with (lo + v * 2 ^ n) by lia. destruct (Z.lt_ge_cases i n).
  - rewrite (Z.testbit_neg_r _ (i - n)), orb_false_r by lia.
    rewrite <- (Z.mod_pow2_bits_low _ n i) by done.
    by rewrite Z.mod_add, Z.mod_small by lia.
  - rewrite (proj1 (testbit_bound n lo ltac:(lia) ltac:(lia))) by lia.
    replace i with ((i - n) + n) at 1 by lia.
    rewrite <- Z.div_pow2_bits by lia.
    by rewrite Z.div_add, Z.div_small by lia.
Qed.

Lemma lor_byte lo v : 0 <= lo < 256 → Z.lor lo (Z.shiftl v 8) = lo + 256 * v.
Proof. intros Hlo. by apply lor_low. Qed.

(** An injection of [0..n-1] into [1..n] is onto. *)
Lemma pigeonhole_onto (n : nat) (f : nat → Z) a :
  (∀ i j, (i < n)%nat → (j < n)%nat → f i = f j → i = j) →
  (∀ i, (i < n)%nat → 1 <= f i <= Z.of_nat n) →
  1 <= a <= Z.of_nat n → ∃ i, (i < n)%nat ∧ f i = a.
Proof.
  intros Hinj Hran Ha.
  assert (NoDup (f <$> seq 0 n)) as Hnd.
  { apply NoDup_fmap_2_strong; [|apply NoDup_seq].
    intros i j Hi Hj. rewrite elem_of_seq in Hi, Hj. apply Hinj; lia. }
  assert ((f <$> seq 0 n) ≡ₚ seqZ 1 (Z.of_nat n)) as Hp.
  { apply submseteq_length_Permutation.
    - apply NoDup_submseteq; [done|]. intros x Hx.
      apply list_elem_of_fmap in Hx as (i & -> & Hi). apply elem_of_seq in Hi.
      apply elem_of_seqZ. specialize (Hran i). lia.
    - rewrite length_fmap, length_seq, length_seqZ. lia. }
  assert (a ∈ f <$> seq 0 n) as Hin by (rewrite Hp; apply elem_of_seqZ; lia).
  apply list_elem_of_fmap in Hin as (i & -> & Hi). apply elem_of_seq in Hi.
  exists i. split; [lia|done].
Qed.

Lemma mjoin_cons {A} (x : list A) (l : list (list A)) : mjoin (x :: l) = x ++ mjoin l.
Proof. reflexivity. Qed.

(** ** Lemmas on file contents *)

Lemma length_pwrite data off buf :
  length (pwrite data off buf) = (Nat.max (length data) (off + length buf))%nat.
Proof.
  unfold pwrite. rewrite !length_app, length_take, length_replicate, length_drop. lia.
Qed.

(** Inside the written range the new bytes, elsewhere the old ones, and zeros
    in a hole. *)
Lemma lookup_pwrite_in data off buf i :
  (off <= i < off + length buf)%nat → pwrite data off buf !! i = buf !! (i - off)%nat.
Proof.
  intros Hi. unfold pwrite.
  rewrite lookup_app_r by (rewrite length_take; lia).
  rewrite lookup_app_r by (rewrite length_take, length_replicate; lia).
  rewrite length_take, length_replicate.
  rewrite lookup_app_l by lia. f_equal. lia.
Qed.

Lemma lookup_pwrite_out data off buf i :
  (i < off ∨ off + length buf <= i)%nat → (i < length data)%nat →
  pwrite data off buf !! i = data !! i.
Proof.
  intros Hi Hd. unfold pwrite. destruct (decide (i < off)%nat).
  - rewrite lookup_app_l by (rewrite length_take; lia). by rewrite lookup_take_lt.
  - rewrite lookup_app_r by (rewrite length_take; lia).
    rewrite lookup_app_r by (rewrite length_take, length_replicate; lia).
    rewrite length_take, length_replicate.
    rewrite lookup_app_r by lia. rewrite lookup_drop. f_equal. lia.
Qed.

(** ** Strings *)

Lemma str_fit_id n s : (length s < n)%nat → str_fit n s = s.
Proof. intros. unfold str_fit. apply take_ge. lia. Qed.

(** ** Sorted lists *)

Lemma Sorted_weaken {A} (R S : A → A → Prop) (P : A → Prop) l :
  (∀ a b, P a → P b → R a b → S a b) → Forall P l → Sorted R l → Sorted S l.
Proof.
  intros HRS. induction l as [|x l IH]; intros HP Hs; constructor; inversion Hs; subst.
  - apply IH; [|done]. by apply Forall_cons in HP as [_ ?].
  - destruct l as [|y l]; constructor. apply Forall_cons in HP as [? [? _]%Forall_cons].
    match goal with H : HdRel _ _ _ |- _ => inversion H; subst end. auto.
Qed.

(** ** Automation *)

(** Splits every boolean test of the goal or the context. *)
Ltac bool_cases :=
  repeat match goal with
  | |- context [if ?b then _ else _] => destruct b eqn:?
  | H : context [if ?b then _ else _] |- _ => destruct b eqn:?
  end.
