(* ===== verification/Ring.v ===== *)
(** * Ring buffers

    An array of [cap] slots with the next slot to write and the number of slots
    in use, as the logger and the status page keep their last lines: it is the
    list of the last [cap] elements pushed. *)

From Stdlib Require Import ZArith Lia List.
From stdpp Require Import base list.
From S2P Require Import Prelude.

(** The last [n] elements. *)
Definition last_n {A} (n : nat) (l : list A) : list A := drop (length l - n) l.

(** Positions less than a capacity apart have different slots. *)
Lemma mod_slots_differ i j n :
  (0 < n)%nat → (i < j)%nat → (j - i < n)%nat → (i mod n ≠ j mod n)%nat.
Proof.
  intros Hn Hij Hd He. pose proof (Nat.div_mod_eq i n). pose proof (Nat.div_mod_eq j n).
  assert (j / n = i / n ∨ i / n + 1 <= j / n ∨ j / n + 1 <= i / n)%nat as [E|[E|E]] by lia; nia.
Qed.

Section ring.
Context {A : Type} (cap : nat) (Hcap : (0 < cap)%nat).

(** The ring holds the elements [l] pushed so far: slot [i mod cap] has
    element [i]. *)
Record ring_holds (l : list A) (slots : list A) (next count : nat) : Prop := {
  rg_length : length slots = cap;
  rg_next : next = (length l mod cap)%nat;
  rg_count : count = Nat.min (length l) cap;
  rg_slots : ∀ i x, l !! i = Some x → (length l - cap <= i)%nat → slots !! (i mod cap)%nat = Some x
}.

Lemma ring_empty d : ring_holds [] (replicate cap d) 0 0.
Proof using Hcap. constructor; [apply length_replicate|by rewrite Nat.Div0.mod_0_l|done|done]. Qed.

Lemma ring_push l slots next count x :
  ring_holds l slots next count →
  ring_holds (l ++ [x]) (<[next := x]> slots) ((next + 1) mod cap) (if (count <? cap)%nat then S count else count).
Proof using Hcap.
  intros [H1 H2 H3 H4].
  assert (next < cap)%nat as Hnext by (rewrite H2; apply Nat.mod_upper_bound; lia).
  constructor; rewrite ?length_app; cbn [length].
  - by rewrite length_insert.
  - by rewrite H2, Nat.Div0.add_mod_idemp_l.
  - rewrite H3. destruct (Nat.ltb_spec (length l `min` cap) cap); lia.
  - intros i y Hi Hr. destruct (Nat.lt_trichotomy i (length l)) as [Hlt|[->|Hgt]].
    + rewrite lookup_app_l in Hi by done. rewrite list_lookup_insert_ne; [apply H4; [done|lia]|].
      rewrite H2. intros He. symmetry in He. revert He. apply mod_slots_differ; lia.
    + rewrite lookup_app_r, Nat.sub_diag in Hi by done. injection Hi as <-.
      rewrite <- H2. apply list_lookup_insert_eq. lia.
    + rewrite lookup_ge_None_2 in Hi by (rewrite length_app; cbn; lia). done.
Qed.

(** Reading the slots in use from the oldest on. *)
Lemma ring_read l slots next count d :
  ring_holds l slots next count →
  let start := if (count <? cap)%nat then 0%nat else next in
  ((λ i, default d (slots !! ((start + i) mod cap)%nat)) <$> seq 0 count) = last_n cap l.
Proof using Hcap.
  intros [H1 H2 H3 H4] start. unfold last_n.
  apply list_eq. intros i. rewrite list_lookup_fmap, lookup_drop.
  destruct (Nat.lt_ge_cases i count) as [Hi|Hi].
  - rewrite lookup_seq_lt by done. cbn [fmap option_fmap option_map].
    destruct (lookup_lt_is_Some_2 l (length l - cap + i)) as [x Hx]; [lia|].
    rewrite Hx. f_equal.
    assert (((start + (0 + i)) mod cap = (length l - cap + i) mod cap)%nat) as ->.
    { unfold start. destruct (Nat.ltb_spec count cap); [f_equal; lia|].
      rewrite H2, Nat.Div0.add_mod_idemp_l.
      replace (length l + (0 + i))%nat with (length l - cap + i + 1 * cap)%nat by lia.
      by rewrite Nat.Div0.mod_add. }
    rewrite (H4 _ x) by (done || lia). done.
  - rewrite lookup_seq_ge by done. symmetry. apply lookup_ge_None_2. lia.
Qed.
End ring.
