(* ===== verification/Crc32.v ===== *)
(** * CRC-32 ([util/crc32.c])

    The table of [build_table], the update loop and the final complement,
    with the bit-serial CRC as their specification. [unsigned long] has 64
    bits on the target; every value stays below [2^32]. *)

From Stdlib Require Import ZArith Lia List.
From Stdlib Require Import Strings.Byte Strings.String.
From stdpp Require Import base list.
From S2P Require Import Prelude.

(** One round of the inner loop of [build_table]. *)
Definition table_round (c : Z) : Z :=
  if Z.testbit c 0 then Z.lxor 0xEDB88320 (Z.shiftr c 1) else Z.shiftr c 1.

(** [build_table]: for each [n], eight rounds. *)
Definition build_table : list Z :=
  (λ n, Nat.iter 8 table_round n) <$> seqZ 0 256.

Definition table_at (i : Z) : Z := default 0 (build_table !! Z.to_nat i).

Definition crc32_init : Z := 0xFFFFFFFF.

(** The body of the loop of [crc32_update]. *)
Definition crc32_step (crc : Z) (b : byte) : Z :=
  Z.lxor (table_at (Z.land (Z.lxor crc (b2z b)) 0xFF)) (Z.shiftr crc 8).

Definition crc32_update (crc : Z) (data : list byte) : Z :=
  foldl crc32_step crc data.

Definition crc32_final (crc : Z) : Z := Z.lxor crc 0xFFFFFFFF.

(** [crc32_final(crc32_update(crc32_init(), data))] *)
Definition crc32 (data : list byte) : Z := crc32_final (crc32_update crc32_init data).

(** ** Specification: the register shifted one message bit at a time *)

Definition crc_bit (crc : Z) (bit : bool) : Z :=
  if xorb (Z.testbit crc 0) bit
  then Z.lxor 0xEDB88320 (Z.shiftr crc 1) else Z.shiftr crc 1.

Definition low_bits (n : nat) (v : Z) : list bool :=
  (λ i, Z.testbit v (Z.of_nat i)) <$> seq 0 n.

Definition byte_bits (b : byte) : list bool := low_bits 8 (b2z b).

Definition crc_bits (crc : Z) (data : list byte) : Z :=
  foldl crc_bit crc (mjoin (byte_bits <$> data)).

Definition crc_ok (c : Z) : Prop := 0 <= c < 2 ^ 32.

(** ** Lemmas *)

Lemma table_at_spec i : 0 <= i < 256 → table_at i = Nat.iter 8 table_round i.
Proof.
  intros Hi. unfold table_at, build_table. rewrite list_lookup_fmap.
  rewrite (proj2 (lookup_seqZ 0 256 (Z.to_nat i) i)) by lia. done.
Qed.

Lemma table_round_ok c : crc_ok c → crc_ok (table_round c).
Proof.
  intros [H0 H1]. unfold table_round, crc_ok.
  assert (0 <= Z.shiftr c 1 < 2 ^ 32).
  { pose proof (shiftr_bound 31 c 1 ltac:(lia) ltac:(simpl; lia) ltac:(lia)). lia. }
  destruct (Z.testbit c 0); [|done].
  apply lxor_bound; lia.
Qed.

Lemma table_iter_ok n c : crc_ok c → crc_ok (Nat.iter n table_round c).
Proof. intros Hc. induction n; simpl; [done|]. by apply table_round_ok. Qed.

(** [table_round] is linear over GF(2). *)
Lemma table_round_lxor a b :
  table_round (Z.lxor a b) = Z.lxor (table_round a) (table_round b).
Proof.
  unfold table_round. rewrite Z.lxor_spec, Z.shiftr_lxor.
  destruct (Z.testbit a 0), (Z.testbit b 0); simpl xorb; cbv iota.
  - by rewrite lxor_exchange, Z.lxor_nilpotent, Z.lxor_0_l.
  - by rewrite <- Z.lxor_assoc.
  - by rewrite lxor_swap.
  - done.
Qed.

Lemma table_iter_lxor n a b :
  Nat.iter n table_round (Z.lxor a b) =
  Z.lxor (Nat.iter n table_round a) (Nat.iter n table_round b).
Proof. induction n; simpl; [done|]. by rewrite IHn, table_round_lxor. Qed.

Lemma crc_bit_round crc (bit : bool) :
  crc_bit crc bit = table_round (Z.lxor crc (if bit then 1 else 0)).
Proof.
  unfold crc_bit, table_round. rewrite Z.lxor_spec, Z.shiftr_lxor.
  destruct bit.
  - change (Z.testbit 1 0) with true. change (Z.shiftr 1 1) with 0. by rewrite Z.lxor_0_r.
  - change (Z.testbit 0 0) with false. change (Z.shiftr 0 1) with 0. by rewrite Z.lxor_0_r.
Qed.

(** Shifting out low zero bits is eight plain shifts. *)
Lemma table_iter_high n c :
  Nat.iter n table_round (Z.shiftl c (Z.of_nat n)) = c.
Proof.
  induction n as [|n IH]; [simpl; by rewrite Z.shiftl_0_r|].
  rewrite Nat.iter_succ_r.
  replace (table_round (Z.shiftl c (Z.of_nat (S n)))) with (Z.shiftl c (Z.of_nat n)); [done|].
  unfold table_round. rewrite Z.shiftl_spec_low by lia.
  rewrite Z.shiftr_shiftl_l by lia. f_equal. lia.
Qed.

Lemma split_low_byte c : c = Z.lxor (Z.land c 0xFF) (Z.shiftl (Z.shiftr c 8) 8).
Proof.
  apply Z.bits_inj'. intros i Hi.
  rewrite Z.lxor_spec, Z.land_spec, Z.shiftl_spec by done.
  change 0xFF with (Z.ones 8). rewrite Z.testbit_ones_nonneg by lia.
  destruct (Z.ltb_spec i 8).
  - rewrite andb_true_r, (Z.testbit_neg_r _ (i - 8)) by lia. by rewrite xorb_false_r.
  - rewrite andb_false_r, Z.shiftr_spec by lia. simpl. f_equal. lia.
Qed.

(** One table step is eight rounds on the register with the byte mixed in. *)
Lemma crc32_step_iter crc b :
  0 <= crc → crc32_step crc b = Nat.iter 8 table_round (Z.lxor crc (b2z b)).
Proof.
  intros Hc. unfold crc32_step. pose proof (b2z_range b) as Hb.
  set (x := Z.lxor crc (b2z b)).
  assert (0 <= Z.land x 0xFF < 256) as Hl.
  { change 0xFF with (Z.ones 8). rewrite Z.land_ones by lia. apply Z.mod_pos_bound. lia. }
  rewrite table_at_spec by done.
  rewrite (split_low_byte x) at 2. rewrite table_iter_lxor. f_equal.
  rewrite (table_iter_high 8). unfold x. rewrite Z.shiftr_lxor.
  replace (Z.shiftr (b2z b) 8) with 0; [by rewrite Z.lxor_0_r|].
  rewrite Z.shiftr_div_pow2 by lia. rewrite Z.div_small; [done|simpl; lia].
Qed.

Lemma low_bits_S n v : low_bits (S n) v = Z.testbit v 0 :: low_bits n (Z.shiftr v 1).
Proof.
  unfold low_bits. rewrite <- cons_seq, <- fmap_S_seq, fmap_cons, <- list_fmap_compose.
  f_equal. apply list_fmap_ext. intros i x _. cbn -[Z.of_nat Z.testbit].
  rewrite Z.shiftr_spec by lia. f_equal. lia.
Qed.

(** Feeding [n] bits one by one is mixing them in and doing [n] rounds. *)
Lemma crc_bit_low_bits n crc v :
  foldl crc_bit crc (low_bits n v) =
  Nat.iter n table_round (Z.lxor crc (v mod 2 ^ Z.of_nat n)).
Proof.
  revert crc v. induction n as [|n IH]; intros crc v.
  - simpl. rewrite Z.mod_1_r, Z.lxor_0_r. done.
  - rewrite low_bits_S. cbn [foldl]. rewrite IH, crc_bit_round, Nat.iter_succ_r.
    f_equal. rewrite mod_pow2_S, <- Z.lxor_assoc, (table_round_lxor (Z.lxor crc _)).
    f_equal. symmetry. apply (table_iter_high 1).
Qed.

Lemma crc32_step_bits crc b :
  0 <= crc → crc32_step crc b = foldl crc_bit crc (byte_bits b).
Proof.
  intros Hc. unfold byte_bits. rewrite crc_bit_low_bits, crc32_step_iter by done.
  rewrite Z.mod_small; [done|]. apply b2z_range.
Qed.

Lemma crc32_step_ok crc b : crc_ok crc → crc_ok (crc32_step crc b).
Proof.
  intros Hc. rewrite crc32_step_iter by apply Hc. apply table_iter_ok.
  apply lxor_bound; [lia|done|]. pose proof (b2z_range b). lia.
Qed.

Lemma crc32_update_ok data crc : crc_ok crc → crc_ok (crc32_update crc data).
Proof.
  revert crc. induction data as [|b data IH]; intros crc Hc; simpl; [done|].
  apply IH, crc32_step_ok, Hc.
Qed.

Lemma crc32_init_ok : crc_ok crc32_init.
Proof. unfold crc_ok, crc32_init. lia. Qed.

Lemma crc32_final_ok c : crc_ok c → crc_ok (crc32_final c).
Proof. intros. apply lxor_bound; [lia|done|lia]. Qed.

Create HintDb crc.
#[export] Hint Resolve crc32_init_ok crc32_final_ok crc32_update_ok crc32_step_ok
  table_round_ok table_iter_ok : crc.

(** Rounds lose nothing: the top bit of the result is the bit shifted out. *)
Lemma table_round_inj a b :
  crc_ok a → crc_ok b → table_round a = table_round b → a = b.
Proof.
  intros Ha Hb Heq.
  assert (∀ c, crc_ok c → Z.testbit (table_round c) 31 = Z.testbit c 0) as Htop.
  { intros c Hc. unfold table_round.
    assert (Z.testbit (Z.shiftr c 1) 31 = false) as Hs.
    { rewrite Z.shiftr_spec by lia.
      apply (proj1 (testbit_bound 32 c ltac:(lia) (proj1 Hc)) (proj2 Hc)). lia. }
    destruct (Z.testbit c 0); [|done]. by rewrite Z.lxor_spec, Hs. }
  assert (Z.testbit a 0 = Z.testbit b 0) as H0 by (rewrite <- !Htop by done; by rewrite Heq).
  assert (Z.shiftr a 1 = Z.shiftr b 1) as H1.
  { unfold table_round in Heq. rewrite H0 in Heq. destruct (Z.testbit b 0); [|done].
    apply (f_equal (Z.lxor 0xEDB88320)) in Heq. by rewrite !lxor_cancel_l in Heq. }
  apply Z.bits_inj'. intros i Hi. destruct (decide (i = 0)) as [->|]; [done|].
  replace i with ((i - 1) + 1) by lia. rewrite <- !Z.shiftr_spec by lia. by rewrite H1.
Qed.

Lemma table_iter_inj n a b :
  crc_ok a → crc_ok b → Nat.iter n table_round a = Nat.iter n table_round b → a = b.
Proof.
  intros Ha Hb. induction n; simpl; [done|]. intros H.
  apply IHn. eapply table_round_inj; eauto with crc.
Qed.

Lemma lxor_inj_l a b c : Z.lxor a b = Z.lxor a c → b = c.
Proof. intros H. apply (f_equal (Z.lxor a)) in H. by rewrite !lxor_cancel_l in H. Qed.

Lemma crc32_step_inj a b c :
  crc_ok a → crc_ok b → crc32_step a c = crc32_step b c → a = b.
Proof.
  intros Ha Hb. rewrite !crc32_step_iter by (apply Ha || apply Hb). intros H.
  assert (∀ x, crc_ok x → crc_ok (Z.lxor x (b2z c))) as Hx.
  { intros x ?. apply lxor_bound; [lia|done|]. pose proof (b2z_range c). lia. }
  apply table_iter_inj in H; [|auto..].
  rewrite !(Z.lxor_comm _ (b2z c)) in H. by apply lxor_inj_l in H.
Qed.

Lemma crc32_update_inj data a b :
  crc_ok a → crc_ok b → crc32_update a data = crc32_update b data → a = b.
Proof.
  revert a b. induction data as [|c data IH]; intros a b Ha Hb; simpl; [done|].
  intros H. apply IH in H; [|auto with crc..]. by eapply crc32_step_inj.
Qed.

Lemma crc32_update_app crc a b :
  crc32_update crc (a ++ b) = crc32_update (crc32_update crc a) b.
Proof. apply foldl_app. Qed.

(** Up to four bytes are a single mix of their little-endian value. *)
Fixpoint le_value (l : list byte) : Z :=
  match l with
  | [] => 0
  | b :: t => Z.lxor (b2z b) (Z.shiftl (le_value t) 8)
  end.

Lemma le_value_bound l : 0 <= le_value l < 2 ^ (8 * Z.of_nat (length l)).
Proof.
  induction l as [|b l IH]; simpl length; [simpl; lia|].
  cbn [le_value]. apply lxor_bound; [lia| |].
  - pose proof (b2z_range b). split; [lia|].
    apply Z.lt_le_trans with (2 ^ 8); [lia|]. apply Z.pow_le_mono_r; lia.
  - rewrite Z.shiftl_mul_pow2 by lia.
    replace (8 * Z.of_nat (S (length l))) with (8 * Z.of_nat (length l) + 8) by lia.
    rewrite Z.pow_add_r by lia. lia.
Qed.

Lemma le_value_inj a b : length a = length b → le_value a = le_value b → a = b.
Proof.
  revert b. induction a as [|x a IH]; intros [|y b]; try done.
  cbn [le_value length]. intros Hl Hv.
  assert (∀ x v, 0 <= v → Z.shiftr (Z.lxor (b2z x) (Z.shiftl v 8)) 8 = v) as Hsh.
  { intros x0 v Hv0. rewrite Z.shiftr_lxor, Z.shiftr_shiftl_l by lia.
    rewrite (Z.shiftr_div_pow2 (b2z x0)), Z.div_small by (lia || apply b2z_range).
    by rewrite Z.lxor_0_l, Z.shiftl_0_r. }
  assert (le_value a = le_value b) as Ht.
  { rewrite <- (Hsh x (le_value a)), <- (Hsh y (le_value b)) by apply le_value_bound.
    by rewrite Hv. }
  rewrite Ht, !(Z.lxor_comm _ (Z.shiftl _ 8)) in Hv. apply lxor_inj_l, b2z_inj in Hv.
  rewrite Hv, (IH b); [done|congruence|done].
Qed.

Lemma crc32_update_le crc l :
  crc_ok crc →
  crc32_update crc l = Nat.iter (8 * length l) table_round (Z.lxor crc (le_value l)).
Proof.
  revert crc. induction l as [|b l IH]; intros crc Hc.
  - simpl. by rewrite Z.lxor_0_r.
  - cbn [crc32_update foldl]. fold (crc32_update (crc32_step crc b) l).
    rewrite IH by auto with crc. rewrite crc32_step_iter by apply Hc.
    replace (8 * length (b :: l))%nat with (8 * length l + 8)%nat by (simpl; lia).
    rewrite Nat.iter_add. f_equal.
    rewrite <- (table_iter_high 8 (le_value l)) at 1.
    rewrite <- table_iter_lxor. cbn [le_value]. by rewrite <- Z.lxor_assoc.
Qed.

(** ** Properties *)

(** C37: the table-driven update of [util/crc32.c] is the bit-serial CRC-32 of
    the message (reflected polynomial 0xEDB88320), from any 32-bit register,
    and it keeps the 64-bit register below [2^32], so that the truncating casts
    of its callers lose nothing. *)
Theorem crc32_update_is_bit_serial crc data :
  crc_ok crc →
  crc32_update crc data = crc_bits crc data ∧ crc_ok (crc32_update crc data).
Proof.
  intros Hc. split; [|auto with crc]. unfold crc_bits.
  revert crc Hc. induction data as [|b data IH]; intros crc Hc; [done|].
  cbn [crc32_update foldl fmap list_fmap mjoin list_join].
  fold (crc32_update (crc32_step crc b) data). rewrite IH by auto with crc.
  rewrite foldl_app, <- crc32_step_bits by apply Hc. done.
Qed.

Lemma crc32_update_is_bit_serial_witness :
  crc_ok crc32_init ∧
  crc32_final (crc_bits crc32_init ($ "123456789")) = 0xCBF43926.
Proof.
  split; [apply crc32_init_ok|].
  rewrite <- (proj1 (crc32_update_is_bit_serial crc32_init ($ "123456789") crc32_init_ok)).
  vm_compute. reflexivity.
Defined.

(** Error detection. Two messages of the same length that differ only
    inside a window of at most four consecutive bytes (any burst of up to 32
    bits) never have the same CRC-32, whatever surrounds the window. *)
Theorem crc32_detects_bursts pre w w' post :
  length w = length w' → (length w <= 4)%nat → w ≠ w' →
  crc32 (pre ++ w ++ post) ≠ crc32 (pre ++ w' ++ post).
Proof.
  intros Hlen H4 Hne Heq. apply Hne. unfold crc32, crc32_final in Heq.
  rewrite !(Z.lxor_comm _ 0xFFFFFFFF) in Heq. apply lxor_inj_l in Heq.
  rewrite !crc32_update_app in Heq.
  apply crc32_update_inj in Heq; [|auto with crc..].
  rewrite (crc32_update_le _ w), (crc32_update_le _ w'), Hlen in Heq by auto with crc.
  assert (∀ v, (length v <= 4)%nat →
    crc_ok (Z.lxor (crc32_update crc32_init pre) (le_value v))) as Hok.
  { intros v Hv. apply lxor_bound; [lia|apply crc32_update_ok, crc32_init_ok|].
    destruct (le_value_bound v) as [Hv0 Hv1]. split; [exact Hv0|].
    eapply Z.lt_le_trans; [exact Hv1|]. apply Z.pow_le_mono_r; lia. }
  apply table_iter_inj in Heq; [|apply Hok; lia..].
  apply le_value_inj; [done|]. by eapply lxor_inj_l.
Qed.

Lemma crc32_detects_bursts_witness :
  crc32 ($ "ab" ++ $ "xyz" ++ $ "cd") ≠ crc32 ($ "ab" ++ $ "xz!" ++ $ "cd").
Proof.
  apply (crc32_detects_bursts ($ "ab") ($ "xyz") ($ "xz!") ($ "cd"));
    [reflexivity|simpl; lia|discriminate].
Defined.
