(* ===== verification/Cnum.v ===== *)
(** * Strings and numbers of the C library

    [strtol], [strtoul] and [atoi] as the program uses them, the printing of
    [%d] with the round trip between them, [strchr], and the trimming loop that
    several components share. *)

From Stdlib Require Import ZArith Lia List.
From Stdlib Require Import Strings.Byte Strings.String.
From stdpp Require Import base list gmap.
From S2P Require Import Prelude.

Fixpoint skip_space (s : cstr) : cstr :=
  match s with
  | c :: t => if isspace c then skip_space t else s
  | [] => []
  end.

(** The value of a digit in any base up to 16. *)
Definition digit_val (c : byte) : option Z :=
  let z := b2z c in
  if (48 <=? z) && (z <=? 57) then Some (z - 48)
  else if (97 <=? z) && (z <=? 102) then Some (z - 87)
  else if (65 <=? z) && (z <=? 70) then Some (z - 55)
  else None.

(** The longest run of digits of the base, as a number. *)
Fixpoint read_digits (base acc : Z) (s : cstr) : Z :=
  match s with
  | c :: t =>
    match digit_val c with
    | Some d => if d <? base then read_digits base (acc * base + d) t else acc
    | None => acc
    end
  | [] => acc
  end.

(** Sign and rest. *)
Definition read_sign (s : cstr) : bool * cstr :=
  match s with
  | x2d :: t => (true, t)
  | x2b :: t => (false, t)
  | _ => (false, s)
  end.

Definition clamp (lo hi z : Z) : Z := if z <? lo then lo else if hi <? z then hi else z.

(** [strtol(s, NULL, 10)]: saturates at the limits of [long]. *)
Definition strtol10 (s : cstr) : Z :=
  let '(neg, t) := read_sign (skip_space s) in
  let v := read_digits 10 0 t in
  clamp (- 2 ^ 63) (2 ^ 63 - 1) (if neg then - v else v).

(** [atoi(s)]: the low 32 bits of [strtol]. *)
Definition atoi (s : cstr) : Z := s32 (strtol10 s).

(** [strtoul(s, NULL, 16)]: an optional "0x" (when a digit follows) and sign;
    saturates at [ULONG_MAX], a sign negates modulo 2^64. *)
Definition skip_0x (s : cstr) : cstr :=
  match s with
  | x30 :: (x78 | x58) :: c :: t =>
    match digit_val c with Some _ => c :: t | None => s end
  | _ => s
  end.

Definition strtoul16 (s : cstr) : Z :=
  let '(neg, t) := read_sign (skip_space s) in
  let v := read_digits 16 0 (skip_0x t) in
  if 2 ^ 64 <=? v then 2 ^ 64 - 1 else if neg then u64 (- v) else v.

(** ** Printing *)

Definition digit_char (d : Z) : byte := z2b (48 + d).

(** The digits of a number below [10 ^ fuel]. *)
Fixpoint print_digits (fuel : nat) (n : Z) (acc : cstr) : cstr :=
  match fuel with
  | O => acc
  | S fuel =>
    let acc := digit_char (n mod 10) :: acc in
    if n <? 10 then acc else print_digits fuel (n / 10) acc
  end.

(** [%d], [%ld], [%lld] and [%zu] on a 64-bit value (at most 20 digits). *)
Definition print_dec (n : Z) : cstr :=
  if n <? 0 then x2d :: print_digits 20 (- n) [] else print_digits 20 n [].

(** ** Round trip *)

Lemma digit_char_val d : 0 <= d < 10 → digit_val (digit_char d) = Some d.
Proof.
  intros Hd. unfold digit_val, digit_char. rewrite z2b_small by lia.
  destruct (Z.leb_spec 48 (48 + d)), (Z.leb_spec (48 + d) 57); try lia. simpl. f_equal. lia.
Qed.

Lemma read_digits_print fuel n t k :
  0 <= n < 10 ^ Z.of_nat fuel → (0 < fuel)%nat → 0 <= k →
  ∃ m, read_digits 10 k (print_digits fuel n t) = read_digits 10 (k * 10 ^ Z.of_nat m + n) t.
Proof.
  revert n t k. induction fuel as [|fuel IH]; intros n t k Hn Hf Hk; [lia|].
  cbn [print_digits]. pose proof (Z.mod_pos_bound n 10 ltac:(lia)) as Hm.
  destruct (Z.ltb_spec n 10) as [Hlt|Hge].
  - exists 1%nat. cbn [read_digits]. rewrite digit_char_val by lia.
    rewrite (proj2 (Z.ltb_lt _ _)) by lia. rewrite Z.mod_small by lia. done.
  - assert (0 < fuel)%nat as Hf'. { destruct fuel; [simpl in Hn; lia|lia]. }
    assert (0 <= n / 10 < 10 ^ Z.of_nat fuel) as Hn'.
    { split; [apply Z.div_pos; lia|]. apply Z.div_lt_upper_bound; [lia|].
      rewrite Nat2Z.inj_succ, Z.pow_succ_r in Hn by lia. lia. }
    destruct (IH (n / 10) (digit_char (n mod 10) :: t) k Hn' Hf' Hk) as (m & ->).
    exists (S m). cbn [read_digits]. rewrite digit_char_val by lia.
    rewrite (proj2 (Z.ltb_lt _ _)) by lia. f_equal.
    rewrite Nat2Z.inj_succ, Z.pow_succ_r by lia. pose proof (Z.div_mod n 10 ltac:(lia)). lia.
Qed.

Lemma read_digits_nondigit base v t :
  (∀ c t', t = c :: t' → digit_val c = None) → read_digits base v t = v.
Proof. destruct t as [|c t]; intros Ht; [done|]. simpl. by rewrite (Ht c t). Qed.

(** Digits come first in what is printed. *)
Lemma print_digits_head fuel n t :
  0 <= n < 10 ^ Z.of_nat fuel → (0 < fuel)%nat →
  ∃ d l, 0 <= d < 10 ∧ print_digits fuel n t = digit_char d :: l.
Proof.
  revert n t. induction fuel as [|fuel IH]; intros n t Hn Hf; [lia|]. cbn [print_digits].
  pose proof (Z.mod_pos_bound n 10 ltac:(lia)).
  destruct (Z.ltb_spec n 10); [by eexists _, _|].
  apply IH.
  - split; [apply Z.div_pos; lia|]. apply Z.div_lt_upper_bound; [lia|].
    rewrite Nat2Z.inj_succ, Z.pow_succ_r in Hn by lia. lia.
  - destruct fuel; [simpl in Hn; lia|lia].
Qed.

Lemma digit_char_plain d : 0 <= d < 10 →
  isspace (digit_char d) = false ∧ digit_char d ≠ x2d ∧ digit_char d ≠ x2b.
Proof.
  intros Hd. unfold isspace. assert (b2z (digit_char d) = 48 + d) as E by (apply z2b_small; lia).
  rewrite E. split_and!.
  - destruct (Z.eqb_spec (48 + d) 32), (Z.leb_spec 9 (48 + d)), (Z.leb_spec (48 + d) 13); try lia; done.
  - intros H. rewrite H in E. change (b2z x2d) with 45 in E. lia.
  - intros H. rewrite H in E. change (b2z x2b) with 43 in E. lia.
Qed.

(** What is printed is read back, whatever follows that is no digit. *)
Lemma strtol10_print n t :
  - 2 ^ 63 <= n < 2 ^ 63 → (∀ c t', t = c :: t' → digit_val c = None) →
  strtol10 (print_dec n ++ t) = n.
Proof.
  intros Hn Ht.
  assert (∀ fuel k u, print_digits fuel k u ++ t = print_digits fuel k (u ++ t)) as Happ.
  { induction fuel as [|fuel IH]; intros k u; cbn [print_digits]; [done|].
    destruct (k <? 10); [done|]. by rewrite IH. }
  assert (∀ k, 0 <= k < 10 ^ 20 → read_digits 10 0 (print_digits 20 k t) = k) as Hread.
  { intros k Hk. destruct (read_digits_print 20 k t 0) as (m & ->); [done|lia|lia|].
    rewrite read_digits_nondigit by done. lia. }
  unfold strtol10, print_dec. destruct (Z.ltb_spec n 0).
  - cbn [app]. rewrite Happ. cbn [skip_space app]. change (isspace x2d) with false. cbn [read_sign].
    rewrite Hread by lia. unfold clamp. bool_cases; lia.
  - rewrite Happ. cbn [app]. destruct (print_digits_head 20 n t) as (d & l & Hd & E); [lia|lia|].
    destruct (digit_char_plain d Hd) as (H1 & H2 & H3).
    assert (read_sign (skip_space (print_digits 20 n t)) = (false, print_digits 20 n t)) as ->.
    { rewrite E. cbn [skip_space]. rewrite H1. by destruct (digit_char d). }
    rewrite Hread by lia. unfold clamp. bool_cases; lia.
Qed.

Lemma atoi_print n : - 2 ^ 31 <= n < 2 ^ 31 → atoi (print_dec n) = n.
Proof.
  intros Hn. unfold atoi. rewrite <- (app_nil_r (print_dec n)), strtol10_print by (done || lia).
  unfold s32. rewrite Z.mod_small; lia.
Qed.

Lemma print_dec_head n : 0 <= n < 2 ^ 63 → ∃ d l, 0 <= d < 10 ∧ print_dec n = digit_char d :: l.
Proof. intros Hn. unfold print_dec. rewrite (proj2 (Z.ltb_ge _ _)) by lia. apply print_digits_head; lia. Qed.

Lemma print_dec_chars n : 0 <= n < 2 ^ 63 → Forall (λ c, isspace c = false ∧ c ≠ x00) (print_dec n).
Proof.
  intros Hn. unfold print_dec. rewrite (proj2 (Z.ltb_ge _ _)) by lia.
  assert (∀ fuel k l, Forall (λ c, isspace c = false ∧ c ≠ x00) l →
    Forall (λ c, isspace c = false ∧ c ≠ x00) (print_digits fuel k l)) as Hall; [|by apply Hall].
  induction fuel as [|fuel IH]; intros k l Hl; cbn [print_digits]; [done|].
  pose proof (Z.mod_pos_bound k 10 ltac:(lia)) as Hm.
  assert (Forall (λ c, isspace c = false ∧ c ≠ x00) (digit_char (k mod 10) :: l)).
  { constructor; [|done]. split; [by apply digit_char_plain|]. intros Hz%(f_equal b2z).
    unfold digit_char in Hz. rewrite z2b_small in Hz by lia. change (b2z x00) with 0 in Hz. lia. }
  destruct (k <? 10); [done|by apply IH].
Qed.

(** ** Searching and trimming *)

(** [strchr(line, c)]: what comes before and after the first [c]. *)
Fixpoint split_at (c : byte) (s : cstr) : option (cstr * cstr) :=
  match s with
  | [] => None
  | x :: t =>
    if decide (x = c) then Some ([], t)
    else match split_at c t with
         | Some (a, b) => Some (x :: a, b)
         | None => None
         end
  end.

(** [strrchr(s, c)]: what comes before and after the last [c]. *)
Fixpoint split_last (c : byte) (s : cstr) : option (cstr * cstr) :=
  match s with
  | [] => None
  | x :: t =>
    match split_last c t with
    | Some (a, b) => Some (x :: a, b)
    | None => if decide (x = c) then Some ([], t) else None
    end
  end.

(** [while (len > 0 && isspace(start[len - 1])) len--;] *)
Fixpoint drop_trailing_space (s : cstr) : cstr :=
  match s with
  | [] => []
  | c :: t =>
    match drop_trailing_space t with
    | [] => if isspace c then [] else [c]
    | t' => c :: t'
    end
  end.

(** Leading and trailing white space removed. *)
Definition strip (s : cstr) : cstr := drop_trailing_space (skip_space s).

(** A string that [strip] leaves alone. *)
Definition trimmed (s : cstr) : Prop :=
  (∀ c, head s = Some c → isspace c = false) ∧ (∀ c, last s = Some c → isspace c = false).

Lemma drop_trailing_id s : (∀ c, last s = Some c → isspace c = false) → drop_trailing_space s = s.
Proof.
  induction s as [|c s IH]; intros Hl; [done|]. simpl. destruct s as [|d s].
  - simpl. by rewrite (Hl c eq_refl).
  - rewrite IH; [done|]. intros e He. apply Hl. by rewrite last_cons, He.
Qed.

Lemma drop_trailing_snoc s c : isspace c = true → drop_trailing_space (s ++ [c]) = drop_trailing_space s.
Proof.
  intros Hc. induction s as [|d s IH]; simpl; [by rewrite Hc|]. by rewrite IH.
Qed.

Lemma drop_trailing_spaces s ws :
  Forall (λ c, isspace c = true) ws → drop_trailing_space (s ++ ws) = drop_trailing_space s.
Proof.
  intros Hws. revert s. induction Hws as [|c ws Hc _ IH]; intros s; [by rewrite app_nil_r|].
  replace (s ++ c :: ws) with ((s ++ [c]) ++ ws) by by rewrite <- app_assoc.
  by rewrite IH, drop_trailing_snoc.
Qed.

Lemma skip_space_id s : (∀ c, head s = Some c → isspace c = false) → skip_space s = s.
Proof. destruct s as [|c s]; intros H; [done|]. simpl. by rewrite (H c eq_refl). Qed.

Lemma strip_id s : trimmed s → strip s = s.
Proof. intros [H1 H2]. unfold strip. by rewrite skip_space_id, drop_trailing_id. Qed.

Lemma strip_trailing s ws :
  trimmed s → s ≠ [] → Forall (λ c, isspace c = true) ws → strip (s ++ ws) = s.
Proof.
  intros [H1 H2] Hne Hws. unfold strip. rewrite skip_space_id.
  - rewrite drop_trailing_spaces by done. by apply drop_trailing_id.
  - intros c Hc. destruct s as [|d s]; [done|]. apply H1. exact Hc.
Qed.

Lemma split_last_app c a b : Forall (λ x, x ≠ c) b → split_last c (a ++ c :: b) = Some (a, b).
Proof.
  intros Hb. assert (split_last c b = None) as Hn.
  { induction Hb as [|x b Hx _ IH]; [done|]. simpl. by rewrite IH, decide_False. }
  induction a as [|x a IH]; simpl; [by rewrite Hn, decide_True|by rewrite IH].
Qed.

Lemma split_at_app c a b : Forall (λ x, x ≠ c) a → split_at c (a ++ c :: b) = Some (a, b).
Proof.
  induction 1 as [|x a Hx _ IH]; simpl; [by rewrite decide_True|]. by rewrite decide_False, IH.
Qed.

Lemma split_at_None c s : Forall (λ x, x ≠ c) s → split_at c s = None.
Proof. induction 1 as [|x s Hx _ IH]; simpl; [done|]. by rewrite decide_False, IH. Qed.
