(* ===== verification/Yenc.v ===== *)
(** * yEnc lines ([yenc/yenc.c])

    Control lines are told apart from data lines and their fields read. The
    byte transform is rapidyenc's: a parameter. *)

From Stdlib Require Import ZArith Lia List.
From Stdlib Require Import Strings.Byte Strings.String.
From stdpp Require Import base list gmap.
From S2P Require Import Prelude Cnum.

Inductive yenc_line_kind := YENC_LINE_DATA | YENC_LINE_BEGIN | YENC_LINE_PART | YENC_LINE_END.

#[global] Instance yenc_line_kind_eq_dec : EqDecision yenc_line_kind.
Proof. solve_decision. Defined.

Record yenc_line := YencLine {
  yl_size : Z;
  yl_begin : Z;
  yl_end : Z;
  yl_crc32 : Z;
  yl_has_size : bool;
  yl_has_range : bool;
  yl_has_crc32 : bool
}.

Definition yenc_line_zero : yenc_line := YencLine 0 0 0 0 false false false.

(** [out] and the two locals of [parse_fields]. *)
Record fields := Fields { fd_out : yenc_line; fd_begin : bool; fd_end : bool }.

Definition starts_with_keyword (line : list byte) (kw : cstr) : bool :=
  (length kw <=? length line)%nat && bool_decide (take (length kw) line = kw) &&
  ((length line =? length kw)%nat || bool_decide (line !! length kw = Some x20)).

Definition starts (s p : cstr) : bool := bool_decide (take (length p) s = p).

Fixpoint skip_blanks (s : cstr) : cstr :=
  match s with
  | x20 :: t => skip_blanks t
  | _ => s
  end.

(** [while ( *s && *s != ' ') s++]: the length passed over. *)
Fixpoint token_len (s : cstr) : nat :=
  match s with
  | [] => 0
  | c :: t => if decide (c = x20) then 0 else S (token_len t)
  end.

(** The chain of tests on one token; [tok] points into the rest of the line. *)
Definition apply_token (tok : cstr) (tok_len : nat) (f : fields) : fields :=
  let o := fd_out f in
  if (5 <? tok_len)%nat && starts tok ($ "size=") then
    Fields (YencLine (strtol10 (drop 5 tok)) (yl_begin o) (yl_end o) (yl_crc32 o) true
              (yl_has_range o) (yl_has_crc32 o)) (fd_begin f) (fd_end f)
  else if (6 <? tok_len)%nat && starts tok ($ "begin=") then
    Fields (YencLine (yl_size o) (strtol10 (drop 6 tok)) (yl_end o) (yl_crc32 o) (yl_has_size o)
              (yl_has_range o) (yl_has_crc32 o)) true (fd_end f)
  else if (4 <? tok_len)%nat && starts tok ($ "end=") then
    Fields (YencLine (yl_size o) (yl_begin o) (strtol10 (drop 4 tok)) (yl_crc32 o) (yl_has_size o)
              (yl_has_range o) (yl_has_crc32 o)) (fd_begin f) true
  else if (7 <? tok_len)%nat && starts tok ($ "pcrc32=") then
    Fields (YencLine (yl_size o) (yl_begin o) (yl_end o) (u32 (strtoul16 (drop 7 tok)))
              (yl_has_size o) (yl_has_range o) true) (fd_begin f) (fd_end f)
  else if (6 <? tok_len)%nat && negb (yl_has_crc32 o) && starts tok ($ "crc32=") then
    Fields (YencLine (yl_size o) (yl_begin o) (yl_end o) (u32 (strtoul16 (drop 6 tok)))
              (yl_has_size o) (yl_has_range o) true) (fd_begin f) (fd_end f)
  else f.

(** The loop; every round takes at least one byte. *)
Fixpoint fields_loop (fuel : nat) (s : cstr) (f : fields) : fields :=
  match fuel with
  | O => f
  | S fuel =>
    let tok := skip_blanks s in
    match tok with
    | [] => f
    | _ => fields_loop fuel (drop (token_len tok) tok) (apply_token tok (token_len tok) f)
    end
  end.

Definition parse_fields (s : cstr) (out : yenc_line) : yenc_line :=
  let f := fields_loop (S (length s)) s (Fields out false false) in
  let o := fd_out f in
  YencLine (yl_size o) (yl_begin o) (yl_end o) (yl_crc32 o) (yl_has_size o)
    (fd_begin f && fd_end f) (yl_has_crc32 o).

(** [line] is followed by a NUL in the caller's buffer. *)
Definition yenc_classify_line (line : list byte) : yenc_line_kind * yenc_line :=
  if starts_with_keyword line ($ "=ybegin") then
    (YENC_LINE_BEGIN, parse_fields (c_str (drop 7 line)) yenc_line_zero)
  else if starts_with_keyword line ($ "=ypart") then
    (YENC_LINE_PART, parse_fields (c_str (drop 6 line)) yenc_line_zero)
  else if starts_with_keyword line ($ "=yend") then
    (YENC_LINE_END, parse_fields (c_str (drop 5 line)) yenc_line_zero)
  else (YENC_LINE_DATA, yenc_line_zero).

(** [yenc_decode_line] over the transform of rapidyenc. *)
Definition yenc_decode_line (rapidyenc_decode_ex : list byte → list byte) (src : list byte)
    : list byte :=
  if (length src =? 0)%nat then [] else rapidyenc_decode_ex src.

(** The transform as the yEnc format defines it: a data line of encoded bytes,
    ["="] escaping the next one. *)
Fixpoint yenc_decode_ref (src : list byte) : list byte :=
  match src with
  | [] => []
  | x3d :: [] => []
  | x3d :: c :: t => z2b (b2z c - 64 - 42) :: yenc_decode_ref t
  | c :: t => z2b (b2z c - 42) :: yenc_decode_ref t
  end.

(** Encoders, as the format describes them: each byte plus 42, escaped where
    [esc] says so ("=" always). *)
Definition yenc_encode_with (esc : byte → bool) (data : list byte) : list byte :=
  mjoin ((λ b, let e := z2b (b2z b + 42) in
               if esc e then [x3d; z2b (b2z e + 64)] else [e]) <$> data).

(** The characters every encoder must escape. *)
Definition critical (c : byte) : bool :=
  bool_decide (c = x00 ∨ c = x0a ∨ c = x0d ∨ c = x3d).

(** ** Fields one token at a time *)

Definition plain_token (tok : cstr) : Prop := tok ≠ [] ∧ Forall (λ c, isspace c = false) tok.

Lemma plain_not_blank tok : Forall (λ c, isspace c = false) tok → Forall (λ c, c ≠ x20) tok.
Proof. intros H. eapply Forall_impl; [exact H|]. intros c Hc ->. done. Qed.

Lemma token_len_app tok rest :
  Forall (λ c, c ≠ x20) tok → (rest = [] ∨ ∃ r, rest = x20 :: r) →
  token_len (tok ++ rest) = length tok.
Proof.
  intros Ht Hr. induction Ht as [|c tok Hc Ht IH]; simpl.
  - by destruct Hr as [-> | [r ->]].
  - by rewrite decide_False, IH.
Qed.

Lemma skip_blanks_token tok rest :
  tok ≠ [] → Forall (λ c, c ≠ x20) tok → skip_blanks (tok ++ rest) = tok ++ rest.
Proof.
  destruct tok as [|c tok]; [done|]. intros _ Hc%Forall_cons. simpl.
  destruct (decide (c = x20)); [tauto|by destruct c].
Qed.

(** A number in a token is not affected by what follows the token. *)
Lemma read_digits_app base v s rest :
  (rest = [] ∨ ∃ r, rest = x20 :: r) → read_digits base v (s ++ rest) = read_digits base v s.
Proof.
  intros Hr. revert v. induction s as [|c s IH]; intros v; simpl.
  - by destruct Hr as [-> | [r ->]].
  - destruct (digit_val c) as [d|]; [|done]. destruct (d <? base); [apply IH|done].
Qed.

Lemma skip_space_plain v rest :
  v ≠ [] → Forall (λ c, isspace c = false) v → skip_space (v ++ rest) = v ++ rest.
Proof. destruct v as [|c v]; [done|]. intros _ [Hc _]%Forall_cons. simpl. by rewrite Hc. Qed.

Lemma read_sign_app v rest :
  v ≠ [] → read_sign (v ++ rest) = (fst (read_sign v), snd (read_sign v) ++ rest).
Proof. destruct v as [|c v]; [done|]. intros _. simpl. by destruct c. Qed.

Lemma strtol10_app v rest :
  v ≠ [] → Forall (λ c, isspace c = false) v → (rest = [] ∨ ∃ r, rest = x20 :: r) →
  strtol10 (v ++ rest) = strtol10 v.
Proof.
  intros Hv Hp Hr. unfold strtol10. rewrite skip_space_plain by done.
  rewrite <- (app_nil_r v) at 2. rewrite skip_space_plain, app_nil_r by done.
  rewrite read_sign_app by done. destruct (read_sign v) as [neg t]. cbn [fst snd].
  by rewrite read_digits_app.
Qed.

Lemma skip_0x_app t rest :
  (rest = [] ∨ ∃ r, rest = x20 :: r) → skip_0x (t ++ rest) = skip_0x t ++ rest.
Proof.
  intros Hr. destruct t as [|c1 [|c2 [|c3 t]]].
  - destruct Hr as [-> | [r ->]]; done.
  - destruct Hr as [-> | [r ->]]; [by rewrite !app_nil_r|]. by destruct c1.
  - destruct Hr as [-> | [r ->]]; [by rewrite !app_nil_r|]. destruct c1; try done. by destruct c2.
  - destruct c1; try done. destruct c2; try done; simpl; by destruct (digit_val c3).
Qed.

Lemma strtoul16_app v rest :
  v ≠ [] → Forall (λ c, isspace c = false) v → (rest = [] ∨ ∃ r, rest = x20 :: r) →
  strtoul16 (v ++ rest) = strtoul16 v.
Proof.
  intros Hv Hp Hr. unfold strtoul16. rewrite skip_space_plain by done.
  rewrite <- (app_nil_r v) at 2. rewrite skip_space_plain, app_nil_r by done.
  rewrite read_sign_app by done. destruct (read_sign v) as [neg t]. cbn [fst snd].
  by rewrite skip_0x_app, read_digits_app.
Qed.

Lemma starts_app tok rest p :
  (length p <= length tok)%nat → starts (tok ++ rest) p = starts tok p.
Proof. intros Hl. unfold starts. by rewrite take_app_le by done. Qed.

Lemma apply_token_app tok rest f :
  plain_token tok → (rest = [] ∨ ∃ r, rest = x20 :: r) →
  apply_token (tok ++ rest) (length tok) f = apply_token tok (length tok) f.
Proof.
  intros [Hne Hp] Hr.
  assert (∀ n, (n < length tok)%nat → drop n (tok ++ rest) = drop n tok ++ rest ∧ drop n tok ≠ [] ∧
    Forall (λ c, isspace c = false) (drop n tok)) as Hd.
  { intros n Hn. split_and!; [by apply drop_app_le; lia| |by apply Forall_drop].
    intros H%(f_equal length). rewrite length_drop in H. simpl in H. lia. }
  unfold apply_token.
  assert (∀ n (p : cstr), length p = n →
    (n <? length tok)%nat && starts (tok ++ rest) p = (n <? length tok)%nat && starts tok p) as Hs.
  { intros n p <-. destruct (Nat.ltb_spec (length p) (length tok)); [|done]. by rewrite starts_app by lia. }
  rewrite (Hs 5%nat), (Hs 6%nat), (Hs 4%nat), (Hs 7%nat) by done.
  assert ((6 <? length tok)%nat && negb (yl_has_crc32 (fd_out f)) && starts (tok ++ rest) ($ "crc32=") =
    (6 <? length tok)%nat && negb (yl_has_crc32 (fd_out f)) && starts tok ($ "crc32=")) as ->.
  { rewrite <- !(andb_comm (negb _)), <- !andb_assoc. by rewrite (Hs 6%nat ($ "crc32=") eq_refl). }
  repeat match goal with
  | |- (if ?b then _ else _) = _ => destruct b eqn:?
  end; try done;
  repeat match goal with
  | H : (_ && _) && _ = true |- _ => apply andb_true_iff in H as [H _]
  | H : (?n <? length tok)%nat && _ = true |- _ => apply andb_true_iff in H as [H _]
  | H : (?n <? length tok)%nat = true |- _ => apply Nat.ltb_lt in H; destruct (Hd n H) as (-> & ? & ?); clear H
  end; rewrite ?strtol10_app, ?strtoul16_app; done.
Qed.

(** Tokens as a control line carries them: each after a blank. *)
Definition spaced (toks : list cstr) : cstr := mjoin (cons x20 <$> toks).

Definition fold_tokens (toks : list cstr) (f : fields) : fields :=
  foldl (λ f tok, apply_token tok (length tok) f) f toks.

Lemma spaced_cases toks : spaced toks = [] ∨ ∃ r, spaced toks = x20 :: r.
Proof. destruct toks as [|t toks]; [by left|]. right. by eexists. Qed.

Lemma fields_loop_spaced fuel toks f :
  Forall plain_token toks → (length toks < fuel)%nat →
  fields_loop fuel (spaced toks) f = fold_tokens toks f.
Proof.
  intros Hall. revert fuel f. induction Hall as [|tok toks Ht Hall IH]; intros fuel f Hf.
  - by destruct fuel.
  - destruct fuel as [|fuel]; [simpl in Hf; lia|]. cbn [fields_loop].
    assert (skip_blanks (spaced (tok :: toks)) = tok ++ spaced toks) as ->.
    { change (spaced (tok :: toks)) with (x20 :: (tok ++ spaced toks)). cbn [skip_blanks].
      apply skip_blanks_token; [apply Ht|apply plain_not_blank, Ht]. }
    rewrite token_len_app by (apply plain_not_blank, Ht || apply spaced_cases).
    rewrite drop_app_length, apply_token_app by (done || apply spaced_cases).
    destruct Ht as [Hne _]. destruct tok as [|c tok]; [done|]. cbn [app].
    rewrite IH by (simpl in Hf; lia). done.
Qed.

Lemma spaced_length toks : Forall plain_token toks → (length toks <= length (spaced toks))%nat.
Proof.
  induction 1 as [|t toks _ _ IH]; [done|].
  change (spaced (t :: toks)) with (x20 :: (t ++ spaced toks)). simpl. rewrite length_app. lia.
Qed.

Lemma parse_fields_spaced toks o :
  Forall plain_token toks →
  parse_fields (spaced toks) o =
  let f := fold_tokens toks (Fields o false false) in
  YencLine (yl_size (fd_out f)) (yl_begin (fd_out f)) (yl_end (fd_out f)) (yl_crc32 (fd_out f))
    (yl_has_size (fd_out f)) (fd_begin f && fd_end f) (yl_has_crc32 (fd_out f)).
Proof.
  intros Hall. unfold parse_fields. rewrite fields_loop_spaced; [done|done|].
  pose proof (spaced_length toks Hall). lia.
Qed.

(** ** Classification *)

Lemma classify_keyword (kw : cstr) toks :
  starts_with_keyword (kw ++ spaced toks) kw = true.
Proof.
  unfold starts_with_keyword. rewrite length_app, take_app_length.
  rewrite (proj2 (Nat.leb_le _ _)), bool_decide_true by (done || lia).
  rewrite lookup_app_r, Nat.sub_diag by lia.
  destruct (spaced_cases toks) as [-> | [r ->]]; cbn [andb length].
  - by rewrite Nat.add_0_r, Nat.eqb_refl.
  - by rewrite orb_true_r.
Qed.

Definition keyword (k : yenc_line_kind) : cstr :=
  match k with
  | YENC_LINE_BEGIN => $ "=ybegin"
  | YENC_LINE_PART => $ "=ypart"
  | YENC_LINE_END => $ "=yend"
  | YENC_LINE_DATA => []
  end.

Lemma spaced_no_nul toks : Forall (λ t, Forall (λ c, c ≠ x00) t) toks → Forall (λ c, c ≠ x00) (spaced toks).
Proof.
  induction 1 as [|t toks Ht _ IH]; [constructor|].
  change (spaced (t :: toks)) with (x20 :: (t ++ spaced toks)). constructor; [done|]. by apply Forall_app.
Qed.

Lemma c_str_id s : Forall (λ c, c ≠ x00) s → c_str s = s.
Proof. induction 1 as [|c s Hc _ IH]; simpl; [done|]. by rewrite decide_False, IH. Qed.

Lemma classify_line_spaced k toks :
  k ≠ YENC_LINE_DATA → Forall plain_token toks → Forall (λ t, Forall (λ c, c ≠ x00) t) toks →
  yenc_classify_line (keyword k ++ spaced toks) = (k, parse_fields (spaced toks) yenc_line_zero).
Proof.
  intros Hk Hall Hnul. unfold yenc_classify_line.
  assert (∀ a b toks, length a ≠ length b → take (length b) a ≠ b → take (length a) b ≠ a →
    starts_with_keyword (a ++ spaced toks) b = false) as Hother.
  { intros a b ts Hl Hne Hne'. unfold starts_with_keyword.
    destruct (Nat.leb_spec (length b) (length (a ++ spaced ts))); [|done]. cbn [andb].
    rewrite bool_decide_false; [done|]. intros He.
    destruct (Nat.le_gt_cases (length b) (length a)).
    - rewrite take_app_le in He by done. done.
    - apply Hne'. rewrite <- He. rewrite take_take, Nat.min_l by lia. by rewrite take_app_length. }
  pose proof (c_str_id _ (spaced_no_nul toks Hnul)) as Hc.
  destruct k; cbn [keyword]; [done|..].
  - rewrite classify_keyword. change 7%nat with (length ($ "=ybegin")). by rewrite drop_app_length, Hc.
  - rewrite Hother, classify_keyword by (vm_compute; done).
    change 6%nat with (length ($ "=ypart")). by rewrite drop_app_length, Hc.
  - rewrite !Hother, classify_keyword by (vm_compute; done).
    change 5%nat with (length ($ "=yend")). by rewrite drop_app_length, Hc.
Qed.

(** ** What the fields mean *)

(** The value of a "key=value" token; an empty value does not count. *)
Definition field_val (key tok : cstr) : option cstr :=
  if (length key <? length tok)%nat && starts tok key then Some (drop (length key) tok) else None.

Lemma apply_token_cases tok f :
  let o := fd_out f in
  apply_token tok (length tok) f =
  match field_val ($ "size=") tok, field_val ($ "begin=") tok, field_val ($ "end=") tok,
        field_val ($ "pcrc32=") tok, field_val ($ "crc32=") tok with
  | Some v, _, _, _, _ => Fields (YencLine (strtol10 v) (yl_begin o) (yl_end o) (yl_crc32 o) true
      (yl_has_range o) (yl_has_crc32 o)) (fd_begin f) (fd_end f)
  | _, Some v, _, _, _ => Fields (YencLine (yl_size o) (strtol10 v) (yl_end o) (yl_crc32 o)
      (yl_has_size o) (yl_has_range o) (yl_has_crc32 o)) true (fd_end f)
  | _, _, Some v, _, _ => Fields (YencLine (yl_size o) (yl_begin o) (strtol10 v) (yl_crc32 o)
      (yl_has_size o) (yl_has_range o) (yl_has_crc32 o)) (fd_begin f) true
  | _, _, _, Some v, _ => Fields (YencLine (yl_size o) (yl_begin o) (yl_end o) (u32 (strtoul16 v))
      (yl_has_size o) (yl_has_range o) true) (fd_begin f) (fd_end f)
  | _, _, _, _, Some v => if yl_has_crc32 o then f
      else Fields (YencLine (yl_size o) (yl_begin o) (yl_end o) (u32 (strtoul16 v))
      (yl_has_size o) (yl_has_range o) true) (fd_begin f) (fd_end f)
  | _, _, _, _, _ => f
  end.
Proof.
  cbv zeta. unfold apply_token, field_val.
  change (length ($ "size=")) with 5%nat. change (length ($ "begin=")) with 6%nat.
  change (length ($ "end=")) with 4%nat. change (length ($ "pcrc32=")) with 7%nat.
  change (length ($ "crc32=")) with 6%nat.
  destruct ((5 <? length tok)%nat && starts tok ($ "size=")); [done|].
  destruct ((6 <? length tok)%nat && starts tok ($ "begin=")); [done|].
  destruct ((4 <? length tok)%nat && starts tok ($ "end=")); [done|].
  destruct ((7 <? length tok)%nat && starts tok ($ "pcrc32=")); [done|].
  destruct (6 <? length tok)%nat, (starts tok ($ "crc32=")), (yl_has_crc32 (fd_out f)); done.
Qed.

(** The keys are told apart by their first letters. *)
Lemma field_val_head key tok v c : field_val key tok = Some v → head key = Some c → head tok = Some c.
Proof.
  unfold field_val, starts. destruct (_ && _) eqn:E; [|done].
  apply andb_true_iff in E as [_ E%bool_decide_eq_true]. intros _ Hh.
  destruct key as [|k key]; [done|]. destruct tok as [|t tok]; [done|]. by injection E as ->.
Qed.

Definition has_key (key : cstr) (toks : list cstr) : list cstr := omap (field_val key) toks.

(** The checksum after the tokens: the last "pcrc32", else what was there, else
    the first "crc32". *)
Lemma fold_crc toks f :
  let f' := fold_tokens toks f in
  (yl_has_crc32 (fd_out f'), yl_crc32 (fd_out f')) =
  match last (has_key ($ "pcrc32=") toks) with
  | Some v => (true, u32 (strtoul16 v))
  | None => if yl_has_crc32 (fd_out f) then (true, yl_crc32 (fd_out f))
            else match head (has_key ($ "crc32=") toks) with
                 | Some v => (true, u32 (strtoul16 v))
                 | None => (false, yl_crc32 (fd_out f))
                 end
  end.
Proof.
  cbv zeta. revert f. induction toks as [|tok toks IH]; intros f.
  - cbn. by destruct (yl_has_crc32 (fd_out f)).
  - cbn [fold_tokens foldl]. fold (fold_tokens toks (apply_token tok (length tok) f)). rewrite IH.
    unfold has_key. cbn [omap list_omap]. rewrite apply_token_cases.
    destruct (field_val ($ "pcrc32=") tok) as [v|] eqn:Ep.
    + pose proof (field_val_head _ _ _ x70 Ep eq_refl) as Hh.
      destruct (field_val ($ "size=") tok) eqn:E1; [by rewrite (field_val_head _ _ _ x73 E1 eq_refl) in Hh|].
      destruct (field_val ($ "begin=") tok) eqn:E2; [by rewrite (field_val_head _ _ _ x62 E2 eq_refl) in Hh|].
      destruct (field_val ($ "end=") tok) eqn:E3; [by rewrite (field_val_head _ _ _ x65 E3 eq_refl) in Hh|].
      cbn [fd_out yl_has_crc32 yl_crc32]. rewrite last_cons.
      by destruct (last (omap (field_val ($ "pcrc32=")) toks)).
    + destruct (field_val ($ "crc32=") tok) as [v|] eqn:Ec.
      * pose proof (field_val_head _ _ _ x63 Ec eq_refl) as Hh.
        destruct (field_val ($ "size=") tok) eqn:E1; [by rewrite (field_val_head _ _ _ x73 E1 eq_refl) in Hh|].
        destruct (field_val ($ "begin=") tok) eqn:E2; [by rewrite (field_val_head _ _ _ x62 E2 eq_refl) in Hh|].
        destruct (field_val ($ "end=") tok) eqn:E3; [by rewrite (field_val_head _ _ _ x65 E3 eq_refl) in Hh|].
        destruct (last (omap (field_val ($ "pcrc32=")) toks)); [done|].
        destruct (yl_has_crc32 (fd_out f)) eqn:Eh; [by rewrite Eh|done].
      * by destruct (field_val ($ "size=") tok), (field_val ($ "begin=") tok), (field_val ($ "end=") tok).
Qed.

(** ** Printed numbers in tokens *)

Lemma token_print (p : cstr) n :
  Forall (λ c, isspace c = false ∧ c ≠ x00) p → p ≠ [] → 0 <= n < 2 ^ 63 →
  plain_token (p ++ print_dec n) ∧ Forall (λ c, c ≠ x00) (p ++ print_dec n) ∧
  field_val p (p ++ print_dec n) = Some (print_dec n).
Proof.
  intros Hp Hne Hn. pose proof (print_dec_chars n Hn) as Hdig.
  assert (Forall (λ c, isspace c = false ∧ c ≠ x00) (p ++ print_dec n)) as Hall by (by apply Forall_app).
  split_and!; [split|..].
  - by destruct p.
  - eapply Forall_impl; [exact Hall|]. by intros ? [? _].
  - eapply Forall_impl; [exact Hall|]. by intros ? [_ ?].
  - unfold field_val, starts. destruct (print_dec_head n Hn) as (d & l & _ & ->).
    rewrite take_app_length, drop_app_length, length_app. cbn [length].
    rewrite (proj2 (Nat.ltb_lt _ _)), bool_decide_true by (done || lia). done.
Qed.

(** ** Properties *)

(** ** Ranges *)

(** The numbers of a control line are [long]s. *)
Definition long_ok (z : Z) : Prop := - 2 ^ 63 <= z <= 2 ^ 63 - 1.
Definition line_ok (o : yenc_line) : Prop := long_ok (yl_size o) ∧ long_ok (yl_begin o) ∧ long_ok (yl_end o).

Lemma strtol10_ok s : long_ok (strtol10 s).
Proof.
  unfold strtol10, long_ok. destruct (read_sign (skip_space s)) as [neg t]. unfold clamp.
  bool_cases; lia.
Qed.

Lemma apply_token_ok tok n f : line_ok (fd_out f) → line_ok (fd_out (apply_token tok n f)).
Proof.
  intros (Hs & Hb & He). unfold apply_token, line_ok. cbv zeta.
  pose proof (strtol10_ok (drop 5 tok)). pose proof (strtol10_ok (drop 6 tok)).
  pose proof (strtol10_ok (drop 4 tok)).
  repeat match goal with |- context [if ?b then _ else _] => destruct b end; by cbn.
Qed.

Lemma fields_loop_ok fuel s f : line_ok (fd_out f) → line_ok (fd_out (fields_loop fuel s f)).
Proof.
  induction fuel as [|fuel IH] in s, f |- *; intros Hf; [done|]. cbn [fields_loop]. cbv zeta.
  destruct (skip_blanks s); [done|]. by apply IH, apply_token_ok.
Qed.

Lemma classify_line_ok line : line_ok (snd (yenc_classify_line line)).
Proof.
  assert (line_ok yenc_line_zero) as Hz by (unfold line_ok, long_ok; cbn; lia).
  assert (∀ s, line_ok (parse_fields s yenc_line_zero)) as Hp.
  { intros s. pose proof (fields_loop_ok (S (length s)) s (Fields yenc_line_zero false false) Hz) as H.
    exact H. }
  unfold yenc_classify_line. repeat match goal with |- context [if ?b then _ else _] => destruct b end;
    cbn [snd]; auto.
Qed.

(** On a "=yend" line the part's own checksum wins: whatever the order of
    its fields, [yenc_classify_line] reports the value of the last "pcrc32="
    if there is one, otherwise that of the first "crc32=", and says there is
    none exactly when neither is on the line. *)
Theorem yenc_end_prefers_part_crc (toks : list cstr)
    (Hplain : Forall plain_token toks) (Hnul : Forall (λ t, Forall (λ c, c ≠ x00) t) toks) :
  let '(kind, o) := yenc_classify_line ($ "=yend" ++ spaced toks) in
  kind = YENC_LINE_END ∧
  (yl_has_crc32 o, yl_crc32 o) =
  match last (has_key ($ "pcrc32=") toks), head (has_key ($ "crc32=") toks) with
  | Some v, _ => (true, u32 (strtoul16 v))
  | None, Some v => (true, u32 (strtoul16 v))
  | None, None => (false, 0)
  end.
Proof.
  change ($ "=yend") with (keyword YENC_LINE_END).
  rewrite (classify_line_spaced YENC_LINE_END toks) by done. split; [done|].
  rewrite parse_fields_spaced by done. cbv zeta. cbn [yl_has_crc32 yl_crc32].
  rewrite fold_crc. cbn [fd_out yenc_line_zero yl_has_crc32 yl_crc32].
  by destruct (last (has_key ($ "pcrc32=") toks)), (head (has_key ($ "crc32=") toks)).
Qed.

Lemma yenc_end_prefers_part_crc_witness :
  let '(kind, o) := yenc_classify_line ($ "=yend size=4 crc32=0000000f pcrc32=DEADbeef") in
  kind = YENC_LINE_END ∧ (yl_has_crc32 o, yl_crc32 o) = (true, 0xDEADBEEF).
Proof.
  exact (yenc_end_prefers_part_crc [$ "size=4"; $ "crc32=0000000f"; $ "pcrc32=DEADbeef"]
    ltac:(repeat (constructor; [split; [done|repeat constructor]|]); constructor)
    ltac:(repeat (constructor; [repeat (constructor; [done|]); constructor|]); constructor)).
Defined.

(** The byte range of a "=ypart" line is read exactly, for every pair of
    non-negative [long] values a poster can print. *)
Theorem yenc_part_range_read (begin_ end_ : Z)
    (Hb : 0 <= begin_ < 2 ^ 63) (He : 0 <= end_ < 2 ^ 63) :
  yenc_classify_line ($ "=ypart begin=" ++ print_dec begin_ ++ $ " end=" ++ print_dec end_) =
  (YENC_LINE_PART, YencLine 0 begin_ end_ 0 false true false).
Proof.
  destruct (token_print ($ "begin=") begin_ ltac:(repeat constructor; done) ltac:(done) Hb) as (P1 & N1 & V1).
  destruct (token_print ($ "end=") end_ ltac:(repeat constructor; done) ltac:(done) He) as (P2 & N2 & V2).
  set (t1 := $ "begin=" ++ print_dec begin_) in *. set (t2 := $ "end=" ++ print_dec end_) in *.
  assert ($ "=ypart begin=" ++ print_dec begin_ ++ $ " end=" ++ print_dec end_ =
    keyword YENC_LINE_PART ++ spaced [t1; t2]) as ->.
  { unfold t1, t2, spaced, keyword. cbn [fmap list_fmap]. rewrite !mjoin_cons. cbn [mjoin list_join].
    rewrite app_nil_r. cbn [app list_byte_of_string]. rewrite <- ?app_assoc. reflexivity. }
  assert (Forall plain_token [t1; t2]) as Hpl
    by (apply Forall_cons_2; [exact P1|apply Forall_cons_2; [exact P2|apply Forall_nil_2]]).
  assert (Forall (λ t, Forall (λ c, c ≠ x00) t) [t1; t2]) as Hnn
    by (apply Forall_cons_2; [exact N1|apply Forall_cons_2; [exact N2|apply Forall_nil_2]]).
  rewrite classify_line_spaced, parse_fields_spaced by done.
  unfold fold_tokens. cbn [foldl]. rewrite !apply_token_cases.
  assert (field_val ($ "size=") t1 = None ∧ field_val ($ "size=") t2 = None ∧
    field_val ($ "begin=") t2 = None) as (-> & -> & ->).
  { split_and!; unfold field_val, t1, t2; destruct (_ <? _)%nat; done. }
  rewrite V1, V2. cbn.
  rewrite <- (app_nil_r (print_dec begin_)), <- (app_nil_r (print_dec end_)).
  rewrite !strtol10_print by (done || lia). done.
Qed.

Lemma yenc_part_range_read_witness :
  yenc_classify_line ($ "=ypart begin=384001 end=768000") =
  (YENC_LINE_PART, YencLine 0 384001 768000 0 false true false).
Proof. exact (yenc_part_range_read 384001 768000 ltac:(lia) ltac:(lia)). Defined.

Lemma decode_plain c t : c ≠ x3d → yenc_decode_ref (c :: t) = z2b (b2z c - 42) :: yenc_decode_ref t.
Proof. intros Hc. destruct c; done. Qed.

Lemma z2b_mod a b : a mod 256 = b mod 256 → z2b a = z2b b.
Proof. unfold z2b. by intros ->. Qed.

Lemma decode_encode_with esc data :
  esc x3d = true → yenc_decode_ref (yenc_encode_with esc data) = data.
Proof.
  intros Hesc. unfold yenc_encode_with. induction data as [|b data IH]; [done|].
  rewrite fmap_cons, mjoin_cons. cbv zeta. set (e := z2b (b2z b + 42)).
  assert (∀ v, v mod 256 = b2z b mod 256 → z2b v = b) as Hv.
  { intros v Hv. rewrite <- (z2b_b2z b) at 1. by apply z2b_mod. }
  assert (b2z e = (b2z b + 42) mod 256) as He by apply b2z_z2b.
  destruct (esc e) eqn:E; cbn [app].
  - change (yenc_decode_ref (x3d :: z2b (b2z e + 64) :: ?t))
      with (z2b (b2z (z2b (b2z e + 64)) - 64 - 42) :: yenc_decode_ref t).
    rewrite IH. f_equal. apply Hv. rewrite b2z_z2b, He. Z.div_mod_to_equations. lia.
  - rewrite decode_plain by congruence. rewrite IH. f_equal. apply Hv. rewrite He.
    Z.div_mod_to_equations. lia.
Qed.

Lemma keyword_starts line kw :
  starts_with_keyword line kw = true → take 2 kw = $ "=y" → (2 <= length kw)%nat → take 2 line = $ "=y".
Proof.
  unfold starts_with_keyword. intros [[_ H%bool_decide_eq_true]%andb_true_iff _]%andb_true_iff Hk Hl.
  rewrite <- Hk, <- H, take_take. f_equal. lia.
Qed.

(** No data line is mistaken for a control line: for every encoder that
    escapes "=" and does not escape "9" (no yEnc encoder does), the line of
    any data is classified as data, and decoding it as the format says gives
    the data back. *)
Theorem yenc_data_line_roundtrip (esc : byte → bool) (data : list byte)
    (Heq : esc x3d = true) (H9 : esc x39 = false) :
  yenc_classify_line (yenc_encode_with esc data) = (YENC_LINE_DATA, yenc_line_zero) ∧
  yenc_decode_line yenc_decode_ref (yenc_encode_with esc data) = data.
Proof.
  split.
  - assert (take 2 (yenc_encode_with esc data) ≠ $ "=y") as Hne.
    { destruct data as [|b data]; [done|]. unfold yenc_encode_with. rewrite fmap_cons, mjoin_cons.
      cbv zeta. set (e := z2b (b2z b + 42)). destruct (esc e) eqn:E; cbn [app take firstn].
      - intros H. apply (f_equal (λ l, nth 1 l x00)) in H. cbn in H. apply (f_equal b2z) in H.
        rewrite b2z_z2b in H. change (b2z x79) with 121 in H.
        pose proof (b2z_range e). assert (b2z e = b2z x39) as He.
        { change (b2z x39) with 57. Z.div_mod_to_equations. lia. }
        apply (inj b2z) in He. congruence.
      - intros H. injection H as H _. congruence. }
    unfold yenc_classify_line.
    repeat match goal with |- context [starts_with_keyword ?l ?k] =>
      destruct (starts_with_keyword l k) eqn:E;
      [exfalso; apply Hne, (keyword_starts _ _ E); [done|cbn; lia]|clear E] end.
    done.
  - unfold yenc_decode_line. pose proof (decode_encode_with esc data Heq) as Hd.
    destruct (yenc_encode_with esc data) eqn:E; simpl in *; done.
Qed.

Lemma yenc_data_line_roundtrip_witness :
  yenc_classify_line (yenc_encode_with critical [x13; x4f]) = (YENC_LINE_DATA, yenc_line_zero) ∧
  yenc_decode_line yenc_decode_ref (yenc_encode_with critical [x13; x4f]) = [x13; x4f].
Proof. exact (yenc_data_line_roundtrip critical [x13; x4f] eq_refl eq_refl). Defined.
