(* ===== verification/Config.v ===== *)
(** * Configuration ([config/config.c])

    A key=value file: what is saved is what is loaded. *)

From Stdlib Require Import ZArith Lia List.
From Stdlib Require Import Strings.Byte Strings.String.
From stdpp Require Import base list gmap.
From S2P Require Import Prelude Cnum.

Record nntp_config := NntpConfig {
  nc_host : cstr;
  nc_port : cstr;
  nc_tls : Z;
  nc_user : cstr;
  nc_pass : cstr;
  nc_max_connections : Z;
  nc_connect_timeout_sec : Z;
  nc_read_timeout_sec : Z;
  nc_retry_count : Z
}.

Record storage_config := StorageConfig { sc_output_dir : cstr; sc_temp_dir : cstr }.

Record queue_config := QueueConfig { qc_max_retries : Z }.

Record app_config := AppConfig {
  ac_nntp : nntp_config;
  ac_storage : storage_config;
  ac_queue : queue_config
}.

(** [trim]: leading and trailing white space removed. *)
Definition trim (s : cstr) : cstr := strip s.

Definition app_config_set_defaults : app_config :=
  AppConfig (NntpConfig [] [] 0 [] [] 4 60 15 5)
    (StorageConfig ($ "/data/games") ($ "/data/nzb-downloader/incomplete")) (QueueConfig 3).

Definition apply_kv (cfg : app_config) (key val : cstr) : app_config :=
  let n := ac_nntp cfg in
  let s := ac_storage cfg in
  if decide (key = $ "host") then
    AppConfig (NntpConfig (str_fit 256 val) (nc_port n) (nc_tls n) (nc_user n) (nc_pass n)
      (nc_max_connections n) (nc_connect_timeout_sec n) (nc_read_timeout_sec n) (nc_retry_count n)) s (ac_queue cfg)
  else if decide (key = $ "port") then
    AppConfig (NntpConfig (nc_host n) (str_fit 8 val) (nc_tls n) (nc_user n) (nc_pass n)
      (nc_max_connections n) (nc_connect_timeout_sec n) (nc_read_timeout_sec n) (nc_retry_count n)) s (ac_queue cfg)
  else if decide (key = $ "ssl" ∨ key = $ "tls") then
    AppConfig (NntpConfig (nc_host n) (nc_port n) (atoi val) (nc_user n) (nc_pass n)
      (nc_max_connections n) (nc_connect_timeout_sec n) (nc_read_timeout_sec n) (nc_retry_count n)) s (ac_queue cfg)
  else if decide (key = $ "user") then
    AppConfig (NntpConfig (nc_host n) (nc_port n) (nc_tls n) (str_fit 128 val) (nc_pass n)
      (nc_max_connections n) (nc_connect_timeout_sec n) (nc_read_timeout_sec n) (nc_retry_count n)) s (ac_queue cfg)
  else if decide (key = $ "pass") then
    AppConfig (NntpConfig (nc_host n) (nc_port n) (nc_tls n) (nc_user n) (str_fit 128 val)
      (nc_max_connections n) (nc_connect_timeout_sec n) (nc_read_timeout_sec n) (nc_retry_count n)) s (ac_queue cfg)
  else if decide (key = $ "max_connections") then
    AppConfig (NntpConfig (nc_host n) (nc_port n) (nc_tls n) (nc_user n) (nc_pass n)
      (atoi val) (nc_connect_timeout_sec n) (nc_read_timeout_sec n) (nc_retry_count n)) s (ac_queue cfg)
  else if decide (key = $ "output_dir") then
    AppConfig n (StorageConfig (str_fit 512 val) (sc_temp_dir s)) (ac_queue cfg)
  else if decide (key = $ "temp_dir") then
    AppConfig n (StorageConfig (sc_output_dir s) (str_fit 512 val)) (ac_queue cfg)
  else if decide (key = $ "max_retries") then AppConfig n s (QueueConfig (atoi val))
  else cfg.

(** ** Lines *)

(** [fgets(line, k + 1, f)]: at most [k] bytes, up to and with a newline. *)
Fixpoint fgets (k : nat) (s : list byte) : list byte :=
  match k, s with
  | S k, c :: t => if decide (c = x0a) then [c] else c :: fgets k t
  | _, _ => []
  end.

(** The successive lines; each call consumes at least one byte. *)
Fixpoint fgets_all (fuel size : nat) (s : list byte) : list (list byte) :=
  match fuel with
  | O => []
  | S fuel =>
    match s with
    | [] => []
    | _ => let l := fgets (size - 1) s in l :: fgets_all fuel size (drop (length l) s)
    end
  end.

Definition load_line (cfg : app_config) (line : list byte) : app_config :=
  let line := trim (c_str line) in
  match line with
  | [] => cfg
  | x23 :: _ => cfg
  | _ =>
    match split_at x3d line with
    | None => cfg
    | Some (key, val) => apply_kv cfg (trim key) (trim val)
    end
  end.

(** The checks after the last line: [None] is the return value -1. *)
Definition check_config (cfg : app_config) : option app_config :=
  let n := ac_nntp cfg in
  match nc_host n with
  | [] => None
  | _ =>
    let port := match nc_port n with
                | [] => if nc_tls n =? 0 then $ "119" else $ "563"
                | p => p
                end in
    let conns := if nc_max_connections n <? 1 then 1 else nc_max_connections n in
    let retries := if qc_max_retries (ac_queue cfg) <? 0 then 0 else qc_max_retries (ac_queue cfg) in
    Some (AppConfig (NntpConfig (nc_host n) port (nc_tls n) (nc_user n) (nc_pass n) conns
            (nc_connect_timeout_sec n) (nc_read_timeout_sec n) (nc_retry_count n))
            (ac_storage cfg) (QueueConfig retries))
  end.

(** The struct and whether 0 is returned; a missing file leaves the defaults. *)
Definition app_config_load (content : option (list byte)) : app_config * bool :=
  match content with
  | None => (app_config_set_defaults, false)
  | Some data =>
    let cfg := foldl load_line app_config_set_defaults (fgets_all (S (length data)) 1024 data) in
    match check_config cfg with
    | Some cfg => (cfg, true)
    | None => (cfg, false)
    end
  end.

Definition kv_line (key val : cstr) : cstr := key ++ $ "=" ++ val ++ [x0a].

Definition config_lines (cfg : app_config) : list (cstr * cstr) :=
  let n := ac_nntp cfg in
  [($ "host", nc_host n); ($ "port", nc_port n); ($ "ssl", print_dec (nc_tls n));
   ($ "user", nc_user n); ($ "pass", nc_pass n);
   ($ "max_connections", print_dec (nc_max_connections n));
   ($ "output_dir", sc_output_dir (ac_storage cfg)); ($ "temp_dir", sc_temp_dir (ac_storage cfg));
   ($ "max_retries", print_dec (qc_max_retries (ac_queue cfg)))].

Definition app_config_save (cfg : app_config) : list byte :=
  mjoin ((λ kv, kv_line (fst kv) (snd kv)) <$> config_lines cfg).

Definition app_config_redacted (cfg : app_config) : app_config :=
  let n := ac_nntp cfg in
  AppConfig (NntpConfig (nc_host n) (nc_port n) (nc_tls n) (nc_user n) [] (nc_max_connections n)
    (nc_connect_timeout_sec n) (nc_read_timeout_sec n) (nc_retry_count n))
    (ac_storage cfg) (ac_queue cfg).

(** ** One line *)

(** A line as it is written: the key, "=", the value. *)
Definition key_ok (key : cstr) : Prop :=
  key ≠ [] ∧ Forall (λ c, isspace c = false ∧ c ≠ x3d ∧ c ≠ x00 ∧ c ≠ x23 ∧ c ≠ x0a) key.

Definition value_ok (val : cstr) : Prop := trimmed val ∧ Forall (λ c, c ≠ x00 ∧ c ≠ x0a) val.

Lemma trim_line key val :
  key_ok key → value_ok val → trim (key ++ $ "=" ++ val ++ [x0a]) = key ++ $ "=" ++ val.
Proof.
  intros [Hne Hk] [[_ Hv] _]. unfold trim, strip. destruct key as [|c key]; [done|].
  apply Forall_cons in Hk as [[Hc _] _]. cbn [app]. rewrite skip_space_id by (intros d [= <-]; done).
  change (c :: key ++ ?l) with ((c :: key) ++ l).
  replace ((c :: key) ++ $ "=" ++ val ++ [x0a]) with (((c :: key) ++ $ "=" ++ val) ++ [x0a])
    by (by rewrite <- !app_assoc).
  rewrite drop_trailing_snoc by done. apply drop_trailing_id.
  intros d Hd. rewrite last_app in Hd. rewrite last_app in Hd.
  destruct (last val) as [e|] eqn:E; [injection Hd as <-; by apply Hv|]. by injection Hd as <-.
Qed.

Lemma split_at_key key val : Forall (λ c, c ≠ x3d) key → split_at x3d (key ++ $ "=" ++ val) = Some (key, val).
Proof.
  induction 1 as [|c key Hc Hk IH]; [done|]. cbn [app split_at].
  rewrite decide_False by done. by rewrite IH.
Qed.

Lemma c_str_plain s : Forall (λ c, c ≠ x00) s → c_str s = s.
Proof. induction 1 as [|c s Hc _ IH]; simpl; [done|]. by rewrite decide_False, IH. Qed.

Lemma key_trimmed key : key_ok key → trimmed key.
Proof.
  intros [_ Hk]. rewrite Forall_forall in Hk. split; intros c Hc.
  - destruct key as [|d key]; [done|]. injection Hc as ->. by apply Hk, list_elem_of_here.
  - apply last_Some in Hc as [l ->]. apply Hk. apply elem_of_app. right. by apply list_elem_of_singleton.
Qed.

(** One written line is applied as written. *)
Lemma load_kv_line cfg key val :
  key_ok key → value_ok val → load_line cfg (kv_line key val) = apply_kv cfg key val.
Proof.
  intros Hk Hv. unfold load_line, kv_line.
  assert (Forall (λ c, c ≠ x00) (key ++ $ "=" ++ val ++ [x0a])) as Hnul.
  { destruct Hk as [_ Hk], Hv as [_ Hv]. rewrite !Forall_app. split_and!.
    - eapply Forall_impl; [exact Hk|]. naive_solver.
    - by repeat constructor.
    - eapply Forall_impl; [exact Hv|]. naive_solver.
    - by repeat constructor. }
  rewrite c_str_plain, trim_line by done. cbv zeta.
  assert (Forall (λ c, c ≠ x3d) key) as Heq.
  { eapply Forall_impl; [apply Hk|]. naive_solver. }
  rewrite split_at_key by done. unfold trim. rewrite (strip_id key), (strip_id val) by (apply Hv || by apply key_trimmed).
  destruct Hk as [Hne Hk]. destruct key as [|c key]; [done|]. apply Forall_cons in Hk as [Hc _].
  cbn [app]. destruct (decide (c = x23)); [tauto|]. by destruct c.
Qed.

(** ** Reading lines back *)

Lemma fgets_line k s rest :
  Forall (λ c, c ≠ x0a) s → (length s < k)%nat → fgets k (s ++ [x0a] ++ rest) = s ++ [x0a].
Proof.
  intros Hs. revert k. induction Hs as [|c s Hc Hs IH]; intros [|k] Hk; simpl in *; try lia.
  - done.
  - rewrite decide_False by done. f_equal. apply IH. lia.
Qed.

Lemma fgets_all_lines lines fuel :
  Forall (λ s, Forall (λ c, c ≠ x0a) s ∧ (length s < 1023)%nat) lines → (length lines < fuel)%nat →
  fgets_all fuel 1024 (mjoin ((λ s, s ++ [x0a]) <$> lines)) = (λ s, s ++ [x0a]) <$> lines.
Proof.
  intros Hall. revert fuel. induction Hall as [|s lines [Hs Hl] Hall IH]; intros fuel Hf.
  - by destruct fuel.
  - destruct fuel as [|fuel]; [simpl in Hf; lia|]. rewrite fmap_cons, mjoin_cons.
    cbn [fgets_all]. rewrite <- (app_assoc s).
    assert (fgets (1024 - 1) (s ++ [x0a] ++ mjoin ((λ s, s ++ [x0a]) <$> lines)) = s ++ [x0a]) as Hg
      by (apply fgets_line; [done|lia]).
    rewrite Hg. rewrite app_assoc, drop_app_length, IH by (simpl in Hf; lia).
    by destruct s.
Qed.

(** ** Properties *)

Definition text_ok (n : nat) (s : cstr) : Prop := value_ok s ∧ (length s < n)%nat.

(** A configuration that can be in use: values without line breaks or outer
    blanks that fit their arrays, a host, and the numbers [app_config_load]
    would accept. *)
Record config_wf (cfg : app_config) : Prop := {
  cw_host : text_ok 256 (nc_host (ac_nntp cfg)) ∧ nc_host (ac_nntp cfg) ≠ [];
  cw_port : text_ok 8 (nc_port (ac_nntp cfg)) ∧ nc_port (ac_nntp cfg) ≠ [];
  cw_tls : 0 <= nc_tls (ac_nntp cfg) < 2 ^ 31;
  cw_user : text_ok 128 (nc_user (ac_nntp cfg));
  cw_pass : text_ok 128 (nc_pass (ac_nntp cfg));
  cw_conns : 1 <= nc_max_connections (ac_nntp cfg) < 2 ^ 31;
  cw_fixed : nc_connect_timeout_sec (ac_nntp cfg) = 60 ∧ nc_read_timeout_sec (ac_nntp cfg) = 15 ∧
             nc_retry_count (ac_nntp cfg) = 5;
  cw_output : text_ok 512 (sc_output_dir (ac_storage cfg));
  cw_temp : text_ok 512 (sc_temp_dir (ac_storage cfg));
  cw_retries : 0 <= qc_max_retries (ac_queue cfg) < 2 ^ 31
}.

Lemma print_dec_value n : 0 <= n < 2 ^ 63 → value_ok (print_dec n).
Proof.
  intros Hn. pose proof (print_dec_chars n Hn) as Hc. rewrite Forall_forall in Hc. split; [split|].
  - intros c Hh. apply Hc. destruct (print_dec n); [done|]. injection Hh as ->. apply list_elem_of_here.
  - intros c Hl. apply last_Some in Hl as [l E]. apply Hc. rewrite E. apply elem_of_app. right.
    by apply list_elem_of_singleton.
  - apply Forall_forall. intros c Hin. destruct (Hc c Hin) as [Hs H0]. split; [done|]. intros ->. done.
Qed.

Lemma print_dec_length n : (length (print_dec n) <= 21)%nat.
Proof.
  assert (∀ fuel k l, (length (print_digits fuel k l) <= fuel + length l)%nat) as H.
  { induction fuel as [|fuel IH]; intros k l; cbn [print_digits]; [lia|].
    destruct (k <? 10); [cbn; lia|]. etransitivity; [apply IH|]. cbn. lia. }
  unfold print_dec. destruct (n <? 0); cbn [length]; [pose proof (H 20%nat (- n) [])|pose proof (H 20%nat n [])];
    cbn in *; lia.
Qed.

Lemma str_fit_text n s : text_ok n s → str_fit n s = s.
Proof. intros [_ H]. unfold str_fit. apply take_ge. lia. Qed.

Lemma config_lines_ok cfg :
  config_wf cfg →
  Forall (λ kv, key_ok (fst kv) ∧ value_ok (snd kv) ∧ (length (fst kv) + length (snd kv) < 600)%nat)
    (config_lines cfg).
Proof.
  intros []. unfold text_ok in *.
  pose proof (print_dec_length (nc_tls (ac_nntp cfg))).
  pose proof (print_dec_length (nc_max_connections (ac_nntp cfg))).
  pose proof (print_dec_length (qc_max_retries (ac_queue cfg))).
  repeat (apply Forall_cons_2; [cbn [fst snd]; split_and!;
    [split; [done|by repeat constructor]
    |first [apply print_dec_value; lia | tauto]
    |match goal with |- (length ?k + length ?v < 600)%nat =>
       let n := eval vm_compute in (length k) in change (length k) with n; lia end]|]).
  apply Forall_nil_2.
Qed.

Lemma lines_length (lines : list cstr) :
  (length lines <= length (mjoin ((λ s, s ++ [x0a]) <$> lines)))%nat.
Proof.
  induction lines as [|l lines IH]; [done|]. rewrite fmap_cons, mjoin_cons, !length_app. cbn [length]. lia.
Qed.

(** A saved configuration is loaded back unchanged: every field, also
    values with "=" or "#" inside them and an empty user or password. *)
Theorem config_save_load_roundtrip (cfg : app_config) (Hwf : config_wf cfg) :
  app_config_load (Some (app_config_save cfg)) = (cfg, true).
Proof.
  pose proof (config_lines_ok cfg Hwf) as Hlines. unfold app_config_load.
  set (kvs := config_lines cfg) in *.
  assert (app_config_save cfg = mjoin ((λ s, s ++ [x0a]) <$> ((λ kv, fst kv ++ $ "=" ++ snd kv) <$> kvs))) as Hsave.
  { reflexivity. }
  rewrite Hsave, fgets_all_lines.
  2:{ apply Forall_fmap. eapply Forall_impl; [exact Hlines|].
      intros [k v] (Hk & Hv & Hl). cbn [fst snd compose] in *. split.
      - rewrite !Forall_app. split_and!; [|by repeat constructor|].
        + eapply Forall_impl; [apply Hk|]. naive_solver.
        + eapply Forall_impl; [apply Hv|]. naive_solver.
      - rewrite !length_app. change (length ($ "=")) with 1%nat. lia. }
  2:{ pose proof (lines_length ((λ kv, fst kv ++ $ "=" ++ snd kv) <$> kvs)). lia. }
  assert (foldl load_line app_config_set_defaults
    ((λ s, s ++ [x0a]) <$> ((λ kv, fst kv ++ $ "=" ++ snd kv) <$> kvs)) =
    foldl (λ c kv, apply_kv c (fst kv) (snd kv)) app_config_set_defaults kvs) as ->.
  { generalize app_config_set_defaults as c. clear Hsave. induction Hlines as [|kv l (Hk & Hv & _) _ IH];
      intros c; [done|]. rewrite !fmap_cons. cbn [foldl]. rewrite <- IH. f_equal.
    rewrite <- load_kv_line by done. unfold kv_line. by rewrite <- !app_assoc. }
  destruct cfg as [[host port tls user pass conns ct rt rc] [out tmp] [retries]].
  destruct Hwf. cbn [ac_nntp ac_storage ac_queue nc_host nc_port nc_tls nc_user nc_pass
    nc_max_connections nc_connect_timeout_sec nc_read_timeout_sec nc_retry_count sc_output_dir
    sc_temp_dir qc_max_retries] in *.
  change (foldl (λ c kv, apply_kv c (fst kv) (snd kv)) app_config_set_defaults kvs) with
    (AppConfig (NntpConfig (str_fit 256 host) (str_fit 8 port) (atoi (print_dec tls)) (str_fit 128 user)
       (str_fit 128 pass) (atoi (print_dec conns)) 60 15 5)
       (StorageConfig (str_fit 512 out) (str_fit 512 tmp)) (QueueConfig (atoi (print_dec retries)))).
  rewrite !str_fit_text, !atoi_print by (tauto || lia).
  unfold check_config. cbn. destruct cw_host0 as [_ Hh], cw_port0 as [_ Hp], cw_fixed0 as (-> & -> & ->).
  rewrite (proj2 (Z.ltb_ge _ _)), (proj2 (Z.ltb_ge _ _)) by lia.
  destruct host; [done|]. destruct port; [done|]. done.
Qed.

Definition sample_config : app_config :=
  AppConfig (NntpConfig ($ "news.example.org") ($ "563") 1 ($ "bob") ($ "p=#w d") 20 60 15 5)
    (StorageConfig ($ "/mnt/usb0") ($ "/data/tmp")) (QueueConfig 3).

Lemma config_save_load_roundtrip_witness :
  app_config_load (Some (app_config_save sample_config)) = (sample_config, true).
Proof.
  apply (config_save_load_roundtrip sample_config).
  assert (∀ n s, (bool_decide (Forall (λ c, c ≠ x00 ∧ c ≠ x0a) s) && (length s <? n)%nat &&
    match head s with Some c => negb (isspace c) | None => true end &&
    match last s with Some c => negb (isspace c) | None => true end) = true → text_ok n s) as Ht.
  { intros n s [[[H1%bool_decide_eq_true H2%Nat.ltb_lt]%andb_true_iff H3]%andb_true_iff H4]%andb_true_iff.
    split; [|done]. split; [split|done].
    - intros c Hc. rewrite Hc in H3. by apply negb_true_iff in H3.
    - intros c Hc. rewrite Hc in H4. by apply negb_true_iff in H4. }
  constructor; cbn; try lia; try (split; [apply Ht; reflexivity|discriminate]); apply Ht; reflexivity.
Defined.

(** A file without a host is refused, and an accepted one always yields a
    usable configuration: a port (563 with TLS, 119 without, when none is
    given), at least one connection, no negative retry count and the fixed
    timeouts. *)
Theorem config_load_usable (content : option (list byte)) :
  let '(cfg, ok) := app_config_load content in
  if ok then
    nc_host (ac_nntp cfg) ≠ [] ∧ nc_port (ac_nntp cfg) ≠ [] ∧ 1 <= nc_max_connections (ac_nntp cfg) ∧
    0 <= qc_max_retries (ac_queue cfg) ∧ nc_connect_timeout_sec (ac_nntp cfg) = 60 ∧
    nc_read_timeout_sec (ac_nntp cfg) = 15 ∧ nc_retry_count (ac_nntp cfg) = 5
  else nc_host (ac_nntp cfg) = [].
Proof.
  destruct content as [data|]; [|done]. cbn [app_config_load].
  set (cfg := foldl load_line app_config_set_defaults _).
  assert (nc_connect_timeout_sec (ac_nntp cfg) = 60 ∧ nc_read_timeout_sec (ac_nntp cfg) = 15 ∧
    nc_retry_count (ac_nntp cfg) = 5) as (F1 & F2 & F3).
  { unfold cfg. generalize (fgets_all (S (length data)) 1024 data) as ls.
    assert (∀ ls c, nc_connect_timeout_sec (ac_nntp c) = 60 ∧ nc_read_timeout_sec (ac_nntp c) = 15 ∧
      nc_retry_count (ac_nntp c) = 5 →
      let r := foldl load_line c ls in
      nc_connect_timeout_sec (ac_nntp r) = 60 ∧ nc_read_timeout_sec (ac_nntp r) = 15 ∧
      nc_retry_count (ac_nntp r) = 5) as H; [|intros ls; by apply H].
    induction ls as [|l ls IH]; intros c Hc; [done|]. apply IH. unfold load_line. cbv zeta.
    destruct (trim (c_str l)) as [|x t]; [done|].
    assert (∀ k v, nc_connect_timeout_sec (ac_nntp (apply_kv c k v)) = 60 ∧
      nc_read_timeout_sec (ac_nntp (apply_kv c k v)) = 15 ∧
      nc_retry_count (ac_nntp (apply_kv c k v)) = 5) as Hkv.
    { intros k v. unfold apply_kv. repeat case_decide; done. }
    destruct (decide (x = x23)) as [->|]; [done|].
    destruct (split_at x3d (x :: t)) as [[k v]|]; destruct x; done. }
  clearbody cfg. unfold check_config. destruct (nc_host (ac_nntp cfg)) eqn:Eh; [done|].
  cbn. split_and!; try done.
  - destruct (nc_port (ac_nntp cfg)); [|done]. by destruct (nc_tls (ac_nntp cfg) =? 0).
  - destruct (Z.ltb_spec (nc_max_connections (ac_nntp cfg)) 1); lia.
  - destruct (Z.ltb_spec (qc_max_retries (ac_queue cfg)) 0); lia.
Qed.
