(* ===== verification/Log.v ===== *)
(** * The logger ([log/log.c])

    The ring of recent lines against its specification: the last
    [LOG_RING_CAPACITY] lines that passed the level. *)

From Stdlib Require Import ZArith Lia List.
From Stdlib Require Import Strings.Byte Strings.String.
From stdpp Require Import base list gmap.
From S2P Require Import Prelude Ring Cnum.

Inductive log_level := LOG_ERROR | LOG_WARN | LOG_INFO | LOG_DEBUG.

Definition level_num (l : log_level) : Z :=
  match l with LOG_ERROR => 0 | LOG_WARN => 1 | LOG_INFO => 2 | LOG_DEBUG => 3 end.

Definition LOG_RING_CAPACITY : nat := 500.
Definition RING_LINE_MAX : nat := 1024.

(** The static variables; [lg_file] is what has been written to the logfile
    ([None]: it is not open), [lg_stdout] to standard output. *)
Record log_state := LogState {
  lg_level : log_level;
  lg_file : option (list byte);
  lg_path : cstr;
  lg_stdout : list byte;
  lg_ring : list cstr;
  lg_next : nat;
  lg_count : nat
}.

Definition level_prefix (l : log_level) : cstr :=
  match l with
  | LOG_ERROR => $ "[ERROR]"
  | LOG_WARN => $ "[WARN ]"
  | LOG_INFO => $ "[INFO ]"
  | LOG_DEBUG => $ "[DEBUG]"
  end.

(** The state before [log_init]. *)
Definition log_zero : log_state :=
  LogState LOG_INFO None [] [] (replicate LOG_RING_CAPACITY []) 0 0.

(** [ensure_parent_dir]: the directory it has [mkdir_p] make, if any. *)
Definition ensure_parent_dir (path : cstr) : option cstr :=
  match split_last x2f (str_fit 512 path) with
  | None | Some ([], _) => None
  | Some (dir, _) => Some dir
  end.

(** [log_init]; [opens] tells whether [fopen(path, "w")] succeeds. *)
Definition log_init (st : log_state) (level : log_level) (path : cstr) (opens : bool) : log_state :=
  match path with
  | [] => LogState level (lg_file st) (lg_path st) (lg_stdout st) (lg_ring st) (lg_next st) (lg_count st)
  | _ =>
    if opens
    then LogState level (Some []) (str_fit 512 path) (lg_stdout st) (lg_ring st) (lg_next st) (lg_count st)
    else LogState level None (lg_path st) (lg_stdout st) (lg_ring st) (lg_next st) (lg_count st)
  end.

Definition log_set_level (st : log_state) (level : log_level) : log_state :=
  LogState level (lg_file st) (lg_path st) (lg_stdout st) (lg_ring st) (lg_next st) (lg_count st).

(** The line of a message: [ts] is the formatted time, [msg] the formatted
    message before it is cut to its buffer. *)
Definition log_line (level : log_level) (ts msg : cstr) : cstr :=
  str_fit 1024 (str_fit 32 ts ++ $ " " ++ level_prefix level ++ $ " " ++ str_fit 896 msg).

Definition log_log (st : log_state) (level : log_level) (ts msg : cstr) : log_state :=
  if level_num (lg_level st) <? level_num level then st
  else
    let line := log_line level ts msg in
    LogState (lg_level st) ((λ f, f ++ line ++ [x0a]) <$> lg_file st) (lg_path st)
      (lg_stdout st ++ line ++ [x0a])
      (<[lg_next st := str_fit RING_LINE_MAX line]> (lg_ring st))
      ((lg_next st + 1) mod LOG_RING_CAPACITY)
      (if (lg_count st <? LOG_RING_CAPACITY)%nat then S (lg_count st) else lg_count st).

(** The lines [cb] is called with. *)
Definition log_for_each_recent (st : log_state) : list cstr :=
  let start := if (lg_count st <? LOG_RING_CAPACITY)%nat then 0%nat else lg_next st in
  (λ i, default [] (lg_ring st !! ((start + i) mod LOG_RING_CAPACITY)%nat)) <$> seq 0 (lg_count st).

(** ** Specification *)

(** A call: a message, or a new level. *)
Inductive log_call := Emit (level : log_level) (ts msg : cstr) | SetLevel (level : log_level).

Definition run_call (st : log_state) (c : log_call) : log_state :=
  match c with
  | Emit level ts msg => log_log st level ts msg
  | SetLevel level => log_set_level st level
  end.

(** The lines the calls let through, in order. *)
Fixpoint accepted_lines (level : log_level) (calls : list log_call) : list cstr :=
  match calls with
  | [] => []
  | SetLevel level :: calls => accepted_lines level calls
  | Emit l ts msg :: calls =>
    (if level_num level <? level_num l then [] else [log_line l ts msg]) ++ accepted_lines level calls
  end.

(** The ring holds the accepted lines. *)
Definition ring_inv (lines : list cstr) (st : log_state) : Prop :=
  ring_holds LOG_RING_CAPACITY lines (lg_ring st) (lg_next st) (lg_count st).

Lemma capacity_pos : (0 < LOG_RING_CAPACITY)%nat.
Proof. unfold LOG_RING_CAPACITY. lia. Qed.

#[global] Opaque LOG_RING_CAPACITY.

Lemma log_line_fits level ts msg : str_fit RING_LINE_MAX (log_line level ts msg) = log_line level ts msg.
Proof. unfold log_line, str_fit, RING_LINE_MAX. rewrite take_take. f_equal. Qed.

Lemma log_log_inv lines st level ts msg :
  ring_inv lines st →
  ring_inv (lines ++ if level_num (lg_level st) <? level_num level then [] else [log_line level ts msg])
    (log_log st level ts msg).
Proof.
  intros H. unfold log_log. destruct (level_num (lg_level st) <? level_num level); [by rewrite app_nil_r|].
  unfold ring_inv. cbn [lg_ring lg_next lg_count]. rewrite log_line_fits. by apply ring_push; [apply capacity_pos|].
Qed.

Lemma run_calls_inv calls lines st :
  ring_inv lines st →
  ring_inv (lines ++ accepted_lines (lg_level st) calls) (foldl run_call st calls).
Proof.
  revert lines st. induction calls as [|[l ts msg|l] calls IH]; intros lines st Hst; cbn [foldl run_call accepted_lines].
  - by rewrite app_nil_r.
  - rewrite app_assoc.
    assert (lg_level (log_log st l ts msg) = lg_level st) as <-.
    { unfold log_log. by destruct (level_num (lg_level st) <? level_num l). }
    apply IH.
    assert (lg_level (log_log st l ts msg) = lg_level st) as ->.
    { unfold log_log. by destruct (level_num (lg_level st) <? level_num l). }
    by apply log_log_inv.
  - apply (IH lines (log_set_level st l)). by destruct Hst.
Qed.

Lemma recent_is_last lines st :
  ring_inv lines st → log_for_each_recent st = last_n LOG_RING_CAPACITY lines.
Proof. intros H. apply ring_read; [apply capacity_pos|exact H]. Qed.

Lemma log_zero_inv : ring_inv [] log_zero.
Proof. apply ring_empty, capacity_pos. Qed.

(** The directory of a path that fits its buffer is the part before its last
    component; a file in the root, or a bare name, has none to make. *)
Lemma parent_dir_made dir name :
  Forall (λ c, c ≠ x2f) name → (length dir + length name < 511)%nat →
  ensure_parent_dir (dir ++ x2f :: name) = (match dir with [] => None | _ => Some dir end) ∧
  ensure_parent_dir name = None.
Proof.
  intros Hn Hl. unfold ensure_parent_dir, str_fit.
  rewrite !take_ge by (rewrite ?length_app; cbn; lia). rewrite split_last_app by done.
  split; [by destruct dir|]. assert (split_last x2f name = None) as ->; [|done].
  clear Hl. induction Hn as [|c name Hc _ IH]; [done|]. cbn. rewrite IH. by rewrite decide_False.
Qed.

(** ** Properties *)

(** After any sequence of log calls and level changes
    [log_for_each_recent] delivers, oldest first, exactly the last
    [LOG_RING_CAPACITY] of the lines whose level passed the level in force when
    they were logged (all of them while they are fewer): the ring never loses,
    repeats or reorders a line when it wraps. Lines the level filters out are
    not in it. *)
Theorem log_recent_refines (calls : list log_call) :
  log_for_each_recent (foldl run_call log_zero calls) =
  last_n LOG_RING_CAPACITY (accepted_lines LOG_INFO calls).
Proof.
  apply recent_is_last. exact (run_calls_inv calls [] log_zero log_zero_inv).
Qed.
