(* ===== verification/Json.v ===== *)
(** * JSON trees and the part of cJSON the program calls

    cJSON's printer and parser are vendored code: they enter as a [JsonCodec],
    whose law is the round trip the program relies on. The tree accessors are
    written out. *)

From Stdlib Require Import ZArith Lia List.
From Stdlib Require Import Strings.Byte Strings.String.
From stdpp Require Import countable.
From stdpp Require Import base list gmap.
From S2P Require Import Prelude.

(** Numbers are doubles; the program stores integers in them. *)
Inductive json :=
  | JNull
  | JBool (b : bool)
  | JNum (n : Z)
  | JStr (s : cstr)
  | JArr (l : list json)
  | JObj (l : list (cstr * json)).

(** [cJSON_GetObjectItemCaseSensitive]: the first member of that name; [None]
    is the NULL pointer, also for a value that is no object. *)
Fixpoint assoc_first (l : list (cstr * json)) (k : cstr) : option json :=
  match l with
  | [] => None
  | (k', v) :: l => if decide (k = k') then Some v else assoc_first l k
  end.

Definition get_item (t : option json) (k : cstr) : option json :=
  match t with
  | Some (JObj l) => assoc_first l k
  | _ => None
  end.

(** [cJSON_IsString(x) ? x->valuestring : ...] and its siblings. *)
Definition as_string (t : option json) : option cstr :=
  match t with Some (JStr s) => Some s | _ => None end.

Definition as_number (t : option json) : option Z :=
  match t with Some (JNum n) => Some n | _ => None end.

Definition is_true (t : option json) : bool :=
  match t with Some (JBool b) => b | _ => false end.

Definition is_bool (t : option json) : bool :=
  match t with Some (JBool _) => true | _ => false end.

(** [cJSON_ArrayForEach]: the children of an array or an object. *)
Definition children (t : option json) : list json :=
  match t with
  | Some (JArr l) => l
  | Some (JObj l) => snd <$> l
  | _ => []
  end.

(** [valueint]: the double saturated to an [int]. *)
Definition valueint (n : Z) : Z :=
  if 2 ^ 31 - 1 <=? n then 2 ^ 31 - 1 else if n <=? - 2 ^ 31 then - 2 ^ 31 else n.

(** What a double holds exactly. *)
Definition json_int (n : Z) : Prop := - 2 ^ 53 <= n <= 2 ^ 53.

(** Trees that survive printing: NUL-free strings, exact numbers. *)
Fixpoint json_ok (t : json) : Prop :=
  match t with
  | JNull | JBool _ => True
  | JNum n => json_int n
  | JStr s => no_nul s
  | JArr l => (fix all l := match l with [] => True | t :: l => json_ok t ∧ all l end) l
  | JObj l => (fix all (l : list (cstr * json)) := match l with
               | [] => True
               | (k, t) :: l => no_nul k ∧ json_ok t ∧ all l
               end) l
  end.

(** [cJSON_PrintUnformatted] / [cJSON_Print] and [cJSON_Parse]. *)
Class JsonCodec := {
  print : json → cstr;
  parse : cstr → option json;
  print_no_nul : ∀ t, json_ok t → no_nul (print t);
  parse_print : ∀ t, json_ok t → parse (print t) = Some t
}.

(** ** Lemmas *)

Lemma json_ok_arr l : json_ok (JArr l) ↔ Forall json_ok l.
Proof.
  induction l as [|t l IH]; simpl; [split; [constructor|done]|].
  split; [intros [? ?%IH]|intros [? ?%IH]%Forall_cons]; auto.
Qed.

Lemma json_ok_obj l : json_ok (JObj l) ↔ Forall (λ p, no_nul (fst p) ∧ json_ok (snd p)) l.
Proof.
  induction l as [|[k t] l IH]; simpl; [split; [constructor|done]|].
  split; [intros (? & ? & ?%IH)|intros [[] ?%IH]%Forall_cons]; auto.
Qed.

Lemma c_str_no_nul s : no_nul s → c_str s = s.
Proof. induction 1 as [|c s Hc _ IH]; simpl; [done|]. by rewrite decide_False, IH. Qed.

Lemma c_str_ok l : no_nul (c_str l).
Proof. induction l as [|c l IH]; simpl; [constructor|]. case_decide; constructor; done. Qed.

Lemma valueint_id n : - 2 ^ 31 <= n < 2 ^ 31 → valueint n = n.
Proof. intros H. unfold valueint. destruct (Z.leb_spec (2^31-1) n), (Z.leb_spec n (-2^31)); lia. Qed.

Lemma no_nul_app a b : no_nul a → no_nul b → no_nul (a ++ b).
Proof. apply Forall_app_2. Qed.

Lemma no_nul_take n s : no_nul s → no_nul (take n s).
Proof. apply Forall_take. Qed.

Lemma no_nul_fit n s : no_nul s → no_nul (str_fit n s).
Proof. apply no_nul_take. Qed.

Create HintDb json.
#[export] Hint Resolve no_nul_app no_nul_take no_nul_fit c_str_ok : json.

(** ** A codec with the law

    The law can be met: trees are countable, and the number of a tree can be
    written in binary. *)

Inductive json_leaf := LNull | LBool (b : bool) | LNum (n : Z) | LStr (s : cstr) | LKey (k : cstr).

#[global] Instance json_leaf_eq_dec : EqDecision json_leaf.
Proof. solve_decision. Defined.

#[global] Instance json_leaf_countable : Countable json_leaf.
Proof.
  refine (inj_countable'
    (λ x, match x with
          | LNull => inl (inl tt) | LBool b => inl (inr (inl b)) | LNum n => inl (inr (inr n))
          | LStr s => inr (inl s) | LKey k => inr (inr k) end)
    (λ y, match y with
          | inl (inl _) => LNull | inl (inr (inl b)) => LBool b | inl (inr (inr n)) => LNum n
          | inr (inl s) => LStr s | inr (inr k) => LKey k end) _).
  by intros [].
Defined.

Fixpoint to_tree (t : json) : gen_tree json_leaf :=
  match t with
  | JNull => GenLeaf LNull
  | JBool b => GenLeaf (LBool b)
  | JNum n => GenLeaf (LNum n)
  | JStr s => GenLeaf (LStr s)
  | JArr l => GenNode 0 ((fix go l := match l with [] => [] | t :: l => to_tree t :: go l end) l)
  | JObj l => GenNode 1 ((fix go (l : list (cstr * json)) := match l with
      | [] => []
      | (k, t) :: l => GenLeaf (LKey k) :: to_tree t :: go l end) l)
  end.

Fixpoint of_tree (t : gen_tree json_leaf) : json :=
  match t with
  | GenLeaf LNull => JNull
  | GenLeaf (LBool b) => JBool b
  | GenLeaf (LNum n) => JNum n
  | GenLeaf (LStr s) => JStr s
  | GenLeaf (LKey k) => JNull
  | GenNode 0 l => JArr ((fix go l := match l with [] => [] | t :: l => of_tree t :: go l end) l)
  | GenNode _ l => JObj ((fix go l := match l with
      | GenLeaf (LKey k) :: t :: l => (k, of_tree t) :: go l
      | _ => [] end) l)
  end.

Fixpoint of_to_tree (t : json) : of_tree (to_tree t) = t.
Proof.
  destruct t as [| | | |l|l]; [reflexivity..| |]; simpl; apply f_equal.
  - induction l as [|t l IH]; simpl; [reflexivity|]. rewrite of_to_tree, IH. reflexivity.
  - induction l as [|[k t] l IH]; simpl; [reflexivity|]. rewrite of_to_tree, IH. reflexivity.
Qed.

#[global] Instance json_eq_dec : EqDecision json.
Proof.
  intros a b. destruct (decide (to_tree a = to_tree b)) as [H|H].
  - left. by rewrite <- (of_to_tree a), <- (of_to_tree b), H.
  - right. congruence.
Defined.

#[global] Instance json_countable : Countable json := inj_countable' to_tree of_tree of_to_tree.

Fixpoint bits_of (p : positive) : cstr :=
  match p with
  | xH => []
  | xO p => x30 :: bits_of p
  | xI p => x31 :: bits_of p
  end.

Fixpoint of_bits (s : cstr) : positive :=
  match s with
  | [] => xH
  | x30 :: s => xO (of_bits s)
  | _ :: s => xI (of_bits s)
  end.

Lemma of_bits_of p : of_bits (bits_of p) = p.
Proof. induction p; simpl; congruence. Qed.

Lemma bits_of_no_nul p : no_nul (bits_of p).
Proof. induction p; simpl; constructor; done. Qed.

Lemma toy_parse_print (t : json) : decode (of_bits (bits_of (encode t))) = Some t.
Proof. by rewrite of_bits_of, decode_encode. Qed.

#[local] Instance toy_codec : JsonCodec := {
  print t := bits_of (encode t);
  parse s := decode (of_bits s);
  print_no_nul t _ := bits_of_no_nul (encode t);
  parse_print t _ := toy_parse_print t
}.
