(* ===== verification/Paths.v ===== *)
(** * Paths ([storage/paths.c])

    Names, joins, the directories [mkdir_p] makes, and the two recursive walks
    over a directory tree. *)

From Stdlib Require Import ZArith Lia List.
From Stdlib Require Import Strings.Byte Strings.String.
From stdpp Require Import base list gmap.
From S2P Require Import Prelude.

Definition slash : byte := x2f.
Definition backslash : byte := x5c.

(** [path_sanitize_component(name, size)] on the string [name] holds. *)
Definition path_sanitize_component (name : cstr) (size : nat) : cstr :=
  let name := (λ c, if decide (c = slash ∨ c = backslash) then x5f else c) <$> name in
  if decide (name = [] ∨ name = $ "." ∨ name = $ "..") then str_fit size ($ "unnamed") else name.

Definition path_join (out_size : nat) (dir component : cstr) : cstr :=
  str_fit out_size (dir ++ [slash] ++ component).

(** ** [mkdir_p]

    [mkdir] answers 0, [EEXIST] or another error. *)

Inductive mkdir_result := MkdirOk | MkdirExists | MkdirError.

(** The strings [mkdir_p] passes to [mkdir]: a prefix before every slash after
    the first character, then the whole path. *)
Fixpoint slash_prefixes (seen : cstr) (rest : cstr) : list cstr :=
  match rest with
  | [] => []
  | c :: rest =>
    (if decide (c = slash) then [seen] else []) ++ slash_prefixes (seen ++ [c]) rest
  end.

Definition mkdir_p_calls (path : cstr) : list cstr :=
  let tmp := str_fit 768 path in
  match tmp with
  | [] => [[]]
  | c :: rest => slash_prefixes [c] rest ++ [tmp]
  end.

(** The calls until the first failure: the state [mkdir] leaves, and whether 0
    is returned. *)
Fixpoint mkdir_all {St} (mkdir : St → cstr → St * mkdir_result) (st : St) (calls : list cstr)
    : St * bool :=
  match calls with
  | [] => (st, true)
  | p :: calls =>
    match mkdir st p with
    | (st, MkdirError) => (st, false)
    | (st, _) => mkdir_all mkdir st calls
    end
  end.

Definition mkdir_p {St} (mkdir : St → cstr → St * mkdir_result) (st : St) (path : cstr)
    : St * bool := mkdir_all mkdir st (mkdir_p_calls path).

(** ** Directory trees *)

(** What [stat] says of an entry: a regular file and its size, a directory and
    its entries in [readdir] order, or something else. *)
Inductive node :=
  | NFile (size : Z)
  | NDir (entries : list (cstr * node))
  | NOther.

(** [path_dir_total_bytes]: the sum over the regular files below. *)
Fixpoint path_dir_total_bytes (n : node) : Z :=
  match n with
  | NDir entries =>
    (fix go (es : list (cstr * node)) (total : Z) : Z :=
       match es with
       | [] => total
       | (_, NFile size) :: es => go es (total + size)
       | (_, NDir _ as sub) :: es => go es (total + path_dir_total_bytes sub)
       | (_, NOther) :: es => go es total
       end) entries 0
  | _ => 0
  end.

(** [rmdir_recursive]: what is left of the tree ([None]: it is gone), where
    [removable] tells which entries [remove] can delete. The result of the
    recursive call is ignored; [rmdir] succeeds on an empty directory. *)
Fixpoint rmdir_recursive (removable : cstr → bool) (n : node) : option node :=
  match n with
  | NDir entries =>
    let left :=
      (fix go (es : list (cstr * node)) : list (cstr * node) :=
         match es with
         | [] => []
         | (name, NDir _ as sub) :: es =>
           match rmdir_recursive removable sub with
           | None => go es
           | Some sub => (name, sub) :: go es
           end
         | (name, sub) :: es => if removable name then go es else (name, sub) :: go es
         end) entries in
    match left with [] => None | _ => Some (NDir left) end
  | _ => Some n
  end.

(** ** [path_free_bytes] *)

(** [strrchr(probe, '/')]: the prefix before the last slash. *)
Fixpoint before_last_slash (s : cstr) : option cstr :=
  match s with
  | [] => None
  | c :: s =>
    match before_last_slash s with
    | Some p => Some (c :: p)
    | None => if decide (c = slash) then Some [] else None
    end
  end.

(** [statfs] gives [f_bavail] and [f_bsize], or fails. *)
Fixpoint free_bytes_walk (statfs : cstr → option (Z * Z)) (attempts : nat) (probe : cstr) : Z :=
  match attempts with
  | O => -1
  | S attempts =>
    match statfs probe with
    | Some (bavail, bsize) => bavail * bsize
    | None =>
      match before_last_slash probe with
      | None | Some [] => -1
      | Some p => free_bytes_walk statfs attempts p
      end
    end
  end.

Definition path_free_bytes (statfs : cstr → option (Z * Z)) (path : cstr) : Z :=
  free_bytes_walk statfs 8 (str_fit 900 path).

(** ** Properties *)

(** Whatever a server or an NZB puts into a name, a sanitized component
    cannot leave its directory: it has no separator, is not empty, and is
    neither "." nor "..". *)
Theorem path_sanitize_component_safe (name : cstr) (size : nat) (Hsize : (2 <= size)%nat) :
  let r := path_sanitize_component name size in
  (slash ∉ r) ∧ (backslash ∉ r) ∧ r ≠ [] ∧ (r ≠ $ ".") ∧ (r ≠ $ "..").
Proof.
  cbv zeta. unfold path_sanitize_component.
  set (clean := (λ c : byte, if decide (c = slash ∨ c = backslash) then x5f else c) <$> name).
  case_decide as Hd.
  - assert (∃ t, str_fit size ($ "unnamed") = x75 :: t ∧ Forall (λ c, c ≠ slash ∧ c ≠ backslash) t)
      as (t & -> & Ht).
    { destruct size as [|[|size]]; [lia|lia|]. eexists. split; [done|].
      apply Forall_take. by repeat constructor. }
    rewrite Forall_forall in Ht.
    split_and!; try discriminate; intros [Hx|Hx]%elem_of_cons; try discriminate;
      destruct (Ht _ Hx); congruence.
  - assert (∀ c, c = slash ∨ c = backslash → c ∉ clean) as Hc.
    { intros c Hc (x & Hx & _)%list_elem_of_fmap. case_decide; [|naive_solver].
      destruct Hc as [-> | ->]; discriminate. }
    split_and!; [apply Hc; by left|apply Hc; by right|tauto|tauto|tauto].
Qed.

Lemma path_sanitize_component_safe_witness :
  let r := path_sanitize_component ($ "../x\y") 256 in
  (slash ∉ r) ∧ (backslash ∉ r) ∧ r ≠ [] ∧ (r ≠ $ ".") ∧ (r ≠ $ "..").
Proof. apply (path_sanitize_component_safe ($ "../x\y") 256). lia. Defined.

(** An absolute path from its components. *)
Definition abs_path (comps : list cstr) : cstr := mjoin (cons slash <$> comps).

Definition comp_ok (c : cstr) : Prop := c ≠ [] ∧ (slash ∉ c).

(** [mkdir] on the set of existing directories; the root is the empty prefix. *)
Definition posix_mkdir (dirs : gset cstr) (p : cstr) : gset cstr * mkdir_result :=
  if decide (p ∈ dirs) then (dirs, MkdirExists)
  else match before_last_slash p with
       | Some parent => if decide (parent ∈ dirs) then ({[p]} ∪ dirs, MkdirOk) else (dirs, MkdirError)
       | None => (dirs, MkdirError)
       end.

(** [abs_path] of every non-empty prefix, shortest first. *)
Fixpoint ancestors (pre : cstr) (comps : list cstr) : list cstr :=
  match comps with
  | [] => []
  | c :: comps => (pre ++ slash :: c) :: ancestors (pre ++ slash :: c) comps
  end.

Lemma slash_prefixes_skip c seen rest :
  slash ∉ c → slash_prefixes seen (c ++ rest) = slash_prefixes (seen ++ c) rest.
Proof.
  revert seen. induction c as [|x c IH]; intros seen Hc; simpl; [by rewrite app_nil_r|].
  rewrite not_elem_of_cons in Hc. destruct Hc as [Hx Hc].
  rewrite decide_False by congruence. simpl. rewrite IH by done. by rewrite <- app_assoc.
Qed.

Lemma slash_prefixes_abs pre comps :
  Forall comp_ok comps → comps ≠ [] →
  slash_prefixes pre (abs_path comps) ++ [pre ++ abs_path comps] = pre :: ancestors pre comps.
Proof.
  intros Hall. revert pre. induction Hall as [|c comps [_ Hc] Hall IH]; intros pre Hne; [done|].
  cbn [abs_path fmap list_fmap mjoin list_join]. fold (abs_path comps).
  cbn [app slash_prefixes]. rewrite decide_True by done.
  rewrite slash_prefixes_skip by done. cbn [app ancestors]. f_equal.
  destruct comps as [|c' comps].
  - cbn. by rewrite app_nil_r.
  - specialize (IH (pre ++ slash :: c) ltac:(done)).
    rewrite <- app_assoc in IH |- *. cbn [app] in *. exact IH.
Qed.

Lemma before_last_slash_app pre c :
  slash ∉ c → before_last_slash (pre ++ slash :: c) = Some pre.
Proof.
  intros Hc. assert (before_last_slash c = None) as Hn.
  { induction c as [|x c IH]; [done|]. rewrite not_elem_of_cons in Hc. destruct Hc as [Hx Hc].
    simpl. by rewrite IH, decide_False by congruence. }
  induction pre as [|x pre IH]; simpl; [by rewrite Hn|by rewrite IH].
Qed.

Lemma mkdir_all_ancestors comps pre dirs :
  Forall comp_ok comps → pre ∈ dirs →
  mkdir_all posix_mkdir dirs (ancestors pre comps) =
    (list_to_set (ancestors pre comps) ∪ dirs, true).
Proof.
  intros Hall. revert pre dirs. induction Hall as [|c comps [_ Hc] Hall IH]; intros pre dirs Hpre.
  - simpl. f_equal. set_solver.
  - cbn [ancestors mkdir_all]. unfold posix_mkdir at 1.
    rewrite before_last_slash_app by done. case_decide as Hin.
    + rewrite IH by done. f_equal. simpl. set_solver.
    + rewrite decide_True by done. rewrite IH by set_solver. f_equal. simpl. set_solver.
Qed.

(** [mkdir_p] on an absolute path of ordinary components, on a file system
    where the root exists and [mkdir] needs the parent, returns 0 and leaves
    exactly the path and all its ancestors in addition to what was there. *)
Theorem mkdir_p_makes_ancestors (comps : list cstr) (dirs : gset cstr)
    (Hne : comps ≠ []) (Hall : Forall comp_ok comps) (Hroot : [] ∈ dirs)
    (Hfit : (length (abs_path comps) < 768)%nat) :
  mkdir_p posix_mkdir dirs (abs_path comps) = (list_to_set (ancestors [] comps) ∪ dirs, true) ∧
  abs_path comps ∈ (list_to_set (ancestors [] comps) : gset cstr).
Proof.
  pose proof (slash_prefixes_abs [] comps Hall Hne) as Hcalls. simpl in Hcalls.
  assert (mkdir_p_calls (abs_path comps) = ancestors [] comps) as He.
  { unfold mkdir_p_calls, str_fit. rewrite take_ge by lia.
    destruct comps as [|c comps]; [done|].
    change (abs_path (c :: comps)) with (slash :: (c ++ abs_path comps)) in *.
    cbn [slash_prefixes] in Hcalls. rewrite decide_True in Hcalls by done.
    injection Hcalls as Hcalls. exact Hcalls. }
  split.
  - unfold mkdir_p. rewrite He. by apply mkdir_all_ancestors.
  - apply elem_of_list_to_set. rewrite <- He. unfold mkdir_p_calls, str_fit.
    rewrite take_ge by lia. destruct (abs_path comps); set_solver.
Qed.

Lemma mkdir_p_makes_ancestors_witness :
  mkdir_p posix_mkdir {[ [] ]} (abs_path [$ "data"; $ "nzb"]) =
    (list_to_set (ancestors [] [$ "data"; $ "nzb"]) ∪ {[ [] ]}, true).
Proof.
  apply (mkdir_p_makes_ancestors [$ "data"; $ "nzb"] {[ [] ]}).
  - discriminate.
  - repeat constructor; vm_compute; (discriminate || set_solver).
  - set_solver.
  - cbn; lia.
Defined.
