(* ===== verification/Job.v ===== *)
(** * Jobs ([queue/job.h], [queue/job.c] up to persistence)

    A job is a list of files, each a list of NNTP segments. The growing C
    arrays are lists; allocation is taken to succeed. *)

From Stdlib Require Import ZArith Lia List.
From Stdlib Require Import Strings.Byte Strings.String.
From stdpp Require Import base list gmap.
From S2P Require Import Prelude Paths.

Record job_segment := JobSegment {
  sg_message_id : cstr;
  sg_bytes : Z;
  sg_number : Z;
  sg_downloaded : bool
}.

Record job_file := JobFile {
  jf_filename : cstr;
  jf_subject : cstr;
  jf_bytes : Z;
  jf_segments : list job_segment
}.

Inductive job_state :=
  | JOB_QUEUED | JOB_DOWNLOADING | JOB_PAUSED | JOB_VERIFYING | JOB_REPAIRING
  | JOB_EXTRACTING | JOB_COMPLETED | JOB_FAILED | JOB_CANCELLED.

#[global] Instance job_state_eq_dec : EqDecision job_state.
Proof. solve_decision. Defined.

Definition JOB_ID_LEN : nat := 13.
Definition JOB_MAX_PASSWORDS : nat := 8.
Definition JOB_MAX_PKGS : nat := 16.

Record job := Job {
  j_id : cstr;
  j_name : cstr;
  j_state : job_state;
  j_busy : bool;
  j_priority : Z;
  j_retries_used : Z;
  j_last_error : cstr;
  j_final_bytes : Z;
  j_passwords : list cstr;
  j_output_dir : cstr;
  j_add_to_shadowmount : bool;
  j_auto_install_pkgs : bool;
  j_nfo_path : cstr;
  j_nfo_checked : bool;
  j_pkg_paths : list cstr;
  j_pkg_checked : bool;
  j_files : list job_file
}.

(** [calloc(1, sizeof *job)] *)
Definition zero_job : job :=
  Job [] [] JOB_QUEUED false 0 0 [] 0 [] [] false false [] false [] false [].

(** Assignments to single fields. *)
Definition set_state (s : job_state) (j : job) : job :=
  Job (j_id j) (j_name j) s (j_busy j) (j_priority j) (j_retries_used j) (j_last_error j)
    (j_final_bytes j) (j_passwords j) (j_output_dir j) (j_add_to_shadowmount j)
    (j_auto_install_pkgs j) (j_nfo_path j) (j_nfo_checked j) (j_pkg_paths j) (j_pkg_checked j)
    (j_files j).
Definition set_busy (b : bool) (j : job) : job :=
  Job (j_id j) (j_name j) (j_state j) b (j_priority j) (j_retries_used j) (j_last_error j)
    (j_final_bytes j) (j_passwords j) (j_output_dir j) (j_add_to_shadowmount j)
    (j_auto_install_pkgs j) (j_nfo_path j) (j_nfo_checked j) (j_pkg_paths j) (j_pkg_checked j)
    (j_files j).
Definition set_priority (p : Z) (j : job) : job :=
  Job (j_id j) (j_name j) (j_state j) (j_busy j) p (j_retries_used j) (j_last_error j)
    (j_final_bytes j) (j_passwords j) (j_output_dir j) (j_add_to_shadowmount j)
    (j_auto_install_pkgs j) (j_nfo_path j) (j_nfo_checked j) (j_pkg_paths j) (j_pkg_checked j)
    (j_files j).
Definition set_retries_used (n : Z) (j : job) : job :=
  Job (j_id j) (j_name j) (j_state j) (j_busy j) (j_priority j) n (j_last_error j)
    (j_final_bytes j) (j_passwords j) (j_output_dir j) (j_add_to_shadowmount j)
    (j_auto_install_pkgs j) (j_nfo_path j) (j_nfo_checked j) (j_pkg_paths j) (j_pkg_checked j)
    (j_files j).
Definition set_last_error (e : cstr) (j : job) : job :=
  Job (j_id j) (j_name j) (j_state j) (j_busy j) (j_priority j) (j_retries_used j) (str_fit 256 e)
    (j_final_bytes j) (j_passwords j) (j_output_dir j) (j_add_to_shadowmount j)
    (j_auto_install_pkgs j) (j_nfo_path j) (j_nfo_checked j) (j_pkg_paths j) (j_pkg_checked j)
    (j_files j).
Definition set_final_bytes (n : Z) (j : job) : job :=
  Job (j_id j) (j_name j) (j_state j) (j_busy j) (j_priority j) (j_retries_used j) (j_last_error j)
    n (j_passwords j) (j_output_dir j) (j_add_to_shadowmount j)
    (j_auto_install_pkgs j) (j_nfo_path j) (j_nfo_checked j) (j_pkg_paths j) (j_pkg_checked j)
    (j_files j).
Definition set_passwords (l : list cstr) (j : job) : job :=
  Job (j_id j) (j_name j) (j_state j) (j_busy j) (j_priority j) (j_retries_used j) (j_last_error j)
    (j_final_bytes j) l (j_output_dir j) (j_add_to_shadowmount j)
    (j_auto_install_pkgs j) (j_nfo_path j) (j_nfo_checked j) (j_pkg_paths j) (j_pkg_checked j)
    (j_files j).
Definition set_pkg_paths (l : list cstr) (j : job) : job :=
  Job (j_id j) (j_name j) (j_state j) (j_busy j) (j_priority j) (j_retries_used j) (j_last_error j)
    (j_final_bytes j) (j_passwords j) (j_output_dir j) (j_add_to_shadowmount j)
    (j_auto_install_pkgs j) (j_nfo_path j) (j_nfo_checked j) l (j_pkg_checked j)
    (j_files j).
Definition set_files (l : list job_file) (j : job) : job :=
  Job (j_id j) (j_name j) (j_state j) (j_busy j) (j_priority j) (j_retries_used j) (j_last_error j)
    (j_final_bytes j) (j_passwords j) (j_output_dir j) (j_add_to_shadowmount j)
    (j_auto_install_pkgs j) (j_nfo_path j) (j_nfo_checked j) (j_pkg_paths j) (j_pkg_checked j)
    l.

Definition job_state_name (s : job_state) : cstr :=
  match s with
  | JOB_QUEUED => $ "queued"
  | JOB_DOWNLOADING => $ "downloading"
  | JOB_PAUSED => $ "paused"
  | JOB_VERIFYING => $ "verifying"
  | JOB_REPAIRING => $ "repairing"
  | JOB_EXTRACTING => $ "extracting"
  | JOB_COMPLETED => $ "completed"
  | JOB_FAILED => $ "failed"
  | JOB_CANCELLED => $ "cancelled"
  end.

Definition job_state_from_name (s : cstr) : job_state :=
  if decide (s = $ "queued") then JOB_QUEUED
  else if decide (s = $ "downloading") then JOB_DOWNLOADING
  else if decide (s = $ "paused") then JOB_PAUSED
  else if decide (s = $ "verifying") then JOB_VERIFYING
  else if decide (s = $ "repairing") then JOB_REPAIRING
  else if decide (s = $ "extracting") then JOB_EXTRACTING
  else if decide (s = $ "completed") then JOB_COMPLETED
  else if decide (s = $ "failed") then JOB_FAILED
  else if decide (s = $ "cancelled") then JOB_CANCELLED
  else JOB_QUEUED.

(** [%02x] *)
Definition hex_digit (z : Z) : byte := if z <? 10 then z2b (48 + z) else z2b (87 + z).
Definition hex2 (b : byte) : cstr := [hex_digit (b2z b / 16); hex_digit (b2z b mod 16)].

(** The six bytes are those of [arc4random_buf]. *)
Definition generate_job_id (b : list byte) : cstr := str_fit JOB_ID_LEN (mjoin (hex2 <$> b)).

Definition job_create (random : list byte) (name : cstr) : job :=
  Job (generate_job_id random) (path_sanitize_component (str_fit 256 name) 256) JOB_QUEUED
    false 0 0 [] 0 [] [] false false [] false [] false [].

(** The job with the file appended; its position is the last. *)
Definition job_add_file (j : job) (filename subject : cstr) : job :=
  set_files (j_files j ++ [JobFile (str_fit 512 filename) (str_fit 1024 subject) 0 []]) j.

Definition job_file_add_segment (f : job_file) (message_id : cstr) (bytes number : Z) : job_file :=
  JobFile (jf_filename f) (jf_subject f) (s64 (jf_bytes f + bytes))
    (jf_segments f ++ [JobSegment (str_fit 512 message_id) bytes number false]).

Definition job_add_password (j : job) (password : cstr) : job :=
  if decide (password = []) then j
  else if decide (password ∈ j_passwords j) then j
  else if (JOB_MAX_PASSWORDS <=? length (j_passwords j))%nat then j
  else set_passwords (j_passwords j ++ [str_fit 256 password]) j.

Definition job_add_pkg_path (j : job) (path : cstr) : job :=
  if (JOB_MAX_PKGS <=? length (j_pkg_paths j))%nat then j
  else set_pkg_paths (j_pkg_paths j ++ [str_fit 900 path]) j.

(** The job, and the text handed to [notify] if the state changes. *)
Definition state_notice (s : job_state) (name : cstr) : cstr :=
  match s with
  | JOB_QUEUED => $ "Queued: "
  | JOB_DOWNLOADING => $ "Downloading: "
  | JOB_PAUSED => $ "Paused: "
  | JOB_VERIFYING => $ "Verifying: "
  | JOB_REPAIRING => $ "Repairing: "
  | JOB_EXTRACTING => $ "Extracting: "
  | JOB_COMPLETED => $ "Finished: "
  | JOB_FAILED => $ "Failed: "
  | JOB_CANCELLED => $ "Cancelled: "
  end ++ name.

Definition job_set_state (j : job) (s : job_state) : job * option cstr :=
  if decide (j_state j = s) then (j, None)
  else (set_state s j, Some (state_notice s (j_name j))).

(** The first segment with that id, in file order, is marked. *)
Definition mark_segment (s : job_segment) : job_segment :=
  JobSegment (sg_message_id s) (sg_bytes s) (sg_number s) true.

Fixpoint mark_first (segs : list job_segment) (message_id : cstr) : option (list job_segment) :=
  match segs with
  | [] => None
  | s :: segs =>
    if decide (sg_message_id s = message_id) then Some (mark_segment s :: segs)
    else cons s <$> mark_first segs message_id
  end.

Definition with_segments (f : job_file) (segs : list job_segment) : job_file :=
  JobFile (jf_filename f) (jf_subject f) (jf_bytes f) segs.

Fixpoint mark_in_files (fs : list job_file) (message_id : cstr) : option (list job_file) :=
  match fs with
  | [] => None
  | f :: fs =>
    match mark_first (jf_segments f) message_id with
    | Some segs => Some (with_segments f segs :: fs)
    | None => cons f <$> mark_in_files fs message_id
    end
  end.

(** The job and the return value. *)
Definition job_mark_segment_downloaded (j : job) (message_id : cstr) : job * bool :=
  match mark_in_files (j_files j) message_id with
  | Some fs => (set_files fs j, true)
  | None => (j, false)
  end.

(** [while (p > name && isdigit(p[-1])) p--;] on the reversed prefix: what is
    left of it, and whether a digit was passed. *)
Fixpoint skip_digits (rev_prefix : cstr) : cstr :=
  match rev_prefix with
  | c :: r => if isdigit c then skip_digits r else rev_prefix
  | [] => []
  end.

Definition job_file_is_par2_volume (name : cstr) : bool :=
  if has_suffix_ci name ($ ".par2") then
    let r := rev (take (length name - 5) name) in
    let p := skip_digits r in
    match p with
    | x2b :: p' =>
      if (length p =? length r)%nat then false
      else
        let q := skip_digits p' in
        if (length q =? length p')%nat then false
        else (4 <=? length q)%nat && strcase_eq (rev (take 4 q)) ($ ".vol")
    | _ => false
    end
  else false.

(** [total] and [downloaded]. *)
Definition counted (f : job_file) : bool :=
  negb (job_file_is_par2_volume (jf_filename f)) || existsb sg_downloaded (jf_segments f).

Definition job_segment_progress (j : job) : nat * nat :=
  foldl (λ acc f,
    if counted f then
      foldl (λ '(t, d) s, (S t, if sg_downloaded s then S d else d)) acc (jf_segments f)
    else acc) (0%nat, 0%nat) (j_files j).

(** ** Names and states *)

Lemma job_state_name_inv s : job_state_from_name (job_state_name s) = s.
Proof. by destruct s. Qed.

Lemma strcase_eq_true a b : strcase_eq a b = true ↔ tolower <$> a = tolower <$> b.
Proof. unfold strcase_eq. apply bool_decide_eq_true. Qed.

Lemma strcase_eq_length a b : strcase_eq a b = true → length a = length b.
Proof. intros H%strcase_eq_true%(f_equal length). by rewrite !length_fmap in H. Qed.

Lemma has_suffix_ci_app s suf :
  has_suffix_ci s suf = true ↔ ∃ base ext, s = base ++ ext ∧ strcase_eq ext suf = true.
Proof.
  unfold has_suffix_ci, str_tail. rewrite andb_true_iff, Nat.leb_le. split.
  - intros [Hl He]. eexists _, _. split; [symmetry; apply (take_drop (length s - length suf))|done].
  - intros (base & ext & -> & He). pose proof (strcase_eq_length _ _ He) as Hl.
    rewrite length_app. split; [lia|].
    by replace (length base + length ext - length suf)%nat with (length base) by lia;
      rewrite drop_app_length.
Qed.

Lemma skip_digits_split r : ∃ d, r = d ++ skip_digits r ∧ Forall (λ c, isdigit c = true) d.
Proof.
  induction r as [|c r (d & Hd & Hall)]; simpl; [by exists []|].
  destruct (isdigit c) eqn:E; [|by exists []].
  exists (c :: d). split; [simpl; congruence|by constructor].
Qed.

Lemma skip_digits_app d p :
  Forall (λ c, isdigit c = true) d → (∀ c p', p = c :: p' → isdigit c = false) →
  skip_digits (d ++ p) = p.
Proof.
  intros Hd Hp. induction Hd as [|c d Hc Hd IH]; simpl; [|by rewrite Hc].
  destruct p as [|c p']; [done|]. simpl. by rewrite (Hp c p').
Qed.

Lemma isdigit_tolower c : isdigit c = true → tolower c = c.
Proof.
  unfold isdigit, tolower. rewrite andb_true_iff, !Z.leb_le. intros H.
  destruct (Z.leb_spec 65 (b2z c)); simpl; [lia|done].
Qed.

(** What the code tests the reversed prefix for. *)
Lemma volume_prefix_cases r :
  match skip_digits r with
  | x2b :: p' =>
      if (length (skip_digits r) =? length r)%nat then false
      else if (length (skip_digits p') =? length p')%nat then false
      else (4 <=? length (skip_digits p'))%nat &&
           strcase_eq (rev (take 4 (skip_digits p'))) ($ ".vol")
  | _ => false
  end = true ↔
  ∃ d2 d1 vol base, r = d2 ++ x2b :: d1 ++ vol ++ base ∧ d1 ≠ [] ∧ d2 ≠ [] ∧
    Forall (λ c, isdigit c = true) d1 ∧ Forall (λ c, isdigit c = true) d2 ∧
    strcase_eq (rev vol) ($ ".vol") = true.
Proof.
  split.
  - destruct (skip_digits_split r) as (d2 & Hr & Hd2).
    destruct (skip_digits r) as [|c p'] eqn:Ep; [done|].
    destruct (decide (c = x2b)) as [->|Hc]; [|by destruct c].
    destruct (Nat.eqb_spec (length (x2b :: p')) (length r)) as [|Hne2]; [done|].
    destruct (skip_digits_split p') as (d1 & Hp' & Hd1). set (q := skip_digits p') in *.
    destruct (Nat.eqb_spec (length q) (length p')) as [|Hne1]; [done|].
    intros [H4 Hv]%andb_true_iff.
    exists d2, d1, (take 4 q), (drop 4 q). rewrite take_drop, <- Hp', <- Hr.
    split_and!; try done.
    + intros ->. simpl in Hp'. congruence.
    + intros ->. simpl in Hr. congruence.
  - intros (d2 & d1 & vol & base & -> & Hn1 & Hn2 & Hd1 & Hd2 & Hv).
    pose proof (strcase_eq_length _ _ Hv) as Hl. rewrite length_rev in Hl. simpl in Hl.
    rewrite skip_digits_app by (done || by intros c p' [= <- <-]).
    assert (skip_digits (d1 ++ vol ++ base) = vol ++ base) as Hq.
    { apply skip_digits_app; [done|]. intros c p' Hc.
      destruct vol as [|v vol]; [done|]. injection Hc as <- <-.
      destruct (isdigit v) eqn:E; [|done]. apply strcase_eq_true in Hv. simpl in Hv.
      rewrite fmap_app in Hv. apply (f_equal last) in Hv.
      change (tolower <$> [v]) with [tolower v] in Hv. rewrite last_snoc, isdigit_tolower in Hv by done.
      vm_compute in Hv. injection Hv as ->. done. }
    rewrite Hq, !length_app. simpl length. rewrite !length_app.
    destruct d1 as [|x1 d1]; [done|]. destruct d2 as [|x2 d2]; [done|].
    destruct (Nat.eqb_spec (S (length (x1 :: d1) + (length vol + length base)))
      (length (x2 :: d2) + S (length (x1 :: d1) + (length vol + length base)))) as [He|_];
      [simpl in He; lia|].
    destruct (Nat.eqb_spec (length vol + length base)
      (length (x1 :: d1) + (length vol + length base))) as [He|_]; [simpl in He; lia|].
    rewrite take_app_le, take_ge by lia. rewrite Hv, andb_true_r. apply Nat.leb_le. lia.
Qed.

(** ** Progress counting *)

Definition all_segments (j : job) : list job_segment := mjoin (jf_segments <$> j_files j).

Definition downloaded_count (segs : list job_segment) : nat := length (filter (λ s, sg_downloaded s = true) segs).

Lemma progress_segments segs t d :
  foldl (λ '(t, d) s, (S t, if sg_downloaded s then S d else d)) (t, d) segs =
  ((t + length segs)%nat, (d + downloaded_count segs)%nat).
Proof.
  unfold downloaded_count. revert t d. induction segs as [|s segs IH]; intros t d; cbn [foldl].
  - by rewrite !Nat.add_0_r.
  - rewrite IH, filter_cons. destruct (sg_downloaded s) eqn:E;
      [rewrite decide_True by done|rewrite decide_False by done]; simpl; f_equal; lia.
Qed.

Definition counted_segments (fs : list job_file) : list job_segment :=
  mjoin (jf_segments <$> filter (λ f, counted f = true) fs).

Lemma downloaded_count_app a b :
  downloaded_count (a ++ b) = (downloaded_count a + downloaded_count b)%nat.
Proof. unfold downloaded_count. by rewrite filter_app, length_app. Qed.

Lemma job_segment_progress_eq j :
  job_segment_progress j =
  (length (counted_segments (j_files j)), downloaded_count (counted_segments (j_files j))).
Proof.
  unfold job_segment_progress, counted_segments.
  assert (∀ fs t d,
    foldl (λ acc f, if counted f then
      foldl (λ '(t, d) s, (S t, if sg_downloaded s then S d else d)) acc (jf_segments f) else acc)
      (t, d) fs =
    ((t + length (mjoin (jf_segments <$> filter (λ f, counted f = true) fs)))%nat,
     (d + downloaded_count (mjoin (jf_segments <$> filter (λ f, counted f = true) fs)))%nat)) as H.
  { induction fs as [|f fs IH]; intros t d; cbn [foldl]; [by rewrite !Nat.add_0_r|].
    rewrite filter_cons. destruct (counted f) eqn:E.
    - rewrite decide_True by done. rewrite ?fmap_cons, ?mjoin_cons.
      rewrite progress_segments, IH, length_app, downloaded_count_app. f_equal; lia.
    - rewrite decide_False by done. apply IH. }
  by rewrite H.
Qed.

Lemma downloaded_count_le segs : (downloaded_count segs <= length segs)%nat.
Proof. unfold downloaded_count. apply length_filter. Qed.

Lemma uncounted_nothing f : counted f = false → downloaded_count (jf_segments f) = 0%nat.
Proof.
  unfold counted, downloaded_count. intros [_ H]%orb_false_iff.
  induction (jf_segments f) as [|s l IH]; [done|]. simpl in H. apply orb_false_iff in H as [H1 H2].
  rewrite filter_cons, decide_False; [by apply IH|]. congruence.
Qed.

Lemma downloaded_counted j :
  downloaded_count (counted_segments (j_files j)) = downloaded_count (all_segments j).
Proof.
  unfold counted_segments, all_segments. induction (j_files j) as [|f fs IH]; [done|].
  rewrite filter_cons. destruct (counted f) eqn:E.
  - rewrite decide_True by done. rewrite ?fmap_cons, ?mjoin_cons. rewrite !downloaded_count_app. auto.
  - rewrite decide_False by done. rewrite ?fmap_cons, ?mjoin_cons.
    by rewrite downloaded_count_app, uncounted_nothing, IH.
Qed.

Lemma mark_first_Some segs id segs' :
  mark_first segs id = Some segs' →
  ∃ pre s post, segs = pre ++ s :: post ∧ segs' = pre ++ mark_segment s :: post ∧
    sg_message_id s = id ∧ Forall (λ s, sg_message_id s ≠ id) pre.
Proof.
  revert segs'. induction segs as [|s segs IH]; intros segs'; simpl; [done|]. case_decide.
  - intros [= <-]. by exists [], s, segs.
  - intros (l & (pre & s' & post & -> & -> & Hs & Hp)%IH & ->)%fmap_Some.
    exists (s :: pre), s', post. split_and!; try done. by constructor.
Qed.

Lemma mark_first_None segs id :
  mark_first segs id = None → Forall (λ s, sg_message_id s ≠ id) segs.
Proof.
  induction segs as [|s segs IH]; simpl; [constructor|]. case_decide; [done|].
  intros ?%fmap_None. constructor; auto.
Qed.

Lemma mark_in_files_Some fs id fs' :
  mark_in_files fs id = Some fs' →
  ∃ pre s post, mjoin (jf_segments <$> fs) = pre ++ s :: post ∧
    mjoin (jf_segments <$> fs') = pre ++ mark_segment s :: post ∧
    sg_message_id s = id ∧ Forall (λ s, sg_message_id s ≠ id) pre.
Proof.
  revert fs'. induction fs as [|f fs IH]; intros fs'; cbn [mark_in_files]; [done|].
  destruct (mark_first (jf_segments f) id) as [segs|] eqn:E.
  - intros [= <-]. apply mark_first_Some in E as (pre & s & post & E1 & -> & Hs & Hp).
    exists pre, s, (post ++ mjoin (jf_segments <$> fs)). rewrite !fmap_cons, !mjoin_cons. cbn [with_segments jf_segments].
    rewrite E1, <- !app_assoc. done.
  - apply mark_first_None in E.
    intros (l & (pre & s & post & E1 & E2 & Hs & Hp)%IH & ->)%fmap_Some.
    exists (jf_segments f ++ pre), s, post. rewrite ?fmap_cons, ?mjoin_cons. rewrite E1, E2, <- !app_assoc.
    split_and!; try done. by apply Forall_app.
Qed.

Lemma mark_in_files_None fs id :
  mark_in_files fs id = None → Forall (λ s, sg_message_id s ≠ id) (mjoin (jf_segments <$> fs)).
Proof.
  induction fs as [|f fs IH]; cbn [mark_in_files]; [constructor|].
  destruct (mark_first (jf_segments f) id) eqn:E; [done|]. apply mark_first_None in E.
  intros ?%fmap_None. apply Forall_app. auto.
Qed.

(** ** Properties *)

(** [job_file_is_par2_volume] accepts exactly the names
    "<base>.vol<digits>+<digits>.par2", the two words in any case: the
    right-to-left scan neither misses a volume nor takes an index file or a
    name with a stray "vol" for one. *)
Theorem job_file_is_par2_volume_iff (name : cstr) :
  job_file_is_par2_volume name = true ↔
  ∃ base vol d1 d2 ext,
    name = base ++ vol ++ d1 ++ [x2b] ++ d2 ++ ext ∧ d1 ≠ [] ∧ d2 ≠ [] ∧
    Forall (λ c, isdigit c = true) d1 ∧ Forall (λ c, isdigit c = true) d2 ∧
    strcase_eq vol ($ ".vol") = true ∧ strcase_eq ext ($ ".par2") = true.
Proof.
  unfold job_file_is_par2_volume. split.
  - destruct (has_suffix_ci name ($ ".par2")) eqn:E; [|done].
    apply has_suffix_ci_app in E as (base & ext & -> & Hext).
    pose proof (strcase_eq_length _ _ Hext) as Hl. simpl in Hl.
    rewrite length_app, Hl, Nat.add_sub, take_app_length. cbv zeta.
    intros (d2 & d1 & vol & base' & Hr & Hn1 & Hn2 & Hd1 & Hd2 & Hv)%volume_prefix_cases.
    exists (rev base'), (rev vol), (rev d1), (rev d2), ext.
    assert (base = rev base' ++ rev vol ++ rev d1 ++ [x2b] ++ rev d2) as ->.
    { rewrite <- (rev_involutive base), Hr. rewrite rev_app_distr. simpl.
      by rewrite !rev_app_distr, <- !app_assoc. }
    rewrite <- !app_assoc. split_and!; try done; try by apply Forall_rev.
    + intros H%(f_equal (@rev _)). by rewrite rev_involutive in H.
    + intros H%(f_equal (@rev _)). by rewrite rev_involutive in H.
  - intros (base & vol & d1 & d2 & ext & -> & Hn1 & Hn2 & Hd1 & Hd2 & Hv & Hext).
    pose proof (strcase_eq_length _ _ Hext) as Hl. simpl in Hl.
    assert (has_suffix_ci (base ++ vol ++ d1 ++ [x2b] ++ d2 ++ ext) ($ ".par2") = true) as ->.
    { apply has_suffix_ci_app. exists (base ++ vol ++ d1 ++ [x2b] ++ d2), ext.
      by rewrite <- !app_assoc. }
    replace (base ++ vol ++ d1 ++ [x2b] ++ d2 ++ ext)
      with ((base ++ vol ++ d1 ++ [x2b] ++ d2) ++ ext) by by rewrite <- !app_assoc.
    rewrite (length_app _ ext), Hl, Nat.add_sub, take_app_length. cbv zeta.
    apply volume_prefix_cases. exists (rev d2), (rev d1), (rev vol), (rev base).
    split_and!; try by apply Forall_rev.
    + rewrite !rev_app_distr. simpl. by rewrite <- !app_assoc.
    + intros H%(f_equal (@rev _)). by rewrite rev_involutive in H.
    + intros H%(f_equal (@rev _)). by rewrite rev_involutive in H.
    + by rewrite rev_involutive.
Qed.

(** [job_segment_progress] never loses downloaded work: it reports every
    downloaded segment of the job, never more than its total, and its total is
    the number of all segments except those of untouched recovery volumes. *)
Theorem job_segment_progress_counts (j : job) :
  let '(total, downloaded) := job_segment_progress j in
  total = length (counted_segments (j_files j)) ∧
  downloaded = downloaded_count (all_segments j) ∧
  (downloaded <= total <= length (all_segments j))%nat.
Proof.
  rewrite job_segment_progress_eq, <- downloaded_counted. split_and!; [done..|apply downloaded_count_le|].
  unfold counted_segments, all_segments. induction (j_files j) as [|f fs IH]; [done|].
  rewrite filter_cons. case_decide; rewrite ?fmap_cons, ?mjoin_cons; rewrite !length_app; lia.
Qed.

(** [job_mark_segment_downloaded] sets the flag of the first segment with
    the message-id, in file order, and of no other, and answers 0 exactly when
    there is none. With a message-id used twice the later segments keep their
    flag. *)
Theorem job_mark_segment_downloaded_first (j : job) (id : cstr) :
  match job_mark_segment_downloaded j id with
  | (j', true) => ∃ pre s post, all_segments j = pre ++ s :: post ∧
      all_segments j' = pre ++ mark_segment s :: post ∧ sg_message_id s = id ∧
      Forall (λ s, sg_message_id s ≠ id) pre
  | (j', false) => j' = j ∧ Forall (λ s, sg_message_id s ≠ id) (all_segments j)
  end.
Proof.
  unfold job_mark_segment_downloaded, all_segments.
  destruct (mark_in_files (j_files j) id) as [fs|] eqn:E.
  - by apply mark_in_files_Some.
  - split; [done|]. by apply mark_in_files_None.
Qed.
