(* ===== verification/Nzb.v ===== *)
(** * NZB parsing ([nzb/nzb_parse.c])

    The expat handlers build a job from the events of an NZB document. expat
    itself is a parameter: the events it delivers for the chunks it is fed. *)

From Stdlib Require Import ZArith Lia List.
From Stdlib Require Import Strings.Byte Strings.String.
From stdpp Require Import base list gmap.
From S2P Require Import Prelude Cnum Paths Job.

Definition NZB_PARSE_CHUNK_SIZE : nat := Z.to_nat 8192.
Definition SEG_TEXT_MAX : nat := 511.
Definition META_TEXT_MAX : nat := 255.

(** [parse_ctx_t]; [pc_in_file] is [current_file != NULL], which then points
    to the last file of the job. *)
Record parse_ctx := ParseCtx {
  pc_job : job;
  pc_in_file : bool;
  pc_in_segment : bool;
  pc_seg_bytes : Z;
  pc_seg_number : Z;
  pc_seg_text : cstr;
  pc_in_password_meta : bool;
  pc_meta_text : cstr
}.

Definition attrs_t := list (cstr * cstr).

Fixpoint find_attr (attrs : attrs_t) (name : cstr) : option cstr :=
  match attrs with
  | [] => None
  | (k, v) :: attrs => if decide (k = name) then Some v else find_attr attrs name
  end.

Definition trim_ws (s : cstr) : cstr := strip s.

(** The test on what stands between the parentheses. *)
Definition is_part_count (m : cstr) : bool :=
  match split_at x2f m with
  | Some (d1, d2) =>
    forallb isdigit d1 && forallb isdigit d2 &&
    negb (bool_decide (d1 = [])) && negb (bool_decide (d2 = []))
  | None => false
  end.

Definition strip_yenc_word (s : cstr) : cstr :=
  let len := length s in
  if (4 <=? len)%nat && strcase_eq (str_tail 4 s) ($ "yenc") &&
     ((len =? 4)%nat || match s !! (len - 5)%nat with Some c => isspace c | None => false end)
  then trim_ws (take (len - 4) s)
  else s.

Definition strip_trailing_part_suffix (s : cstr) : cstr :=
  match last s with
  | Some x29 =>
    match split_last x28 s with
    | None => s
    | Some (a, b) =>
      if is_part_count (take (length b - 1) b) &&
         match last a with None => true | Some c => isspace c end
      then strip_yenc_word (trim_ws a)
      else s
    end
  | _ => s
  end.

Definition extract_filename (subject : cstr) (out_size : nat) : cstr :=
  let out :=
    match split_at x22 subject with
    | Some (_, rest) =>
      match split_at x22 rest with
      | Some (c :: name, _) => take (out_size - 1) (c :: name)
      | _ => strip_trailing_part_suffix (str_fit out_size subject)
      end
    | None => strip_trailing_part_suffix (str_fit out_size subject)
    end in
  path_sanitize_component out out_size.

(** ** The handlers *)

Definition start_element (ctx : parse_ctx) (name : cstr) (attrs : attrs_t) : parse_ctx :=
  if decide (name = $ "file") then
    let subject := default [] (find_attr attrs ($ "subject")) in
    ParseCtx (job_add_file (pc_job ctx) (extract_filename subject 512) subject) true
      (pc_in_segment ctx) (pc_seg_bytes ctx) (pc_seg_number ctx) (pc_seg_text ctx)
      (pc_in_password_meta ctx) (pc_meta_text ctx)
  else if decide (name = $ "segment") then
    ParseCtx (pc_job ctx) (pc_in_file ctx) true
      (match find_attr attrs ($ "bytes") with Some b => strtol10 b | None => 0 end)
      (match find_attr attrs ($ "number") with Some n => atoi n | None => 0 end)
      [] (pc_in_password_meta ctx) (pc_meta_text ctx)
  else if decide (name = $ "meta") then
    ParseCtx (pc_job ctx) (pc_in_file ctx) (pc_in_segment ctx) (pc_seg_bytes ctx) (pc_seg_number ctx)
      (pc_seg_text ctx)
      (match find_attr attrs ($ "type") with Some t => strcase_eq t ($ "password") | None => false end) []
  else ctx.

(** What fits behind the text already held. *)
Definition append_text (max : nat) (text s : cstr) : cstr := text ++ take (max - length text) s.

Definition char_data (ctx : parse_ctx) (s : cstr) : parse_ctx :=
  if pc_in_segment ctx then
    ParseCtx (pc_job ctx) (pc_in_file ctx) true (pc_seg_bytes ctx) (pc_seg_number ctx)
      (append_text SEG_TEXT_MAX (pc_seg_text ctx) s) (pc_in_password_meta ctx) (pc_meta_text ctx)
  else if pc_in_password_meta ctx then
    ParseCtx (pc_job ctx) (pc_in_file ctx) false (pc_seg_bytes ctx) (pc_seg_number ctx)
      (pc_seg_text ctx) true (append_text META_TEXT_MAX (pc_meta_text ctx) s)
  else ctx.

(** The message-id with its angle brackets. *)
Definition bracketed (text : cstr) : cstr :=
  match text with
  | x3c :: _ => str_fit (SEG_TEXT_MAX + 3) text
  | _ => str_fit (SEG_TEXT_MAX + 3) ($ "<" ++ text ++ $ ">")
  end.

(** [job_file_add_segment] on the file [current_file] points to. *)
Definition add_to_last_file (j : job) (msgid : cstr) (bytes number : Z) : job :=
  set_files (alter (λ f, job_file_add_segment f msgid bytes number) (length (j_files j) - 1)%nat (j_files j)) j.

Definition end_element (ctx : parse_ctx) (name : cstr) : parse_ctx :=
  if decide (name = $ "file") then
    ParseCtx (pc_job ctx) false (pc_in_segment ctx) (pc_seg_bytes ctx) (pc_seg_number ctx)
      (pc_seg_text ctx) (pc_in_password_meta ctx) (pc_meta_text ctx)
  else if decide (name = $ "segment") then
    let text := trim_ws (pc_seg_text ctx) in
    let j :=
      if negb (pc_in_file ctx) then pc_job ctx
      else if pc_seg_number ctx <? 1 then pc_job ctx
      else if decide (text = []) then pc_job ctx
      else add_to_last_file (pc_job ctx) (bracketed text) (pc_seg_bytes ctx) (pc_seg_number ctx) in
    ParseCtx j (pc_in_file ctx) false (pc_seg_bytes ctx) (pc_seg_number ctx) text
      (pc_in_password_meta ctx) (pc_meta_text ctx)
  else if decide (name = $ "meta") then
    let text := if pc_in_password_meta ctx then trim_ws (pc_meta_text ctx) else pc_meta_text ctx in
    ParseCtx (if pc_in_password_meta ctx then job_add_password (pc_job ctx) text else pc_job ctx)
      (pc_in_file ctx) (pc_in_segment ctx) (pc_seg_bytes ctx) (pc_seg_number ctx)
      (pc_seg_text ctx) false text
  else ctx.

Inductive xml_event :=
  | EvStart (name : cstr) (attrs : attrs_t)
  | EvText (s : cstr)
  | EvEnd (name : cstr).

Definition handle_event (ctx : parse_ctx) (e : xml_event) : parse_ctx :=
  match e with
  | EvStart name attrs => start_element ctx name attrs
  | EvText s => char_data ctx s
  | EvEnd name => end_element ctx name
  end.

(** ** The file *)

Definition basename_of (path : cstr) : cstr :=
  let after c := match split_last c path with Some (_, b) => b | None => path end in
  let a := after x2f in
  let b := after x5c in
  if (length b <? length a)%nat then b else a.

(** The chunks [fread] fills the buffer with; the last one is short, perhaps
    empty. *)
Fixpoint chunks (fuel size : nat) (data : list byte) : list (list byte) :=
  match fuel with
  | O => []
  | S fuel =>
    if (length data <? size)%nat then [data]
    else take size data :: chunks fuel size (drop size data)
  end.

Section parse.
(** expat: the events for the chunks of a document, or the ones before an
    error. *)
Context (xml_parse : list (list byte) → list xml_event * bool).

Definition initial_ctx (j : job) : parse_ctx := ParseCtx j false false 0 0 [] false [].

(** [random] are the bytes the job id is made of; [None] is NULL. *)
Definition nzb_parse_file (random : list byte) (path : cstr) (content : option (list byte))
    : option job :=
  data ← content;
  let j := job_create random (basename_of path) in
  let '(events, ok) := xml_parse (chunks (S (length data)) NZB_PARSE_CHUNK_SIZE data) in
  if ok then Some (pc_job (foldl handle_event (initial_ctx j) events)) else None.
End parse.

(** ** Text in pieces *)

Lemma append_text_app max t a b :
  append_text max (append_text max t a) b = append_text max t (a ++ b).
Proof.
  unfold append_text. rewrite <- app_assoc. f_equal. rewrite take_app. f_equal. f_equal.
  rewrite length_app, length_take. lia.
Qed.

Lemma append_text_pieces max pieces t :
  (length t <= max)%nat → foldl (append_text max) t pieces = append_text max t (mjoin pieces).
Proof.
  revert t. induction pieces as [|p pieces IH]; intros t Ht.
  - unfold append_text. cbn. by rewrite take_nil, app_nil_r.
  - cbn [foldl]. rewrite IH.
    + by rewrite append_text_app, mjoin_cons.
    + unfold append_text. rewrite length_app, length_take. lia.
Qed.

Lemma segment_pieces pieces ctx :
  pc_in_segment ctx = true → (length (pc_seg_text ctx) <= SEG_TEXT_MAX)%nat →
  foldl handle_event ctx (EvText <$> pieces) =
  ParseCtx (pc_job ctx) (pc_in_file ctx) true (pc_seg_bytes ctx) (pc_seg_number ctx)
    (append_text SEG_TEXT_MAX (pc_seg_text ctx) (mjoin pieces)) (pc_in_password_meta ctx) (pc_meta_text ctx).
Proof.
  intros Hs Hl. rewrite <- append_text_pieces by done. clear Hl. revert ctx Hs.
  induction pieces as [|p pieces IH]; intros ctx Hs.
  - by destruct ctx; simpl in *; subst.
  - rewrite fmap_cons. cbn [foldl handle_event]. unfold char_data. rewrite Hs. by rewrite IH.
Qed.

Lemma meta_pieces pieces ctx :
  pc_in_segment ctx = false → pc_in_password_meta ctx = true →
  (length (pc_meta_text ctx) <= META_TEXT_MAX)%nat →
  foldl handle_event ctx (EvText <$> pieces) =
  ParseCtx (pc_job ctx) (pc_in_file ctx) false (pc_seg_bytes ctx) (pc_seg_number ctx)
    (pc_seg_text ctx) true (append_text META_TEXT_MAX (pc_meta_text ctx) (mjoin pieces)).
Proof.
  intros Hs Hm Hl. rewrite <- append_text_pieces by done. clear Hl. revert ctx Hs Hm.
  induction pieces as [|p pieces IH]; intros ctx Hs Hm.
  - by destruct ctx; simpl in *; subst.
  - rewrite fmap_cons. cbn [foldl handle_event]. unfold char_data. rewrite Hs, Hm. by rewrite IH.
Qed.

(** ** Documents *)

Record nzb_segment := NzbSegment { ns_bytes : Z; ns_number : Z; ns_text : cstr }.
Record nzb_file := NzbFile { nf_subject : cstr; nf_segments : list nzb_segment }.
Record nzb_doc := NzbDoc { nd_passwords : list cstr; nd_files : list nzb_file }.

Section document.
(** How the parser happens to cut text into pieces, and the text (white
    space or anything else) between the elements. *)
Context (cut : cstr → list cstr) (gap : cstr).
Hypothesis cut_join : ∀ s, mjoin (cut s) = s.

Definition segment_events (s : nzb_segment) : list xml_event :=
  EvStart ($ "segment") [($ "bytes", print_dec (ns_bytes s)); ($ "number", print_dec (ns_number s))] ::
  (EvText <$> cut (ns_text s)) ++ [EvEnd ($ "segment"); EvText gap].

Definition file_events (f : nzb_file) : list xml_event :=
  EvStart ($ "file") [($ "poster", $ "p"); ($ "subject", nf_subject f)] :: EvText gap ::
  EvStart ($ "segments") [] :: EvText gap :: mjoin (segment_events <$> nf_segments f) ++
  [EvEnd ($ "segments"); EvText gap; EvEnd ($ "file"); EvText gap].

Definition password_events (p : cstr) : list xml_event :=
  EvStart ($ "meta") [($ "type", $ "password")] :: (EvText <$> cut p) ++ [EvEnd ($ "meta"); EvText gap].

Definition doc_events (d : nzb_doc) : list xml_event :=
  EvStart ($ "nzb") [] :: EvText gap :: EvStart ($ "head") [] :: EvText gap ::
  mjoin (password_events <$> nd_passwords d) ++
  [EvEnd ($ "head"); EvText gap] ++ mjoin (file_events <$> nd_files d) ++ [EvEnd ($ "nzb")].

(** Between elements: not in a segment, not in a password. *)
Definition idle (ctx : parse_ctx) : Prop :=
  pc_in_segment ctx = false ∧ pc_in_password_meta ctx = false.

Lemma idle_text ctx s : idle ctx → handle_event ctx (EvText s) = ctx.
Proof. intros [H1 H2]. cbn. unfold char_data. by rewrite H1, H2. Qed.

(** The segments a poster's document should have. *)
Definition segment_wf (s : nzb_segment) : Prop :=
  - 2 ^ 63 <= ns_bytes s < 2 ^ 63 ∧ 1 <= ns_number s < 2 ^ 31 ∧
  trimmed (ns_text s) ∧ ns_text s ≠ [] ∧ (length (ns_text s) < 509)%nat.

Lemma segment_handled ctx s :
  idle ctx → pc_in_file ctx = true → segment_wf s →
  ∃ ctx', foldl handle_event ctx (segment_events s) = ctx' ∧ idle ctx' ∧ pc_in_file ctx' = true ∧
    pc_job ctx' = add_to_last_file (pc_job ctx) (bracketed (ns_text s)) (ns_bytes s) (ns_number s).
Proof using cut_join.
  intros Hi Hf (Hb & Hn & Ht & Hne & Hl). eexists. split; [reflexivity|].
  unfold segment_events. cbn [foldl handle_event]. rewrite foldl_app.
  set (c1 := start_element ctx _ _).
  assert (c1 = ParseCtx (pc_job ctx) (pc_in_file ctx) true
    (strtol10 (print_dec (ns_bytes s))) (atoi (print_dec (ns_number s))) []
    (pc_in_password_meta ctx) (pc_meta_text ctx)) as -> by reflexivity.
  rewrite segment_pieces, cut_join by (done || cbn; lia). cbn [foldl handle_event pc_seg_text].
  assert (append_text SEG_TEXT_MAX [] (ns_text s) = ns_text s) as ->.
  { unfold append_text, SEG_TEXT_MAX. cbn [app length]. apply take_ge. lia. }
  set (c2 := end_element _ _).
  assert (c2 = ParseCtx (add_to_last_file (pc_job ctx) (bracketed (ns_text s)) (ns_bytes s) (ns_number s))
    true false (ns_bytes s) (ns_number s) (ns_text s) (pc_in_password_meta ctx) (pc_meta_text ctx)) as ->.
  { unfold c2, end_element. rewrite decide_False, decide_True by done.
    cbn [pc_seg_text pc_in_file pc_seg_number pc_seg_bytes pc_job pc_in_password_meta pc_meta_text].
    unfold trim_ws. rewrite strip_id by done. rewrite Hf. cbn [negb].
    rewrite atoi_print by lia. rewrite (proj2 (Z.ltb_ge _ _)) by lia. rewrite decide_False by done.
    rewrite <- (app_nil_r (print_dec (ns_bytes s))), strtol10_print by done. done. }
  destruct Hi as [_ Hm].
  assert (idle (ParseCtx (add_to_last_file (pc_job ctx) (bracketed (ns_text s)) (ns_bytes s) (ns_number s))
    true false (ns_bytes s) (ns_number s) (ns_text s) (pc_in_password_meta ctx) (pc_meta_text ctx))) as Hi'
    by done.
  pose proof (idle_text _ gap Hi') as Hg. cbn [handle_event] in Hg. rewrite Hg. done.
Qed.

(** The file a run of segments leaves. *)
Definition fill_file (f : job_file) (segs : list nzb_segment) : job_file :=
  foldl (λ f s, job_file_add_segment f (bracketed (ns_text s)) (ns_bytes s) (ns_number s)) f segs.

Lemma add_to_last_snoc j fs f msgid b n :
  j_files j = fs ++ [f] →
  j_files (add_to_last_file j msgid b n) = fs ++ [job_file_add_segment f msgid b n].
Proof.
  intros Hj. unfold add_to_last_file. cbn [set_files j_files]. rewrite Hj, length_app. cbn [length].
  rewrite Nat.add_sub, alter_app_r_alt, Nat.sub_diag by lia. done.
Qed.

Lemma segments_handled segs ctx fs f :
  idle ctx → pc_in_file ctx = true → Forall segment_wf segs → j_files (pc_job ctx) = fs ++ [f] →
  ∃ ctx', foldl handle_event ctx (mjoin (segment_events <$> segs)) = ctx' ∧ idle ctx' ∧
    pc_in_file ctx' = true ∧ j_files (pc_job ctx') = fs ++ [fill_file f segs] ∧
    j_passwords (pc_job ctx') = j_passwords (pc_job ctx).
Proof using cut_join.
  intros Hi Hf Hall. revert ctx f Hi Hf. induction Hall as [|s segs Hs Hall IH]; intros ctx f Hi Hf Hj.
  - by exists ctx.
  - rewrite fmap_cons, mjoin_cons, foldl_app.
    destruct (segment_handled ctx s Hi Hf Hs) as (c1 & -> & Hi1 & Hf1 & Hj1).
    destruct (IH c1 (job_file_add_segment f (bracketed (ns_text s)) (ns_bytes s) (ns_number s)))
      as (c2 & E2 & Hi2 & Hf2 & Hj2 & Hp2); [done|done|by rewrite Hj1; apply add_to_last_snoc|].
    exists c2. split_and!; try done. rewrite Hp2, Hj1. done.
Qed.

Definition new_file (f : nzb_file) : job_file :=
  JobFile (str_fit 512 (extract_filename (nf_subject f) 512)) (str_fit 1024 (nf_subject f)) 0 [].

Lemma file_handled ctx f :
  idle ctx → Forall segment_wf (nf_segments f) →
  ∃ ctx', foldl handle_event ctx (file_events f) = ctx' ∧ idle ctx' ∧
    j_files (pc_job ctx') = j_files (pc_job ctx) ++ [fill_file (new_file f) (nf_segments f)] ∧
    j_passwords (pc_job ctx') = j_passwords (pc_job ctx).
Proof using cut_join.
  intros Hi Hall. unfold file_events. cbn [foldl].
  set (c1 := handle_event ctx (EvStart ($ "file") _)).
  assert (idle c1 ∧ pc_in_file c1 = true ∧ j_files (pc_job c1) = j_files (pc_job ctx) ++ [new_file f] ∧
    j_passwords (pc_job c1) = j_passwords (pc_job ctx)) as (Hi1 & Hf1 & Hj1 & Hp1).
  { split_and!; done. }
  clearbody c1. rewrite (idle_text c1) by done.
  assert (handle_event c1 (EvStart ($ "segments") []) = c1) as -> by reflexivity.
  rewrite (idle_text c1) by done. rewrite foldl_app.
  destruct (segments_handled (nf_segments f) c1 _ _ Hi1 Hf1 Hall Hj1) as (c2 & -> & Hi2 & Hf2 & Hj2 & Hp2).
  cbn [foldl]. assert (handle_event c2 (EvEnd ($ "segments")) = c2) as -> by reflexivity.
  rewrite (idle_text c2) by done. eexists. split; [reflexivity|].
  rewrite idle_text by done. split_and!; [done|done|exact (eq_trans Hp2 Hp1)].
Qed.

Lemma files_handled files ctx :
  idle ctx → Forall (λ f, Forall segment_wf (nf_segments f)) files →
  ∃ ctx', foldl handle_event ctx (mjoin (file_events <$> files)) = ctx' ∧ idle ctx' ∧
    j_files (pc_job ctx') =
      j_files (pc_job ctx) ++ ((λ f, fill_file (new_file f) (nf_segments f)) <$> files) ∧
    j_passwords (pc_job ctx') = j_passwords (pc_job ctx).
Proof using cut_join.
  intros Hi Hall. revert ctx Hi. induction Hall as [|f files Hf Hall IH]; intros ctx Hi.
  - exists ctx. by rewrite app_nil_r.
  - rewrite fmap_cons, mjoin_cons, foldl_app.
    destruct (file_handled ctx f Hi Hf) as (c1 & -> & Hi1 & Hj1 & Hp1).
    destruct (IH c1 Hi1) as (c2 & E2 & Hi2 & Hj2 & Hp2). exists c2.
    split_and!; [done|done| |congruence]. rewrite Hj2, Hj1, fmap_cons, <- app_assoc. done.
Qed.
End document.

Section passwords.
Context (cut : cstr → list cstr) (gap : cstr).
Hypothesis cut_join : ∀ s, mjoin (cut s) = s.

Lemma password_handled ctx p :
  idle ctx →
  ∃ ctx', foldl handle_event ctx (password_events cut gap p) = ctx' ∧ idle ctx' ∧
    pc_job ctx' = job_add_password (pc_job ctx) (strip (take META_TEXT_MAX p)).
Proof using cut_join.
  intros [Hs Hm]. unfold password_events. cbn [foldl handle_event]. rewrite foldl_app.
  set (c1 := start_element ctx _ _).
  assert (c1 = ParseCtx (pc_job ctx) (pc_in_file ctx) (pc_in_segment ctx) (pc_seg_bytes ctx)
    (pc_seg_number ctx) (pc_seg_text ctx) true []) as -> by reflexivity.
  rewrite meta_pieces, cut_join by (done || cbn; lia). cbn [foldl handle_event].
  eexists. split; [reflexivity|]. cbn [pc_meta_text].
  set (c2 := end_element _ _).
  assert (c2 = ParseCtx (job_add_password (pc_job ctx) (strip (take META_TEXT_MAX p))) (pc_in_file ctx)
    false (pc_seg_bytes ctx) (pc_seg_number ctx) (pc_seg_text ctx) false (strip (take META_TEXT_MAX p))) as ->.
  { unfold c2, end_element, append_text. cbn [app length]. by rewrite Nat.sub_0_r. }
  split; [done|]. done.
Qed.

Lemma passwords_handled ps ctx :
  idle ctx →
  ∃ ctx', foldl handle_event ctx (mjoin (password_events cut gap <$> ps)) = ctx' ∧ idle ctx' ∧
    pc_job ctx' = foldl (λ j p, job_add_password j (strip (take META_TEXT_MAX p))) (pc_job ctx) ps.
Proof using cut_join.
  revert ctx. induction ps as [|p ps IH]; intros ctx Hi; [by exists ctx|].
  rewrite fmap_cons, mjoin_cons, foldl_app.
  destruct (password_handled ctx p Hi) as (c1 & -> & Hi1 & Hj1).
  destruct (IH c1 Hi1) as (c2 & E2 & Hi2 & Hj2). exists c2. split_and!; [done|done|].
  rewrite Hj2, Hj1. done.
Qed.
End passwords.

Lemma add_password_files j p : j_files (job_add_password j p) = j_files j.
Proof. unfold job_add_password. repeat case_decide; [done..|]. by destruct (_ <=? _)%nat. Qed.

(** ** Sizes *)

Lemma length_skip_space s : (length (skip_space s) <= length s)%nat.
Proof. induction s as [|c s IH]; simpl; [done|]. destruct (isspace c); simpl; lia. Qed.

Lemma length_drop_trailing s : (length (drop_trailing_space s) <= length s)%nat.
Proof.
  induction s as [|c s IH]; simpl; [done|].
  destruct (drop_trailing_space s); [destruct (isspace c)|]; simpl in *; lia.
Qed.

Lemma length_strip s : (length (strip s) <= length s)%nat.
Proof. unfold strip. etransitivity; [apply length_drop_trailing|apply length_skip_space]. Qed.

Lemma split_last_length c s a b : split_last c s = Some (a, b) → (length a <= length s)%nat.
Proof.
  revert a b. induction s as [|x s IH]; intros a b; simpl; [done|].
  destruct (split_last c s) as [[a' b']|].
  - intros [= <- <-]. specialize (IH a' b' eq_refl). simpl. lia.
  - case_decide; [|done]. intros [= <- <-]. simpl. lia.
Qed.

Lemma length_strip_suffix s : (length (strip_trailing_part_suffix s) <= length s)%nat.
Proof.
  assert (∀ t, (length (strip_yenc_word t) <= length t)%nat) as Hy.
  { intros t. unfold strip_yenc_word. destruct (_ && _); [|done].
    unfold trim_ws. etransitivity; [apply length_strip|]. rewrite length_take. lia. }
  unfold strip_trailing_part_suffix. destruct (last s) as [c|]; [|done].
  destruct (decide (c = x29)) as [->|Hc]; [|by destruct c].
  destruct (split_last x28 s) as [[a b]|] eqn:E; [|done]. destruct (_ && _); [|done].
  apply split_last_length in E. etransitivity; [apply Hy|].
  etransitivity; [apply length_strip|done].
Qed.

Lemma length_extract_filename subject : (length (extract_filename subject 512) < 512)%nat.
Proof.
  assert (∀ s, (length s < 512)%nat → (length (path_sanitize_component s 512) < 512)%nat) as Hs.
  { intros s Hl. unfold path_sanitize_component. case_decide; [cbn; lia|]. by rewrite length_fmap. }
  unfold extract_filename. cbv zeta. apply Hs.
  assert (length (strip_trailing_part_suffix (str_fit 512 subject)) < 512)%nat as Hf.
  { pose proof (length_strip_suffix (str_fit 512 subject)) as H1.
    assert (length (str_fit 512 subject) < 512)%nat by (unfold str_fit; rewrite length_take; lia). lia. }
  destruct (split_at x22 subject) as [[a b]|]; [|done].
  destruct (split_at x22 b) as [[[|c name] d]|]; [done| |done]. rewrite length_take. lia.
Qed.

Lemma length_bracketed t : (length t < 509)%nat → str_fit 512 (bracketed t) = bracketed t.
Proof.
  intros Hl. unfold str_fit. apply take_ge.
  assert (∀ s n, (length s <= n)%nat → (length (str_fit (SEG_TEXT_MAX + 3) s) <= n)%nat) as Hf.
  { intros s n Hs. unfold str_fit. rewrite length_take. lia. }
  destruct t as [|c t]; [cbn; lia|].
  destruct (decide (c = x3c)) as [->|Hc]; [apply Hf; lia|].
  assert (bracketed (c :: t) = str_fit (SEG_TEXT_MAX + 3) ($ "<" ++ (c :: t) ++ $ ">")) as ->
    by (clear -Hc; destruct c; reflexivity || done).
  assert (length ($ "<" ++ (c :: t) ++ $ ">") <= 511)%nat as Hb.
  { rewrite !length_app. change (length ($ "<")) with 1%nat. change (length ($ ">")) with 1%nat. lia. }
  by apply Hf.
Qed.

Lemma fill_file_eq f segs :
  Forall segment_wf segs →
  jf_filename (fill_file f segs) = jf_filename f ∧
  jf_segments (fill_file f segs) = jf_segments f ++
    ((λ s, JobSegment (bracketed (ns_text s)) (ns_bytes s) (ns_number s) false) <$> segs).
Proof.
  intros Hall. revert f. induction Hall as [|s segs Hs Hall IH]; intros f.
  - cbn. by rewrite app_nil_r.
  - unfold fill_file. cbn [foldl]. fold (fill_file (job_file_add_segment f (bracketed (ns_text s))
      (ns_bytes s) (ns_number s)) segs).
    destruct (IH (job_file_add_segment f (bracketed (ns_text s)) (ns_bytes s) (ns_number s))) as [-> ->].
    split; [done|]. rewrite fmap_cons. unfold job_file_add_segment. cbn [jf_segments].
    rewrite <- app_assoc. destruct Hs as (_ & _ & _ & _ & Hl). rewrite length_bracketed by done. done.
Qed.

(** ** Properties *)


Definition sample_doc : nzb_doc :=
  NzbDoc [$ "secret"] [NzbFile ($ "a.rar (1/1)") [NzbSegment 700 1 ($ "part1@news")]].


(** ** Subjects *)

Definition digits (d : cstr) : Prop := d ≠ [] ∧ Forall (λ c, isdigit c = true) d.

Lemma isdigit_not c x : isdigit c = true → isdigit x = false → c ≠ x.
Proof. intros H1 H2 ->. congruence. Qed.

Lemma digits_avoid d x : Forall (λ c, isdigit c = true) d → isdigit x = false → Forall (λ c, c ≠ x) d.
Proof. intros Hd Hx. eapply Forall_impl; [exact Hd|]. intros c Hc. by apply isdigit_not. Qed.

Lemma is_part_count_digits n m : digits n → digits m → is_part_count (n ++ x2f :: m) = true.
Proof.
  intros [Hn1 Hn2] [Hm1 Hm2]. unfold is_part_count.
  rewrite split_at_app by (by apply digits_avoid).
  assert (∀ d, Forall (λ c, isdigit c = true) d → forallb isdigit d = true) as Hf.
  { induction 1 as [|c d Hc _ IH]; [done|]. cbn. by rewrite Hc. }
  rewrite !Hf, !bool_decide_false by done. done.
Qed.

(** The "(n/m)" at the end is found and cut off. *)
Lemma strip_suffix_eq a n m :
  digits n → digits m → match last a with None => True | Some c => isspace c = true end →
  strip_trailing_part_suffix (a ++ x28 :: n ++ x2f :: m ++ [x29]) = strip_yenc_word (strip a).
Proof.
  intros Hn Hm Ha. unfold strip_trailing_part_suffix.
  assert (last (a ++ x28 :: n ++ x2f :: m ++ [x29]) = Some x29) as ->.
  { replace (a ++ x28 :: n ++ x2f :: m ++ [x29]) with ((a ++ x28 :: n ++ x2f :: m) ++ [x29])
      by (rewrite <- !app_assoc; cbn; by rewrite <- app_assoc).
    apply last_snoc. }
  rewrite split_last_app.
  2:{ destruct Hn as [_ Hn], Hm as [_ Hm]. rewrite Forall_app, Forall_cons, Forall_app.
      split_and!; [by apply digits_avoid|done|by apply digits_avoid|by repeat constructor]. }
  replace (n ++ x2f :: m ++ [x29]) with ((n ++ x2f :: m) ++ [x29]) by by rewrite <- app_assoc.
  rewrite length_app. cbn [length]. rewrite Nat.add_sub, take_app_length, is_part_count_digits by done.
  destruct (last a) as [c|]; [by rewrite Ha|done].
Qed.

Lemma strip_yenc_word_eq name :
  trimmed name → name ≠ [] → strip_yenc_word (name ++ $ " yEnc") = name.
Proof.
  intros Ht Hne. unfold strip_yenc_word, str_tail. rewrite length_app. change (length ($ " yEnc")) with 5%nat.
  replace (length name + 5 - 4)%nat with (S (length name)) by lia.
  rewrite (proj2 (Nat.leb_le _ _)) by lia.
  replace (length name + 5 - 5)%nat with (length name) by lia.
  assert (drop (S (length name)) (name ++ $ " yEnc") = $ "yEnc") as ->.
  { replace (S (length name)) with (length name + 1)%nat by lia.
    by rewrite <- drop_drop, drop_app_length. }
  rewrite lookup_app_r, Nat.sub_diag by lia. rewrite orb_true_r. cbn [andb].
  assert (take (S (length name)) (name ++ $ " yEnc") = name ++ [x20]) as ->.
  { rewrite take_app_ge by lia. by replace (S (length name) - length name)%nat with 1%nat by lia. }
  unfold trim_ws. apply strip_trailing; [done|done|by repeat constructor].
Qed.

(** File names are taken out of the subject as posters write it: the text
    between the first two quotes if there is any, and otherwise the subject
    without its trailing " (n/m)" or " yEnc (n/m)"; in every case the result is
    sanitized. *)
Theorem extract_filename_conventions (name : cstr) :
  (∀ pre post, name ≠ [] → (length name < 512)%nat → Forall (λ c, c ≠ x22) pre →
     Forall (λ c, c ≠ x22) name →
     extract_filename (pre ++ x22 :: name ++ x22 :: post) 512 = path_sanitize_component name 512) ∧
  (∀ n m, name ≠ [] → trimmed name → Forall (λ c, c ≠ x22) name → digits n → digits m →
     (length name + length n + length m + 10 < 512)%nat →
     extract_filename (name ++ $ " yEnc (" ++ n ++ x2f :: m ++ [x29]) 512 =
       path_sanitize_component name 512 ∧
     (strip_yenc_word name = name →
      extract_filename (name ++ $ " (" ++ n ++ x2f :: m ++ [x29]) 512 =
        path_sanitize_component name 512)).
Proof.
  split.
  - intros pre post Hne Hl Hpre Hname. unfold extract_filename. rewrite !split_at_app by done.
    destruct name as [|c name]; [done|]. rewrite take_ge by lia. done.
  - intros n m Hne Ht Hq Hn Hm Hl.
    assert (∀ sep : cstr, Forall (λ c, c ≠ x22) sep → (length sep <= 7)%nat →
      extract_filename (name ++ sep ++ n ++ x2f :: m ++ [x29]) 512 =
      path_sanitize_component (strip_trailing_part_suffix (name ++ sep ++ n ++ x2f :: m ++ [x29])) 512) as Hex.
    { intros sep Hsep Hls. unfold extract_filename. rewrite split_at_None.
      - unfold str_fit. rewrite take_ge; [done|]. rewrite !length_app. cbn [length].
        rewrite length_app. cbn [length]. lia.
      - destruct Hn as [_ Hn], Hm as [_ Hm]. rewrite !Forall_app, Forall_cons, Forall_app.
        split_and!; try done; [by apply digits_avoid|by apply digits_avoid|by repeat constructor]. }
    split.
    + rewrite Hex by first [(repeat constructor; done) | (cbn; lia)]. f_equal.
      replace (name ++ $ " yEnc (" ++ n ++ x2f :: m ++ [x29])
        with ((name ++ $ " yEnc ") ++ x28 :: n ++ x2f :: m ++ [x29]) by by rewrite <- app_assoc.
      rewrite strip_suffix_eq by (done || by rewrite last_app).
      replace (name ++ $ " yEnc ") with ((name ++ $ " yEnc") ++ [x20]) by by rewrite <- app_assoc.
      rewrite strip_trailing.
      * by apply strip_yenc_word_eq.
      * destruct Ht as [H1 _]. split; [|by intros c; rewrite last_app; intros [= <-]].
        intros c Hc. destruct name as [|x name]; [done|]. by apply H1.
      * by destruct name.
      * by repeat constructor.
    + intros Hy. rewrite Hex by first [(repeat constructor; done) | (cbn; lia)]. f_equal.
      replace (name ++ $ " (" ++ n ++ x2f :: m ++ [x29])
        with ((name ++ [x20]) ++ x28 :: n ++ x2f :: m ++ [x29]) by by rewrite <- app_assoc.
      rewrite strip_suffix_eq by (done || by rewrite last_app).
      rewrite strip_trailing by (done || by repeat constructor). done.
Qed.

Lemma extract_filename_conventions_witness :
  extract_filename ($ "My.Show.S01.mkv" ++ $ " yEnc (" ++ $ "01" ++ x2f :: $ "50" ++ [x29]) 512 =
  path_sanitize_component ($ "My.Show.S01.mkv") 512.
Proof.
  refine (proj1 (proj2 (extract_filename_conventions ($ "My.Show.S01.mkv")) ($ "01") ($ "50") _ _ _ _ _ _)).
  - discriminate.
  - split; intros c [= <-]; reflexivity.
  - repeat constructor; discriminate.
  - split; [discriminate|repeat constructor].
  - split; [discriminate|repeat constructor].
  - cbn; lia.
Defined.
