(* ===== verification/JobStore.v ===== *)
(** * Saving and loading jobs ([queue/job.c], second part)

    A job is three files: the header "<id>.json", the segment list
    "<id>.segments" written once, and the bitmap "<id>.progress". Loading them
    gives the job back; a crash during a write leaves the old file or the new
    one. *)

From Stdlib Require Import ZArith Lia List.
From Stdlib Require Import Strings.Byte Strings.String.
From stdpp Require Import base list gmap.
From S2P Require Import Prelude Json Paths Job.

Definition job_sidecar_path (json_path suffix : cstr) (out_size : nat) : cstr :=
  if has_suffix json_path ($ ".json")
  then str_fit out_size (take (length json_path - 5) json_path ++ suffix)
  else str_fit out_size (json_path ++ suffix).

(** ** [job_write_file] *)

(** What the calls of one write answer; [wo_partial] is how much of the buffer
    is in the file when [fwrite] falls short. *)
Record write_outcome := WriteOutcome {
  wo_fopen : bool;
  wo_fwrite : bool;
  wo_partial : nat;
  wo_fflush : bool;
  wo_fsync : bool;
  wo_fclose : bool;
  wo_rename : bool
}.

Definition all_good : write_outcome := WriteOutcome true true 0 true true true true.

Definition tmp_path_of (path : cstr) : cstr := str_fit 700 (path ++ $ ".tmp").

(** [ok] before the [rename]. *)
Definition wrote (w : write_outcome) (buf : list byte) : bool :=
  ((length buf =? 0)%nat || wo_fwrite w) && wo_fflush w && wo_fsync w && wo_fclose w.

(** The files and whether 0 is returned. *)
Definition job_write_file (w : write_outcome) (fs : file_system) (path : cstr) (buf : list byte)
    : file_system * bool :=
  let tmp := tmp_path_of path in
  if negb (wo_fopen w) then (fs, false)
  else
    let content := if (length buf =? 0)%nat || wo_fwrite w then buf else take (wo_partial w) buf in
    let fs := <[tmp := content]> fs in
    if negb (wrote w buf) then (fs, false)
    else if negb (wo_rename w) then (fs, false)
    else (<[path := content]> (delete tmp fs), true).

(** ** The segment list *)

Definition segment_json (s : job_segment) : json :=
  JObj [($ "message_id", JStr (sg_message_id s));
        ($ "bytes", JNum (sg_bytes s));
        ($ "number", JNum (sg_number s))].

Definition file_json (f : job_file) : json :=
  JObj [($ "filename", JStr (jf_filename f));
        ($ "subject", JStr (jf_subject f));
        ($ "bytes", JNum (jf_bytes f));
        ($ "segments", JArr (segment_json <$> jf_segments f))].

Definition segments_tree (j : job) : json := JObj [($ "files", JArr (file_json <$> j_files j))].

(** ** The progress bitmap *)

Definition set_bit (bitmap : list byte) (bit : nat) : list byte :=
  alter (λ b, z2b (Z.lor (b2z b) (Z.shiftl 1 (Z.of_nat (bit mod 8))))) (bit / 8)%nat bitmap.

Definition snapshot_segment (st : list byte * nat) (s : job_segment) : list byte * nat :=
  let '(bitmap, bit) := st in
  (if sg_downloaded s then set_bit bitmap bit else bitmap, S bit).

Definition job_progress_snapshot (j : job) : list byte :=
  let total := foldl (λ t f, (t + length (jf_segments f))%nat) 0%nat (j_files j) in
  fst (foldl (λ st f, foldl snapshot_segment st (jf_segments f))
    (replicate ((total + 7) / 8) x00, 0%nat) (j_files j)).

(** [bitmap && bit / 8 < bitmap_len && (bitmap[bit / 8] & (1u << (bit % 8)))] *)
Definition get_bit (bitmap : option (list byte)) (bit : nat) : bool :=
  match bitmap with
  | Some bm =>
    match bm !! (bit / 8)%nat with
    | Some b => negb (Z.land (b2z b) (Z.shiftl 1 (Z.of_nat (bit mod 8))) =? 0)
    | None => false
    end
  | None => false
  end.

(** ** The header *)

Definition header_tree (j : job) : json :=
  JObj [($ "id", JStr (j_id j));
        ($ "name", JStr (j_name j));
        ($ "state", JStr (job_state_name (j_state j)));
        ($ "priority", JNum (j_priority j));
        ($ "retries_used", JNum (j_retries_used j));
        ($ "last_error", JStr (j_last_error j));
        ($ "final_bytes", JNum (j_final_bytes j));
        ($ "output_dir", JStr (j_output_dir j));
        ($ "add_to_shadowmount", JBool (j_add_to_shadowmount j));
        ($ "auto_install_pkgs", JBool (j_auto_install_pkgs j));
        ($ "nfo_path", JStr (j_nfo_path j));
        ($ "passwords", JArr (JStr <$> j_passwords j));
        ($ "pkg_paths", JArr (JStr <$> j_pkg_paths j))].

(** One element of the "segments" array. *)
Definition load_segment (bitmap : option (list byte)) (st : job_file * nat) (item : json)
    : job_file * nat :=
  let '(jf, bit) := st in
  let downloaded := get_bit bitmap bit in
  match as_string (get_item (Some item) ($ "message_id")) with
  | None => (jf, S bit)
  | Some msgid =>
    let jf := job_file_add_segment jf msgid
      (default 0 (as_number (get_item (Some item) ($ "bytes"))))
      (default 0 (valueint <$> as_number (get_item (Some item) ($ "number")))) in
    (with_segments jf (alter (λ s, JobSegment (sg_message_id s) (sg_bytes s) (sg_number s) downloaded)
        (length (jf_segments jf) - 1)%nat (jf_segments jf)), S bit)
  end.

(** One element of the "files" array: the file is added, then its segments. *)
Definition load_file (bitmap : option (list byte)) (st : job * nat) (item : json) : job * nat :=
  let '(j, bit) := st in
  let j := job_add_file j (default [] (as_string (get_item (Some item) ($ "filename"))))
                          (default [] (as_string (get_item (Some item) ($ "subject")))) in
  let i := (length (j_files j) - 1)%nat in
  match j_files j !! i with
  | None => (j, bit)
  | Some jf =>
    let '(jf, bit) := foldl (load_segment bitmap) (jf, bit)
      (children (get_item (Some item) ($ "segments"))) in
    (set_files (<[i := jf]> (j_files j)) j, bit)
  end.

(** The fields [job_load] copies out of the header. *)
Definition load_header (root : json) : job :=
  let get k := get_item (Some root) k in
  let str n k := match as_string (get k) with Some s => str_fit n s | None => [] end in
  let j := Job (str JOB_ID_LEN ($ "id")) (str 256%nat ($ "name"))
    (match as_string (get ($ "state")) with Some s => job_state_from_name s | None => JOB_QUEUED end)
    false
    (default 0 (valueint <$> as_number (get ($ "priority"))))
    (default 0 (valueint <$> as_number (get ($ "retries_used"))))
    (str 256%nat ($ "last_error"))
    (default 0 (as_number (get ($ "final_bytes"))))
    []
    (str 512%nat ($ "output_dir"))
    (is_true (get ($ "add_to_shadowmount")))
    (is_true (get ($ "auto_install_pkgs")))
    (str 900%nat ($ "nfo_path")) false [] false [] in
  let j := foldl (λ j t, match as_string (Some t) with Some p => job_add_password j p | None => j end)
    j (children (get ($ "passwords"))) in
  foldl (λ j t, match as_string (Some t) with Some p => job_add_pkg_path j p | None => j end)
    j (children (get ($ "pkg_paths"))).

Section store.
Context `{JsonCodec}.

Definition job_segments_to_json_text (j : job) : cstr := print (segments_tree j).
Definition job_header_to_json_text (j : job) : cstr := print (header_tree j).

Definition job_ensure_segments_saved (w : write_outcome) (fs : file_system) (j : job)
    (json_path : cstr) : file_system :=
  let segments_path := job_sidecar_path json_path ($ ".segments") 700 in
  match fs !! segments_path with
  | Some _ => fs
  | None => fst (job_write_file w fs segments_path (job_segments_to_json_text j))
  end.

(** [w1] is the write of the segment list, if there is one, [w2] that of the
    bitmap or the header. *)
Definition job_write_progress (w1 w2 : write_outcome) (fs : file_system) (j : job)
    (json_path : cstr) (bitmap : list byte) : file_system * bool :=
  let fs := job_ensure_segments_saved w1 fs j json_path in
  job_write_file w2 fs (job_sidecar_path json_path ($ ".progress") 700) bitmap.

Definition job_save (w1 w2 : write_outcome) (fs : file_system) (j : job) (path : cstr)
    : file_system * bool :=
  let fs := job_ensure_segments_saved w1 fs j path in
  job_write_file w2 fs path (job_header_to_json_text j).

Definition job_load_segments_and_progress (fs : file_system) (j : job) (json_path : cstr) : job :=
  match fs !! job_sidecar_path json_path ($ ".segments") 700 with
  | None => j
  | Some buf =>
    match parse (c_str buf) with
    | None => j
    | Some root =>
      let bitmap :=
        match fs !! job_sidecar_path json_path ($ ".progress") 700 with
        | Some bm => if (0 <? length bm)%nat then Some bm else None
        | None => None
        end in
      fst (foldl (load_file bitmap) (j, 0%nat) (children (get_item (Some root) ($ "files"))))
    end
  end.

Definition job_load (fs : file_system) (path : cstr) : option job :=
  buf ← fs !! path;
  root ← parse (c_str buf);
  Some (job_load_segments_and_progress fs (load_header root) path).
End store.

(** ** The bitmap round trip *)

Lemma land_single b k : 0 <= k → (Z.land b (Z.shiftl 1 k) =? 0) = negb (Z.testbit b k).
Proof.
  intros Hk. assert (∀ i, Z.testbit (Z.land b (Z.shiftl 1 k)) i = (i =? k) && Z.testbit b k) as H.
  { intros i. rewrite Z.land_spec, Z.shiftl_1_l, Z.pow2_bits_eqb by done.
    rewrite Z.eqb_sym. destruct (Z.eqb_spec i k) as [->|]; [by rewrite andb_true_r|by rewrite andb_false_r]. }
  destruct (Z.testbit b k) eqn:E; simpl.
  - apply Z.eqb_neq. intros H0. specialize (H k). by rewrite H0, Z.bits_0, Z.eqb_refl, ?E in H.
  - apply Z.eqb_eq, Z.bits_inj'. intros i _. by rewrite H, andb_false_r, Z.bits_0.
Qed.

Lemma b2z_lor_bit b k : 0 <= k < 8 → b2z (z2b (Z.lor (b2z b) (Z.shiftl 1 k))) = Z.lor (b2z b) (Z.shiftl 1 k).
Proof.
  intros Hk. pose proof (b2z_range b) as Hb. apply z2b_small.
  assert (0 <= Z.lor (b2z b) (Z.shiftl 1 k)) as H0.
  { apply Z.lor_nonneg. rewrite Z.shiftl_1_l. pose proof (Z.pow_pos_nonneg 2 k ltac:(lia) ltac:(lia)). lia. }
  split; [done|]. change 256 with (2 ^ 8). apply testbit_bound; [done..|]. intros i Hi.
  rewrite Z.lor_spec, (proj1 (testbit_bound 8 (b2z b) ltac:(lia) ltac:(lia)) ltac:(lia)) by lia.
  rewrite Z.shiftl_1_l, Z.pow2_bits_false by lia. done.
Qed.

Lemma get_bit_set_bit bm i k :
  (i / 8 < length bm)%nat →
  get_bit (Some (set_bit bm i)) k = if decide (i = k) then true else get_bit (Some bm) k.
Proof.
  intros Hi. unfold get_bit, set_bit. rewrite list_lookup_alter. case_decide as Hd.
  - destruct (lookup_lt_is_Some_2 bm (i / 8) Hi) as [b Hb]. rewrite <- Hd, Hb. cbn [fmap option_fmap option_map].
    rewrite b2z_lor_bit by (pose proof (Nat.mod_upper_bound i 8); lia).
    rewrite !land_single, !negb_involutive, Z.lor_spec, Z.shiftl_1_l, Z.pow2_bits_eqb by lia.
    pose proof (Nat.div_mod_eq i 8). pose proof (Nat.div_mod_eq k 8).
    case_decide as Hk.
    + subst k. by rewrite Z.eqb_refl, orb_true_r.
    + destruct (Z.eqb_spec (Z.of_nat (i mod 8)) (Z.of_nat (k mod 8))); [lia|by rewrite orb_false_r].
  - rewrite decide_False; [done|]. intros ->. done.
Qed.

Lemma length_set_bit bm i : length (set_bit bm i) = length bm.
Proof. apply length_alter. Qed.

Lemma snapshot_segments segs bm bit :
  ∃ bm', foldl snapshot_segment (bm, bit) segs = (bm', (bit + length segs)%nat) ∧
    length bm' = length bm ∧
    ((bit + length segs <= 8 * length bm)%nat → ∀ k, get_bit (Some bm') k =
      if decide (bit <= k < bit + length segs)%nat
      then default false (sg_downloaded <$> segs !! (k - bit)%nat) || get_bit (Some bm) k
      else get_bit (Some bm) k).
Proof.
  revert bm bit. induction segs as [|s segs IH]; intros bm bit; cbn [foldl].
  - exists bm. rewrite Nat.add_0_r. split_and!; [done..|]. intros _ k. by rewrite decide_False by (simpl; lia).
  - cbn [snapshot_segment]. set (bm1 := if sg_downloaded s then set_bit bm bit else bm).
    assert (length bm1 = length bm) as Hl1.
    { unfold bm1. destruct (sg_downloaded s); [apply length_set_bit|done]. }
    destruct (IH bm1 (S bit)) as (bm' & -> & Hl & Hbits). exists bm'.
    simpl length. split_and!; [f_equal; lia|lia|]. intros Hfit k.
    rewrite Hbits by lia.
    assert (get_bit (Some bm1) k = if decide (bit = k) then sg_downloaded s || get_bit (Some bm) k
      else get_bit (Some bm) k) as ->.
    { unfold bm1. destruct (sg_downloaded s).
      - rewrite get_bit_set_bit by (apply Nat.Div0.div_lt_upper_bound; lia). by repeat case_decide.
      - by case_decide. }
    destruct (decide (bit = k)) as [<-|Hne].
    + rewrite decide_False, decide_True by lia. by rewrite Nat.sub_diag.
    + case_decide.
      * rewrite decide_True by lia. by replace (k - bit)%nat with (S (k - S bit)) by lia.
      * by rewrite decide_False by lia.
Qed.

Lemma snapshot_total (fs : list job_file) t :
  foldl (λ t f, (t + length (jf_segments f))%nat) t fs =
  (t + length (mjoin (jf_segments <$> fs)))%nat.
Proof.
  revert t. induction fs as [|f fs IH]; intros t; cbn [foldl]; [simpl; lia|].
  rewrite IH, fmap_cons, mjoin_cons, length_app. lia.
Qed.

Lemma snapshot_flat (fs : list job_file) st :
  foldl (λ st f, foldl snapshot_segment st (jf_segments f)) st fs =
  foldl snapshot_segment st (mjoin (jf_segments <$> fs)).
Proof.
  revert st. induction fs as [|f fs IH]; intros st; [done|]. cbn [foldl].
  by rewrite IH, fmap_cons, mjoin_cons, foldl_app.
Qed.

Lemma get_bit_zeros n k : get_bit (Some (replicate n x00)) k = false.
Proof.
  unfold get_bit. destruct (replicate n x00 !! (k / 8)%nat) as [b|] eqn:E; [|done].
  apply lookup_replicate in E as [-> _]. done.
Qed.

(** Bit [k] of the snapshot is the flag of segment [k] of the job. *)
Lemma get_bit_snapshot j k :
  get_bit (Some (job_progress_snapshot j)) k =
  default false (sg_downloaded <$> all_segments j !! k).
Proof.
  unfold job_progress_snapshot. rewrite snapshot_flat, snapshot_total. fold (all_segments j).
  set (n := ((0 + length (all_segments j) + 7) / 8)%nat).
  destruct (snapshot_segments (all_segments j) (replicate n x00) 0) as (bm & -> & _ & Hbits).
  cbn [fst]. rewrite Hbits, get_bit_zeros.
  - rewrite Nat.sub_0_r, orb_false_r. case_decide as Hk; [done|].
    rewrite lookup_ge_None_2 by lia. done.
  - rewrite length_replicate. unfold n. pose proof (Nat.div_mod_eq (0 + length (all_segments j) + 7) 8).
    pose proof (Nat.mod_upper_bound (0 + length (all_segments j) + 7) 8). lia.
Qed.

(** ** Loading what was saved *)

Definition str_ok (n : nat) (s : cstr) : Prop := no_nul s ∧ (length s < n)%nat.

Definition int_ok (n : Z) : Prop := - 2 ^ 31 <= n < 2 ^ 31.

Definition segment_wf (s : job_segment) : Prop :=
  str_ok 512 (sg_message_id s) ∧ json_int (sg_bytes s) ∧ int_ok (sg_number s).

Definition sum_bytes (acc : Z) (segs : list job_segment) : Z :=
  foldl (λ a s, s64 (a + sg_bytes s)) acc segs.

Definition file_wf (f : job_file) : Prop :=
  str_ok 512 (jf_filename f) ∧ str_ok 1024 (jf_subject f) ∧ json_int (jf_bytes f) ∧
  jf_bytes f = sum_bytes 0 (jf_segments f) ∧ Forall segment_wf (jf_segments f).

(** The jobs the program makes: every string fits its array, passwords are
    distinct and within the cap, every number is one a double holds. *)
Record job_wf (j : job) : Prop := {
  jw_id : str_ok JOB_ID_LEN (j_id j);
  jw_name : str_ok 256 (j_name j);
  jw_priority : int_ok (j_priority j);
  jw_retries : int_ok (j_retries_used j);
  jw_error : str_ok 256 (j_last_error j);
  jw_final : json_int (j_final_bytes j);
  jw_passwords : Forall (λ p, p ≠ [] ∧ str_ok 256 p) (j_passwords j);
  jw_passwords_nodup : NoDup (j_passwords j);
  jw_passwords_max : (length (j_passwords j) <= JOB_MAX_PASSWORDS)%nat;
  jw_output : str_ok 512 (j_output_dir j);
  jw_nfo : str_ok 900 (j_nfo_path j);
  jw_pkgs : Forall (str_ok 900) (j_pkg_paths j);
  jw_pkgs_max : (length (j_pkg_paths j) <= JOB_MAX_PKGS)%nat;
  jw_files : Forall file_wf (j_files j)
}.

(** The fields that are not persisted start at 0. *)
Definition reloaded (j : job) : job :=
  Job (j_id j) (j_name j) (j_state j) false (j_priority j) (j_retries_used j) (j_last_error j)
    (j_final_bytes j) (j_passwords j) (j_output_dir j) (j_add_to_shadowmount j)
    (j_auto_install_pkgs j) (j_nfo_path j) false (j_pkg_paths j) false (j_files j).

Lemma str_fit_ok n s : str_ok n s → str_fit n s = s.
Proof. intros [_ H]. by apply str_fit_id. Qed.

Lemma load_segment_eq bm jf bit s :
  segment_wf s →
  load_segment bm (jf, bit) (segment_json s) =
  (JobFile (jf_filename jf) (jf_subject jf) (s64 (jf_bytes jf + sg_bytes s))
    (jf_segments jf ++ [JobSegment (sg_message_id s) (sg_bytes s) (sg_number s) (get_bit bm bit)]),
   S bit).
Proof.
  intros (Hid & _ & Hn). unfold load_segment.
  change (get_item (Some (segment_json s)) ($ "message_id")) with (Some (JStr (sg_message_id s))).
  change (get_item (Some (segment_json s)) ($ "bytes")) with (Some (JNum (sg_bytes s))).
  change (get_item (Some (segment_json s)) ($ "number")) with (Some (JNum (sg_number s))).
  cbn [as_string as_number fmap option_fmap option_map default].
  unfold job_file_add_segment. rewrite valueint_id by done. rewrite str_fit_ok by done.
  unfold with_segments. cbn [jf_segments jf_filename jf_subject jf_bytes]. do 2 f_equal.
  rewrite length_app, Nat.add_sub. rewrite alter_app_r_alt by lia. by rewrite Nat.sub_diag.
Qed.

(** A segment with the flag the bitmap gives it. *)
Definition stamped (bm : option (list byte)) (bit : nat) (s : job_segment) : job_segment :=
  JobSegment (sg_message_id s) (sg_bytes s) (sg_number s) (get_bit bm bit).

Lemma load_segments_eq bm segs jf bit :
  Forall segment_wf segs →
  foldl (load_segment bm) (jf, bit) (segment_json <$> segs) =
  (JobFile (jf_filename jf) (jf_subject jf) (sum_bytes (jf_bytes jf) segs)
    (jf_segments jf ++ imap (λ i s, stamped bm (bit + i) s) segs), (bit + length segs)%nat).
Proof.
  intros Hall. revert jf bit. induction Hall as [|s segs Hs Hall IH]; intros jf bit.
  - cbn. rewrite app_nil_r, Nat.add_0_r. by destruct jf.
  - rewrite fmap_cons. cbn [foldl]. rewrite load_segment_eq by done. rewrite IH.
    cbn [jf_filename jf_subject jf_bytes jf_segments length]. rewrite <- app_assoc.
    rewrite imap_cons, Nat.add_0_r. f_equal; [|lia]. f_equal. f_equal. cbn [app]. f_equal.
    apply imap_ext. intros i x _. cbn. by rewrite Nat.add_succ_r.
Qed.

Lemma load_file_eq bm j bit f :
  file_wf f →
  load_file bm (j, bit) (file_json f) =
  (set_files (j_files j ++ [with_segments f (imap (λ i s, stamped bm (bit + i) s) (jf_segments f))]) j,
   (bit + length (jf_segments f))%nat).
Proof.
  intros (Hn & Hs & _ & Hb & Hsegs). unfold load_file.
  change (get_item (Some (file_json f)) ($ "filename")) with (Some (JStr (jf_filename f))).
  change (get_item (Some (file_json f)) ($ "subject")) with (Some (JStr (jf_subject f))).
  change (get_item (Some (file_json f)) ($ "segments"))
    with (Some (JArr (segment_json <$> jf_segments f))).
  cbn [as_string default children]. unfold job_add_file. rewrite !str_fit_ok by done.
  cbn [set_files j_files]. rewrite length_app. cbn [length]. rewrite Nat.add_sub.
  rewrite lookup_app_r, Nat.sub_diag by lia. cbn [lookup list_lookup].
  rewrite load_segments_eq by done. cbn [jf_filename jf_subject jf_bytes jf_segments app].
  rewrite <- Hb. rewrite insert_app_r_alt, Nat.sub_diag by lia. done.
Qed.

Lemma set_files_twice a b j : set_files a (set_files b j) = set_files a j.
Proof. reflexivity. Qed.

Lemma load_files_eq bm fs j bit :
  Forall file_wf fs →
  (∀ i s, mjoin (jf_segments <$> fs) !! i = Some s → get_bit bm (bit + i) = sg_downloaded s) →
  foldl (load_file bm) (j, bit) (file_json <$> fs) =
  (set_files (j_files j ++ fs) j, (bit + length (mjoin (jf_segments <$> fs)))%nat).
Proof.
  intros Hall. revert j bit. induction Hall as [|f fs Hf Hall IH]; intros j bit Hbits.
  - cbn. rewrite app_nil_r, Nat.add_0_r. by destruct j.
  - rewrite !fmap_cons, mjoin_cons in *. cbn [foldl]. rewrite load_file_eq by done. rewrite IH.
    + rewrite set_files_twice. cbn [set_files j_files]. rewrite <- app_assoc, length_app, Nat.add_assoc.
      do 3 f_equal.
      cbn [app]. f_equal. destruct f as [n su b segs]. unfold with_segments. cbn. f_equal.
      apply list_eq. intros i. rewrite list_lookup_imap.
      destruct (segs !! i) as [s|] eqn:E; [|done]. cbn. unfold stamped.
      rewrite (Hbits i s) by (cbn; by apply lookup_app_l_Some). by destruct s.
    + intros i s Hi. rewrite <- Nat.add_assoc. apply Hbits. rewrite lookup_app_r by lia.
      by replace (length (jf_segments f) + i - length (jf_segments f))%nat with i by lia.
Qed.

Lemma load_passwords_eq ps j :
  Forall (λ p, p ≠ [] ∧ str_ok 256 p) ps → NoDup (j_passwords j ++ ps) →
  (length (j_passwords j ++ ps) <= JOB_MAX_PASSWORDS)%nat →
  foldl (λ j t, match as_string (Some t) with Some p => job_add_password j p | None => j end)
    j (JStr <$> ps) = set_passwords (j_passwords j ++ ps) j.
Proof.
  intros Hall. revert j. induction Hall as [|p ps [Hne Hp] Hall IH]; intros j Hnd Hmax.
  - cbn. rewrite app_nil_r. by destruct j.
  - rewrite fmap_cons. cbn [foldl as_string]. unfold job_add_password at 2.
    rewrite decide_False by done. rewrite length_app in Hmax. cbn [length] in Hmax.
    rewrite decide_False.
    2:{ apply NoDup_app in Hnd as (_ & Hnd & _). intros Hin. apply (Hnd p Hin). set_solver. }
    rewrite (proj2 (Nat.leb_gt _ _)) by lia. rewrite str_fit_ok by done.
    rewrite IH.
    + cbn. by rewrite <- app_assoc.
    + cbn. by rewrite <- app_assoc.
    + cbn. rewrite <- app_assoc, length_app. cbn. lia.
Qed.

Lemma load_pkg_paths_eq ps j :
  Forall (str_ok 900) ps → (length (j_pkg_paths j ++ ps) <= JOB_MAX_PKGS)%nat →
  foldl (λ j t, match as_string (Some t) with Some p => job_add_pkg_path j p | None => j end)
    j (JStr <$> ps) = set_pkg_paths (j_pkg_paths j ++ ps) j.
Proof.
  intros Hall. revert j. induction Hall as [|p ps Hp Hall IH]; intros j Hmax.
  - cbn. rewrite app_nil_r. by destruct j.
  - rewrite fmap_cons. cbn [foldl as_string]. unfold job_add_pkg_path at 2.
    rewrite length_app in Hmax. cbn [length] in Hmax.
    rewrite (proj2 (Nat.leb_gt _ _)) by lia. rewrite str_fit_ok by done.
    rewrite IH.
    + cbn. by rewrite <- app_assoc.
    + cbn. rewrite <- app_assoc, length_app. cbn. lia.
Qed.

Lemma load_header_eq j : job_wf j → load_header (header_tree j) = set_files [] (reloaded j).
Proof.
  intros []. unfold load_header. cbv zeta.
  change (children (get_item (Some (header_tree j)) ($ "passwords"))) with (JStr <$> j_passwords j).
  change (children (get_item (Some (header_tree j)) ($ "pkg_paths"))) with (JStr <$> j_pkg_paths j).
  rewrite load_passwords_eq, load_pkg_paths_eq; try done.
  change (get_item (Some (header_tree j)) ($ "id")) with (Some (JStr (j_id j))).
  change (get_item (Some (header_tree j)) ($ "name")) with (Some (JStr (j_name j))).
  change (get_item (Some (header_tree j)) ($ "state"))
    with (Some (JStr (job_state_name (j_state j)))).
  change (get_item (Some (header_tree j)) ($ "priority")) with (Some (JNum (j_priority j))).
  change (get_item (Some (header_tree j)) ($ "retries_used")) with (Some (JNum (j_retries_used j))).
  change (get_item (Some (header_tree j)) ($ "last_error")) with (Some (JStr (j_last_error j))).
  change (get_item (Some (header_tree j)) ($ "final_bytes")) with (Some (JNum (j_final_bytes j))).
  change (get_item (Some (header_tree j)) ($ "output_dir")) with (Some (JStr (j_output_dir j))).
  change (get_item (Some (header_tree j)) ($ "add_to_shadowmount"))
    with (Some (JBool (j_add_to_shadowmount j))).
  change (get_item (Some (header_tree j)) ($ "auto_install_pkgs"))
    with (Some (JBool (j_auto_install_pkgs j))).
  change (get_item (Some (header_tree j)) ($ "nfo_path")) with (Some (JStr (j_nfo_path j))).
  cbn [as_string as_number is_true fmap option_fmap option_map default].
  rewrite !str_fit_ok, !valueint_id, job_state_name_inv by done. by destruct j.
Qed.

Lemma job_state_name_ok s : no_nul (job_state_name s).
Proof. destruct s; repeat constructor; done. Qed.

Ltac json_fields :=
  repeat match goal with
  | |- Forall _ (_ :: _) => apply Forall_cons_2; [split; [repeat constructor; done|]|]
  | |- Forall _ [] => apply Forall_nil_2
  end.

Lemma header_tree_ok j : job_wf j → json_ok (header_tree j).
Proof.
  intros []. unfold header_tree. apply json_ok_obj. json_fields; cbn [snd];
    try apply job_state_name_ok; try (cbn; unfold int_ok, json_int, str_ok in *; intuition lia).
  - apply json_ok_arr, Forall_fmap. eapply Forall_impl; [eassumption|]. by intros p (_ & ? & _).
  - apply json_ok_arr, Forall_fmap. eapply Forall_impl; [eassumption|]. by intros p (? & _).
Qed.

Lemma segment_json_ok s : segment_wf s → json_ok (segment_json s).
Proof.
  intros ([Hid _] & Hb & Hn). apply json_ok_obj. json_fields; cbn [snd]; [done|done|].
  unfold int_ok in Hn. cbn. unfold json_int. lia.
Qed.

Lemma segments_tree_ok j : job_wf j → json_ok (segments_tree j).
Proof.
  intros Hj. apply json_ok_obj. json_fields. cbn [snd]. apply json_ok_arr, Forall_fmap.
  eapply Forall_impl; [apply (jw_files j Hj)|]. intros f ((Hn & _) & (Hs & _) & Hb & _ & Hsegs).
  apply json_ok_obj. json_fields; cbn [snd]; [done..|].
  apply json_ok_arr, Forall_fmap. eapply Forall_impl; [exact Hsegs|]. apply segment_json_ok.
Qed.

(** ** The paths of one job *)

Lemma has_suffix_app base suf : has_suffix (base ++ suf) suf = true.
Proof.
  unfold has_suffix, str_tail. rewrite length_app. apply andb_true_iff. split; [apply Nat.leb_le; lia|].
  apply bool_decide_eq_true. by rewrite Nat.add_sub, drop_app_length.
Qed.

Lemma sidecar_of_json base suf :
  (length base + length suf < 700)%nat →
  job_sidecar_path (base ++ $ ".json") suf 700 = base ++ suf.
Proof.
  intros Hl. unfold job_sidecar_path. rewrite has_suffix_app.
  rewrite length_app. change (length ($ ".json")) with 5%nat. rewrite Nat.add_sub, take_app_length.
  apply str_fit_id. rewrite length_app. lia.
Qed.

Lemma tmp_path_app base suf :
  (length base + length suf + 4 < 700)%nat → tmp_path_of (base ++ suf) = base ++ (suf ++ $ ".tmp").
Proof.
  intros Hl. unfold tmp_path_of. rewrite <- app_assoc. apply str_fit_id.
  rewrite !length_app. cbn. lia.
Qed.

(** A write that succeeds: the file is there, files that are neither it nor its
    temporary are untouched. *)
Lemma job_write_file_good fs base suf buf :
  (length base + length suf + 4 < 700)%nat →
  snd (job_write_file all_good fs (base ++ suf) buf) = true ∧
  fst (job_write_file all_good fs (base ++ suf) buf) !! (base ++ suf) = Some buf ∧
  ∀ suf', suf' ≠ suf → suf' ≠ suf ++ $ ".tmp" →
    fst (job_write_file all_good fs (base ++ suf) buf) !! (base ++ suf') = fs !! (base ++ suf').
Proof.
  intros Hl. unfold job_write_file, wrote, all_good.
  cbn [wo_fopen wo_fwrite wo_fflush wo_fsync wo_fclose wo_rename negb].
  rewrite orb_true_r. cbn [andb negb fst snd]. split_and!; [done|by rewrite lookup_insert_eq|].
  intros suf' H1 H2. rewrite tmp_path_app by done.
  assert (∀ a b : cstr, a ≠ b → base ++ a ≠ base ++ b) as Hne by (intros a b Hab ?%app_inv_head; done).
  rewrite lookup_insert_ne by (apply Hne; congruence).
  rewrite lookup_delete_ne, lookup_insert_ne by (apply Hne; congruence). done.
Qed.

Section roundtrip.
Context `{JsonCodec}.

Lemma c_str_print t : json_ok t → c_str (print t) = print t.
Proof. intros Hok. by apply c_str_no_nul, print_no_nul. Qed.

Lemma ensure_segments_good fs base j :
  (length base + 20 < 700)%nat →
  (fs !! (base ++ $ ".segments") = None ∨
   fs !! (base ++ $ ".segments") = Some (job_segments_to_json_text j)) →
  job_ensure_segments_saved all_good fs j (base ++ $ ".json") !! (base ++ $ ".segments") =
    Some (job_segments_to_json_text j) ∧
  ∀ suf, suf ≠ $ ".segments" → suf ≠ $ ".segments.tmp" →
    job_ensure_segments_saved all_good fs j (base ++ $ ".json") !! (base ++ suf) = fs !! (base ++ suf).
Proof.
  intros Hl Hseg. unfold job_ensure_segments_saved. cbv zeta.
  rewrite sidecar_of_json by (cbn; lia).
  destruct Hseg as [Hs|Hs]; rewrite Hs; [|done].
  destruct (job_write_file_good fs base ($ ".segments") (job_segments_to_json_text j))
    as (_ & H1 & H2); [cbn; lia|].
  split; [exact H1|]. intros suf Hne1 Hne2. by apply H2.
Qed.

Lemma load_saved_files fs j base :
  (length base + 20 < 700)%nat → job_wf j →
  fs !! (base ++ $ ".json") = Some (job_header_to_json_text j) →
  fs !! (base ++ $ ".segments") = Some (job_segments_to_json_text j) →
  fs !! (base ++ $ ".progress") = Some (job_progress_snapshot j) →
  job_load fs (base ++ $ ".json") = Some (reloaded j).
Proof.
  intros Hl Hj H1 H2 H3. unfold job_load. rewrite H1. cbn [mbind option_bind].
  unfold job_header_to_json_text.
  rewrite c_str_print, parse_print by by apply header_tree_ok. cbn [mbind option_bind].
  rewrite load_header_eq by done. unfold job_load_segments_and_progress.
  rewrite !sidecar_of_json by (cbn; lia). rewrite H2, H3. unfold job_segments_to_json_text.
  rewrite c_str_print, parse_print by by apply segments_tree_ok.
  change (children (get_item (Some (segments_tree j)) ($ "files"))) with (file_json <$> j_files j).
  rewrite load_files_eq; [|apply (jw_files j Hj)|].
  - by destruct j.
  - intros i s Hi. fold (all_segments j) in Hi.
    transitivity (get_bit (Some (job_progress_snapshot j)) i).
    + cbn [Nat.add]. by destruct (job_progress_snapshot j).
    + by rewrite get_bit_snapshot, Hi.
Qed.

Lemma job_save_progress_load fs j base :
  (length base + 20 < 700)%nat → job_wf j →
  (fs !! (base ++ $ ".segments") = None ∨
   fs !! (base ++ $ ".segments") = Some (job_segments_to_json_text j)) →
  let path := base ++ $ ".json" in
  let '(fs1, ok1) := job_save all_good all_good fs j path in
  let '(fs2, ok2) := job_write_progress all_good all_good fs1 j path (job_progress_snapshot j) in
  ok1 = true ∧ ok2 = true ∧ job_load fs2 path = Some (reloaded j).
Proof.
  intros Hl Hj Hseg. cbv zeta. unfold job_save, job_write_progress.
  destruct (ensure_segments_good fs base j Hl Hseg) as [E1 E2].
  set (fs0 := job_ensure_segments_saved all_good fs j (base ++ $ ".json")) in *.
  destruct (job_write_file_good fs0 base ($ ".json") (job_header_to_json_text j)) as (W1 & W2 & W3);
    [cbn; lia|].
  destruct (job_write_file all_good fs0 (base ++ $ ".json") _) as [fs1 ok1]. cbn [fst snd] in *.
  assert (fs1 !! (base ++ $ ".segments") = Some (job_segments_to_json_text j)) as S1
    by (by rewrite W3).
  destruct (ensure_segments_good fs1 base j Hl (or_intror S1)) as [F1 F2].
  set (fs1' := job_ensure_segments_saved all_good fs1 j (base ++ $ ".json")) in *.
  rewrite sidecar_of_json by (cbn; lia).
  destruct (job_write_file_good fs1' base ($ ".progress") (job_progress_snapshot j))
    as (P1 & P2 & P3); [cbn; lia|].
  destruct (job_write_file all_good fs1' (base ++ $ ".progress") _) as [fs2 ok2]. cbn [fst snd] in *.
  split_and!; [done|done|]. apply load_saved_files; [done|done| |by rewrite P3|done].
  by rewrite P3, F2.
Qed.
End roundtrip.

(** ** Properties *)

Definition sample_job : job :=
  Job ($ "0a1b2c3d4e5f") ($ "show") JOB_DOWNLOADING true 3 1 ($ "timeout") 0 [$ "pw"] ($ "/data/out")
    true false [] true [] true
    [JobFile ($ "a.rar") ($ "subj") 30
       [JobSegment ($ "<1@x>") 10 1 true; JobSegment ($ "<2@x>") 20 2 false]].

Lemma sample_job_wf : job_wf sample_job.
Proof.
  assert (∀ n s, forallb (λ c, bool_decide (c ≠ x00)) s = true → (length s <? n)%nat = true → str_ok n s)
    as Hs.
  { intros n s H1 H2%Nat.ltb_lt. split; [|done]. apply Forall_forall. intros c Hc.
    rewrite forallb_forall in H1. apply (bool_decide_eq_true (c ≠ x00)), H1.
    by apply list_elem_of_In. }
  constructor; try (apply Hs; reflexivity); try (cbn; unfold int_ok, json_int; lia).
  - repeat constructor; done.
  - apply NoDup_singleton.
  - cbn. unfold JOB_MAX_PASSWORDS. lia.
  - constructor.
  - apply Forall_singleton. split_and!; try (apply Hs; reflexivity).
    + cbn. unfold json_int. lia.
    + vm_compute. reflexivity.
    + cbn [jf_segments]. apply Forall_cons_2; [|apply Forall_singleton];
        (split_and!; [apply Hs; reflexivity|cbn; unfold json_int; lia|cbn; unfold int_ok; lia]).
Qed.

(** C29: saving a job and its progress and loading it again gives the job back,
    flags of every segment included; only the fields that are not persisted
    ([busy], [nfo_checked], [pkg_checked]) start again at 0. The segment list
    may be written by this save or be there from an earlier one. *)
Theorem job_save_load_roundtrip {codec : JsonCodec} (fs : file_system) (j : job) (base : cstr)
    (Hbase : (length base + 20 < 700)%nat) (Hj : job_wf j)
    (Hseg : fs !! (base ++ $ ".segments") = None ∨
            fs !! (base ++ $ ".segments") = Some (job_segments_to_json_text j)) :
  let path := base ++ $ ".json" in
  let '(fs1, ok1) := job_save all_good all_good fs j path in
  let '(fs2, ok2) := job_write_progress all_good all_good fs1 j path (job_progress_snapshot j) in
  ok1 = true ∧ ok2 = true ∧ job_load fs2 path = Some (reloaded j).
Proof. by apply job_save_progress_load. Qed.

Lemma job_save_load_roundtrip_witness :
  let path := $ "/q/0a1b2c3d4e5f" ++ $ ".json" in
  let '(fs1, ok1) := job_save (H := toy_codec) all_good all_good ∅ sample_job path in
  let '(fs2, ok2) := job_write_progress (H := toy_codec) all_good all_good fs1 sample_job path
    (job_progress_snapshot sample_job) in
  ok1 = true ∧ ok2 = true ∧ job_load (H := toy_codec) fs2 path = Some (reloaded sample_job).
Proof.
  apply (job_save_load_roundtrip (codec := toy_codec) ∅ sample_job ($ "/q/0a1b2c3d4e5f")).
  - cbn; lia.
  - exact sample_job_wf.
  - left. apply lookup_empty.
Defined.

(** The progress bitmap is exact: bit [k], as the loader reads it, is the
    flag of the job's [k]-th segment in file order, and every bit beyond reads
    as not downloaded. A sidecar cut short by any amount never marks a segment
    that was not downloaded: the affected segments are only fetched again. *)
Theorem job_progress_bitmap_exact (j : job) (k n : nat) :
  get_bit (Some (job_progress_snapshot j)) k = default false (sg_downloaded <$> all_segments j !! k) ∧
  (get_bit (Some (take n (job_progress_snapshot j))) k = true →
   get_bit (Some (job_progress_snapshot j)) k = true).
Proof.
  split; [apply get_bit_snapshot|]. unfold get_bit.
  destruct (take n (job_progress_snapshot j) !! (k / 8)%nat) eqn:E; [|done].
  apply lookup_take_Some in E as [-> _]. done.
Qed.
