(* ===== verification/JobCrash.v ===== *)
(** * Crash safety of [job_write_file] ([queue/job.c])

    A disk with volatile and durable state: file contents count as durable only
    after [fsync], names only after the directory is synced. The calls of
    [job_write_file] are a sequence of steps on it; a crash may come between
    any two. *)

From Stdlib Require Import ZArith Lia List.
From Stdlib Require Import Strings.Byte Strings.String.
From stdpp Require Import base list gmap.
From S2P Require Import Prelude Json Paths Job JobStore.

(** An inode holds its content and whether it has reached the disk. *)
Record disk := Disk {
  d_inodes : gmap nat (list byte * bool);
  d_dir : gmap cstr nat;
  d_durable : gmap cstr nat;
  d_next : nat
}.

Inductive disk_op :=
  | OpCreate (p : cstr)                    (* fopen(p, "wb") *)
  | OpWrite (p : cstr) (data : list byte)  (* fwrite and fflush *)
  | OpFsync (p : cstr)
  | OpRename (a b : cstr)
  | OpSyncDir.

Definition set_inode (d : disk) (i : nat) (v : list byte * bool) : disk :=
  Disk (<[i := v]> (d_inodes d)) (d_dir d) (d_durable d) (d_next d).

Definition run_op (d : disk) (op : disk_op) : disk :=
  match op with
  | OpCreate p =>
    match d_dir d !! p with
    | Some i => set_inode d i ([], false)
    | None => Disk (<[d_next d := ([], false)]> (d_inodes d)) (<[p := d_next d]> (d_dir d))
                (d_durable d) (S (d_next d))
    end
  | OpWrite p data => match d_dir d !! p with Some i => set_inode d i (data, false) | None => d end
  | OpFsync p =>
    match d_dir d !! p with
    | Some i => match d_inodes d !! i with
                | Some (data, _) => set_inode d i (data, true)
                | None => d
                end
    | None => d
    end
  | OpRename a b =>
    match d_dir d !! a with
    | Some i => Disk (d_inodes d) (<[b := i]> (delete a (d_dir d))) (d_durable d) (d_next d)
    | None => d
    end
  | OpSyncDir => Disk (d_inodes d) (d_dir d) (d_dir d) (d_next d)
  end.

(** The steps of [job_write_file] under the answers [w]; the directory is
    synced when it can be opened ([dirsync]). *)
Definition job_write_steps (w : write_outcome) (dirsync : bool) (path : cstr) (buf : list byte)
    : list disk_op :=
  let tmp := tmp_path_of path in
  if negb (wo_fopen w) then []
  else
    let content := if (length buf =? 0)%nat || wo_fwrite w then buf else take (wo_partial w) buf in
    OpCreate tmp :: OpWrite tmp content ::
    (if ((length buf =? 0)%nat || wo_fwrite w) && wo_fflush w && wo_fsync w then [OpFsync tmp] else []) ++
    (if wrote w buf && wo_rename w
     then OpRename tmp path :: (if dirsync then [OpSyncDir] else []) else []).

(** What a running program reads at [p]. *)
Definition view (d : disk) (p : cstr) : option (list byte) :=
  d_dir d !! p ≫= λ i, fst <$> d_inodes d !! i.

(** What may be found at [p] after a crash: the name as it is now or as it was
    last synced; content that is not synced may be anything. *)
Definition crash_sees (d : disk) (p : cstr) (c : option (list byte)) : Prop :=
  ∃ dir, (dir = d_dir d ∨ dir = d_durable d) ∧
    match dir !! p with
    | None => c = None
    | Some i => match d_inodes d !! i with
                | Some (data, true) => c = Some data
                | _ => is_Some c
                end
    end.

(** Names have inodes of their own, all below the next free one. *)
Record disk_ok (d : disk) : Prop := {
  do_live : ∀ p i, d_dir d !! p = Some i → (i < d_next d)%nat ∧ is_Some (d_inodes d !! i);
  do_inj : ∀ p q i, d_dir d !! p = Some i → d_dir d !! q = Some i → p = q;
  do_durable : ∀ p i, d_durable d !! p = Some i → (i < d_next d)%nat
}.

(** [path] has been saved before, or never: its name and content are durable. *)
Definition settled (d : disk) (path : cstr) (old : option (list byte)) : Prop :=
  d_durable d !! path = d_dir d !! path ∧
  match d_dir d !! path with
  | None => old = None
  | Some i => ∃ data, d_inodes d !! i = Some (data, true) ∧ old = Some data
  end.

(** What holds while the temporary file is written: [path] keeps its durable
    old content, the temporary file is another inode. *)
Record writing (path : cstr) (old : option (list byte)) (i : nat) (d : disk) : Prop := {
  wr_old : settled d path old;
  wr_tmp : d_dir d !! tmp_path_of path = Some i;
  wr_other : d_dir d !! path ≠ Some i
}.

Lemma settled_crash d path old c : settled d path old → crash_sees d path c → c = old.
Proof.
  intros [Hdur Hold] (dir & Hdir & Hc).
  assert (dir !! path = d_dir d !! path) as E by (destruct Hdir as [-> | ->]; done).
  rewrite E in Hc. destruct (d_dir d !! path) as [i|]; [|congruence].
  destruct Hold as (data & Hi & ->). by rewrite Hi in Hc.
Qed.

Lemma settled_set_inode d path old i v :
  settled d path old → d_dir d !! path ≠ Some i → settled (set_inode d i v) path old.
Proof.
  intros [Hdur Hold] Hne. split; [done|]. cbn. destruct (d_dir d !! path) as [k|]; [|done].
  destruct Hold as (data & Hk & ->). exists data. split; [|done].
  rewrite lookup_insert_ne by congruence. done.
Qed.

Lemma writing_set_inode path old i d v : writing path old i d → writing path old i (set_inode d i v).
Proof. intros []. constructor; [by apply settled_set_inode|done|done]. Qed.

Lemma create_writing d path old :
  disk_ok d → settled d path old → tmp_path_of path ≠ path →
  ∃ i, writing path old i (run_op d (OpCreate (tmp_path_of path))) ∧
    d_inodes (run_op d (OpCreate (tmp_path_of path))) !! i = Some ([], false).
Proof.
  intros [Hlive Hinj Hdur] Hs Hne. cbn [run_op].
  destruct (d_dir d !! tmp_path_of path) as [i|] eqn:E.
  - exists i. split; [|cbn; by rewrite lookup_insert_eq].
    assert (d_dir d !! path ≠ Some i) as Hni by (intros Hp; by apply Hne, (Hinj _ _ i)).
    constructor; [by apply settled_set_inode|done|done].
  - exists (d_next d). split; [|cbn; by rewrite lookup_insert_eq].
    assert (d_dir d !! path ≠ Some (d_next d)) as Hni by (intros Hp; apply Hlive in Hp; lia).
    constructor; cbn.
    + destruct Hs as [Hd Hold]. split; cbn; [by rewrite lookup_insert_ne by done|].
      rewrite lookup_insert_ne by done. destruct (d_dir d !! path) as [k|]; [|done].
      destruct Hold as (data & Hk & ->). exists data. split; [|done].
      rewrite lookup_insert_ne by congruence. done.
    + by rewrite lookup_insert_eq.
    + by rewrite lookup_insert_ne.
Qed.

(** The temporary file is complete and synced, and gets the name. *)
Lemma rename_crash path old i d buf c :
  writing path old i d → d_inodes d !! i = Some (buf, true) →
  crash_sees (run_op d (OpRename (tmp_path_of path) path)) path c → c = old ∨ c = Some buf.
Proof.
  intros [[Hdur Hold] Htmp Hne] Hi (dir & Hdir & Hc). cbn [run_op] in *. rewrite Htmp in *. cbn in *.
  destruct Hdir as [-> | ->].
  - rewrite lookup_insert_eq, Hi in Hc. by right.
  - left. rewrite Hdur in Hc. destruct (d_dir d !! path) as [k|]; [|congruence].
    destruct Hold as (data & Hk & ->). by rewrite Hk in Hc.
Qed.

Lemma sync_crash path i d buf c :
  d_dir d !! path = Some i → d_inodes d !! i = Some (buf, true) →
  crash_sees (run_op d OpSyncDir) path c → c = Some buf.
Proof. intros Hp Hi (dir & [-> | ->] & Hc); cbn in *; by rewrite Hp, Hi in Hc. Qed.

Lemma run_write d p data i :
  d_dir d !! p = Some i → run_op d (OpWrite p data) = set_inode d i (data, false).
Proof. intros H. simpl. by rewrite H. Qed.

Lemma run_fsync d p data b i :
  d_dir d !! p = Some i → d_inodes d !! i = Some (data, b) →
  run_op d (OpFsync p) = set_inode d i (data, true).
Proof. intros H1 H2. simpl. by rewrite H1, H2. Qed.

Lemma run_rename d a b i :
  d_dir d !! a = Some i →
  d_dir (run_op d (OpRename a b)) !! b = Some i ∧
  d_inodes (run_op d (OpRename a b)) = d_inodes d.
Proof. intros H. simpl. rewrite H. simpl. by rewrite lookup_insert_eq. Qed.

Section atomic.
Context (w : write_outcome) (dirsync : bool) (path : cstr) (buf : list byte).
Context (d : disk) (old : option (list byte)).
Context (Hd : disk_ok d) (Hs : settled d path old) (Htmp : tmp_path_of path ≠ path).

Abbreviation content := (if (length buf =? 0)%nat || wo_fwrite w then buf else take (wo_partial w) buf).
Abbreviation tmp := (tmp_path_of path).
Abbreviation d1 := (run_op d (OpCreate tmp)).
Abbreviation d2 := (run_op d1 (OpWrite tmp content)).
Abbreviation d3 := (run_op d2 (OpFsync tmp)).
Abbreviation d4 := (run_op d3 (OpRename tmp path)).

Lemma stages : ∃ i,
  writing path old i d1 ∧ writing path old i d2 ∧ writing path old i d3 ∧
  d_inodes d3 !! i = Some (content, true).
Proof using Hd Hs Htmp.
  destruct (create_writing d path old Hd Hs Htmp) as (i & W1 & _). exists i.
  pose proof (run_write d1 tmp content i (wr_tmp _ _ _ _ W1)) as E2.
  assert (writing path old i d2) as W2 by (rewrite E2; by apply writing_set_inode).
  assert (d_inodes d2 !! i = Some (content, false)) as I2
    by (rewrite E2; cbn [set_inode d_inodes]; by rewrite lookup_insert_eq).
  pose proof (run_fsync d2 tmp content false i (wr_tmp _ _ _ _ W2) I2) as E3.
  split_and!; [done|done|rewrite E3; by apply writing_set_inode|].
  rewrite E3. cbn [set_inode d_inodes]. by rewrite lookup_insert_eq.
Qed.

(** The states a crash can hit, one per number of steps done. *)
Lemma steps_prefix k :
  let e := foldl run_op d (take k (job_write_steps w dirsync path buf)) in
  e = d ∨ e = d1 ∨ e = d2 ∨ e = d3 ∨
  (wrote w buf = true ∧ (e = d4 ∨ e = run_op d4 OpSyncDir)).
Proof using.
  clear Hd Hs Htmp. unfold job_write_steps. cbv zeta. generalize run_op as r. intros r.
  destruct (wo_fopen w); cbn [negb]; [|left; by rewrite take_nil].
  destruct (wrote w buf) eqn:Ew.
  - assert (((length buf =? 0)%nat || wo_fwrite w) && wo_fflush w && wo_fsync w = true) as ->.
    { unfold wrote in Ew. by apply andb_true_iff in Ew as [-> _]. }
    destruct (wo_rename w), dirsync; cbn [andb app];
      destruct k as [|[|[|[|[|k]]]]]; cbn [take foldl firstn]; rewrite ?take_nil;
      cbn [foldl]; tauto.
  - cbn [andb]. destruct (((length buf =? 0)%nat || wo_fwrite w) && wo_fflush w && wo_fsync w);
      cbn [app]; destruct k as [|[|[|[|k]]]]; cbn [take foldl firstn]; rewrite ?take_nil;
      cbn [foldl]; tauto.
Qed.

Lemma crash_at_any_step k c :
  crash_sees (foldl run_op d (take k (job_write_steps w dirsync path buf))) path c →
  c = old ∨ (wrote w buf = true ∧ c = Some buf).
Proof using Hd Hs Htmp.
  destruct stages as (i & W1 & W2 & W3 & Hi).
  destruct (steps_prefix k) as [E|[E|[E|[E|[Hw E]]]]].
  - intros Hc. left. rewrite E in Hc. exact (settled_crash d path old c Hs Hc).
  - intros Hc. left. rewrite E in Hc. exact (settled_crash _ path old c (wr_old _ _ _ _ W1) Hc).
  - intros Hc. left. rewrite E in Hc. exact (settled_crash _ path old c (wr_old _ _ _ _ W2) Hc).
  - intros Hc. left. rewrite E in Hc. exact (settled_crash _ path old c (wr_old _ _ _ _ W3) Hc).
  - assert (content = buf) as Hcont.
    { unfold wrote in Hw. by apply andb_true_iff in Hw as [[[-> _]%andb_true_iff _]%andb_true_iff _]. }
    pose proof (eq_trans Hi (f_equal (λ x, Some (x, true)) Hcont)) as Hi2.
    intros Hc. destruct E as [E|E]; rewrite E in Hc.
    + apply (rename_crash path old i _ buf) in Hc; [|done|done]. tauto.
    + right. split; [done|]. revert Hc. apply (sync_crash path i).
      * apply (run_rename _ tmp path i (wr_tmp _ _ _ _ W3)).
      * by rewrite (proj2 (run_rename _ tmp path i (wr_tmp _ _ _ _ W3))).
Qed.

Lemma crash_after_success c :
  wo_fopen w = true → wrote w buf = true → wo_rename w = true → dirsync = true →
  crash_sees (foldl run_op d (job_write_steps w dirsync path buf)) path c → c = Some buf.
Proof using Hd Hs Htmp.
  intros Ho Hw Hr Hds. destruct stages as (i & W1 & W2 & W3 & Hi).
  assert (((length buf =? 0)%nat || wo_fwrite w) && wo_fflush w && wo_fsync w = true) as Hf.
  { unfold wrote in Hw. by apply andb_true_iff in Hw as [-> _]. }
  assert (content = buf) as Hcont.
  { unfold wrote in Hw. by apply andb_true_iff in Hw as [[[-> _]%andb_true_iff _]%andb_true_iff _]. }
  assert (foldl run_op d (job_write_steps w dirsync path buf) = run_op d4 OpSyncDir) as ->.
  { unfold job_write_steps. rewrite Ho, Hf, Hw, Hr, Hds. reflexivity. }
  pose proof (eq_trans Hi (f_equal (λ x, Some (x, true)) Hcont)) as Hi2. apply (sync_crash path i).
  - apply (run_rename _ tmp path i (wr_tmp _ _ _ _ W3)).
  - by rewrite (proj2 (run_rename _ tmp path i (wr_tmp _ _ _ _ W3))).
Qed.
End atomic.

Lemma tmp_path_ne path : (length path < 695)%nat → tmp_path_of path ≠ path.
Proof.
  intros Hl He. unfold tmp_path_of in He. rewrite str_fit_id in He by (rewrite length_app; cbn; lia).
  apply (f_equal length) in He. rewrite length_app in He. cbn in He. lia.
Qed.

(** A settled disk with one file, [/j]. *)
Definition sample_disk : disk :=
  Disk {[ 0%nat := ($ "old", true) ]} {[ $ "/j" := 0%nat ]} {[ $ "/j" := 0%nat ]} 1.


