(* ===== verification/Queue.v ===== *)
(** * The job queue ([queue/queue.c])

    The queue is the ordered array of jobs, mirrored to one set of files per
    job. Every operation is given with the files it writes and its return
    value; [qsort] is the C library's and enters with its contract. *)

From Stdlib Require Import ZArith Lia List.
From Stdlib Require Import Strings.Byte Strings.String.
From stdpp Require Import base list sorting gmap.
From S2P Require Import Prelude Json Paths Job JobStore.

Record queue := Queue { q_dir : cstr; q_jobs : list job }.

Definition job_path (q : queue) (id : cstr) (size : nat) : cstr :=
  str_fit size (q_dir q ++ $ "/" ++ id ++ $ ".json").

(** [strcmp] on byte strings: negative, zero or positive. *)
Fixpoint strcmp (a b : cstr) : Z :=
  match a, b with
  | [], [] => 0
  | [], c :: _ => - b2z c
  | c :: _, [] => b2z c
  | c :: a, d :: b => if decide (c = d) then strcmp a b else b2z c - b2z d
  end.

(** The difference is an [int]. *)
Definition job_priority_cmp (a b : job) : Z :=
  if negb (j_priority a =? j_priority b) then s32 (j_priority a - j_priority b)
  else strcmp (j_id a) (j_id b).

Definition renumber_priorities (jobs : list job) : list job :=
  imap (λ i j, set_priority (s32 (Z.of_nat i)) j) jobs.

(** [memmove(&a[dst], &a[src], n * sizeof *a)] inside the array. *)
Definition memmove {A} (dst src n : nat) (a : list A) : list A :=
  take dst a ++ take n (drop src a) ++ drop (dst + n) a.

(** ** Lookups *)

Fixpoint index_of (jobs : list job) (id : cstr) : option nat :=
  match jobs with
  | [] => None
  | j :: jobs => if decide (j_id j = id) then Some O else S <$> index_of jobs id
  end.

(** [ensure_capacity]: the capacity after it, [None] when memory is short; the
    array it belongs to is the list of jobs. *)
Definition ensure_capacity (count capacity : Z) (memory : bool) : option Z :=
  if count <? capacity then Some capacity
  else if memory then Some (if capacity =? 0 then 16 else u64 (capacity * 2)) else None.

Definition queue_job_count (q : queue) : nat := length (q_jobs q).

Definition queue_find_job (q : queue) (id : cstr) : option nat := index_of (q_jobs q) id.

Definition queue_find_next_queued (q : queue) : option job :=
  snd <$> list_find (λ j, j_state j = JOB_QUEUED) (q_jobs q).

Definition queue_list_jobs (q : queue) (max : nat) : list job := take max (q_jobs q).

(** ** Start-up *)

(** An entry of the temp directory: its name and whether it is a directory. *)
Definition sweep_orphaned_temp_dirs (q : queue) (ents : list (cstr * bool)) : list cstr :=
  fst <$> filter (λ ent : cstr * bool,
    head (fst ent) ≠ Some x2e ∧ snd ent = true ∧ fst ent ∉ (j_id <$> q_jobs q)) ents.

Definition was_active (s : job_state) : bool :=
  bool_decide (s ∈ [JOB_DOWNLOADING; JOB_VERIFYING; JOB_REPAIRING; JOB_EXTRACTING]).

Definition requeue (j : job) : job :=
  if was_active (j_state j) then fst (job_set_state j JOB_QUEUED) else j.

Section operations.
Context `{JsonCodec}.
Context (qsort : list job → list job).

(** One entry of the queue directory, in [readdir] order. *)
Definition open_entry (dir : cstr) (st : file_system * list job) (name : cstr)
    : file_system * list job :=
  let '(fs, jobs) := st in
  let full := str_fit 768 (dir ++ $ "/" ++ name) in
  if has_suffix name ($ ".tmp") then (delete full fs, jobs)
  else if negb (has_suffix name ($ ".json")) then (fs, jobs)
  else match job_load fs full with
       | None => (fs, jobs)
       | Some j => (fs, jobs ++ [requeue j])
       end.

(** [queue_open] on a directory that can be made or exists and be read: the
    files, the queue, and the temp directories it removes. *)
Definition queue_open (fs : file_system) (dir : cstr) (names : list cstr)
    (temp_ents : list (cstr * bool)) : file_system * queue * list cstr :=
  let '(fs, jobs) := foldl (open_entry dir) (fs, []) names in
  let q := Queue (str_fit 512 dir) (qsort jobs) in
  (fs, q, sweep_orphaned_temp_dirs q temp_ents).

(** ** Saving *)

Definition queue_save_job (w1 w2 : write_outcome) (q : queue) (fs : file_system) (j : job)
    : file_system * bool :=
  job_save w1 w2 fs j (job_path q (j_id j) 600).

Definition queue_write_job_progress (w1 w2 : write_outcome) (q : queue) (fs : file_system)
    (j : job) (bitmap : list byte) : file_system * bool :=
  job_write_progress w1 w2 fs j (job_path q (j_id j) 600) bitmap.

(** Return values: 0, -1 and, for the removal, -2. *)
Definition result : Type := queue * file_system * Z.

Definition queue_add_job (w1 w2 : write_outcome) (q : queue) (fs : file_system) (j : job) : result :=
  let j := set_priority
    (match last (q_jobs q) with Some l => s32 (j_priority l + 1) | None => 0 end) j in
  let '(fs, ok) := job_save w1 w2 fs j (job_path q (j_id j) 600) in
  if ok then (Queue (q_dir q) (q_jobs q ++ [j]), fs, 0) else (q, fs, -1).

Definition queue_remove_job (q : queue) (fs : file_system) (id : cstr) : result :=
  match index_of (q_jobs q) id with
  | None => (q, fs, -1)
  | Some i =>
    match q_jobs q !! i with
    | None => (q, fs, -1)
    | Some j =>
      if was_active (j_state j) || j_busy j then (q, fs, -2)
      else
        let path := job_path q id 600 in
        let fs := delete path fs in
        let fs := delete (job_sidecar_path path ($ ".segments") 700) fs in
        let fs := delete (job_sidecar_path path ($ ".progress") 700) fs in
        let n := length (q_jobs q) in
        (Queue (q_dir q) (take (n - 1) (memmove i (S i) (n - i - 1) (q_jobs q))), fs, 0)
    end
  end.

Definition queue_reorder_job (w1 w2 : write_outcome) (q : queue) (fs : file_system) (id : cstr)
    (new_index : nat) : result :=
  let n := length (q_jobs q) in
  match index_of (q_jobs q) id with
  | None => (q, fs, -1)
  | Some old_index =>
    if (n <=? new_index)%nat then (q, fs, -1)
    else
      match q_jobs q !! old_index with
      | None => (q, fs, -1)
      | Some j =>
        let a := memmove old_index (S old_index) (n - old_index - 1) (q_jobs q) in
        let a := memmove (S new_index) new_index (n - new_index - 1) a in
        let a := <[new_index := j]> a in
        let q := Queue (q_dir q) (renumber_priorities a) in
        (q, foldl (λ fs j, fst (queue_save_job w1 w2 q fs j)) fs (q_jobs q), 0)
      end
  end.

(** The shape the four state changes share: find, test the state, update,
    save. The job stays changed in memory when the save fails. *)
Definition change_job (w1 w2 : write_outcome) (allowed : job_state → bool) (update : job → job)
    (q : queue) (fs : file_system) (id : cstr) : result :=
  match queue_find_job q id with
  | None => (q, fs, -1)
  | Some i =>
    match q_jobs q !! i with
    | None => (q, fs, -1)
    | Some j =>
      if allowed (j_state j) then
        let j := update j in
        let q := Queue (q_dir q) (<[i := j]> (q_jobs q)) in
        let '(fs, ok) := queue_save_job w1 w2 q fs j in
        (q, fs, if ok then 0 else -1)
      else (q, fs, -1)
    end
  end.

Definition queue_pause_job (w1 w2 : write_outcome) : queue → file_system → cstr → result :=
  change_job w1 w2 (λ s, bool_decide (s ∈ [JOB_QUEUED; JOB_DOWNLOADING]))
    (λ j, fst (job_set_state j JOB_PAUSED)).

Definition queue_resume_job (w1 w2 : write_outcome) : queue → file_system → cstr → result :=
  change_job w1 w2 (λ s, bool_decide (s = JOB_PAUSED))
    (λ j, fst (job_set_state j JOB_QUEUED)).

Definition queue_cancel_job (w1 w2 : write_outcome) : queue → file_system → cstr → result :=
  change_job w1 w2 (λ s, negb (bool_decide (s ∈ [JOB_COMPLETED; JOB_CANCELLED])))
    (λ j, fst (job_set_state j JOB_CANCELLED)).

Definition queue_retry_job (w1 w2 : write_outcome) : queue → file_system → cstr → result :=
  change_job w1 w2 (λ s, bool_decide (s ∈ [JOB_FAILED; JOB_CANCELLED]))
    (λ j, fst (job_set_state (set_retries_used 0 (set_last_error [] j)) JOB_QUEUED)).
End operations.

(** ** Arrays *)

Lemma memmove_remove {A} (l : list A) i :
  (i < length l)%nat →
  take (length l - 1) (memmove i (S i) (length l - i - 1) l) = take i l ++ drop (S i) l.
Proof.
  intros Hi. unfold memmove.
  assert (take (length l - i - 1) (drop (S i) l) = drop (S i) l) as ->
    by (apply take_ge; rewrite length_drop; lia).
  rewrite (app_assoc (take i l)). rewrite take_app_le, take_ge; [done|..];
    rewrite length_app, length_take, length_drop; lia.
Qed.

Definition move {A} (l : list A) (old new : nat) (x : A) : list A :=
  let rest := take old l ++ drop (S old) l in take new rest ++ x :: drop new rest.

Lemma memmove_move {A} (l : list A) old new x :
  (old < length l)%nat → (new < length l)%nat →
  <[new := x]> (memmove (S new) new (length l - new - 1)
    (memmove old (S old) (length l - old - 1) l)) = move l old new x.
Proof.
  intros Ho Hn. unfold move. cbv zeta. set (rest := take old l ++ drop (S old) l).
  assert (length rest = (length l - 1)%nat) as Hr.
  { unfold rest. rewrite length_app, length_take, length_drop. lia. }
  assert (memmove old (S old) (length l - old - 1) l = rest ++ drop (length l - 1) l) as ->.
  { unfold memmove, rest. rewrite <- app_assoc. f_equal. f_equal.
    - apply take_ge. rewrite length_drop. lia.
    - f_equal. lia. }
  unfold memmove.
  rewrite (drop_app_le rest), (take_app_le (drop new rest)) by (rewrite ?length_drop; lia).
  rewrite (take_ge (drop new rest)) by (rewrite length_drop; lia).
  rewrite (drop_ge (rest ++ _)) by (rewrite length_app, length_drop; lia). rewrite app_nil_r.
  assert (∃ y, take (S new) (rest ++ drop (length l - 1) l) = take new rest ++ [y]) as [y ->].
  { destruct (lookup_lt_is_Some_2 (rest ++ drop (length l - 1) l) new) as [y Hy].
    { rewrite length_app, length_drop. lia. }
    exists y. rewrite (take_S_r _ _ y) by done. by rewrite take_app_le by lia. }
  rewrite <- app_assoc. rewrite insert_app_r_alt by (rewrite length_take; lia).
  rewrite length_take, Nat.min_l by lia. by rewrite Nat.sub_diag.
Qed.

Lemma move_permutation {A} (l : list A) old new x :
  l !! old = Some x → move l old new x ≡ₚ l.
Proof.
  intros Hx. unfold move. cbv zeta. rewrite <- Permutation_middle.
  rewrite take_drop. rewrite Permutation_middle. by rewrite take_drop_middle.
Qed.

Lemma index_of_Some jobs id i :
  index_of jobs id = Some i → ∃ j, jobs !! i = Some j ∧ j_id j = id.
Proof.
  revert i. induction jobs as [|j jobs IH]; intros i; simpl; [done|]. case_decide.
  - intros [= <-]. by exists j.
  - intros (k & Hk & ->)%fmap_Some. by apply IH.
Qed.

Lemma index_of_None jobs id : index_of jobs id = None ↔ id ∉ j_id <$> jobs.
Proof.
  induction jobs as [|j jobs IH]; simpl; [split; [intros _; apply not_elem_of_nil|done]|].
  rewrite not_elem_of_cons. case_decide as Hd; [split; [done|by intros [? _]]|].
  rewrite fmap_None, IH. split; [by split|by intros [_ ?]].
Qed.

(** There is room for one more job, and never more than twice what is used. *)
Lemma ensure_capacity_room count capacity memory c :
  0 <= count <= capacity → capacity <= 2 ^ 60 → capacity <= Z.max 16 (2 * count) →
  ensure_capacity count capacity memory = Some c → count < c <= Z.max 16 (2 * (count + 1)).
Proof.
  intros Hc Hb Hs. unfold ensure_capacity, u64. destruct (Z.ltb_spec count capacity); [intros [= <-]; lia|].
  destruct memory; [|done]. intros [= <-]. destruct (Z.eqb_spec capacity 0); [lia|]. rewrite Z.mod_small; lia.
Qed.

(** ** The invariant *)

(** Positions and priorities agree: priorities grow along the array and are
    [int]s, ids are unique. *)
Record queue_inv (q : queue) : Prop := {
  qi_sorted : StronglySorted Z.lt (j_priority <$> q_jobs q);
  qi_ids : NoDup (j_id <$> q_jobs q);
  qi_range : Forall (λ p, 0 <= p < 2 ^ 31) (j_priority <$> q_jobs q)
}.

Lemma queue_inv_remove dir pre j post :
  queue_inv (Queue dir (pre ++ j :: post)) → queue_inv (Queue dir (pre ++ post)).
Proof.
  intros [H1 H2 H3]. cbn [q_jobs] in *. rewrite fmap_app, fmap_cons in H1. rewrite fmap_app, fmap_cons in H2.
  rewrite fmap_app, fmap_cons in H3.
  constructor; cbn [q_jobs]; rewrite fmap_app.
  - apply StronglySorted_app in H1 as (Hx & Ha & Hb). apply StronglySorted_app. split_and!; [|done|].
    + intros x y Hin Hin'. apply Hx; [done|]. by apply list_elem_of_further.
    + by inversion Hb.
  - apply NoDup_app in H2 as (Ha & Hx & [_ Hb]%NoDup_cons). apply NoDup_app. split_and!; [done| |done].
    intros x Hin Hin'. apply (Hx x Hin). by apply list_elem_of_further.
  - apply Forall_app in H3 as [Ha Hb]. apply Forall_cons in Hb as [_ Hb]. by apply Forall_app.
Qed.

(** Changing a job's other fields keeps the invariant. *)
Lemma queue_inv_update dir jobs i j j' :
  jobs !! i = Some j → j_id j' = j_id j → j_priority j' = j_priority j →
  queue_inv (Queue dir jobs) → queue_inv (Queue dir (<[i := j']> jobs)).
Proof.
  intros Hi Hid Hp [H1 H2 H3].
  assert (∀ {B} (f : job → B), f j' = f j → f <$> <[i := j']> jobs = f <$> jobs) as Hf.
  { intros B f Hfj. rewrite list_fmap_insert. apply list_insert_id.
    by rewrite list_lookup_fmap, Hi, Hfj. }
  constructor; cbn in *; by rewrite Hf.
Qed.

Lemma StronglySorted_snoc (l : list Z) (x : Z) :
  StronglySorted Z.lt l → (∀ y, last l = Some y → y < x) → StronglySorted Z.lt (l ++ [x]).
Proof.
  intros Hl Hx. apply StronglySorted_app_2; [|done|repeat constructor].
  intros a b Ha Hb%list_elem_of_singleton. subst b.
  destruct (last l) as [y|] eqn:E; [|by apply last_None in E as ->; apply elem_of_nil in Ha].
  specialize (Hx y eq_refl). apply last_Some in E as [l' ->].
  apply elem_of_app in Ha as [Ha|Ha%list_elem_of_singleton]; [|by subst a].
  pose proof (StronglySorted_app_1_elem_of _ _ _ a y Hl Ha ltac:(set_solver)). lia.
Qed.

Lemma s32_small z : - 2 ^ 31 <= z < 2 ^ 31 → s32 z = z.
Proof. intros Hz. unfold s32. rewrite Z.mod_small; lia. Qed.

Lemma renumber_ids jobs : j_id <$> renumber_priorities jobs = j_id <$> jobs.
Proof.
  unfold renumber_priorities. apply list_eq. intros i.
  rewrite !list_lookup_fmap, list_lookup_imap. by destruct (jobs !! i).
Qed.

Lemma renumber_priorities_eq jobs :
  (Z.of_nat (length jobs) <= 2 ^ 31) →
  j_priority <$> renumber_priorities jobs = Z.of_nat <$> seq 0 (length jobs).
Proof.
  intros Hn. unfold renumber_priorities. apply list_eq. intros i.
  rewrite !list_lookup_fmap, list_lookup_imap.
  destruct (jobs !! i) as [j|] eqn:E.
  - apply lookup_lt_Some in E as Hi. rewrite lookup_seq_lt by done. cbn. f_equal.
    apply s32_small. lia.
  - apply lookup_ge_None in E. by rewrite lookup_seq_ge by done.
Qed.

Lemma seq_sorted a n : StronglySorted Z.lt (Z.of_nat <$> seq a n).
Proof.
  revert a. induction n as [|n IH]; intros a; cbn; constructor; [apply IH|].
  apply Forall_fmap, Forall_forall. intros x Hx%elem_of_seq. cbn. lia.
Qed.

Lemma queue_inv_renumber dir jobs :
  Z.of_nat (length jobs) <= 2 ^ 31 → NoDup (j_id <$> jobs) →
  queue_inv (Queue dir (renumber_priorities jobs)).
Proof.
  intros Hn Hids. constructor; cbn [q_jobs].
  - rewrite renumber_priorities_eq by done. apply seq_sorted.
  - by rewrite renumber_ids.
  - rewrite renumber_priorities_eq by done. apply Forall_fmap, Forall_forall.
    intros x Hx%elem_of_seq. cbn. lia.
Qed.

(** ** The queue as a state machine *)

Inductive queue_op :=
  | QAdd (j : job)
  | QRemove (id : cstr)
  | QReorder (id : cstr) (new_index : nat)
  | QPause (id : cstr)
  | QResume (id : cstr)
  | QCancel (id : cstr)
  | QRetry (id : cstr).

Section machine.
Context `{JsonCodec}.

Definition run_queue_op (w1 w2 : write_outcome) (op : queue_op) (q : queue) (fs : file_system)
    : result :=
  match op with
  | QAdd j => queue_add_job w1 w2 q fs j
  | QRemove id => queue_remove_job q fs id
  | QReorder id n => queue_reorder_job w1 w2 q fs id n
  | QPause id => queue_pause_job w1 w2 q fs id
  | QResume id => queue_resume_job w1 w2 q fs id
  | QCancel id => queue_cancel_job w1 w2 q fs id
  | QRetry id => queue_retry_job w1 w2 q fs id
  end.

(** The ids of new jobs are fresh, and the [int] priorities do not run out. *)
Definition op_pre (q : queue) (op : queue_op) : Prop :=
  match op with
  | QAdd j => (j_id j ∉ j_id <$> q_jobs q) ∧ ∀ l, last (q_jobs q) = Some l → j_priority l < 2 ^ 31 - 1
  | QReorder _ _ => Z.of_nat (length (q_jobs q)) <= 2 ^ 31
  | _ => True
  end.

(** A call of the interface, or the downloader changing one job in place (it
    writes neither the id nor the priority). *)
Inductive queue_step : queue * file_system → queue * file_system → Prop :=
  | step_op w1 w2 op q fs q' fs' rc :
      op_pre q op → run_queue_op w1 w2 op q fs = (q', fs', rc) →
      queue_step (q, fs) (q', fs')
  | step_worker q fs fs' i j j' :
      q_jobs q !! i = Some j → j_id j' = j_id j → j_priority j' = j_priority j →
      queue_step (q, fs) (Queue (q_dir q) (<[i := j']> (q_jobs q)), fs').

Lemma change_job_inv w1 w2 allowed update q fs id q' fs' rc :
  (∀ j, j_id (update j) = j_id j) → (∀ j, j_priority (update j) = j_priority j) →
  change_job w1 w2 allowed update q fs id = (q', fs', rc) → queue_inv q → queue_inv q'.
Proof.
  intros Hid Hp. unfold change_job, queue_find_job.
  destruct (index_of (q_jobs q) id) as [i|]; [|by intros [= <- <- <-]].
  destruct (q_jobs q !! i) as [j|] eqn:E; [|by intros [= <- <- <-]].
  destruct (allowed (j_state j)); [|by intros [= <- <- <-]].
  destruct (queue_save_job _ _ _ _ _) as [fs1 ok]. intros [= <- <- <-] Hq.
  destruct q as [dir jobs]. by apply (queue_inv_update dir jobs i j).
Qed.

Lemma set_state_keeps s j :
  j_id (fst (job_set_state j s)) = j_id j ∧ j_priority (fst (job_set_state j s)) = j_priority j.
Proof. unfold job_set_state. by case_decide. Qed.

Lemma queue_add_inv w1 w2 q fs j q' fs' rc :
  op_pre q (QAdd j) → queue_add_job w1 w2 q fs j = (q', fs', rc) → queue_inv q → queue_inv q'.
Proof.
  intros [Hfresh Hlast]. unfold queue_add_job. cbv zeta.
  set (p := match last (q_jobs q) with Some l => s32 (j_priority l + 1) | None => 0 end).
  destruct (job_save _ _ _ _ _) as [fs1 [|]]; intros [= <- <- <-]; [|done].
  intros [H1 H2 H3]. destruct q as [dir jobs]. cbn [q_jobs q_dir] in *.
  assert (0 <= p < 2 ^ 31 ∧ ∀ y, last (j_priority <$> jobs) = Some y → y < p) as [Hp Hy].
  { rewrite fmap_last. unfold p. destruct (last jobs) as [l|] eqn:E; [|by split; [lia|]].
    specialize (Hlast l eq_refl). apply last_Some in E as [l' E]. rewrite E, fmap_app in H3.
    apply Forall_app in H3 as [_ H3]. apply Forall_cons in H3 as [H3 _].
    rewrite s32_small by lia. split; [lia|]. intros y [= <-]. lia. }
  constructor; cbn [q_jobs]; rewrite fmap_app.
  - by apply StronglySorted_snoc.
  - apply NoDup_app. split_and!; [done| |apply NoDup_singleton].
    intros x Hx Hx'%list_elem_of_singleton. subst x. done.
  - apply Forall_app. split; [done|]. by apply Forall_singleton.
Qed.

Lemma queue_remove_eq q fs id i j :
  index_of (q_jobs q) id = Some i → q_jobs q !! i = Some j →
  was_active (j_state j) || j_busy j = false →
  q_jobs (fst (fst (queue_remove_job q fs id))) = take i (q_jobs q) ++ drop (S i) (q_jobs q) ∧
  snd (queue_remove_job q fs id) = 0.
Proof.
  intros Hi Hj Hb. unfold queue_remove_job. rewrite Hi, Hj, Hb. cbn [fst snd q_jobs].
  split; [|done]. apply memmove_remove. by eapply lookup_lt_Some.
Qed.

Lemma queue_remove_inv q fs id q' fs' rc :
  queue_remove_job q fs id = (q', fs', rc) → queue_inv q → queue_inv q'.
Proof.
  intros Heq Hq. destruct (index_of (q_jobs q) id) as [i|] eqn:Ei.
  2:{ unfold queue_remove_job in Heq. rewrite Ei in Heq. by injection Heq as <- <- <-. }
  destruct (index_of_Some _ _ _ Ei) as (j & Hj & _).
  destruct (was_active (j_state j) || j_busy j) eqn:Eb.
  { unfold queue_remove_job in Heq. rewrite Ei, Hj, Eb in Heq. by injection Heq as <- <- <-. }
  pose proof (proj1 (queue_remove_eq q fs id i j Ei Hj Eb)) as Hjobs. rewrite Heq in Hjobs.
  assert (q_dir q' = q_dir q) as Hdir.
  { unfold queue_remove_job in Heq. rewrite Ei, Hj, Eb in Heq. by injection Heq as <- <- <-. }
  destruct q' as [dir jobs']. cbn in Hjobs, Hdir. subst dir jobs'.
  apply (queue_inv_remove _ _ j). rewrite take_drop_middle by done. by destruct q.
Qed.

Lemma queue_reorder_eq w1 w2 q fs id new i j :
  index_of (q_jobs q) id = Some i → q_jobs q !! i = Some j → (new < length (q_jobs q))%nat →
  fst (fst (queue_reorder_job w1 w2 q fs id new)) =
    Queue (q_dir q) (renumber_priorities (move (q_jobs q) i new j)) ∧
  snd (queue_reorder_job w1 w2 q fs id new) = 0.
Proof.
  intros Hi Hj Hn. unfold queue_reorder_job. rewrite Hi, Hj.
  rewrite (proj2 (Nat.leb_gt _ _)) by done. cbn [fst snd].
  rewrite memmove_move; [done| |done]. by eapply lookup_lt_Some.
Qed.

Lemma queue_reorder_inv w1 w2 q fs id new q' fs' rc :
  Z.of_nat (length (q_jobs q)) <= 2 ^ 31 →
  queue_reorder_job w1 w2 q fs id new = (q', fs', rc) → queue_inv q → queue_inv q'.
Proof.
  intros Hlen Heq Hq. destruct (index_of (q_jobs q) id) as [i|] eqn:Ei.
  2:{ unfold queue_reorder_job in Heq. rewrite Ei in Heq. by injection Heq as <- <- <-. }
  destruct (index_of_Some _ _ _ Ei) as (j & Hj & _).
  destruct (Nat.lt_ge_cases new (length (q_jobs q))) as [Hn|Hn].
  2:{ unfold queue_reorder_job in Heq. rewrite Ei in Heq.
      rewrite (proj2 (Nat.leb_le _ _)) in Heq by done. by injection Heq as <- <- <-. }
  pose proof (proj1 (queue_reorder_eq w1 w2 q fs id new i j Ei Hj Hn)) as He.
  rewrite Heq in He. cbn in He. subst q'.
  pose proof (move_permutation (q_jobs q) i new j Hj) as Hperm.
  apply queue_inv_renumber; [by rewrite Hperm|]. rewrite Hperm. apply Hq.
Qed.

Lemma queue_step_inv st st' : queue_step st st' → queue_inv (fst st) → queue_inv (fst st').
Proof.
  intros [w1 w2 op q fs q' fs' rc Hpre Hrun|q fs fs' i j j' Hi Hid Hp] Hq; cbn [fst] in *.
  - destruct op as [j|id|id n|id|id|id|id]; cbn [run_queue_op] in Hrun.
    + by eapply queue_add_inv.
    + by eapply queue_remove_inv.
    + by eapply queue_reorder_inv.
    + eapply change_job_inv in Hrun; [done| | |done]; intros; apply set_state_keeps.
    + eapply change_job_inv in Hrun; [done| | |done]; intros; apply set_state_keeps.
    + eapply change_job_inv in Hrun; [done| | |done]; intros; apply set_state_keeps.
    + eapply change_job_inv in Hrun; [done| | |done]; intros j; cbv beta;
        match goal with |- context [job_set_state ?x ?s] => destruct (set_state_keeps s x) as [E1 E2] end;
        by rewrite ?E1, ?E2.
  - destruct q as [dir jobs]. by apply (queue_inv_update dir jobs i j).
Qed.
End machine.

(** ** Restart *)

Section restart.
Context `{JsonCodec}.

Lemma has_suffix_inv s suf : has_suffix s suf = true → ∃ pre, s = pre ++ suf.
Proof.
  unfold has_suffix, str_tail. intros [_ Hd%bool_decide_eq_true]%andb_true_iff.
  exists (take (length s - length suf) s). by rewrite <- Hd at 2; rewrite take_drop.
Qed.

(** Removing "*.tmp" files does not touch what [job_load] reads. *)
Definition agree (fs fs' : file_system) : Prop :=
  ∀ p, last p ≠ Some x70 → fs' !! p = fs !! p.

Lemma last_app_some (a b : cstr) c : last b = Some c → last (a ++ b) = Some c.
Proof. rewrite last_app. by intros ->. Qed.

Lemma job_load_agree fs fs' base :
  (length base + 20 < 700)%nat → agree fs fs' →
  job_load fs' (base ++ $ ".json") = job_load fs (base ++ $ ".json").
Proof.
  intros Hl Ha. unfold job_load, job_load_segments_and_progress.
  rewrite !sidecar_of_json by (cbn; lia).
  rewrite !Ha by (erewrite last_app_some; [|reflexivity]; discriminate). done.
Qed.

Lemma has_suffix_last s suf c :
  has_suffix s suf = true → last suf = Some c → last s = Some c.
Proof. intros [pre ->]%has_suffix_inv. apply last_app_some. Qed.

Lemma agree_delete_tmp fs fs' dir name :
  (length dir + length name + 2 < 768)%nat → has_suffix name ($ ".tmp") = true →
  agree fs fs' → agree fs (delete (str_fit 768 (dir ++ $ "/" ++ name)) fs').
Proof.
  intros Hl Ht Ha p Hp. rewrite lookup_delete_ne; [by apply Ha|].
  rewrite str_fit_id by (rewrite !length_app; cbn; lia). intros <-. apply Hp.
  rewrite app_assoc. apply last_app_some. by apply (has_suffix_last name ($ ".tmp")).
Qed.

(** What the loop reads from one name. *)
Definition load_entry (fs : file_system) (dir name : cstr) : option job :=
  if has_suffix name ($ ".json") then job_load fs (dir ++ $ "/" ++ name) else None.

Lemma open_entries fs dir names fs' jobs :
  Forall (λ name, (length dir + length name + 30 < 700)%nat) names → agree fs fs' →
  snd (foldl (open_entry dir) (fs', jobs) names) =
    jobs ++ (requeue <$> omap (load_entry fs dir) names).
Proof.
  intros Hall. revert fs' jobs. induction Hall as [|name names Hl Hall IH]; intros fs' jobs Ha;
    [cbn; by rewrite app_nil_r|].
  cbn [foldl]. unfold open_entry at 2. cbv zeta.
  destruct (has_suffix name ($ ".tmp")) eqn:Et.
  - rewrite IH by (apply agree_delete_tmp; [lia|done|done]). cbn [omap list_omap].
    assert (load_entry fs dir name = None) as ->; [|done]. unfold load_entry.
    destruct (has_suffix name ($ ".json")) eqn:Ej; [|done].
    pose proof (has_suffix_last _ _ x70 Et eq_refl) as H1.
    pose proof (has_suffix_last _ _ x6e Ej eq_refl) as H2. congruence.
  - cbn [omap list_omap]. unfold load_entry at 1. destruct (has_suffix name ($ ".json")) eqn:Ej; cbn [negb].
    + rewrite str_fit_id by (rewrite !length_app; cbn; lia).
      apply has_suffix_inv in Ej as [base ->].
      rewrite length_app in Hl. cbn in Hl.
      rewrite !(app_assoc ($ "/")), !(app_assoc dir).
      rewrite (job_load_agree fs fs') by (rewrite ?length_app; cbn; lia || done).
      destruct (job_load fs _) as [j|]; rewrite IH by done; [|done].
      rewrite fmap_cons, <- app_assoc. done.
    + by rewrite IH.
Qed.

Lemma requeue_keeps j : j_id (requeue j) = j_id j ∧ j_priority (requeue j) = j_priority j.
Proof. unfold requeue. destruct (was_active _); [apply set_state_keeps|done]. Qed.

Lemma cmp_le_priority a b :
  0 <= j_priority a < 2 ^ 31 → 0 <= j_priority b < 2 ^ 31 →
  job_priority_cmp a b <= 0 → j_priority a <= j_priority b.
Proof.
  intros Ha Hb. unfold job_priority_cmp. destruct (Z.eqb_spec (j_priority a) (j_priority b)); cbn [negb].
  - lia.
  - rewrite s32_small by lia. lia.
Qed.

Definition qsort_contract (qsort : list job → list job) : Prop :=
  ∀ l, qsort l ≡ₚ l ∧ Sorted (λ a b, job_priority_cmp a b <= 0) (qsort l).

Lemma sorted_priorities_inj l a b :
  StronglySorted Z.lt (j_priority <$> l) → a ∈ l → b ∈ l → j_priority a = j_priority b → a = b.
Proof.
  induction l as [|x l IH]; intros Hs Ha Hb Hab; [by apply elem_of_nil in Ha|].
  rewrite fmap_cons in Hs. inversion Hs as [|? ? Hs' Hx]; subst. rewrite Forall_forall in Hx.
  assert (∀ c, c ∈ l → j_priority x < j_priority c) as Hlt.
  { intros c Hc. apply Hx. by apply list_elem_of_fmap_2. }
  apply elem_of_cons in Ha as [->|Ha], Hb as [->|Hb]; [done|..].
  - specialize (Hlt b Hb). lia.
  - specialize (Hlt a Ha). lia.
  - by apply IH.
Qed.

(** [qsort] of any arrangement of a queue's jobs is the queue's order. *)
Lemma qsort_restores qsort l jobs :
  qsort_contract qsort → queue_inv (Queue [] jobs) → l ≡ₚ jobs → qsort l = jobs.
Proof.
  intros Hq [Hs _ Hr] Hp. destruct (Hq l) as [Hp' Hs']. cbn [q_jobs] in *.
  assert (qsort l ≡ₚ jobs) as Hperm by by rewrite Hp'.
  set (R := λ a b, j_priority a <= j_priority b).
  assert (Transitive R) as Htr by (intros x y z; unfold R; lia).
  apply (StronglySorted_unique_strong R).
  - intros x1 x2 H1 H2 Ha Hb. apply (sorted_priorities_inj jobs); [done|by rewrite <- Hperm|done|].
    unfold R in *. lia.
  - apply Sorted_StronglySorted; [exact Htr|].
    eapply (Sorted_weaken _ R (λ j, 0 <= j_priority j < 2 ^ 31)); [|by rewrite Hperm; apply Forall_fmap in Hr|exact Hs'].
    intros a b. apply cmp_le_priority.
  - clear -Hs. induction jobs as [|x jobs IH]; [constructor|]. rewrite fmap_cons in Hs.
    inversion Hs as [|? ? Hs' Hx]; subst. constructor; [by apply IH|].
    eapply Forall_impl; [exact (proj1 (Forall_fmap j_priority (Z.lt (j_priority x)) jobs) Hx)|]. unfold R. cbn. lia.
  - done.
Qed.
End restart.

Lemma strcmp_opp a b : strcmp b a = - strcmp a b.
Proof.
  revert b. induction a as [|c a IH]; intros [|d b]; simpl; try lia.
  destruct (decide (c = d)) as [->|Hne]; [rewrite decide_True by done; apply IH|].
  rewrite decide_False by congruence. lia.
Qed.

#[local] Instance cmp_total : Total (λ a b, job_priority_cmp a b <= 0).
Proof.
  intros a b. unfold job_priority_cmp. rewrite (Z.eqb_sym (j_priority b)).
  destruct (Z.eqb_spec (j_priority a) (j_priority b)); cbn [negb].
  - rewrite (strcmp_opp (j_id a) (j_id b)). lia.
  - unfold s32. Z.div_mod_to_equations. lia.
Qed.

#[local] Instance cmp_dec : RelDecision (λ a b, job_priority_cmp a b <= 0).
Proof. intros a b. apply _. Defined.

(** A sort with the contract. *)
Definition merge_sort_jobs (l : list job) : list job :=
  merge_sort (λ a b, job_priority_cmp a b <= 0) l.

Lemma merge_sort_jobs_contract : qsort_contract merge_sort_jobs.
Proof.
  intros l. split; [apply merge_sort_Permutation|].
  unfold merge_sort_jobs. apply (Sorted_merge_sort (λ a b, job_priority_cmp a b <= 0)).
Qed.

(** ** Properties *)

(** Every queue the program reaches, by any sequence of calls of the queue
    interface (with any write failures) interleaved with the downloader's
    changes to single jobs, has its jobs in strictly increasing [int] priority
    with no id twice: position in the array, priority and id always agree. *)
Theorem queue_reachable_inv {codec : JsonCodec} (dir : cstr) (fs0 fs : file_system) (q : queue)
    (Hreach : rtc queue_step (Queue dir [], fs0) (q, fs)) :
  queue_inv q.
Proof.
  assert (∀ st st', rtc queue_step st st' → queue_inv (fst st) → queue_inv (fst st')) as Hind.
  { induction 1 as [|st st1 st2 Hstep _ IH]; [done|]. intros Hq. apply IH. by eapply queue_step_inv. }
  apply (Hind _ _ Hreach). constructor; constructor.
Qed.

Lemma queue_reachable_inv_witness :
  queue_inv (fst (fst (queue_add_job (H := toy_codec) all_good all_good (Queue ($ "/q") []) ∅ sample_job))).
Proof.
  apply (queue_reachable_inv (codec := toy_codec) ($ "/q") ∅
    (snd (fst (queue_add_job (H := toy_codec) all_good all_good (Queue ($ "/q") []) ∅ sample_job)))).
  apply rtc_once. apply (step_op (H := toy_codec) all_good all_good (QAdd sample_job) _ _ _ _
    (snd (queue_add_job (H := toy_codec) all_good all_good (Queue ($ "/q") []) ∅ sample_job))).
  - split; [apply not_elem_of_nil|done].
  - cbn [run_queue_op]. by destruct (queue_add_job (H := toy_codec) all_good all_good (Queue ($ "/q") []) ∅ sample_job)
      as [[q' fs'] rc].
Defined.



(** The four commands and the state each leads to from a state it accepts. *)
Inductive command := CPause | CResume | CCancel | CRetry.

Definition command_target (c : command) (s : job_state) : option job_state :=
  match c, s with
  | CPause, (JOB_QUEUED | JOB_DOWNLOADING) => Some JOB_PAUSED
  | CResume, JOB_PAUSED => Some JOB_QUEUED
  | CCancel, (JOB_COMPLETED | JOB_CANCELLED) => None
  | CCancel, _ => Some JOB_CANCELLED
  | CRetry, (JOB_FAILED | JOB_CANCELLED) => Some JOB_QUEUED
  | _, _ => None
  end.

Definition run_command `{JsonCodec} (w1 w2 : write_outcome) (c : command)
    : queue → file_system → cstr → result :=
  match c with
  | CPause => queue_pause_job w1 w2
  | CResume => queue_resume_job w1 w2
  | CCancel => queue_cancel_job w1 w2
  | CRetry => queue_retry_job w1 w2
  end.

(** The job after an accepted command: a new state; a retry also forgets the
    error and the retries. *)
Definition commanded (c : command) (s : job_state) (j : job) : job :=
  set_state s (match c with CRetry => set_retries_used 0 (set_last_error [] j) | _ => j end).

Lemma command_change `{JsonCodec} w1 w2 c q fs id i j :
  index_of (q_jobs q) id = Some i → q_jobs q !! i = Some j →
  run_command w1 w2 c q fs id =
  match command_target c (j_state j) with
  | None => (q, fs, -1)
  | Some s =>
    let q' := Queue (q_dir q) (<[i := commanded c s j]> (q_jobs q)) in
    let '(fs', ok) := queue_save_job w1 w2 q' fs (commanded c s j) in
    (q', fs', if ok then 0 else -1)
  end.
Proof.
  intros Hi Hj.
  assert (∀ a u, change_job w1 w2 a u q fs id =
    if a (j_state j) then
      let q' := Queue (q_dir q) (<[i := u j]> (q_jobs q)) in
      let '(fs', ok) := queue_save_job w1 w2 q' fs (u j) in (q', fs', if ok then 0 else -1)
    else (q, fs, -1)) as Hch.
  { intros a u. unfold change_job, queue_find_job. by rewrite Hi, Hj. }
  destruct c; cbn [run_command];
    unfold queue_pause_job, queue_resume_job, queue_cancel_job, queue_retry_job; rewrite Hch;
    unfold commanded, job_set_state;
    destruct (j_state j) eqn:Es; cbn [command_target set_retries_used set_last_error j_state];
    rewrite ?Es; reflexivity.
Qed.

Lemma save_header_on_disk `{JsonCodec} fs j path :
  snd (job_save all_good all_good fs j path) = true ∧
  fst (job_save all_good all_good fs j path) !! path = Some (job_header_to_json_text j).
Proof.
  unfold job_save, job_write_file, wrote, all_good.
  cbn [wo_fopen wo_fwrite wo_fflush wo_fsync wo_fclose wo_rename negb].
  rewrite orb_true_r. cbn [andb negb fst snd]. split; [done|]. by rewrite lookup_insert_eq.
Qed.

(** Pause, resume, cancel and retry do exactly what the table
    [command_target] says, on every branch: an unknown id or a state the
    command does not apply to gives -1 and changes nothing; otherwise the job,
    and no other, moves to the target state (a retry clearing its error), the
    call returns 0 and the job's file holds the new header. *)
Theorem queue_commands_follow_table {codec : JsonCodec} (c : command) (q : queue)
    (fs : file_system) (id : cstr) :
  match index_of (q_jobs q) id with
  | None => run_command all_good all_good c q fs id = (q, fs, -1)
  | Some i => ∃ j, q_jobs q !! i = Some j ∧ j_id j = id ∧
    match command_target c (j_state j) with
    | None => run_command all_good all_good c q fs id = (q, fs, -1)
    | Some s => ∃ fs',
        run_command all_good all_good c q fs id =
          (Queue (q_dir q) (<[i := commanded c s j]> (q_jobs q)), fs', 0) ∧
        j_state (commanded c s j) = s ∧
        fs' !! job_path q id 600 = Some (job_header_to_json_text (commanded c s j))
    end
  end.
Proof.
  destruct (index_of (q_jobs q) id) as [i|] eqn:Ei.
  - destruct (index_of_Some _ _ _ Ei) as (j & Hj & Hid). exists j. split_and!; [done|done|].
    rewrite (command_change _ _ c q fs id i j Ei Hj).
    destruct (command_target c (j_state j)) as [s|]; [|done]. cbv zeta.
    assert (j_id (commanded c s j) = id) as Hid' by (by destruct c).
    unfold queue_save_job. rewrite Hid'.
    destruct (save_header_on_disk fs (commanded c s j)
      (job_path (Queue (q_dir q) (<[i := commanded c s j]> (q_jobs q))) id 600)) as [H1 H2].
    destruct (job_save _ _ _ _ _) as [fs' ok]. cbn [fst snd] in *. subst ok.
    exists fs'. split_and!; [done|by destruct c|done].
  - destruct c; cbn [run_command];
      unfold queue_pause_job, queue_resume_job, queue_cancel_job, queue_retry_job, change_job,
        queue_find_job; by rewrite Ei.
Qed.

(** [queue_remove_job] refuses (-2, nothing changes) exactly when the job
    is being downloaded, verified, repaired or extracted or is marked busy;
    otherwise it takes out that job alone, the others keeping their order, and
    deletes its three files and no other. *)
Theorem queue_remove_job_spec (q : queue) (fs : file_system) (id : cstr) :
  match index_of (q_jobs q) id with
  | None => queue_remove_job q fs id = (q, fs, -1)
  | Some i => ∃ pre j post, q_jobs q = pre ++ j :: post ∧ length pre = i ∧ j_id j = id ∧
    if was_active (j_state j) || j_busy j then queue_remove_job q fs id = (q, fs, -2)
    else ∃ fs', queue_remove_job q fs id = (Queue (q_dir q) (pre ++ post), fs', 0) ∧
      let path := job_path q id 600 in
      let gone := [path; job_sidecar_path path ($ ".segments") 700;
                   job_sidecar_path path ($ ".progress") 700] in
      (∀ p, p ∈ gone → fs' !! p = None) ∧ (∀ p, p ∉ gone → fs' !! p = fs !! p)
  end.
Proof.
  destruct (index_of (q_jobs q) id) as [i|] eqn:Ei.
  2:{ unfold queue_remove_job. by rewrite Ei. }
  destruct (index_of_Some _ _ _ Ei) as (j & Hj & Hid).
  pose proof (lookup_lt_Some _ _ _ Hj) as Hlt.
  exists (take i (q_jobs q)), j, (drop (S i) (q_jobs q)).
  rewrite take_drop_middle, length_take, Nat.min_l by (done || lia). split_and!; [done..|].
  destruct (was_active (j_state j) || j_busy j) eqn:Eb.
  { unfold queue_remove_job. by rewrite Ei, Hj, Eb. }
  unfold queue_remove_job. rewrite Ei, Hj, Eb. cbv zeta. rewrite memmove_remove by done.
  eexists. split; [reflexivity|]. split.
  - intros p Hp. rewrite !lookup_delete_None.
    apply elem_of_cons in Hp as [->|[->|[->|[]%elem_of_nil]%elem_of_cons]%elem_of_cons]; tauto.
  - intros p Hp. rewrite !not_elem_of_cons in Hp. destruct Hp as (H1 & H2 & H3 & _).
    by rewrite !lookup_delete_ne by congruence.
Qed.

(** [queue_reorder_job] with a known id and an index in range puts the job
    at that index, leaves the other jobs in their relative order, and renumbers
    the priorities 0, 1, 2, ... from the front; otherwise it answers -1 and
    changes nothing. *)
Theorem queue_reorder_job_spec {codec : JsonCodec} (q : queue) (fs : file_system) (id : cstr)
    (new_index : nat) (Hlen : Z.of_nat (length (q_jobs q)) <= 2 ^ 31) :
  match index_of (q_jobs q) id with
  | Some i =>
    if (new_index <? length (q_jobs q))%nat then
      ∃ q' fs', queue_reorder_job all_good all_good q fs id new_index = (q', fs', 0) ∧
        (j_id <$> q_jobs q') !! new_index = Some id ∧
        delete new_index (j_id <$> q_jobs q') = delete i (j_id <$> q_jobs q) ∧
        j_priority <$> q_jobs q' = Z.of_nat <$> seq 0 (length (q_jobs q))
    else queue_reorder_job all_good all_good q fs id new_index = (q, fs, -1)
  | None => queue_reorder_job all_good all_good q fs id new_index = (q, fs, -1)
  end.
Proof.
  destruct (index_of (q_jobs q) id) as [i|] eqn:Ei.
  2:{ unfold queue_reorder_job. by rewrite Ei. }
  destruct (index_of_Some _ _ _ Ei) as (j & Hj & Hid).
  pose proof (lookup_lt_Some _ _ _ Hj) as Hlt.
  destruct (Nat.ltb_spec new_index (length (q_jobs q))) as [Hn|Hn].
  2:{ unfold queue_reorder_job. rewrite Ei. by rewrite (proj2 (Nat.leb_le _ _)) by done. }
  destruct (queue_reorder_eq all_good all_good q fs id new_index i j Ei Hj Hn) as [H1 H2].
  destruct (queue_reorder_job all_good all_good q fs id new_index) as [[q' fs'] rc].
  cbn [fst snd] in *. subst q' rc. eexists _, fs'. split; [reflexivity|]. cbn [q_jobs].
  rewrite renumber_ids.
  assert (length (move (q_jobs q) i new_index j) = length (q_jobs q)) as Hml
    by (apply Permutation_length; by apply move_permutation).
  rewrite renumber_priorities_eq, Hml by by rewrite Hml.
  set (rest := take i (q_jobs q) ++ drop (S i) (q_jobs q)).
  assert (length (take new_index rest) = new_index) as Hl.
  { unfold rest. rewrite length_take, length_app, length_take, length_drop. lia. }
  unfold move. fold rest. rewrite fmap_app, fmap_cons. split_and!; [| |done].
  - rewrite lookup_app_r by (rewrite length_fmap; lia). rewrite length_fmap, Hl, Nat.sub_diag.
    simpl. by rewrite Hid.
  - rewrite !delete_take_drop. rewrite take_app_le by (rewrite length_fmap; lia).
    rewrite take_ge by (rewrite length_fmap; lia).
    replace (S new_index) with (length (j_id <$> take new_index rest) + 1)%nat
      by (rewrite length_fmap; lia).
    rewrite <- drop_drop, drop_app_length. cbn [drop skipn]. rewrite drop_0.
    rewrite <- fmap_app, take_drop. unfold rest. by rewrite fmap_app, fmap_take, fmap_drop.
Qed.

Lemma queue_reorder_job_spec_witness :
  let q := Queue ($ "/q") [set_priority 0 sample_job] in
  ∃ q' fs', queue_reorder_job (H := toy_codec) all_good all_good q ∅ (j_id sample_job) 0 = (q', fs', 0) ∧
    (j_id <$> q_jobs q') !! 0%nat = Some (j_id sample_job) ∧
    delete 0%nat (j_id <$> q_jobs q') = [] ∧ j_priority <$> q_jobs q' = [0].
Proof.
  intros q. exact (queue_reorder_job_spec (codec := toy_codec) q ∅ (j_id sample_job) 0 ltac:(cbn; lia)).
Defined.
