(* ===== verification/Gf16.v ===== *)
(** * Arithmetic of GF(2^16) ([par2/rs.c], first part)

    [gf16_init] fills the log and antilog tables; [gf16_mul], [gf16_div] and
    [gf16_pow] look them up. The specification is polynomial arithmetic over
    GF(2) modulo x^16 + x^12 + x^3 + x + 1 ([GF_GENERATOR]); the interface
    [GaloisField] is what the Reed-Solomon code relies on. *)

From Stdlib Require Import ZArith Lia List.
From stdpp Require Import base list gmap.
From S2P Require Import Prelude.

Definition GF_BITS : Z := 16.
Definition GF_COUNT : Z := 65536.
Definition GF_LIMIT : Z := 65535.
Definition GF_GENERATOR : Z := 0x1100B.

(** The static arrays [g_log], [g_antilog] and the flag [g_initialized]; an
    entry never written is 0. *)
Record gf16_tables := Gf16Tables {
  g_log : gmap Z Z;
  g_antilog : gmap Z Z;
  g_initialized : bool
}.

Definition gf16_zeroed : gf16_tables := Gf16Tables ∅ ∅ false.

Definition log_at (t : gf16_tables) (i : Z) : Z := default 0 (g_log t !! i).
Definition antilog_at (t : gf16_tables) (i : Z) : Z := default 0 (g_antilog t !! i).

(** [b <<= 1; if (b & GF_COUNT) b ^= GF_GENERATOR]; [b] is below [2^16], so
    the 32-bit shift does not overflow. *)
Definition xtime (b : Z) : Z :=
  let b := Z.shiftl b 1 in
  if Z.land b GF_COUNT =? 0 then b else Z.lxor b GF_GENERATOR.

(** One iteration of the loop of [gf16_init]: the counter, [b] and the tables. *)
Definition gf16_init_step (s : Z * Z * gf16_tables) : Z * Z * gf16_tables :=
  let '(l, b, t) := s in
  (l + 1, xtime b,
   Gf16Tables (<[b := u16 l]> (g_log t)) (<[l := u16 b]> (g_antilog t)) (g_initialized t)).

Definition gf16_init (t : gf16_tables) : gf16_tables :=
  if g_initialized t then t
  else
    let '(_, _, t) := Nat.iter (Z.to_nat GF_LIMIT) gf16_init_step (0, 1, t) in
    Gf16Tables (<[0 := u16 GF_LIMIT]> (g_log t)) (<[GF_LIMIT := 0]> (g_antilog t)) true.

Definition gf16_mul (t : gf16_tables) (a b : Z) : Z :=
  if (a =? 0) || (b =? 0) then 0
  else
    let sum := log_at t a + log_at t b in
    let sum := if GF_LIMIT <=? sum then sum - GF_LIMIT else sum in
    antilog_at t sum.

Definition gf16_div (t : gf16_tables) (a b : Z) : Z :=
  if a =? 0 then 0
  else
    let sum := log_at t a - log_at t b in
    let sum := if sum <? 0 then sum + GF_LIMIT else sum in
    antilog_at t sum.

Definition gf16_pow (t : gf16_tables) (base exponent : Z) : Z :=
  if exponent =? 0 then 1
  else if base =? 0 then 0
  else
    let sum := u32 (log_at t base * exponent) in
    let sum := Z.shiftr sum GF_BITS + Z.land sum GF_LIMIT in
    let sum := if GF_LIMIT <=? sum then sum - GF_LIMIT else sum in
    antilog_at t sum.

(** The tables every caller sees: after [gf16_init] has run once. *)
Definition gf16_ready : gf16_tables := gf16_init gf16_zeroed.

(** ** Specification *)

Definition gf_ok (a : Z) : Prop := 0 <= a < 2 ^ 16.

(** Multiplication by the polynomial [a] of degree below [n]: shift and add,
    each shift reduced modulo the generator. *)
Fixpoint poly_mul (n : nat) (a b : Z) : Z :=
  match n with
  | O => 0
  | S n => Z.lxor (if Z.testbit a 0 then b else 0) (poly_mul n (Z.shiftr a 1) (xtime b))
  end.

(** The powers of x. *)
Definition x_pow (i : nat) : Z := Nat.iter i xtime 1.

(** What the Reed-Solomon code needs of its field; addition is [Z.lxor]. *)
Class GaloisField (ok : Z → Prop) (mul div : Z → Z → Z) := {
  gf_zero_ok : ok 0;
  gf_one_ok : ok 1;
  gf_add_ok a b : ok a → ok b → ok (Z.lxor a b);
  gf_mul_ok a b : ok a → ok b → ok (mul a b);
  gf_div_ok a b : ok a → ok b → b ≠ 0 → ok (div a b);
  gf_mul_comm a b : ok a → ok b → mul a b = mul b a;
  gf_mul_assoc a b c : ok a → ok b → ok c → mul a (mul b c) = mul (mul a b) c;
  gf_mul_1_l a : ok a → mul 1 a = a;
  gf_mul_add_l a b c : ok a → ok b → ok c →
    mul (Z.lxor a b) c = Z.lxor (mul a c) (mul b c);
  gf_div_mul a b : ok a → ok b → b ≠ 0 → mul (div a b) b = a
}.

(** ** Shifting *)

Lemma xtime_bit b : (Z.land (Z.shiftl b 1) GF_COUNT =? 0) = negb (Z.testbit b 15).
Proof.
  unfold GF_COUNT. change 65536 with (2 ^ 16).
  assert (Z.land (Z.shiftl b 1) (2 ^ 16) = if Z.testbit b 15 then 2 ^ 16 else 0) as ->.
  { apply Z.bits_inj'. intros i Hi. rewrite Z.land_spec, Z.shiftl_spec by done.
    rewrite Z.pow2_bits_eqb by lia. destruct (Z.eqb_spec 16 i) as [<-|Hne].
    - rewrite andb_true_r. change (16 - 1) with 15. by destruct (Z.testbit b 15).
    - rewrite andb_false_r. destruct (Z.testbit b 15); [|by rewrite Z.bits_0].
      rewrite Z.pow2_bits_eqb by lia. symmetry. by apply Z.eqb_neq. }
  by destruct (Z.testbit b 15).
Qed.

Lemma xtime_eq b :
  xtime b = Z.lxor (Z.shiftl b 1) (if Z.testbit b 15 then GF_GENERATOR else 0).
Proof.
  unfold xtime. rewrite xtime_bit. destruct (Z.testbit b 15); simpl; [done|].
  by rewrite Z.lxor_0_r.
Qed.

Lemma xtime_lxor a b : xtime (Z.lxor a b) = Z.lxor (xtime a) (xtime b).
Proof.
  rewrite !xtime_eq, Z.shiftl_lxor, Z.lxor_spec, lxor_exchange. f_equal.
  destruct (Z.testbit a 15), (Z.testbit b 15); done.
Qed.

Lemma xtime_0 : xtime 0 = 0.
Proof. done. Qed.

Lemma xtime_ok b : gf_ok b → gf_ok (xtime b).
Proof.
  intros [H0 H1]. rewrite xtime_eq. unfold gf_ok.
  assert (0 <= Z.shiftl b 1) by (apply Z.shiftl_nonneg; lia).
  assert (0 <= Z.lxor (Z.shiftl b 1) (if Z.testbit b 15 then GF_GENERATOR else 0)) as Hn.
  { apply Z.lxor_nonneg. by destruct (Z.testbit b 15). }
  split; [done|]. apply testbit_bound; [lia|done|].
  intros i Hi. rewrite Z.lxor_spec, Z.shiftl_spec by lia.
  destruct (decide (i = 16)) as [->|].
  - change (16 - 1) with 15. by destruct (Z.testbit b 15).
  - rewrite (proj1 (testbit_bound 16 b ltac:(lia) H0) H1) by lia.
    destruct (Z.testbit b 15); [|by rewrite Z.bits_0].
    apply (proj1 (testbit_bound 17 GF_GENERATOR ltac:(lia) ltac:(done))); [done|lia].
Qed.

Lemma iter_xtime_ok n b : gf_ok b → gf_ok (Nat.iter n xtime b).
Proof. intros. induction n; simpl; [done|by apply xtime_ok]. Qed.

Lemma gf_ok_0 : gf_ok 0.
Proof. unfold gf_ok. lia. Qed.
Lemma gf_ok_1 : gf_ok 1.
Proof. unfold gf_ok. lia. Qed.
Lemma gf_ok_lxor a b : gf_ok a → gf_ok b → gf_ok (Z.lxor a b).
Proof. apply lxor_bound. lia. Qed.

Create HintDb gf.
#[export] Hint Resolve xtime_ok iter_xtime_ok gf_ok_0 gf_ok_1 gf_ok_lxor : gf.

(** ** Polynomial multiplication *)

Lemma poly_mul_lxor_r n a b c :
  poly_mul n a (Z.lxor b c) = Z.lxor (poly_mul n a b) (poly_mul n a c).
Proof.
  revert a b c. induction n as [|n IH]; intros; cbn [poly_mul]; [done|].
  rewrite xtime_lxor, IH, lxor_exchange. f_equal. by destruct (Z.testbit a 0).
Qed.

Lemma poly_mul_lxor_l n a b c :
  poly_mul n (Z.lxor a b) c = Z.lxor (poly_mul n a c) (poly_mul n b c).
Proof.
  revert a b c. induction n as [|n IH]; intros; cbn [poly_mul]; [done|].
  rewrite Z.shiftr_lxor, IH, Z.lxor_spec, lxor_exchange. f_equal.
  destruct (Z.testbit a 0), (Z.testbit b 0); cbn [xorb];
    by rewrite ?Z.lxor_nilpotent, ?Z.lxor_0_r, ?Z.lxor_0_l.
Qed.

Lemma poly_mul_xtime n a b : poly_mul n a (xtime b) = xtime (poly_mul n a b).
Proof.
  revert a b. induction n as [|n IH]; intros; cbn [poly_mul]; [done|].
  rewrite IH, xtime_lxor. f_equal. by destruct (Z.testbit a 0).
Qed.

Lemma poly_mul_iter n a b i :
  poly_mul n a (Nat.iter i xtime b) = Nat.iter i xtime (poly_mul n a b).
Proof. induction i; simpl; [done|]. by rewrite poly_mul_xtime, IHi. Qed.

Lemma poly_mul_ok n a b : gf_ok b → gf_ok (poly_mul n a b).
Proof.
  revert a b. induction n as [|n IH]; intros a b Hb; cbn [poly_mul]; [auto with gf|].
  apply gf_ok_lxor; [|auto with gf]. destruct (Z.testbit a 0); auto with gf.
Qed.

Lemma xtime_pow2 k : 0 <= k < 15 → xtime (2 ^ k) = 2 ^ (k + 1).
Proof.
  intros Hk. rewrite xtime_eq, Z.pow2_bits_false by lia.
  by rewrite Z.lxor_0_r, Z.shiftl_mul_pow2, Z.pow_add_r by lia.
Qed.

Lemma poly_mul_pow2 n a k :
  0 <= k → k + Z.of_nat n <= 16 →
  poly_mul n a (2 ^ k) = Z.shiftl (a mod 2 ^ Z.of_nat n) k.
Proof.
  revert a k. induction n as [|n IH]; intros a k Hk Hn.
  { simpl. by rewrite Z.mod_1_r, Z.shiftl_0_l. }
  rewrite mod_pow2_S, Z.shiftl_lxor, Z.shiftl_shiftl by lia. cbn [poly_mul]. f_equal.
  - destruct (Z.testbit a 0); [|by rewrite Z.shiftl_0_l].
    by rewrite Z.shiftl_1_l.
  - destruct n as [|n]; [simpl; by rewrite Z.mod_1_r, Z.shiftl_0_l|].
    rewrite xtime_pow2 by lia. rewrite IH by lia. f_equal. lia.
Qed.

Lemma poly_mul_1_r a : gf_ok a → poly_mul 16 a 1 = a.
Proof.
  intros Ha. change 1 with (2 ^ 0). rewrite poly_mul_pow2 by lia.
  rewrite Z.shiftl_0_r. by apply Z.mod_small.
Qed.

(** ** The powers of x: a cyclic group of order 65535 *)

Definition gf_order : nat := Z.to_nat GF_LIMIT.

Lemma x_pow_add i j : x_pow (i + j) = Nat.iter i xtime (x_pow j).
Proof. unfold x_pow. apply Nat.iter_add. Qed.

Lemma x_pow_ok i : gf_ok (x_pow i).
Proof. apply iter_xtime_ok. apply gf_ok_1. Qed.

Lemma x_pow_order : x_pow gf_order = 1.
Proof. vm_compute. reflexivity. Qed.

(** No proper divisor of the order is a period; the quotients by the four
    prime factors 3, 5, 17 and 257 are enough. *)
Lemma x_pow_not_1 p : p ∈ [3; 5; 17; 257] → x_pow (Z.to_nat (GF_LIMIT / p)) ≠ 1.
Proof.
  intros Hp. assert (forallb (λ p, negb (x_pow (Z.to_nat (GF_LIMIT / p)) =? 1))
    [3; 5; 17; 257] = true) as Hf by (vm_compute; reflexivity).
  rewrite forallb_forall in Hf. specialize (Hf p (proj1 (list_elem_of_In _ _) Hp)).
  intros Heq. rewrite Heq in Hf. discriminate.
Qed.

Lemma x_pow_plus_1 i j : x_pow j = 1 → x_pow (i + j) = x_pow i.
Proof. intros H. by rewrite x_pow_add, H. Qed.

Lemma x_pow_mult_1 k j : x_pow j = 1 → x_pow (k * j) = 1.
Proof. intros H. induction k; simpl; [done|]. rewrite Nat.add_comm. by rewrite x_pow_plus_1. Qed.

Lemma factor_of_order q : 1 < q → (q | GF_LIMIT) → ∃ p, p ∈ [3; 5; 17; 257] ∧ (p | q).
Proof.
  intros Hq Hd.
  assert (∀ p, p ∈ [3; 5; 17; 257] → Forall (λ n, Z.gcd n p = 1) (seqZ 1 (p - 1))) as Hpr.
  { intros p Hp. apply Forall_forall. intros n Hn.
    assert (forallb (λ p, forallb (λ n, Z.gcd n p =? 1) (seqZ 1 (p - 1))) [3; 5; 17; 257]
      = true) as Hf by (vm_compute; reflexivity).
    rewrite forallb_forall in Hf. specialize (Hf p (proj1 (list_elem_of_In _ _) Hp)).
    rewrite forallb_forall in Hf. specialize (Hf n (proj1 (list_elem_of_In _ _) Hn)).
    by apply Z.eqb_eq in Hf. }
  assert (∀ p, p ∈ [3; 5; 17; 257] → (p | q) ∨ Z.coprime q p) as Hor.
  { intros p Hp. assert (1 < p) as Hp1 by (repeat (apply elem_of_cons in Hp as [->|Hp]; [lia|]); by apply elem_of_nil in Hp).
    destruct (decide (q mod p = 0)) as [H0|Hne].
    - left. by apply Z.mod_divide; [lia|].
    - right. unfold Z.coprime. rewrite <- Z.gcd_mod_l.
      specialize (Hpr p Hp). rewrite Forall_forall in Hpr. apply Hpr, elem_of_seqZ. pose proof (Z.mod_pos_bound q p). lia. }
  destruct (Hor 3) as [?|R3]; [set_solver|eexists; split; [|done]; set_solver|].
  destruct (Hor 5) as [?|R5]; [set_solver|eexists; split; [|done]; set_solver|].
  destruct (Hor 17) as [?|R17]; [set_solver|eexists; split; [|done]; set_solver|].
  destruct (Hor 257) as [?|R257]; [set_solver|eexists; split; [|done]; set_solver|].
  exfalso. assert (Z.coprime q GF_LIMIT) as HR.
  { change GF_LIMIT with (3 * (5 * (17 * 257))). by repeat apply Z.coprime_mul_r. }
  unfold Z.coprime in HR.
  rewrite (Z.divide_gcd_iff q GF_LIMIT) in Hd by lia. lia.
Qed.

Lemma x_pow_minimal k : (0 < k < gf_order)%nat → x_pow k ≠ 1.
Proof.
  intros Hk H1.
  set (g := Nat.gcd k gf_order).
  assert (Nat.divide g k) as [k' Hk'] by apply Nat.gcd_divide_l.
  assert (Nat.divide g gf_order) as [q Hq] by apply Nat.gcd_divide_r.
  assert (0 < g)%nat by lia.
  assert (x_pow g = 1) as Hg.
  { destruct (Nat.gcd_bezout k gf_order) as [Hb|Hb].
    - destruct Hb as (a & b & Hab).
      rewrite <- (x_pow_mult_1 a k H1), Hab.
      by rewrite x_pow_plus_1 by (apply x_pow_mult_1, x_pow_order).
    - destruct Hb as (a & b & Hab).
      rewrite <- (x_pow_mult_1 a gf_order x_pow_order), Hab.
      by rewrite x_pow_plus_1 by (by apply x_pow_mult_1). }
  assert (g <= k)%nat by (apply Nat.divide_pos_le; [lia|by exists k']).
  destruct (factor_of_order (Z.of_nat q)) as (p & Hp & [q' Hq']).
  { assert (q ≠ 0 ∧ q ≠ 1)%nat; [|lia]. split; intros ->; lia. }
  { exists (Z.of_nat g). unfold gf_order in Hq. change GF_LIMIT with 65535 in *. lia. }
  apply (x_pow_not_1 p Hp).
  assert (0 < p) by (repeat (apply elem_of_cons in Hp as [->|Hp]; [lia|]); by apply elem_of_nil in Hp).
  replace (Z.to_nat (GF_LIMIT / p)) with (Z.to_nat q' * g)%nat; [by apply x_pow_mult_1|].
  assert (GF_LIMIT = (q' * Z.of_nat g) * p) as HL.
  { unfold gf_order in Hq. change GF_LIMIT with 65535 in *. nia. }
  rewrite HL, Z.div_mul by lia. nia.
Qed.

Lemma x_pow_inj i j :
  (i < gf_order)%nat → (j < gf_order)%nat → x_pow i = x_pow j → i = j.
Proof.
  assert (∀ i j, i < j < gf_order → x_pow i ≠ x_pow j)%nat as Hlt.
  { intros a b Hab Heq. apply (x_pow_minimal (b - a)); [lia|].
    rewrite <- (x_pow_plus_1 (b - a) gf_order x_pow_order).
    replace (b - a + gf_order)%nat with ((gf_order - a) + b)%nat by lia.
    rewrite x_pow_add, <- Heq, <- x_pow_add.
    replace (gf_order - a + a)%nat with gf_order by lia. apply x_pow_order. }
  intros Hi Hj Heq. destruct (Nat.lt_trichotomy i j) as [?|[?|?]]; [|done|].
  - exfalso. by apply (Hlt i j).
  - exfalso. by apply (Hlt j i).
Qed.

Lemma x_pow_nonzero i : x_pow i ≠ 0.
Proof.
  intros H0. assert (x_pow (gf_order * S i) = 1) as H1.
  { rewrite Nat.mul_comm. apply x_pow_mult_1, x_pow_order. }
  replace (gf_order * S i)%nat with ((gf_order * S i - i) + i)%nat in H1
    by (assert (0 < gf_order)%nat by (apply (Z2Nat.inj_lt 0 GF_LIMIT); done); nia).
  rewrite x_pow_add, H0 in H1.
  assert (∀ n, Nat.iter n xtime 0 = 0) as Hz by (induction n as [|n IH]; simpl; [done|by rewrite IH]).
  rewrite Hz in H1. discriminate.
Qed.

Lemma x_pow_range i : 1 <= x_pow i <= Z.of_nat gf_order.
Proof.
  pose proof (x_pow_ok i) as [? ?]. pose proof (x_pow_nonzero i).
  unfold gf_order. change GF_LIMIT with 65535. lia.
Qed.

(** Every non-zero element is a power of x: the discrete logarithm exists. *)
Lemma x_pow_onto a : gf_ok a → a ≠ 0 → ∃ i, (i < gf_order)%nat ∧ a = x_pow i.
Proof.
  intros [? ?] ?. destruct (pigeonhole_onto gf_order x_pow a) as (i & ? & <-).
  - apply x_pow_inj.
  - intros i _. apply x_pow_range.
  - unfold gf_order. change GF_LIMIT with 65535. lia.
  - by exists i.
Qed.

Lemma x_pow_mod i : x_pow (i mod gf_order) = x_pow i.
Proof.
  rewrite (Nat.div_mod_eq i gf_order) at 2. rewrite Nat.add_comm.
  rewrite x_pow_plus_1; [done|]. rewrite Nat.mul_comm. apply x_pow_mult_1, x_pow_order.
Qed.

Lemma poly_mul_x_pow i j : poly_mul 16 (x_pow i) (x_pow j) = x_pow (i + j).
Proof.
  unfold x_pow at 2. rewrite poly_mul_iter, poly_mul_1_r by apply x_pow_ok.
  rewrite Nat.add_comm. unfold x_pow. by rewrite <- Nat.iter_add.
Qed.

(** ** The tables *)

Definition tables_upto (n : nat) (t : gf16_tables) : Prop :=
  ∀ i, (i < n)%nat →
    g_antilog t !! Z.of_nat i = Some (x_pow i) ∧ g_log t !! x_pow i = Some (Z.of_nat i).

Lemma u16_small z : 0 <= z < 65536 → u16 z = z.
Proof. intros. unfold u16. by apply Z.mod_small. Qed.

Lemma gf_order_Z : Z.of_nat gf_order = GF_LIMIT.
Proof. unfold gf_order. rewrite Z2Nat.id; done. Qed.

Lemma gf16_init_loop t n :
  (n <= gf_order)%nat →
  ∃ t', Nat.iter n gf16_init_step (0, 1, t) = (Z.of_nat n, x_pow n, t') ∧ tables_upto n t'.
Proof.
  induction n as [|n IH]; intros Hn.
  { exists t. split; [done|]. intros i Hi. lia. }
  destruct IH as (t' & Heq & Ht'); [lia|].
  rewrite Nat.iter_succ, Heq. eexists. split.
  - unfold gf16_init_step. rewrite Nat2Z.inj_succ. reflexivity.
  - pose proof gf_order_Z as HL. unfold GF_LIMIT in HL.
    rewrite (u16_small (Z.of_nat n)) by lia. rewrite u16_small by apply x_pow_ok.
    intros i Hi. cbn [g_antilog g_log]. destruct (decide (i = n)) as [->|].
    + split; [exact (lookup_insert_eq _ (Z.of_nat n) _)|exact (lookup_insert_eq _ (x_pow n) _)].
    + rewrite !lookup_insert_ne; [apply Ht'; lia|..].
      * intros H. apply x_pow_inj in H; lia.
      * lia.
Qed.

Lemma gf16_ready_upto : tables_upto gf_order gf16_ready.
Proof.
  unfold gf16_ready, gf16_init. cbn [g_initialized gf16_zeroed].
  destruct (gf16_init_loop gf16_zeroed gf_order ltac:(lia)) as (t & Heq & Ht).
  fold gf_order. rewrite Heq. intros i Hi. cbn [g_antilog g_log].
  pose proof gf_order_Z as HL. pose proof (x_pow_range i) as Hr.
  rewrite !lookup_insert_ne; [by apply Ht|lia|lia].
Qed.

Lemma antilog_ready i : (i < gf_order)%nat → antilog_at gf16_ready (Z.of_nat i) = x_pow i.
Proof. intros Hi. unfold antilog_at. by rewrite (proj1 (gf16_ready_upto i Hi)). Qed.

Lemma log_ready i : (i < gf_order)%nat → log_at gf16_ready (x_pow i) = Z.of_nat i.
Proof. intros Hi. unfold log_at. by rewrite (proj2 (gf16_ready_upto i Hi)). Qed.

(** Reading the antilog table at an exponent reduced by one conditional
    addition or subtraction of [GF_LIMIT]. *)
Lemma antilog_ready_mod (z : Z) (i : nat) :
  0 <= z < GF_LIMIT → z = Z.of_nat i mod GF_LIMIT → antilog_at gf16_ready z = x_pow i.
Proof.
  intros Hz ->. rewrite <- (x_pow_mod i), <- gf_order_Z, <- Nat2Z.inj_mod.
  apply antilog_ready. apply Nat.mod_upper_bound.
  intros H0. pose proof gf_order_Z as HL. rewrite H0 in HL. discriminate.
Qed.

Lemma iter_xtime_x_pow n i : Nat.iter n xtime (x_pow i) = x_pow (n + i).
Proof. symmetry. apply x_pow_add. Qed.

#[global] Opaque gf16_ready gf_order x_pow.

(** ** The operations on powers of x *)

Lemma gf16_mul_x_pow i j : (i < gf_order)%nat → (j < gf_order)%nat →
  gf16_mul gf16_ready (x_pow i) (x_pow j) = x_pow (i + j).
Proof.
  intros Hi Hj. unfold gf16_mul.
  pose proof (x_pow_nonzero i). pose proof (x_pow_nonzero j). pose proof gf_order_Z as HL.
  rewrite (proj2 (Z.eqb_neq _ _)), (proj2 (Z.eqb_neq _ _)) by done. simpl.
  rewrite !log_ready by done. unfold GF_LIMIT in *.
  destruct (Z.leb_spec 65535 (Z.of_nat i + Z.of_nat j)).
  - apply antilog_ready_mod; unfold GF_LIMIT; [lia|].
    rewrite Nat2Z.inj_add. apply (Z.mod_unique _ _ 1); lia.
  - apply antilog_ready_mod; unfold GF_LIMIT; [lia|].
    rewrite Nat2Z.inj_add, Z.mod_small; lia.
Qed.

Lemma gf16_div_x_pow i j : (i < gf_order)%nat → (j < gf_order)%nat →
  gf16_div gf16_ready (x_pow i) (x_pow j) = x_pow (i + gf_order - j).
Proof.
  intros Hi Hj. unfold gf16_div.
  pose proof (x_pow_nonzero i). pose proof gf_order_Z as HL.
  rewrite (proj2 (Z.eqb_neq _ _)) by done. rewrite !log_ready by done.
  unfold GF_LIMIT in *.
  destruct (Z.ltb_spec (Z.of_nat i - Z.of_nat j) 0).
  - apply antilog_ready_mod; unfold GF_LIMIT; [lia|].
    rewrite Z.mod_small; lia.
  - apply antilog_ready_mod; unfold GF_LIMIT; [lia|].
    apply (Z.mod_unique _ _ 1); lia.
Qed.

Lemma gf16_pow_x_pow i e : (i < gf_order)%nat → 0 < e < 65536 →
  gf16_pow gf16_ready (x_pow i) e = x_pow (i * Z.to_nat e).
Proof.
  intros Hi He. unfold gf16_pow.
  pose proof (x_pow_nonzero i). pose proof gf_order_Z as HL.
  destruct (Z.eqb_spec e 0); [lia|]. destruct (Z.eqb_spec (x_pow i) 0); [contradiction|].
  rewrite (log_ready i Hi). unfold GF_LIMIT, GF_BITS in *.
  set (v := Z.of_nat i * e). assert (0 <= v <= 65534 * 65535) as Hv by (unfold v; nia).
  assert (u32 v = v) as -> by (unfold u32; apply Z.mod_small; lia).
  replace (Z.land v 65535) with (v mod 65536)
    by (symmetry; exact (Z.land_ones v 16 ltac:(lia))).
  rewrite Z.shiftr_div_pow2 by lia. change (2 ^ 16) with 65536.
  set (s := v / 65536 + v mod 65536).
  assert (v = 65536 * (v / 65536) + v mod 65536) as Hdm by (apply Z.div_mod; lia).
  pose proof (Z.mod_pos_bound v 65536 ltac:(lia)).
  assert (0 <= v / 65536 <= 65533) by (split; [apply Z.div_pos; lia|
    apply Z.lt_succ_r, Z.div_lt_upper_bound; lia]).
  assert (s mod 65535 = Z.of_nat (i * Z.to_nat e) mod 65535) as Hmod.
  { rewrite Nat2Z.inj_mul, Z2Nat.id by lia. fold v.
    rewrite Hdm at 1. replace (65536 * (v / 65536) + v mod 65536)
      with (s + (v / 65536) * 65535) by (unfold s; lia).
    symmetry. apply Z.mod_add. lia. }
  destruct (Z.leb_spec 65535 s).
  - apply antilog_ready_mod; unfold GF_LIMIT; [lia|]. rewrite <- Hmod.
    apply (Z.mod_unique _ _ 1); lia.
  - apply antilog_ready_mod; unfold GF_LIMIT; [lia|]. rewrite <- Hmod.
    rewrite Z.mod_small; lia.
Qed.

(** Case analysis of a field element: zero or a power of x. *)
Lemma gf_cases a : gf_ok a → a = 0 ∨ ∃ i, (i < gf_order)%nat ∧ a = x_pow i.
Proof. intros. destruct (decide (a = 0)); [by left|right; by apply x_pow_onto]. Qed.

Lemma gf16_mul_0_l b : gf16_mul gf16_ready 0 b = 0.
Proof. done. Qed.
Lemma gf16_mul_0_r a : gf16_mul gf16_ready a 0 = 0.
Proof. unfold gf16_mul. by rewrite orb_true_r. Qed.

Lemma poly_mul_0_l n b : poly_mul n 0 b = 0.
Proof.
  revert b. induction n as [|n IH]; intros; [done|].
  cbn [poly_mul]. by rewrite Z.bits_0, Z.shiftr_0_l, IH.
Qed.

Lemma poly_mul_0_r n a : poly_mul n a 0 = 0.
Proof.
  revert a. induction n as [|n IH]; intros; [done|].
  cbn [poly_mul]. rewrite xtime_0, IH. by destruct (Z.testbit a 0).
Qed.

Lemma gf16_mul_poly a b :
  gf_ok a → gf_ok b → gf16_mul gf16_ready a b = poly_mul 16 a b.
Proof.
  intros Ha Hb.
  destruct (gf_cases a Ha) as [->|(i & Hi & ->)]; [by rewrite gf16_mul_0_l, poly_mul_0_l|].
  destruct (gf_cases b Hb) as [->|(j & Hj & ->)]; [by rewrite gf16_mul_0_r, poly_mul_0_r|].
  by rewrite gf16_mul_x_pow, poly_mul_x_pow.
Qed.

(** ** The instance of the interface *)

(** Reduces a field element to zero or a power of x, everywhere. *)
Ltac gf_case a :=
  match goal with
  | H : gf_ok a |- _ =>
    let i := fresh "i" in
    destruct (gf_cases a H) as [->|(i & ? & ->)]
  end.

Lemma x_pow_0 : x_pow 0 = 1.
Proof. done. Qed.

Lemma gf_order_pos : (0 < gf_order)%nat.
Proof. pose proof gf_order_Z as H. unfold GF_LIMIT in H. lia. Qed.

(** Products of powers, with the exponents out of range too. *)
Lemma gf16_mul_x_pow_any i j :
  gf16_mul gf16_ready (x_pow i) (x_pow j) = x_pow (i + j).
Proof.
  pose proof gf_order_pos. rewrite <- (x_pow_mod i), <- (x_pow_mod j).
  rewrite gf16_mul_x_pow by (apply Nat.mod_upper_bound; lia).
  rewrite <- x_pow_mod, <- Nat.Div0.add_mod, x_pow_mod. done.
Qed.

Lemma gf16_mul_ok_ready a b : gf_ok a → gf_ok b → gf_ok (gf16_mul gf16_ready a b).
Proof.
  intros. gf_case a; [done|]. gf_case b; [rewrite gf16_mul_0_r; done|].
  rewrite gf16_mul_x_pow_any. apply x_pow_ok.
Qed.

Lemma gf16_div_ok_ready a b :
  gf_ok a → gf_ok b → b ≠ 0 → gf_ok (gf16_div gf16_ready a b).
Proof.
  intros. gf_case a; [done|]. gf_case b; [done|].
  rewrite gf16_div_x_pow by done. apply x_pow_ok.
Qed.

#[export] Instance gf16_field :
  GaloisField gf_ok (gf16_mul gf16_ready) (gf16_div gf16_ready).
Proof.
  split.
  - apply gf_ok_0.
  - apply gf_ok_1.
  - apply gf_ok_lxor.
  - apply gf16_mul_ok_ready.
  - apply gf16_div_ok_ready.
  - intros a b Ha Hb. gf_case a; [by rewrite gf16_mul_0_r|].
    gf_case b; [by rewrite gf16_mul_0_r|].
    rewrite !gf16_mul_x_pow_any. f_equal. lia.
  - intros a b c Ha Hb Hc. gf_case a; [done|].
    gf_case b; [by rewrite gf16_mul_0_l, !gf16_mul_0_r, gf16_mul_0_l|].
    gf_case c; [by rewrite !gf16_mul_0_r|].
    rewrite !gf16_mul_x_pow_any. f_equal. lia.
  - intros a Ha. gf_case a; [apply gf16_mul_0_r|].
    rewrite <- x_pow_0 at 1. by rewrite gf16_mul_x_pow_any.
  - intros a b c Ha Hb Hc.
    rewrite !gf16_mul_poly by auto with gf. apply poly_mul_lxor_l.
  - intros a b Ha Hb Hne. gf_case a; [done|]. gf_case b; [done|].
    rewrite gf16_div_x_pow, gf16_mul_x_pow_any by done.
    replace (i + gf_order - i0 + i0)%nat with (i + gf_order)%nat by lia.
    apply x_pow_plus_1, x_pow_order.
Qed.

(** ** Properties *)

(** C36: the table lookups compute the field multiplication: for all 16-bit
    operands, [gf16_mul] is the product of the two polynomials over GF(2)
    modulo [GF_GENERATOR]. *)
Theorem gf16_mul_is_poly_mul a b :
  gf_ok a → gf_ok b → gf16_mul gf16_ready a b = poly_mul 16 a b.
Proof. apply gf16_mul_poly. Qed.

Lemma gf16_mul_is_poly_mul_witness :
  gf_ok 0x8000 ∧ gf16_mul gf16_ready 0x8000 6 = 0x301d.
Proof.
  assert (gf_ok 0x8000 ∧ gf_ok 6) as [H1 H2] by (unfold gf_ok; lia).
  split; [exact H1|].
  rewrite (gf16_mul_is_poly_mul 0x8000 6 H1 H2). vm_compute. reflexivity.
Defined.

(** The looked-up multiplication and division, with [Z.lxor] as addition,
    are the operations of a field on the 16-bit values, and [gf16_init] is
    idempotent: a second call changes no table. *)
Theorem gf16_ops_form_a_field :
  GaloisField gf_ok (gf16_mul gf16_ready) (gf16_div gf16_ready) ∧
  ∀ t, gf16_init (gf16_init t) = gf16_init t.
Proof.
  split; [apply gf16_field|]. intros t. unfold gf16_init at 1.
  assert (g_initialized (gf16_init t) = true) as ->; [|done].
  unfold gf16_init. destruct (g_initialized t) eqn:E; [done|].
  by destruct (Nat.iter _ _ _) as [[? ?] ?].
Qed.

(** [gf16_pow] is repeated multiplication for every 16-bit base and
    exponent: its product fits 32 bits and one shift-and-add followed by one
    conditional subtraction reduces it modulo 65535 exactly. *)
Theorem gf16_pow_is_iterated_mul base e :
  gf_ok base → 0 <= e < 65536 →
  gf16_pow gf16_ready base e =
  Nat.iter (Z.to_nat e) (gf16_mul gf16_ready base) 1.
Proof.
  intros Hb He. destruct (decide (e = 0)) as [->|]; [done|].
  gf_case base.
  - unfold gf16_pow. rewrite (proj2 (Z.eqb_neq e 0)) by lia.
    destruct (Z.to_nat e) as [|m] eqn:E; [lia|]. done.
  - rewrite gf16_pow_x_pow by (done || lia).
    assert (∀ k, Nat.iter k (gf16_mul gf16_ready (x_pow i)) 1 = x_pow (i * k)) as Hn.
    { intros k. induction k as [|k IH]; [by rewrite Nat.mul_0_r|].
      rewrite Nat.iter_succ, IH, gf16_mul_x_pow_any. f_equal. lia. }
    by rewrite Hn.
Qed.

Lemma gf16_pow_is_iterated_mul_witness :
  gf_ok 2 ∧ gf16_pow gf16_ready 2 17 = Nat.iter 17 (gf16_mul gf16_ready 2) 1.
Proof.
  assert (gf_ok 2) as H2 by (unfold gf_ok; lia).
  split; [exact H2|]. exact (gf16_pow_is_iterated_mul 2 17 H2 ltac:(lia)).
Defined.
