(* ===== verification/Rs.v ===== *)
(** * Reed-Solomon solving ([par2/rs.c], second part)

    The elimination is written and proved over any [GaloisField]; [gf16_solve]
    and the byte loops use the tables of [Gf16]. A matrix is the flat
    row-major array of the code. *)

From Stdlib Require Import ZArith Lia List.
From Stdlib Require Import Strings.Byte.
From stdpp Require Import base list gmap.
From S2P Require Import Prelude Gf16.

(** ** Row-major arrays *)

Definition mget (w : nat) (m : list Z) (r c : nat) : Z := default 0 (m !! (r * w + c)%nat).
Definition mset (w : nat) (m : list Z) (r c : nat) (v : Z) : list Z := <[(r * w + c)%nat := v]> m.

(** ** [gauss_elim] *)

Section elimination.
Context (mul div : Z → Z → Z).

(** The six inner loops share one shape: for [col] from [c0] to [w - 1], if
    [m[row][col]] is not zero then [m[row2][col]] is recomputed from it. *)
Definition col_update (w row row2 : nat) (g : Z → Z → Z) (m : list Z) (col : nat) : list Z :=
  if mget w m row col =? 0 then m
  else mset w m row2 col (g (mget w m row col) (mget w m row2 col)).

Definition for_cols (w row row2 : nat) (g : Z → Z → Z) (c0 : nat) (m : list Z) : list Z :=
  foldl (col_update w row row2 g) m (seq c0 (w - c0)).

(** [if (pivotvalue != 1) ...]: the pivot row divided by the pivot. *)
Definition scale_pivot_row (rows leftcols row : nat) (pivot : Z) (m : list Z * list Z)
    : list Z * list Z :=
  let '(lm, rm) := m in
  if pivot =? 1 then (lm, rm)
  else
    let lm := for_cols leftcols row row (λ a _, div a pivot) 0 lm in
    let rm := mset rows rm row row 1 in
    let rm := for_cols rows row row (λ a _, div a pivot) (S row) rm in
    (lm, rm).

(** The body of the [row2] loop. *)
Definition eliminate_row (rows leftcols row : nat) (m : list Z * list Z) (row2 : nat)
    : list Z * list Z :=
  let '(lm, rm) := m in
  if (row2 =? row)%nat then (lm, rm)
  else
    let scale := mget rows rm row2 row in
    if scale =? 1 then
      (for_cols leftcols row row2 (λ a b, Z.lxor b a) 0 lm,
       for_cols rows row row2 (λ a b, Z.lxor b a) row rm)
    else if scale =? 0 then (lm, rm)
    else
      (for_cols leftcols row row2 (λ a b, Z.lxor b (mul a scale)) 0 lm,
       for_cols rows row row2 (λ a b, Z.lxor b (mul a scale)) row rm).

(** One iteration of the outer loop; [None] is [return -1]. *)
Definition gauss_row (rows leftcols : nat) (m : list Z * list Z) (row : nat)
    : option (list Z * list Z) :=
  let pivot := mget rows (snd m) row row in
  if pivot =? 0 then None
  else
    let m := scale_pivot_row rows leftcols row pivot m in
    Some (foldl (eliminate_row rows leftcols row) m (seq 0 rows)).

Definition gauss_elim (rows leftcols : nat) (lm rm : list Z)
    : option (list Z * list Z) :=
  foldl (λ om row, om ≫= λ m, gauss_row rows leftcols m row)
    (Some (lm, rm)) (seq 0 rows).

(** [gf16_solve] over the field's power function: the two matrices, then the
    elimination. [None] is the return value -1. *)
Definition initial_left (pow : Z → Z → Z) (present_bases : list Z) (unknown_count : nat)
    (exponents : list Z) : list Z :=
  mjoin (imap (λ row e,
    ((λ b, pow b e) <$> present_bases) ++
    ((λ col, if (row =? col)%nat then 1 else 0) <$> seq 0 unknown_count))
    (take unknown_count exponents)).

Definition initial_right (pow : Z → Z → Z) (missing_bases : list Z) (exponents : list Z)
    : list Z :=
  mjoin ((λ e, (λ b, pow b e) <$> missing_bases) <$> take (length missing_bases) exponents).

Definition solve (pow : Z → Z → Z) (present_bases missing_bases exponents : list Z)
    : option (list Z) :=
  let rows := length missing_bases in
  let incount := (length present_bases + rows)%nat in
  if (rows =? 0)%nat then Some []
  else
    fst <$> gauss_elim rows incount
      (initial_left pow present_bases rows exponents)
      (initial_right pow missing_bases exponents).
End elimination.

(** [gf16_solve] on the initialised tables: row-major coefficients, or -1. *)
Definition gf16_solve (present_bases missing_bases exponents : list Z) : option (list Z) :=
  solve (gf16_mul gf16_ready) (gf16_div gf16_ready) (gf16_pow gf16_ready)
    present_bases missing_bases exponents.

(** ** [gf16_mul_acc]: 16-bit little-endian words in byte buffers *)

Definition le16 (lo hi : byte) : Z := Z.lor (b2z lo) (Z.shiftl (b2z hi) 8).

(** The loop over the even-length buffers [dst] and [src]. *)
Fixpoint mul_acc_loop (t : gf16_tables) (dst src : list byte) (factor : Z) : list byte :=
  match dst, src with
  | d0 :: d1 :: dst, s0 :: s1 :: src =>
    let out := Z.lxor (le16 d0 d1) (gf16_mul t (le16 s0 s1) factor) in
    z2b (Z.land out 0xff) :: z2b (Z.shiftr out 8) :: mul_acc_loop t dst src factor
  | _, _ => dst
  end.

Definition gf16_mul_acc (t : gf16_tables) (dst src : list byte) (factor : Z) : list byte :=
  if factor =? 0 then dst else mul_acc_loop t dst src factor.

(** ** [gf16_gcd] and [gf16_next_base] *)

(** The [while] loop; every round shrinks [a + b], which bounds the fuel. *)
Fixpoint gcd_loop (fuel : nat) (a b : Z) : Z * Z :=
  match fuel with
  | O => (a, b)
  | S fuel =>
    if (a =? 0) || (b =? 0) then (a, b)
    else if b <? a then gcd_loop fuel (a mod b) b
    else gcd_loop fuel a (b mod a)
  end.

Definition gf16_gcd (a b : Z) : Z :=
  if (a =? 0) || (b =? 0) then 0
  else let '(a, b) := gcd_loop (Z.to_nat (a + b)) a b in a + b.

(** [while (gf16_gcd(GF_LIMIT, logbase) != 1) logbase++]; 65536 is coprime to
    65535, so a search from below it needs at most [65536 - logbase] rounds. *)
Fixpoint coprime_search (fuel : nat) (logbase : Z) : Z :=
  match fuel with
  | O => logbase
  | S fuel => if gf16_gcd GF_LIMIT logbase =? 1 then logbase else coprime_search fuel (logbase + 1)
  end.

(** [Some (base_state', base)], or [None] for the return value 0. *)
Definition gf16_next_base (t : gf16_tables) (base_state : Z) : option (Z * Z) :=
  let logbase := coprime_search (Z.to_nat (GF_COUNT - base_state)) base_state in
  if GF_LIMIT <=? logbase then None
  else Some (logbase + 1, antilog_at t logbase).

(** ** Lemmas on the arrays *)

Lemma index_inj w r c r' c' :
  (c < w)%nat → (c' < w)%nat → (r * w + c = r' * w + c')%nat → r = r' ∧ c = c'.
Proof.
  intros Hc Hc' He. assert (r = r') as ->; [|lia].
  destruct (Nat.lt_trichotomy r r') as [?|[?|?]]; [|done|]; exfalso; nia.
Qed.

Lemma length_mset w m r c v : length (mset w m r c v) = length m.
Proof. apply length_insert. Qed.

Lemma mget_mset w rows m r c v r' c' :
  length m = (rows * w)%nat → (r < rows)%nat → (c < w)%nat → (c' < w)%nat →
  mget w (mset w m r c v) r' c' =
  if decide (r' = r ∧ c' = c) then v else mget w m r' c'.
Proof.
  intros Hlen Hr Hc Hc'. unfold mget, mset. case_decide as Hd.
  - destruct Hd as [-> ->]. rewrite list_lookup_insert_eq; [done|]. rewrite Hlen. nia.
  - rewrite list_lookup_insert_ne; [done|]. intros He. apply Hd.
    apply index_inj in He; [|done..]. naive_solver.
Qed.

Section arrays.
Context (w rows row row2 : nat) (g : Z → Z → Z).

Lemma length_col_update m col : length (col_update w row row2 g m col) = length m.
Proof. unfold col_update. destruct (_ =? 0); [done|apply length_mset]. Qed.

Lemma length_for_cols c0 m : length (for_cols w row row2 g c0 m) = length m.
Proof.
  unfold for_cols. generalize (seq c0 (w - c0)). intros l. revert m.
  induction l as [|c l IH]; intros m; [done|]. simpl.
  by rewrite IH, length_col_update.
Qed.

Lemma mget_col_update m col r c :
  length m = (rows * w)%nat → (row2 < rows)%nat → (c < w)%nat → (col < w)%nat →
  mget w (col_update w row row2 g m col) r c =
  if decide (r = row2 ∧ c = col ∧ mget w m row c ≠ 0)
  then g (mget w m row c) (mget w m row2 c) else mget w m r c.
Proof.
  intros Hlen Hr2 Hc Hcol. unfold col_update. destruct (Z.eqb_spec (mget w m row col) 0) as [H0|H0].
  - case_decide as Hd; [|done]. destruct Hd as (-> & -> & ?). done.
  - rewrite (mget_mset w rows) by done. repeat case_decide; naive_solver.
Qed.

(** What one pass over the columns computes, entry by entry. *)
Lemma mget_for_cols c0 m r c :
  length m = (rows * w)%nat → (row2 < rows)%nat → (c < w)%nat →
  mget w (for_cols w row row2 g c0 m) r c =
  if decide (r = row2 ∧ (c0 <= c)%nat ∧ mget w m row c ≠ 0)
  then g (mget w m row c) (mget w m row2 c) else mget w m r c.
Proof.
  intros Hlen Hr2 Hc. unfold for_cols. destruct (decide (w < c0)%nat) as [|Hw].
  { replace (w - c0)%nat with 0%nat by lia. rewrite decide_False by lia. done. }
  assert (c < c0 + (w - c0))%nat as Hup by lia.
  assert (c0 + (w - c0) <= w)%nat as Hk by lia.
  revert Hup Hk. generalize (w - c0)%nat as k. intros k. clear Hw.
  revert c0 m Hlen. induction k as [|k IH]; intros c0 m Hlen Hup Hk.
  { rewrite decide_False by lia. done. }
  simpl. rewrite IH by (rewrite ?length_col_update; lia).
  rewrite !mget_col_update by (done || lia).
  destruct (decide (c = c0)) as [->|Hne].
  - rewrite (decide_False (P := r = row2 ∧ (S c0 <= c0)%nat ∧ _)) by lia.
    repeat case_decide; naive_solver lia.
  - rewrite !(decide_False (P := _ ∧ c = c0 ∧ _)) by naive_solver.
    repeat case_decide; naive_solver lia.
Qed.
End arrays.

(** ** Vectors over the field *)

Definition sum_upto (n : nat) (f : nat → Z) : Z := foldr (λ i acc, Z.lxor (f i) acc) 0 (seq 0 n).

Lemma sum_upto_ext n f g : (∀ i, (i < n)%nat → f i = g i) → sum_upto n f = sum_upto n g.
Proof.
  unfold sum_upto. intros H.
  assert (∀ l, (∀ i, i ∈ l → (i < n)%nat) →
    foldr (λ i acc, Z.lxor (f i) acc) 0 l = foldr (λ i acc, Z.lxor (g i) acc) 0 l) as Hl.
  { induction l as [|i l IH]; intros Hin; [done|]. simpl.
    rewrite H, IH; [done|..]; set_solver. }
  apply Hl. intros i Hi. apply elem_of_seq in Hi. lia.
Qed.

Lemma sum_upto_lxor n f g :
  sum_upto n (λ i, Z.lxor (f i) (g i)) = Z.lxor (sum_upto n f) (sum_upto n g).
Proof.
  unfold sum_upto. induction (seq 0 n) as [|i l IH]; [done|]. simpl.
  by rewrite IH, lxor_exchange.
Qed.

Lemma sum_upto_S n f : sum_upto (S n) f = Z.lxor (sum_upto n f) (f n).
Proof.
  unfold sum_upto. rewrite seq_S, foldr_app. simpl. rewrite Z.lxor_0_r.
  generalize (seq 0 n). induction l as [|i l IH]; simpl.
  - by rewrite Z.lxor_0_l.
  - by rewrite IH, Z.lxor_assoc.
Qed.

(** A sum with a single non-zero term. *)
Lemma sum_upto_single n f k :
  (k < n)%nat → (∀ i, (i < n)%nat → i ≠ k → f i = 0) → sum_upto n f = f k.
Proof.
  induction n as [|n IH]; intros Hk Hz; [lia|]. rewrite sum_upto_S.
  destruct (decide (k = n)) as [->|Hne].
  - assert (sum_upto n f = 0) as ->; [|apply Z.lxor_0_l].
    rewrite (sum_upto_ext n f (λ _, 0)) by (intros; apply Hz; lia).
    clear. induction n as [|n IH]; [done|]. by rewrite sum_upto_S, IH.
  - rewrite IH by (intros; try apply Hz; lia). rewrite (Hz n) by lia. apply Z.lxor_0_r.
Qed.

Lemma sum_upto_add n k f :
  sum_upto (n + k) f = Z.lxor (sum_upto n f) (sum_upto k (λ i, f (n + i)%nat)).
Proof.
  induction k as [|k IH].
  - by rewrite Nat.add_0_r, Z.lxor_0_r.
  - rewrite Nat.add_succ_r, !sum_upto_S, IH. by rewrite Z.lxor_assoc.
Qed.

Section field.
Context {ok : Z → Prop} {mul div : Z → Z → Z} `{!GaloisField ok mul div}.

#[local] Hint Extern 1 (ok 0) => apply gf_zero_ok : core.
#[local] Hint Extern 1 (ok 1) => apply gf_one_ok : core.
#[local] Hint Extern 1 (ok (Z.lxor _ _)) => apply gf_add_ok : core.
#[local] Hint Extern 1 (ok (mul _ _)) => apply gf_mul_ok : core.

Lemma gf_mul_0_l a : ok a → mul 0 a = 0.
Proof.
  intros Ha. pose proof gf_zero_ok as H0.
  pose proof (gf_mul_add_l 0 0 a H0 H0 Ha) as H.
  rewrite Z.lxor_0_l, Z.lxor_nilpotent in H. done.
Qed.

Lemma gf_mul_0_r a : ok a → mul a 0 = 0.
Proof. intros Ha. rewrite gf_mul_comm by auto. by apply gf_mul_0_l. Qed.

Lemma gf_mul_add_r a b c :
  ok a → ok b → ok c → mul a (Z.lxor b c) = Z.lxor (mul a b) (mul a c).
Proof.
  intros. rewrite !(gf_mul_comm a) by auto. by apply gf_mul_add_l.
Qed.

(** Division is multiplication by the inverse. *)
Lemma gf_div_inv a p : ok a → ok p → p ≠ 0 → div a p = mul (div 1 p) a.
Proof.
  intros Ha Hp Hne. pose proof gf_one_ok as H1.
  pose proof (gf_div_ok 1 p H1 Hp Hne) as Hi. pose proof (gf_div_ok a p Ha Hp Hne) as Hd.
  rewrite <- (gf_mul_1_l (div a p)) at 1 by done.
  rewrite <- (gf_div_mul 1 p) at 1 by done.
  rewrite <- gf_mul_assoc by done. f_equal.
  rewrite gf_mul_comm by done. by apply gf_div_mul.
Qed.

Lemma gf_div_0 p : ok p → p ≠ 0 → div 0 p = 0.
Proof.
  intros Hp Hne. pose proof gf_one_ok. rewrite gf_div_inv by auto.
  apply gf_mul_0_r. by apply gf_div_ok.
Qed.

Lemma gf_div_self p : ok p → p ≠ 0 → div p p = 1.
Proof. intros. rewrite gf_div_inv by done. by rewrite gf_div_mul by auto. Qed.

Lemma sum_upto_ok n f : (∀ i, (i < n)%nat → ok (f i)) → ok (sum_upto n f).
Proof.
  induction n as [|n IH]; intros H; [apply gf_zero_ok|].
  rewrite sum_upto_S. apply gf_add_ok; [apply IH; intros|]; apply H; lia.
Qed.

Lemma sum_upto_mul n k f :
  ok k → (∀ i, (i < n)%nat → ok (f i)) →
  sum_upto n (λ i, mul k (f i)) = mul k (sum_upto n f).
Proof.
  intros Hk. induction n as [|n IH]; intros H; [by rewrite gf_mul_0_r|].
  rewrite !sum_upto_S, IH by (intros; apply H; lia).
  rewrite gf_mul_add_r; [done|done|apply sum_upto_ok; intros; apply H; lia|apply H; lia].
Qed.
End field.

(** ** The elimination preserves every solution of the system *)

Section elimination_correct.
Context {ok : Z → Prop} {mul div : Z → Z → Z} `{!GaloisField ok mul div}.
Context (rows lc : nat) (x y : nat → Z).
Hypothesis x_ok : ∀ i, ok (x i).
Hypothesis y_ok : ∀ i, ok (y i).
#[local] Hint Extern 1 (ok 0) => apply gf_zero_ok : core.
#[local] Hint Extern 1 (ok 1) => apply gf_one_ok : core.
#[local] Hint Extern 1 (ok (Z.lxor _ _)) => apply gf_add_ok : core.
#[local] Hint Extern 1 (ok (mul _ _)) => apply gf_mul_ok : core.

Definition entries_ok (w : nat) (m : list Z) : Prop :=
  length m = (rows * w)%nat ∧
  ∀ r c, (r < rows)%nat → (c < w)%nat → ok (mget w m r c).

(** Row [r] of the system: right-hand row times [x] is left-hand row times [y]. *)
Definition row_holds (m : list Z * list Z) (r : nat) : Prop :=
  sum_upto rows (λ c, mul (mget rows (snd m) r c) (x c)) =
  sum_upto lc (λ k, mul (mget lc (fst m) r k) (y k)).

Definition unit_cols (k : nat) (rm : list Z) : Prop :=
  ∀ r c, (r < rows)%nat → (c < k)%nat → mget rows rm r c = if decide (r = c) then 1 else 0.

Record system_ok (k : nat) (m : list Z * list Z) : Prop := {
  so_left : entries_ok lc (fst m);
  so_right : entries_ok rows (snd m);
  so_rows : ∀ r, (r < rows)%nat → row_holds m r;
  so_unit : unit_cols k (snd m)
}.

(** A row of [m'] that is [s] times row [r1] added to row [r2] of [m]. *)
Definition row_added (w : nat) (m m' : list Z) (r1 r2 : nat) (s : Z) : Prop :=
  length m' = length m ∧
  ∀ r c, (r < rows)%nat → (c < w)%nat →
    mget w m' r c =
    if decide (r = r2) then Z.lxor (mget w m r2 c) (mul s (mget w m r1 c)) else mget w m r c.

Definition row_scaled (w : nat) (m m' : list Z) (r1 : nat) (s : Z) : Prop :=
  length m' = length m ∧
  ∀ r c, (r < rows)%nat → (c < w)%nat →
    mget w m' r c = if decide (r = r1) then mul s (mget w m r1 c) else mget w m r c.

Lemma row_added_ok w m m' r1 r2 s :
  entries_ok w m → (r1 < rows)%nat → ok s → row_added w m m' r1 r2 s → entries_ok w m'.
Proof.
  intros [Hl Ho] H1 Hs [Hl' Hm']. split; [congruence|]. intros r c Hr Hc.
  rewrite Hm' by done. case_decide; [subst|auto]. apply gf_add_ok; [auto|]. apply gf_mul_ok; auto.
Qed.

Lemma row_scaled_ok w m m' r1 s :
  entries_ok w m → ok s → row_scaled w m m' r1 s → entries_ok w m'.
Proof.
  intros [Hl Ho] Hs [Hl' Hm']. split; [congruence|]. intros r c Hr Hc.
  rewrite Hm' by done. case_decide; [subst; apply gf_mul_ok|]; auto.
Qed.

(** The dot product of a row follows the row operation. *)
Lemma dot_added w m m' r1 r2 s v :
  (∀ i, ok (v i)) → entries_ok w m → (r1 < rows)%nat → (r2 < rows)%nat → ok s →
  row_added w m m' r1 r2 s →
  sum_upto w (λ c, mul (mget w m' r2 c) (v c)) =
  Z.lxor (sum_upto w (λ c, mul (mget w m r2 c) (v c)))
         (mul s (sum_upto w (λ c, mul (mget w m r1 c) (v c)))).
Proof.
  intros Hv [Hl Ho] H1 H2 Hs [_ Hm'].
  rewrite <- sum_upto_mul by auto. rewrite <- sum_upto_lxor.
  apply sum_upto_ext. intros c Hc. rewrite Hm', decide_True by done.
  rewrite gf_mul_add_l by auto. by rewrite gf_mul_assoc by auto.
Qed.

Lemma dot_scaled w m m' r1 s v :
  (∀ i, ok (v i)) → entries_ok w m → (r1 < rows)%nat → ok s → row_scaled w m m' r1 s →
  sum_upto w (λ c, mul (mget w m' r1 c) (v c)) =
  mul s (sum_upto w (λ c, mul (mget w m r1 c) (v c))).
Proof.
  intros Hv [Hl Ho] H1 Hs [_ Hm'].
  rewrite <- sum_upto_mul by auto.
  apply sum_upto_ext. intros c Hc. rewrite Hm', decide_True by done.
  by rewrite gf_mul_assoc by auto.
Qed.

Lemma dot_other w m m' r v :
  (∀ c, (c < w)%nat → mget w m' r c = mget w m r c) →
  sum_upto w (λ c, mul (mget w m' r c) (v c)) = sum_upto w (λ c, mul (mget w m r c) (v c)).
Proof. intros H. apply sum_upto_ext. intros c Hc. by rewrite H. Qed.

Lemma system_added k lm rm lm' rm' r1 r2 s :
  system_ok k (lm, rm) → (r1 < rows)%nat → (r2 < rows)%nat → r1 ≠ r2 → (k <= r1)%nat → ok s →
  row_added lc lm lm' r1 r2 s → row_added rows rm rm' r1 r2 s → system_ok k (lm', rm').
Proof.
  intros [Hl Hr Hrow Hu] H1 H2 Hne Hk Hs Hal Har. split; simpl in *.
  - exact (row_added_ok _ _ _ _ _ _ Hl H1 Hs Hal).
  - exact (row_added_ok _ _ _ _ _ _ Hr H1 Hs Har).
  - intros r Hlt. unfold row_holds in *. simpl in *. destruct (decide (r = r2)) as [->|].
    + rewrite (dot_added rows rm rm' r1 r2 s), (dot_added lc lm lm' r1 r2 s) by done.
      by rewrite !Hrow.
    + rewrite (dot_other rows rm rm'), (dot_other lc lm lm'); [by apply Hrow|..];
        intros c Hc; [rewrite (proj2 Hal)|rewrite (proj2 Har)]; by rewrite ?decide_False.
  - intros r c Hr' Hc. rewrite (proj2 Har) by lia. case_decide; [subst|by apply Hu].
    rewrite (Hu r1 c), (decide_False (P := r1 = c)) by lia.
    rewrite gf_mul_0_r, Z.lxor_0_r by done. by apply Hu.
Qed.

Lemma system_scaled k lm rm lm' rm' r1 s :
  system_ok k (lm, rm) → (r1 < rows)%nat → (k <= r1)%nat → ok s →
  row_scaled lc lm lm' r1 s → row_scaled rows rm rm' r1 s → system_ok k (lm', rm').
Proof.
  intros [Hl Hr Hrow Hu] H1 Hk Hs Hal Har. split; simpl in *.
  - exact (row_scaled_ok _ _ _ _ _ Hl Hs Hal).
  - exact (row_scaled_ok _ _ _ _ _ Hr Hs Har).
  - intros r Hlt. unfold row_holds in *. simpl in *. destruct (decide (r = r1)) as [->|].
    + rewrite (dot_scaled rows rm rm' r1 s), (dot_scaled lc lm lm' r1 s) by done.
      by rewrite !Hrow.
    + rewrite (dot_other rows rm rm'), (dot_other lc lm lm'); [by apply Hrow|..];
        intros c Hc; [rewrite (proj2 Hal)|rewrite (proj2 Har)]; by rewrite ?decide_False.
  - intros r c Hr' Hc. rewrite (proj2 Har) by lia. case_decide; [subst|by apply Hu].
    rewrite (Hu r1 c), (decide_False (P := r1 = c)) by lia. by apply gf_mul_0_r.
Qed.

(** *** The loops are row operations *)

Lemma for_cols_added w m r1 r2 s g c0 :
  entries_ok w m → (r1 < rows)%nat → (r2 < rows)%nat → ok s →
  (∀ a b, ok a → ok b → g a b = Z.lxor b (mul s a)) →
  (∀ c, (c < c0)%nat → (c < w)%nat → mget w m r1 c = 0) →
  row_added w m (for_cols w r1 r2 g c0 m) r1 r2 s.
Proof.
  intros [Hl Ho] H1 H2 Hs Hg Hz. split; [apply length_for_cols|]. intros r c Hr Hc.
  rewrite (mget_for_cols w rows) by done.
  destruct (decide (r = r2)) as [->|]; [|by rewrite decide_False by naive_solver].
  case_decide as Hd; [apply Hg; auto|].
  assert (mget w m r1 c = 0) as ->; [|by rewrite gf_mul_0_r, Z.lxor_0_r].
  destruct (decide (c < c0)%nat); [by apply Hz|].
  destruct (decide (mget w m r1 c = 0)); [done|]. exfalso. apply Hd. split; [done|lia].
Qed.

Lemma for_cols_scaled w m r1 p :
  entries_ok w m → (r1 < rows)%nat → ok p → p ≠ 0 →
  row_scaled w m (for_cols w r1 r1 (λ a _, div a p) 0 m) r1 (div 1 p).
Proof.
  intros [Hl Ho] H1 Hp Hne. split; [apply length_for_cols|]. intros r c Hr Hc.
  rewrite (mget_for_cols w rows) by done.
  destruct (decide (r = r1)) as [->|]; [|by rewrite decide_False by naive_solver].
  case_decide as Hd; [apply gf_div_inv; auto|].
  assert (mget w m r1 c = 0) as ->.
  { destruct (decide (mget w m r1 c = 0)); [done|]. exfalso. apply Hd. split; [done|lia]. }
  by rewrite gf_mul_0_r by (apply gf_div_ok; auto).
Qed.

(** The right-hand half skips the columns before the pivot and stores 1. *)
Lemma scale_right rm r1 p :
  entries_ok rows rm → unit_cols r1 rm → (r1 < rows)%nat →
  p = mget rows rm r1 r1 → p ≠ 0 →
  row_scaled rows rm
    (for_cols rows r1 r1 (λ a _, div a p) (S r1) (mset rows rm r1 r1 1)) r1 (div 1 p).
Proof.
  intros [Hl Ho] Hu H1 Hp Hne. assert (ok p) as Hokp by (rewrite Hp; auto).
  assert (ok (div 1 p)) by (apply gf_div_ok; auto).
  split; [by rewrite length_for_cols, length_mset|]. intros r c Hr Hc.
  rewrite (mget_for_cols rows rows) by (rewrite ?length_mset; done).
  rewrite !(mget_mset rows rows) by done.
  destruct (decide (r = r1)) as [->|].
  2: { rewrite decide_False by naive_solver. by rewrite decide_False by naive_solver. }
  destruct (Nat.lt_trichotomy c r1) as [?|[->|?]].
  - rewrite decide_False by lia. rewrite decide_False by lia.
    rewrite (Hu r1 c), decide_False by lia. by rewrite gf_mul_0_r.
  - rewrite decide_False by lia. rewrite decide_True by done.
    rewrite <- Hp. symmetry. by apply gf_div_mul; auto.
  - rewrite !(decide_False (P := r1 = r1 ∧ c = r1)) by lia.
    case_decide as Hd; [apply gf_div_inv; auto|].
    assert (mget rows rm r1 c = 0) as ->; [|by rewrite gf_mul_0_r].
    destruct (decide (mget rows rm r1 c = 0)); [done|]. exfalso. apply Hd. split; [done|lia].
Qed.

Lemma scale_pivot_row_ok row m :
  system_ok row m → (row < rows)%nat → mget rows (snd m) row row ≠ 0 →
  let m' := scale_pivot_row div rows lc row (mget rows (snd m) row row) m in
  system_ok row m' ∧ mget rows (snd m') row row = 1.
Proof.
  destruct m as [lm rm]. intros Hsys Hrow Hne. simpl in *.
  destruct (Z.eqb_spec (mget rows rm row row) 1) as [|Hp]; [done|].
  destruct (so_right _ _ Hsys) as [Hl Ho]. simpl in *.
  pose proof (scale_right rm row _ (so_right _ _ Hsys) (so_unit _ _ Hsys) Hrow eq_refl Hne) as Hs.
  split.
  - eapply (system_scaled row lm rm _ _ row); [done|done|lia| | |exact Hs].
    + apply gf_div_ok; auto.
    + apply for_cols_scaled; auto. apply (so_left _ _ Hsys).
  - simpl. rewrite (proj2 Hs), decide_True by done. apply gf_div_mul; auto.
Qed.

(** One round of the [row2] loop: the system stays equivalent, the pivot
    column gets its zero, and the other rows are untouched. *)
Lemma eliminate_row_ok row m row2 :
  system_ok row m → (row < rows)%nat → (row2 < rows)%nat → mget rows (snd m) row row = 1 →
  let m' := eliminate_row mul rows lc row m row2 in
  system_ok row m' ∧
  ∀ r, (r < rows)%nat → mget rows (snd m') r row =
    if decide (r = row2 ∧ row2 ≠ row) then 0 else mget rows (snd m) r row.
Proof.
  destruct m as [lm rm]. intros Hsys H1 H2 Hp. simpl in *.
  destruct (Nat.eqb_spec row2 row) as [->|Hne].
  { split; [done|]. intros r Hr. rewrite decide_False by naive_solver. done. }
  pose proof (so_left _ _ Hsys) as Hl. pose proof (so_right _ _ Hsys) as Hr.
  simpl in Hl, Hr. set (s := mget rows rm row2 row).
  assert (ok s) as Hs by (apply Hr; done).
  assert (∀ g, (∀ a b, ok a → ok b → g a b = Z.lxor b (mul s a)) →
    let m' := (for_cols lc row row2 g 0 lm, for_cols rows row row2 g row rm) in
    system_ok row m' ∧ ∀ r, (r < rows)%nat → mget rows (snd m') r row =
      if decide (r = row2 ∧ row2 ≠ row) then 0 else mget rows rm r row) as Hadd.
  { intros g Hg. assert (row_added rows rm (for_cols rows row row2 g row rm) row row2 s) as Har.
    { apply for_cols_added; auto. intros c Hc Hc'.
      rewrite (so_unit _ _ Hsys) by done. by rewrite decide_False by lia. }
    split.
    - apply (system_added row lm rm _ _ row row2 s); [done..|lia|lia|done| |done].
      apply for_cols_added; auto. lia.
    - intros r Hr'. simpl. rewrite (proj2 Har) by done.
      destruct (decide (r = row2)) as [->|].
      + rewrite decide_True by done. rewrite Hp. fold s.
        rewrite (gf_mul_comm (mul := mul) s 1), (gf_mul_1_l (mul := mul) s) by auto.
        apply Z.lxor_nilpotent.
      + by rewrite decide_False by naive_solver. }
  destruct (Z.eqb_spec s 1) as [E1|]; [|destruct (Z.eqb_spec s 0) as [E0|]].
  - apply Hadd. intros a b Ha Hb. by rewrite E1, (gf_mul_1_l (mul := mul)) by done.
  - split; [done|]. intros r Hr'. simpl.
    destruct (decide (r = row2 ∧ row2 ≠ row)) as [[-> _]|]; [exact E0|reflexivity].
  - apply Hadd. intros a b Ha Hb. by rewrite (gf_mul_comm (mul := mul) s) by auto.
Qed.

Lemma eliminate_rows_ok row m n :
  system_ok row m → (row < rows)%nat → (n <= rows)%nat → mget rows (snd m) row row = 1 →
  let m' := foldl (eliminate_row mul rows lc row) m (seq 0 n) in
  system_ok row m' ∧
  ∀ r, (r < rows)%nat → mget rows (snd m') r row =
    if decide (r = row) then 1 else if decide (r < n)%nat then 0 else mget rows (snd m) r row.
Proof.
  intros Hsys H1. induction n as [|n IH]; intros Hn Hp.
  - simpl. split; [done|]. intros r Hr. destruct (decide (r = row)) as [->|]; [done|].
    destruct (decide (r < 0)%nat); [lia|done].
  - rewrite seq_S, foldl_app. simpl. destruct IH as [Hs Hc]; [lia|done|].
    destruct (eliminate_row_ok row _ n Hs H1 ltac:(lia)) as [Hs' Hc'].
    { rewrite Hc by done. by rewrite decide_True. }
    split; [done|]. intros r Hr. rewrite Hc' by done. rewrite Hc by done.
    repeat case_decide; lia || done.
Qed.

Lemma gauss_row_ok row m m' :
  system_ok row m → (row < rows)%nat → gauss_row mul div rows lc m row = Some m' →
  system_ok (S row) m'.
Proof.
  unfold gauss_row. intros Hsys H1.
  destruct (Z.eqb_spec (mget rows (snd m) row row) 0) as [|Hne]; [done|].
  intros [= <-].
  destruct (scale_pivot_row_ok row m Hsys H1 Hne) as [Hs Hp].
  destruct (eliminate_rows_ok row _ rows Hs H1 (le_n _) Hp) as [[Hl Hr Hrow Hu] Hc].
  split; [done..|]. intros r c Hr' Hlt. destruct (decide (c = row)) as [->|].
  - rewrite Hc by done. repeat case_decide; lia || done.
  - apply Hu; lia.
Qed.

Lemma gauss_rows_ok n m m' :
  system_ok 0 m → (n <= rows)%nat →
  foldl (λ om row, om ≫= λ m, gauss_row mul div rows lc m row) (Some m) (seq 0 n) = Some m' →
  system_ok n m'.
Proof.
  intros Hsys. revert m'. induction n as [|n IH]; intros m' Hn.
  - intros [= <-]. done.
  - rewrite seq_S, foldl_app. simpl.
    destruct (foldl _ _ _) as [m1|] eqn:E; [|done]. simpl. intros Hg.
    eapply gauss_row_ok; [apply IH; [lia|done]|lia|done].
Qed.

(** A solved system gives each unknown. *)
Lemma solved_row m r :
  system_ok rows m → (r < rows)%nat →
  x r = sum_upto lc (λ k, mul (mget lc (fst m) r k) (y k)).
Proof.
  intros Hsys Hr. rewrite <- (so_rows _ _ Hsys r Hr).
  rewrite (sum_upto_single _ _ r Hr).
  - rewrite (so_unit _ _ Hsys), decide_True by done. by rewrite gf_mul_1_l.
  - intros i Hi Hne. rewrite (so_unit _ _ Hsys), decide_False by done.
    by apply gf_mul_0_l.
Qed.
End elimination_correct.

(** ** The initial matrices *)

Lemma mget_mjoin w (ls : list (list Z)) r c l :
  Forall (λ l, length l = w) ls → ls !! r = Some l → (c < w)%nat →
  mget w (mjoin ls) r c = default 0 (l !! c).
Proof.
  unfold mget. intros Hf. revert r. induction Hf as [|l' ls Hl' Hf IH]; intros r Hr Hc; [done|].
  simpl. destruct r as [|r]; simpl in Hr.
  - injection Hr as ->. rewrite lookup_app_l by lia. done.
  - rewrite lookup_app_r by lia. rewrite <- (IH r Hr Hc). do 2 f_equal. lia.
Qed.

Lemma length_mjoin_rows w (ls : list (list Z)) :
  Forall (λ l, length l = w) ls → length (mjoin ls) = (length ls * w)%nat.
Proof. induction 1 as [|l ls Hl Hf IH]; simpl; [done|]. rewrite length_app. lia. Qed.

Section solve_correct.
Context (pow : Z → Z → Z) (pb mb exps : list Z).
Hypothesis enough_exps : (length mb <= length exps)%nat.
Hypothesis pow_ok : ∀ b e, b ∈ pb ++ mb → e ∈ exps → gf_ok (pow b e).

Abbreviation present := (length pb).
Abbreviation unknown := (length mb).
Abbreviation incount := (length pb + length mb)%nat.

Definition exp_at (r : nat) : Z := default 0 (exps !! r).
Definition base_at (bs : list Z) (c : nat) : Z := default 0 (bs !! c).

Lemma exp_at_in r : (r < unknown)%nat → exps !! r = Some (exp_at r).
Proof.
  intros Hr. unfold exp_at. destruct (exps !! r) eqn:E; [done|].
  apply lookup_ge_None in E. lia.
Qed.

Lemma base_at_in bs c : (c < length bs)%nat → bs !! c = Some (base_at bs c).
Proof.
  intros Hc. unfold base_at. destruct (bs !! c) eqn:E; [done|].
  apply lookup_ge_None in E. lia.
Qed.

Lemma initial_left_rows :
  Forall (λ l : list Z, length l = incount)
    (imap (λ row e, ((λ b, pow b e) <$> pb) ++
      ((λ col, if (row =? col)%nat then 1 else 0) <$> seq 0 unknown)) (take unknown exps)).
Proof.
  apply Forall_lookup. intros i l Hl. apply list_lookup_imap_Some in Hl as (e & _ & ->).
  rewrite length_app, !length_fmap, length_seq. done.
Qed.

Lemma mget_initial_left r c : (r < unknown)%nat → (c < incount)%nat →
  mget incount (initial_left pow pb unknown exps) r c =
  if decide (c < present)%nat then pow (base_at pb c) (exp_at r)
  else if decide (c = present + r)%nat then 1 else 0.
Proof.
  intros Hr Hc. unfold initial_left.
  erewrite (mget_mjoin incount); [|exact initial_left_rows| |done].
  2: { rewrite list_lookup_imap, lookup_take_lt, (exp_at_in r Hr) by done. reflexivity. }
  case_decide as Hd.
  - rewrite lookup_app_l by (rewrite length_fmap; lia).
    by rewrite list_lookup_fmap, (base_at_in pb c Hd).
  - rewrite lookup_app_r, length_fmap by (rewrite length_fmap; lia).
    rewrite list_lookup_fmap, lookup_seq_lt by lia. simpl.
    destruct (Nat.eqb_spec r (c - present)); case_decide; done || lia.
Qed.

Lemma initial_right_rows :
  Forall (λ l : list Z, length l = unknown)
    ((λ e, (λ b, pow b e) <$> mb) <$> take unknown exps).
Proof.
  apply Forall_fmap, Forall_forall. intros e _. simpl. by rewrite length_fmap.
Qed.

Lemma mget_initial_right r c : (r < unknown)%nat → (c < unknown)%nat →
  mget unknown (initial_right pow mb exps) r c = pow (base_at mb c) (exp_at r).
Proof.
  intros Hr Hc. unfold initial_right.
  erewrite (mget_mjoin unknown); [|exact initial_right_rows| |done].
  2: { rewrite list_lookup_fmap, lookup_take_lt, (exp_at_in r Hr) by done. reflexivity. }
  by rewrite list_lookup_fmap, (base_at_in mb c Hc).
Qed.

Lemma initial_entries_ok :
  entries_ok (ok := gf_ok) unknown incount (initial_left pow pb unknown exps) ∧
  entries_ok (ok := gf_ok) unknown unknown (initial_right pow mb exps).
Proof.
  split; split.
  - unfold initial_left. rewrite (length_mjoin_rows incount) by exact initial_left_rows.
    rewrite length_imap, length_take. f_equal. lia.
  - intros r c Hr Hc. rewrite mget_initial_left by done.
    repeat case_decide; auto with gf. apply pow_ok.
    + apply elem_of_app. left. eapply list_elem_of_lookup_2, base_at_in. done.
    + eapply list_elem_of_lookup_2, exp_at_in. done.
  - unfold initial_right. rewrite (length_mjoin_rows unknown) by exact initial_right_rows.
    rewrite length_fmap, length_take. f_equal. lia.
  - intros r c Hr Hc. rewrite mget_initial_right by done. apply pow_ok.
    + apply elem_of_app. right. eapply list_elem_of_lookup_2, base_at_in. done.
    + eapply list_elem_of_lookup_2, exp_at_in. done.
Qed.

(** The words of the present blocks, the missing blocks and the recovery
    slices at one offset; a recovery slice is the sum of every block times
    its base to the slice's exponent. *)
Context (data missing recovery : nat → Z).
Hypothesis data_ok : ∀ i, gf_ok (data i).
Hypothesis missing_ok : ∀ i, gf_ok (missing i).
Hypothesis recovery_ok : ∀ i, gf_ok (recovery i).

Abbreviation mul := (gf16_mul gf16_ready).
Abbreviation div := (gf16_div gf16_ready).

Definition recovery_word (r : nat) : Z :=
  Z.lxor (sum_upto present (λ c, mul (pow (base_at pb c) (exp_at r)) (data c)))
         (sum_upto unknown (λ c, mul (pow (base_at mb c) (exp_at r)) (missing c))).

Definition input_word (c : nat) : Z :=
  if decide (c < present)%nat then data c else recovery (c - present)%nat.

Hypothesis recovery_def : ∀ r, (r < unknown)%nat → recovery r = recovery_word r.

Lemma input_word_ok i : gf_ok (input_word i).
Proof. unfold input_word. case_decide; auto. Qed.

Lemma initial_system_ok :
  system_ok (ok := gf_ok) (mul := mul) unknown incount missing input_word 0
    (initial_left pow pb unknown exps, initial_right pow mb exps).
Proof.
  destruct initial_entries_ok as [Hl Hr]. split; [done|done| |intros r c ? ?; lia].
  intros r Hr'. unfold row_holds. cbn [fst snd].
  rewrite (sum_upto_ext unknown _ (λ c, mul (pow (base_at mb c) (exp_at r)) (missing c)))
    by (intros; by rewrite mget_initial_right).
  match goal with |- ?l = _ => set (lhs := l) end. rewrite sum_upto_add.
  rewrite (sum_upto_ext present _ (λ c, mul (pow (base_at pb c) (exp_at r)) (data c))).
  2: { intros c Hc. rewrite mget_initial_left by lia. unfold input_word.
       by rewrite !decide_True. }
  rewrite (sum_upto_single unknown _ r Hr').
  - cbv beta. rewrite mget_initial_left by lia. unfold input_word.
    rewrite decide_False, decide_True, decide_False by lia.
    replace (present + r - present)%nat with r by lia.
    rewrite (gf_mul_1_l (recovery r) (recovery_ok r)), (recovery_def r Hr'). unfold recovery_word.
    subst lhs. by rewrite lxor_cancel_l.
  - intros c Hc Hne. rewrite mget_initial_left by lia.
    rewrite !decide_False by lia. done.
Qed.

Lemma solve_recovers coeffs r :
  solve mul div pow pb mb exps = Some coeffs → (r < unknown)%nat →
  missing r = sum_upto incount (λ c, mul (mget incount coeffs r c) (input_word c)).
Proof.
  unfold solve. destruct (Nat.eqb_spec unknown 0); [lia|].
  destruct (gauss_elim _ _ _ _ _ _) as [[lm rm]|] eqn:E; [|done]. intros [= <-] Hr.
  pose proof (gauss_rows_ok unknown incount missing input_word missing_ok input_word_ok
    unknown _ _ initial_system_ok (le_n _) E) as Hs.
  exact (solved_row _ _ _ _ missing_ok _ r Hs Hr).
Qed.

Lemma solve_coeffs_ok coeffs r c :
  solve mul div pow pb mb exps = Some coeffs → (r < unknown)%nat → (c < incount)%nat →
  gf_ok (mget incount coeffs r c).
Proof.
  unfold solve. destruct (Nat.eqb_spec unknown 0); [lia|].
  destruct (gauss_elim _ _ _ _ _ _) as [[lm rm]|] eqn:E; [|done]. intros [= <-] Hr Hc.
  pose proof (gauss_rows_ok unknown incount missing input_word missing_ok input_word_ok
    unknown _ _ initial_system_ok (le_n _) E) as [[_ Hl] _ _ _].
  by apply Hl.
Qed.
End solve_correct.

(** ** The byte loops *)

Fixpoint words (l : list byte) : list Z :=
  match l with
  | lo :: hi :: l => le16 lo hi :: words l
  | _ => []
  end.

Lemma le16_eq lo hi : le16 lo hi = b2z lo + 256 * b2z hi.
Proof. apply lor_byte, b2z_range. Qed.

Lemma le16_ok lo hi : gf_ok (le16 lo hi).
Proof. rewrite le16_eq. pose proof (b2z_range lo). pose proof (b2z_range hi). unfold gf_ok. lia. Qed.

(** Storing the two halves of a 16-bit value and reading them back. *)
Lemma le16_split v : gf_ok v → le16 (z2b (Z.land v 0xff)) (z2b (Z.shiftr v 8)) = v.
Proof.
  intros Hv. rewrite le16_eq.
  assert (Z.land v 0xff = v mod 256) as -> by exact (Z.land_ones v 8 ltac:(lia)).
  rewrite Z.shiftr_div_pow2 by lia. change (2 ^ 8) with 256.
  rewrite !b2z_z2b, Z.mod_mod by lia. unfold gf_ok in Hv.
  rewrite (Z.mod_small (v / 256)) by (split; [apply Z.div_pos|apply Z.div_lt_upper_bound]; lia).
  rewrite (Z.div_mod v 256) at 3 by lia. lia.
Qed.

Lemma words_ok l : Forall gf_ok (words l).
Proof.
  assert (∀ n l, (length l <= n)%nat → Forall gf_ok (words l)) as H; [|by apply (H (length l))].
  induction n as [|n IH]; intros [|a [|b m]] Hl; simpl in *; try constructor; try lia.
  - apply le16_ok.
  - apply IH. lia.
Qed.

(** The two bytes of a 16-bit value are its only ones. *)
Lemma le16_inj a b c d : le16 a b = le16 c d → a = c ∧ b = d.
Proof.
  rewrite !le16_eq. intros H.
  pose proof (b2z_range a). pose proof (b2z_range b). pose proof (b2z_range c). pose proof (b2z_range d).
  assert (b2z a = b2z c ∧ b2z b = b2z d) as [Hac Hbd] by lia.
  split; [rewrite <- (z2b_b2z a), <- (z2b_b2z c)|rewrite <- (z2b_b2z b), <- (z2b_b2z d)]; congruence.
Qed.

Lemma words_lookup l w :
  (2 * w + 1 < length l)%nat →
  words l !! w = Some (le16 (nth (2 * w) l x00) (nth (2 * w + 1) l x00)).
Proof.
  revert l. induction w as [|w IH]; intros [|a [|b l]] Hl; simpl in Hl; try lia; [done|].
  simpl words. rewrite lookup_cons_ne_0 by done. simpl pred. rewrite IH by lia.
  by replace (2 * S w)%nat with (S (S (2 * w))) by lia.
Qed.

Lemma words_inj l l' :
  length l = length l' → Nat.Even (length l) → words l = words l' → l = l'.
Proof.
  assert (∀ n l l', (length l <= n)%nat → length l = length l' → Nat.Even (length l) →
    words l = words l' → l = l') as H; [|by apply (H (length l))].
  clear. induction n as [|n IH]; intros [|a [|b l]] [|c [|d l']] Hn Hl [k He] Hw;
    simpl in Hn, Hl, He; try done; try lia.
  simpl in Hw. injection Hw as Hab Hw. apply le16_inj in Hab as [-> ->]. do 2 f_equal.
  apply IH; [lia|lia| |done]. exists (pred k). lia.
Qed.

Lemma length_mul_acc t dst src f : length (gf16_mul_acc t dst src f) = length dst.
Proof.
  unfold gf16_mul_acc. destruct (f =? 0); [done|].
  assert (∀ n dst src, (length dst <= n)%nat →
    length (mul_acc_loop t dst src f) = length dst) as H; [|by apply (H (length dst))].
  induction n as [|n IH]; intros [|a [|b m]] [|c [|d k]] Hl; simpl in *; try done; try lia.
  rewrite IH; lia.
Qed.

Lemma mul_acc_words dst src f :
  gf_ok f → (length dst <= length src)%nat →
  words (gf16_mul_acc gf16_ready dst src f) =
  zip_with (λ d s, Z.lxor d (gf16_mul gf16_ready s f)) (words dst) (words src).
Proof.
  intros Hf. unfold gf16_mul_acc.
  assert (∀ n dst src, (length dst <= n)%nat → (length dst <= length src)%nat →
    words (mul_acc_loop gf16_ready dst src f) =
    zip_with (λ d s, Z.lxor d (gf16_mul gf16_ready s f)) (words dst) (words src)) as H.
  { induction n as [|n IH]; intros [|a [|b m]] [|c [|d k]] Hn Hl; simpl in *;
      try done; try lia.
    rewrite le16_split.
    - rewrite IH by lia. done.
    - apply gf_ok_lxor; [apply le16_ok|]. apply gf16_mul_ok_ready; [apply le16_ok|done]. }
  intros Hl. destruct (Z.eqb_spec f 0) as [->|]; [|by eapply H].
  assert (∀ n dst src, (length dst <= n)%nat → (length dst <= length src)%nat →
    words dst = zip_with (λ d s, Z.lxor d (gf16_mul gf16_ready s 0)) (words dst) (words src)) as H0.
  { clear. induction n as [|n IH]; intros [|a [|b m]] [|c [|d k]] Hn Hl; simpl in *;
      try done; try lia.
    rewrite gf16_mul_0_r, Z.lxor_0_r, <- IH by lia. done. }
  by apply (H0 (length dst)).
Qed.

(** ** The Vandermonde bases *)

Lemma gcd_loop_spec fuel a b :
  0 <= a → 0 <= b → a + b <= Z.of_nat fuel →
  let '(a', b') := gcd_loop fuel a b in a' + b' = Z.gcd a b.
Proof.
  revert a b. induction fuel as [|fuel IH]; intros a b Ha Hb Hf; simpl.
  { assert (a = 0) as -> by lia. assert (b = 0) as -> by lia. done. }
  destruct (Z.eqb_spec a 0) as [->|]; simpl; [rewrite Z.gcd_0_l_nonneg; lia|].
  destruct (Z.eqb_spec b 0) as [->|]; simpl; [rewrite Z.gcd_0_r_nonneg; lia|].
  destruct (Z.ltb_spec b a).
  - pose proof (Z.mod_pos_bound a b ltac:(lia)).
    specialize (IH (a mod b) b ltac:(lia) ltac:(lia) ltac:(lia)).
    destruct (gcd_loop fuel (a mod b) b). by rewrite IH, Z.gcd_mod_l.
  - pose proof (Z.mod_pos_bound b a ltac:(lia)).
    specialize (IH a (b mod a) ltac:(lia) ltac:(lia) ltac:(lia)).
    destruct (gcd_loop fuel a (b mod a)). by rewrite IH, Z.gcd_comm, Z.gcd_mod_l, Z.gcd_comm.
Qed.

Lemma gf16_gcd_spec a b : 0 < a → 0 < b → gf16_gcd a b = Z.gcd a b.
Proof.
  intros Ha Hb. unfold gf16_gcd.
  rewrite (proj2 (Z.eqb_neq a 0)), (proj2 (Z.eqb_neq b 0)) by lia. simpl.
  pose proof (gcd_loop_spec (Z.to_nat (a + b)) a b ltac:(lia) ltac:(lia) ltac:(lia)) as H.
  by destruct (gcd_loop _ a b).
Qed.

(** A positive exponent coprime to the order: x to it generates the field. *)
Definition coprime_exp (l : Z) : Prop := 0 < l ∧ Z.coprime GF_LIMIT l.

Lemma gcd_test l : 0 <= l → (gf16_gcd GF_LIMIT l =? 1) = true ↔ coprime_exp l.
Proof.
  intros Hl. unfold coprime_exp, Z.coprime. destruct (decide (l = 0)) as [->|].
  - split; [done|lia].
  - rewrite gf16_gcd_spec by (unfold GF_LIMIT; lia). rewrite Z.eqb_eq. naive_solver lia.
Qed.

Lemma coprime_search_spec fuel l :
  0 <= l → coprime_exp (l + Z.of_nat fuel) →
  let l' := coprime_search fuel l in
  l <= l' <= l + Z.of_nat fuel ∧ coprime_exp l' ∧
  ∀ k, l <= k < l' → ¬ coprime_exp k.
Proof.
  revert l. induction fuel as [|fuel IH]; intros l Hl Hc; simpl.
  - rewrite Z.add_0_r in Hc. split_and!; [lia|lia|done|lia].
  - destruct (gf16_gcd GF_LIMIT l =? 1) eqn:E.
    + apply gcd_test in E; [|done]. split_and!; [lia|lia|done|lia].
    + assert (¬ coprime_exp l) as Hn by (rewrite <- gcd_test by done; by rewrite E).
      destruct (IH (l + 1)) as (Hr & Hc' & Hm); [lia|by replace (l + 1 + Z.of_nat fuel)
        with (l + Z.of_nat (S fuel)) by lia|].
      split_and!; [lia|lia|done|]. intros k Hk. destruct (decide (k = l)) as [->|]; [done|].
      apply Hm. lia.
Qed.

Lemma coprime_65536 : coprime_exp GF_COUNT.
Proof. split; [done|]. vm_compute. reflexivity. Qed.

(** One call, for a state the counter can have. *)
Lemma gf16_next_base_spec s :
  0 <= s <= GF_LIMIT →
  match gf16_next_base gf16_ready s with
  | Some (s', b) =>
    ∃ l, s <= l < GF_LIMIT ∧ coprime_exp l ∧ (∀ k, s <= k < l → ¬ coprime_exp k) ∧
      s' = l + 1 ∧ b = x_pow (Z.to_nat l)
  | None => ∀ k, s <= k < GF_LIMIT → ¬ coprime_exp k
  end.
Proof.
  intros Hs. unfold gf16_next_base.
  destruct (coprime_search_spec (Z.to_nat (GF_COUNT - s)) s) as (Hr & Hc & Hm).
  - lia.
  - rewrite Z2Nat.id by (unfold GF_LIMIT, GF_COUNT in *; lia).
    replace (s + (GF_COUNT - s)) with GF_COUNT by lia. apply coprime_65536.
  - set (l := coprime_search _ _) in *. clearbody l. destruct (Z.leb_spec GF_LIMIT l).
    + intros k Hk. apply Hm. lia.
    + exists l. split; [lia|]. split; [exact Hc|]. split; [exact Hm|]. split; [reflexivity|].
      pose proof gf_order_Z as HZ.
      assert (Z.to_nat l < gf_order)%nat as Hl by lia.
      pose proof (antilog_ready (Z.to_nat l) Hl) as HA.
      rewrite Z2Nat.id in HA by lia. exact HA.
Qed.

(** A base is a generator: its powers below the order are distinct. *)
Lemma coprime_pow_inj l i j :
  coprime_exp l → (i < gf_order)%nat → (j < gf_order)%nat →
  x_pow (Z.to_nat l * i) = x_pow (Z.to_nat l * j) → i = j.
Proof.
  intros [Hl Hc]. revert i j.
  assert (∀ i j, (i <= j < gf_order)%nat →
    x_pow (Z.to_nat l * i) = x_pow (Z.to_nat l * j) → i = j) as H.
  2: { intros i j Hi Hj He. destruct (Nat.le_ge_cases i j); [|symmetry]; apply H; done || lia. }
  intros i j Hij He. rewrite <- (x_pow_mod (_ * i)), <- (x_pow_mod (_ * j)) in He.
  pose proof gf_order_pos as Hpos. pose proof gf_order_Z as HZ.
  assert (gf_order ≠ 0%nat) as Hne by (intros H0; rewrite H0 in Hpos; lia).
  apply x_pow_inj in He; [|exact (Nat.mod_upper_bound _ _ Hne)..].
  clear Hne. revert Hpos HZ He Hij. generalize gf_order. intros N Hpos HZ He Hij.
  apply (f_equal Z.of_nat) in He. rewrite !Nat2Z.inj_mod, !Nat2Z.inj_mul, Z2Nat.id, HZ in He by lia.
  assert (GF_LIMIT | l * (Z.of_nat j - Z.of_nat i)) as Hd.
  { apply Z.mod_divide; [done|].
    replace (l * (Z.of_nat j - Z.of_nat i)) with (l * Z.of_nat j - l * Z.of_nat i) by lia.
    rewrite Zminus_mod, He, Z.sub_diag. done. }
  apply Z.gauss in Hd; [|exact Hc]. destruct Hd as [q Hq]. unfold GF_LIMIT in *. nia.
Qed.

Lemma gf16_pow_ok b e : gf_ok b → 0 <= e < 65536 → gf_ok (gf16_pow gf16_ready b e).
Proof.
  intros Hb He. destruct (decide (e = 0)) as [->|]; [apply gf_ok_1|].
  gf_case b.
  - unfold gf16_pow. rewrite (proj2 (Z.eqb_neq e 0)) by lia. apply gf_ok_0.
  - rewrite gf16_pow_x_pow by (assumption || lia). apply x_pow_ok.
Qed.

Lemma gf16_pow_nonzero b e :
  gf_ok b → b ≠ 0 → 0 <= e < 65536 → gf16_pow gf16_ready b e ≠ 0.
Proof.
  intros Hb Hne He. destruct (decide (e = 0)) as [->|]; [done|].
  gf_case b; [done|]. rewrite gf16_pow_x_pow by (assumption || lia). apply x_pow_nonzero.
Qed.

(** ** Properties *)

(** C2: repair is right whenever the solver answers. Take any blocks (one word
    of each, at one offset) and recovery slices that are the PAR2 sums of all
    blocks, each times its base to the slice's exponent. If [gf16_solve] does
    not return -1, the words of the missing blocks are exactly the
    combinations of the present words and the recovery words that its
    coefficients prescribe. *)
Theorem gf16_solve_recovers_missing pb mb exps data missing recovery coeffs r :
  Forall gf_ok pb → Forall gf_ok mb → Forall (λ e, 0 <= e < 65536) exps →
  (length mb <= length exps)%nat →
  (∀ i, gf_ok (data i)) → (∀ i, gf_ok (missing i)) → (∀ i, gf_ok (recovery i)) →
  (∀ r, (r < length mb)%nat →
    recovery r = recovery_word (gf16_pow gf16_ready) pb mb exps data missing r) →
  gf16_solve pb mb exps = Some coeffs → (r < length mb)%nat →
  missing r = sum_upto (length pb + length mb)
    (λ c, gf16_mul gf16_ready (mget (length pb + length mb) coeffs r c)
                              (input_word pb data recovery c)).
Proof.
  intros Hpb Hmb He Hlen Hd Hm Hrec Hdef Hs Hr.
  eapply (solve_recovers (gf16_pow gf16_ready)); eauto.
  intros b e Hb Hin. rewrite Forall_forall in He. apply gf16_pow_ok; [|by apply He].
  assert (Forall gf_ok (pb ++ mb)) as Hall by (by apply Forall_app).
  rewrite Forall_forall in Hall. by apply Hall.
Qed.

Lemma gf16_solve_recovers_missing_witness :
  gf16_solve [2] [4] [0] = Some [1; 1] ∧
  5 = sum_upto 2 (λ c, gf16_mul gf16_ready (mget 2 [1; 1] 0 c)
        (input_word [2] (λ _, 3) (λ _, 6) c)).
Proof.
  assert (gf16_solve [2] [4] [0] = Some [1; 1]) as Hs by reflexivity.
  assert (∀ z, z ∈ [2; 4; 3; 5; 6] → gf_ok z) as Hok.
  { intros z Hz. repeat (apply elem_of_cons in Hz as [->|Hz]; [unfold gf_ok; lia|]).
    by apply elem_of_nil in Hz. }
  split; [exact Hs|].
  apply (gf16_solve_recovers_missing [2] [4] [0] (λ _, 3) (λ _, 5) (λ _, 6) [1; 1] 0).
  - repeat constructor; apply Hok; set_solver.
  - repeat constructor; apply Hok; set_solver.
  - repeat constructor; lia.
  - simpl. lia.
  - intros _. apply Hok. set_solver.
  - intros _. apply Hok. set_solver.
  - intros _. apply Hok. set_solver.
  - intros r Hr. simpl in Hr. assert (r = 0%nat) as -> by lia.
    assert (∀ a b, gf_ok a → gf_ok b →
      recovery_word (gf16_pow gf16_ready) [2] [4] [0] (λ _, a) (λ _, b) 0 = Z.lxor a b) as Hw.
    { intros a b Ha Hb. unfold recovery_word, sum_upto. cbn [length seq foldr].
      change (gf16_pow gf16_ready (base_at [2] 0) (exp_at [0] 0)) with 1.
      change (gf16_pow gf16_ready (base_at [4] 0) (exp_at [0] 0)) with 1.
      rewrite (gf_mul_1_l a Ha), (gf_mul_1_l b Hb). by rewrite !Z.lxor_0_r. }
    rewrite (Hw 3 5); [reflexivity|apply Hok; set_solver|apply Hok; set_solver].
  - exact Hs.
  - simpl. lia.
Defined.

(** A single missing block with a non-zero base is always solvable: the
    solver cannot report a singular matrix for it. *)
Theorem gf16_solve_single_block pb b e exps :
  gf_ok b → b ≠ 0 → 0 <= e < 65536 →
  ∃ coeffs, gf16_solve pb [b] (e :: exps) = Some coeffs ∧
    length coeffs = (length pb + 1)%nat.
Proof.
  intros Hb Hne He. unfold gf16_solve, solve. cbn [length Nat.eqb].
  pose proof (gf16_pow_nonzero b e Hb Hne He) as Hp.
  unfold gauss_elim. cbn [seq foldl mbind option_bind]. unfold gauss_row.
  assert (mget 1 (initial_right (gf16_pow gf16_ready) [b] (e :: exps)) 0 0 =
    gf16_pow gf16_ready b e) as Hm by done.
  cbn [snd]. rewrite Hm. rewrite (proj2 (Z.eqb_neq _ _) Hp).
  cbn [seq foldl]. unfold scale_pivot_row.
  assert (length (initial_left (gf16_pow gf16_ready) pb 1 (e :: exps)) = (length pb + 1)%nat) as Hl.
  { unfold initial_left. cbn. by rewrite !length_app, length_fmap. }
  destruct (gf16_pow gf16_ready b e =? 1); eexists; (split; [reflexivity|]).
  - exact Hl.
  - cbn. by rewrite length_for_cols.
Qed.

Lemma gf16_solve_single_block_witness :
  (gf_ok 2 ∧ 2 ≠ 0) ∧
  ∃ coeffs, gf16_solve [4; 16] [2] [7] = Some coeffs ∧ length coeffs = 3%nat.
Proof.
  assert (gf_ok 2) as H2 by (unfold gf_ok; lia).
  assert (2 ≠ 0) as Hne by lia.
  split; [split; [exact H2|exact Hne]|].
  exact (gf16_solve_single_block [4; 16] 2 7 [] H2 Hne ltac:(lia)).
Defined.

(** [gf16_mul_acc] on buffers of even length adds [factor] times each
    little-endian word of the source to the word of the destination and
    touches nothing else: the lengths agree and each word is
    [dst ^ src * factor]. *)
Theorem gf16_mul_acc_words dst src factor :
  gf_ok factor → length dst = length src →
  words (gf16_mul_acc gf16_ready dst src factor) =
    zip_with (λ d s, Z.lxor d (gf16_mul gf16_ready s factor)) (words dst) (words src) ∧
  length (gf16_mul_acc gf16_ready dst src factor) = length dst.
Proof.
  intros Hf Hl. split; [apply mul_acc_words; [done|lia]|apply length_mul_acc].
Qed.

Lemma gf16_mul_acc_words_witness :
  gf_ok 1 ∧
  words (gf16_mul_acc gf16_ready [x01; x02] [x04; x08] 1) = [0x0A05].
Proof.
  assert (gf_ok 1) as H1 by apply gf_ok_1. split; [exact H1|].
  rewrite (proj1 (gf16_mul_acc_words [x01; x02] [x04; x08] 1 H1 eq_refl)).
  cbn [words zip_with]. 

  assert (∀ s, gf_ok s → gf16_mul gf16_ready s 1 = s) as E.
  { intros s Hs. rewrite (gf_mul_comm s 1 Hs H1). apply (gf_mul_1_l s Hs). }
  rewrite (E (le16 x04 x08) (le16_ok x04 x08)). reflexivity.
Defined.
