(* ===== verification/Par2.v ===== *)
(** * PAR2 recovery sets: packets, layout, verification ([par2/par2.c])

    The packets of every *.par2 file of a directory are parsed into one
    [par2_set]; [finalize_layout] numbers the blocks; [par2_verify_file]
    checks a file against it. MD5 is OpenSSL's: a parameter. Memory
    allocation is taken to succeed. *)

From Stdlib Require Import ZArith Lia List.
From Stdlib Require Import Strings.Byte Strings.String.
From stdpp Require Import base list gmap.
From S2P Require Import Prelude Crc32.

Definition PACKET_HEADER_SIZE : nat := 64.
Definition MAX_CRITICAL_PACKET_BODY : Z := 16 * 1024 * 1024.
Definition VERIFY_READ_CHUNK : nat := Z.to_nat 65536.

Definition PACKET_MAGIC : list byte := $ "PAR2" ++ [x00] ++ $ "PKT".
Definition TYPE_MAIN : list byte := $ "PAR 2.0" ++ [x00] ++ $ "Main" ++ [x00; x00; x00; x00].
Definition TYPE_FILEDESC : list byte := $ "PAR 2.0" ++ [x00] ++ $ "FileDesc".
Definition TYPE_IFSC : list byte := $ "PAR 2.0" ++ [x00] ++ $ "IFSC" ++ [x00; x00; x00; x00].
Definition TYPE_RECOVERY : list byte := $ "PAR 2.0" ++ [x00] ++ $ "RecvSlic".

(** [p + off], [len] bytes: what [memcpy] and [memcmp] read. *)
Definition bytes_at (off len : nat) (l : list byte) : list byte := take len (drop off l).

Definition byte_at (l : list byte) (i : nat) : Z := b2z (nth i l x00).

(** [for (i = 7; i >= 0; i--) v = (v << 8) | p[i];] *)
Definition read_le64 (p : list byte) : Z :=
  foldl (λ v i, Z.lor (u64 (Z.shiftl v 8)) (byte_at p i)) 0 (rev (seq 0 8)).

Definition read_le32 (p : list byte) : Z :=
  Z.lor (Z.lor (Z.lor (byte_at p 0) (Z.shiftl (byte_at p 1) 8))
               (Z.shiftl (byte_at p 2) 16)) (Z.shiftl (byte_at p 3) 24).

Record par2_file := Par2File {
  pf_name : cstr;
  pf_fileid : list byte;
  pf_hash_full : list byte;
  pf_hash_16k : list byte;
  pf_length : Z;
  pf_block_md5 : option (list (list byte));
  pf_block_crc32 : list Z;
  pf_block_count : Z;
  pf_in_recovery_set : bool;
  pf_global_block_start : Z
}.

Record par2_slice := Par2Slice {
  sl_path : cstr;
  sl_data_offset : Z;
  sl_data_len : Z;
  sl_exponent : Z;
  sl_hash : list byte;
  sl_header_tail : list byte
}.

Record par2_set := Par2Set {
  ps_block_size : Z;
  ps_files : list par2_file;
  ps_slices : list par2_slice;
  ps_source_block_count : Z;
  ps_main_fileids : option (list (list byte));
  ps_main_recoverable_count : nat
}.

(** [calloc(1, sizeof *set)] *)
Definition empty_set : par2_set := Par2Set 0 [] [] 0 None 0.

Definition with_files (s : par2_set) (fs : list par2_file) : par2_set :=
  Par2Set (ps_block_size s) fs (ps_slices s) (ps_source_block_count s)
    (ps_main_fileids s) (ps_main_recoverable_count s).

(** [memset] to 0 and the file id. *)
Definition fresh_file (fileid : list byte) : par2_file :=
  Par2File [] fileid (replicate 16 x00) (replicate 16 x00) 0 None [] 0 false 0.

(** The index of the first file with this id, shared by [set_find_or_add_file]
    and [find_file_by_id]. *)
Fixpoint file_index (fs : list par2_file) (fileid : list byte) : option nat :=
  match fs with
  | [] => None
  | f :: fs => if decide (pf_fileid f = fileid) then Some O else S <$> file_index fs fileid
  end.

(** The set in which the file exists, and its position. *)
Definition set_find_or_add_file (s : par2_set) (fileid : list byte) : par2_set * nat :=
  match file_index (ps_files s) fileid with
  | Some i => (s, i)
  | None => (with_files s (ps_files s ++ [fresh_file fileid]), length (ps_files s))
  end.

Definition chunks16 (total : nat) (l : list byte) : list (list byte) :=
  (λ i, bytes_at (i * 16) 16 l) <$> seq 0 total.

Definition handle_main_packet (s : par2_set) (body : list byte) : par2_set :=
  if (length body <? 12)%nat then s
  else
    let s :=
      if ps_block_size s =? 0 then
        let bs := s64 (read_le64 body) in
        if (0 <? bs) && (Z.land bs 3 =? 0)
        then Par2Set bs (ps_files s) (ps_slices s) (ps_source_block_count s)
               (ps_main_fileids s) (ps_main_recoverable_count s)
        else s
      else s in
    match ps_main_fileids s with
    | Some _ => s
    | None =>
      let recoverable := read_le32 (drop 8 body) in
      let total := ((length body - 12) / 16)%nat in
      if Z.of_nat total <? recoverable then s
      else Par2Set (ps_block_size s) (ps_files s) (ps_slices s) (ps_source_block_count s)
             (Some (chunks16 total (drop 12 body))) (Z.to_nat recoverable)
    end.

Definition handle_filedesc_packet (s : par2_set) (body : list byte) : par2_set :=
  if (length body <? 56)%nat then s
  else
    let '(s, i) := set_find_or_add_file s (bytes_at 0 16 body) in
    let name_len := Nat.min (length body - 56) 511 in
    with_files s (alter (λ f,
      Par2File (c_str (bytes_at 56 name_len body)) (pf_fileid f)
        (bytes_at 16 16 body) (bytes_at 32 16 body) (s64 (read_le64 (drop 48 body)))
        (pf_block_md5 f) (pf_block_crc32 f) (pf_block_count f)
        (pf_in_recovery_set f) (pf_global_block_start f)) i (ps_files s)).

Definition ifsc_entry (body : list byte) (i : nat) : list byte := bytes_at (16 + i * 20) 20 body.

Definition handle_ifsc_packet (s : par2_set) (body : list byte) : par2_set :=
  if (length body <? 16)%nat then s
  else
    let entry_count := ((length body - 16) / 20)%nat in
    if (entry_count =? 0)%nat then s
    else
      let '(s, i) := set_find_or_add_file s (bytes_at 0 16 body) in
      let entries := ifsc_entry body <$> seq 0 entry_count in
      with_files s (alter (λ f,
        Par2File (pf_name f) (pf_fileid f) (pf_hash_full f) (pf_hash_16k f) (pf_length f)
          (Some (take 16 <$> entries)) ((λ e, read_le32 (drop 16 e)) <$> entries)
          (Z.of_nat entry_count) (pf_in_recovery_set f) (pf_global_block_start f)) i (ps_files s)).

Definition append_slice (s : par2_set) (path : cstr) (data_offset data_len exponent : Z)
    (hash header_tail : list byte) : par2_set :=
  Par2Set (ps_block_size s) (ps_files s)
    (ps_slices s ++ [Par2Slice (str_fit 900 path) data_offset data_len exponent hash header_tail])
    (ps_source_block_count s) (ps_main_fileids s) (ps_main_recoverable_count s).

(** ** Streams: a file's bytes and the position of the [FILE] *)

(** [fread(buf, 1, n, f)]: the bytes read; fewer than [n] at the end. *)
Definition fread (data : list byte) (pos : Z) (n : nat) : list byte :=
  if Z.of_nat (length data) <=? pos then [] else take n (drop (Z.to_nat pos) data).

(** [fseek(f, off, SEEK_CUR)]: [None] when the new position is negative or not
    representable; a position past the end is allowed. *)
Definition fseek_cur (pos off : Z) : option Z :=
  let p := pos + off in
  if (0 <=? p) && (p <? 2 ^ 63) then Some p else None.

(** [Some (set, pos)] on 0, [None] on -1. [body_len] is a [size_t]. *)
Definition handle_recovery_packet (s : par2_set) (path : cstr) (data : list byte) (pos : Z)
    (body_len : Z) (hash header_tail : list byte) : option (par2_set * Z) :=
  if body_len <? 4 then
    if body_len =? 0 then Some (s, pos) else (λ p, (s, p)) <$> fseek_cur pos (s64 body_len)
  else
    let expbuf := fread data pos 4 in
    if (length expbuf <? 4)%nat then None
    else
      let data_offset := pos + 4 in
      let data_len := s64 (body_len - 4) in
      let s := append_slice s path data_offset data_len (read_le32 expbuf) hash header_tail in
      if data_len =? 0 then Some (s, data_offset)
      else (λ p, (s, p)) <$> fseek_cur data_offset (s64 data_len).

Section packets.
(** [EVP_md5] over a byte string. *)
Context (md5 : list byte → list byte).

Definition md5_of_two (a b : list byte) : list byte := md5 (a ++ b).

(** The part of the loop body of [parse_par2_file] after the header checks:
    [pos] is behind the header. [inl] is [continue], [inr] is [break]. *)
Definition parse_body (path : cstr) (data : list byte) (s : par2_set) (header : list byte)
    (body_len pos : Z) : (par2_set * Z) + par2_set :=
  let type := bytes_at 48 16 header in
  if decide (type = TYPE_RECOVERY) then
    match handle_recovery_packet s path data pos body_len
            (bytes_at 16 16 header) (bytes_at 32 32 header) with
    | Some r => inl r
    | None => inr s
    end
  else if negb (bool_decide (type ∈ [TYPE_MAIN; TYPE_FILEDESC; TYPE_IFSC])) then
    if body_len =? 0 then inl (s, pos)
    else match fseek_cur pos (s64 body_len) with
         | Some pos => inl (s, pos)
         | None => inr s
         end
  else if MAX_CRITICAL_PACKET_BODY <? body_len then inr s
  else
    let body := fread data pos (Z.to_nat body_len) in
    if Z.of_nat (length body) <? body_len then inr s
    else
      let pos := pos + body_len in
      if negb (bool_decide (md5_of_two (bytes_at 32 32 header) body = bytes_at 16 16 header))
      then inl (s, pos)
      else if decide (type = TYPE_MAIN) then inl (handle_main_packet s body, pos)
      else if decide (type = TYPE_FILEDESC) then inl (handle_filedesc_packet s body, pos)
      else inl (handle_ifsc_packet s body, pos).

(** One iteration of the loop. *)
Definition parse_packet (path : cstr) (data : list byte) (s : par2_set) (pos : Z)
    : (par2_set * Z) + par2_set :=
  let header := fread data pos PACKET_HEADER_SIZE in
  if (length header <? PACKET_HEADER_SIZE)%nat then inr s
  else if negb (bool_decide (bytes_at 0 8 header = PACKET_MAGIC)) then inr s
  else
    let length_ := read_le64 (drop 8 header) in
    if length_ <? Z.of_nat PACKET_HEADER_SIZE then inr s
    else parse_body path data s header (length_ - Z.of_nat PACKET_HEADER_SIZE)
           (pos + Z.of_nat PACKET_HEADER_SIZE).

(** The loop; [None] when the fuel does not suffice. *)
Fixpoint parse_loop (fuel : nat) (path : cstr) (data : list byte) (s : par2_set) (pos : Z)
    : option par2_set :=
  match fuel with
  | O => None
  | S fuel =>
    match parse_packet path data s pos with
    | inl (s, pos) => parse_loop fuel path data s pos
    | inr s => Some s
    end
  end.

(** [parse_par2_file] on a file that can be opened. *)
Definition parse_par2_file (fuel : nat) (s : par2_set) (path : cstr) (data : list byte)
    : option par2_set := parse_loop fuel path data s 0.
End packets.

(** ** The layout *)

Definition find_file_by_id (s : par2_set) (fileid : list byte) : option nat :=
  file_index (ps_files s) fileid.

(** One iteration of the loop of [finalize_layout]: the files and [running]. *)
Definition layout_step (block_size : Z) (st : list par2_file * Z) (fileid : list byte)
    : list par2_file * Z :=
  let '(fs, running) := st in
  match file_index fs fileid with
  | None => (fs, running)
  | Some i =>
    match fs !! i with
    | None => (fs, running)
    | Some pf =>
      let bc := pf_block_count pf in
      let bc := if bc <=? 0 then Z.quot (s64 (pf_length pf + block_size - 1)) block_size else bc in
      if bc <=? 0 then (fs, running)
      else
        (alter (λ f,
           Par2File (pf_name f) (pf_fileid f) (pf_hash_full f) (pf_hash_16k f) (pf_length f)
             (pf_block_md5 f) (pf_block_crc32 f)
             (if pf_block_count f =? 0 then bc else pf_block_count f) true running) i fs,
         running + bc)
    end
  end.

Definition finalize_layout (s : par2_set) : par2_set :=
  let s' :=
    match ps_main_fileids s with
    | Some ids =>
      if 0 <? ps_block_size s then
        let '(fs, running) :=
          foldl (layout_step (ps_block_size s)) (ps_files s, 0)
            (take (ps_main_recoverable_count s) ids) in
        Par2Set (ps_block_size s) fs (ps_slices s) running None 0
      else s
    | None => s
    end in
  Par2Set (ps_block_size s') (ps_files s') (ps_slices s') (ps_source_block_count s') None 0.

Definition par2_find_file (s : par2_set) (filename : cstr) : option par2_file :=
  list_find (λ f, pf_name f = filename) (ps_files s) ≫= λ p, Some (snd p).

Section directory.
Context (md5 : list byte → list byte).
(** [qsort] with [slice_cmp]: the order it leaves equal exponents in is not
    specified. *)
Context (qsort_slices : list par2_slice → list par2_slice).

Definition slice_cmp (a b : par2_slice) : Z :=
  if sl_exponent a <? sl_exponent b then -1
  else if sl_exponent b <? sl_exponent a then 1 else 0.

(** [par2_scan_dir] on the entries [readdir] returns, each with the content
    [fopen] would find ([None]: it cannot be opened). *)
Definition scan_entry (fuel : nat) (dir : cstr) (acc : option par2_set)
    (ent : cstr * option (list byte)) : option par2_set :=
  s ← acc;
  let '(name, content) := ent in
  if has_suffix_ci name ($ ".par2") then
    match content with
    | Some data => parse_par2_file md5 fuel s (str_fit 900 (dir ++ $ "/" ++ name)) data
    | None => Some s
    end
  else Some s.

Definition par2_scan_dir (fuel : nat) (dir : cstr) (ents : list (cstr * option (list byte)))
    : option par2_set :=
  s ← foldl (scan_entry fuel dir) (Some empty_set) ents;
  let s := finalize_layout s in
  Some (if (1 <? length (ps_slices s))%nat
        then Par2Set (ps_block_size s) (ps_files s) (qsort_slices (ps_slices s))
               (ps_source_block_count s) (ps_main_fileids s) (ps_main_recoverable_count s)
        else s).
End directory.

(** ** Verification *)

(** [par2_progress_t]; the callback answers whether to abort. *)
Record par2_progress := Par2Progress {
  pg_done : Z;
  pg_total : Z;
  pg_cb : option (Z → Z → bool)
}.

Definition report_progress (pg : option par2_progress) (n : nat) : option par2_progress * bool :=
  match pg with
  | None => (None, false)
  | Some pg =>
    let done := pg_done pg + Z.of_nat n in
    (Some (Par2Progress done (pg_total pg) (pg_cb pg)),
     match pg_cb pg with Some cb => cb done (pg_total pg) | None => false end)
  end.

Inductive par2_verify_result := PAR2_VERIFY_OK | PAR2_VERIFY_DAMAGED | PAR2_VERIFY_UNKNOWN.

Record par2_verify_report := Par2VerifyReport {
  vr_result : par2_verify_result;
  vr_bad_blocks : nat;
  vr_block_count : nat
}.

(** One block as the code reads it: [got] bytes, then zeros up to [block_size]. *)
Definition read_block (data : list byte) (pos block_size : nat) : list byte * nat :=
  let got := fread data (Z.of_nat pos) block_size in
  (got ++ replicate (block_size - length got) x00, length got).

Section verify.
Context (md5 : list byte → list byte).

(** [block_crc != pf->block_crc32[bi] || memcmp(block_md5, pf->block_md5[bi], 16)] *)
Definition block_bad (md5s : list (list byte)) (crcs : list Z) (bi : nat) (block : list byte) : bool :=
  negb (u32 (crc32 block) =? nth bi crcs 0) ||
  negb (bool_decide (md5_of_two md5 block [] = nth bi md5s [])).

(** The whole-file pass: [fread] in chunks into the digest until it returns
    0. [None]: the callback asked to abort. *)
Fixpoint hash_loop (fuel : nat) (data : list byte) (pos : nat) (ctx : list byte)
    (pg : option par2_progress) : option (list byte * option par2_progress) :=
  match fuel with
  | O => Some (ctx, pg)
  | S fuel =>
    let buf := fread data (Z.of_nat pos) VERIFY_READ_CHUNK in
    if (length buf =? 0)%nat then Some (ctx, pg)
    else
      let '(pg, stop) := report_progress pg (length buf) in
      if stop then None else hash_loop fuel data (pos + length buf) (ctx ++ buf) pg
  end.

(** The block-by-block pass; its progress calls cannot abort. *)
Fixpoint block_loop (n bi : nat) (data : list byte) (block_size : nat) (md5s : list (list byte))
    (crcs : list Z) (bad : nat) (pg : option par2_progress) : nat * option par2_progress :=
  match n with
  | O => (bad, pg)
  | S n =>
    let '(block, got) := read_block data (bi * block_size) block_size in
    let '(pg, _) := report_progress pg got in
    block_loop n (S bi) data block_size md5s crcs
      (if block_bad md5s crcs bi block then S bad else bad) pg
  end.

(** [par2_verify_file]; [content] is [None] when [fopen] fails. [inl] is the
    return value -1, [inr] the report of a 0 return. *)
Definition par2_verify_file (s : par2_set) (pf : par2_file) (content : option (list byte))
    (pg : option par2_progress) : option (par2_verify_report * option par2_progress) :=
  data ← content;
  '(ctx, pg) ← hash_loop (S (length data)) data 0 [] pg;
  if decide (md5 ctx = pf_hash_full pf) then
    Some (Par2VerifyReport PAR2_VERIFY_OK 0 0, pg)
  else
    match pf_block_md5 pf with
    | None => Some (Par2VerifyReport PAR2_VERIFY_UNKNOWN 0 0, pg)
    | Some md5s =>
      if (pf_block_count pf =? 0) || (ps_block_size s <=? 0) then
        Some (Par2VerifyReport PAR2_VERIFY_UNKNOWN 0 0, pg)
      else
        let n := Z.to_nat (pf_block_count pf) in
        let '(bad, pg) := block_loop n 0 data (Z.to_nat (ps_block_size s)) md5s
                            (pf_block_crc32 pf) 0 pg in
        Some (Par2VerifyReport PAR2_VERIFY_DAMAGED bad n, pg)
    end.

(** [hash_file_md5]; [None] when the file cannot be opened. *)
Definition hash_file_md5 (content : option (list byte)) : option (list byte) := md5 <$> content.

(** [scan_block_damage]: for each block, whether it is bad. *)
Definition scan_block_damage (s : par2_set) (pf : par2_file) (content : option (list byte))
    : list bool :=
  let n := Z.to_nat (pf_block_count pf) in
  match content with
  | None => replicate n true
  | Some data =>
    let bs := Z.to_nat (ps_block_size s) in
    (λ bi, block_bad (default [] (pf_block_md5 pf)) (pf_block_crc32 pf) bi
             (fst (read_block data (bi * bs) bs))) <$> seq 0 n
  end.

(** [slice_hash_ok]: the loop reads the exponent and the data of the slice,
    which must all be there, and compares the digest. *)
Definition slice_hash_ok (sl : par2_slice) (content : option (list byte)) : bool :=
  match content with
  | None => false
  | Some data =>
    let start := sl_data_offset sl - 4 in
    if (start <? 0) then false
    else
      let remaining := 4 + sl_data_len sl in
      let got := fread data start (Z.to_nat remaining) in
      if Z.of_nat (length got) <? remaining then false
      else bool_decide (md5 (sl_header_tail sl ++ got) = sl_hash sl)
  end.
End verify.

(** [locate_block]: the index of the owning file and the byte offset in it. *)
Fixpoint locate_block_from (i : nat) (fs : list par2_file) (block_size global_idx : Z)
    : option (nat * Z) :=
  match fs with
  | [] => None
  | pf :: fs =>
    if pf_in_recovery_set pf && (pf_global_block_start pf <=? global_idx)
       && (global_idx <? pf_global_block_start pf + pf_block_count pf)
    then Some (i, (global_idx - pf_global_block_start pf) * block_size)
    else locate_block_from (S i) fs block_size global_idx
  end.

Definition locate_block (s : par2_set) (global_idx : Z) : option (nat * Z) :=
  locate_block_from 0 (ps_files s) (ps_block_size s) global_idx.

(** ** Little-endian fields *)

Fixpoint le_bytes (n : nat) (v : Z) : list byte :=
  match n with
  | O => []
  | S n => z2b v :: le_bytes n (v / 256)
  end.

Lemma length_le_bytes n v : length (le_bytes n v) = n.
Proof. revert v. induction n; intros; simpl; auto. Qed.

Lemma lor_byte' v b : 0 <= v < 2 ^ 56 → Z.lor (u64 (Z.shiftl v 8)) (b2z b) = b2z b + 256 * v.
Proof.
  intros Hv. assert (u64 (Z.shiftl v 8) = Z.shiftl v 8) as ->.
  { unfold u64. apply Z.mod_small. rewrite Z.shiftl_mul_pow2 by lia. lia. }
  rewrite Z.lor_comm. apply lor_byte, b2z_range.
Qed.

Lemma read_le64_eq p :
  read_le64 p = byte_at p 0 + 256 * (byte_at p 1 + 256 * (byte_at p 2 + 256 * (byte_at p 3 +
    256 * (byte_at p 4 + 256 * (byte_at p 5 + 256 * (byte_at p 6 + 256 * byte_at p 7)))))).
Proof.
  unfold read_le64, byte_at. change (rev (seq 0 8)) with [7; 6; 5; 4; 3; 2; 1; 0]%nat.
  cbn [foldl].
  repeat match goal with |- context [nth ?i p x00] =>
    let b := fresh "b" in let H := fresh "Hb" in
    set (b := nth i p x00); pose proof (b2z_range b) as H; clearbody b end.
  repeat match goal with |- context [Z.lor (u64 (Z.shiftl ?v 8)) (b2z ?b)] =>
    rewrite (lor_byte' v b) by lia end.
  lia.
Qed.

Lemma read_le64_bound p : 0 <= read_le64 p < 2 ^ 64.
Proof.
  rewrite read_le64_eq. unfold byte_at.
  repeat match goal with |- context [nth ?i p x00] =>
    let b := fresh "b" in let H := fresh "Hb" in
    set (b := nth i p x00); pose proof (b2z_range b) as H; clearbody b end.
  lia.
Qed.

Lemma read_le64_le_bytes v rest :
  0 <= v < 2 ^ 64 → read_le64 (le_bytes 8 v ++ rest) = v.
Proof.
  intros Hv. rewrite read_le64_eq. unfold byte_at. cbn [le_bytes app nth].
  rewrite !b2z_z2b. Z.div_mod_to_equations. lia.
Qed.

Lemma read_le32_le_bytes v rest :
  0 <= v < 2 ^ 32 → read_le32 (le_bytes 4 v ++ rest) = v.
Proof.
  intros Hv. unfold read_le32, byte_at. cbn [le_bytes app nth].
  assert (∀ a b c d, 0 <= a < 256 → 0 <= b < 256 → 0 <= c < 256 →
    Z.lor (Z.lor (Z.lor a (Z.shiftl b 8)) (Z.shiftl c 16)) (Z.shiftl d 24) =
    a + 256 * (b + 256 * (c + 256 * d))) as H.
  { intros a b c d Ha Hb Hc.
    replace (Z.shiftl d 24) with (Z.shiftl (Z.shiftl (Z.shiftl d 8) 8) 8)
      by (rewrite !Z.shiftl_shiftl by lia; done).
    replace (Z.shiftl c 16) with (Z.shiftl (Z.shiftl c 8) 8)
      by (rewrite Z.shiftl_shiftl by lia; done).
    rewrite <- !Z.lor_assoc, <- !Z.shiftl_lor.
    rewrite (lor_byte c), (lor_byte b), (lor_byte a) by done. done. }
  rewrite !b2z_z2b. rewrite H by (apply Z.mod_pos_bound; lia).
  Z.div_mod_to_equations. lia.
Qed.

#[global] Opaque read_le64 read_le32.

(** ** Streams *)

Lemma length_fread data pos n :
  0 <= pos → Z.of_nat (length (fread data pos n)) =
    Z.max 0 (Z.min (Z.of_nat n) (Z.of_nat (length data) - pos)).
Proof.
  intros Hp. unfold fread. destruct (Z.leb_spec (Z.of_nat (length data)) pos).
  - simpl. lia.
  - rewrite length_take, length_drop. lia.
Qed.

Lemma fread_at pre mid post n :
  n = length mid → fread (pre ++ mid ++ post) (Z.of_nat (length pre)) n = mid.
Proof.
  intros ->. unfold fread. destruct (Z.leb_spec (Z.of_nat (length (pre ++ mid ++ post)))
    (Z.of_nat (length pre))) as [Hle|_].
  - rewrite !length_app in Hle. destruct mid; [done|simpl in Hle; lia].
  - rewrite Nat2Z.id, drop_app_length, take_app_length. done.
Qed.

Lemma fseek_cur_Some pos off p : fseek_cur pos off = Some p → p = pos + off ∧ 0 <= p < 2 ^ 63.
Proof.
  unfold fseek_cur. destruct (Z.leb_spec 0 (pos + off)), (Z.ltb_spec (pos + off) (2 ^ 63));
    simpl; intros [=]; lia.
Qed.

Lemma s64_small z : 0 <= z < 2 ^ 63 → s64 z = z.
Proof. intros. unfold s64. rewrite Z.mod_small; lia. Qed.

Lemma s64_high z : 2 ^ 63 <= z < 2 ^ 64 → s64 z = z - 2 ^ 64.
Proof.
  intros. unfold s64. rewrite <- (Z.mod_add _ (-1)) by lia. rewrite Z.mod_small; lia.
Qed.

(** Splits every test of a parse step and keeps the surviving branch. *)
Ltac parse_cases :=
  repeat match goal with
  | H : inr _ = inl _ |- _ => discriminate H
  | H : inl _ = inl _ |- _ => injection H as <- <-
  | H : (if ?b then _ else _) = inl _ |- _ => destruct b eqn:?
  | H : match ?o with Some _ => _ | None => _ end = inl _ |- _ => destruct o eqn:?
  end.

Lemma handle_recovery_progress s path data pos body_len h t s' pos' :
  0 <= body_len < 2 ^ 63 →
  handle_recovery_packet s path data pos body_len h t = Some (s', pos') → pos <= pos'.
Proof.
  intros Hb. unfold handle_recovery_packet. destruct (Z.ltb_spec body_len 4).
  - destruct (Z.eqb_spec body_len 0); [intros [= <- <-]; lia|].
    intros (p & Hp & [= -> ->])%fmap_Some. rewrite s64_small in Hp by lia.
    apply fseek_cur_Some in Hp. lia.
  - destruct (Nat.ltb_spec (length (fread data pos 4)) 4); [done|].
    rewrite s64_small by lia. destruct (Z.eqb_spec (body_len - 4) 0).
    + intros [= <- <-]. lia.
    + intros (p & Hp & [= -> ->])%fmap_Some. rewrite s64_small in Hp by lia.
      apply fseek_cur_Some in Hp. lia.
Qed.

Section parsing.
Context (md5 : list byte → list byte).

(** The length field of the packet at [pos]. *)
Definition length_at (data : list byte) (pos : Z) : Z :=
  read_le64 (drop 8 (fread data pos PACKET_HEADER_SIZE)).

Lemma parse_body_progress path data s header body_len pos s' pos' :
  0 <= body_len < 2 ^ 63 →
  parse_body md5 path data s header body_len pos = inl (s', pos') → pos <= pos'.
Proof.
  intros Hb. unfold parse_body. case_decide; [|destruct (negb _)].
  - destruct (handle_recovery_packet _ _ _ _ _ _ _) as [[s1 p1]|] eqn:E; [|done].
    intros [= <- <-]. by apply handle_recovery_progress in E.
  - intros H1. parse_cases; [lia|].
    match goal with H : fseek_cur _ _ = _ |- _ => apply fseek_cur_Some in H end.
    rewrite s64_small in * by lia. lia.
  - destruct (MAX_CRITICAL_PACKET_BODY <? body_len); [done|].
    destruct (_ <? body_len); [done|]. destruct (negb _); [intros [= <- <-]; lia|].
    repeat case_decide; intros [= <- <-]; lia.
Qed.

Lemma parse_packet_inl path data s pos r :
  parse_packet md5 path data s pos = inl r →
  (PACKET_HEADER_SIZE <= length (fread data pos PACKET_HEADER_SIZE))%nat ∧
  Z.of_nat PACKET_HEADER_SIZE <= length_at data pos ∧
  parse_body md5 path data s (fread data pos PACKET_HEADER_SIZE)
    (length_at data pos - Z.of_nat PACKET_HEADER_SIZE)
    (pos + Z.of_nat PACKET_HEADER_SIZE) = inl r.
Proof.
  unfold parse_packet, length_at.
  destruct (Nat.ltb_spec (length (fread data pos PACKET_HEADER_SIZE)) PACKET_HEADER_SIZE); [done|].
  destruct (negb _); [done|].
  destruct (Z.ltb_spec (read_le64 (drop 8 (fread data pos PACKET_HEADER_SIZE)))
    (Z.of_nat PACKET_HEADER_SIZE)); [done|].
  intros Hb. split; [assumption|]. split; assumption.
Qed.

Lemma length_at_bound data pos : 0 <= length_at data pos < 2 ^ 64.
Proof. apply read_le64_bound. Qed.

Lemma parse_packet_progress path data s pos s' pos' :
  0 <= pos → length_at data pos < 2 ^ 63 →
  parse_packet md5 path data s pos = inl (s', pos') →
  pos + 64 <= Z.of_nat (length data) ∧ pos + 64 <= pos'.
Proof.
  intros Hpos Hlen (Hh & Hge & Hbody)%parse_packet_inl.
  pose proof (length_fread data pos PACKET_HEADER_SIZE Hpos) as Hfl.
  change (Z.of_nat PACKET_HEADER_SIZE) with 64 in *.
  apply parse_body_progress in Hbody; [|lia].
  unfold PACKET_HEADER_SIZE in *. lia.
Qed.

(** Every packet consumes at least a header, so the file's length over 64
    bounds the number of rounds. *)
Lemma parse_loop_terminates fuel path data s pos :
  0 <= pos → (∀ p, length_at data p < 2 ^ 63) →
  Z.of_nat (length data) - pos < 64 * Z.of_nat fuel → (0 < fuel)%nat →
  is_Some (parse_loop md5 fuel path data s pos).
Proof.
  intros Hpos Hlen. revert s pos Hpos. induction fuel as [|fuel IH]; intros s pos Hpos Hf H0; [lia|].
  simpl. destruct (parse_packet md5 path data s pos) as [[s' pos']|s'] eqn:E; [|by eexists].
  apply parse_packet_progress in E as [E1 E2]; [|done|done].
  apply IH; lia.
Qed.
End parsing.

(** ** Writing packets: the reference the parser is checked against *)

Record packet := Packet { pk_setid : list byte; pk_type : list byte; pk_body : list byte }.

Section writing.
Context (md5 : list byte → list byte).
Hypothesis md5_length : ∀ l, length (md5 l) = 16%nat.

Definition packet_bytes (p : packet) : list byte :=
  PACKET_MAGIC ++ le_bytes 8 (64 + Z.of_nat (length (pk_body p))) ++
  md5 ((pk_setid p ++ pk_type p) ++ pk_body p) ++ pk_setid p ++ pk_type p ++ pk_body p.

Definition packet_wf (p : packet) : Prop :=
  length (pk_setid p) = 16%nat ∧ length (pk_type p) = 16%nat ∧
  Z.of_nat (length (pk_body p)) < 2 ^ 62 ∧
  (pk_type p ∈ [TYPE_MAIN; TYPE_FILEDESC; TYPE_IFSC] →
    Z.of_nat (length (pk_body p)) <= MAX_CRITICAL_PACKET_BODY) ∧
  (pk_type p = TYPE_RECOVERY → (4 <= length (pk_body p))%nat).

(** What parsing the packet at [pos] adds to the set. *)
Definition packet_effect (path : cstr) (s : par2_set) (pos : nat) (p : packet) : par2_set :=
  if decide (pk_type p = TYPE_RECOVERY) then
    append_slice s path (Z.of_nat pos + 68) (Z.of_nat (length (pk_body p)) - 4)
      (read_le32 (pk_body p)) (md5 ((pk_setid p ++ pk_type p) ++ pk_body p))
      (pk_setid p ++ pk_type p)
  else if decide (pk_type p = TYPE_MAIN) then handle_main_packet s (pk_body p)
  else if decide (pk_type p = TYPE_FILEDESC) then handle_filedesc_packet s (pk_body p)
  else if decide (pk_type p = TYPE_IFSC) then handle_ifsc_packet s (pk_body p)
  else s.

Fixpoint packets_effect (path : cstr) (s : par2_set) (pos : nat) (ps : list packet) : par2_set :=
  match ps with
  | [] => s
  | p :: ps => packets_effect path (packet_effect path s pos p)
                 (pos + 64 + length (pk_body p)) ps
  end.

Definition header_bytes (p : packet) : list byte :=
  PACKET_MAGIC ++ le_bytes 8 (64 + Z.of_nat (length (pk_body p))) ++
  md5 ((pk_setid p ++ pk_type p) ++ pk_body p) ++ pk_setid p ++ pk_type p.

Lemma packet_bytes_split p : packet_bytes p = header_bytes p ++ pk_body p.
Proof. unfold packet_bytes, header_bytes. by rewrite <- !app_assoc. Qed.

Lemma length_header p : packet_wf p → length (header_bytes p) = 64%nat.
Proof.
  intros (H1 & H2 & _). unfold header_bytes. rewrite !length_app, md5_length, length_le_bytes, H1, H2.
  done.
Qed.

(** Reading a field of known position out of a concatenation. *)
Lemma bytes_at_app pre mid post off len :
  off = length pre → len = length mid → bytes_at off len (pre ++ mid ++ post) = mid.
Proof. intros -> ->. unfold bytes_at. by rewrite drop_app_length, take_app_length. Qed.

Lemma bytes_at_eq pre mid post off len l :
  l = pre ++ mid ++ post → off = length pre → len = length mid → bytes_at off len l = mid.
Proof. intros ->. apply bytes_at_app. Qed.

Lemma header_fields p :
  packet_wf p →
  bytes_at 0 8 (header_bytes p) = PACKET_MAGIC ∧
  read_le64 (drop 8 (header_bytes p)) = 64 + Z.of_nat (length (pk_body p)) ∧
  bytes_at 16 16 (header_bytes p) = md5 ((pk_setid p ++ pk_type p) ++ pk_body p) ∧
  bytes_at 32 32 (header_bytes p) = pk_setid p ++ pk_type p ∧
  bytes_at 48 16 (header_bytes p) = pk_type p.
Proof.
  intros (H1 & H2 & H3 & _). unfold header_bytes. split_and!.
  - by apply (bytes_at_app []).
  - rewrite drop_app_ge by (vm_compute; lia).
    apply read_le64_le_bytes. lia.
  - rewrite (app_assoc PACKET_MAGIC). apply bytes_at_app.
    + by rewrite length_app, length_le_bytes.
    + by rewrite md5_length.
  - eapply (bytes_at_eq (PACKET_MAGIC ++ le_bytes 8 _ ++ md5 _) _ []);
      [by rewrite <- !app_assoc, app_nil_r| |by rewrite length_app, H1, H2].
    by rewrite !length_app, length_le_bytes, md5_length.
  - eapply (bytes_at_eq (PACKET_MAGIC ++ le_bytes 8 _ ++ md5 _ ++ pk_setid p) _ []);
      [by rewrite <- !app_assoc, app_nil_r| |done].
    by rewrite !length_app, length_le_bytes, md5_length, H1.
Qed.

(** One written packet, anywhere in a file, is read back and handled. *)
Lemma parse_written_packet path pre p post s :
  packet_wf p → Z.of_nat (length (pre ++ packet_bytes p ++ post)) < 2 ^ 63 →
  parse_packet md5 path (pre ++ packet_bytes p ++ post) s (Z.of_nat (length pre)) =
  inl (packet_effect path s (length pre) p,
       Z.of_nat (length pre + 64 + length (pk_body p))).
Proof.
  intros Hwf Hbig. pose proof (length_header p Hwf) as Hlh.
  destruct (header_fields p Hwf) as (F1 & F2 & F3 & F4 & F5).
  pose proof Hwf as (_ & _ & Hlen & Hcrit & Hrec).
  rewrite packet_bytes_split, <- app_assoc in Hbig |- *.
  unfold parse_packet. rewrite fread_at by done.
  rewrite Hlh. change (64 <? PACKET_HEADER_SIZE)%nat with false. cbv iota.
  rewrite F1, bool_decide_true by done. cbn [negb]. rewrite F2.
  change (Z.of_nat PACKET_HEADER_SIZE) with 64.
  rewrite (proj2 (Z.ltb_ge _ _)) by lia.
  replace (64 + Z.of_nat (length (pk_body p)) - 64) with (Z.of_nat (length (pk_body p))) by lia.
  set (data := pre ++ header_bytes p ++ pk_body p ++ post) in *.
  assert (∀ n q, n = length q → q `prefix_of` pk_body p →
    fread data (Z.of_nat (length pre) + 64) n = q) as Hread.
  { intros n q -> [k Hk]. unfold data. rewrite Hk, <- app_assoc, (app_assoc pre).
    replace (Z.of_nat (length pre) + 64) with (Z.of_nat (length (pre ++ header_bytes p)))
      by (rewrite length_app, Hlh; lia).
    by apply fread_at. }
  unfold parse_body, packet_effect. rewrite F3, F4, F5. case_decide as Hr.
  - specialize (Hrec Hr). unfold handle_recovery_packet.
    rewrite (proj2 (Z.ltb_ge _ _)) by lia.
    rewrite (Hread 4%nat (take 4 (pk_body p))) by (apply prefix_take || (rewrite length_take; lia)).
    rewrite length_take, Nat.min_l by done. change (4 <? 4)%nat with false. cbv iota.
    rewrite s64_small by lia.
    assert (read_le32 (take 4 (pk_body p)) = read_le32 (pk_body p)) as ->.
    { destruct (pk_body p) as [|? [|? [|? [|? ?]]]]; done. }
    replace (Z.of_nat (length pre) + 64 + 4) with (Z.of_nat (length pre) + 68) by lia.
    unfold data in Hbig. rewrite !length_app, Hlh in Hbig.
    destruct (Z.eqb_spec (Z.of_nat (length (pk_body p)) - 4) 0).
    + do 2 f_equal. lia.
    + rewrite s64_small by lia. unfold fseek_cur.
      rewrite (proj2 (Z.leb_le _ _)), (proj2 (Z.ltb_lt _ _)) by lia. cbn. do 2 f_equal. lia.
  - unfold data in Hbig. rewrite !length_app, Hlh in Hbig.
    destruct (bool_decide (pk_type p ∈ [TYPE_MAIN; TYPE_FILEDESC; TYPE_IFSC])) eqn:Ht; cbn [negb].
    + apply bool_decide_eq_true in Ht. specialize (Hcrit Ht).
      rewrite (proj2 (Z.ltb_ge _ _)) by lia. rewrite Nat2Z.id, (Hread _ (pk_body p)) by done.
      rewrite (proj2 (Z.ltb_ge _ _)) by lia. unfold md5_of_two.
      rewrite bool_decide_true by done. cbn [negb].
      replace (Z.of_nat (length pre) + 64 + Z.of_nat (length (pk_body p)))
        with (Z.of_nat (length pre + 64 + length (pk_body p))) by lia.
      repeat case_decide; try done.
      exfalso. apply elem_of_cons in Ht as [?|[?|[?|[]%elem_of_nil]%elem_of_cons]%elem_of_cons];
        contradiction.
    + apply bool_decide_eq_false in Ht.
      rewrite !decide_False by set_solver.
      destruct (Z.eqb_spec (Z.of_nat (length (pk_body p))) 0).
      * do 2 f_equal. lia.
      * rewrite s64_small by lia. unfold fseek_cur.
        rewrite (proj2 (Z.leb_le _ _)), (proj2 (Z.ltb_lt _ _)) by lia. cbn. do 2 f_equal. lia.
Qed.

(** A run of packets, read from where they start. The trailing bytes are too
    few for another header. *)
Lemma parse_written_loop path ps post s pre :
  Forall packet_wf ps → (length post < 64)%nat →
  Z.of_nat (length (pre ++ mjoin (packet_bytes <$> ps) ++ post)) < 2 ^ 63 →
  parse_loop md5 (S (length ps)) path (pre ++ mjoin (packet_bytes <$> ps) ++ post) s
    (Z.of_nat (length pre)) = Some (packets_effect path s (length pre) ps).
Proof.
  intros Hwf Hpost. revert s pre. induction Hwf as [|p ps Hp Hps IH]; intros s pre Hbig.
  - cbn [fmap list_fmap mjoin list_join app packets_effect length parse_loop] in *.
    unfold parse_packet.
    replace (pre ++ post) with (pre ++ post ++ []) by by rewrite app_nil_r.
    assert ((length (fread (pre ++ post ++ []) (Z.of_nat (length pre)) PACKET_HEADER_SIZE) <?
      PACKET_HEADER_SIZE)%nat = true) as ->; [|done].
    apply Nat.ltb_lt. pose proof (length_fread (pre ++ post ++ []) (Z.of_nat (length pre))
      PACKET_HEADER_SIZE ltac:(lia)) as Hf.
    rewrite !length_app in Hf. cbn [length] in Hf. unfold PACKET_HEADER_SIZE in *. lia.
  - cbn [fmap list_fmap mjoin list_join packets_effect] in *. rewrite <- app_assoc in *.
    change (length (p :: ps)) with (S (length ps)).
    set (fuel := S (length ps)) in *. cbn [parse_loop].
    rewrite parse_written_packet by done.
    specialize (IH (packet_effect path s (length pre) p) (pre ++ packet_bytes p)).
    rewrite <- app_assoc in IH. specialize (IH Hbig).
    assert (length (pre ++ packet_bytes p) = (length pre + 64 + length (pk_body p))%nat) as Hl.
    { rewrite packet_bytes_split, !length_app, length_header by done. lia. }
    rewrite Hl in IH. exact IH.
Qed.
End writing.

(** A stand-in for MD5 at which the hypotheses about it are met. *)
Definition toy_md5 (l : list byte) : list byte := take 16 (l ++ replicate 16 x00).

Lemma toy_md5_length l : length (toy_md5 l) = 16%nat.
Proof. unfold toy_md5. rewrite length_take, length_app, length_replicate. lia. Qed.

Definition sample_packets : list packet :=
  [Packet (replicate 16 x07) TYPE_MAIN (le_bytes 8 4 ++ le_bytes 4 1 ++ replicate 16 x01);
   Packet (replicate 16 x07) (replicate 16 x2a) [x01; x02; x03; x04];
   Packet (replicate 16 x07) TYPE_RECOVERY (le_bytes 4 3 ++ $ "data")].

Lemma packet_wf_intro p :
  (length (pk_setid p) =? 16)%nat = true → (length (pk_type p) =? 16)%nat = true →
  (4 <=? length (pk_body p))%nat = true → (length (pk_body p) <=? 1024)%nat = true →
  packet_wf p.
Proof.
  intros H1%Nat.eqb_eq H2%Nat.eqb_eq H3%Nat.leb_le H4%Nat.leb_le. unfold packet_wf, MAX_CRITICAL_PACKET_BODY.
  split_and!; [done|done|lia|lia|lia].
Qed.

Lemma sample_packets_wf : Forall packet_wf sample_packets.
Proof. unfold sample_packets. rewrite !Forall_cons. split_and!; [..|done]; by apply packet_wf_intro. Qed.



Definition small_lengths (data : list byte) : Prop := ∀ p, length_at data p < 2 ^ 63.

Lemma small_lengths_of_bytes data : Forall (λ b, b2z b < 128) data → small_lengths data.
Proof.
  intros Hall p. unfold length_at. rewrite read_le64_eq. unfold byte_at.
  assert (∀ i, b2z (nth i (drop 8 (fread data p PACKET_HEADER_SIZE)) x00) < 128) as H.
  { intros i. rewrite nth_lookup. destruct (_ !! i) as [b|] eqn:E; [|by vm_compute].
    rewrite lookup_drop in E. unfold fread in E. destruct (_ <=? p); [done|].
    apply lookup_take_Some in E as [E _]. rewrite lookup_drop in E.
    exact (proj1 (Forall_lookup _ _) Hall _ _ E). }
  repeat match goal with |- context [nth ?i ?p x00] =>
    let b := fresh "b" in let H1 := fresh "Hb" in let H2 := fresh "Hb" in
    pose proof (H i) as H1; set (b := nth i p x00) in *; pose proof (b2z_range b) as H2;
    clearbody b end.
  lia.
Qed.



(** Two headers of an unknown type; the second claims 2^64 - 64 bytes. *)
Definition looping_file : list byte :=
  (PACKET_MAGIC ++ le_bytes 8 64 ++ replicate 48 x01) ++
  (PACKET_MAGIC ++ le_bytes 8 (2 ^ 64 - 64) ++ replicate 48 x01).

Lemma looping_file_first md5 path s : parse_packet md5 path looping_file s 0 = inl (s, 64).
Proof.
  unfold parse_packet.
  replace (fread looping_file 0 PACKET_HEADER_SIZE)
    with (PACKET_MAGIC ++ le_bytes 8 64 ++ replicate 48 x01) by by vm_compute.
  rewrite bool_decide_true by by vm_compute. rewrite read_le64_eq.
  unfold byte_at. cbn. done.
Qed.

Lemma looping_file_second md5 path s : parse_packet md5 path looping_file s 64 = inl (s, 0).
Proof.
  unfold parse_packet.
  replace (fread looping_file 64 PACKET_HEADER_SIZE)
    with (PACKET_MAGIC ++ le_bytes 8 (2 ^ 64 - 64) ++ replicate 48 x01) by by vm_compute.
  rewrite bool_decide_true by by vm_compute. rewrite read_le64_eq.
  unfold byte_at. vm_compute. done.
Qed.

(** Without that bound it need not: the offset handed to [fseek] is the
    length field as a signed number, so a packet of an unknown type that claims
    2^64 - 64 bytes seeks 128 bytes back. On a 128-byte file of two headers
    [parse_par2_file] never returns. *)
Theorem par2_parse_loops_forever (md5 : list byte → list byte) (s : par2_set) (path : cstr)
    (fuel : nat) :
  parse_par2_file md5 fuel s path looping_file = None.
Proof.
  unfold parse_par2_file. induction fuel as [fuel IH] using lt_wf_ind.
  destruct fuel as [|[|fuel]]; [done|cbn [parse_loop]; by rewrite looping_file_first|].
  cbn [parse_loop]. rewrite looping_file_first, looping_file_second. apply IH. lia.
Qed.

(** ** The layout tiles the block numbers *)

(** [global_idx] lies in the range of [pf]: the test of [locate_block]. *)
Definition covers (pf : par2_file) (g : Z) : bool :=
  pf_in_recovery_set pf && (pf_global_block_start pf <=? g)
  && (g <? pf_global_block_start pf + pf_block_count pf).

Lemma covers_true pf g :
  covers pf g = true ↔ pf_in_recovery_set pf = true ∧
    pf_global_block_start pf <= g < pf_global_block_start pf + pf_block_count pf.
Proof. unfold covers. rewrite !andb_true_iff, Z.leb_le, Z.ltb_lt. tauto. Qed.

Lemma locate_block_from_Some i fs bs g j pf :
  fs !! j = Some pf → covers pf g = true →
  ∃ j' pf', locate_block_from i fs bs g =
      Some ((i + j')%nat, (g - pf_global_block_start pf') * bs) ∧
    fs !! j' = Some pf' ∧ covers pf' g = true.
Proof.
  revert i j. induction fs as [|f fs IH]; intros i j Hj Hc; [done|]. simpl.
  fold (covers f g). destruct (covers f g) eqn:E.
  - exists O, f. by rewrite Nat.add_0_r.
  - destruct j as [|j]; simpl in Hj; [congruence|].
    destruct (IH (S i) j Hj Hc) as (j' & pf' & H1 & H2 & H3).
    exists (S j'), pf'. by rewrite Nat.add_succ_r.
Qed.

Lemma file_index_Some fs fileid i :
  file_index fs fileid = Some i → ∃ f, fs !! i = Some f ∧ pf_fileid f = fileid.
Proof.
  revert i. induction fs as [|f fs IH]; intros i; simpl; [done|]. case_decide as Hd.
  - intros [= <-]. by exists f.
  - intros (k & Hk & ->)%fmap_Some. destruct (IH k Hk) as (g & ? & ?). by exists g.
Qed.

Lemma file_index_None fs fileid : file_index fs fileid = None → fileid ∉ pf_fileid <$> fs.
Proof.
  induction fs as [|f fs IH]; simpl; [intros _; apply not_elem_of_nil|].
  case_decide; [done|]. intros Hn%fmap_None. rewrite not_elem_of_cons. split; [done|by apply IH].
Qed.

Record layout_inv (ids : list (list byte)) (seen : list (list byte)) (fs : list par2_file)
    (running : Z) : Prop := {
  li_ids : pf_fileid <$> fs = ids;
  li_running : 0 <= running;
  li_counts : Forall (λ f, 0 <= pf_block_count f) fs;
  li_placed : Forall (λ f, pf_in_recovery_set f = true → pf_fileid f ∈ seen ∧
    0 <= pf_global_block_start f ∧ pf_global_block_start f + pf_block_count f <= running) fs;
  li_total : ∀ g, 0 <= g < running → ∃ i f, fs !! i = Some f ∧ covers f g = true;
  li_unique : ∀ g i j fi fj, fs !! i = Some fi → fs !! j = Some fj →
    covers fi g = true → covers fj g = true → i = j
}.

Lemma fmap_alter_same {A B} (p : A → B) (h : A → A) (l : list A) (i : nat) :
  (∀ x, p (h x) = p x) → p <$> alter h i l = p <$> l.
Proof.
  intros Hp. revert i. induction l as [|x l IH]; intros [|i]; csimpl; f_equal; auto.
Qed.

(** The file a fold step places: what [layout_step] writes into it. *)
Definition placed (running bc : Z) (f : par2_file) : par2_file :=
  Par2File (pf_name f) (pf_fileid f) (pf_hash_full f) (pf_hash_16k f) (pf_length f)
    (pf_block_md5 f) (pf_block_crc32 f)
    (if pf_block_count f =? 0 then bc else pf_block_count f) true running.

Lemma layout_inv_mono ids seen x fs running :
  layout_inv ids seen fs running → layout_inv ids (seen ++ [x]) fs running.
Proof.
  intros []. constructor; try done.
  eapply Forall_impl; [eassumption|]. cbv beta. intros f Hf Hr. destruct (Hf Hr).
  split; [set_solver|done].
Qed.

Lemma layout_inv_place ids seen x fs running i f bc :
  layout_inv ids seen fs running → x ∉ seen → fs !! i = Some f → pf_fileid f = x →
  0 < bc → (pf_block_count f = 0 ∨ pf_block_count f = bc) →
  layout_inv ids (seen ++ [x]) (alter (placed running bc) i fs) (running + bc).
Proof.
  intros Hinv Hx Hi Hid Hbc Hcount.
  pose proof (layout_inv_mono ids seen x fs running Hinv) as [L1 L2 L3 L4 L5 L6].
  destruct Hinv as [_ _ _ L4' _ _].
  assert (pf_block_count (placed running bc f) = bc) as Hpc.
  { simpl. destruct (Z.eqb_spec (pf_block_count f) 0); lia. }
  assert (∀ g, covers f g = false) as Hout.
  { intros g. destruct (covers f g) eqn:E; [|done]. apply covers_true in E as [E _].
    eapply Forall_lookup in L4'; [|exact Hi]. destruct (L4' E) as [? _]. congruence. }
  assert (∀ g h, covers (placed running bc h) g = true → h = f → running <= g < running + bc) as Hnew.
  { intros g h [_ E]%covers_true ->. rewrite Hpc in E. done. }
  assert (∀ j fj, alter (placed running bc) i fs !! j = Some fj →
    (j = i ∧ fj = placed running bc f) ∨ (j ≠ i ∧ fs !! j = Some fj)) as Hlook.
  { intros j fj Hj. destruct (decide (j = i)) as [->|Hne].
    - rewrite list_lookup_alter_eq, Hi in Hj. left. split; [done|]. by apply (inj Some) in Hj.
    - rewrite list_lookup_alter_ne in Hj by done. by right. }
  constructor.
  - by rewrite fmap_alter_same.
  - lia.
  - apply Forall_lookup. intros j fj [[-> ->]|[_ Hj]]%Hlook; [lia|].
    exact (proj1 (Forall_lookup _ _) L3 _ _ Hj).
  - apply Forall_lookup. intros j fj [[-> ->]|[_ Hj]]%Hlook.
    + intros _. rewrite Hpc. cbn. split; [rewrite Hid; set_solver|lia].
    + intros Hr. destruct (proj1 (Forall_lookup _ _) L4 _ _ Hj Hr). split; [done|lia].
  - intros g Hg. destruct (decide (g < running)) as [Hlt|Hge].
    + destruct (L5 g) as (j & fj & Hj & Hc); [lia|].
      exists j, fj. split; [|done]. rewrite list_lookup_alter_ne; [done|].
      intros <-. rewrite Hi in Hj. injection Hj as <-. by rewrite Hout in Hc.
    + exists i, (placed running bc f). rewrite list_lookup_alter_eq, Hi. split; [done|].
      apply covers_true. rewrite Hpc. cbn. split; [done|lia].
  - assert (∀ g j fj, fs !! j = Some fj → covers fj g = true → g < running) as Hold.
    { intros g j fj Hj [Hr Hc]%covers_true.
      destruct (proj1 (Forall_lookup _ _) L4 _ _ Hj Hr). lia. }
    intros g j k fj fk [[-> ->]|[Hj Hfj]]%Hlook [[-> ->]|[Hk Hfk]]%Hlook Hcj Hck; [done|..].
    + pose proof (Hnew _ _ Hcj eq_refl). pose proof (Hold _ _ _ Hfk Hck). lia.
    + pose proof (Hnew _ _ Hck eq_refl). pose proof (Hold _ _ _ Hfj Hcj). lia.
    + by eapply L6.
Qed.

Lemma layout_step_inv ids seen x bs fs running :
  layout_inv ids seen fs running → x ∉ seen →
  layout_inv ids (seen ++ [x]) (fst (layout_step bs (fs, running) x))
    (snd (layout_step bs (fs, running) x)).
Proof.
  intros Hinv Hx. unfold layout_step.
  destruct (file_index fs x) as [i|] eqn:E; [|by apply layout_inv_mono].
  apply file_index_Some in E as (f & Hi & Hid). rewrite Hi.
  pose proof (proj1 (Forall_lookup _ _) (li_counts _ _ _ _ Hinv) _ _ Hi) as Hc. cbv beta in Hc.
  cbv zeta. set (bc := if pf_block_count f <=? 0 then _ else _).
  destruct (Z.leb_spec bc 0); [by apply layout_inv_mono|].
  apply (layout_inv_place ids seen x fs running i f bc); try done.
  subst bc. destruct (Z.leb_spec (pf_block_count f) 0); lia.
Qed.

Lemma layout_fold_inv ids bs todo seen fs running :
  layout_inv ids seen fs running → NoDup (seen ++ todo) →
  layout_inv ids (seen ++ todo) (fst (foldl (layout_step bs) (fs, running) todo))
    (snd (foldl (layout_step bs) (fs, running) todo)).
Proof.
  revert seen fs running. induction todo as [|x todo IH]; intros seen fs running Hinv Hnd.
  - by rewrite app_nil_r.
  - cbn [foldl]. rewrite (cons_middle x seen todo), (app_assoc seen [x]) in *.
    destruct (layout_step bs (fs, running) x) as [fs' r'] eqn:E.
    apply IH; [|done].
    pose proof (layout_step_inv ids seen x bs fs running Hinv) as Hs. rewrite E in Hs. apply Hs.
    apply NoDup_app in Hnd as [Hnd _]. apply NoDup_app in Hnd as (_ & Hnd & _). set_solver.
Qed.

(** What the packet handlers keep: file ids are distinct, and no file has been
    placed in the numbering. *)
Definition parsed_ok (s : par2_set) : Prop :=
  NoDup (pf_fileid <$> ps_files s) ∧ ps_source_block_count s = 0 ∧
  Forall (λ f, pf_in_recovery_set f = false ∧ 0 <= pf_block_count f) (ps_files s).

Lemma set_find_or_add_file_ok s fileid :
  parsed_ok s → parsed_ok (fst (set_find_or_add_file s fileid)).
Proof.
  intros (H1 & H0 & H2). unfold set_find_or_add_file.
  destruct (file_index (ps_files s) fileid) eqn:E; [done|].
  unfold parsed_ok. cbn. rewrite fmap_app. split_and!; [|done|].
  - apply NoDup_app. split_and!; [done| |apply NoDup_singleton].
    intros x Hx Hy%list_elem_of_singleton. subst x. by apply file_index_None in E.
  - apply Forall_app. split; [done|]. by apply Forall_singleton.
Qed.

Lemma alter_file_ok s h i :
  parsed_ok s → (∀ f, pf_fileid (h f) = pf_fileid f) →
  (∀ f, pf_in_recovery_set f = false ∧ 0 <= pf_block_count f →
    pf_in_recovery_set (h f) = false ∧ 0 <= pf_block_count (h f)) →
  parsed_ok (with_files s (alter h i (ps_files s))).
Proof.
  intros (H1 & H0 & H2) Hid Hh. unfold parsed_ok. cbn. rewrite fmap_alter_same by done.
  split_and!; [done|done|]. rewrite Forall_lookup in H2 |- *. intros j f.
  rewrite list_lookup_alter. case_decide as Hd; [|eauto].
  intros (g & Hg & ->)%fmap_Some. subst i. eauto.
Qed.

Lemma handle_main_ok s body : parsed_ok s → parsed_ok (handle_main_packet s body).
Proof.
  intros Hs. unfold handle_main_packet.
  repeat match goal with
  | |- context [if ?b then _ else _] => destruct b
  | |- context [match ?o with Some _ => _ | None => _ end] => destruct o
  end; exact Hs.
Qed.

Lemma handle_filedesc_ok s body : parsed_ok s → parsed_ok (handle_filedesc_packet s body).
Proof.
  intros Hs. unfold handle_filedesc_packet. destruct (_ <? _)%nat; [done|].
  pose proof (set_find_or_add_file_ok s (bytes_at 0 16 body) Hs) as H.
  destruct (set_find_or_add_file s (bytes_at 0 16 body)) as [s' i]. by apply alter_file_ok.
Qed.

Lemma handle_ifsc_ok s body : parsed_ok s → parsed_ok (handle_ifsc_packet s body).
Proof.
  intros Hs. unfold handle_ifsc_packet. destruct (_ <? _)%nat; [done|].
  cbv zeta. destruct (_ =? 0)%nat; [done|].
  pose proof (set_find_or_add_file_ok s (bytes_at 0 16 body) Hs) as H.
  destruct (set_find_or_add_file s (bytes_at 0 16 body)) as [s' i].
  apply alter_file_ok; [done|done|]. intros f [Hf _]. cbn. split; [done|lia].
Qed.

Lemma handle_recovery_ok s path data pos len h t s' pos' :
  parsed_ok s → handle_recovery_packet s path data pos len h t = Some (s', pos') → parsed_ok s'.
Proof.
  intros Hs. unfold handle_recovery_packet.
  repeat match goal with |- context [if ?b then _ else _] => destruct b end; try discriminate.
  - by intros [= <- <-].
  - by intros (? & _ & [= -> ->])%fmap_Some.
  - intros [= <- <-]. exact Hs.
  - intros (? & _ & [= -> ->])%fmap_Some. exact Hs.
Qed.

Lemma parse_packet_ok md5 path data s pos :
  parsed_ok s →
  match parse_packet md5 path data s pos with inl (s', _) => parsed_ok s' | inr s' => parsed_ok s' end.
Proof.
  intros Hs. unfold parse_packet, parse_body.
  repeat match goal with
  | |- context [if ?b then _ else _] => destruct b
  | |- context [match handle_recovery_packet ?a ?b ?c ?d ?e ?f ?g with _ => _ end] =>
      destruct (handle_recovery_packet a b c d e f g) as [[]|] eqn:?
  | |- context [match fseek_cur ?a ?b with _ => _ end] => destruct (fseek_cur a b)
  end; eauto using handle_main_ok, handle_filedesc_ok, handle_ifsc_ok, handle_recovery_ok.
Qed.

Lemma parse_loop_ok md5 fuel path data s pos s' :
  parsed_ok s → parse_loop md5 fuel path data s pos = Some s' → parsed_ok s'.
Proof.
  revert s pos. induction fuel as [|fuel IH]; intros s pos Hs; simpl; [done|].
  pose proof (parse_packet_ok md5 path data s pos Hs) as Hp.
  destruct (parse_packet md5 path data s pos) as [[s1 pos1]|s1]; [by apply IH|by intros [= <-]].
Qed.

Lemma scan_entries_ok md5 fuel dir ents s s' :
  parsed_ok s → foldl (scan_entry md5 fuel dir) (Some s) ents = Some s' → parsed_ok s'.
Proof.
  revert s. induction ents as [|[name content] ents IH]; intros s Hs; cbn [foldl]; [by intros [= <-]|].
  intros H. unfold scan_entry at 2 in H. cbn in H.
  assert (∀ l, foldl (scan_entry md5 fuel dir) None l = None) as Hnone by (by induction l).
  destruct (has_suffix_ci name _); [|by apply (IH s)].
  destruct content as [data|]; [|by apply (IH s)].
  destruct (parse_par2_file md5 fuel s _ data) as [s1|] eqn:E; [|by rewrite Hnone in H].
  apply (IH s1); [|done]. unfold parse_par2_file in E. exact (parse_loop_ok _ _ _ _ _ _ _ Hs E).
Qed.

Lemma locate_block_covers s g i off :
  locate_block s g = Some (i, off) →
  ∃ f, ps_files s !! i = Some f ∧ covers f g = true ∧
    off = (g - pf_global_block_start f) * ps_block_size s.
Proof.
  unfold locate_block. generalize (ps_block_size s) as bs.
  assert (∀ bs fs k, locate_block_from k fs bs g = Some (i, off) →
    ∃ f, (k <= i)%nat ∧ fs !! (i - k)%nat = Some f ∧ covers f g = true ∧
      off = (g - pf_global_block_start f) * bs) as H.
  { intros bs fs. induction fs as [|f fs IH]; intros k; simpl; [done|].
    fold (covers f g). destruct (covers f g) eqn:E.
    - intros [= <- <-]. exists f. rewrite Nat.sub_diag. split_and!; done || lia.
    - intros (f' & Hk & Hf & Hc & Ho)%IH. exists f'. split_and!; try (done || lia).
      by replace (i - k)%nat with (S (i - S k)) by lia. }
  intros bs (f & _ & Hf & Hc & Ho)%H. rewrite Nat.sub_0_r in Hf. by exists f.
Qed.

(** What [par2_scan_dir] promises to the repair: every block number below the
    count belongs to exactly one file, and only those do. *)
Definition layout_tiles (s : par2_set) : Prop :=
  ∀ g,
    (0 <= g < ps_source_block_count s →
      ∃ i f, locate_block s g = Some (i, (g - pf_global_block_start f) * ps_block_size s) ∧
        ps_files s !! i = Some f ∧ covers f g = true ∧
        ∀ j f', ps_files s !! j = Some f' → covers f' g = true → j = i) ∧
    (locate_block s g ≠ None → 0 <= g < ps_source_block_count s).

Lemma layout_inv_tiles ids seen s :
  layout_inv ids seen (ps_files s) (ps_source_block_count s) → layout_tiles s.
Proof.
  intros [_ _ _ L4 L5 L6] g. split.
  - intros (j & f & Hj & Hc)%L5.
    destruct (locate_block_from_Some 0 _ (ps_block_size s) g j f Hj Hc) as (i & f' & H1 & H2 & H3).
    exists i, f'. split_and!; [done|done|done|]. intros k fk Hk Hck. by apply (L6 g k i fk f').
  - intros Hl. destruct (locate_block s g) as [[i off]|] eqn:E; [|done].
    apply locate_block_covers in E as (f & Hf & Hc & _). apply covers_true in Hc as [Hr Hc].
    destruct (proj1 (Forall_lookup _ _) L4 _ _ Hf Hr). lia.
Qed.

Lemma finalize_layout_tiles s :
  parsed_ok s → NoDup (take (ps_main_recoverable_count s) (default [] (ps_main_fileids s))) →
  layout_tiles (finalize_layout s).
Proof.
  intros (Hids & H0 & Hfresh) Hnd.
  assert (∀ r, 0 <= r → (∀ g, 0 <= g < r → False) →
    layout_inv (pf_fileid <$> ps_files s) [] (ps_files s) r) as Hinit.
  { intros r Hr Hg. assert (∀ i f g, ps_files s !! i = Some f → covers f g = false) as Hno.
    { intros i f g Hi. destruct (covers f g) eqn:E; [|done]. apply covers_true in E as [E _].
      destruct (proj1 (Forall_lookup _ _) Hfresh _ _ Hi). congruence. }
    constructor; try done.
    - eapply Forall_impl; [exact Hfresh|]. by intros f [_ ?].
    - eapply Forall_impl; [exact Hfresh|]. intros f [E _] E'. congruence.
    - intros g Hg'. by destruct (Hg g).
    - intros g i j fi fj Hi _ Hc _. by rewrite (Hno i fi g) in Hc. }
  assert (layout_inv (pf_fileid <$> ps_files s) [] (ps_files s) (ps_source_block_count s)) as Hs.
  { apply Hinit; rewrite H0; intros; lia. }
  unfold finalize_layout. destruct (ps_main_fileids s) as [ids|] eqn:E.
  2:{ by apply (layout_inv_tiles (pf_fileid <$> ps_files s) []). }
  destruct (0 <? ps_block_size s).
  2:{ by apply (layout_inv_tiles (pf_fileid <$> ps_files s) []). }
  simpl in Hnd. rewrite H0 in Hs.
  pose proof (layout_fold_inv _ (ps_block_size s) (take (ps_main_recoverable_count s) ids) []
    (ps_files s) 0 Hs Hnd) as Hf.
  destruct (foldl _ _ _) as [fs running]. by apply (layout_inv_tiles (pf_fileid <$> ps_files s) _
    (Par2Set (ps_block_size s) fs (ps_slices s) running None 0)) in Hf.
Qed.

(** The layout [par2_scan_dir] leaves tiles the block numbers, whatever
    the files of the directory hold, as long as no file id occurs twice among
    the recoverable ones of the Main packet: [locate_block] finds every number
    below [source_block_count] in exactly one file, at the offset of its place
    in it, and finds nothing else. *)
Theorem par2_layout_tiles (md5 : list byte → list byte)
    (qsort_slices : list par2_slice → list par2_slice) (fuel : nat) (dir : cstr)
    (ents : list (cstr * option (list byte))) (s0 : par2_set)
    (Hscan : foldl (scan_entry md5 fuel dir) (Some empty_set) ents = Some s0)
    (Hnd : NoDup (take (ps_main_recoverable_count s0) (default [] (ps_main_fileids s0)))) :
  ∃ s, par2_scan_dir md5 qsort_slices fuel dir ents = Some s ∧ layout_tiles s.
Proof.
  assert (parsed_ok s0) as Hok.
  { apply (scan_entries_ok md5 fuel dir ents empty_set); [|done].
    split_and!; [apply NoDup_nil_2|done|apply Forall_nil_2]. }
  pose proof (finalize_layout_tiles s0 Hok Hnd) as Ht.
  unfold par2_scan_dir. rewrite Hscan. cbn [option_bind mbind].
  eexists. split; [reflexivity|]. by destruct (_ <? _)%nat.
Qed.

Definition sample_dir : list (cstr * option (list byte)) :=
  [($ "a.PAR2", Some (mjoin (packet_bytes toy_md5 <$> sample_packets))); ($ "b.rar", None)].

Lemma par2_layout_tiles_witness :
  ∃ s, par2_scan_dir toy_md5 (λ l, l) 4 ($ "d") sample_dir = Some s ∧ layout_tiles s.
Proof.
  apply (par2_layout_tiles toy_md5 (λ l, l) 4 ($ "d") sample_dir
    (packets_effect toy_md5 ($ "d/a.PAR2") empty_set 0 sample_packets)).
  - vm_compute. reflexivity.
  - vm_compute. apply NoDup_singleton.
Defined.

(** A Main packet that lists the same id twice, and the file's description. *)
Definition twice_set : par2_set :=
  Par2Set 4 [Par2File ($ "f") (replicate 16 x01) [] [] 8 None [] 0 false 0] [] 0
    (Some [replicate 16 x01; replicate 16 x01]) 2.

(** The distinctness is needed: nothing in the code enforces it, and when
    a Main packet repeats a file id the first range of block numbers is left
    without a file, although [source_block_count] counts it. *)
Theorem par2_layout_gap_on_duplicate_id :
  ps_source_block_count (finalize_layout twice_set) = 4 ∧
  ∀ g, 0 <= g < 2 → locate_block (finalize_layout twice_set) g = None.
Proof.
  split; [by vm_compute|]. intros g Hg. assert (g = 0 ∨ g = 1) as [->| ->] by lia; by vm_compute.
Qed.

(** ** Verification *)

(** Block [bi] of a file, zero-padded: the reference. *)
Definition padded_block (data : list byte) (bs bi : nat) : list byte :=
  let l := take bs (drop (bi * bs) data) in l ++ replicate (bs - length l) x00.

Lemma fread_nat data pos n : fread data (Z.of_nat pos) n = take n (drop pos data).
Proof.
  unfold fread. destruct (Z.leb_spec (Z.of_nat (length data)) (Z.of_nat pos)).
  - rewrite drop_ge by lia. by rewrite take_nil.
  - by rewrite Nat2Z.id.
Qed.

Lemma read_block_padded data bs bi :
  read_block data (bi * bs) bs = (padded_block data bs bi, length (take bs (drop (bi * bs) data))).
Proof. unfold read_block, padded_block. by rewrite fread_nat. Qed.

(** The callback, if there is one, never asks to abort. *)
Definition never_aborts (pg : option par2_progress) : Prop :=
  match pg with
  | Some (Par2Progress _ _ (Some cb)) => ∀ d t, cb d t = false
  | _ => True
  end.

(** The progress after [n] more bytes. *)
Definition advance (pg : option par2_progress) (n : nat) : option par2_progress :=
  (λ pg, Par2Progress (pg_done pg + Z.of_nat n) (pg_total pg) (pg_cb pg)) <$> pg.

Lemma report_progress_advance pg n : fst (report_progress pg n) = advance pg n.
Proof. by destruct pg. Qed.

Lemma report_progress_never pg n :
  never_aborts pg → report_progress pg n = (advance pg n, false).
Proof. destruct pg as [[d t [cb|]]|]; intros H; cbn in *; [by rewrite H|done|done]. Qed.

Lemma never_aborts_advance pg n : never_aborts pg → never_aborts (advance pg n).
Proof. by destruct pg as [[d t [cb|]]|]. Qed.

Lemma advance_advance pg n m : advance (advance pg n) m = advance pg (n + m).
Proof. destruct pg; [|done]. cbn. do 2 f_equal. lia. Qed.

Lemma advance_0 pg : advance pg 0 = pg.
Proof. destruct pg as [[]|]; [|done]. cbn. by rewrite Z.add_0_r. Qed.

Lemma VERIFY_READ_CHUNK_pos : (0 < VERIFY_READ_CHUNK)%nat.
Proof. unfold VERIFY_READ_CHUNK. lia. Qed.

#[global] Opaque VERIFY_READ_CHUNK.

Lemma chunk_split {A} n pos (data : list A) :
  take n (drop pos data) ++ drop (n `min` (length data - pos)) (drop pos data) = drop pos data.
Proof.
  destruct (Nat.le_gt_cases n (length data - pos)).
  - rewrite Nat.min_l by lia. apply take_drop.
  - rewrite Nat.min_r by lia. rewrite take_ge, (drop_ge (drop pos data)), app_nil_r;
      rewrite ?length_drop; lia || done.
Qed.

(** A first pass that is not aborted digests the rest of the file. *)
Lemma hash_loop_result fuel data pos ctx pg c pg' :
  (length data - pos < fuel)%nat → hash_loop fuel data pos ctx pg = Some (c, pg') →
  c = ctx ++ drop pos data ∧ pg' = advance pg (length data - pos).
Proof.
  revert pos ctx pg. induction fuel as [|fuel IH]; intros pos ctx pg Hf; [lia|].
  cbn [hash_loop]. rewrite fread_nat. pose proof VERIFY_READ_CHUNK_pos as Hc.
  destruct (Nat.eqb_spec (length (take VERIFY_READ_CHUNK (drop pos data))) 0) as [H0|H0];
    rewrite length_take, length_drop in H0.
  - intros [= <- <-]. rewrite drop_ge, app_nil_r by lia.
    replace (length data - pos)%nat with O by lia. by rewrite advance_0.
  - destruct (report_progress pg _) as [pg1 stop] eqn:Hr. destruct stop; [done|].
    pose proof (report_progress_advance pg (length (take VERIFY_READ_CHUNK (drop pos data)))) as Hadv.
    rewrite Hr in Hadv. cbn [fst] in Hadv. subst pg1. intros Hl.
    apply IH in Hl; [|rewrite length_take, length_drop; lia]. destruct Hl as [-> ->].
    rewrite <- app_assoc, <- drop_drop, length_take, length_drop, chunk_split, advance_advance.
    split; [done|]. f_equal. lia.
Qed.

(** The first pass ends, unless the callback aborts it. *)
Lemma hash_loop_never fuel data pos ctx pg :
  never_aborts pg → is_Some (hash_loop fuel data pos ctx pg).
Proof.
  revert pos ctx pg. induction fuel as [|fuel IH]; intros pos ctx pg Hpg; cbn [hash_loop]; [by eexists|].
  destruct (_ =? 0)%nat; [by eexists|]. rewrite report_progress_never by done.
  by apply IH, never_aborts_advance.
Qed.

Lemma hash_loop_all fuel data pos ctx pg :
  never_aborts pg → (length data - pos < fuel)%nat →
  hash_loop fuel data pos ctx pg = Some (ctx ++ drop pos data, advance pg (length data - pos)).
Proof.
  intros Hpg Hf. destruct (hash_loop_never fuel data pos ctx pg Hpg) as [[c pg'] Hl].
  by destruct (hash_loop_result _ _ _ _ _ _ _ Hf Hl) as [-> ->].
Qed.

(** Only a file with the right digest verifies. *)
Lemma par2_verify_ok md5 s pf content pg report pg' :
  par2_verify_file md5 s pf content pg = Some (report, pg') → vr_result report = PAR2_VERIFY_OK →
  ∃ data, content = Some data ∧ md5 data = pf_hash_full pf.
Proof.
  unfold par2_verify_file. destruct content as [data|]; [|done]. cbn [mbind option_bind].
  destruct (hash_loop _ data 0 [] pg) as [[ctx pg1]|] eqn:Hl; [|done]. cbn [mbind option_bind].
  apply hash_loop_result in Hl as [-> ->]; [|lia]. cbn [app]. rewrite drop_0.
  case_decide as Hd; [intros _ _; by exists data|].
  destruct (pf_block_md5 pf) as [md5s|]; [|intros [= <- _]; done].
  destruct ((pf_block_count pf =? 0) || _); [intros [= <- _]; done|]. cbv zeta.
  destruct (block_loop _ _ _ _ _ _ _ _) as [bad pg2]. by intros [= <- _].
Qed.

(** The second pass counts the blocks that fail their entry. *)
Definition bad_blocks_of (md5 : list byte → list byte) (md5s : list (list byte)) (crcs : list Z)
    (data : list byte) (bs : nat) (bis : list nat) : list nat :=
  filter (λ bi, block_bad md5 md5s crcs bi (padded_block data bs bi) = true) bis.

Lemma block_loop_count md5 n bi data bs md5s crcs bad pg :
  ∃ pg', block_loop md5 n bi data bs md5s crcs bad pg =
    ((bad + length (bad_blocks_of md5 md5s crcs data bs (seq bi n)))%nat, pg').
Proof.
  revert bi bad pg. induction n as [|n IH]; intros bi bad pg; cbn [block_loop seq].
  - exists pg. by rewrite Nat.add_0_r.
  - rewrite read_block_padded. destruct (report_progress pg _) as [pg1 b].
    destruct (IH (S bi) (if block_bad md5 md5s crcs bi (padded_block data bs bi) then S bad else bad)
      pg1) as [pg' ->].
    exists pg'. unfold bad_blocks_of. rewrite filter_cons. f_equal.
    destruct (block_bad md5 md5s crcs bi (padded_block data bs bi)).
    + rewrite decide_True by done. simpl. lia.
    + by rewrite decide_False.
Qed.

(** The report the header promises. *)
Definition verify_spec (md5 : list byte → list byte) (s : par2_set) (pf : par2_file)
    (data : list byte) : par2_verify_report :=
  if decide (md5 data = pf_hash_full pf) then Par2VerifyReport PAR2_VERIFY_OK 0 0
  else match pf_block_md5 pf with
       | Some md5s =>
         if bool_decide (0 < pf_block_count pf ∧ 0 < ps_block_size s) then
           let n := Z.to_nat (pf_block_count pf) in
           Par2VerifyReport PAR2_VERIFY_DAMAGED
             (length (bad_blocks_of md5 md5s (pf_block_crc32 pf) data
                (Z.to_nat (ps_block_size s)) (seq 0 n))) n
         else Par2VerifyReport PAR2_VERIFY_UNKNOWN 0 0
       | None => Par2VerifyReport PAR2_VERIFY_UNKNOWN 0 0
       end.

Lemma par2_verify_file_eq md5 s pf data pg :
  never_aborts pg → 0 <= pf_block_count pf →
  fst <$> par2_verify_file md5 s pf (Some data) pg = Some (verify_spec md5 s pf data).
Proof.
  intros Hpg Hc. unfold par2_verify_file, verify_spec. cbn [mbind option_bind].
  rewrite hash_loop_all by (done || lia). change ([] ++ drop 0 data) with data. cbn [mbind option_bind].
  case_decide; [done|]. destruct (pf_block_md5 pf) as [md5s|]; [|done].
  destruct (Z.eqb_spec (pf_block_count pf) 0), (Z.leb_spec (ps_block_size s) 0); cbn [orb];
    try (rewrite bool_decide_false by lia; done).
  rewrite bool_decide_true by lia.
  match goal with |- context [block_loop md5 ?a ?b ?c ?d ?e ?f ?g ?h] =>
    destruct (block_loop_count md5 a b c d e f g h) as [pg' ->] end.
  done.
Qed.

(** C35: [par2_verify_file] on a readable file, with a callback that does not
    abort, answers OK exactly when the digest of the whole file is the one the
    FileDesc packet declares; otherwise it reports, over the zero-padded blocks
    of the file, how many fail their IFSC entry (UNKNOWN without entries), and
    [scan_block_damage], which the repair starts from, marks exactly those
    blocks. The chunked reads lose and repeat nothing. *)
Theorem par2_verify_file_spec (md5 : list byte → list byte) (s : par2_set) (pf : par2_file)
    (data : list byte) (pg : option par2_progress)
    (Hpg : never_aborts pg) (Hc : 0 <= pf_block_count pf) :
  fst <$> par2_verify_file md5 s pf (Some data) pg = Some (verify_spec md5 s pf data) ∧
  ∀ bi, scan_block_damage md5 s pf (Some data) !! bi = Some true ↔
    bi ∈ bad_blocks_of md5 (default [] (pf_block_md5 pf)) (pf_block_crc32 pf) data
      (Z.to_nat (ps_block_size s)) (seq 0 (Z.to_nat (pf_block_count pf))).
Proof.
  split; [by apply par2_verify_file_eq|]. intros bi.
  unfold scan_block_damage, bad_blocks_of.
  rewrite list_lookup_fmap, fmap_Some, list_elem_of_filter. setoid_rewrite lookup_seq.
  rewrite elem_of_seq. split.
  - intros (x & [-> Hx] & Hb). rewrite read_block_padded in Hb. split; [by symmetry|lia].
  - intros [Hb [_ Hx]]. exists bi. rewrite read_block_padded. split; [lia|by symmetry].
Qed.

Lemma par2_verify_file_spec_witness :
  fst <$> par2_verify_file toy_md5 (Par2Set 4 [] [] 0 None 0)
    (Par2File ($ "f") [] ($ "x") [] 6 (Some [toy_md5 ($ "abcd"); toy_md5 ($ "ef")]) [0; 1] 2 true 0)
    (Some ($ "abcdef")) None =
  Some (Par2VerifyReport PAR2_VERIFY_DAMAGED 2 2).
Proof.
  destruct (par2_verify_file_spec toy_md5 (Par2Set 4 [] [] 0 None 0)
    (Par2File ($ "f") [] ($ "x") [] 6 (Some [toy_md5 ($ "abcd"); toy_md5 ($ "ef")]) [0; 1] 2 true 0)
    ($ "abcdef") None I) as [-> _]; [cbn; lia|].
  vm_compute. reflexivity.
Defined.
