(* ===== verification/Par2Repair.v ===== *)
(** * PAR2 repair ([par2/par2.c], [par2_repair_set])

    The stages of [par2_repair_set] in the order of the code: the paths, the
    damage scan, the base values, the split of the block numbers, the choice
    of recovery slices, the solver, the chunked reconstruction and the final
    truncation. The file system is a map from paths to contents; memory
    allocation is taken to succeed, [writable] tells which paths can be opened
    for writing. *)

From Stdlib Require Import ZArith Lia List.
From Stdlib Require Import Strings.Byte Strings.String.
From stdpp Require Import base list gmap.
From S2P Require Import Prelude Crc32 Gf16 Rs Par2.

(** The messages [par2_repair_set] leaves in [err]. *)
Inductive repair_error :=
  | RE_no_layout
  | RE_not_in_job (name : cstr)
  | RE_too_many_blocks (total : Z)
  | RE_need_more (have need : nat)
  | RE_singular
  | RE_locate (gi : Z)
  | RE_read (name : cstr)
  | RE_read_slice (exponent : Z)
  | RE_write (name : cstr)
  | RE_aborted.

Record par2_repair_file := Par2RepairFile { rf_name : cstr; rf_path : cstr }.

Definition REPAIR_MEMORY_BUDGET : Z := 32 * 1024 * 1024.

Definition ll_clamp (value lo hi : Z) : Z :=
  if value <? lo then lo else if hi <? value then hi else value.

(** ** Paths and damage *)

(** [paths[i]]: [None] for a file outside the recovery set. *)
Definition resolve_path (files : list par2_repair_file) (pf : par2_file)
    : repair_error + option cstr :=
  if pf_in_recovery_set pf then
    match list_find (λ f, rf_name f = pf_name pf) files with
    | Some (_, f) => inr (Some (rf_path f))
    | None => inl (RE_not_in_job (pf_name pf))
    end
  else inr None.

Fixpoint resolve_paths (files : list par2_repair_file) (pfs : list par2_file)
    : repair_error + list (option cstr) :=
  match pfs with
  | [] => inr []
  | pf :: pfs =>
    match resolve_path files pf with
    | inl e => inl e
    | inr p => match resolve_paths files pfs with inl e => inl e | inr ps => inr (p :: ps) end
    end
  end.

(** [for (bi = 0; bi < pf->block_count; bi++) present[start + bi] = ok bi;] *)
Definition mark_blocks (start : Z) (flags : list bool) (present : list bool) : list bool :=
  foldl (λ present '(bi, ok), <[Z.to_nat (start + Z.of_nat bi) := ok]> present) present
    (imap (λ bi ok, (bi, ok)) flags).

Section repair.
Context (md5 : list byte → list byte).
(** Which paths [open(path, O_WRONLY | O_CREAT)] accepts. *)
Context (writable : cstr → bool).

Definition mark_file (s : par2_set) (fs : file_system) (present : list bool)
    (entry : par2_file * option cstr) : list bool :=
  match entry with
  | (pf, Some path) =>
    if pf_in_recovery_set pf then
      if bool_decide (is_Some (pf_block_md5 pf)) && (0 <? pf_block_count pf) then
        mark_blocks (pf_global_block_start pf)
          (negb <$> scan_block_damage md5 s pf (fs !! path)) present
      else
        let ok := bool_decide (hash_file_md5 md5 (fs !! path) = Some (pf_hash_full pf)) in
        mark_blocks (pf_global_block_start pf)
          (replicate (Z.to_nat (pf_block_count pf)) ok) present
    else present
  | (_, None) => present
  end.

Definition present_blocks (s : par2_set) (fs : file_system) (paths : list (option cstr))
    : list bool :=
  foldl (mark_file s fs) (replicate (Z.to_nat (ps_source_block_count s)) false)
    (zip (ps_files s) paths).

(** ** Base values and slices *)

(** [database]: [None] when [gf16_next_base] runs out. *)
Fixpoint assign_bases (n : nat) (base_state : Z) : option (list Z) :=
  match n with
  | O => Some []
  | S n =>
    '(base_state, base) ← gf16_next_base gf16_ready base_state;
    bases ← assign_bases n base_state;
    Some (base :: bases)
  end.

(** [datapresentindex] and [datamissingindex]. *)
Definition index_where (b : bool) (present : list bool) : list nat :=
  filter (λ i, present !! i = Some b) (seq 0 (length present)).

Record accepted_slice := AcceptedSlice {
  ac_path : cstr;
  ac_data_offset : Z;
  ac_exponent : Z
}.

(** The selection loop; [prev] is [prev_exp] once [have_prev]. *)
Fixpoint select_slices (fs : file_system) (block_size : Z) (want : nat) (prev : option Z)
    (sls : list par2_slice) : list accepted_slice :=
  match want, sls with
  | O, _ => []
  | _, [] => []
  | S want', sl :: sls =>
    if bool_decide (prev = Some (sl_exponent sl)) then select_slices fs block_size want prev sls
    else
      let prev := Some (sl_exponent sl) in
      if negb (sl_data_len sl =? block_size) then select_slices fs block_size want prev sls
      else if negb (slice_hash_ok md5 sl (fs !! sl_path sl))
      then select_slices fs block_size want prev sls
      else AcceptedSlice (str_fit 900 (sl_path sl)) (sl_data_offset sl) (u16 (sl_exponent sl)) ::
           select_slices fs block_size want' prev sls
  end.

(** ** Reconstruction *)

Definition chunk_size (datamissing : nat) (block_size : Z) : Z :=
  if REPAIR_MEMORY_BUDGET <? Z.of_nat datamissing * block_size then
    let c := REPAIR_MEMORY_BUDGET / Z.of_nat datamissing in
    let c := Z.land c (Z.lnot 1) in
    if c <? 4 then 4 else c
  else block_size.

(** [fseek(f, off, SEEK_SET)] and a read of exactly [n] bytes. *)
Definition read_exact (fs : file_system) (path : cstr) (off : Z) (n : nat)
    : option (list byte) :=
  data ← fs !! path;
  if off <? 0 then None
  else let got := fread data off n in
       if (length got =? n)%nat then Some got else None.

Definition locate_path (s : par2_set) (paths : list (option cstr)) (gi : Z)
    : option (par2_file * cstr * Z) :=
  '(i, base) ← locate_block s gi;
  pf ← ps_files s !! i;
  path ← mjoin (paths !! i);
  Some (pf, path, base).

(** [inbuf] for one column: a present block, or an accepted slice. *)
Definition read_present (s : par2_set) (fs : file_system) (paths : list (option cstr))
    (chunk_off : Z) (len : nat) (gi : nat) : repair_error + list byte :=
  match locate_path s paths (Z.of_nat gi) with
  | None => inl (RE_locate (Z.of_nat gi))
  | Some (pf, path, block_base) =>
    let valid := ll_clamp (pf_length pf - block_base - chunk_off) 0 (Z.of_nat len) in
    if 0 <? valid then
      match read_exact fs path (block_base + chunk_off) (Z.to_nat valid) with
      | None => inl (RE_read (pf_name pf))
      | Some l => inr (l ++ replicate (len - Z.to_nat valid) x00)
      end
    else inr (replicate len x00)
  end.

Definition read_slice (fs : file_system) (chunk_off : Z) (len : nat) (a : accepted_slice)
    : repair_error + list byte :=
  match read_exact fs (ac_path a) (ac_data_offset a + chunk_off) len with
  | None => inl (RE_read_slice (ac_exponent a))
  | Some l => inr l
  end.

(** The inner row loop of one column. *)
Definition accumulate (coeffs : list Z) (incount col : nat) (inbuf : list byte)
    (outbufs : list (list byte)) : list (list byte) :=
  imap (λ row out,
    let factor := mget incount coeffs row col in
    if factor =? 0 then out else gf16_mul_acc gf16_ready out inbuf factor) outbufs.

(** The column loop over the readers of the columns from [col] on. *)
Fixpoint column_loop (coeffs : list Z) (incount col len : nat)
    (readers : list (repair_error + list byte)) (outbufs : list (list byte))
    (pg : option par2_progress)
    : (repair_error + list (list byte)) * option par2_progress :=
  match readers with
  | [] => (inr outbufs, pg)
  | inl e :: _ => (inl e, pg)
  | inr inbuf :: readers =>
    let outbufs := accumulate coeffs incount col inbuf outbufs in
    let '(pg, stop) := report_progress pg len in
    if stop then (inl RE_aborted, pg)
    else column_loop coeffs incount (S col) len readers outbufs pg
  end.

(** The write loop over the missing blocks and their buffers. *)
Fixpoint write_rows (s : par2_set) (paths : list (option cstr)) (chunk_off : Z) (len : nat)
    (rows : list (nat * list byte)) (fs : file_system) : file_system * option repair_error :=
  match rows with
  | [] => (fs, None)
  | (gi, out) :: rows =>
    match locate_path s paths (Z.of_nat gi) with
    | None => (fs, Some (RE_locate (Z.of_nat gi)))
    | Some (pf, path, block_base) =>
      let write_len := ll_clamp (pf_length pf - block_base - chunk_off) 0 (Z.of_nat len) in
      if write_len <=? 0 then write_rows s paths chunk_off len rows fs
      else if negb (writable path) then (fs, Some (RE_write (pf_name pf)))
      else
        let data := default [] (fs !! path) in
        let fs := <[path := pwrite data (Z.to_nat (block_base + chunk_off))
                                   (take (Z.to_nat write_len) out)]> fs in
        write_rows s paths chunk_off len rows fs
    end
  end.

(** The loop over the chunks; every round advances by [chunksize]. *)
Fixpoint chunk_loop (fuel : nat) (s : par2_set) (paths : list (option cstr))
    (presents missing : list nat) (accepted : list accepted_slice) (coeffs : list Z)
    (chunksize chunk_off : Z) (fs : file_system) (pg : option par2_progress)
    : file_system * option par2_progress * option repair_error :=
  match fuel with
  | O => (fs, pg, None)
  | S fuel =>
    if chunk_off <? ps_block_size s then
      let remain := ps_block_size s - chunk_off in
      let len := Z.to_nat (if remain <? chunksize then remain else chunksize) in
      let outbufs := replicate (length missing) (replicate len x00) in
      let readers := (read_present s fs paths chunk_off len <$> presents) ++
                     (read_slice fs chunk_off len <$> accepted) in
      let '(r, pg) := column_loop coeffs (length presents + length missing) 0 len readers outbufs pg in
      match r with
      | inl e => (fs, pg, Some e)
      | inr outbufs =>
        match write_rows s paths chunk_off len (zip missing outbufs) fs with
        | (fs, Some e) => (fs, pg, Some e)
        | (fs, None) =>
          chunk_loop fuel s paths presents missing accepted coeffs chunksize
            (chunk_off + chunksize) fs pg
        end
      end
    else (fs, pg, None)
  end.

(** [truncate(path, length)]: cuts, or extends with zeros. *)
Definition truncate_to (n : nat) (data : list byte) : list byte :=
  take n data ++ replicate (n - length data) x00.

Definition truncate_file (fs : file_system) (entry : par2_file * option cstr) : file_system :=
  match entry with
  | (pf, Some path) =>
    if pf_in_recovery_set pf then
      match fs !! path with
      | Some data =>
        if (Z.of_nat (length data) =? pf_length pf) || (pf_length pf <? 0) then fs
        else <[path := truncate_to (Z.to_nat (pf_length pf)) data]> fs
      | None => fs
      end
    else fs
  | (_, None) => fs
  end.

(** [par2_repair_set]: the file system it leaves, the progress, and [None]
    for 0 or the error for -1. *)
Definition par2_repair_set (s : par2_set) (files : list par2_repair_file) (fs : file_system)
    (pg : option par2_progress) : file_system * option par2_progress * option repair_error :=
  if (ps_block_size s <=? 0) || (ps_source_block_count s <=? 0) then (fs, pg, Some RE_no_layout)
  else
    match resolve_paths files (ps_files s) with
    | inl e => (fs, pg, Some e)
    | inr paths =>
      let total_blocks := ps_source_block_count s in
      let present := present_blocks s fs paths in
      match assign_bases (Z.to_nat total_blocks) 0 with
      | None => (fs, pg, Some (RE_too_many_blocks total_blocks))
      | Some database =>
        let presents := index_where true present in
        let missing := index_where false present in
        if (length missing =? 0)%nat then (fs, pg, None)
        else
          let accepted := select_slices fs (ps_block_size s) (length missing) None (ps_slices s) in
          if (length accepted <? length missing)%nat
          then (fs, pg, Some (RE_need_more (length accepted) (length missing)))
          else
            let base i := default 0 (database !! i) in
            match gf16_solve (base <$> presents) (base <$> missing) (ac_exponent <$> accepted) with
            | None => (fs, pg, Some RE_singular)
            | Some coeffs =>
              match chunk_loop (Z.to_nat (ps_block_size s)) s paths presents missing accepted coeffs
                      (chunk_size (length missing) (ps_block_size s)) 0 fs pg with
              | (fs, pg, Some e) => (fs, pg, Some e)
              | (fs, pg, None) =>
                (foldl truncate_file fs (zip (ps_files s) paths), pg, None)
              end
            end
      end
    end.
End repair.
