(* ===== verification/Par2Restore.v ===== *)
(** * What a repair restores ([par2/par2.c], [par2_repair_set])

    The whole of [par2_repair_set] against its purpose: when it returns 0 after
    rebuilding blocks, every file of the recovery set is byte for byte the file
    the set was made from. A recovery set is what a PAR2 creator writes: digests
    of the original's zero-padded blocks, and recovery slices whose words are
    the sums of the blocks' words, each times its base to the slice's exponent. *)

From Stdlib Require Import ZArith Lia List.
From Stdlib Require Import Strings.Byte Strings.String.
From stdpp Require Import base list gmap.
From S2P Require Import Prelude Crc32 Gf16 Rs Par2 Par2Repair.

(** ** The originals *)

(** Byte [o] of a file's content, zero past its end. *)
Abbreviation byte_of l o := (nth o l x00) (only parsing).

Section originals.
Context (s : par2_set) (orig : nat → list byte).

(** Byte [o] of block [g], and its 16-bit word [w]. *)
Definition block_byte (g o : nat) : byte :=
  match locate_block s (Z.of_nat g) with
  | Some (i, base) => byte_of (orig i) (Z.to_nat base + o)
  | None => x00
  end.

Definition block_word (g w : nat) : Z := le16 (block_byte g (2 * w)) (block_byte g (2 * w + 1)).

(** Word [w] of the recovery block with exponent [e]. *)
Definition slice_word (bases : list Z) (e : Z) (w : nat) : Z :=
  sum_upto (length bases) (λ g,
    gf16_mul gf16_ready (gf16_pow gf16_ready (base_at bases g) e) (block_word g w)).

(** [len] bytes of block [g] from offset [c] on. *)
Definition block_chunk (g c len : nat) : list byte := (λ k, block_byte g (c + k)) <$> seq 0 len.

(** The packets describe the originals, and the layout is a layout. *)
Record describes (md5 : list byte → list byte) : Prop := {
  de_tiles : layout_tiles s;
  de_block_size : ps_block_size s mod 4 = 0;
  de_length : ∀ i pf, ps_files s !! i = Some pf → pf_in_recovery_set pf = true →
    pf_length pf = Z.of_nat (length (orig i)) ∧
    pf_length pf <= pf_block_count pf * ps_block_size s;
  de_hash : ∀ i pf, ps_files s !! i = Some pf → pf_in_recovery_set pf = true →
    pf_hash_full pf = md5 (orig i);
  de_blocks : ∀ i pf md5s bi, ps_files s !! i = Some pf → pf_in_recovery_set pf = true →
    pf_block_md5 pf = Some md5s → (bi < Z.to_nat (pf_block_count pf))%nat →
    nth bi md5s [] = md5 (padded_block (orig i) (Z.to_nat (ps_block_size s)) bi)
}.

(** MD5 has no second preimage among what is on the disk: a block, or a whole
    file, with the digest of the original's is the original's. *)
Definition no_collision (md5 : list byte → list byte) (fs : file_system)
    (paths : list (option cstr)) : Prop :=
  ∀ i path data, paths !! i = Some (Some path) → fs !! path = Some data →
    (md5 data = md5 (orig i) → data = orig i) ∧
    ∀ bi, md5 (padded_block data (Z.to_nat (ps_block_size s)) bi) =
          md5 (padded_block (orig i) (Z.to_nat (ps_block_size s)) bi) →
      padded_block data (Z.to_nat (ps_block_size s)) bi =
      padded_block (orig i) (Z.to_nat (ps_block_size s)) bi.

(** A slice that passes its own hash holds its recovery block, and lies in a
    file that is not repaired. *)
Definition slices_hold (md5 : list byte → list byte) (bases : list Z) (fs : file_system)
    (paths : list (option cstr)) : Prop :=
  ∀ sl data, sl ∈ ps_slices s → sl_data_len sl = ps_block_size s →
    slice_hash_ok md5 sl (fs !! sl_path sl) = true → fs !! sl_path sl = Some data →
    (length (sl_path sl) < 900)%nat ∧ (Some (sl_path sl) ∉ paths) ∧
    ∀ w, (2 * Z.of_nat w < ps_block_size s) →
      le16 (byte_of data (Z.to_nat (sl_data_offset sl) + 2 * w))
           (byte_of data (Z.to_nat (sl_data_offset sl) + 2 * w + 1)) =
      slice_word bases (u16 (sl_exponent sl)) w.
End originals.

(** No two files of the set share a path. *)
Definition paths_distinct (paths : list (option cstr)) : Prop :=
  ∀ i j path, paths !! i = Some (Some path) → paths !! j = Some (Some path) → i = j.

(** ** Bytes of file contents *)

Lemma byte_of_pwrite_in data off buf i :
  (off <= i < off + length buf)%nat → byte_of (pwrite data off buf) i = byte_of buf (i - off).
Proof. intros Hi. by rewrite !nth_lookup, lookup_pwrite_in. Qed.

Lemma byte_of_pwrite_out data off buf i :
  (i < off ∨ off + length buf <= i)%nat → byte_of (pwrite data off buf) i = byte_of data i.
Proof.
  intros Hi. rewrite !nth_lookup. destruct (decide (i < length data)%nat) as [Hd|Hd].
  - by rewrite lookup_pwrite_out.
  - rewrite (lookup_ge_None_2 data i) by lia. unfold pwrite.
    destruct (decide (i < off)%nat) as [Ho|Ho].
    + rewrite lookup_app_r by (rewrite length_take; lia).
      rewrite lookup_app_l by (rewrite length_take, length_replicate; lia).
      rewrite length_take. rewrite lookup_replicate_2 by lia. done.
    + rewrite lookup_ge_None_2; [done|].
      rewrite !length_app, length_take, length_replicate, length_drop. lia.
Qed.

Lemma byte_of_truncate n data i :
  (i < n)%nat → byte_of (truncate_to n data) i = byte_of data i.
Proof.
  intros Hi. rewrite !nth_lookup. unfold truncate_to.
  destruct (decide (i < length data)%nat) as [Hd|Hd].
  - rewrite lookup_app_l by (rewrite length_take; lia). by rewrite lookup_take_lt.
  - rewrite (lookup_ge_None_2 data i) by lia.
    rewrite lookup_app_r by (rewrite length_take; lia). rewrite length_take.
    rewrite lookup_replicate_2 by lia. done.
Qed.

Lemma length_truncate n data : length (truncate_to n data) = n.
Proof. unfold truncate_to. rewrite length_app, length_take, length_replicate. lia. Qed.

(** Contents of one length with the same bytes are the same. *)
Lemma byte_of_ext l l' :
  length l = length l' → (∀ i, (i < length l)%nat → byte_of l i = byte_of l' i) → l = l'.
Proof. intros Hl H. by apply (nth_ext l l' x00 x00). Qed.

Lemma byte_of_app_l l l' i : (i < length l)%nat → byte_of (l ++ l') i = byte_of l i.
Proof. intros Hi. by apply app_nth1. Qed.

Lemma byte_of_take n l i : (i < n)%nat → byte_of (take n l) i = byte_of l i.
Proof. intros Hi. by rewrite !nth_lookup, lookup_take_lt. Qed.

Lemma byte_of_drop n l i : byte_of (drop n l) i = byte_of l (n + i).
Proof. by rewrite !nth_lookup, lookup_drop. Qed.

Lemma byte_of_padded data bs bi o :
  (o < bs)%nat → byte_of (padded_block data bs bi) o = byte_of data (bi * bs + o).
Proof.
  intros Ho. unfold padded_block. cbv zeta. rewrite <- byte_of_drop, <- (byte_of_take bs (drop (bi * bs) data)) by done.
  set (l := take bs _). destruct (decide (o < length l)%nat).
  - by apply byte_of_app_l.
  - rewrite !nth_lookup, lookup_app_r, lookup_replicate_2, lookup_ge_None_2 by
      (subst l; rewrite ?length_take, ?length_drop in *; lia). done.
Qed.

Lemma block_chunk_length s orig g c len : length (block_chunk s orig g c len) = len.
Proof. unfold block_chunk. by rewrite length_fmap, length_seq. Qed.

Lemma byte_of_chunk s orig g c len k :
  (k < len)%nat → byte_of (block_chunk s orig g c len) k = block_byte s orig g (c + k).
Proof.
  intros Hk. unfold block_chunk. rewrite nth_lookup, list_lookup_fmap, lookup_seq_lt by done. done.
Qed.

(** ** The columns of one chunk *)

Definition word_of (l : list byte) (w : nat) : Z := le16 (byte_of l (2 * w)) (byte_of l (2 * w + 1)).

Lemma word_of_chunk s orig g c len w :
  (2 * w + 1 < len)%nat →
  word_of (block_chunk s orig g (2 * c) len) w = block_word s orig g (c + w).
Proof.
  intros Hw. unfold word_of, block_word. rewrite !byte_of_chunk by lia. f_equal; f_equal; lia.
Qed.

(** Buffers of one even length with the same words are the same. *)
Lemma word_of_ext l l' :
  length l = length l' → Nat.Even (length l) →
  (∀ w, (2 * w + 1 < length l)%nat → word_of l w = word_of l' w) → l = l'.
Proof.
  intros Hl [k Hk] H. apply byte_of_ext; [done|]. intros i Hi.
  pose proof (Nat.div_mod_eq i 2). pose proof (Nat.mod_upper_bound i 2 ltac:(done)).
  destruct (le16_inj _ _ _ _ (H (i / 2)%nat ltac:(lia))) as [Hlo Hhi].
  destruct (Nat.Even_or_Odd i) as [[m ->]|[m ->]].
  - by replace (2 * m / 2)%nat with m in Hlo by lia.
  - by replace ((2 * m + 1) / 2)%nat with m in Hhi by lia.
Qed.

Lemma word_of_mul_acc dst src f w :
  gf_ok f → length dst = length src → (2 * w + 1 < length dst)%nat →
  word_of (gf16_mul_acc gf16_ready dst src f) w =
  Z.lxor (word_of dst w) (gf16_mul gf16_ready f (word_of src w)).
Proof.
  intros Hf Hl Hw. pose proof (mul_acc_words dst src f Hf ltac:(lia)) as H.
  apply (f_equal (λ l, l !! w)) in H.
  rewrite lookup_zip_with, !words_lookup in H by (rewrite ?length_mul_acc; lia).
  cbv [mbind option_bind] in H. apply (inj Some) in H. unfold word_of. rewrite H. f_equal.
  apply gf_mul_comm; [apply le16_ok|done].
Qed.

Lemma accumulate_lookup coeffs n col inbuf outs r :
  accumulate coeffs n col inbuf outs !! r =
  (λ out, gf16_mul_acc gf16_ready out inbuf (mget n coeffs r col)) <$> outs !! r.
Proof.
  unfold accumulate. rewrite list_lookup_imap. destruct (outs !! r) as [out|]; [|done]. simpl.
  f_equal. unfold gf16_mul_acc. by destruct (_ =? 0).
Qed.

Lemma accumulate_lengths coeffs n col inbuf outs len :
  Forall (λ o, length o = len) outs →
  Forall (λ o, length o = len) (accumulate coeffs n col inbuf outs) ∧
  length (accumulate coeffs n col inbuf outs) = length outs.
Proof.
  intros Ho. split; [|apply length_imap]. apply Forall_lookup. intros r out.
  rewrite accumulate_lookup. intros (o & Hr & ->)%fmap_Some. rewrite length_mul_acc.
  by apply (Forall_lookup_1 _ _ _ _ Ho Hr).
Qed.

Lemma sum_upto_first n f : sum_upto (S n) f = Z.lxor (f O) (sum_upto n (λ i, f (S i))).
Proof. change (S n) with (1 + n)%nat. rewrite sum_upto_add. f_equal. unfold sum_upto. simpl. apply Z.lxor_0_r. Qed.

(** The column loop leaves in each row the sum of the columns times the row's
    coefficients. *)
Lemma column_loop_words coeffs n len readers col outs pg outs' pg' :
  (∀ r c, (r < length outs)%nat → (c < n)%nat → gf_ok (mget n coeffs r c)) →
  (col + length readers <= n)%nat →
  Forall (λ o, length o = len) outs → (∀ b, inr b ∈ readers → length b = len) →
  column_loop coeffs n col len readers outs pg = (inr outs', pg') →
  ∃ bufs, readers = inr <$> bufs ∧ length outs' = length outs ∧
    Forall (λ o, length o = len) outs' ∧
    ∀ r w out out', outs !! r = Some out → outs' !! r = Some out' → (2 * w + 1 < len)%nat →
      word_of out' w = Z.lxor (word_of out w) (sum_upto (length bufs) (λ c,
        gf16_mul gf16_ready (mget n coeffs r (col + c)) (word_of (nth c bufs []) w))).
Proof.
  revert col outs pg. induction readers as [|[e|b] readers IH]; intros col outs pg Hok Hn Ho Hlen;
    cbn [column_loop length] in *.
  - intros [= <- <-]. exists []. split_and!; [done|done|done|]. intros. simplify_eq.
    by rewrite Z.lxor_0_r.
  - done.
  - destruct (report_progress pg len) as [pg1 []]; [done|]. intros Hrun.
    destruct (accumulate_lengths coeffs n col b outs len Ho) as [Ho1 Hl1].
    apply IH in Hrun as (bufs & -> & Hl' & Ho' & Hw); [|by rewrite Hl1|lia|done|].
    + exists (b :: bufs). split_and!; [done|lia|done|].
      intros r w out out' Hr Hr' Hlt.
      assert (accumulate coeffs n col b outs !! r =
        Some (gf16_mul_acc gf16_ready out b (mget n coeffs r col))) as Ha
        by (by rewrite accumulate_lookup, Hr).
      rewrite (Hw r w _ out' Ha Hr' Hlt). pose proof (Forall_lookup_1 _ _ _ _ Ho Hr) as Hout.
      simpl in Hout. pose proof (lookup_lt_Some _ _ _ Hr).
      pose proof (Hlen b (list_elem_of_here _ _)).
      rewrite word_of_mul_acc by (first [apply Hok; lia|lia]).
      cbn [length]. rewrite sum_upto_first, Nat.add_0_r, Z.lxor_assoc. cbn [nth]. apply (f_equal (Z.lxor _)), (f_equal (Z.lxor _)).
      apply sum_upto_ext. intros i _. by rewrite Nat.add_succ_r.
    + intros x Hx. apply Hlen. by apply list_elem_of_further.
Qed.

(** ** Sums over all blocks *)

Definition sum_list (l : list nat) (f : nat → Z) : Z := foldr (λ i acc, Z.lxor (f i) acc) 0 l.

Lemma sum_list_perm l l' f : l ≡ₚ l' → sum_list l f = sum_list l' f.
Proof.
  induction 1 as [|x l l' _ IH|x y l|l1 l2 l3 _ IH1 _ IH2]; simpl; [done|by rewrite IH| |congruence].
  apply lxor_swap.
Qed.

Lemma sum_list_app l l' f : sum_list (l ++ l') f = Z.lxor (sum_list l f) (sum_list l' f).
Proof. induction l as [|x l IH]; simpl; [done|]. by rewrite IH, Z.lxor_assoc. Qed.

Lemma sum_upto_list l f : sum_upto (length l) (λ c, f (nth c l O)) = sum_list l f.
Proof.
  induction l as [|x l IH]; [done|]. cbn [length]. rewrite sum_upto_first. simpl. by rewrite <- IH.
Qed.

(** A recovery word, split over the blocks that are there and those that are not. *)
Lemma slice_word_split s orig bases e w presents missing :
  presents ++ missing ≡ₚ seq 0 (length bases) →
  let term g := gf16_mul gf16_ready (gf16_pow gf16_ready (base_at bases g) e) (block_word s orig g w) in
  slice_word s orig bases e w =
  Z.lxor (sum_upto (length presents) (λ c, term (nth c presents O)))
         (sum_upto (length missing) (λ c, term (nth c missing O))).
Proof.
  intros Hp term. rewrite !sum_upto_list, <- sum_list_app. symmetry. by apply sum_list_perm.
Qed.

(** The solver's answer for the words at one offset; its coefficients are field
    elements. *)
Lemma solver_word s orig bases exps presents missing coeffs w r :
  Forall gf_ok bases → presents ++ missing ≡ₚ seq 0 (length bases) →
  Forall (λ e, 0 <= e < 65536) exps → length exps = length missing →
  gf16_solve (base_at bases <$> presents) (base_at bases <$> missing) exps = Some coeffs →
  (r < length missing)%nat →
  block_word s orig (nth r missing O) w =
  sum_upto (length presents + length missing) (λ c,
    gf16_mul gf16_ready (mget (length presents + length missing) coeffs r c)
      (if decide (c < length presents)%nat then block_word s orig (nth c presents O) w
       else slice_word s orig bases (exp_at exps (c - length presents)) w)) ∧
  ∀ c, (c < length presents + length missing)%nat →
    gf_ok (mget (length presents + length missing) coeffs r c).
Proof.
  intros Hb Hperm He Hl Hs Hr.
  assert (∀ g, gf_ok (base_at bases g)) as Hbase.
  { intros g. unfold base_at. destruct (bases !! g) eqn:E; [|apply gf_ok_0].
    exact (Forall_lookup_1 _ _ _ _ Hb E). }
  assert (∀ l c, (c < length l)%nat → base_at (base_at bases <$> l) c = base_at bases (nth c l O)) as Hat.
  { intros l c Hc. unfold base_at at 1. rewrite list_lookup_fmap, nth_lookup.
    destruct (lookup_lt_is_Some_2 l c Hc) as [g ->]. done. }
  assert (∀ b e, b ∈ (base_at bases <$> presents) ++ (base_at bases <$> missing) → e ∈ exps →
    gf_ok (gf16_pow gf16_ready b e)) as Hpow.
  { intros b e Hin Hine. rewrite Forall_forall in He. apply gf16_pow_ok; [|by apply He].
    rewrite <- fmap_app in Hin. apply list_elem_of_fmap in Hin as (g & -> & _). apply Hbase. }
  assert (∀ k, gf_ok (slice_word s orig bases (exp_at exps k) w)) as Hslice.
  { intros k. unfold slice_word. apply (sum_upto_ok (mul := gf16_mul gf16_ready) (div := gf16_div gf16_ready)). intros g _.
    apply gf16_mul_ok_ready; [|apply le16_ok]. apply gf16_pow_ok; [apply Hbase|].
    unfold exp_at. destruct (exps !! k) eqn:E; [|simpl; lia].
    exact (Forall_lookup_1 _ _ _ _ He E). }
  assert (∀ k, (k < length (base_at bases <$> missing))%nat →
    slice_word s orig bases (exp_at exps k) w =
    recovery_word (gf16_pow gf16_ready) (base_at bases <$> presents) (base_at bases <$> missing) exps
      (λ c, block_word s orig (nth c presents O) w) (λ c, block_word s orig (nth c missing O) w) k) as Hrec.
  { intros k Hk. unfold recovery_word. rewrite !length_fmap.
    pose proof (slice_word_split s orig bases (exp_at exps k) w presents missing Hperm) as Hsp.
    cbv zeta in Hsp. refine (eq_trans Hsp _).
    apply (f_equal2 Z.lxor); apply sum_upto_ext; intros c Hc; by rewrite Hat. }
  assert (length (base_at bases <$> missing) <= length exps)%nat as Hle by (rewrite length_fmap; lia).
  assert (r < length (base_at bases <$> missing))%nat as Hr' by (by rewrite length_fmap).
  pose proof (λ g, le16_ok (block_byte s orig g (2 * w)) (block_byte s orig g (2 * w + 1))) as Hwd.
  split.
  - pose proof (solve_recovers _ _ _ _ Hle Hpow _ _ _ (λ c, Hwd (nth c presents O))
      (λ c, Hwd (nth c missing O)) Hslice Hrec coeffs r Hs Hr') as H.
    rewrite !length_fmap in H. refine (eq_trans H _).
    apply sum_upto_ext. intros c _. unfold input_word. by rewrite length_fmap.
  - intros c Hc. pose proof (solve_coeffs_ok _ _ _ _ Hle Hpow _ _ _ (λ c, Hwd (nth c presents O))
      (λ c, Hwd (nth c missing O)) Hslice Hrec coeffs r c Hs Hr') as H.
    rewrite !length_fmap in H. by apply H.
Qed.

(** ** The blocks on the disk *)

(** The file at [path] exists and has byte [b] at [o], zero past its end. *)
Definition holds (fs : file_system) (path : cstr) (o : nat) (b : byte) : Prop :=
  ∃ data, fs !! path = Some data ∧ byte_of data o = b.

Section blocks.
Context (writable : cstr → bool) (s : par2_set) (orig : nat → list byte).
Context (md5 : list byte → list byte) (paths : list (option cstr)).
Hypothesis Hdesc : describes s orig md5.
Hypothesis Hpos : 0 < ps_block_size s.
Hypothesis Hdist : paths_distinct paths.

(** The first [c] bytes of block [g] are on the disk, as far as its file goes. *)
Definition block_good (fs : file_system) (g c : nat) : Prop :=
  ∀ i base path o, locate_block s (Z.of_nat g) = Some (i, base) → paths !! i = Some (Some path) →
    (o < c)%nat → (Z.to_nat base + o < length (orig i))%nat →
    holds fs path (Z.to_nat base + o) (byte_of (orig i) (Z.to_nat base + o)).

Lemma tiles_locate i pf g :
  ps_files s !! i = Some pf → covers pf g = true →
  locate_block s g = Some (i, (g - pf_global_block_start pf) * ps_block_size s) ∧
  0 <= g < ps_source_block_count s.
Proof using Hdesc.
  intros Hi Hc. destruct (de_tiles _ _ _ Hdesc g) as [H1 H2].
  destruct (locate_block_from_Some 0 _ (ps_block_size s) g i pf Hi Hc) as (j & f & Hl & _ & _).
  assert (0 <= g < ps_source_block_count s) as Hg by (apply H2; unfold locate_block; by rewrite Hl).
  destruct (H1 Hg) as (k & f' & Hk & Hf & _ & Huniq).
  pose proof (Huniq i pf Hi Hc) as ->. by simplify_eq.
Qed.

Lemma locate_spec g i base :
  locate_block s g = Some (i, base) →
  ∃ pf, ps_files s !! i = Some pf ∧ pf_in_recovery_set pf = true ∧ covers pf g = true ∧
    base = (g - pf_global_block_start pf) * ps_block_size s ∧ 0 <= base ∧
    pf_length pf = Z.of_nat (length (orig i)).
Proof using Hdesc Hpos.
  intros Hl. destruct (locate_block_covers s g i base Hl) as (pf & Hf & Hc & Hb).
  pose proof Hc as [Hr Hg]%covers_true. destruct (de_length _ _ _ Hdesc i pf Hf Hr) as [Hlen _].
  exists pf. split_and!; [done..| |done]. nia.
Qed.

Lemma block_byte_locate g i base o :
  locate_block s (Z.of_nat g) = Some (i, base) →
  block_byte s orig g o = byte_of (orig i) (Z.to_nat base + o).
Proof using. intros Hl. unfold block_byte. by rewrite Hl. Qed.

Lemma byte_of_fread data pos n k :
  0 <= pos → (k < n)%nat → byte_of (fread data pos n) k = byte_of data (Z.to_nat pos + k).
Proof using.
  intros Hp Hk. replace pos with (Z.of_nat (Z.to_nat pos)) at 1 by lia.
  by rewrite fread_nat, byte_of_take, byte_of_drop.
Qed.

Lemma read_exact_spec fs path off n l :
  read_exact fs path off n = Some l →
  ∃ data, fs !! path = Some data ∧ length l = n ∧ 0 <= off ∧
    ∀ k, (k < n)%nat → byte_of l k = byte_of data (Z.to_nat off + k).
Proof using.
  unfold read_exact. destruct (fs !! path) as [data|]; [|done]. simpl.
  destruct (Z.ltb_spec off 0); [done|].
  destruct (Nat.eqb_spec (length (fread data off n)) n) as [Hl|]; [|done]. intros [= <-].
  exists data. split_and!; [done|done|done|]. intros k Hk. by apply byte_of_fread.
Qed.

(** A present block is read as it is in the original. *)
Lemma read_present_good fs g c len l :
  block_good fs g (c + len) → read_present s fs paths (Z.of_nat c) len g = inr l →
  l = block_chunk s orig g c len.
Proof using Hdesc Hpos.
  intros Hg. unfold read_present, locate_path.
  destruct (locate_block s (Z.of_nat g)) as [[i base]|] eqn:Hl; [|done].
  destruct (locate_spec _ _ _ Hl) as (pf & Hf & _ & _ & _ & Hb & Hlen).
  cbv [mbind option_bind]. rewrite Hf. destruct (mjoin (paths !! i)) as [path|] eqn:Hp; [|done].
  assert (paths !! i = Some (Some path)) as Hpath by (destruct (paths !! i) as [[]|]; simplify_eq/=; done).
  rewrite Hlen. set (v := ll_clamp _ 0 _).
  assert (0 <= v <= Z.of_nat len ∧ (0 < v → v <= Z.of_nat (length (orig i)) - base - Z.of_nat c) ∧
    (v < Z.of_nat len → Z.of_nat (length (orig i)) - base - Z.of_nat c <= v)) as (Hv & Hv1 & Hv2).
  { subst v. unfold ll_clamp. bool_cases; lia. }
  clearbody v. destruct (Z.ltb_spec 0 v) as [Hpv|Hnv].
  - destruct (read_exact fs path _ _) as [l0|] eqn:Hr; [|done]. intros [= <-].
    apply read_exact_spec in Hr as (data & Hd & Hl0 & Hoff & Hbytes).
    apply byte_of_ext; rewrite length_app, length_replicate, Hl0.
    { rewrite block_chunk_length. lia. }
    intros k Hk. rewrite byte_of_chunk by lia. rewrite (block_byte_locate _ _ _ _ Hl).
    destruct (decide (k < Z.to_nat v)%nat) as [Hkv|Hkv].
    + rewrite byte_of_app_l by lia. rewrite Hbytes by done.
      destruct (Hg i base path (c + k)%nat Hl Hpath ltac:(lia) ltac:(lia)) as (d & Hd' & <-).
      simplify_eq. f_equal. lia.
    + rewrite !nth_lookup, lookup_app_r, lookup_replicate_2, lookup_ge_None_2 by lia. done.
  - intros [= <-]. apply byte_of_ext; rewrite length_replicate.
    { by rewrite block_chunk_length. }
    intros k Hk. rewrite byte_of_chunk by done. rewrite (block_byte_locate _ _ _ _ Hl).
    rewrite !nth_lookup, lookup_replicate_2, lookup_ge_None_2 by lia. done.
Qed.

(** An accepted slice is read as its recovery block, whatever was written to
    the files under repair. *)
Definition slice_good (bases : list Z) (fs : file_system) (a : accepted_slice) : Prop :=
  ∃ data, fs !! ac_path a = Some data ∧ (Some (ac_path a) ∉ paths) ∧ 0 <= ac_data_offset a ∧
    ∀ w, 2 * Z.of_nat w < ps_block_size s →
      word_of (drop (Z.to_nat (ac_data_offset a)) data) w = slice_word s orig bases (ac_exponent a) w.

Lemma read_slice_good bases fs a c len l w :
  slice_good bases fs a → read_slice fs (Z.of_nat (2 * c)) len a = inr l →
  (2 * w + 1 < len)%nat → Z.of_nat (2 * c + len) <= ps_block_size s →
  length l = len ∧ word_of l w = slice_word s orig bases (ac_exponent a) (c + w).
Proof using.
  intros (data & Hd & _ & Ho & Hw) Hr Hlt Hle. unfold read_slice in Hr.
  destruct (read_exact _ _ _ _) as [l0|] eqn:E; [|done]. simplify_eq.
  apply read_exact_spec in E as (data' & Hd' & Hl & _ & Hb). simplify_eq. split; [done|].
  rewrite <- Hw by lia. unfold word_of. rewrite !Hb, !byte_of_drop by lia.
  f_equal; f_equal; lia.
Qed.

(** ** The writes of one chunk *)

(** A byte of an original that is on the disk. *)
Definition restored (fs : file_system) (i o : nat) : Prop :=
  ∃ path, paths !! i = Some (Some path) ∧ holds fs path o (byte_of (orig i) o).

(** What is on the disk of the originals stays, and no other file changes. *)
Definition improves (fs fs' : file_system) : Prop :=
  (∀ i o, restored fs i o → restored fs' i o) ∧ (∀ p, Some p ∉ paths → fs' !! p = fs !! p).

Lemma improves_refl fs : improves fs fs.
Proof using. by split. Qed.

Lemma improves_trans fs fs1 fs2 : improves fs fs1 → improves fs1 fs2 → improves fs fs2.
Proof using. intros [H1 H2] [H3 H4]. split; [eauto|]. intros p Hp. by rewrite H4, H2. Qed.

Lemma block_good_restored fs g c :
  (block_good fs g c ↔ ∀ i base path o, locate_block s (Z.of_nat g) = Some (i, base) →
    paths !! i = Some (Some path) → (o < c)%nat → (Z.to_nat base + o < length (orig i))%nat →
    restored fs i (Z.to_nat base + o)).
Proof using.
  split; intros H i base path o Hl Hp Ho Hlt.
  - exists path. split; [done|]. by apply (H i base path o).
  - destruct (H i base path o Hl Hp Ho Hlt) as (p & Hp' & Hh). by simplify_eq.
Qed.

Lemma block_good_improves fs fs' g c : improves fs fs' → block_good fs g c → block_good fs' g c.
Proof using. intros [Hi _]. rewrite !block_good_restored. eauto. Qed.

Lemma slice_good_improves bases fs fs' a :
  improves fs fs' → slice_good bases fs a → slice_good bases fs' a.
Proof using.
  intros [_ Hi] (data & Hd & Hp & H). exists data. by rewrite Hi.
Qed.

(** Writing a piece of an original into its file. *)
Lemma write_piece fs i path pos buf :
  paths !! i = Some (Some path) →
  (∀ k, (k < length buf)%nat → byte_of buf k = byte_of (orig i) (pos + k)) →
  let fs' := <[path := pwrite (default [] (fs !! path)) pos buf]> fs in
  improves fs fs' ∧ ∀ o, (pos <= o < pos + length buf)%nat → restored fs' i o.
Proof using Hdist.
  intros Hp Hbuf fs'. split; [split|].
  - intros j o (p & Hj & data & Hd & Hb). exists p. split; [done|].
    unfold holds, fs'. destruct (decide (p = path)) as [->|Hne].
    + pose proof (Hdist i j path Hp Hj) as <-. eexists. split; [apply lookup_insert_eq|].
      rewrite Hd. cbn [default from_option id].
      destruct (decide (pos <= o < pos + length buf)%nat) as [Hin|Hout].
      * rewrite byte_of_pwrite_in, Hbuf by lia. f_equal. lia.
      * rewrite byte_of_pwrite_out by lia. done.
    + exists data. by rewrite lookup_insert_ne by done.
  - intros p Hnin. unfold fs'. apply lookup_insert_ne. intros <-. apply Hnin.
    by apply (list_elem_of_lookup_2 _ i).
  - intros o Ho. exists path. split; [done|]. eexists. split; [apply lookup_insert_eq|].
    rewrite byte_of_pwrite_in, Hbuf by lia. f_equal. lia.
Qed.

(** Writing correct rows. *)
Lemma write_rows_good c len rows fs fs' :
  (∀ g out, (g, out) ∈ rows → out = block_chunk s orig g c len) →
  write_rows writable s paths (Z.of_nat c) len rows fs = (fs', None) →
  improves fs fs' ∧ ∀ g out, (g, out) ∈ rows → block_good fs g c → block_good fs' g (c + len).
Proof using Hdesc Hpos Hdist.
  revert fs. induction rows as [|[g out] rows IH]; intros fs Hrows Hrun; cbn [write_rows] in Hrun.
  { simplify_eq. split; [apply improves_refl|]. intros g out Hin. by apply elem_of_nil in Hin. }
  assert (∀ g out, (g, out) ∈ rows → out = block_chunk s orig g c len) as Hrows'
    by (intros ???; apply Hrows; by apply list_elem_of_further).
  unfold locate_path in Hrun.
  destruct (locate_block s (Z.of_nat g)) as [[i base]|] eqn:Hl; [|done].
  destruct (locate_spec _ _ _ Hl) as (pf & Hf & _ & _ & _ & Hb & Hlen).
  cbv [mbind option_bind] in Hrun. rewrite Hf in Hrun.
  destruct (mjoin (paths !! i)) as [path|] eqn:Hp; [|done].
  assert (paths !! i = Some (Some path)) as Hpath by (destruct (paths !! i) as [[]|]; simplify_eq/=; done).
  rewrite Hlen in Hrun. set (v := ll_clamp _ 0 _) in Hrun.
  assert (0 <= v <= Z.of_nat len ∧ (0 < v → v <= Z.of_nat (length (orig i)) - base - Z.of_nat c) ∧
    (v < Z.of_nat len → Z.of_nat (length (orig i)) - base - Z.of_nat c <= v)) as (Hv & Hv1 & Hv2).
  { subst v. unfold ll_clamp. bool_cases; lia. }
  clearbody v. set (rest := λ fs1, improves fs fs1 ∧
    ∀ o, (c <= o < c + len)%nat → (Z.to_nat base + o < length (orig i))%nat →
      restored fs1 i (Z.to_nat base + o)).
  assert (∃ fs1, rest fs1 ∧ write_rows writable s paths (Z.of_nat c) len rows fs1 = (fs', None))
    as (fs1 & [Himp Hdone] & Hrun').
  { destruct (Z.leb_spec v 0).
    - exists fs. split; [|done]. split; [apply improves_refl|]. lia.
    - destruct (writable path); [|done]. cbn [negb] in Hrun. eexists. split; [|exact Hrun].
      assert (out = block_chunk s orig g c len) as -> by (by apply Hrows, list_elem_of_here).
      destruct (write_piece fs i path (Z.to_nat (base + Z.of_nat c))
        (take (Z.to_nat v) (block_chunk s orig g c len)) Hpath) as [H1 H2].
      { rewrite length_take, block_chunk_length. intros k Hk.
        rewrite byte_of_take, byte_of_chunk, (block_byte_locate _ _ _ _ Hl) by lia. f_equal. lia. }
      split; [exact H1|]. intros o Ho Hlt. apply H2. rewrite length_take, block_chunk_length. lia. }
  destruct (IH fs1 Hrows' Hrun') as [Himp' Hgood']. split; [by eapply improves_trans|].
  intros g' out' [[= -> ->]|Hin]%elem_of_cons Hg.
  - apply (block_good_improves fs1); [done|]. rewrite block_good_restored in Hg |- *.
    intros j base' path' o Hl' Hp' Ho Hlt. simplify_eq.
    destruct (decide (o < c)%nat); [|apply Hdone; lia].
    apply (proj1 Himp). by apply (Hg _ _ path).
  - apply (Hgood' g' out' Hin). by apply (block_good_improves fs).
Qed.

(** ** One chunk, and all of them *)

Context (bases : list Z) (presents missing : list nat) (accepted : list accepted_slice).
Context (coeffs : list Z).
Hypothesis Hbases : Forall gf_ok bases.
Hypothesis Hperm : presents ++ missing ≡ₚ seq 0 (length bases).
Hypothesis Hexps : Forall (λ e, 0 <= e < 65536) (ac_exponent <$> accepted).
Hypothesis Hcount : length accepted = length missing.
Hypothesis Hsolve :
  gf16_solve (base_at bases <$> presents) (base_at bases <$> missing) (ac_exponent <$> accepted) =
  Some coeffs.

Abbreviation readers fs c len :=
  ((read_present s fs paths (Z.of_nat c) len <$> presents) ++
   (read_slice fs (Z.of_nat c) len <$> accepted)).

Definition inputs_good (fs : file_system) : Prop :=
  (∀ g, g ∈ presents → block_good fs g (Z.to_nat (ps_block_size s))) ∧
  (∀ a, a ∈ accepted → slice_good bases fs a).

Lemma inputs_good_improves fs fs' : improves fs fs' → inputs_good fs → inputs_good fs'.
Proof using.
  intros Hi [H1 H2]. split; intros x Hx.
  - by eapply block_good_improves, H1.
  - by eapply slice_good_improves, H2.
Qed.

Lemma block_good_le fs g c c' : (c' <= c)%nat → block_good fs g c → block_good fs g c'.
Proof using. intros Hc Hg i base path o Hl Hp Ho. exact (Hg i base path o Hl Hp (Nat.lt_le_trans _ _ _ Ho Hc)). Qed.

(** What the columns hold: the words of the present blocks, then the recovery words. *)
Lemma reader_word fs h len c b w :
  inputs_good fs → Z.of_nat (2 * h + len) <= ps_block_size s →
  readers fs (2 * h) len !! c = Some (inr b) → (2 * w + 1 < len)%nat →
  length b = len ∧ word_of b w =
    if decide (c < length presents)%nat then block_word s orig (nth c presents O) (h + w)
    else slice_word s orig bases (exp_at (ac_exponent <$> accepted) (c - length presents)) (h + w).
Proof using Hdesc Hpos Hcount.
  intros [Hp Ha] Hle Hc Hw. destruct (decide (c < length presents)%nat) as [Hlt|Hge].
  - rewrite lookup_app_l, list_lookup_fmap in Hc by (by rewrite length_fmap).
    destruct (presents !! c) as [g|] eqn:Eg; [|done]. cbn [fmap option_fmap option_map] in Hc. apply (inj Some) in Hc.
    apply read_present_good in Hc as ->.
    + rewrite block_chunk_length. split; [done|]. rewrite word_of_chunk by done.
      by rewrite nth_lookup, Eg.
    + eapply block_good_le; [|apply Hp; by eapply list_elem_of_lookup_2]. lia.
  - rewrite lookup_app_r, length_fmap, list_lookup_fmap in Hc by (rewrite length_fmap; lia).
    destruct (accepted !! (c - length presents)%nat) as [a|] eqn:Ea; [|done].
    cbn [fmap option_fmap option_map] in Hc. apply (inj Some) in Hc.
    destruct (read_slice_good bases fs a h len b w) as [Hl Hwd]; [|done|done|done|].
    + apply Ha. by eapply list_elem_of_lookup_2.
    + split; [done|]. rewrite Hwd. unfold exp_at. by rewrite list_lookup_fmap, Ea.
Qed.

(** The rows the columns leave are the missing blocks. *)
Lemma chunk_rebuilt fs h len pg outs pg' :
  inputs_good fs → Nat.Even len → (0 < len)%nat → Z.of_nat (2 * h + len) <= ps_block_size s →
  column_loop coeffs (length presents + length missing) 0 len (readers fs (2 * h) len)
    (replicate (length missing) (replicate len x00)) pg = (inr outs, pg') →
  outs = (λ g, block_chunk s orig g (2 * h) len) <$> missing.
Proof using Hdesc Hpos Hbases Hperm Hexps Hcount Hsolve.
  intros Hin Heven Hlen Hle Hrun. set (n := (length presents + length missing)%nat) in *.
  assert (length (readers fs (2 * h) len) = n) as Hrl
    by (subst n; rewrite length_app, !length_fmap, Hcount; done).
  pose proof (λ w r, solver_word s orig bases _ presents missing coeffs w r Hbases Hperm Hexps
    ltac:(by rewrite length_fmap) Hsolve) as Hsol.
  assert (1 < len)%nat as Hlen1 by (destruct Heven; lia).
  apply column_loop_words in Hrun as (bufs & Hbufs & Hl & Hall & Hwords).
  - rewrite length_replicate in Hl. apply list_eq_same_length with (length missing);
      [by rewrite length_fmap|done|].
    intros r out out' Hr Hout Hout'. rewrite list_lookup_fmap in Hout'.
    destruct (missing !! r) as [g|] eqn:Eg; [|done].
    cbn [fmap option_fmap option_map] in Hout'. apply (inj Some) in Hout'. subst out'.
    apply word_of_ext; rewrite (Forall_lookup_1 _ _ _ _ Hall Hout);
      [by rewrite block_chunk_length|done|].
    intros w Hw. rewrite word_of_chunk by done.
    rewrite (Hwords r w (replicate len x00) out) by (first [done|by apply lookup_replicate_2]).
    assert (word_of (replicate len x00) w = 0) as ->.
    { unfold word_of. rewrite !nth_lookup, !lookup_replicate_2 by lia. done. }
    rewrite Z.lxor_0_l. destruct (Hsol (h + w)%nat r Hr) as [Hsum _].
    rewrite (nth_lookup missing), Eg in Hsum. refine (eq_trans _ (eq_sym Hsum)).
    assert (length bufs = n) as -> by (rewrite <- Hrl, Hbufs; by rewrite length_fmap).
    apply sum_upto_ext. intros c Hc. apply (f_equal (gf16_mul gf16_ready _)).
    destruct (lookup_lt_is_Some_2 bufs c) as [b Eb].
    { apply (f_equal length) in Hbufs. rewrite length_fmap in Hbufs. lia. }
    rewrite nth_lookup, Eb. apply (reader_word fs h len c b w Hin Hle); [|done].
    by rewrite Hbufs, list_lookup_fmap, Eb.
  - rewrite length_replicate. intros r c Hr Hc. destruct (Hsol O r Hr) as [_ Hok]. by apply Hok.
  - lia.
  - apply Forall_replicate. by rewrite length_replicate.
  - intros b Hb. apply list_elem_of_lookup_1 in Hb as [c Hc].
    by destruct (reader_word fs h len c b O Hin Hle Hc Hlen1).
Qed.

(** From offset [2 * h] on, the loop completes the missing blocks. *)
Lemma chunk_loop_good fuel h half fs pg fs' pg' :
  (0 < half)%nat → ps_block_size s - Z.of_nat (2 * h) <= Z.of_nat fuel → inputs_good fs →
  (∀ g, g ∈ missing → block_good fs g (Nat.min (2 * h) (Z.to_nat (ps_block_size s)))) →
  chunk_loop writable fuel s paths presents missing accepted coeffs (Z.of_nat (2 * half))
    (Z.of_nat (2 * h)) fs pg = (fs', pg', None) →
  improves fs fs' ∧ ∀ g, g ∈ missing → block_good fs' g (Z.to_nat (ps_block_size s)).
Proof using Hdesc Hpos Hdist Hbases Hperm Hexps Hcount Hsolve.
  intros Hhalf. revert h fs pg. induction fuel as [|fuel IH]; intros h fs pg Hf Hin Hm Hrun.
  { cbn [chunk_loop] in Hrun. simplify_eq. split; [apply improves_refl|]. intros g Hg.
    eapply block_good_le; [|by apply Hm]. lia. }
  cbn [chunk_loop] in Hrun. destruct (Z.ltb_spec (Z.of_nat (2 * h)) (ps_block_size s)) as [Hlt|Hge].
  2: { simplify_eq. split; [apply improves_refl|]. intros g Hg.
       eapply block_good_le; [|by apply Hm]. lia. }
  destruct (proj1 (Z.mod_divide _ 4 ltac:(done)) (de_block_size _ _ _ Hdesc)) as [k Hk].
  set (remain := ps_block_size s - _) in Hrun.
  set (len := Z.to_nat (if remain <? _ then _ else _)) in Hrun.
  assert (Nat.Even len ∧ (0 < len)%nat ∧ Z.of_nat (2 * h + len) <= ps_block_size s ∧
    (Nat.min (2 * (h + half)) (Z.to_nat (ps_block_size s)) <= 2 * h + len)%nat) as (He & H0 & Hle & Hmin).
  { subst len. destruct (Z.ltb_spec remain (Z.of_nat (2 * half))); subst remain;
      (split; [|split_and!; lia]).
    - exists (Z.to_nat (2 * k) - h)%nat. lia.
    - exists half. lia. }
  clearbody len remain.
  destruct (column_loop _ _ _ _ _ _ _) as [[e|outs] pg1] eqn:Ecol; [done|].
  apply (chunk_rebuilt fs h len pg outs pg1 Hin He H0 Hle) in Ecol as ->.
  destruct (write_rows _ _ _ _ _ _ fs) as [fs1 [e|]] eqn:Ew; [done|].
  assert (∀ g out, (g, out) ∈ zip missing ((λ g, block_chunk s orig g (2 * h) len) <$> missing) →
    g ∈ missing ∧ out = block_chunk s orig g (2 * h) len) as Hrows.
  { intros g out [i Hi]%list_elem_of_lookup_1. rewrite lookup_zip_with, list_lookup_fmap in Hi.
    destruct (missing !! i) as [g'|] eqn:E; [|done]. cbv [mbind option_bind fmap option_fmap option_map] in Hi.
    simplify_eq. split; [by eapply list_elem_of_lookup_2|done]. }
  apply write_rows_good in Ew as [Himp Hgood]; [|by intros g out [_ ?]%Hrows].
  replace (Z.of_nat (2 * h) + Z.of_nat (2 * half)) with (Z.of_nat (2 * (h + half))) in Hrun by lia.
  apply IH in Hrun as [Himp' Hgood']; [|lia|by eapply inputs_good_improves|].
  - split; [by eapply improves_trans|done].
  - intros g Hg. eapply block_good_le; [exact Hmin|].
    apply (Hgood g (block_chunk s orig g (2 * h) len)).
    + apply list_elem_of_lookup_1 in Hg as [i Hi]. apply (list_elem_of_lookup_2 _ i).
      by rewrite lookup_zip_with, list_lookup_fmap, Hi.
    + eapply block_good_le; [|by apply Hm]. lia.
Qed.
End blocks.

(** ** The damage scan *)

Lemma mark_blocks_true start flags present g :
  mark_blocks start flags present !! g = Some true →
  present !! g = Some true ∨ ∃ bi, flags !! bi = Some true ∧ g = Z.to_nat (start + Z.of_nat bi).
Proof.
  unfold mark_blocks. set (l := imap _ flags).
  assert (∀ bi ok, (bi, ok) ∈ l → flags !! bi = Some ok) as Hl.
  { intros bi ok [i Hi]%list_elem_of_lookup_1. subst l. rewrite list_lookup_imap in Hi.
    by apply fmap_Some in Hi as (x & Hx & [= -> ->]). }
  clearbody l. revert present. induction l as [|[bi ok] l IH]; intros present H; [by left|].
  cbn [foldl] in H.
  apply IH in H as [H|H]; [|by right|by intros ??; auto using list_elem_of_further].
  destruct (decide (g = Z.to_nat (start + Z.of_nat bi))) as [->|Hne].
  - destruct ok.
    + right. exists bi. split; [|done]. apply Hl, list_elem_of_here.
    + apply list_lookup_insert_Some in H as [(_ & Hf & _)|[? _]]; done.
  - left. by rewrite list_lookup_insert_ne in H.
Qed.

Section scan.
Context (s : par2_set) (orig : nat → list byte).
Context (md5 : list byte → list byte) (paths : list (option cstr)).
Hypothesis Hdesc : describes s orig md5.
Hypothesis Hpos : 0 < ps_block_size s.
Abbreviation bs := (Z.to_nat (ps_block_size s)).

(** Block [bi] of the file of [pf] has passed the scan. *)
Definition passed (fs : file_system) (pf : par2_file) (path : cstr) (bi : nat) : Prop :=
  pf_in_recovery_set pf = true ∧ (bi < Z.to_nat (pf_block_count pf))%nat ∧
  ∃ data, fs !! path = Some data ∧
    (md5 data = pf_hash_full pf ∨ ∃ md5s, pf_block_md5 pf = Some md5s ∧
      md5 (padded_block data bs bi) = nth bi md5s []).

Lemma mark_file_true fs present pf path g :
  mark_file md5 s fs present (pf, Some path) !! g = Some true →
  present !! g = Some true ∨
  ∃ bi, passed fs pf path bi ∧ g = Z.to_nat (pf_global_block_start pf + Z.of_nat bi).
Proof using.
  unfold mark_file. destruct (pf_in_recovery_set pf) eqn:Hr; [|by left].
  case_match eqn:Hc; intros [H|(bi & Hbi & ->)]%mark_blocks_true; (try by left); right; exists bi;
    (split; [|done]).
  - apply andb_true_iff in Hc as [[md5s Hm]%bool_decide_eq_true _].
    rewrite list_lookup_fmap in Hbi. unfold scan_block_damage in Hbi.
    destruct (fs !! path) as [data|] eqn:Hd.
    2: { destruct (replicate _ true !! bi) as [b|] eqn:E; [|done].
         apply lookup_replicate in E as [-> _]. done. }
    rewrite list_lookup_fmap in Hbi. destruct (seq 0 _ !! bi) as [k|] eqn:E; [|done].
    apply lookup_seq in E as [-> Hlt]. split_and!; [done|done|]. exists data. split; [done|]. right.
    exists md5s. split; [done|]. cbn [fmap option_fmap option_map Nat.add] in Hbi.
    rewrite read_block_padded in Hbi. cbn [fst] in Hbi.
    rewrite Hm in Hbi. apply (inj Some), negb_true_iff in Hbi.
    unfold block_bad in Hbi. apply orb_false_iff in Hbi as [_ Hb].
    apply negb_false_iff, bool_decide_eq_true in Hb. unfold md5_of_two in Hb.
    by rewrite app_nil_r in Hb.
  - apply lookup_replicate in Hbi as [Hok Hlt]. symmetry in Hok. apply bool_decide_eq_true in Hok.
    apply fmap_Some in Hok as (data & Hd & Hm). split_and!; [done|done|].
    exists data. split; [done|]. by left.
Qed.

Lemma present_blocks_true fs g :
  present_blocks md5 s fs paths !! g = Some true →
  ∃ i pf path bi, ps_files s !! i = Some pf ∧ paths !! i = Some (Some path) ∧ passed fs pf path bi ∧
    g = Z.to_nat (pf_global_block_start pf + Z.of_nat bi).
Proof using.
  unfold present_blocks. set (l := zip _ _).
  assert (∀ pf path, (pf, Some path) ∈ l →
    ∃ i, ps_files s !! i = Some pf ∧ paths !! i = Some (Some path)) as Hl.
  { intros pf path [i Hi]%list_elem_of_lookup_1. exists i. subst l.
    rewrite lookup_zip_with in Hi. destruct (ps_files s !! i), (paths !! i); by simplify_eq/=. }
  intros H. assert (∀ present, foldl (mark_file md5 s fs) present l !! g = Some true →
    present !! g = Some true ∨ ∃ pf path bi, (pf, Some path) ∈ l ∧ passed fs pf path bi ∧
      g = Z.to_nat (pf_global_block_start pf + Z.of_nat bi)) as Hfold.
  { clear. induction l as [|[pf [path|]] l IH]; intros present H; cbn [foldl] in H; [by left|..];
      apply IH in H as [H|(pf' & path' & bi & Hin & Hp)];
      try (by right; exists pf', path', bi; split; [by apply list_elem_of_further|]).
    - apply mark_file_true in H as [H|(bi & Hp)]; [by left|]. right. exists pf, path, bi.
      split; [apply list_elem_of_here|done].
    - by left. }
  apply Hfold in H as [H|(pf & path & bi & Hin & Hp)].
  - by apply lookup_replicate in H as [? _].
  - destruct (Hl pf path Hin) as (i & Hf & Hpath). by exists i, pf, path, bi.
Qed.

(** A block that passed is on the disk. *)
Lemma passed_good fs i pf path bi :
  no_collision s orig md5 fs paths → ps_files s !! i = Some pf → paths !! i = Some (Some path) →
  passed fs pf path bi →
  block_good s orig paths fs (Z.to_nat (pf_global_block_start pf + Z.of_nat bi)) bs.
Proof using Hdesc Hpos.
  intros Hcol Hi Hp (Hr & Hbi & data & Hd & Hmd).
  assert (covers pf (pf_global_block_start pf + Z.of_nat bi) = true) as Hc
    by (apply covers_true; split; [done|lia]).
  destruct (tiles_locate s orig md5 Hdesc i pf _ Hi Hc) as [Hl Hg].
  intros j base path' o Hl' Hp' Ho Hlt. rewrite Z2Nat.id in Hl' by lia. rewrite Hl in Hl'. simplify_eq.
  exists data. split; [done|].
  replace (Z.to_nat _ + o)%nat with (bi * bs + o)%nat by nia.
  destruct (Hcol _ _ data Hp Hd) as [Hfull Hblk].
  destruct Hmd as [Hm|(md5s & Hs & Hm)].
  - rewrite (de_hash _ _ _ Hdesc j pf Hi Hr) in Hm. by rewrite (Hfull Hm).
  - rewrite (de_blocks _ _ _ Hdesc j pf md5s bi Hi Hr Hs Hbi) in Hm.
    by rewrite <- !byte_of_padded, (Hblk bi Hm).
Qed.

Lemma present_blocks_good fs g :
  no_collision s orig md5 fs paths → present_blocks md5 s fs paths !! g = Some true →
  block_good s orig paths fs g bs.
Proof using Hdesc Hpos.
  intros Hcol (i & pf & path & bi & Hi & Hp & Hpass & ->)%present_blocks_true.
  by eapply passed_good.
Qed.

Lemma length_present_blocks fs :
  length (present_blocks md5 s fs paths) = Z.to_nat (ps_source_block_count s).
Proof using.
  unfold present_blocks.
  assert (∀ start flags present, length (mark_blocks start flags present) = length present) as Hm.
  { intros start flags. unfold mark_blocks. induction (imap _ flags) as [|[bi ok] l IH];
      intros present; cbn [foldl]; [done|]. by rewrite IH, length_insert. }
  assert (∀ l present, length (foldl (mark_file md5 s fs) present l) = length present) as ->.
  { induction l as [|[pf [path|]] l IH]; intros present; cbn [foldl]; [done|..]; rewrite IH; [|done].
    unfold mark_file. repeat case_match; by rewrite ?Hm. }
  by rewrite length_replicate.
Qed.
End scan.

(** ** The parts of the preparation *)

Lemma index_where_perm present :
  index_where true present ++ index_where false present ≡ₚ seq 0 (length present).
Proof.
  unfold index_where. assert (∀ l, (∀ i, i ∈ l → is_Some (present !! i)) →
    filter (λ i, present !! i = Some true) l ++ filter (λ i, present !! i = Some false) l ≡ₚ l) as H.
  { induction l as [|i l IH]; intros Hl; [done|].
    destruct (Hl i (list_elem_of_here _ _)) as [b Hb].
    assert (∀ j, j ∈ l → is_Some (present !! j)) as Hl' by (intros; apply Hl; by apply list_elem_of_further).
    rewrite !filter_cons, Hb. destruct b.
    - rewrite decide_True, decide_False by done. simpl. by rewrite IH.
    - rewrite decide_False, decide_True by done. rewrite <- Permutation_middle. by rewrite IH. }
  apply H. intros i Hi%elem_of_seq. apply lookup_lt_is_Some. lia.
Qed.

Lemma elem_of_index_where b present g : g ∈ index_where b present → present !! g = Some b.
Proof. unfold index_where. by intros [? _]%list_elem_of_filter. Qed.

Lemma index_where_nonempty b present : b ∈ present → length (index_where b present) ≠ 0%nat.
Proof.
  intros [g Hg]%list_elem_of_lookup_1 Hz%nil_length_inv.
  assert (g ∈ index_where b present) as Hin; [|rewrite Hz in Hin; by apply elem_of_nil in Hin].
  apply list_elem_of_filter. split; [done|]. apply elem_of_seq. apply lookup_lt_Some in Hg. lia.
Qed.

Lemma assign_bases_ok n st bases :
  0 <= st <= GF_LIMIT → assign_bases n st = Some bases → length bases = n ∧ Forall gf_ok bases.
Proof.
  revert st bases. induction n as [|n IH]; intros st bases Hst; cbn [assign_bases].
  { intros [= <-]. by split; [|constructor]. }
  pose proof (gf16_next_base_spec st Hst) as Hspec.
  destruct (gf16_next_base gf16_ready st) as [[st' b]|]; [|done].
  destruct Hspec as (l & Hl & _ & _ & -> & ->). cbv [mbind option_bind].
  destruct (assign_bases n (l + 1)) as [bs|] eqn:E; [|done]. intros [= <-].
  apply IH in E as [<- Hall]; [|lia]. split; [done|]. constructor; [apply x_pow_ok|done].
Qed.

Lemma chunk_size_even n k :
  (0 < n)%nat → 0 < 4 * k → ∃ half, (0 < half)%nat ∧ chunk_size n (4 * k) = Z.of_nat (2 * half).
Proof.
  intros Hn Hk. unfold chunk_size. destruct (_ <? _) eqn:E.
  - set (c := Z.land _ _). assert (∃ h, c = 2 * h) as [h Hh].
    { apply Z.even_spec.
      rewrite <- Z.negb_odd, <- Z.bit0_odd. subst c. rewrite Z.land_spec.
      change (Z.testbit (Z.lnot 1) 0) with false. by rewrite andb_false_r. }
    destruct (Z.ltb_spec c 4); [exists 2%nat; lia|]. exists (Z.to_nat h). lia.
  - exists (Z.to_nat (2 * k)). lia.
Qed.

Lemma select_slices_ok md5 fs bsz want prev sls a :
  a ∈ select_slices md5 fs bsz want prev sls →
  ∃ sl, sl ∈ sls ∧ sl_data_len sl = bsz ∧ slice_hash_ok md5 sl (fs !! sl_path sl) = true ∧
    a = AcceptedSlice (str_fit 900 (sl_path sl)) (sl_data_offset sl) (u16 (sl_exponent sl)).
Proof.
  revert want prev. induction sls as [|sl sls IH]; intros want prev Ha;
    (destruct want as [|want]; cbn [select_slices] in Ha; [by apply elem_of_nil in Ha|]);
    [by apply elem_of_nil in Ha|].
  assert (∀ want prev, a ∈ select_slices md5 fs bsz want prev sls →
    ∃ sl', sl' ∈ sl :: sls ∧ sl_data_len sl' = bsz ∧
      slice_hash_ok md5 sl' (fs !! sl_path sl') = true ∧
      a = AcceptedSlice (str_fit 900 (sl_path sl')) (sl_data_offset sl') (u16 (sl_exponent sl'))) as Hrec.
  { intros w p (sl' & Hin & ?)%IH. exists sl'. split; [by apply list_elem_of_further|done]. }
  destruct (bool_decide _); [by eapply Hrec|].
  destruct (Z.eqb_spec (sl_data_len sl) bsz) as [Hlen|]; cbn [negb] in Ha; [|by eapply Hrec].
  destruct (slice_hash_ok md5 sl _) eqn:Hok; cbn [negb] in Ha; [|by eapply Hrec].
  apply elem_of_cons in Ha as [->|Ha]; [|by eapply Hrec].
  exists sl. split; [apply list_elem_of_here|done].
Qed.

Lemma select_slices_length md5 fs bsz want prev sls :
  (length (select_slices md5 fs bsz want prev sls) <= want)%nat.
Proof.
  revert want prev. induction sls as [|sl sls IH]; intros [|want] prev; cbn [select_slices]; simpl; try lia.
  repeat case_match; try apply IH. cbn [length]. pose proof (IH want (Some (sl_exponent sl))). lia.
Qed.

Lemma resolve_paths_lookup files pfs paths i :
  resolve_paths files pfs = inr paths →
  length paths = length pfs ∧
  ∀ path, paths !! i = Some (Some path) →
    ∃ pf, pfs !! i = Some pf ∧ pf_in_recovery_set pf = true.
Proof.
  revert paths i. induction pfs as [|pf pfs IH]; intros paths i; cbn [resolve_paths].
  { intros [= <-]. split; [done|]. by intros path Hp. }
  destruct (resolve_path files pf) as [e|p] eqn:Ep; [done|].
  destruct (resolve_paths files pfs) as [e|ps] eqn:E; [done|]. intros [= <-].
  destruct (IH ps (pred i) eq_refl) as [Hl Hps]. split; [simpl; by rewrite Hl|].
  destruct i as [|i]; [|done]. intros path [= ->]. exists pf. split; [done|].
  unfold resolve_path in Ep. by destruct (pf_in_recovery_set pf).
Qed.

(** ** The final truncation *)

Lemma truncate_others path l fs :
  Forall (λ e, snd e ≠ Some path) l → foldl truncate_file fs l !! path = fs !! path.
Proof.
  intros Hl. revert fs. induction Hl as [|[pf [p|]] l Hne Hl IH]; intros fs; cbn [foldl]; [done|..];
    rewrite IH; [|done]. simpl in Hne. unfold truncate_file.
  repeat case_match; try done. apply lookup_insert_ne. congruence.
Qed.

Lemma truncate_restores orig paths pfs fs i pf path :
  paths_distinct paths → length paths = length pfs →
  pfs !! i = Some pf → pf_in_recovery_set pf = true → paths !! i = Some (Some path) →
  pf_length pf = Z.of_nat (length (orig i)) → (0 < length (orig i))%nat →
  (∀ o, (o < length (orig i))%nat → restored orig paths fs i o) →
  foldl truncate_file fs (zip pfs paths) !! path = Some (orig i).
Proof.
  intros Hdist Hl Hpf Hr Hp Hlen Hpos Hres. set (l := zip pfs paths).
  assert (l !! i = Some (pf, Some path)) as Hi by (subst l; by rewrite lookup_zip_with, Hpf, Hp).
  assert (∀ j e, l !! j = Some e → j ≠ i → snd e ≠ Some path) as Hothers.
  { intros j [f p] Hj Hne Heq. simpl in Heq. subst p l. rewrite lookup_zip_with in Hj.
    destruct (pfs !! j), (paths !! j) as [q|] eqn:Ej; simplify_eq/=. apply Hne. by apply (Hdist j i path). }
  rewrite <- (take_drop_middle l i _ Hi), foldl_app. cbn [foldl].
  rewrite truncate_others.
  2: { apply Forall_lookup. intros j e Hj. rewrite lookup_drop in Hj. by apply (Hothers _ _ Hj); lia. }
  assert (foldl truncate_file fs (take i l) !! path = fs !! path) as Hsame.
  { apply truncate_others, Forall_lookup. intros j e [Hj Hlt]%lookup_take_Some. apply (Hothers j e Hj). lia. }
  set (fs1 := foldl _ _ _) in *. clearbody fs1.
  destruct (Hres O Hpos) as (q & Hq & data & Hd & _). simplify_eq. rewrite Hd in Hsame.
  assert (∀ o, (o < length (orig i))%nat → byte_of data o = byte_of (orig i) o) as Hbytes.
  { intros o (q' & Hq' & d & Hd' & Ho)%Hres. by simplify_eq. }
  unfold truncate_file. rewrite Hr, Hsame, Hlen.
  destruct (Z.eqb_spec (Z.of_nat (length data)) (Z.of_nat (length (orig i)))) as [Heq|Hne]; cbn [orb].
  - rewrite Hsame. f_equal. apply byte_of_ext; [lia|]. intros o Ho. apply Hbytes. lia.
  - destruct (Z.ltb_spec (Z.of_nat (length (orig i))) 0); [lia|]. rewrite lookup_insert_eq, Nat2Z.id.
    f_equal. apply byte_of_ext; [by rewrite length_truncate|]. rewrite length_truncate. intros o Ho.
    rewrite byte_of_truncate by done. by apply Hbytes.
Qed.

Lemma truncate_keeps_others paths pfs fs p :
  Some p ∉ paths → foldl truncate_file fs (zip pfs paths) !! p = fs !! p.
Proof.
  intros Hp. apply truncate_others, Forall_lookup. intros j [f q] Hj Heq. simpl in Heq. subst q.
  rewrite lookup_zip_with in Hj. destruct (pfs !! j), (paths !! j) as [q|] eqn:Ej; simplify_eq/=.
  apply Hp. by apply (list_elem_of_lookup_2 _ j).
Qed.

(** ** The whole repair *)

Section restore.
Context (md5 : list byte → list byte) (writable : cstr → bool) (s : par2_set).
Context (orig : nat → list byte) (paths : list (option cstr)) (bases : list Z) (fs : file_system).
Hypothesis Hdesc : describes s orig md5.
Hypothesis Hdist : paths_distinct paths.
Hypothesis Hbases : assign_bases (Z.to_nat (ps_source_block_count s)) 0 = Some bases.
Hypothesis Hcol : no_collision s orig md5 fs paths.
Hypothesis Hslices : slices_hold s orig md5 bases fs paths.

Lemma accepted_good a want prev :
  a ∈ select_slices md5 fs (ps_block_size s) want prev (ps_slices s) →
  slice_good s orig paths bases fs a ∧ 0 <= ac_exponent a < 65536.
Proof using Hslices.
  intros (sl & Hin & Hlen & Hok & ->)%select_slices_ok. cbn [ac_exponent].
  split; [|unfold u16; change 65536 with (2 ^ 16); by apply Z.mod_pos_bound].
  destruct (fs !! sl_path sl) as [data|] eqn:Hd; [|done].
  assert (0 <= sl_data_offset sl - 4) as Ho.
  { unfold slice_hash_ok in Hok. destruct (Z.ltb_spec (sl_data_offset sl - 4) 0); [done|lia]. }
  rewrite <- Hd in Hok. destruct (Hslices sl data Hin Hlen Hok Hd) as (Hfit & Hp & Hw).
  exists data. unfold str_fit. cbn [ac_path ac_data_offset ac_exponent]. rewrite take_ge by lia.
  split_and!; [done|done|lia|]. intros w Hlt. rewrite <- Hw by done. unfold word_of.
  rewrite !byte_of_drop. f_equal; f_equal; lia.
Qed.

(** Every byte of a file lies in one of its blocks. *)
Lemma all_blocks_restored fs' i path :
  0 < ps_block_size s → (∃ pf, ps_files s !! i = Some pf ∧ pf_in_recovery_set pf = true) →
  paths !! i = Some (Some path) →
  (∀ g, (g < Z.to_nat (ps_source_block_count s))%nat →
    block_good s orig paths fs' g (Z.to_nat (ps_block_size s))) →
  ∀ o, (o < length (orig i))%nat → restored orig paths fs' i o.
Proof using Hdesc.
  intros Hpos (pf & Hpf & Hr) Hp Hgood o Ho.
  destruct (de_length _ _ _ Hdesc i pf Hpf Hr) as [Hlen Hcount].
  set (q := Z.of_nat o / ps_block_size s).
  pose proof (Z.div_mod (Z.of_nat o) (ps_block_size s) ltac:(lia)) as Hdm. fold q in Hdm.
  pose proof (Z.mod_pos_bound (Z.of_nat o) (ps_block_size s) Hpos) as Hmb.
  assert (0 <= q < pf_block_count pf) as Hq by nia.
  set (g := pf_global_block_start pf + q).
  assert (covers pf g = true) as Hc by (apply covers_true; split; [done|lia]).
  destruct (tiles_locate s orig md5 Hdesc i pf g Hpf Hc) as [Hl Hg].
  pose proof (Hgood (Z.to_nat g) ltac:(lia)) as Hb. rewrite block_good_restored in Hb.
  rewrite Z2Nat.id in Hb by lia.
  assert (Z.to_nat ((g - pf_global_block_start pf) * ps_block_size s) +
    Z.to_nat (Z.of_nat o mod ps_block_size s) = o)%nat as Hsum by nia.
  rewrite <- Hsum. apply (Hb i _ path _ Hl Hp); lia.
Qed.
End restore.

(** ** When a repair succeeds *)

(** No file is removed or cut. *)
Definition grows (fs fs' : file_system) : Prop :=
  ∀ p data, fs !! p = Some data → ∃ data', fs' !! p = Some data' ∧ (length data <= length data')%nat.

Lemma grows_refl fs : grows fs fs.
Proof. intros p data Hd. by exists data. Qed.

Lemma grows_trans fs fs1 fs2 : grows fs fs1 → grows fs1 fs2 → grows fs fs2.
Proof.
  intros H1 H2 p data (d1 & Hd1 & Hl1)%H1. destruct (H2 p d1 Hd1) as (d2 & Hd2 & Hl2).
  exists d2. split; [done|lia].
Qed.

Lemma grows_pwrite fs path pos buf :
  grows fs (<[path := pwrite (default [] (fs !! path)) pos buf]> fs).
Proof.
  intros p data Hd. destruct (decide (p = path)) as [->|Hne].
  - eexists. split; [apply lookup_insert_eq|]. rewrite Hd, length_pwrite. simpl. lia.
  - exists data. by rewrite lookup_insert_ne.
Qed.

Lemma read_exact_ok fs path off n data :
  fs !! path = Some data → 0 <= off → off + Z.of_nat n <= Z.of_nat (length data) →
  is_Some (read_exact fs path off n).
Proof.
  intros Hd Ho Hl. unfold read_exact. rewrite Hd. cbv [mbind option_bind].
  destruct (Z.ltb_spec off 0); [lia|]. pose proof (length_fread data off n Ho).
  destruct (Nat.eqb_spec (length (fread data off n)) n); [done|lia].
Qed.

(** Block [g] is in a file that is there and long enough for it, as far as the
    declared length goes. *)
Definition readable (s : par2_set) (paths : list (option cstr)) (fs : file_system) (g : nat) : Prop :=
  ∃ pf path base data, locate_path s paths (Z.of_nat g) = Some (pf, path, base) ∧ 0 <= base ∧
    fs !! path = Some data ∧
    Z.min (pf_length pf) (base + ps_block_size s) <= Z.of_nat (length data).

Lemma readable_grows s paths fs fs' g : grows fs fs' → readable s paths fs g → readable s paths fs' g.
Proof.
  intros Hg (pf & path & base & data & Hl & Hb & Hd & Hlen).
  destruct (Hg _ _ Hd) as (data' & Hd' & Hle). exists pf, path, base, data'. split_and!; [done..|lia].
Qed.

Lemma read_present_ok s paths fs c len g :
  readable s paths fs g → 0 <= c → c + Z.of_nat len <= ps_block_size s →
  ∃ l, read_present s fs paths c len g = inr l.
Proof.
  intros (pf & path & base & data & Hl & Hb & Hd & Hlen) Hc Hle. unfold read_present. rewrite Hl.
  set (v := ll_clamp _ 0 _).
  assert (0 < v → v <= pf_length pf - base - c ∧ v <= Z.of_nat len) as Hv
    by (subst v; unfold ll_clamp; bool_cases; lia).
  clearbody v. destruct (Z.ltb_spec 0 v); [|by eexists].
  destruct (read_exact_ok fs path (base + c) (Z.to_nat v) data Hd) as [l ->]; [lia|lia|by eexists].
Qed.

(** A slice whose data is all there. *)
Definition slice_readable (s : par2_set) (fs : file_system) (a : accepted_slice) : Prop :=
  ∃ data, fs !! ac_path a = Some data ∧ 0 <= ac_data_offset a ∧
    ac_data_offset a + ps_block_size s <= Z.of_nat (length data).

Lemma slice_readable_grows s fs fs' a : grows fs fs' → slice_readable s fs a → slice_readable s fs' a.
Proof.
  intros Hg (data & Hd & Ho & Hlen). destruct (Hg _ _ Hd) as (data' & Hd' & Hle).
  exists data'. split_and!; [done..|lia].
Qed.

Lemma read_slice_ok s fs c len a :
  slice_readable s fs a → 0 <= c → c + Z.of_nat len <= ps_block_size s →
  ∃ l, read_slice fs c len a = inr l.
Proof.
  intros (data & Hd & Ho & Hlen) Hc Hle. unfold read_slice.
  destruct (read_exact_ok fs (ac_path a) (ac_data_offset a + c) len data Hd) as [l ->];
    [lia|lia|by eexists].
Qed.

Lemma column_loop_ok coeffs n len readers col outs pg :
  never_aborts pg → (∀ r, r ∈ readers → ∃ l, r = inr l) →
  ∃ outs' pg', column_loop coeffs n col len readers outs pg = (inr outs', pg') ∧ never_aborts pg'.
Proof.
  revert col outs pg. induction readers as [|r readers IH]; intros col outs pg Hpg Hr;
    cbn [column_loop]; [by eexists _, _|].
  destruct (Hr r (list_elem_of_here _ _)) as [l ->]. rewrite report_progress_never by done.
  apply IH; [by apply never_aborts_advance|]. intros r' Hr'. apply Hr. by apply list_elem_of_further.
Qed.

Lemma write_rows_ok writable s paths c len rows fs :
  (∀ path, Some path ∈ paths → writable path = true) →
  (∀ g out, (g, out) ∈ rows → ∃ pf path base,
    locate_path s paths (Z.of_nat g) = Some (pf, path, base) ∧ Some path ∈ paths) →
  ∃ fs', write_rows writable s paths c len rows fs = (fs', None) ∧ grows fs fs'.
Proof.
  intros Hw. revert fs. induction rows as [|[g out] rows IH]; intros fs Hrows; cbn [write_rows].
  { exists fs. split; [done|apply grows_refl]. }
  destruct (Hrows g out (list_elem_of_here _ _)) as (pf & path & base & -> & Hp).
  assert (∀ fs1, grows fs fs1 →
    ∃ fs', write_rows writable s paths c len rows fs1 = (fs', None) ∧ grows fs fs') as Hrest.
  { intros fs1 Hg1. destruct (IH fs1) as (fs' & Hr & Hg').
    { intros g' out' Hin. apply (Hrows g' out'). by apply list_elem_of_further. }
    exists fs'. split; [done|by eapply grows_trans]. }
  destruct (_ <=? 0); [apply Hrest, grows_refl|]. rewrite Hw by done. cbn [negb].
  apply Hrest, grows_pwrite.
Qed.

Lemma chunk_loop_ok writable fuel s paths presents missing accepted coeffs half off fs pg :
  (∀ path, Some path ∈ paths → writable path = true) →
  (∀ g, g ∈ missing → ∃ pf path base,
    locate_path s paths (Z.of_nat g) = Some (pf, path, base) ∧ Some path ∈ paths) →
  0 < half → 0 <= off → never_aborts pg →
  (∀ g, g ∈ presents → readable s paths fs g) → (∀ a, a ∈ accepted → slice_readable s fs a) →
  ∃ fs' pg', chunk_loop writable fuel s paths presents missing accepted coeffs half off fs pg =
    (fs', pg', None).
Proof.
  intros Hw Hm Hhalf. revert off fs pg. induction fuel as [|fuel IH]; intros off fs pg Ho Hpg Hp Ha;
    cbn [chunk_loop]; [by eexists _, _|].
  destruct (Z.ltb_spec off (ps_block_size s)) as [Hlt|]; [|by eexists _, _].
  set (len := Z.to_nat _).
  assert (off + Z.of_nat len <= ps_block_size s) as Hle
    by (subst len; destruct (Z.ltb_spec (ps_block_size s - off) half); lia).
  clearbody len.
  edestruct (column_loop_ok coeffs (length presents + length missing) len
    ((read_present s fs paths off len <$> presents) ++ (read_slice fs off len <$> accepted)) O)
    as (outs & pg1 & -> & Hpg1); [exact Hpg| |].
  { intros r [(g & -> & Hg)%list_elem_of_fmap|(a & -> & Hin)%list_elem_of_fmap]%elem_of_app.
    - apply read_present_ok; [by apply Hp|done|done].
    - eapply read_slice_ok; [by apply Ha|done|done]. }
  destruct (write_rows_ok writable s paths off len (zip missing outs) fs Hw) as (fs1 & -> & Hg).
  { intros g out [i Hi]%list_elem_of_lookup_1. apply Hm. rewrite lookup_zip_with in Hi.
    destruct (missing !! i) as [g'|] eqn:E; [|done]. destruct (outs !! i); [|done].
    simplify_eq/=. by eapply list_elem_of_lookup_2. }
  apply IH; [lia|done| |].
  - intros g Hin. eapply readable_grows; [exact Hg|by apply Hp].
  - intros a Hin. eapply slice_readable_grows; [exact Hg|by apply Ha].
Qed.

(** Every block has its file and path. *)
Lemma locate_path_ok s files paths g :
  layout_tiles s → resolve_paths files (ps_files s) = inr paths →
  (g < Z.to_nat (ps_source_block_count s))%nat →
  ∃ pf path base, locate_path s paths (Z.of_nat g) = Some (pf, path, base) ∧ Some path ∈ paths.
Proof.
  intros Ht Hpaths Hg. destruct (Ht (Z.of_nat g)) as [H1 _].
  destruct (H1 ltac:(lia)) as (i & pf & Hl & Hf & [Hr _]%covers_true & _).
  assert (∀ pfs ps j pf, resolve_paths files pfs = inr ps → pfs !! j = Some pf →
    pf_in_recovery_set pf = true → ∃ path, ps !! j = Some (Some path)) as Hres.
  { clear. induction pfs as [|f pfs IH]; intros ps j pf; cbn [resolve_paths]; [done|].
    destruct (resolve_path files f) as [e|p] eqn:Ep; [done|].
    destruct (resolve_paths files pfs) as [e|ps'] eqn:E; [done|]. intros [= <-] Hj Hr.
    destruct j as [|j]; [|by apply (IH ps' j pf)]. simpl in Hj. simplify_eq.
    unfold resolve_path in Ep. rewrite Hr in Ep. destruct (list_find _ _) as [[k f]|]; [|done].
    simplify_eq. by eexists. }
  destruct (Hres _ _ i pf Hpaths Hf Hr) as [path Hp].
  exists pf, path. eexists. unfold locate_path. rewrite Hl. cbv [mbind option_bind].
  rewrite Hf, Hp. cbv [mjoin option_join]. split; [reflexivity|]. by apply (list_elem_of_lookup_2 _ i).
Qed.

Lemma accepted_readable md5 s orig bases paths fs want prev a :
  slices_hold s orig md5 bases fs paths → 0 < ps_block_size s →
  a ∈ select_slices md5 fs (ps_block_size s) want prev (ps_slices s) → slice_readable s fs a.
Proof.
  intros Hsl Hpos (sl & Hin & Hlen & Hok & ->)%select_slices_ok.
  destruct (fs !! sl_path sl) as [data|] eqn:Hd; [|done]. rewrite <- Hd in Hok.
  destruct (Hsl sl data Hin Hlen Hok Hd) as (Hfit & _ & _).
  unfold slice_hash_ok in Hok. rewrite Hd in Hok.
  destruct (Z.ltb_spec (sl_data_offset sl - 4) 0) as [|Hoff]; [done|].
  destruct (Z.ltb_spec (Z.of_nat (length (fread data (sl_data_offset sl - 4)
    (Z.to_nat (4 + sl_data_len sl))))) (4 + sl_data_len sl)) as [|Hgot]; [done|].
  rewrite length_fread in Hgot by done.
  exists data. cbn [ac_path ac_data_offset]. unfold str_fit. rewrite take_ge by lia.
  split_and!; [done|lia|lia].
Qed.

Section repair.
Context (md5 : list byte → list byte) (writable : cstr → bool) (s : par2_set).
Context (orig : nat → list byte) (files : list par2_repair_file) (paths : list (option cstr)).
Context (bases : list Z) (fs : file_system) (pg : option par2_progress).
Hypothesis Hdesc : describes s orig md5.
Hypothesis Hpaths : resolve_paths files (ps_files s) = inr paths.
Hypothesis Hdist : paths_distinct paths.
Hypothesis Hbases : assign_bases (Z.to_nat (ps_source_block_count s)) 0 = Some bases.
Hypothesis Hslices : slices_hold s orig md5 bases fs paths.
Hypothesis Hdamaged : false ∈ present_blocks md5 s fs paths.

Lemma repair_restores fs' pg' :
  no_collision s orig md5 fs paths →
  par2_repair_set md5 writable s files fs pg = (fs', pg', None) →
  (∀ i path, paths !! i = Some (Some path) → (0 < length (orig i))%nat →
    fs' !! path = Some (orig i)) ∧
  (∀ path, Some path ∉ paths → fs' !! path = fs !! path).
Proof using Hdesc Hpaths Hdist Hbases Hslices Hdamaged.
  intros Hcol Hrun. unfold par2_repair_set in Hrun.
  destruct (Z.leb_spec (ps_block_size s) 0) as [|Hpos]; [done|].
  destruct (Z.leb_spec (ps_source_block_count s) 0) as [|Htotal]; [done|]. cbn [orb] in Hrun.
  rewrite Hpaths, Hbases in Hrun.
  pose proof (length_present_blocks s md5 paths fs) as Hlen.
  pose proof (index_where_perm (present_blocks md5 s fs paths)) as Hperm.
  pose proof (λ g, elem_of_index_where true (present_blocks md5 s fs paths) g) as Hpres.
  set (presents := index_where true _) in *. set (missing := index_where false _) in *.
  destruct (assign_bases_ok _ 0 bases ltac:(unfold GF_LIMIT, GF_COUNT; lia) Hbases) as [Hbl Hbok].
  rewrite Hlen, <- Hbl in Hperm.
  pose proof (index_where_nonempty _ _ Hdamaged : length missing ≠ 0%nat) as Hm.
  destruct (Nat.eqb_spec (length missing) 0) as [|_]; [done|].
  pose proof (select_slices_length md5 fs (ps_block_size s) (length missing) None (ps_slices s)) as Hsl.
  pose proof (λ a, accepted_good md5 s orig paths bases fs Hslices a (length missing) None) as Hacc.
  set (accepted := select_slices _ _ _ _ _ _) in *.
  destruct (Nat.ltb_spec (length accepted) (length missing)) as [|Hge]; [done|].
  destruct (gf16_solve _ _ _) as [coeffs|] eqn:Hsolve; [|done].
  destruct (chunk_loop _ _ _ _ _ _ _ _ _ _ _ _) as [[fs1 pg1] [e|]] eqn:Hloop; [done|].
  destruct (proj1 (Z.mod_divide _ 4 ltac:(done)) (de_block_size _ _ _ Hdesc)) as [k Hk].
  destruct (chunk_size_even (length missing) k ltac:(lia) ltac:(lia)) as (half & Hh & Hcs).
  rewrite Hk, (Z.mul_comm k), Hcs, <- (Z.mul_comm k), <- Hk in Hloop. simplify_eq.
  apply (chunk_loop_good writable s orig md5 paths Hdesc Hpos Hdist bases presents missing accepted
    coeffs Hbok Hperm) with (h := O) in Hloop as [[Himp Hkeep] Hgood].
  - split; [|intros path Hp; by rewrite truncate_keeps_others, Hkeep].
    intros i path Hp Hne. destruct (resolve_paths_lookup _ _ _ i Hpaths) as [Hpl Hpf].
    destruct (Hpf path Hp) as (pf & Hi & Hr).
    eapply truncate_restores; [done|done|exact Hi|done|done| |done|].
    { by apply (de_length _ _ _ Hdesc). }
    eapply all_blocks_restored; [exact Hdesc|done|by exists pf|done|].
    intros g Hg. assert (g ∈ presents ++ missing) as [Hin|Hin]%elem_of_app.
    + rewrite Hperm. apply elem_of_seq. lia.
    + eapply block_good_improves; [by split|].
      eapply present_blocks_good; [done|done|done|]. by apply Hpres.
    + by apply Hgood.
  - apply Forall_forall. intros e (a & -> & Ha)%list_elem_of_fmap. by apply (Hacc a Ha).
  - lia.
  - exact Hsolve.
  - done.
  - lia.
  - split; [|intros a Ha; by apply (Hacc a Ha)].
    intros g Hg. eapply present_blocks_good; [done|done|done|]. by apply Hpres.
  - intros g _ i base path o _ _ Ho. lia.
Qed.

Abbreviation presents := (index_where true (present_blocks md5 s fs paths)).
Abbreviation missing := (index_where false (present_blocks md5 s fs paths)).
Abbreviation accepted :=
  (select_slices md5 fs (ps_block_size s) (length missing) None (ps_slices s)).

(** What the repair needs: room for its writes, enough usable slices, a regular
    system, present blocks that can be read, and a callback that lets it go on. *)
Record repairable : Prop := {
  re_size : 0 < ps_block_size s;
  re_writable : ∀ path, Some path ∈ paths → writable path = true;
  re_slices : (length missing <= length accepted)%nat;
  re_regular : is_Some (gf16_solve (base_at bases <$> presents) (base_at bases <$> missing)
                          (ac_exponent <$> accepted));
  re_readable : ∀ g, g ∈ presents → readable s paths fs g;
  re_progress : never_aborts pg
}.

Lemma repair_succeeds :
  repairable → ∃ fs' pg', par2_repair_set md5 writable s files fs pg = (fs', pg', None).
Proof using Hdesc Hpaths Hbases Hslices Hdamaged.
  intros [Hsize Hwritable Hacc [coeffs Hsolve] Hread Hpg]. unfold par2_repair_set.
  destruct (Z.leb_spec (ps_block_size s) 0); [lia|].
  destruct (Z.leb_spec (ps_source_block_count s) 0).
  { pose proof (length_present_blocks s md5 paths fs) as Hl.
    apply list_elem_of_lookup_1 in Hdamaged as [g Hg%lookup_lt_Some]. lia. }
  cbn [orb]. rewrite Hpaths, Hbases.
  destruct (Nat.eqb_spec (length missing) 0) as [|Hm]; [by eexists _, _|].
  destruct (Nat.ltb_spec (length accepted) (length missing)); [lia|].
  change (λ i, default 0 (bases !! i)) with (base_at bases). rewrite Hsolve.
  destruct (proj1 (Z.mod_divide _ 4 ltac:(done)) (de_block_size _ _ _ Hdesc)) as [k Hk].
  destruct (chunk_size_even (length missing) k ltac:(lia) ltac:(lia)) as (half & Hh & Hcs).
  rewrite (Z.mul_comm 4), <- Hk in Hcs.
  edestruct (chunk_loop_ok writable (Z.to_nat (ps_block_size s)) s paths presents missing accepted
    coeffs (chunk_size (length missing) (ps_block_size s)) 0 fs pg) as (fs' & pg' & ->);
    [done| |lia|lia|done|done| |by eexists _, _].
  - intros g Hg%elem_of_index_where.
    apply (locate_path_ok s files); [apply (de_tiles _ _ _ Hdesc)|done|].
    rewrite <- (length_present_blocks s md5 paths fs). by eapply lookup_lt_Some.
  - intros a Ha. by eapply accepted_readable.
Qed.
End repair.

(** ** An example *)

(** A file of two blocks whose first block is damaged, with one recovery slice. *)
Definition tiny_orig : list byte := $ "ABCDEF".

Definition tiny_file : par2_file :=
  let blocks := [$ "ABCD"; $ "EF" ++ [x00; x00]] in
  Par2File ($ "f") (replicate 16 x01) tiny_orig [] 6 (Some blocks) (crc32 <$> blocks) 2 true 0.

Definition tiny_set : par2_set :=
  Par2Set 4 [tiny_file]
    [Par2Slice ($ "v") 4 4 0 ([x00; x00; x00; x00; x04; x04] ++ $ "CD") []] 2 None 1.

Definition tiny_fs : file_system :=
  <[$ "v" := [x00; x00; x00; x00; x04; x04] ++ $ "CD"]> {[$ "d/f" := $ "XXCDEF"]}.

Definition tiny_files : list par2_repair_file := [Par2RepairFile ($ "f") ($ "d/f")].
Definition tiny_paths : list (option cstr) := [Some ($ "d/f")].

Lemma tiny_present : present_blocks (λ l, l) tiny_set tiny_fs tiny_paths = [false; true].
Proof. reflexivity. Qed.

Lemma next_base_first : gf16_next_base gf16_ready 0 = Some (2, 2).
Proof.
  pose proof (gf16_next_base_spec 0 ltac:(done)) as H.
  assert (coprime_exp 1) as H1 by (split; [done|reflexivity]).
  destruct (gf16_next_base gf16_ready 0) as [[s' b]|]; [|by destruct (H 1 ltac:(done))].
  destruct H as (l & Hl & [Hl0 _] & Hmin & -> & ->).
  assert (l = 1) as -> by (destruct (decide (1 < l)); [by destruct (Hmin 1)|lia]).
  reflexivity.
Qed.

Lemma next_base_second : gf16_next_base gf16_ready 2 = Some (3, 4).
Proof.
  pose proof (gf16_next_base_spec 2 ltac:(done)) as H.
  assert (coprime_exp 2) as H2 by (split; [done|reflexivity]).
  destruct (gf16_next_base gf16_ready 2) as [[s' b]|]; [|by destruct (H 2 ltac:(done))].
  destruct H as (l & Hl & _ & Hmin & -> & ->).
  assert (l = 2) as -> by (destruct (decide (2 < l)); [by destruct (Hmin 2)|lia]).
  reflexivity.
Qed.

Lemma tiny_bases : assign_bases 2 0 = Some [2; 4].
Proof. cbn [assign_bases]. rewrite next_base_first. cbv [mbind option_bind]. by rewrite next_base_second. Qed.

Lemma tiny_describes : describes tiny_set (λ _, tiny_orig) (λ l, l).
Proof.
  split.
  - intros g. split.
    + intros Hg. exists O, tiny_file. assert (g = 0 ∨ g = 1) as [-> | ->] by (cbn in Hg; lia);
        (split; [reflexivity|]; split; [reflexivity|]; split; [reflexivity|]);
        intros [|j] f' Hj _; by simplify_eq/=.
    + intros Hl. destruct (decide (0 <= g < 2)) as [|Hn]; [done|]. destruct Hl.
      unfold locate_block. cbn. bool_cases; try done; lia.
  - reflexivity.
  - intros [|i] pf Hi _; simplify_eq/=. split; [reflexivity|done].
  - intros [|i] pf Hi _; simplify_eq/=. reflexivity.
  - intros [|i] pf md5s bi Hi _ Hm Hb; simplify_eq/=.
    destruct bi as [|[|bi]]; [reflexivity|reflexivity|]. lia.
Qed.

Lemma tiny_slices_hold : slices_hold tiny_set (λ _, tiny_orig) (λ l, l) [2; 4] tiny_fs tiny_paths.
Proof.
  intros sl data Hin _ _ Hd. apply elem_of_cons in Hin as [->|Hin]; [|by apply elem_of_nil in Hin].
  assert (data = [x00; x00; x00; x00; x04; x04] ++ $ "CD") as ->
    by (cbn [sl_path] in Hd; unfold tiny_fs in Hd; rewrite lookup_insert_eq in Hd; by simplify_eq).
  split; [cbn; lia|]. split.
  { intros Hp. apply elem_of_cons in Hp as [Hp|Hp]; [done|by apply elem_of_nil in Hp]. }
  intros w Hw. unfold slice_word. cbn [length].
  rewrite (sum_upto_ext 2 _ (λ g, block_word tiny_set (λ _, tiny_orig) g w)).
  - assert (w = 0 ∨ w = 1)%nat as [-> | ->] by (change (ps_block_size tiny_set) with 4 in Hw; lia);
      reflexivity.
  - intros g _. change (gf16_pow gf16_ready (base_at [2; 4] g) (u16 0)) with 1.
    apply gf_mul_1_l, le16_ok.
Qed.

(** A block that is only zeros is taken as present when it is not there at all,
    since what is read is padded: of a file that has lost such a tail nothing is
    repaired, the truncation that would extend it is not reached, and the next
    verification fails again. *)
Definition zero_tail_file : par2_file :=
  let blocks := [$ "ABCD"; [x00; x00; x00; x00]] in
  Par2File ($ "f") (replicate 16 x01) ($ "ABCD" ++ [x00; x00]) [] 6 (Some blocks) (crc32 <$> blocks)
    2 true 0.

Example zero_tail_not_restored :
  par2_repair_set (λ l, l) (λ _, true) (Par2Set 4 [zero_tail_file] [] 2 None 1)
    [Par2RepairFile ($ "f") ($ "d/f")] {[$ "d/f" := $ "ABCD"]} None =
  ({[$ "d/f" := $ "ABCD"]}, None, None).
Proof.
  assert (present_blocks (λ l, l) (Par2Set 4 [zero_tail_file] [] 2 None 1) {[$ "d/f" := $ "ABCD"]}
    [Some ($ "d/f")] = [true; true]) as Hp by reflexivity.
  unfold par2_repair_set. change (resolve_paths _ _) with (@inr repair_error _ [Some ($ "d/f")]).
  cbn [ps_block_size ps_source_block_count Z.leb Z.compare orb]. cbv beta iota.
  change (Z.to_nat 2) with 2%nat. rewrite tiny_bases, Hp. reflexivity.
Qed.

(** ** Properties *)


