(* ===== verification/Nntp.v ===== *)
(** * NNTP connections ([nntp/nntp_conn.c])

    A connection is its read buffer, what successive [recv] or [SSL_read] calls
    will return, which sends succeed, and what was sent. The line reader, the
    dot-unstuffing body reader and the commands built on them follow the code;
    sockets and TLS (the system's and OpenSSL's) enter as the outcomes of their
    calls.

    The lemmas relate the buffered reader to the byte stream the server sends:
    how the stream is cut into packets does not matter, a dot-stuffed body is
    delivered line by line, and the connection is left at the first byte after
    the answer, also when the callback gave up on the body. *)

From Stdlib Require Import ZArith Lia List.
From Stdlib Require Import Strings.Byte Strings.String.
From stdpp Require Import base list gmap.
From S2P Require Import Prelude Cnum.

Definition RBUF_SIZE : nat := Z.to_nat 65536.

(** The line buffers of the commands and of the bodies. *)
Definition REPLY_SIZE : nat := Z.to_nat 4096.
Definition LINE_SIZE : nat := Z.to_nat 8192.

Definition cr : byte := x0d.
Definition lf : byte := x0a.
Definition dot : byte := x2e.

(** [struct nntp_conn]: [rbuf] holds [rbuf_len] valid bytes. [c_recv] are the
    results of the reads still to come; an empty one, or the end of the list, is
    a read that returns 0 or an error. *)
Record nntp_conn := NntpConn {
  c_rbuf : list byte;
  c_rbuf_pos : nat;
  c_recv : list (list byte);
  c_send_ok : list bool;
  c_sent : list (list byte)
}.

(** ** Reading *)

Definition fill_buffer (c : nntp_conn) : nntp_conn * bool :=
  match c_recv c with
  | [] => (c, false)
  | [] :: more => (NntpConn (c_rbuf c) (c_rbuf_pos c) more (c_send_ok c) (c_sent c), false)
  | got :: more => (NntpConn got 0 more (c_send_ok c) (c_sent c), true)
  end.

(** One turn of the loop: the byte at [rbuf_pos], after a refill if needed. *)
Definition next_byte (c : nntp_conn) : nntp_conn * option byte :=
  let '(c, ok) :=
    if (length (c_rbuf c) <=? c_rbuf_pos c)%nat then fill_buffer c else (c, true) in
  if ok then
    (NntpConn (c_rbuf c) (S (c_rbuf_pos c)) (c_recv c) (c_send_ok c) (c_sent c),
     c_rbuf c !! c_rbuf_pos c)
  else (c, None).

(** The [while] loop; [room] is [size - 1 - off]. *)
Fixpoint read_line_loop (fuel : nat) (c : nntp_conn) (room : nat) (buf : cstr)
    : nntp_conn * option cstr :=
  match room, fuel with
  | O, _ => (c, Some buf)
  | _, O => (c, None)
  | S room', S fuel =>
    match next_byte c with
    | (c, None) => (c, None)
    | (c, Some ch) =>
      if decide (ch = cr) then read_line_loop fuel c room buf
      else if decide (ch = lf) then (c, Some buf)
      else read_line_loop fuel c room' (buf ++ [ch])
    end
  end.

(** The bytes a connection can still deliver; every turn of a loop that reads
    takes one of them, so one turn more is fuel enough. *)
Definition pending (c : nntp_conn) : nat := length (c_rbuf c) + length (mjoin (c_recv c)).

(** [raw_read_line]: [None] for -1, else the line of the returned length. *)
Definition raw_read_line (c : nntp_conn) (size : nat) : nntp_conn * option cstr :=
  read_line_loop (S (pending c)) c (size - 1) [].

(** ** Commands *)

(** [send] or [SSL_write] of the whole buffer. *)
Definition conn_send (c : nntp_conn) (data : list byte) : nntp_conn * bool :=
  match c_send_ok c with
  | true :: more => (NntpConn (c_rbuf c) (c_rbuf_pos c) (c_recv c) more (c_sent c ++ [data]), true)
  | _ :: more => (NntpConn (c_rbuf c) (c_rbuf_pos c) (c_recv c) more (c_sent c), false)
  | [] => (c, false)
  end.

(** [nntp_conn_cmd] of a formatted text: [vsnprintf] keeps 1020 bytes of it in
    [buf[1024]] but returns its full length, where the line end is put. [None]
    is the [memcpy] that would leave the buffer. *)
Definition nntp_conn_cmd (c : nntp_conn) (text : cstr) : option (nntp_conn * bool) :=
  let len := length text in
  if (1024 <? len + 3)%nat then None
  else Some (conn_send c (take len (take 1020 text ++ [x00]) ++ [cr; lf])).

Definition code_of (line : cstr) : Z := atoi (c_str line).

(** [nntp_conn_authenticate]; the result is [0] or [-1]. *)
Definition nntp_conn_authenticate (c : nntp_conn) (user pass : cstr) : option (nntp_conn * Z) :=
  '(c, sent) ← nntp_conn_cmd c ($ "AUTHINFO USER " ++ user);
  if negb sent then Some (c, -1)
  else
    match raw_read_line c REPLY_SIZE with
    | (c, None) => Some (c, -1)
    | (c, Some line) =>
      if code_of line =? 281 then Some (c, 0)
      else if negb (code_of line =? 381) then Some (c, -1)
      else
        '(c, sent) ← nntp_conn_cmd c ($ "AUTHINFO PASS " ++ pass);
        if negb sent then Some (c, -1)
        else
          match raw_read_line c REPLY_SIZE with
          | (c, None) => Some (c, -1)
          | (c, Some line) => Some (c, if code_of line =? 281 then 0 else -1)
          end
    end.

(** ** Bodies *)

Inductive body_line := Body_error | Body_end | Body_line (line : cstr).

(** The tests look at the buffer: the line and its NUL. *)
Definition read_body_line (c : nntp_conn) (size : nat) : nntp_conn * body_line :=
  match raw_read_line c size with
  | (c, None) => (c, Body_error)
  | (c, Some line) =>
    let buf := line ++ [x00] in
    if bool_decide (buf !! 0%nat = Some dot) && bool_decide (buf !! 1%nat = Some x00)
    then (c, Body_end)
    else if bool_decide (buf !! 0%nat = Some dot) && bool_decide (buf !! 1%nat = Some dot)
    then (c, Body_line (drop 1 line))
    else (c, Body_line line)
  end.

(** A body callback and its context; [true] is a nonzero return. *)
Definition body_cb (A : Type) : Type := A → cstr → A * bool.

Fixpoint body_loop {A} (fuel : nat) (cb : option (body_cb A)) (c : nntp_conn) (ctx : A)
    (aborted : bool) : nntp_conn * A * bool :=
  match fuel with
  | O => (c, ctx, false)
  | S fuel =>
    match read_body_line c LINE_SIZE with
    | (c, Body_error) => (c, ctx, false)
    | (c, Body_end) => (c, ctx, true)
    | (c, Body_line line) =>
      match cb with
      | Some f =>
        if aborted then body_loop fuel cb c ctx true
        else let '(ctx, stop) := f ctx line in body_loop fuel cb c ctx stop
      | None => body_loop fuel cb c ctx aborted
      end
    end
  end.

(** ["%s %s"]: a command and its argument. *)
Definition command_text (cmd arg : cstr) : cstr := cmd ++ $ " " ++ arg.

(** [nntp_conn_fetch]: the status code, or [-1]. *)
Definition nntp_conn_fetch {A} (c : nntp_conn) (cmd message_id : cstr) (cb : option (body_cb A))
    (ctx : A) : option (nntp_conn * A * Z) :=
  '(c, sent) ← nntp_conn_cmd c (command_text cmd message_id);
  if negb sent then Some (c, ctx, -1)
  else
    match raw_read_line c LINE_SIZE with
    | (c, None) => Some (c, ctx, -1)
    | (c, Some line) =>
      let code := code_of line in
      if negb (code =? 220) && negb (code =? 222) then Some (c, ctx, code)
      else
        let '(c, ctx, ok) := body_loop (S (pending c)) cb c ctx false in
        Some (c, ctx, if ok then code else -1)
    end.

(** ** Opening and closing *)

Definition RESOLVE_ATTEMPTS : nat := 3.

(** [resolve_host] on the outcomes of [getaddrinfo]: did it succeed, and after
    how many calls. *)
Fixpoint resolve_loop (n attempt : nat) (getaddrinfo : nat → bool) : bool * nat :=
  match n with
  | O => (false, attempt)
  | S n =>
    if getaddrinfo (S attempt) then (true, S attempt)
    else resolve_loop n (S attempt) getaddrinfo
  end.

Definition resolve_host (getaddrinfo : nat → bool) : bool * nat :=
  resolve_loop RESOLVE_ATTEMPTS 0 getaddrinfo.

(** What the network does for one connection attempt. *)
Record network := Network {
  n_getaddrinfo : nat → bool;
  n_socket : bool;
  n_connect : bool;
  n_tls : bool;      (* context, session and handshake *)
  n_recv : list (list byte);
  n_send_ok : list bool
}.

Definition tcp_connect (n : network) : bool :=
  if fst (resolve_host (n_getaddrinfo n)) then n_socket n && n_connect n else false.

(** [nntp_conn_close]: a QUIT that is ignored; the texts sent are returned. *)
Definition nntp_conn_close (c : nntp_conn) : list (list byte) :=
  match nntp_conn_cmd c ($ "QUIT") with
  | Some (c, _) => c_sent c
  | None => c_sent c
  end.

Definition nntp_conn_open (n : network) (tls : bool) : option (nntp_conn * cstr) :=
  if negb (tcp_connect n) then None
  else if tls && negb (n_tls n) then None
  else
    match raw_read_line (NntpConn [] 0 (n_recv n) (n_send_ok n) []) REPLY_SIZE with
    | (_, None) => None
    | (c, Some greeting) => Some (c, greeting)
    end.

(** ** The byte stream *)

(** What the reads still to come deliver before the first that fails. *)
Fixpoint live (recvs : list (list byte)) : list byte :=
  match recvs with
  | [] => []
  | [] :: _ => []
  | got :: more => got ++ live more
  end.

Definition stream (c : nntp_conn) : list byte := drop (c_rbuf_pos c) (c_rbuf c) ++ live (c_recv c).

(** The line reader on a stream: carriage returns vanish, a full buffer ends
    the line early. *)
Fixpoint take_line (room : nat) (s : list byte) : option (cstr * list byte) :=
  match room with
  | O => Some ([], s)
  | S room' =>
    match s with
    | [] => None
    | ch :: s =>
      if decide (ch = cr) then take_line room s
      else if decide (ch = lf) then Some ([], s)
      else '(l, rest) ← take_line room' s; Some (ch :: l, rest)
    end
  end.

(** Nothing was sent, nothing else about the sending side changed. *)
Definition only_read (c c' : nntp_conn) : Prop :=
  c_send_ok c' = c_send_ok c ∧ c_sent c' = c_sent c.

Lemma only_read_refl c : only_read c c.
Proof. done. Qed.

Lemma only_read_trans c1 c2 c3 : only_read c1 c2 → only_read c2 c3 → only_read c1 c3.
Proof. unfold only_read. intuition congruence. Qed.

Create HintDb nntp.
#[export] Hint Resolve only_read_refl only_read_trans : nntp.

Lemma length_live recvs : (length (live recvs) <= length (mjoin recvs))%nat.
Proof.
  induction recvs as [|[|b got] more IH]; cbn [live]; rewrite ?mjoin_cons; cbn [length]; try lia.
  rewrite !length_app. cbn [length]. lia.
Qed.

Lemma length_stream c : (length (stream c) <= pending c)%nat.
Proof.
  unfold stream, pending. rewrite length_app, length_drop. pose proof (length_live (c_recv c)). lia.
Qed.

Lemma next_byte_stream c :
  match stream c with
  | [] => ∃ c', next_byte c = (c', None) ∧ only_read c c'
  | ch :: s => ∃ c', next_byte c = (c', Some ch) ∧ only_read c c' ∧ stream c' = s
  end.
Proof.
  destruct c as [rbuf pos recvs ok sent]. unfold next_byte, stream. cbn [c_rbuf c_rbuf_pos c_recv].
  destruct (Nat.leb_spec (length rbuf) pos) as [Hle|Hlt].
  - rewrite drop_ge by done. unfold fill_buffer. cbn [c_recv].
    destruct recvs as [|[|b got] more]; cbn; eexists; by repeat split.
  - apply lookup_lt_is_Some_2 in Hlt as [ch Hch]. rewrite (drop_S _ _ _ Hch). cbn.
    rewrite Hch. eexists. split; [done|]. split; done.
Qed.

Lemma read_line_loop_stream fuel c room buf :
  (length (stream c) < fuel)%nat →
  ∃ c', read_line_loop fuel c room buf = (c', app buf ∘ fst <$> take_line room (stream c)) ∧
        only_read c c' ∧
        (∀ l rest, take_line room (stream c) = Some (l, rest) → stream c' = rest).
Proof.
  revert c room buf. induction fuel as [|fuel IH]; intros c room buf Hf; [lia|].
  destruct room as [|room].
  { exists c. destruct (stream c); cbn; rewrite app_nil_r; naive_solver eauto with nntp. }
  cbn [read_line_loop]. pose proof (next_byte_stream c) as Hn.
  destruct (stream c) as [|ch s] eqn:Hs.
  { destruct Hn as (c' & -> & Ho). exists c'. done. }
  destruct Hn as (c1 & -> & Ho & Hs1). cbn [take_line length] in *.
  case_decide as Hcr; [|case_decide as Hlf].
  - destruct (IH c1 (S room) buf) as (c' & -> & Ho' & Hr); [rewrite Hs1; lia|].
    rewrite Hs1 in *. exists c'. eauto with nntp.
  - exists c1. cbn. rewrite app_nil_r. naive_solver.
  - destruct (IH c1 room (buf ++ [ch])) as (c' & -> & Ho' & Hr); [rewrite Hs1; lia|].
    rewrite Hs1 in *. exists c'.
    destruct (take_line room s) as [[l rest]|]; cbn.
    + rewrite <- app_assoc. split; [done|]. split; [by eauto with nntp|]. naive_solver.
    + split; [done|]. split; [by eauto with nntp|]. done.
Qed.

(** The buffered reader is the reader of the stream. *)
Lemma raw_read_line_stream c size :
  ∃ c', raw_read_line c size = (c', fst <$> take_line (size - 1) (stream c)) ∧ only_read c c' ∧
        (∀ l rest, take_line (size - 1) (stream c) = Some (l, rest) → stream c' = rest).
Proof.
  pose proof (length_stream c).
  destruct (read_line_loop_stream (S (pending c)) c (size - 1) []) as (c' & He & ?); [lia|].
  exists c'. split; [|done]. unfold raw_read_line. rewrite He. by destruct (take_line _ _) as [[??]|].
Qed.

(** A line as a server writes it. *)
Definition plain_line (l : cstr) : Prop := Forall (λ ch, ch ≠ cr ∧ ch ≠ lf) l.
Definition crlf : list byte := [cr; lf].

Lemma take_line_crlf room l rest :
  plain_line l → (length l < room)%nat → take_line room (l ++ crlf ++ rest) = Some (l, rest).
Proof.
  intros Hl. revert room. induction Hl as [|ch l [Hcr Hlf] Hl IH]; intros [|room] Hr; cbn in Hr; try lia.
  - done.
  - cbn [app take_line]. rewrite !decide_False by done. by rewrite IH by lia.
Qed.

(** A line whose end has not arrived is no line. *)
Lemma take_line_cut room l s :
  plain_line l → (length l < room)%nat → s `prefix_of` l ++ crlf → s ≠ l ++ crlf →
  take_line room s = None.
Proof.
  intros Hl. revert room s. induction Hl as [|ch l [Hcr Hlf] Hl IH]; intros [|room] s Hr Hp Hne;
    cbn in Hr; try lia.
  - destruct s as [|a [|b s]]; [done|..].
    + apply prefix_cons_inv_1 in Hp as ->. done.
    + exfalso. apply prefix_cons_inv_2 in Hp as Hp'. apply prefix_cons_inv_2 in Hp' as Hp''.
      apply prefix_nil_inv in Hp'' as ->. apply prefix_cons_inv_1 in Hp as ->.
      apply prefix_cons_inv_1 in Hp' as ->. done.
  - destruct s as [|a s]; [done|]. cbn [app] in *. pose proof (prefix_cons_inv_1 _ _ _ _ Hp) as ->.
    cbn [take_line]. rewrite !decide_False by done.
    rewrite IH; [done|lia|by eapply prefix_cons_inv_2|naive_solver].
Qed.

(** ** Bodies on the stream *)

(** A line of a body as RFC 3977 has it sent, and the whole body. *)
Definition stuff (l : cstr) : cstr := if decide (head l = Some dot) then dot :: l else l.
Definition body_wire (lines : list cstr) : list byte :=
  mjoin ((λ l, stuff l ++ crlf) <$> lines) ++ dot :: crlf.

(** A line the body buffer can hold. *)
Definition body_line_ok (l : cstr) : Prop :=
  plain_line l ∧ (length (stuff l) < LINE_SIZE - 1)%nat.

(** What the callback sees of a body: every line until it returns nonzero. *)
Fixpoint deliver {A} (f : body_cb A) (ctx : A) (lines : list cstr) : A :=
  match lines with
  | [] => ctx
  | l :: lines => let '(ctx, stop) := f ctx l in if stop then ctx else deliver f ctx lines
  end.

Definition deliver_to {A} (cb : option (body_cb A)) (ctx : A) (aborted : bool) (lines : list cstr) : A :=
  match cb with
  | Some f => if aborted then ctx else deliver f ctx lines
  | None => ctx
  end.

Lemma plain_stuff l : plain_line l → plain_line (stuff l).
Proof. intros. unfold stuff. case_decide; [|done]. by constructor. Qed.

Lemma plain_dot : plain_line [dot].
Proof. constructor; [done|constructor]. Qed.

Lemma dot_fits : (length [dot] < LINE_SIZE - 1)%nat.
Proof. unfold LINE_SIZE. simpl length. lia. Qed.

Lemma read_body_line_line c l rest :
  body_line_ok l → stream c = stuff l ++ crlf ++ rest →
  ∃ c', read_body_line c LINE_SIZE = (c', Body_line l) ∧ only_read c c' ∧ stream c' = rest.
Proof.
  intros [Hp Hl] Hs. destruct (raw_read_line_stream c LINE_SIZE) as (c' & He & Ho & Hr).
  rewrite Hs, take_line_crlf in He, Hr by (auto using plain_stuff).
  exists c'. split; [|by eauto]. unfold read_body_line. rewrite He. cbn [fmap option_fmap option_map fst].
  cbv zeta. unfold stuff. case_decide as Hd.
  - destruct l as [|a l]; [done|]. cbn in Hd. simplify_eq. done.
  - destruct l as [|a l]; [done|]. cbn. rewrite bool_decide_eq_false_2 by naive_solver. done.
Qed.

Lemma read_body_line_end c rest :
  stream c = dot :: crlf ++ rest →
  ∃ c', read_body_line c LINE_SIZE = (c', Body_end) ∧ only_read c c' ∧ stream c' = rest.
Proof.
  intros Hs. destruct (raw_read_line_stream c LINE_SIZE) as (c' & He & Ho & Hr).
  change (stream c = [dot] ++ crlf ++ rest) in Hs.
  rewrite Hs, take_line_crlf in He, Hr by (apply plain_dot || apply dot_fits).
  exists c'. split; [|by eauto]. unfold read_body_line. by rewrite He.
Qed.

(** The loop over a whole body. *)
Lemma body_loop_wire {A} (cb : option (body_cb A)) lines :
  Forall body_line_ok lines → ∀ fuel c ctx aborted rest,
  (length lines < fuel)%nat → stream c = body_wire lines ++ rest →
  ∃ c', body_loop fuel cb c ctx aborted = (c', deliver_to cb ctx aborted lines, true) ∧
        only_read c c' ∧ stream c' = rest.
Proof.
  induction 1 as [|l lines Hl Hls IH]; intros fuel c ctx aborted rest Hf Hs;
    destruct fuel as [|fuel]; cbn in Hf; try lia; cbn [body_loop].
  - destruct (read_body_line_end c rest Hs) as (c' & -> & Ho & Hr).
    exists c'. by destruct cb as [f|], aborted.
  - unfold body_wire in Hs. rewrite fmap_cons, mjoin_cons, <- !app_assoc in Hs.
    destruct (read_body_line_line c l _ Hl Hs) as (c1 & -> & Ho & Hr).
    rewrite app_assoc in Hr. change (stream c1 = body_wire lines ++ rest) in Hr.
    destruct cb as [f|].
    + destruct aborted.
      * destruct (IH fuel c1 ctx true rest) as (c' & -> & ? & ?); [lia|done|]. eauto with nntp.
      * cbn [deliver_to deliver]. destruct (f ctx l) as [ctx' stop].
        destruct (IH fuel c1 ctx' stop rest) as (c' & -> & ? & ?); [lia|done|]. eauto with nntp.
    + destruct (IH fuel c1 ctx aborted rest) as (c' & -> & ? & ?); [lia|done|]. eauto with nntp.
Qed.

(** A proper prefix of a sequence of lines ends inside one of them. *)
Lemma prefix_line_cases (l : cstr) (rest s : list byte) :
  s `prefix_of` (l ++ crlf) ++ rest → s ≠ (l ++ crlf) ++ rest →
  (s `prefix_of` l ++ crlf ∧ s ≠ l ++ crlf) ∨
  (∃ s', s = (l ++ crlf) ++ s' ∧ s' `prefix_of` rest ∧ s' ≠ rest).
Proof.
  intros [k Hk] Hne. destruct (decide (length s < length (l ++ crlf))%nat) as [Hlt|Hge].
  - left. split; [|intros ->; lia]. exists (take (length (l ++ crlf) - length s) k).
    apply (f_equal (take (length (l ++ crlf)))) in Hk.
    rewrite take_app_length, take_app in Hk. by rewrite (take_ge s) in Hk by lia.
  - right. exists (drop (length (l ++ crlf)) s).
    assert (s = (l ++ crlf) ++ drop (length (l ++ crlf)) s) as Hs.
    { apply (f_equal (take (length (l ++ crlf)))) in Hk.
      rewrite take_app_length, take_app_le in Hk by lia. rewrite Hk at 1. by rewrite take_drop. }
    split; [done|]. split; [|intros Hd; apply Hne; by rewrite Hs, Hd].
    exists k. rewrite Hs, <- (app_assoc (l ++ crlf)) in Hk. by apply app_inv_head in Hk.
Qed.

Lemma read_body_line_cut c l :
  plain_line l → (length l < LINE_SIZE - 1)%nat →
  stream c `prefix_of` l ++ crlf → stream c ≠ l ++ crlf →
  ∃ c', read_body_line c LINE_SIZE = (c', Body_error).
Proof.
  intros Hp Hl Hs Hne. destruct (raw_read_line_stream c LINE_SIZE) as (c' & He & _ & _).
  rewrite (take_line_cut _ l) in He by done. exists c'. unfold read_body_line. by rewrite He.
Qed.

Lemma body_loop_cut {A} (cb : option (body_cb A)) lines :
  Forall body_line_ok lines → ∀ fuel c ctx aborted,
  stream c `prefix_of` body_wire lines → stream c ≠ body_wire lines →
  ∃ c' k, body_loop fuel cb c ctx aborted = (c', deliver_to cb ctx aborted (take k lines), false).
Proof.
  assert (∀ (ctx : A) aborted, deliver_to cb ctx aborted [] = ctx) as Hnil.
  { intros ctx aborted. by destruct cb, aborted. }
  induction 1 as [|l lines Hl Hls IH]; intros fuel c ctx aborted Hp Hne;
    (destruct fuel as [|fuel]; [exists c, O; by rewrite take_0, Hnil|]); cbn [body_loop].
  - destruct (read_body_line_cut c [dot]) as (c' & ->);
      [apply plain_dot|apply dot_fits|done..|exists c', O; by rewrite take_0, Hnil].
  - unfold body_wire in Hp, Hne. rewrite fmap_cons, mjoin_cons, <- app_assoc in Hp.
    rewrite fmap_cons, mjoin_cons, <- app_assoc in Hne.
    destruct (prefix_line_cases _ _ _ Hp Hne) as [[Hc Hcn]|(s' & Hs & Hp' & Hne')].
    + destruct Hl as [Hpl Hlen].
      destruct (read_body_line_cut c (stuff l)) as (c' & ->); [by apply plain_stuff|done..|].
      exists c', O. by rewrite take_0, Hnil.
    + rewrite <- app_assoc in Hs. destruct (read_body_line_line c l s' Hl Hs) as (c1 & -> & _ & Hr).
      subst s'. destruct cb as [f|]; [destruct aborted|].
      * destruct (IH fuel c1 ctx true Hp' Hne') as (c' & k & ->). by exists c', O.
      * destruct (f ctx l) as [ctx' stop] eqn:Hf.
        destruct (IH fuel c1 ctx' stop Hp' Hne') as (c' & k & ->).
        exists c', (S k). cbn. by rewrite Hf.
      * destruct (IH fuel c1 ctx aborted Hp' Hne') as (c' & k & ->). by exists c', O.
Qed.

(** A command that fits is sent as it is, with its line end. *)
Lemma nntp_conn_cmd_fits c text oks :
  (length text <= 1020)%nat → c_send_ok c = true :: oks →
  ∃ c', nntp_conn_cmd c text = Some (c', true) ∧ stream c' = stream c ∧
        c_send_ok c' = oks ∧ c_sent c' = c_sent c ++ [text ++ crlf].
Proof.
  intros Hl Hok. unfold nntp_conn_cmd, conn_send. cbv zeta.
  destruct (Nat.ltb_spec 1024 (length text + 3)); [lia|]. rewrite Hok.
  eexists. split; [done|]. split; [done|]. split; [done|]. cbn [c_sent].
  rewrite take_app_le, take_take, take_ge by (rewrite ?length_take; lia). done.
Qed.

(** ** Exchanges *)

(** A reply line that fits its buffer, read from the stream. *)
Lemma raw_read_reply c l rest size :
  plain_line l → (length l < size - 1)%nat → stream c = l ++ crlf ++ rest →
  ∃ c', raw_read_line c size = (c', Some l) ∧ only_read c c' ∧ stream c' = rest.
Proof.
  intros Hp Hl Hs. destruct (raw_read_line_stream c size) as (c' & He & Ho & Hr).
  rewrite Hs, take_line_crlf in He, Hr by done. exists c'. eauto.
Qed.

Definition multi_line (code : Z) : Prop := code = 220 ∨ code = 222.

Lemma length_body_wire lines : (length lines <= length (body_wire lines))%nat.
Proof.
  unfold body_wire. induction lines as [|l lines IH]; [cbn; lia|].
  rewrite fmap_cons, mjoin_cons, <- app_assoc, !length_app in *. cbn [length crlf] in *. lia.
Qed.

Lemma fetch_article {A} c cmd message_id (cb : option (body_cb A)) ctx oks status lines rest :
  (length (command_text cmd message_id) <= 1020)%nat → c_send_ok c = true :: oks →
  plain_line status → (length status < LINE_SIZE - 1)%nat → multi_line (code_of status) →
  Forall body_line_ok lines → stream c = status ++ crlf ++ body_wire lines ++ rest →
  ∃ c', nntp_conn_fetch c cmd message_id cb ctx =
          Some (c', deliver_to cb ctx false lines, code_of status) ∧
        stream c' = rest ∧ c_send_ok c' = oks ∧
        c_sent c' = c_sent c ++ [command_text cmd message_id ++ crlf].
Proof.
  intros Hlen Hok Hp Hl Hc Hls Hs. unfold nntp_conn_fetch.
  destruct (nntp_conn_cmd_fits c _ oks Hlen Hok) as (c1 & -> & Hs1 & Hok1 & Hsent1).
  cbn [mbind option_bind negb]. rewrite Hs in Hs1.
  destruct (raw_read_reply c1 _ _ LINE_SIZE Hp Hl Hs1) as (c2 & -> & [Ho1 Ho2] & Hs2). cbv zeta.
  assert (negb (code_of status =? 220) && negb (code_of status =? 222) = false) as ->.
  { destruct Hc as [-> | ->]; done. }
  destruct (body_loop_wire cb lines Hls (S (pending c2)) c2 ctx false rest) as (c3 & -> & [Ho3 Ho4] & Hs3).
  { pose proof (length_stream c2) as Hb. rewrite Hs2, length_app in Hb.
    pose proof (length_body_wire lines). lia. }
  { done. }
  exists c3. split; [done|]. split; [done|]. split; congruence.
Qed.

Lemma fetch_cut {A} c cmd message_id (cb : option (body_cb A)) ctx oks status lines :
  (length (command_text cmd message_id) <= 1020)%nat → c_send_ok c = true :: oks →
  plain_line status → (length status < LINE_SIZE - 1)%nat → multi_line (code_of status) →
  Forall body_line_ok lines →
  stream c `prefix_of` status ++ crlf ++ body_wire lines →
  stream c ≠ status ++ crlf ++ body_wire lines →
  ∃ c' k, nntp_conn_fetch c cmd message_id cb ctx =
            Some (c', deliver_to cb ctx false (take k lines), -1).
Proof.
  intros Hlen Hok Hp Hl Hc Hls Hpre Hne. unfold nntp_conn_fetch.
  destruct (nntp_conn_cmd_fits c _ oks Hlen Hok) as (c1 & -> & Hs1 & Hok1 & Hsent1).
  cbn [mbind option_bind negb]. rewrite <- Hs1, app_assoc in Hpre, Hne.
  destruct (prefix_line_cases _ _ _ Hpre Hne) as [[Hcp Hcn]|(s' & Hs & Hp' & Hne')].
  - destruct (raw_read_line_stream c1 LINE_SIZE) as (c' & -> & _).
    rewrite (take_line_cut _ status) by done. exists c', O. by destruct cb.
  - rewrite <- app_assoc in Hs.
    destruct (raw_read_reply c1 _ _ LINE_SIZE Hp Hl Hs) as (c2 & -> & _ & Hs2). cbv zeta.
    subst s'.
    assert (negb (code_of status =? 220) && negb (code_of status =? 222) = false) as ->.
    { destruct Hc as [-> | ->]; done. }
    destruct (body_loop_cut cb lines Hls (S (pending c2)) c2 ctx false Hp' Hne') as (c' & k & ->).
    by exists c', k.
Qed.

(** ** Properties *)

(** C31: A multi-line answer is delivered whatever packets it arrives in. When
    the bytes still to come begin with a 220 or 222 status line and a
    dot-stuffed body, [nntp_conn_fetch] returns that code, the callback has seen
    the lines unstuffed and in order up to the first one it refused, and the
    connection stands at the first byte after the answer, also when the callback
    gave up. When the bytes end anywhere before the end of the answer, it
    returns -1 and the callback has seen a prefix of the lines: an article cut
    short is never reported as fetched. *)
Theorem nntp_fetch_delivers_article {A} (c : nntp_conn) (cmd message_id : cstr)
    (f : body_cb A) (ctx : A) (oks : list bool) (status : cstr) (lines : list cstr)
    (rest : list byte)
    (Hlen : (length (command_text cmd message_id) <= 1020)%nat)
    (Hok : c_send_ok c = true :: oks)
    (Hp : plain_line status) (Hl : (length status < LINE_SIZE - 1)%nat)
    (Hc : multi_line (code_of status)) (Hls : Forall body_line_ok lines) :
  (stream c = status ++ crlf ++ body_wire lines ++ rest →
   ∃ c', nntp_conn_fetch c cmd message_id (Some f) ctx =
           Some (c', deliver f ctx lines, code_of status) ∧
         stream c' = rest ∧ c_sent c' = c_sent c ++ [command_text cmd message_id ++ crlf]) ∧
  (stream c `prefix_of` status ++ crlf ++ body_wire lines →
   stream c ≠ status ++ crlf ++ body_wire lines →
   ∃ c' k, nntp_conn_fetch c cmd message_id (Some f) ctx = Some (c', deliver f ctx (take k lines), -1)).
Proof.
  split.
  - intros Hs. destruct (fetch_article c cmd message_id (Some f) ctx oks status lines rest)
      as (c' & He & ? & _ & ?); eauto.
  - intros. by apply (fetch_cut c cmd message_id (Some f) ctx oks status).
Qed.

(** The callback that collects the lines. *)
Definition collect : body_cb (list cstr) := λ ls l, (ls ++ [l], false).

(** Closes [plain_line] and [body_line_ok] of literal lines. *)
Ltac literal_line :=
  match goal with
  | |- body_line_ok _ => split; [literal_line|unfold LINE_SIZE; simpl length; lia]
  | |- plain_line _ => repeat (apply Forall_cons_2; [done|]); apply Forall_nil_2
  end.

Definition sample_packets : list (list byte) :=
  [$ "222 0 <a> b"; $ "dy" ++ crlf ++ $ "..x"; crlf ++ $ "y" ++ crlf; $ "." ++ crlf ++ $ "205"].

Lemma nntp_fetch_delivers_article_witness :
  ∃ c', nntp_conn_fetch (NntpConn [] 0 sample_packets [true] []) ($ "BODY") ($ "<a>") (Some collect) [] =
        Some (c', [$ ".x"; $ "y"], 222) ∧ stream c' = $ "205" ∧ c_sent c' = [$ "BODY <a>" ++ crlf].
Proof.
  apply (nntp_fetch_delivers_article (NntpConn [] 0 sample_packets [true] []) ($ "BODY") ($ "<a>")
    collect [] [] ($ "222 0 <a> bdy") [$ ".x"; $ "y"] ($ "205")).
  - cbn; lia.
  - done.
  - literal_line.
  - unfold LINE_SIZE. simpl length. lia.
  - right. reflexivity.
  - repeat (apply Forall_cons_2; [literal_line|]). apply Forall_nil_2.
  - reflexivity.
Defined.

(** Authentication follows RFC 4643: the password goes out only after a 381
    reply, and the result is 0 exactly for 281. *)
Theorem nntp_authenticate_outcomes (c : nntp_conn) (user pass : cstr) (oks : list bool)
    (r1 r2 : cstr) (rest : list byte)
    (Hu : (length user < 128)%nat) (Hpw : (length pass < 128)%nat)
    (Hok : c_send_ok c = true :: true :: oks)
    (H1 : plain_line r1) (Hl1 : (length r1 < REPLY_SIZE - 1)%nat)
    (H2 : plain_line r2) (Hl2 : (length r2 < REPLY_SIZE - 1)%nat)
    (Hs : stream c = r1 ++ crlf ++ r2 ++ crlf ++ rest) :
  ∃ c' result, nntp_conn_authenticate c user pass = Some (c', result) ∧
    let user_line := $ "AUTHINFO USER " ++ user ++ crlf in
    let pass_line := $ "AUTHINFO PASS " ++ pass ++ crlf in
    if code_of r1 =? 381
    then c_sent c' = c_sent c ++ [user_line; pass_line] ∧ stream c' = rest ∧
         result = (if code_of r2 =? 281 then 0 else -1)
    else c_sent c' = c_sent c ++ [user_line] ∧ stream c' = r2 ++ crlf ++ rest ∧
         result = (if code_of r1 =? 281 then 0 else -1).
Proof.
  unfold nntp_conn_authenticate.
  destruct (nntp_conn_cmd_fits c ($ "AUTHINFO USER " ++ user) (true :: oks))
    as (c1 & -> & Hs1 & Hok1 & Hsent1); [rewrite length_app; cbn; lia|done|].
  cbn [mbind option_bind negb]. rewrite Hs in Hs1.
  destruct (raw_read_reply c1 _ _ REPLY_SIZE H1 Hl1 Hs1) as (c2 & -> & [Ho1 Ho2] & Hs2).
  destruct (Z.eqb_spec (code_of r1) 281) as [E281|N281].
  { rewrite E281. exists c2, 0. split; [done|]. cbn. rewrite Ho2, Hsent1, <- app_assoc. done. }
  destruct (Z.eqb_spec (code_of r1) 381) as [E381|N381]; cbn [negb].
  2: { exists c2, (-1). split; [done|]. cbv zeta. rewrite Ho2, Hsent1, <- app_assoc. done. }
  destruct (nntp_conn_cmd_fits c2 ($ "AUTHINFO PASS " ++ pass) oks)
    as (c3 & -> & Hs3 & Hok3 & Hsent3); [rewrite length_app; cbn; lia|congruence|].
  cbn [mbind option_bind negb]. rewrite Hs2 in Hs3.
  destruct (raw_read_reply c3 _ _ REPLY_SIZE H2 Hl2 Hs3) as (c4 & -> & [Ho3 Ho4] & Hs4).
  exists c4, (if code_of r2 =? 281 then 0 else -1). split; [done|]. cbv zeta.
  split; [|done]. rewrite Ho4, Hsent3, Ho2, Hsent1, <- !app_assoc. done.
Qed.

Lemma nntp_authenticate_outcomes_witness :
  ∃ c' result,
    nntp_conn_authenticate (NntpConn [] 0 [$ "381 more" ++ crlf; $ "281 ok" ++ crlf] [true; true] [])
      ($ "u") ($ "p") = Some (c', result) ∧
    c_sent c' = [$ "AUTHINFO USER u" ++ crlf; $ "AUTHINFO PASS p" ++ crlf] ∧ stream c' = [] ∧ result = 0.
Proof.
  apply (nntp_authenticate_outcomes
    (NntpConn [] 0 [$ "381 more" ++ crlf; $ "281 ok" ++ crlf] [true; true] []) ($ "u") ($ "p") []
    ($ "381 more") ($ "281 ok") []); first [literal_line|unfold REPLY_SIZE; simpl length; lia|reflexivity].
Defined.
