(* ===== verification/NntpPool.v ===== *)
(** * The pool of NNTP connections ([nntp/nntp_pool.c])

    The fetch of one job with its retries ([run_job]), and the pool as a
    concurrent state machine: every stretch of code that holds [pool->mu], and
    every call made outside it, is one step of some thread, and the steps of the
    workers, of the callers of [nntp_pool_fetch] and of the thread that cancels
    or destroys the pool interleave freely. A worker may take a step whenever its
    loop test allows one, which is what waking up from [pthread_cond_wait] at any
    moment amounts to. *)

From Stdlib Require Import ZArith Lia List.
From Stdlib Require Import Strings.Byte Strings.String.
From stdpp Require Import base list gmap.
From S2P Require Import Prelude Cnum Nntp.

Definition NNTP_POOL_ERR_TRANSPORT : Z := -1.
Definition NNTP_POOL_ERR_CANCELLED : Z := -2.
Definition CONN_IDLE_MAX_SECS : Z := 90.

Record nntp_pool_opts := NntpPoolOpts {
  po_tls : bool;
  po_user : cstr;
  po_pass : cstr;
  po_max_connections : Z;
  po_retry_count : Z
}.

(** A queued fetch; [pj_ctx] names the caller's context. *)
Record pool_job := PoolJob {
  pj_cmd : cstr;
  pj_message_id : cstr;
  pj_ctx : nat
}.

(** ** One job *)

(** Every connection attempt meets the next element of [nets]; with none left
    it fails. The results are the connection, if there is one now, and the
    networks not used. [None] stands for a command too long for its buffer. *)
Definition ensure_connected (opts : nntp_pool_opts) (conn : option nntp_conn) (nets : list network)
    : option (option nntp_conn * list network) :=
  match conn, nets with
  | Some c, _ => Some (Some c, nets)
  | None, [] => Some (None, [])
  | None, net :: nets =>
    match nntp_conn_open net (po_tls opts) with
    | None => Some (None, nets)
    | Some (c, _) =>
      if bool_decide (po_user opts = []) then Some (Some c, nets)
      else
        '(c, rc) ← nntp_conn_authenticate c (po_user opts) (po_pass opts);
        Some (if rc <? 0 then None else Some c, nets)
    end
  end.

Fixpoint run_attempts {A} (n : nat) (opts : nntp_pool_opts) (conn : option nntp_conn)
    (nets : list network) (j : pool_job) (cb : option (body_cb A)) (ctx : A) (status : Z)
    : option (option nntp_conn * list network * A * Z) :=
  match n with
  | O => Some (conn, nets, ctx, status)
  | S n =>
    '(conn, nets) ← ensure_connected opts conn nets;
    match conn with
    | None => run_attempts n opts None nets j cb ctx NNTP_POOL_ERR_TRANSPORT
    | Some c =>
      '(c, ctx, status) ← nntp_conn_fetch c (pj_cmd j) (pj_message_id j) cb ctx;
      if (200 <=? status) && (status <? 400) then Some (Some c, nets, ctx, status)
      else if status <? 0 then run_attempts n opts None nets j cb ctx status
      else run_attempts n opts (Some c) nets j cb ctx status
    end
  end.

Definition run_job {A} (opts : nntp_pool_opts) (conn : option nntp_conn) (nets : list network)
    (j : pool_job) (cb : option (body_cb A)) (ctx : A)
    : option (option nntp_conn * list network * A * Z) :=
  run_attempts (Z.to_nat (po_retry_count opts + 1)) opts conn nets j cb ctx NNTP_POOL_ERR_TRANSPORT.

(** ** The pool *)

Inductive phase :=
  | Idle                    (* in the locked part of the loop, or waiting *)
  | Busy (j : pool_job)     (* popped, running [run_job] *)
  | Finishing               (* [done_cb] returned, [active] not yet lowered *)
  | Exited.

Record worker := Worker {
  w_conn : option nntp_conn;
  w_last_used : Z;
  w_seen_close_gen : Z;
  w_phase : phase
}.

(** [struct nntp_pool], the list of jobs from [head] to [tail], with the lists
    that calls of [nntp_pool_cancel_all] have detached and are working through.
    [p_accepted], [p_taken] and [p_done] record the jobs accepted, the jobs that
    left the queue, in order, and the [done_cb] calls made. *)
Record nntp_pool := NntpPool {
  p_opts : nntp_pool_opts;
  p_jobs : list pool_job;
  p_shutdown : bool;
  p_active : Z;
  p_close_gen : Z;
  p_workers : list worker;
  p_cancelling : list (list pool_job);
  p_accepted : list pool_job;
  p_taken : list pool_job;
  p_done : list (pool_job * Z)
}.

(** [nntp_pool_create] when [started] of the threads could be created. *)
Definition nntp_pool_create (opts : nntp_pool_opts) (started : nat) : nntp_pool :=
  let max := if po_max_connections opts <? 1 then 1 else po_max_connections opts in
  let opts := NntpPoolOpts (po_tls opts) (po_user opts) (po_pass opts) max (po_retry_count opts) in
  NntpPool opts [] false 0 0 (replicate (min started (Z.to_nat max)) (Worker None 0 0 Idle)) [] [] [] [].

(** [nntp_pool_fetch]; [seen] is [shutdown] at its first, separate test. *)
Definition nntp_pool_fetch (seen : bool) (p : nntp_pool) (cmd message_id : cstr) (ctx : nat)
    : nntp_pool * Z :=
  if seen then (p, -1)
  else
    let j := PoolJob (str_fit 16 cmd) message_id ctx in
    if p_shutdown p then (p, -1)
    else (NntpPool (p_opts p) (p_jobs p ++ [j]) (p_shutdown p) (p_active p) (p_close_gen p)
            (p_workers p) (p_cancelling p) (p_accepted p ++ [j]) (p_taken p) (p_done p), 0).

Definition nntp_pool_active_count (p : nntp_pool) : Z := p_active p.

Definition nntp_pool_close_idle (p : nntp_pool) : nntp_pool :=
  NntpPool (p_opts p) (p_jobs p) (p_shutdown p) (p_active p) (p_close_gen p + 1)
    (p_workers p) (p_cancelling p) (p_accepted p) (p_taken p) (p_done p).

(** The locked part of [nntp_pool_cancel_all]: the whole list is detached. *)
Definition cancel_detach (p : nntp_pool) : nntp_pool :=
  NntpPool (p_opts p) [] (p_shutdown p) (p_active p) (p_close_gen p) (p_workers p)
    (p_jobs p :: p_cancelling p) (p_accepted p) (p_taken p ++ p_jobs p) (p_done p).

(** One turn of its loop, for the [i]-th caller. *)
Definition cancel_one (p : nntp_pool) (i : nat) : option nntp_pool :=
  match p_cancelling p !! i with
  | Some (j :: more) =>
    Some (NntpPool (p_opts p) (p_jobs p) (p_shutdown p) (p_active p) (p_close_gen p) (p_workers p)
            (<[i := more]> (p_cancelling p)) (p_accepted p) (p_taken p)
            (p_done p ++ [(j, NNTP_POOL_ERR_CANCELLED)]))
  | _ => None
  end.

(** What follows [nntp_pool_cancel_all] in [nntp_pool_destroy]; the joins that
    come after it return when every worker has exited. *)
Definition destroy_shutdown (p : nntp_pool) : nntp_pool :=
  NntpPool (p_opts p) (p_jobs p) true (p_active p) (p_close_gen p) (p_workers p)
    (p_cancelling p) (p_accepted p) (p_taken p) (p_done p).

(** ** Workers *)

Definition set_worker (p : nntp_pool) (i : nat) (w : worker) : nntp_pool :=
  NntpPool (p_opts p) (p_jobs p) (p_shutdown p) (p_active p) (p_close_gen p)
    (<[i := w]> (p_workers p)) (p_cancelling p) (p_accepted p) (p_taken p) (p_done p).

Definition stale (p : nntp_pool) (w : worker) : bool :=
  bool_decide (is_Some (w_conn w)) && negb (w_seen_close_gen w =? p_close_gen p).

(** One pass of the inner loop of [worker_main] for an idle worker: close a
    stale connection, pop a job, leave, or wait. *)
Definition worker_pass (p : nntp_pool) (i : nat) (w : worker) : option nntp_pool :=
  if stale p w then Some (set_worker p i (Worker None (w_last_used w) (p_close_gen p) Idle))
  else
    match p_jobs p with
    | j :: more =>
      let p := NntpPool (p_opts p) more (p_shutdown p) (p_active p + 1) (p_close_gen p) (p_workers p)
                 (p_cancelling p) (p_accepted p) (p_taken p ++ [j]) (p_done p) in
      Some (set_worker p i (Worker (w_conn w) (w_last_used w) (p_close_gen p) (Busy j)))
    | [] =>
      if p_shutdown p
      then Some (set_worker p i (Worker None (w_last_used w) (p_close_gen p) Exited))
      else None
    end.

(** The connection [run_job] is started with, at time [now]. *)
Definition fresh_conn (w : worker) (now : Z) : option nntp_conn :=
  if bool_decide (is_Some (w_conn w)) && negb (w_last_used w =? 0) &&
     (CONN_IDLE_MAX_SECS <? now - w_last_used w)
  then None else w_conn w.

(** [run_job] has returned: [done_cb] is called. *)
Definition worker_finish (p : nntp_pool) (i : nat) (w : worker) (j : pool_job)
    (conn : option nntp_conn) (now status : Z) : nntp_pool :=
  let p := NntpPool (p_opts p) (p_jobs p) (p_shutdown p) (p_active p) (p_close_gen p) (p_workers p)
             (p_cancelling p) (p_accepted p) (p_taken p) (p_done p ++ [(j, status)]) in
  set_worker p i (Worker conn now (w_seen_close_gen w) Finishing).

Definition worker_release (p : nntp_pool) (i : nat) (w : worker) : nntp_pool :=
  let p := NntpPool (p_opts p) (p_jobs p) (p_shutdown p) (p_active p - 1) (p_close_gen p) (p_workers p)
             (p_cancelling p) (p_accepted p) (p_taken p) (p_done p) in
  set_worker p i (Worker (w_conn w) (w_last_used w) (w_seen_close_gen w) Idle).

(** The steps of [worker_main]. *)
Inductive worker_step (p : nntp_pool) : nntp_pool → Prop :=
  | step_pass i w p' :
      p_workers p !! i = Some w → w_phase w = Idle → worker_pass p i w = Some p' →
      worker_step p p'
  | step_run i w j start now A (cb : option (body_cb A)) ctx nets conn' nets' ctx' status :
      p_workers p !! i = Some w → w_phase w = Busy j →
      run_job (p_opts p) (fresh_conn w start) nets j cb ctx = Some (conn', nets', ctx', status) →
      worker_step p (worker_finish p i w j conn' now status)
  | step_release i w :
      p_workers p !! i = Some w → w_phase w = Finishing →
      worker_step p (worker_release p i w).

(** The steps of the whole pool. A message id is at most 511 bytes long and a
    command 15: the sizes of [job_segment_t] and of the job's own buffer. *)
Inductive pool_step (p : nntp_pool) : nntp_pool → Prop :=
  | step_worker p' : worker_step p p' → pool_step p p'
  | step_fetch seen cmd message_id ctx :
      (length message_id <= 511)%nat →
      pool_step p (fst (nntp_pool_fetch seen p cmd message_id ctx))
  | step_close_idle : pool_step p (nntp_pool_close_idle p)
  | step_cancel_detach : pool_step p (cancel_detach p)
  | step_cancel_one i p' : cancel_one p i = Some p' → pool_step p p'
  | step_destroy : pool_step p (destroy_shutdown p).

(** ** The invariant *)

Definition busy_job (w : worker) : option pool_job :=
  match w_phase w with Busy j => Some j | _ => None end.

Definition busy_jobs (ws : list worker) : list pool_job := omap busy_job ws.

Definition working (w : worker) : Z :=
  match w_phase w with Busy _ | Finishing => 1 | _ => 0 end.

Definition working_count (ws : list worker) : Z := foldr (λ w n, working w + n) 0 ws.

Definition job_fits (j : pool_job) : Prop :=
  (length (pj_cmd j) <= 15)%nat ∧ (length (pj_message_id j) <= 511)%nat.

Record pool_inv (p : nntp_pool) : Prop := {
  pi_fifo : p_accepted p = p_taken p ++ p_jobs p;
  pi_taken : p_taken p ≡ₚ (p_done p).*1 ++ busy_jobs (p_workers p) ++ mjoin (p_cancelling p);
  pi_active : p_active p = working_count (p_workers p);
  pi_exited : ∀ w, w ∈ p_workers p → w_phase w = Exited → p_shutdown p = true ∧ p_jobs p = [];
  pi_fits : Forall job_fits (p_accepted p)
}.

(** Replacing one element of a list. *)
Lemma insert_split {A} (l : list A) i x :
  l !! i = Some x → ∃ l1 l2, l = l1 ++ x :: l2 ∧ ∀ y, <[i := y]> l = l1 ++ y :: l2.
Proof.
  intros Hi. exists (take i l), (drop (S i) l). split; [by rewrite take_drop_middle|].
  intros y. apply insert_take_drop. by eapply lookup_lt_Some.
Qed.

Lemma busy_jobs_app l1 w l2 :
  busy_jobs (l1 ++ w :: l2) = busy_jobs l1 ++ option_list (busy_job w) ++ busy_jobs l2.
Proof. unfold busy_jobs. rewrite omap_app. cbn. by destruct (busy_job w). Qed.

Lemma working_count_app l1 w l2 :
  working_count (l1 ++ w :: l2) = working_count l1 + working w + working_count l2.
Proof. unfold working_count. induction l1 as [|v l1 IH]; cbn [app foldr]; [lia|]. rewrite IH. lia. Qed.

Lemma working_count_bound ws : 0 <= working_count ws <= Z.of_nat (length ws).
Proof.
  induction ws as [|w ws IH]; cbn [working_count foldr length]; [lia|].
  fold (working_count ws). unfold working. destruct (w_phase w); lia.
Qed.

Lemma replaced_exited (l1 l2 : list worker) w w' v :
  v ∈ l1 ++ w' :: l2 → w_phase v = Exited → w_phase w' ≠ Exited → v ∈ l1 ++ w :: l2.
Proof. intros [?|[->|?]%elem_of_cons]%elem_of_app He Hw'; set_solver. Qed.

Ltac pool_fields :=
  cbn [set_worker p_opts p_jobs p_shutdown p_active p_close_gen p_workers p_cancelling p_accepted
       p_taken p_done].

(** Splits the list of workers at the one that moves, in the context and in the
    five parts of the invariant to be shown. *)
Ltac split_worker Hi :=
  let l1 := fresh "l1" in let l2 := fresh "l2" in let Hl := fresh "Hl" in let Hr := fresh "Hr" in
  destruct (insert_split _ _ _ Hi) as (l1 & l2 & Hl & Hr);
  rewrite ?Hl, ?busy_jobs_app, ?working_count_app in *;
  constructor; pool_fields; rewrite ?Hl, ?Hr, ?busy_jobs_app, ?working_count_app.

Lemma worker_pass_inv p i w p' :
  pool_inv p → p_workers p !! i = Some w → w_phase w = Idle → worker_pass p i w = Some p' →
  pool_inv p'.
Proof.
  intros [Hf Ht Ha He Hfit] Hi Hw. unfold worker_pass.
  assert (busy_job w = None ∧ working w = 0) as [Hb Hk].
  { unfold busy_job, working. by rewrite Hw. }
  destruct (stale p w).
  - intros [= <-]. split_worker Hi; rewrite ?Hb, ?Hk in *; [done..| |done].
    intros v Hv Hve. apply (He v); [|done]. eapply replaced_exited; eauto; done.
  - destruct (p_jobs p) as [|j more] eqn:Hj.
    + destruct (p_shutdown p) eqn:Hs; [|done]. intros [= <-].
      split_worker Hi; rewrite ?Hb, ?Hk, ?Hj in *; done.
    + intros [= <-]. split_worker Hi; rewrite ?Hb, ?Hk in *.
      * by rewrite Hf, <- app_assoc.
      * rewrite Ht. cbn. solve_Permutation.
      * cbn [working w_phase]. lia.
      * intros v Hv Hve. destruct (He v); [|done..]. eapply replaced_exited; eauto; done.
      * done.
Qed.

Lemma worker_finish_inv p i w j conn now status :
  pool_inv p → p_workers p !! i = Some w → w_phase w = Busy j →
  pool_inv (worker_finish p i w j conn now status).
Proof.
  intros [Hf Ht Ha He Hfit] Hi Hw. unfold worker_finish. cbv zeta.
  assert (busy_job w = Some j ∧ working w = 1) as [Hb Hk].
  { unfold busy_job, working. by rewrite Hw. }
  split_worker Hi; rewrite ?Hb, ?Hk in *; [done|..|done].
  - rewrite Ht, fmap_app. cbn. solve_Permutation.
  - done.
  - intros v Hv Hve. apply (He v); [|done]. eapply replaced_exited; eauto; done.
Qed.

Lemma worker_release_inv p i w :
  pool_inv p → p_workers p !! i = Some w → w_phase w = Finishing → pool_inv (worker_release p i w).
Proof.
  intros [Hf Ht Ha He Hfit] Hi Hw. unfold worker_release. cbv zeta.
  assert (busy_job w = None ∧ working w = 1) as [Hb Hk].
  { unfold busy_job, working. by rewrite Hw. }
  split_worker Hi; rewrite ?Hb, ?Hk in *; [done..|cbn [working w_phase]; lia| |done].
  intros v Hv Hve. apply (He v); [|done]. eapply replaced_exited; eauto; done.
Qed.

Lemma cancel_one_inv p i p' : pool_inv p → cancel_one p i = Some p' → pool_inv p'.
Proof.
  intros [Hf Ht Ha He Hfit] Hc. unfold cancel_one in Hc.
  destruct (p_cancelling p !! i) as [[|j more]|] eqn:Hi; simplify_eq.
  destruct (insert_split _ _ _ Hi) as (l1 & l2 & Hl & Hr).
  constructor; pool_fields; try done. rewrite Hr, Ht, Hl, fmap_app, !join_app, !mjoin_cons. cbn.
  solve_Permutation.
Qed.

Lemma pool_step_inv p p' : pool_inv p → pool_step p p' → pool_inv p'.
Proof.
  intros Hinv Hst. pose proof Hinv as [Hf Ht Ha He Hfit].
  destruct Hst as [p' Hw|seen cmd mid ctx Hmid| | |i p' Hc|].
  - destruct Hw as [i w p' Hi Hw Hp|i w j start now A cb ctx nets conn' nets' ctx' status Hi Hw _|i w Hi Hw].
    + by eapply worker_pass_inv.
    + by apply worker_finish_inv.
    + by apply worker_release_inv.
  - unfold nntp_pool_fetch. destruct seen; [done|]. cbv zeta. destruct (p_shutdown p) eqn:Hs; [done|].
    cbn [fst]. constructor; pool_fields; [by rewrite Hf, app_assoc|done..| |].
    + intros w Hw Hex. destruct (He w Hw Hex). congruence.
    + apply Forall_app. split; [done|]. apply Forall_singleton. split; [|done].
      cbn [pj_cmd]. unfold str_fit. rewrite length_take. lia.
  - done.
  - unfold cancel_detach. constructor; pool_fields; [by rewrite app_nil_r|..|done].
    + rewrite Ht, mjoin_cons. solve_Permutation.
    + done.
    + intros w Hw Hex. by destruct (He w Hw Hex).
  - by eapply cancel_one_inv.
  - unfold destroy_shutdown. constructor; pool_fields; try done. intros w Hw Hex. by destruct (He w Hw Hex).
Qed.

Lemma create_inv opts started : pool_inv (nntp_pool_create opts started).
Proof.
  unfold nntp_pool_create. cbv zeta. constructor; pool_fields; try done.
  - induction (min _ _); [done|]. cbn. done.
  - induction (min _ _) as [|n IH]; [done|]. cbn [replicate working_count foldr]. exact IH.
  - intros w [-> _]%elem_of_replicate. done.
Qed.

(** What no step changes. *)
Lemma pool_step_const p p' :
  pool_step p p' → p_opts p' = p_opts p ∧ length (p_workers p') = length (p_workers p).
Proof.
  intros [p'' Hw|seen cmd mid ctx _| | |i p'' Hc|]; try done.
  - destruct Hw as [i w p3 _ _ Hp|i w j start now A cb ctx nets conn' nets' ctx' status _ _ _|i w _ _];
      [|cbn; by rewrite length_insert..].
    unfold worker_pass in Hp. destruct (stale p w); [simplify_eq; cbn; by rewrite length_insert|].
    destruct (p_jobs p); [destruct (p_shutdown p)|]; simplify_eq; cbn; by rewrite length_insert.
  - unfold nntp_pool_fetch. destruct seen; [done|]. cbv zeta. by destruct (p_shutdown p).
  - unfold cancel_one in Hc. destruct (p_cancelling p !! i) as [[|??]|]; by simplify_eq.
Qed.

Lemma reachable_inv opts started p :
  rtc pool_step (nntp_pool_create opts started) p →
  pool_inv p ∧ p_opts p = p_opts (nntp_pool_create opts started) ∧
  length (p_workers p) = length (p_workers (nntp_pool_create opts started)).
Proof.
  revert p. refine (rtc_ind_r _ _ _ _).
  - split; [apply create_inv|done].
  - intros p1 p2 _ Hs (Hi & Ho & Hl). destruct (pool_step_const _ _ Hs) as [Ho' Hl'].
    split; [by eapply pool_step_inv|]. split; congruence.
Qed.

(** ** Commands that fit *)

Definition opts_fit (opts : nntp_pool_opts) : Prop :=
  (length (po_user opts) < 128)%nat ∧ (length (po_pass opts) < 128)%nat.

Lemma nntp_conn_cmd_total c text : (length text <= 1020)%nat → is_Some (nntp_conn_cmd c text).
Proof.
  intros. unfold nntp_conn_cmd. cbv zeta. destruct (Nat.ltb_spec 1024 (length text + 3)); [lia|]. by eexists.
Qed.

Lemma nntp_conn_fetch_total {A} c cmd mid (cb : option (body_cb A)) ctx :
  (length cmd <= 15)%nat → (length mid <= 511)%nat → is_Some (nntp_conn_fetch c cmd mid cb ctx).
Proof.
  intros. unfold nntp_conn_fetch.
  destruct (nntp_conn_cmd_total c (command_text cmd mid)) as [[c1 sent] ->].
  { unfold command_text. rewrite !length_app. cbn. lia. }
  cbn [mbind option_bind]. destruct (negb sent); [by eexists|].
  destruct (raw_read_line c1 LINE_SIZE) as [c2 [line|]]; [|by eexists]. cbv zeta.
  destruct (_ && _); [by eexists|]. destruct (body_loop _ _ _ _ _) as [[??]?]. by eexists.
Qed.

Lemma nntp_conn_authenticate_total c user pass :
  (length user < 128)%nat → (length pass < 128)%nat → is_Some (nntp_conn_authenticate c user pass).
Proof.
  intros. unfold nntp_conn_authenticate.
  destruct (nntp_conn_cmd_total c ($ "AUTHINFO USER " ++ user)) as [[c1 sent] ->];
    [rewrite length_app; cbn; lia|].
  cbn [mbind option_bind]. destruct (negb sent); [by eexists|].
  destruct (raw_read_line c1 REPLY_SIZE) as [c2 [line|]]; [|by eexists].
  destruct (code_of line =? 281); [by eexists|]. destruct (negb _); [by eexists|].
  destruct (nntp_conn_cmd_total c2 ($ "AUTHINFO PASS " ++ pass)) as [[c3 sent'] ->];
    [rewrite length_app; cbn; lia|].
  cbn [mbind option_bind]. destruct (negb sent'); [by eexists|].
  destruct (raw_read_line c3 REPLY_SIZE) as [c4 [line'|]]; by eexists.
Qed.

Lemma ensure_connected_total opts conn nets :
  opts_fit opts → is_Some (ensure_connected opts conn nets).
Proof.
  intros [Hu Hp]. unfold ensure_connected. destruct conn as [c|]; [by eexists|].
  destruct nets as [|net nets]; [by eexists|].
  destruct (nntp_conn_open net (po_tls opts)) as [[c g]|]; [|by eexists].
  case_bool_decide; [by eexists|].
  destruct (nntp_conn_authenticate_total c _ _ Hu Hp) as [[c' rc] ->]. by eexists.
Qed.

Lemma run_job_total {A} opts conn nets j (cb : option (body_cb A)) ctx :
  opts_fit opts → job_fits j → is_Some (run_job opts conn nets j cb ctx).
Proof.
  intros Ho [Hc Hm]. unfold run_job. generalize NNTP_POOL_ERR_TRANSPORT at 1.
  induction (Z.to_nat (po_retry_count opts + 1)) as [|n IH] in conn, nets, ctx |- *; intros st; [by eexists|].
  cbn [run_attempts]. destruct (ensure_connected_total opts conn nets Ho) as [[conn' nets'] ->].
  cbn [mbind option_bind]. destruct conn' as [c|]; [|apply IH].
  destruct (nntp_conn_fetch_total c _ _ cb ctx Hc Hm) as [[[c' ctx'] status] ->].
  cbn [mbind option_bind]. destruct (_ && _); [by eexists|]. destruct (status <? 0); apply IH.
Qed.

(** ** Shutting down *)

Definition weight (gen : Z) (w : worker) : nat :=
  match w_phase w with
  | Idle => if bool_decide (is_Some (w_conn w)) && negb (w_seen_close_gen w =? gen) then 2 else 1
  | Busy _ => 4
  | Finishing => 3
  | Exited => 0
  end.

(** How many steps the workers have left at most once nothing is enqueued. *)
Definition work_left (p : nntp_pool) : nat :=
  4 * length (p_jobs p) + sum_list_with (weight (p_close_gen p)) (p_workers p).

Lemma work_left_step p p' :
  p_shutdown p = true → worker_step p p' → p_shutdown p' = true ∧ (work_left p' < work_left p)%nat.
Proof.
  intros Hs Hst. unfold work_left.
  destruct Hst as [i w p' Hi Hw Hp|i w j start now A cb ctx nets conn' nets' ctx' status Hi Hw _|i w Hi Hw];
    destruct (insert_split _ _ _ Hi) as (l1 & l2 & Hl & Hr).
  - unfold worker_pass in Hp. destruct (stale p w) eqn:Hst.
    + simplify_eq. pool_fields. rewrite Hr, Hl, !sum_list_with_app. split; [done|].
      cbn [sum_list_with]. unfold stale in Hst. unfold weight at 2 5. rewrite Hw, Hst. cbn. lia.
    + destruct (p_jobs p) as [|j more] eqn:Hj.
      * rewrite Hs in Hp. simplify_eq. pool_fields. rewrite Hr, Hl, Hj, !sum_list_with_app. split; [done|].
        cbn [sum_list_with]. unfold weight at 2 5. rewrite Hw. cbn. case_match; lia.
      * simplify_eq. pool_fields. rewrite Hr, Hl, !sum_list_with_app. split; [done|].
        cbn [sum_list_with length]. unfold weight at 2 5. rewrite Hw. cbn. case_match; lia.
  - unfold worker_finish. cbv zeta. pool_fields. rewrite Hr, Hl, !sum_list_with_app. split; [done|].
    cbn [sum_list_with]. unfold weight at 2 5. rewrite Hw. cbn. lia.
  - unfold worker_release. cbv zeta. pool_fields. rewrite Hr, Hl, !sum_list_with_app. split; [done|].
    cbn [sum_list_with]. unfold weight at 2 5. rewrite Hw. cbn. case_match; lia.
Qed.

Lemma work_left_steps p p' n :
  p_shutdown p = true → nsteps worker_step n p p' → p_shutdown p' = true ∧ (n + work_left p' <= work_left p)%nat.
Proof.
  intros Hs Hn. induction Hn as [p|n p1 p2 p3 Hst Hn IH]; [split; [done|lia]|].
  destruct (work_left_step _ _ Hs Hst) as [Hs2 Hlt]. destruct (IH Hs2). split; [done|lia].
Qed.

(** A worker that has not left can move. *)
Lemma worker_progress p w :
  pool_inv p → opts_fit (p_opts p) → p_shutdown p = true →
  w ∈ p_workers p → w_phase w ≠ Exited → ∃ p', worker_step p p'.
Proof.
  intros Hinv Ho Hs Hw Hne. apply list_elem_of_lookup in Hw as [i Hi].
  destruct (w_phase w) as [|j| |] eqn:Hph; [..|done].
  - assert (is_Some (worker_pass p i w)) as [p' Hp].
    { unfold worker_pass. destruct (stale p w); [by eexists|].
      destruct (p_jobs p); [rewrite Hs|]; by eexists. }
    exists p'. by eapply step_pass.
  - assert (job_fits j) as Hj.
    { destruct Hinv as [Hf Ht _ _ Hfit]. rewrite Forall_forall in Hfit. apply Hfit.
      rewrite Hf, Ht. destruct (insert_split _ _ _ Hi) as (l1 & l2 & Hl & _).
      rewrite Hl, busy_jobs_app. unfold busy_job. rewrite Hph. set_solver. }
    destruct (run_job_total (p_opts p) (fresh_conn w 0) [] j (@None (body_cb unit)) tt Ho Hj)
      as [[[[conn' nets'] ctx'] status] Hrun].
    eexists. by eapply (step_run p i w j 0 0).
  - eexists. by eapply step_release.
Qed.

(** ** Retries *)

Lemma ensure_connected_cons opts net nets :
  ensure_connected opts None (net :: nets) =
  (λ r : option nntp_conn * list network, (r.1, nets)) <$> ensure_connected opts None [net].
Proof.
  cbn [ensure_connected]. destruct (nntp_conn_open net (po_tls opts)) as [[c g]|]; [|done].
  case_bool_decide; [done|]. by destruct (nntp_conn_authenticate c (po_user opts) (po_pass opts)) as [[??]|].
Qed.

Section retries.
Context (opts : nntp_pool_opts) (j : pool_job) (status : cstr) (lines : list cstr).
Context (Hj : job_fits j).
Context (Hp : plain_line status) (Hl : (length status < LINE_SIZE - 1)%nat).
Context (Hc : multi_line (code_of status)) (Hls : Forall body_line_ok lines).

(** A network on which the connection fails or breaks before the end of the
    answer, and one that delivers it. *)
Definition breaks (net : network) : Prop :=
  ensure_connected opts None [net] = Some (None, []) ∨
  ∃ c oks, ensure_connected opts None [net] = Some (Some c, []) ∧ c_send_ok c = true :: oks ∧
    stream c `prefix_of` status ++ crlf ++ body_wire lines ∧
    stream c ≠ status ++ crlf ++ body_wire lines.

Definition serves (rest : list byte) (net : network) : Prop :=
  ∃ c oks, ensure_connected opts None [net] = Some (Some c, []) ∧ c_send_ok c = true :: oks ∧
    stream c = status ++ crlf ++ body_wire lines ++ rest.

(** What the callback has seen after attempts that delivered [ks] lines. *)
Definition partial {A} (f : body_cb A) (ctx : A) (ks : list nat) : A :=
  foldl (λ ctx k, deliver f ctx (take k lines)) ctx ks.

Lemma command_fits : (length (command_text (pj_cmd j) (pj_message_id j)) <= 1020)%nat.
Proof using Hj. clear - Hj. destruct Hj. unfold command_text. rewrite !length_app. cbn. lia. Qed.

Lemma run_attempts_retries {A} (f : body_cb A) bad good more rest :
  Forall breaks bad → serves rest good → ∀ n ctx st, (length bad < n)%nat →
  ∃ c ks, run_attempts n opts None (bad ++ good :: more) j (Some f) ctx st =
            Some (Some c, more, deliver f (partial f ctx ks) lines, code_of status) ∧
          length ks = length bad ∧ stream c = rest.
Proof using Hj Hp Hl Hc Hls.
  pose proof command_fits as Hlen.
  intros Hbad (c & oks & Hens & Hok & Hs). induction Hbad as [|net bad Hnet Hbad IH];
    intros n ctx st Hn; destruct n as [|n]; cbn [length] in Hn; try lia; cbn [app run_attempts];
    rewrite ensure_connected_cons.
  - rewrite Hens. cbn [fmap option_fmap option_map mbind option_bind fst].
    destruct (fetch_article c _ _ (Some f) ctx oks status lines rest Hlen Hok Hp Hl Hc Hls Hs)
      as (c' & -> & Hs' & _). cbn [mbind option_bind].
    assert ((200 <=? code_of status) && (code_of status <? 400) = true) as ->.
    { destruct Hc as [-> | ->]; done. }
    by exists c', [].
  - destruct Hnet as [Hno|(c1 & oks1 & Hens1 & Hok1 & Hpre & Hne)].
    + rewrite Hno. cbn [fmap option_fmap option_map mbind option_bind fst].
      destruct (IH n ctx NNTP_POOL_ERR_TRANSPORT) as (c2 & ks & -> & Hk & Hr); [lia|].
      exists c2, (O :: ks). cbn. by rewrite Hk.
    + rewrite Hens1. cbn [fmap option_fmap option_map mbind option_bind fst].
      destruct (fetch_cut c1 _ _ (Some f) ctx oks1 status lines Hlen Hok1 Hp Hl Hc Hls Hpre Hne)
        as (c' & k & ->). cbn [mbind option_bind].
      destruct (IH n (deliver f ctx (take k lines)) (-1)) as (c2 & ks & Hrun & Hk & Hr); [lia|].
      exists c2, (k :: ks). cbn. rewrite Hk. split; [exact Hrun|done].
Qed.
End retries.

Lemma ensure_connected_uses opts conn nets conn' nets' :
  ensure_connected opts conn nets = Some (conn', nets') →
  ∃ used, nets = used ++ nets' ∧ (length used <= 1)%nat.
Proof.
  unfold ensure_connected. destruct conn as [c|]; [intros; simplify_eq; exists []; cbn; split; [done|lia]|].
  destruct nets as [|net nets]; [intros; simplify_eq; exists []; cbn; split; [done|lia]|].
  intros He. exists [net]. split; [|cbn; lia].
  destruct (nntp_conn_open net (po_tls opts)) as [[c g]|]; [|by simplify_eq].
  case_bool_decide; [by simplify_eq|].
  destruct (nntp_conn_authenticate c (po_user opts) (po_pass opts)) as [[c' rc]|]; cbn in He; by simplify_eq.
Qed.

Lemma run_attempts_bound {A} n opts conn nets j (cb : option (body_cb A)) ctx st conn' nets' ctx' st' :
  run_attempts n opts conn nets j cb ctx st = Some (conn', nets', ctx', st') →
  (st < 0 → conn = None) →
  (∃ used, nets = used ++ nets' ∧ (length used <= n)%nat) ∧ (st' < 0 → conn' = None).
Proof.
  induction n as [|n IH] in conn, nets, ctx, st |- *; cbn [run_attempts]; intros Hr Hc.
  { simplify_eq. split; [exists []; cbn; split; [done|lia]|done]. }
  destruct (ensure_connected opts conn nets) as [[conn1 nets1]|] eqn:He; [|done].
  cbn [mbind option_bind] in Hr. destruct (ensure_connected_uses _ _ _ _ _ He) as (u & -> & Hu).
  assert (∀ conn1 ctx1 st1, run_attempts n opts conn1 nets1 j cb ctx1 st1 = Some (conn', nets', ctx', st') →
    (st1 < 0 → conn1 = None) →
    (∃ used, u ++ nets1 = used ++ nets' ∧ (length used <= S n)%nat) ∧ (st' < 0 → conn' = None)) as Hrec.
  { intros conn2 ctx2 st2 Hr2 Hc2. destruct (IH _ _ _ _ Hr2 Hc2) as [(u2 & -> & Hu2) ?]. split; [|done].
    exists (u ++ u2). rewrite app_assoc, length_app. split; [done|lia]. }
  destruct conn1 as [c1|]; [|by eapply Hrec].
  destruct (nntp_conn_fetch c1 (pj_cmd j) (pj_message_id j) cb ctx) as [[[c2 ctx2] st2]|] eqn:Hf; [|done].
  cbn [mbind option_bind] in Hr.
  destruct ((200 <=? st2) && (st2 <? 400)) eqn:Hb.
  - simplify_eq. split; [exists u; split; [done|lia]|]. apply andb_true_iff in Hb as [Hb _].
    apply Z.leb_le in Hb. lia.
  - destruct (Z.ltb_spec st2 0); (eapply Hrec; [exact Hr|]); [done|lia].
Qed.

(** Where no authentication is asked for, a network that connects and greets
    gives a connection standing after the greeting. *)
Lemma connects opts net greeting bytes :
  po_user opts = [] → tcp_connect net = true → n_tls net = true →
  plain_line greeting → (length greeting < REPLY_SIZE - 1)%nat →
  live (n_recv net) = greeting ++ crlf ++ bytes →
  ∃ c, ensure_connected opts None [net] = Some (Some c, []) ∧
       c_send_ok c = n_send_ok net ∧ stream c = bytes.
Proof.
  intros Hu Htcp Htls Hp Hl Hs. unfold ensure_connected, nntp_conn_open. rewrite Htcp, Htls, andb_false_r.
  cbn [negb]. destruct (raw_read_reply (NntpConn [] 0 (n_recv net) (n_send_ok net) []) greeting bytes
    REPLY_SIZE Hp Hl Hs) as (c & -> & [Ho _] & Hst).
  rewrite bool_decide_eq_true_2 by done. by exists c.
Qed.

(** ** Properties *)

(** C27: For every interleaving of the pool's threads: jobs leave the queue in
    the order they were accepted; no job's [done_cb] is called more often than
    the job was accepted; the active count is between 0 and the number of
    workers, which never exceeds the configured maximum (at least one); and once
    every worker has exited and the cancelled lists are worked off, [done_cb] has
    been called exactly once for every fetch that was accepted. *)
Theorem nntp_pool_callbacks_once (opts : nntp_pool_opts) (started : nat) (p : nntp_pool)
    (Hr : rtc pool_step (nntp_pool_create opts started) p) :
  p_accepted p = p_taken p ++ p_jobs p ∧
  (p_done p).*1 ⊆+ p_accepted p ∧
  0 <= nntp_pool_active_count p <= Z.of_nat (length (p_workers p)) ∧
  Z.of_nat (length (p_workers p)) <= Z.max 1 (po_max_connections opts) ∧
  (p_workers p ≠ [] → Forall (λ w, w_phase w = Exited) (p_workers p) → mjoin (p_cancelling p) = [] →
   (p_done p).*1 ≡ₚ p_accepted p).
Proof.
  destruct (reachable_inv _ _ _ Hr) as ([Hf Ht Ha He _] & _ & Hlen).
  split; [done|]. split; [|split; [|split]].
  - rewrite Hf, Ht. solve_submseteq.
  - unfold nntp_pool_active_count. rewrite Ha. apply working_count_bound.
  - rewrite Hlen. unfold nntp_pool_create. cbv zeta. pool_fields. rewrite length_replicate.
    destruct (Z.ltb_spec (po_max_connections opts) 1); lia.
  - intros Hne Hall Hcan. destruct (p_workers p) as [|w ws] eqn:Hw; [done|].
    destruct (He w) as [_ Hjobs]; [left|by inversion Hall|].
    assert (busy_jobs (w :: ws) = []) as Hb.
    { clear -Hall. induction Hall as [|v vs Hv Hvs IH]; [done|].
      unfold busy_jobs in *. cbn. unfold busy_job at 1. by rewrite Hv. }
    rewrite Hf, Ht, Hb, Hcan, Hjobs, !app_nil_r. done.
Qed.

(** One worker, one job, run to the end against no network at all. *)
Definition sample_opts : nntp_pool_opts := NntpPoolOpts false [] [] 1 0.

Lemma nntp_pool_callbacks_once_witness :
  ∃ p, rtc pool_step (nntp_pool_create sample_opts 1) p ∧
    p_done p = [(PoolJob ($ "BODY") ($ "<a>") 7, -1)] ∧ (p_done p).*1 ⊆+ p_accepted p.
Proof.
  assert (∃ p, rtc pool_step (nntp_pool_create sample_opts 1) p ∧
    p_done p = [(PoolJob ($ "BODY") ($ "<a>") 7, -1)]) as (p & Hr & Hd).
  { eexists. split.
    - eapply rtc_l; [apply (step_fetch _ false ($ "BODY") ($ "<a>") 7); cbn; lia|].
      eapply rtc_l; [apply step_worker; eapply (step_pass _ 0); reflexivity|].
      eapply rtc_l; [|apply rtc_refl].
      apply step_worker. eapply (step_run _ 0 _ _ 0 0 unit None tt []); reflexivity.
    - reflexivity. }
  exists p. split; [done|]. split; [done|]. apply (nntp_pool_callbacks_once sample_opts 1 p Hr).
Defined.



(** The retry loop. When the first [length bad] connections fail or break
    anywhere inside the answer, and there are no more of them than
    [retry_count], the next one that delivers the article makes [run_job] return
    its status, with the connection kept and standing after the answer; the
    callback has seen, one attempt after the other with the same context, a
    prefix of the lines for every broken attempt and then the whole article. *)
Theorem run_job_retries_until_served {A} (opts : nntp_pool_opts) (j : pool_job) (status : cstr)
    (lines : list cstr) (f : body_cb A) (ctx : A) (bad : list network) (good : network)
    (more : list network) (rest : list byte)
    (Hj : job_fits j) (Hp : plain_line status) (Hl : (length status < LINE_SIZE - 1)%nat)
    (Hc : multi_line (code_of status)) (Hls : Forall body_line_ok lines)
    (Hbad : Forall (breaks opts status lines) bad) (Hgood : serves opts status lines rest good)
    (Hn : Z.of_nat (length bad) <= po_retry_count opts) :
  ∃ c ks, run_job opts None (bad ++ good :: more) j (Some f) ctx =
            Some (Some c, more, deliver f (partial lines f ctx ks) lines, code_of status) ∧
          length ks = length bad ∧ stream c = rest.
Proof. apply run_attempts_retries; eauto. lia. Qed.

(** Greeting, a body cut after one line; then greeting and the whole body. *)
Definition cut_network : network :=
  Network (λ _, true) true true true [$ "200 hi" ++ crlf; $ "222 x" ++ crlf ++ $ "a" ++ crlf] [true].
Definition good_network : network :=
  Network (λ _, true) true true true
    [$ "200 hi" ++ crlf; $ "222 x" ++ crlf ++ body_wire [$ "a"; $ "b"]] [true].

Lemma run_job_retries_until_served_witness :
  ∃ c ks, run_job (NntpPoolOpts false [] [] 1 1) None [cut_network; good_network]
            (PoolJob ($ "BODY") ($ "<a>") 0) (Some collect) [] =
            Some (Some c, [], deliver collect (partial [$ "a"; $ "b"] collect [] ks) [$ "a"; $ "b"], 222) ∧
          length ks = 1%nat ∧ stream c = [].
Proof.
  apply (run_job_retries_until_served (NntpPoolOpts false [] [] 1 1) (PoolJob ($ "BODY") ($ "<a>") 0)
    ($ "222 x") [$ "a"; $ "b"] collect [] [cut_network] good_network [] []).
  - split; cbn; lia.
  - literal_line.
  - unfold LINE_SIZE. simpl length. lia.
  - right. reflexivity.
  - repeat (apply Forall_cons_2; [literal_line|]). apply Forall_nil_2.
  - apply Forall_singleton. right.
    destruct (connects (NntpPoolOpts false [] [] 1 1) cut_network ($ "200 hi") ($ "222 x" ++ crlf ++ $ "a" ++ crlf))
      as (c & He & Hok & Hst); [done..|literal_line|unfold REPLY_SIZE; simpl length; lia|reflexivity|].
    exists c, []. rewrite Hst. split; [done|]. split; [done|]. split; [|done].
    by exists ($ "b" ++ crlf ++ dot :: crlf).
  - destruct (connects (NntpPoolOpts false [] [] 1 1) good_network ($ "200 hi")
      ($ "222 x" ++ crlf ++ body_wire [$ "a"; $ "b"]))
      as (c & He & Hok & Hst); [done..|literal_line|unfold REPLY_SIZE; simpl length; lia|reflexivity|].
    exists c, []. rewrite Hst. split; [exact He|]. split; [exact Hok|reflexivity].
  - cbn. lia.
Defined.

(** [run_job] opens at most [retry_count + 1] connections, and it keeps none
    when it reports a transport error. *)
Theorem run_job_attempts_bounded {A} (opts : nntp_pool_opts) (nets : list network)
    (j : pool_job) (cb : option (body_cb A)) (ctx : A) (Ho : opts_fit opts) (Hj : job_fits j) :
  ∃ conn' nets' ctx' status,
    run_job opts None nets j cb ctx = Some (conn', nets', ctx', status) ∧
    (∃ used, nets = used ++ nets' ∧ Z.of_nat (length used) <= Z.max 0 (po_retry_count opts + 1)) ∧
    (status < 0 → conn' = None).
Proof.
  destruct (run_job_total opts None nets j cb ctx Ho Hj) as [[[[conn' nets'] ctx'] status] Hr].
  exists conn', nets', ctx', status. split; [done|].
  destruct (run_attempts_bound _ _ _ _ _ _ _ _ _ _ _ _ Hr ltac:(done)) as [(used & -> & Hu) ?].
  split; [|done]. exists used. split; [done|lia].
Qed.

Lemma run_job_attempts_bounded_witness :
  ∃ conn' nets' ctx' status,
    run_job sample_opts None [cut_network; good_network] (PoolJob ($ "BODY") ($ "<a>") 0)
      (Some collect) [] = Some (conn', nets', ctx', status) ∧
    (∃ used, [cut_network; good_network] = used ++ nets' ∧ Z.of_nat (length used) <= 1) ∧
    (status < 0 → conn' = None).
Proof. apply (run_job_attempts_bounded sample_opts); split; cbn; lia. Defined.
