(* ===== verification/Segment.v ===== *)
(** * One segment of a download ([download/download.c])

    What happens to the lines of one article: the yEnc framing, the write
    buffer and its budget, the file shared by the segments of one NZB file, and
    the verdict when the fetch is over ([body_line_cb], [buffer_append],
    [segment_flush], [resolve_segment_range], [segment_done_cb]).

    The calls that can fail are outcomes in an environment: the allocation of
    the write buffer, the creation and opening of the file, and the count that
    [pwrite] returns. The transform of data lines is rapidyenc's, a parameter. *)

From Stdlib Require Import ZArith Lia List.
From Stdlib Require Import Strings.Byte Strings.String.
From stdpp Require Import base list gmap.
From S2P Require Import Prelude Crc32 Yenc Job JobStore Nntp NntpPool.

Definition DL_CHECKPOINT_INTERVAL : Z := 25.
Definition DL_CHECKPOINT_MIN_INTERVAL_MS : Z := 2000.
Definition SEG_WBUF_SIZE : nat := Z.to_nat 65536.

Inductive yenc_state :=
  | YENC_WANT_BEGIN
  | YENC_WANT_PART_OR_DATA
  | YENC_IN_DATA
  | YENC_DONE.

#[global] Instance yenc_state_eq_dec : EqDecision yenc_state.
Proof. solve_decision. Defined.

(** [file_dl_t]: [fd_open] is [fd >= 0]. [fd_content] is what the file holds on
    disk, [fd_stats] what [app_stats_add_bytes] has been given. *)
Record file_dl := FileDl {
  fd_open : bool;
  fd_open_failed : bool;
  fd_remaining : Z;
  fd_content : list byte;
  fd_stats : Z
}.

(** [segment_ctx_t]: [sc_wbuf] is [None] for NULL, else its first [wbuf_len]
    bytes. *)
Record segment_ctx := SegmentCtx {
  sc_seg_bytes : Z;
  sc_yenc_state : yenc_state;
  sc_ybegin_size : Z;
  sc_have_ybegin_size : bool;
  sc_crc : Z;
  sc_expected_crc : Z;
  sc_have_expected_crc : bool;
  sc_yenc_failed : bool;
  sc_offset : Z;
  sc_budget : Z;
  sc_written : Z;
  sc_range_resolved : bool;
  sc_budget_warned : bool;
  sc_write_failed : bool;
  sc_wbuf : option (list byte)
}.

(** [calloc] and [sc->crc = crc32_init()] of [download_segments]. *)
Definition segment_ctx_new (seg_bytes : Z) : segment_ctx :=
  SegmentCtx seg_bytes YENC_WANT_BEGIN 0 false crc32_init 0 false false 0 0 0 false false false None.

Definition wbuf_len (sc : segment_ctx) : nat := length (default [] (sc_wbuf sc)).

Definition set_wbuf (wbuf : option (list byte)) (sc : segment_ctx) : segment_ctx :=
  SegmentCtx (sc_seg_bytes sc) (sc_yenc_state sc) (sc_ybegin_size sc) (sc_have_ybegin_size sc)
    (sc_crc sc) (sc_expected_crc sc) (sc_have_expected_crc sc) (sc_yenc_failed sc) (sc_offset sc)
    (sc_budget sc) (sc_written sc) (sc_range_resolved sc) (sc_budget_warned sc) (sc_write_failed sc) wbuf.

(** [wbuf_len = 0] *)
Definition drop_wbuf (sc : segment_ctx) : segment_ctx := set_wbuf ((λ _, []) <$> sc_wbuf sc) sc.

Definition set_written (w : Z) (sc : segment_ctx) : segment_ctx :=
  SegmentCtx (sc_seg_bytes sc) (sc_yenc_state sc) (sc_ybegin_size sc) (sc_have_ybegin_size sc)
    (sc_crc sc) (sc_expected_crc sc) (sc_have_expected_crc sc) (sc_yenc_failed sc) (sc_offset sc)
    (sc_budget sc) w (sc_range_resolved sc) (sc_budget_warned sc) (sc_write_failed sc) (sc_wbuf sc).

Definition set_write_failed (sc : segment_ctx) : segment_ctx :=
  SegmentCtx (sc_seg_bytes sc) (sc_yenc_state sc) (sc_ybegin_size sc) (sc_have_ybegin_size sc)
    (sc_crc sc) (sc_expected_crc sc) (sc_have_expected_crc sc) (sc_yenc_failed sc) (sc_offset sc)
    (sc_budget sc) (sc_written sc) (sc_range_resolved sc) (sc_budget_warned sc) true (sc_wbuf sc).

Definition set_budget_warned (sc : segment_ctx) : segment_ctx :=
  SegmentCtx (sc_seg_bytes sc) (sc_yenc_state sc) (sc_ybegin_size sc) (sc_have_ybegin_size sc)
    (sc_crc sc) (sc_expected_crc sc) (sc_have_expected_crc sc) (sc_yenc_failed sc) (sc_offset sc)
    (sc_budget sc) (sc_written sc) (sc_range_resolved sc) true (sc_write_failed sc) (sc_wbuf sc).

Definition set_yenc_state (st : yenc_state) (sc : segment_ctx) : segment_ctx :=
  SegmentCtx (sc_seg_bytes sc) st (sc_ybegin_size sc) (sc_have_ybegin_size sc)
    (sc_crc sc) (sc_expected_crc sc) (sc_have_expected_crc sc) (sc_yenc_failed sc) (sc_offset sc)
    (sc_budget sc) (sc_written sc) (sc_range_resolved sc) (sc_budget_warned sc) (sc_write_failed sc)
    (sc_wbuf sc).

Definition set_yenc_failed (sc : segment_ctx) : segment_ctx :=
  SegmentCtx (sc_seg_bytes sc) (sc_yenc_state sc) (sc_ybegin_size sc) (sc_have_ybegin_size sc)
    (sc_crc sc) (sc_expected_crc sc) (sc_have_expected_crc sc) true (sc_offset sc)
    (sc_budget sc) (sc_written sc) (sc_range_resolved sc) (sc_budget_warned sc) (sc_write_failed sc)
    (sc_wbuf sc).

Definition set_crc (crc : Z) (sc : segment_ctx) : segment_ctx :=
  SegmentCtx (sc_seg_bytes sc) (sc_yenc_state sc) (sc_ybegin_size sc) (sc_have_ybegin_size sc)
    crc (sc_expected_crc sc) (sc_have_expected_crc sc) (sc_yenc_failed sc) (sc_offset sc)
    (sc_budget sc) (sc_written sc) (sc_range_resolved sc) (sc_budget_warned sc) (sc_write_failed sc)
    (sc_wbuf sc).

Definition set_expected_crc (crc : Z) (sc : segment_ctx) : segment_ctx :=
  SegmentCtx (sc_seg_bytes sc) (sc_yenc_state sc) (sc_ybegin_size sc) (sc_have_ybegin_size sc)
    (sc_crc sc) crc true (sc_yenc_failed sc) (sc_offset sc)
    (sc_budget sc) (sc_written sc) (sc_range_resolved sc) (sc_budget_warned sc) (sc_write_failed sc)
    (sc_wbuf sc).

Definition set_ybegin (have : bool) (size : Z) (sc : segment_ctx) : segment_ctx :=
  SegmentCtx (sc_seg_bytes sc) (sc_yenc_state sc) size have
    (sc_crc sc) (sc_expected_crc sc) (sc_have_expected_crc sc) (sc_yenc_failed sc) (sc_offset sc)
    (sc_budget sc) (sc_written sc) (sc_range_resolved sc) (sc_budget_warned sc) (sc_write_failed sc)
    (sc_wbuf sc).

Definition set_range (offset budget : Z) (sc : segment_ctx) : segment_ctx :=
  SegmentCtx (sc_seg_bytes sc) (sc_yenc_state sc) (sc_ybegin_size sc) (sc_have_ybegin_size sc)
    (sc_crc sc) (sc_expected_crc sc) (sc_have_expected_crc sc) (sc_yenc_failed sc) offset
    budget (sc_written sc) true (sc_budget_warned sc) (sc_write_failed sc) (sc_wbuf sc).

(** The reset at a second "=ybegin". *)
Definition reset_decode (sc : segment_ctx) : segment_ctx :=
  SegmentCtx (sc_seg_bytes sc) YENC_WANT_BEGIN (sc_ybegin_size sc) (sc_have_ybegin_size sc)
    crc32_init 0 false false (sc_offset sc) (sc_budget sc) 0 false false (sc_write_failed sc) None.

(** ** Writing *)

(** The outcomes of the calls made while one line is handled: [e_pwrite n] is
    how many of [n] bytes are written, [None] for -1. *)
Record seg_env := SegEnv {
  e_malloc : bool;
  e_mkdir : bool;
  e_open : bool;
  e_pwrite : nat → option nat
}.

(** Everything succeeds. *)
Definition env_ok : seg_env := SegEnv true true true Some.

Definition fd_write (fs : file_dl) (off : Z) (buf : list byte) : file_dl :=
  FileDl (fd_open fs) (fd_open_failed fs) (fd_remaining fs)
    (pwrite (fd_content fs) (Z.to_nat off) buf) (fd_stats fs).

Definition segment_flush (e : seg_env) (sc : segment_ctx) (fs : file_dl) : segment_ctx * file_dl :=
  if (wbuf_len sc =? 0)%nat then (sc, fs)
  else if sc_write_failed sc || fd_open_failed fs || negb (fd_open fs) then (drop_wbuf sc, fs)
  else
    let buf := default [] (sc_wbuf sc) in
    let got := e_pwrite e (wbuf_len sc) in
    let fs := match got with
              | Some k => fd_write fs (sc_offset sc + sc_written sc) (take k buf)
              | None => fs
              end in
    if bool_decide (got = Some (wbuf_len sc)) then
      (drop_wbuf (set_written (sc_written sc + Z.of_nat (wbuf_len sc)) sc),
       FileDl (fd_open fs) (fd_open_failed fs) (fd_remaining fs) (fd_content fs)
         (fd_stats fs + Z.of_nat (wbuf_len sc)))
    else (drop_wbuf (set_write_failed sc), fs).

(** The copying loop; every turn takes at least one byte. *)
Fixpoint append_loop (fuel : nat) (e : seg_env) (sc : segment_ctx) (fs : file_dl) (p : list byte)
    : segment_ctx * file_dl :=
  match fuel, p with
  | S fuel, _ :: _ =>
    let n := min (length p) (SEG_WBUF_SIZE - wbuf_len sc) in
    let sc := set_wbuf (Some (default [] (sc_wbuf sc) ++ take n p)) sc in
    let '(sc, fs) := if (wbuf_len sc =? SEG_WBUF_SIZE)%nat then segment_flush e sc fs else (sc, fs) in
    append_loop fuel e sc fs (drop n p)
  | _, _ => (sc, fs)
  end.

Definition buffer_append (e : seg_env) (sc : segment_ctx) (fs : file_dl) (data : list byte)
    : segment_ctx * file_dl :=
  if sc_write_failed sc || fd_open_failed fs || negb (fd_open fs) || bool_decide (sc_wbuf sc = None)
  then (sc, fs)
  else
    let remaining_budget := sc_budget sc - sc_written sc - Z.of_nat (wbuf_len sc) in
    let '(sc, data) :=
      if remaining_budget <? Z.of_nat (length data)
      then (set_budget_warned sc,
            take (if 0 <? remaining_budget then Z.to_nat remaining_budget else O) data)
      else (sc, data) in
    append_loop (length data) e sc fs data.

(** The opening of the file in [resolve_segment_range], under [fs->mu]. *)
Definition open_file (e : seg_env) (fs : file_dl) : file_dl :=
  if negb (fd_open fs) && negb (fd_open_failed fs) then
    if e_mkdir e && e_open e
    then FileDl true (fd_open_failed fs) (fd_remaining fs) (fd_content fs) (fd_stats fs)
    else FileDl false true (fd_remaining fs) (fd_content fs) (fd_stats fs)
  else fs.

Definition resolve_segment_range (e : seg_env) (sc : segment_ctx) (fs : file_dl) (offset budget : Z)
    : segment_ctx * file_dl :=
  let sc := set_range offset (if 0 <? budget then budget else 0) sc in
  if e_malloc e then (set_wbuf (Some []) sc, open_file e fs)
  else (set_write_failed (set_wbuf None sc), fs).

(** ** One line *)

Section lines.
Context (rapidyenc_decode_ex : list byte → list byte).

(** The part of [body_line_cb] from [YENC_IN_DATA] on. *)
Definition data_line (e : seg_env) (sc : segment_ctx) (fs : file_dl) (line : list byte)
    (kind : yenc_line_kind) (yl : yenc_line) : segment_ctx * file_dl :=
  match kind with
  | YENC_LINE_END =>
    let sc := if yl_has_crc32 yl then set_expected_crc (yl_crc32 yl) sc else sc in
    (set_yenc_state YENC_DONE sc, fs)
  | YENC_LINE_DATA =>
    let decoded := yenc_decode_line rapidyenc_decode_ex line in
    buffer_append e (set_crc (crc32_update (sc_crc sc) decoded) sc) fs decoded
  | _ => (sc, fs)
  end.

Definition body_line_cb (e : seg_env) (sc : segment_ctx) (fs : file_dl) (line : list byte)
    : segment_ctx * file_dl :=
  if bool_decide (sc_yenc_state sc = YENC_DONE) then (sc, fs)
  else
    let '(kind, yl) := yenc_classify_line line in
    let sc := if bool_decide (kind = YENC_LINE_BEGIN) &&
                 negb (bool_decide (sc_yenc_state sc = YENC_WANT_BEGIN))
              then reset_decode sc else sc in
    match sc_yenc_state sc with
    | YENC_DONE => (sc, fs)
    | YENC_WANT_BEGIN =>
      if negb (bool_decide (kind = YENC_LINE_BEGIN)) then (sc, fs)
      else (set_yenc_state YENC_WANT_PART_OR_DATA (set_ybegin (yl_has_size yl) (yl_size yl) sc), fs)
    | YENC_WANT_PART_OR_DATA =>
      match kind with
      | YENC_LINE_PART =>
        if negb (yl_has_range yl) || (yl_begin yl <? 1) || (yl_end yl <? yl_begin yl)
        then (set_yenc_state YENC_DONE (set_yenc_failed sc), fs)
        else
          let '(sc, fs) :=
            resolve_segment_range e sc fs (yl_begin yl - 1) (yl_end yl - yl_begin yl + 1) in
          (set_yenc_state YENC_IN_DATA sc, fs)
      | _ =>
        let '(sc, fs) :=
          resolve_segment_range e sc fs 0
            (if sc_have_ybegin_size sc then sc_ybegin_size sc else sc_seg_bytes sc) in
        data_line e (set_yenc_state YENC_IN_DATA sc) fs line kind yl
      end
    | YENC_IN_DATA => data_line e sc fs line kind yl
    end.

(** As the callback of the pool: the context is the segment and its file, and
    it never stops a fetch. *)
Definition body_line_callback (e : seg_env) : body_cb (segment_ctx * file_dl) :=
  λ '(sc, fs) line, (body_line_cb e sc fs line, false).
End lines.

(** ** The end of a fetch *)

(** [file_dl_release] *)
Definition file_dl_release (fs : file_dl) : file_dl :=
  let remaining := fd_remaining fs - 1 in
  FileDl (if (remaining =? 0) then false else fd_open fs) (fd_open_failed fs) remaining
    (fd_content fs) (fd_stats fs).

(** The verdict of [segment_done_cb], after its flush. *)
Definition segment_ok (sc : segment_ctx) (fs : file_dl) (status : Z) : bool :=
  if sc_write_failed sc || fd_open_failed fs then false
  else if negb (status =? 220) && negb (status =? 222) then false
  else if negb (sc_range_resolved sc) || negb (bool_decide (sc_yenc_state sc = YENC_DONE)) ||
          sc_yenc_failed sc then false
  else if sc_have_expected_crc sc && negb (crc32_final (sc_crc sc) =? sc_expected_crc sc) then false
  else true.

(** [job_dl_state_t] *)
Record job_dl_state := JobDlState {
  dl_pending : Z;
  dl_since_checkpoint : Z;
  dl_last_checkpoint_ms : Z
}.

(** The counters under [st->mu]: is a checkpoint due? *)
Definition checkpoint_due (st : job_dl_state) (now_ms : Z) : job_dl_state * bool :=
  let since := dl_since_checkpoint st + 1 in
  if (DL_CHECKPOINT_INTERVAL <=? since) &&
     (DL_CHECKPOINT_MIN_INTERVAL_MS <=? now_ms - dl_last_checkpoint_ms st)
  then (JobDlState (dl_pending st) 0 now_ms, true)
  else (JobDlState (dl_pending st) since (dl_last_checkpoint_ms st), false).

Definition dl_state_add (st : job_dl_state) : job_dl_state :=
  JobDlState (dl_pending st + 1) (dl_since_checkpoint st) (dl_last_checkpoint_ms st).

Definition dl_state_done (st : job_dl_state) : job_dl_state :=
  JobDlState (dl_pending st - 1) (dl_since_checkpoint st) (dl_last_checkpoint_ms st).

(** [segment_done_cb]: the file and the counters it leaves, the job with the
    segment marked if its verdict is good, and the progress bitmap it then
    writes when a checkpoint is due. *)
Definition segment_done_cb (e : seg_env) (sc : segment_ctx) (fs : file_dl) (st : job_dl_state)
    (j : job) (message_id : cstr) (now_ms status : Z)
    : file_dl * job_dl_state * job * option (list byte) :=
  let '(sc, fs) := segment_flush e sc fs in
  if segment_ok sc fs status then
    let j := fst (job_mark_segment_downloaded j message_id) in
    let '(st, checkpoint) := checkpoint_due st now_ms in
    (file_dl_release fs, dl_state_done st, j,
     if checkpoint then Some (job_progress_snapshot j) else None)
  else (file_dl_release fs, dl_state_done st, j, None).

(** ** The budget *)

(** The content may have changed between [lo] and [hi] only, and it has grown no
    further than [hi]. *)
Definition within (lo hi : Z) (c c' : list byte) : Prop :=
  (∀ i, (i < length c)%nat → Z.of_nat i < lo ∨ hi <= Z.of_nat i → c' !! i = c !! i) ∧
  Z.of_nat (length c) <= Z.of_nat (length c') <= Z.max (Z.of_nat (length c)) hi.

Lemma within_refl lo hi c : within lo hi c c.
Proof. split; [done|lia]. Qed.

Lemma within_trans lo hi c1 c2 c3 : within lo hi c1 c2 → within lo hi c2 c3 → within lo hi c1 c3.
Proof.
  intros [H1 L1] [H2 L2]. split; [|lia].
  intros i Hi Ho. rewrite H2 by lia. by apply H1.
Qed.

Lemma within_pwrite lo hi c off buf :
  lo <= Z.of_nat off → Z.of_nat (off + length buf) <= hi → within lo hi c (pwrite c off buf).
Proof.
  intros Hlo Hhi. split; [|rewrite length_pwrite; lia].
  intros i Hi Ho. apply lookup_pwrite_out; lia.
Qed.

Definition LONG_MAX : Z := 2 ^ 63 - 1.

(** What is written and buffered stays inside the range of the segment, and the
    positions stay inside a [long]. *)
Record budget_ok (sc : segment_ctx) : Prop := {
  bo_offset : 0 <= sc_offset sc;
  bo_budget : 0 <= sc_budget sc;
  bo_long : sc_offset sc + sc_budget sc <= LONG_MAX;
  bo_written : 0 <= sc_written sc;
  bo_room : sc_written sc + Z.of_nat (wbuf_len sc) <= sc_budget sc;
  bo_wbuf : (wbuf_len sc < SEG_WBUF_SIZE)%nat;
  bo_size : - 2 ^ 63 <= sc_ybegin_size sc <= LONG_MAX;
  bo_seg_bytes : - 2 ^ 63 <= sc_seg_bytes sc <= LONG_MAX;
  bo_start : sc_yenc_state sc ∈ [YENC_WANT_BEGIN; YENC_WANT_PART_OR_DATA] →
    sc_written sc = 0 ∧ sc_wbuf sc = None
}.

Lemma SEG_WBUF_SIZE_pos : (0 < SEG_WBUF_SIZE)%nat.
Proof. unfold SEG_WBUF_SIZE. lia. Qed.

Ltac seg_fields :=
  cbn [set_wbuf set_written set_write_failed set_budget_warned set_yenc_state set_yenc_failed set_crc
       set_expected_crc set_ybegin set_range reset_decode drop_wbuf sc_seg_bytes sc_yenc_state
       sc_ybegin_size sc_have_ybegin_size sc_crc sc_expected_crc sc_have_expected_crc sc_yenc_failed
       sc_offset sc_budget sc_written sc_range_resolved sc_budget_warned sc_write_failed sc_wbuf
       fd_open fd_open_failed fd_remaining fd_content fd_stats fd_write fst snd] in *.

Lemma wbuf_len_drop sc : wbuf_len (drop_wbuf sc) = 0%nat.
Proof. unfold wbuf_len. seg_fields. by destruct (sc_wbuf sc). Qed.

(** The fields a flush or an append leaves alone. *)
Definition same_range (sc sc' : segment_ctx) : Prop :=
  sc_offset sc' = sc_offset sc ∧ sc_budget sc' = sc_budget sc ∧
  sc_yenc_state sc' = sc_yenc_state sc.

Lemma segment_flush_budget e sc fs sc' fs' :
  segment_flush e sc fs = (sc', fs') →
  sc_yenc_state sc ∉ [YENC_WANT_BEGIN; YENC_WANT_PART_OR_DATA] →
  0 <= sc_offset sc → sc_offset sc + sc_budget sc <= LONG_MAX → 0 <= sc_written sc →
  sc_written sc + Z.of_nat (wbuf_len sc) <= sc_budget sc →
  - 2 ^ 63 <= sc_ybegin_size sc <= LONG_MAX → - 2 ^ 63 <= sc_seg_bytes sc <= LONG_MAX →
  budget_ok sc' ∧ same_range sc sc' ∧
  within (sc_offset sc) (sc_offset sc + sc_budget sc) (fd_content fs) (fd_content fs').
Proof.
  intros Hf Hst Hoff Hlong Hw Hroom Hys Hsb. unfold segment_flush in Hf. pose proof SEG_WBUF_SIZE_pos.
  destruct (Nat.eqb_spec (wbuf_len sc) 0) as [H0|H0].
  { simplify_eq. split; [|split; [done|apply within_refl]]. constructor; try done; lia. }
  destruct (sc_write_failed sc || _ || _) eqn:Hbad.
  { simplify_eq. split; [|split; [done|apply within_refl]].
    constructor; rewrite ?wbuf_len_drop; seg_fields; try done; lia. }
  cbv zeta in Hf. case_bool_decide as Hgot; simplify_eq; (split; [|split; [done|]]).
  - constructor; rewrite ?wbuf_len_drop; seg_fields; try done; lia.
  - rewrite Hgot. seg_fields. apply within_pwrite; [lia|]. rewrite length_take.
    fold (wbuf_len sc). lia.
  - constructor; rewrite ?wbuf_len_drop; seg_fields; try done; lia.
  - destruct (e_pwrite e (wbuf_len sc)) as [k|]; [|apply within_refl]. seg_fields.
    apply within_pwrite; [lia|]. rewrite length_take. fold (wbuf_len sc). lia.
Qed.

Lemma append_loop_budget fuel e sc fs p sc' fs' :
  append_loop fuel e sc fs p = (sc', fs') →
  sc_yenc_state sc ∉ [YENC_WANT_BEGIN; YENC_WANT_PART_OR_DATA] → budget_ok sc →
  sc_written sc + Z.of_nat (wbuf_len sc) + Z.of_nat (length p) <= sc_budget sc →
  budget_ok sc' ∧ same_range sc sc' ∧
  within (sc_offset sc) (sc_offset sc + sc_budget sc) (fd_content fs) (fd_content fs').
Proof.
  induction fuel as [|fuel IH] in sc, fs, p |- *; intros Hl Hst Hb Hroom.
  { simplify_eq/=. split; [done|]. split; [done|apply within_refl]. }
  destruct p as [|b p]; cbn [append_loop] in Hl.
  { simplify_eq/=. split; [done|]. split; [done|apply within_refl]. }
  cbv zeta in Hl. set (n := min (length (b :: p)) (SEG_WBUF_SIZE - wbuf_len sc)) in Hl.
  set (sc1 := set_wbuf (Some (default [] (sc_wbuf sc) ++ take n (b :: p))) sc) in Hl.
  assert (wbuf_len sc1 = (wbuf_len sc + n)%nat) as Hl1.
  { change (wbuf_len sc1) with (length (default [] (sc_wbuf sc) ++ take n (b :: p))).
    rewrite length_app, length_take. fold (wbuf_len sc). lia. }
  assert (n <= length (b :: p))%nat as Hn by (unfold n; lia).
  destruct Hb as [Hb1 Hb2 Hb3 Hb4 Hb5 Hb6 Hb7 Hb8 Hb9].
  assert (∃ sc2 fs2, (if (wbuf_len sc1 =? SEG_WBUF_SIZE)%nat then segment_flush e sc1 fs else (sc1, fs)) =
      (sc2, fs2) ∧ budget_ok sc2 ∧ same_range sc sc2 ∧
      sc_written sc2 + Z.of_nat (wbuf_len sc2) <= sc_written sc + Z.of_nat (wbuf_len sc1) ∧
      within (sc_offset sc) (sc_offset sc + sc_budget sc) (fd_content fs) (fd_content fs2))
    as (sc2 & fs2 & Heq & Hb' & Hr' & Hw' & Hin').
  { destruct (Nat.eqb_spec (wbuf_len sc1) SEG_WBUF_SIZE) as [Hfull|Hfull].
    - destruct (segment_flush e sc1 fs) as [sc2 fs2] eqn:Hfl.
      destruct (segment_flush_budget e sc1 fs sc2 fs2 Hfl) as (? & ? & ?); try done.
      { change (sc_written sc1) with (sc_written sc). change (sc_budget sc1) with (sc_budget sc). lia. }
      exists sc2, fs2. split; [done|]. split; [done|]. split; [done|]. split; [|done].
      assert (sc_written sc1 = sc_written sc) as Hws by done. clear -Hfl Hws. clearbody sc1.
      unfold segment_flush in Hfl. destruct (_ =? 0)%nat; [simplify_eq; lia|].
      destruct (_ || _); [simplify_eq; rewrite wbuf_len_drop; seg_fields; lia|].
      cbv zeta in Hfl. case_bool_decide; simplify_eq; rewrite wbuf_len_drop; seg_fields; lia.
    - exists sc1, fs. split; [done|]. split; [|split; [done|split; [done|apply within_refl]]].
      constructor; try done; change (sc_written sc1) with (sc_written sc);
        change (sc_budget sc1) with (sc_budget sc); unfold n in *; lia. }
  rewrite Heq in Hl. destruct Hr' as (R1 & R2 & R3).
  destruct (IH _ _ _ Hl) as (? & (S1 & S2 & S3) & Hin''); [congruence|done|rewrite length_drop; lia|].
  split; [done|]. split; [split; [|split]; congruence|].
  rewrite R1, R2 in Hin''. by eapply within_trans.
Qed.

Ltac budget_fields :=
  constructor; unfold wbuf_len in *; seg_fields; cbn [default from_option id length] in *;
  first [done|lia|intros ?; exfalso; set_solver|idtac].

Lemma segment_ctx_new_budget sb : - 2 ^ 63 <= sb <= LONG_MAX → budget_ok (segment_ctx_new sb).
Proof.
  intros. pose proof SEG_WBUF_SIZE_pos. unfold LONG_MAX in *. budget_fields; cbn; lia.
Qed.

Lemma resolve_budget e sc fs offset budget sc' fs' :
  resolve_segment_range e sc fs offset budget = (sc', fs') →
  budget_ok sc → sc_yenc_state sc = YENC_WANT_PART_OR_DATA →
  0 <= offset → offset + Z.max 0 budget <= LONG_MAX →
  budget_ok (set_yenc_state YENC_IN_DATA sc') ∧ fd_content fs' = fd_content fs.
Proof.
  intros Hr [Hb1 Hb2 Hb3 Hb4 Hb5 Hb6 Hb7 Hb8 Hb9] Hst Ho Hl. destruct Hb9 as [Hw Hwb]; [rewrite Hst; set_solver|].
  pose proof SEG_WBUF_SIZE_pos. unfold resolve_segment_range in Hr. cbv zeta in Hr.
  assert (0 <= (if 0 <? budget then budget else 0) ∧
          offset + (if 0 <? budget then budget else 0) <= LONG_MAX) as [Hn Hm].
  { destruct (Z.ltb_spec 0 budget); lia. }
  destruct (e_malloc e); simplify_eq.
  - split; [budget_fields|].
    unfold open_file. destruct (_ && _); [|done]. by destruct (_ && _).
  - split; [budget_fields|done].
Qed.

Section lines_budget.
Context (rapidyenc_decode_ex : list byte → list byte).

Lemma data_line_budget e sc fs line kind yl sc' fs' :
  data_line rapidyenc_decode_ex e sc fs line kind yl = (sc', fs') →
  budget_ok sc → sc_yenc_state sc = YENC_IN_DATA →
  budget_ok sc' ∧
  within (sc_offset sc') (sc_offset sc' + sc_budget sc') (fd_content fs) (fd_content fs').
Proof.
  intros Hd Hb Hst. unfold data_line in Hd. destruct kind; cbv zeta in Hd.
  - unfold buffer_append in Hd. destruct (sc_write_failed _ || _ || _ || _).
    { simplify_eq. split; [|apply within_refl]. by destruct Hb. }
    seg_fields. set (decoded := yenc_decode_line rapidyenc_decode_ex line) in Hd.
    set (sc1 := set_crc (crc32_update (sc_crc sc) decoded) sc) in Hd.
    set (room := sc_budget sc - sc_written sc - Z.of_nat (wbuf_len sc1)) in Hd.
    assert (budget_ok sc1 ∧ budget_ok (set_budget_warned sc1)) as [Hb1 Hb2].
    { destruct Hb. split; by constructor. }
    assert (wbuf_len sc1 = wbuf_len sc) as Hwl by done. pose proof (bo_room _ Hb) as Hroom.
    destruct (Z.ltb_spec room (Z.of_nat (length decoded))) as [Hlt|Hge].
    + destruct (append_loop_budget _ _ _ _ _ _ _ Hd) as (? & (-> & -> & _) & ?); [change (sc_yenc_state sc ∉ [YENC_WANT_BEGIN; YENC_WANT_PART_OR_DATA]); rewrite Hst; set_solver|done| |done].
      change (wbuf_len (set_budget_warned sc1)) with (wbuf_len sc). rewrite length_take.
      change (sc_written (set_budget_warned sc1)) with (sc_written sc).
      change (sc_budget (set_budget_warned sc1)) with (sc_budget sc).
      destruct (Z.ltb_spec 0 room); lia.
    + destruct (append_loop_budget _ _ _ _ _ _ _ Hd) as (? & (-> & -> & _) & ?); [change (sc_yenc_state sc ∉ [YENC_WANT_BEGIN; YENC_WANT_PART_OR_DATA]); rewrite Hst; set_solver|done| |done].
      change (sc_written sc1) with (sc_written sc). change (sc_budget sc1) with (sc_budget sc). lia.
  - simplify_eq. split; [done|apply within_refl].
  - simplify_eq. split; [done|apply within_refl].
  - simplify_eq. split; [|apply within_refl]. destruct Hb. destruct (yl_has_crc32 yl); budget_fields.
Qed.

Lemma body_line_budget e sc fs line sc' fs' :
  body_line_cb rapidyenc_decode_ex e sc fs line = (sc', fs') → budget_ok sc →
  budget_ok sc' ∧
  within (sc_offset sc') (sc_offset sc' + sc_budget sc') (fd_content fs) (fd_content fs').
Proof.
  intros Hl Hb. unfold body_line_cb in Hl. case_bool_decide as Hdone.
  { simplify_eq. split; [done|apply within_refl]. }
  pose proof (classify_line_ok line) as Hyl. destruct (yenc_classify_line line) as [kind yl].
  cbn [snd] in Hyl. destruct Hyl as (Hys & Hyb & Hye).
  set (sc1 := if bool_decide (kind = YENC_LINE_BEGIN) && _ then reset_decode sc else sc) in Hl.
  assert (budget_ok sc1) as Hb1.
  { unfold sc1. destruct (_ && _); [|done]. destruct Hb. pose proof SEG_WBUF_SIZE_pos.
    budget_fields. }
  clearbody sc1. cbv zeta in Hl. unfold long_ok in *. destruct (sc_yenc_state sc1) eqn:Hst.
  - destruct Hb1 as [? ? ? ? ? ? ? ? Hb9]. destruct Hb9 as [Hw Hwb]; [rewrite Hst; set_solver|].
    case_bool_decide; simplify_eq/=; (split; [|apply within_refl]); constructor; seg_fields; done.
  - assert (∀ off bud sc2 fs2, resolve_segment_range e sc1 fs off bud = (sc2, fs2) →
      0 <= off → off + Z.max 0 bud <= LONG_MAX →
      budget_ok (set_yenc_state YENC_IN_DATA sc2) ∧ fd_content fs2 = fd_content fs) as Hres.
    { intros. by eapply resolve_budget. }
    assert (∀ sc2 fs2, (let '(sc0, fs0) := resolve_segment_range e sc1 fs 0
        (if sc_have_ybegin_size sc1 then sc_ybegin_size sc1 else sc_seg_bytes sc1) in
        data_line rapidyenc_decode_ex e (set_yenc_state YENC_IN_DATA sc0) fs0 line kind yl) = (sc2, fs2) →
      budget_ok sc2 ∧ within (sc_offset sc2) (sc_offset sc2 + sc_budget sc2) (fd_content fs) (fd_content fs2))
      as Hsingle.
    { intros sc2 fs2 Hd. destruct (resolve_segment_range _ _ _ _ _) as [sc0 fs0] eqn:Hr.
      destruct (Hres _ _ _ _ Hr) as [Hb0 <-]; [done| |by eapply data_line_budget].
      destruct Hb1. unfold LONG_MAX in *. destruct (sc_have_ybegin_size sc1); lia. }
    destruct kind; try by apply Hsingle. clear Hsingle.
    destruct (negb (yl_has_range yl) || (yl_begin yl <? 1) || (yl_end yl <? yl_begin yl)) eqn:Hbad.
    { simplify_eq. split; [|apply within_refl]. destruct Hb1. budget_fields. }
    destruct (resolve_segment_range _ _ _ _ _) as [sc0 fs0] eqn:Hr. simplify_eq.
    destruct (Hres _ _ _ _ Hr) as [Hb0 <-]; [unfold LONG_MAX; lia..|]. split; [done|apply within_refl].
  - by eapply data_line_budget.
  - simplify_eq. split; [done|apply within_refl].
Qed.
End lines_budget.

(** ** Placement

    [D] is the content the file is to have. Writing bytes of [D] at their place
    keeps every region that already agrees with [D]. *)

Definition matches (D : list byte) (pos : nat) (buf : list byte) : Prop :=
  take (length buf) (drop pos D) = buf.

Definition region (D c : list byte) (lo hi : nat) : Prop :=
  ∀ x, (lo <= x < hi)%nat → (x < length D)%nat → c !! x = D !! x.

(** From [c] to [c'] no agreement with [D] is lost, and nothing is put past its
    end. *)
Definition improves (D c c' : list byte) : Prop :=
  (∀ x, (x < length D)%nat → c !! x = D !! x → c' !! x = D !! x) ∧
  ((length c <= length D)%nat → (length c' <= length D)%nat).

#[global] Instance improves_preorder D : PreOrder (improves D).
Proof.
  split; [split; auto|]. intros c1 c2 c3 [H1 L1] [H2 L2]. split; auto.
Qed.

Lemma region_improves D c c' lo hi : improves D c c' → region D c lo hi → region D c' lo hi.
Proof. intros [H _] Hr x Hx Hd. auto. Qed.

Lemma matches_lookup D pos buf i :
  matches D pos buf → (i < length buf)%nat → buf !! i = D !! (pos + i)%nat.
Proof. intros Hm Hi. rewrite <- Hm at 1. by rewrite lookup_take_lt, lookup_drop. Qed.

Lemma matches_bound D pos buf :
  matches D pos buf → (0 < length buf)%nat → (pos + length buf <= length D)%nat.
Proof.
  intros Hm Hl. apply (f_equal length) in Hm. rewrite length_take, length_drop in Hm. lia.
Qed.

Lemma matches_app D pos a b :
  matches D pos (a ++ b) ↔ matches D pos a ∧ matches D (pos + length a) b.
Proof.
  unfold matches. rewrite length_app, <- drop_drop, <- (take_take_drop _ (length a) (length b)).
  split.
  - intros H. assert (length (take (length a + length b) (drop pos D)) = (length a + length b)%nat) as Hl.
    { rewrite <- (take_take_drop _ (length a) (length b)), H, length_app. done. }
    rewrite length_take in Hl. apply app_inj_1 in H; [done|]. rewrite length_take. lia.
  - intros [-> ->]. done.
Qed.

Lemma matches_drop D pos a b : matches D pos (a ++ b) → matches D (pos + length a) b.
Proof. intros H%matches_app. apply H. Qed.

Lemma pwrite_improves D c pos buf :
  matches D pos buf → buf ≠ [] →
  improves D c (pwrite c pos buf) ∧ region D (pwrite c pos buf) pos (pos + length buf).
Proof.
  intros Hm Hne. assert (0 < length buf)%nat as Hl by (destruct buf; [done|cbn; lia]).
  pose proof (matches_bound _ _ _ Hm Hl) as Hb. split; [split|].
  - intros x Hx Hc. destruct (decide (pos <= x < pos + length buf)%nat) as [Hin|Hout].
    + rewrite lookup_pwrite_in, (matches_lookup D pos) by (done || lia). f_equal. lia.
    + assert (x < length c)%nat.
      { apply lookup_lt_is_Some_1. rewrite Hc. by apply lookup_lt_is_Some_2. }
      rewrite lookup_pwrite_out by lia. done.
  - intros. rewrite length_pwrite. lia.
  - intros x Hx Hd. rewrite lookup_pwrite_in, (matches_lookup D pos) by (done || lia). f_equal. lia.
Qed.

Lemma region_app D c a b d : region D c a b → region D c b d → region D c a d.
Proof. intros H1 H2 x Hx Hd. destruct (decide (x < b)%nat); [apply H1|apply H2]; lia. Qed.

Lemma region_full D c : (length c <= length D)%nat → region D c 0 (length D) → c = D.
Proof.
  intros Hl Hr. apply list_eq. intros i. destruct (decide (i < length D)%nat); [apply Hr; lia|].
  rewrite !lookup_ge_None_2 by lia. done.
Qed.

(** The state of a segment in its data: [m] decoded bytes so far, of which
    [sc_written] are in the file. *)
Record in_place (D : list byte) (off : nat) (m : nat) (sc : segment_ctx) (fs : file_dl) : Prop := {
  ip_offset : sc_offset sc = Z.of_nat off;
  ip_written : 0 <= sc_written sc;
  ip_failed : sc_write_failed sc = false;
  ip_wbuf : is_Some (sc_wbuf sc);
  ip_small : (wbuf_len sc < SEG_WBUF_SIZE)%nat;
  ip_count : Z.of_nat m = sc_written sc + Z.of_nat (wbuf_len sc);
  ip_pending : matches D (off + Z.to_nat (sc_written sc)) (default [] (sc_wbuf sc));
  ip_region : region D (fd_content fs) off (off + Z.to_nat (sc_written sc))
}.

(** The shared file is open and in order. *)
Definition file_good (fs : file_dl) : Prop := fd_open fs = true ∧ fd_open_failed fs = false.

(** Only the content and the statistics of the file change. *)
Definition file_same (fs fs' : file_dl) : Prop :=
  fd_open fs' = fd_open fs ∧ fd_open_failed fs' = fd_open_failed fs ∧ fd_remaining fs' = fd_remaining fs.

Lemma segment_flush_good D off m sc fs :
  file_good fs → sc_write_failed sc = false → is_Some (sc_wbuf sc) →
  sc_offset sc = Z.of_nat off → 0 <= sc_written sc →
  Z.of_nat m = sc_written sc + Z.of_nat (wbuf_len sc) →
  matches D (off + Z.to_nat (sc_written sc)) (default [] (sc_wbuf sc)) →
  region D (fd_content fs) off (off + Z.to_nat (sc_written sc)) →
  ∃ fs', segment_flush env_ok sc fs = (set_wbuf (Some []) (set_written (Z.of_nat m) sc), fs') ∧
    file_same fs fs' ∧ improves D (fd_content fs) (fd_content fs') ∧
    region D (fd_content fs') off (off + m).
Proof.
  intros [Hop Hof] Hwf [buf Hbuf] Hoff Hw Hm Hmat Hreg. unfold segment_flush.
  assert (wbuf_len sc = length buf) as Hl by (unfold wbuf_len; by rewrite Hbuf).
  rewrite Hl in *. rewrite Hbuf in *. cbn [default from_option id] in *.
  destruct (Nat.eqb_spec (length buf) 0) as [H0|H0].
  - exists fs. apply nil_length_inv in H0. subst buf. cbn [length] in Hm. split.
    + f_equal. replace (Z.of_nat m) with (sc_written sc) by lia.
      destruct sc. seg_fields. by rewrite Hbuf.
    + split; [done|]. split; [done|]. replace m with (Z.to_nat (sc_written sc)) by lia. done.
  - rewrite Hwf, Hof, Hop. cbn [orb negb env_ok e_pwrite]. cbv zeta.
    rewrite bool_decide_eq_true_2 by done. rewrite take_ge by done.
    destruct (pwrite_improves D (fd_content fs) _ _ Hmat) as [Himp Hnew]; [by intros ->|].
    eexists. split; [unfold drop_wbuf; seg_fields; rewrite Hbuf; cbn [fmap option_fmap option_map];
      f_equal; unfold set_wbuf, set_written; cbn; by rewrite Hm|].
    split; [done|]. seg_fields. rewrite Hoff.
    replace (Z.to_nat (Z.of_nat off + sc_written sc)) with (off + Z.to_nat (sc_written sc))%nat by lia.
    split; [done|]. eapply region_app; [by eapply region_improves|].
    replace (off + m)%nat with (off + Z.to_nat (sc_written sc) + length buf)%nat by lia. done.
Qed.

(** Only the buffer and the count of written bytes change. *)
Definition only_buffer (sc sc' : segment_ctx) : Prop :=
  sc' = set_wbuf (sc_wbuf sc') (set_written (sc_written sc') sc).

Lemma only_buffer_trans sc1 sc2 sc3 : only_buffer sc1 sc2 → only_buffer sc2 sc3 → only_buffer sc1 sc3.
Proof. unfold only_buffer. intros H1 H2. rewrite H2, H1 at 1. done. Qed.

Lemma file_same_trans fs1 fs2 fs3 : file_same fs1 fs2 → file_same fs2 fs3 → file_same fs1 fs3.
Proof. unfold file_same. intuition congruence. Qed.

Lemma file_same_good fs fs' : file_same fs fs' → file_good fs → file_good fs'.
Proof. unfold file_same, file_good. intuition congruence. Qed.

Lemma append_loop_good D off fuel m sc fs p :
  in_place D off m sc fs → file_good fs → matches D (off + m) p → (length p <= fuel)%nat →
  ∃ sc' fs', append_loop fuel env_ok sc fs p = (sc', fs') ∧ in_place D off (m + length p) sc' fs' ∧
    only_buffer sc sc' ∧ file_same fs fs' ∧ improves D (fd_content fs) (fd_content fs').
Proof.
  induction fuel as [|fuel IH] in m, sc, fs, p |- *; intros Hin Hgood Hp Hf.
  - destruct p; cbn in Hf; [|lia]. exists sc, fs. rewrite Nat.add_0_r. split; [done|].
    split; [done|]. split; [by destruct sc|done].
  - destruct p as [|b p].
    { exists sc, fs. rewrite Nat.add_0_r. split; [done|]. split; [done|]. split; [by destruct sc|done]. }
    cbn [append_loop]. cbv zeta.
    pose proof Hin as [Hoff Hw Hwf [buf Hbuf] Hsmall Hcnt Hmat Hreg].
    assert (wbuf_len sc = length buf) as Hlen by (unfold wbuf_len; by rewrite Hbuf).
    rewrite Hlen, Hbuf in *. cbn [default from_option id] in *.
    set (n := min (length (b :: p)) (SEG_WBUF_SIZE - length buf)).
    assert (0 < n <= length (b :: p))%nat as Hn by (unfold n; cbn [length]; lia).
    set (sc1 := set_wbuf (Some (buf ++ take n (b :: p))) sc).
    assert (wbuf_len sc1 = (length buf + n)%nat) as Hl1.
    { change (wbuf_len sc1) with (length (buf ++ take n (b :: p))). rewrite length_app, length_take. lia. }
    rewrite <- (take_drop n (b :: p)), matches_app in Hp. destruct Hp as [Hp1 Hp2].
    assert (length (take n (b :: p)) = n) as Ht by (rewrite length_take; lia). rewrite Ht in Hp2.
    assert (matches D (off + Z.to_nat (sc_written sc)) (buf ++ take n (b :: p))) as Hmat1.
    { apply matches_app. split; [done|]. replace (off + Z.to_nat (sc_written sc) + length buf)%nat
        with (off + m)%nat by lia. done. }
    assert (∃ sc2 fs2, (if (wbuf_len sc1 =? SEG_WBUF_SIZE)%nat then segment_flush env_ok sc1 fs
        else (sc1, fs)) = (sc2, fs2) ∧ in_place D off (m + n) sc2 fs2 ∧ only_buffer sc sc2 ∧
        file_same fs fs2 ∧ improves D (fd_content fs) (fd_content fs2)) as (sc2 & fs2 & -> & Hin2 & Hob2 & Hs2 & Hi2).
    { destruct (Nat.eqb_spec (wbuf_len sc1) SEG_WBUF_SIZE) as [Hfull|Hfull].
      - destruct (segment_flush_good D off (m + n) sc1 fs Hgood) as (fs2 & -> & Hsame & Himp & Hreg2);
          [done|by eexists|done|done|rewrite Hl1; unfold sc1; seg_fields; lia|done|done|].
        eexists _, fs2. split; [done|]. split; [|split; [done|done]].
        pose proof SEG_WBUF_SIZE_pos. constructor; unfold wbuf_len; seg_fields;
          cbn [default from_option id length]; first [done|lia|by eexists|by rewrite Nat2Z.id].
      - exists sc1, fs. split; [done|]. split; [|split; [done|done]].
        constructor; try done; [unfold n in *; lia|].
        rewrite Hl1. change (sc_written sc1) with (sc_written sc). lia. }
    destruct (IH (m + n)%nat sc2 fs2 (drop n (b :: p)) Hin2) as (sc' & fs' & -> & Hin' & Hob' & Hs' & Hi').
    { by eapply file_same_good. }
    { by rewrite Nat.add_assoc. }
    { rewrite length_drop. cbn [length] in *. lia. }
    exists sc', fs'. split; [done|]. split; [|split; [by eapply only_buffer_trans|split;
      [by eapply file_same_trans|by etrans]]].
    rewrite length_drop in Hin'. by replace (m + length (b :: p))%nat
      with (m + n + (length (b :: p) - n))%nat by lia.
Qed.

Lemma buffer_append_good D off m sc fs p :
  in_place D off m sc fs → file_good fs → matches D (off + m) p →
  Z.of_nat (m + length p) <= sc_budget sc →
  ∃ sc' fs', buffer_append env_ok sc fs p = (sc', fs') ∧ in_place D off (m + length p) sc' fs' ∧
    only_buffer sc sc' ∧ file_same fs fs' ∧ improves D (fd_content fs) (fd_content fs').
Proof.
  intros Hin Hgood Hp Hb. pose proof Hin as [Hoff Hw Hwf [buf Hbuf] Hsmall Hcnt Hmat Hreg].
  unfold buffer_append. destruct Hgood as [Hop Hof]. rewrite Hwf, Hof, Hop, Hbuf. cbn [orb negb].
  rewrite bool_decide_eq_false_2 by done. cbv zeta.
  destruct (Z.ltb_spec (sc_budget sc - sc_written sc - Z.of_nat (wbuf_len sc)) (Z.of_nat (length p)));
    [lia|].
  apply (append_loop_good D off _ m); [done|split; done|done|lia].
Qed.

(** ** A well-formed article *)

(** The lines of one article: header, range line unless the file has a single
    part, data lines and trailer, with what the classifier and the decoder make
    of them. [ar_data] are the decoded data lines. *)
Record article := Article {
  ar_begin : list byte;
  ar_part : option (list byte);
  ar_lines : list (list byte);
  ar_end : list byte;
  ar_offset : nat;
  ar_data : list (list byte)
}.

Definition article_lines (a : article) : list (list byte) :=
  ar_begin a :: option_list (ar_part a) ++ ar_lines a ++ [ar_end a].

Definition article_bytes (a : article) : list byte := mjoin (ar_data a).

Section articles.
Context (rapidyenc_decode_ex : list byte → list byte).

(** The ranges fit: the size the header declares (or the NZB, when it declares
    none) or the part's range is at least the data's length. *)
Record article_ok (seg_bytes : Z) (a : article) : Prop := {
  ao_begin : (yenc_classify_line (ar_begin a)).1 = YENC_LINE_BEGIN;
  ao_range :
    match ar_part a with
    | Some l =>
      let '(kind, yl) := yenc_classify_line l in
      kind = YENC_LINE_PART ∧ yl_has_range yl = true ∧ yl_begin yl = Z.of_nat (ar_offset a) + 1 ∧
      Z.of_nat (ar_offset a) + Z.max 1 (Z.of_nat (length (article_bytes a))) <= yl_end yl
    | None =>
      let yl := (yenc_classify_line (ar_begin a)).2 in
      ar_offset a = 0%nat ∧
      Z.of_nat (length (article_bytes a)) <= (if yl_has_size yl then yl_size yl else seg_bytes)
    end;
  ao_data : Forall2 (λ l ch, (yenc_classify_line l).1 = YENC_LINE_DATA ∧
                             yenc_decode_line rapidyenc_decode_ex l = ch) (ar_lines a) (ar_data a);
  ao_end : (yenc_classify_line (ar_end a)).1 = YENC_LINE_END;
  ao_crc : let yl := (yenc_classify_line (ar_end a)).2 in
           yl_has_crc32 yl = true → yl_crc32 yl = crc32 (article_bytes a)
}.

(** Where the segment stands in the article: how many data lines it has had. *)
Inductive stage := At_begin | At_part | At_data (n : nat) | At_done.

#[local] Instance stage_eq_dec : EqDecision stage.
Proof. solve_decision. Defined.

(** The lines that can come next. A new attempt starts over from the header;
    after the trailer every line is ignored. *)
Inductive stage_step (a : article) : stage → list byte → stage → Prop :=
  | ss_begin st : st ≠ At_done → stage_step a st (ar_begin a) At_part
  | ss_part l : ar_part a = Some l → stage_step a At_part l (At_data 0)
  | ss_first l : ar_part a = None → ar_lines a !! 0%nat = Some l → stage_step a At_part l (At_data 1)
  | ss_empty : ar_part a = None → ar_lines a = [] → stage_step a At_part (ar_end a) At_done
  | ss_data n l : ar_lines a !! n = Some l → stage_step a (At_data n) l (At_data (S n))
  | ss_end : stage_step a (At_data (length (ar_lines a))) (ar_end a) At_done
  | ss_done l : stage_step a At_done l At_done.

Definition bytes_upto (a : article) (n : nat) : list byte := mjoin (take n (ar_data a)).

(** The segment at a stage of its article, over the file to be [D]. *)
Definition in_data (D : list byte) (a : article) (n : nat) (sc : segment_ctx) (fs : file_dl) : Prop :=
  (n <= length (ar_data a))%nat ∧ file_good fs ∧
  in_place D (ar_offset a) (length (bytes_upto a n)) sc fs ∧
  sc_crc sc = crc32_update crc32_init (bytes_upto a n) ∧
  Z.of_nat (length (article_bytes a)) <= sc_budget sc ∧ sc_range_resolved sc = true ∧
  sc_yenc_failed sc = false.

Definition at_stage (sb : Z) (D : list byte) (a : article) (st : stage) (sc : segment_ctx)
    (fs : file_dl) : Prop :=
  sc_seg_bytes sc = sb ∧ fd_open_failed fs = false ∧ sc_write_failed sc = false ∧
  match st with
  | At_begin => sc = segment_ctx_new sb
  | At_part =>
    let yl := (yenc_classify_line (ar_begin a)).2 in
    sc_yenc_state sc = YENC_WANT_PART_OR_DATA ∧ sc_crc sc = crc32_init ∧ sc_have_expected_crc sc = false ∧
    sc_yenc_failed sc = false ∧ sc_written sc = 0 ∧
    sc_have_ybegin_size sc = yl_has_size yl ∧ sc_ybegin_size sc = yl_size yl
  | At_data n =>
    sc_yenc_state sc = YENC_IN_DATA ∧ sc_have_expected_crc sc = false ∧ in_data D a n sc fs
  | At_done =>
    sc_yenc_state sc = YENC_DONE ∧ in_data D a (length (ar_data a)) sc fs ∧
    (sc_have_expected_crc sc = true → sc_expected_crc sc = crc32 (article_bytes a))
  end.

(** What the other segments see of one step: the file stays usable and keeps
    what is right in it. *)
Definition file_step (D : list byte) (fs fs' : file_dl) : Prop :=
  (fd_open fs = true → fd_open fs' = true) ∧ fd_open_failed fs' = fd_open_failed fs ∧
  fd_remaining fs' = fd_remaining fs ∧ improves D (fd_content fs) (fd_content fs').

Lemma file_step_refl D fs : file_step D fs fs.
Proof. done. Qed.

Lemma file_step_same D fs fs' :
  file_same fs fs' → improves D (fd_content fs) (fd_content fs') → file_step D fs fs'.
Proof. unfold file_same, file_step. intuition congruence. Qed.

Lemma in_place_file D off m sc fs fs' :
  improves D (fd_content fs) (fd_content fs') → in_place D off m sc fs → in_place D off m sc fs'.
Proof. intros Hi []. constructor; try done. by eapply region_improves. Qed.

Lemma at_stage_keep sb D a st sc fs fs' :
  (fd_open fs = true → fd_open fs' = true) → fd_open_failed fs' = fd_open_failed fs →
  improves D (fd_content fs) (fd_content fs') → at_stage sb D a st sc fs → at_stage sb D a st sc fs'.
Proof.
  intros Ho Hf Hi (Hsb & Hof & Hwf & Hst). split; [done|]. split; [congruence|]. split; [done|].
  assert (∀ n, in_data D a n sc fs → in_data D a n sc fs') as Hd.
  { intros n (Hn & [Hop _] & Hip & Hrest). split; [done|]. split; [split; [by apply Ho|congruence]|].
    split; [by eapply in_place_file|done]. }
  destruct st; [done|done|..].
  - destruct Hst as (? & ? & ?). auto.
  - destruct Hst as (? & ? & ?). auto.
Qed.

Lemma at_stage_file sb D a st sc fs fs' :
  file_step D fs fs' → at_stage sb D a st sc fs → at_stage sb D a st sc fs'.
Proof. intros (? & ? & _ & ?). by apply at_stage_keep. Qed.

Lemma resolve_ok sc fs offset budget :
  fd_open_failed fs = false → 0 <= budget →
  ∃ fs', resolve_segment_range env_ok sc fs offset budget =
           (set_wbuf (Some []) (set_range offset budget sc), fs') ∧
         file_good fs' ∧ fd_content fs' = fd_content fs ∧ fd_remaining fs' = fd_remaining fs.
Proof.
  intros Hof Hb. unfold resolve_segment_range. cbv zeta. cbn [e_malloc env_ok].
  exists (open_file env_ok fs). split.
  - f_equal. f_equal. f_equal. destruct (Z.ltb_spec 0 budget); lia.
  - unfold open_file, file_good. rewrite Hof. cbn [negb andb e_mkdir e_open env_ok].
    destruct (fd_open fs) eqn:Ho; cbn; auto.
Qed.

(** The range has just been resolved: nothing written yet. *)
Lemma in_data_start D a sb sc fs fs' budget :
  fd_open_failed fs = false → file_good fs' → fd_content fs' = fd_content fs →
  sc_seg_bytes sc = sb → sc_write_failed sc = false → sc_crc sc = crc32_init → sc_yenc_failed sc = false →
  sc_written sc = 0 → Z.of_nat (length (article_bytes a)) <= budget →
  in_data D a 0 (set_yenc_state YENC_IN_DATA
    (set_wbuf (Some []) (set_range (Z.of_nat (ar_offset a)) budget sc))) fs'.
Proof.
  intros Hof Hgood Hc Hsb Hwf Hcrc Hyf Hw Hb. pose proof SEG_WBUF_SIZE_pos.
  split; [lia|]. split; [done|]. unfold bytes_upto. rewrite take_0. cbn [mjoin list_join length].
  split; [|done]. constructor; unfold wbuf_len; seg_fields; cbn [default from_option id length];
    rewrite ?Hw; first [done|lia|by eexists|idtac].
  intros x Hx. cbn in Hx. lia.
Qed.

Section stages.
Context (sb : Z) (D : list byte) (a : article).
Context (Hok : article_ok sb a) (HD : matches D (ar_offset a) (article_bytes a)).

Lemma length_lines_data : length (ar_lines a) = length (ar_data a).
Proof using Hok. by eapply Forall2_length, ao_data. Qed.

Lemma bytes_upto_S n ch : ar_data a !! n = Some ch → bytes_upto a (S n) = bytes_upto a n ++ ch.
Proof using. intros Hn. unfold bytes_upto. rewrite (take_S_r _ _ ch) by done. by rewrite join_app, mjoin_cons, app_nil_r. Qed.

Lemma bytes_upto_all n : (length (ar_data a) <= n)%nat → bytes_upto a n = article_bytes a.
Proof using. intros. unfold bytes_upto. by rewrite take_ge. Qed.

Lemma article_bytes_split n ch :
  ar_data a !! n = Some ch → ∃ rest, article_bytes a = bytes_upto a n ++ ch ++ rest.
Proof using.
  intros Hn. exists (mjoin (drop (S n) (ar_data a))). unfold article_bytes, bytes_upto.
  rewrite <- (take_drop_middle _ _ _ Hn) at 1. by rewrite join_app, mjoin_cons.
Qed.

(** One data line, from any state that is inside the data. *)
Lemma data_line_ok n l sc fs :
  ar_lines a !! n = Some l → sc_have_expected_crc sc = false → sc_yenc_state sc = YENC_IN_DATA →
  sc_seg_bytes sc = sb → in_data D a n sc fs →
  ∃ sc' fs', data_line rapidyenc_decode_ex env_ok sc fs l YENC_LINE_DATA yenc_line_zero = (sc', fs') ∧
    at_stage sb D a (At_data (S n)) sc' fs' ∧ file_step D fs fs'.
Proof using Hok HD.
  intros Hl Hhe Hst Hsb (Hn & Hgood & Hip & Hcrc & Hbud & Hrr & Hyf).
  destruct (Forall2_lookup_l _ _ _ _ _ (ao_data _ _ Hok) Hl) as (ch & Hch & _ & Hdec).
  destruct (article_bytes_split n ch Hch) as [rest Hsplit].
  cbn [data_line]. rewrite Hdec.
  set (sc1 := set_crc (crc32_update (sc_crc sc) ch) sc).
  assert (in_place D (ar_offset a) (length (bytes_upto a n)) sc1 fs) as Hip1 by (by destruct Hip).
  destruct (buffer_append_good D (ar_offset a) (length (bytes_upto a n)) sc1 fs ch)
    as (sc2 & fs2 & -> & Hip2 & Hob & Hsame & Himp); [done|done| | |].
  { rewrite Hsplit, matches_app in HD. destruct HD as [_ HD2]. rewrite matches_app in HD2. apply HD2. }
  { change (sc_budget sc1) with (sc_budget sc). rewrite Hsplit, !length_app in Hbud. lia. }
  exists sc2, fs2. split; [done|]. split; [|by apply file_step_same].
  unfold only_buffer in Hob. pose proof (ip_failed _ _ _ _ _ Hip2) as Hwf2.
  pose proof (file_same_good _ _ Hsame Hgood) as Hgood2.
  rewrite Hob in Hwf2 |- *. split; [done|]. split; [apply Hgood2|]. split; [done|]. split; [done|].
  split; [done|]. rewrite <- Hob. split; [by apply lookup_lt_Some in Hch; lia|]. split; [done|].
  rewrite (bytes_upto_S n ch), length_app by done. split; [done|].
  rewrite Hob. seg_fields. unfold sc1. seg_fields. rewrite crc32_update_app, Hcrc. done.
Qed.

Lemma end_line_ok sc fs :
  sc_have_expected_crc sc = false → sc_yenc_state sc = YENC_IN_DATA → sc_seg_bytes sc = sb →
  in_data D a (length (ar_data a)) sc fs →
  ∃ sc', data_line rapidyenc_decode_ex env_ok sc fs (ar_end a) YENC_LINE_END
           (yenc_classify_line (ar_end a)).2 = (sc', fs) ∧
    at_stage sb D a At_done sc' fs.
Proof using Hok.
  intros Hhe Hst Hsb (Hn & Hgood & Hip & Hcrc & Hbud & Hrr & Hyf). cbn [data_line].
  eexists. split; [done|]. pose proof (ip_failed _ _ _ _ _ Hip) as Hwf.
  pose proof (ao_crc _ _ Hok) as Hc. cbv zeta in *.
  destruct (yl_has_crc32 (yenc_classify_line (ar_end a)).2).
  - split; [done|]. split; [apply Hgood|]. split; [done|]. split; [done|]. split.
    + split; [done|]. split; [done|]. split; [by destruct Hip|done].
    + intros _. by apply Hc.
  - split; [done|]. split; [apply Hgood|]. split; [done|]. split; [done|]. split.
    + split; [done|]. split; [done|]. split; [by destruct Hip|done].
    + intros H. seg_fields. congruence.
Qed.

(** A header line begins an attempt, from every state but the last. *)
Lemma begin_line_ok st sc fs :
  at_stage sb D a st sc fs → st ≠ At_done →
  ∃ sc', body_line_cb rapidyenc_decode_ex env_ok sc fs (ar_begin a) = (sc', fs) ∧
    at_stage sb D a At_part sc' fs.
Proof using Hok.
  intros (Hsb & Hof & Hwf & Hst) Hne. pose proof (ao_begin _ _ Hok) as Hk.
  assert (sc_yenc_state sc ≠ YENC_DONE) as Hnd.
  { destruct st; [by rewrite Hst|..|done]; destruct Hst as [-> _]; done. }
  unfold body_line_cb. rewrite bool_decide_eq_false_2 by done.
  assert (∀ sc1, sc_yenc_state sc1 = YENC_WANT_BEGIN → sc_seg_bytes sc1 = sb → sc_write_failed sc1 = false →
    sc_crc sc1 = crc32_init → sc_have_expected_crc sc1 = false → sc_yenc_failed sc1 = false → sc_written sc1 = 0 →
    at_stage sb D a At_part (set_yenc_state YENC_WANT_PART_OR_DATA
      (set_ybegin (yl_has_size (yenc_classify_line (ar_begin a)).2)
                  (yl_size (yenc_classify_line (ar_begin a)).2) sc1)) fs) as Hpart by done.
  destruct (yenc_classify_line (ar_begin a)) as [kind yl] eqn:Hc. cbn [fst snd] in *. subst kind.
  rewrite bool_decide_eq_true_2 by done. cbn [andb].
  destruct st as [| |n|]; [..|done].
  - rewrite Hst. cbn [sc_yenc_state segment_ctx_new]. rewrite bool_decide_eq_true_2 by done. cbn [negb].
    eexists. split; [done|]. by apply Hpart.
  - destruct Hst as (Hs & _). rewrite Hs, bool_decide_eq_false_2 by done. cbn.
    eexists. split; [done|]. by apply Hpart.
  - destruct Hst as (Hs & _). rewrite Hs, bool_decide_eq_false_2 by done. cbn.
    eexists. split; [done|]. by apply Hpart.
Qed.

(** The first line after the header of a single-part article opens the file. *)
Lemma single_part_ok sc fs l kind yl sc' fs' :
  ar_part a = None → at_stage sb D a At_part sc fs → yenc_classify_line l = (kind, yl) →
  kind = YENC_LINE_DATA ∨ kind = YENC_LINE_END →
  (∀ sc1 fs1, sc_have_expected_crc sc1 = false → sc_yenc_state sc1 = YENC_IN_DATA → sc_seg_bytes sc1 = sb →
    in_data D a 0 sc1 fs1 → file_step D fs fs1 →
    data_line rapidyenc_decode_ex env_ok sc1 fs1 l kind yl = (sc' sc1 fs1, fs' sc1 fs1)) →
  ∃ sc1 fs1, body_line_cb rapidyenc_decode_ex env_ok sc fs l = (sc' sc1 fs1, fs' sc1 fs1) ∧
    sc_have_expected_crc sc1 = false ∧ sc_yenc_state sc1 = YENC_IN_DATA ∧ sc_seg_bytes sc1 = sb ∧
    in_data D a 0 sc1 fs1 ∧ file_step D fs fs1.
Proof using Hok.
  intros Hnp (Hsb & Hof & Hwf & Hst & Hcrc & Hhe & Hyf & Hw & Hhs & Hys) Hcl Hk Hd.
  pose proof (ao_range _ _ Hok) as Hr. rewrite Hnp in Hr. cbv zeta in Hr. destruct Hr as [Hoff Hlen].
  assert (Z.of_nat (length (article_bytes a)) <=
    (if sc_have_ybegin_size sc then sc_ybegin_size sc else sc_seg_bytes sc)) as Hlen'
    by (by rewrite Hhs, Hys, Hsb).
  destruct (resolve_ok sc fs 0 _ Hof (Z.le_trans _ _ _ (Nat2Z.is_nonneg _) Hlen'))
    as (fs1 & Hres & Hgood & Hcont & Hrem).
  eexists _, fs1. assert (file_step D fs fs1) as Hfs.
  { split; [intros; apply Hgood|]. split; [by destruct Hgood as [_ ->]|]. split; [done|].
    by rewrite Hcont. }
  unfold body_line_cb. rewrite Hst, bool_decide_eq_false_2, Hcl by done.
  rewrite (bool_decide_eq_false_2 (kind = YENC_LINE_BEGIN)) by (by destruct Hk as [-> | ->]).
  cbn [andb]. rewrite Hst, Hres.
  assert (in_data D a 0 (set_yenc_state YENC_IN_DATA (set_wbuf (Some []) (set_range 0
    (if sc_have_ybegin_size sc then sc_ybegin_size sc else sc_seg_bytes sc) sc))) fs1) as Hin.
  { pose proof (in_data_start D a sb sc fs fs1 _ Hof Hgood Hcont Hsb Hwf Hcrc Hyf Hw Hlen') as H.
    rewrite Hoff in H. exact H. }
  destruct Hk as [-> | ->]; (split; [by apply Hd|]); done.
Qed.

Lemma at_stage_step st sc fs l st' :
  at_stage sb D a st sc fs → stage_step a st l st' →
  ∃ sc' fs', body_line_cb rapidyenc_decode_ex env_ok sc fs l = (sc', fs') ∧
    at_stage sb D a st' sc' fs' ∧ file_step D fs fs'.
Proof using Hok HD.
  intros Hat Hstep. destruct Hstep as [st Hne|l Hl|l Hnp Hl|Hnp Hl|n l Hl| |l].
  - destruct (begin_line_ok st sc fs Hat Hne) as (sc' & -> & ?). eauto using file_step_refl.
  - destruct Hat as (Hsb & Hof & Hwf & Hst & Hcrc & Hhe & Hyf & Hw & Hhs & Hys).
    pose proof (ao_range _ _ Hok) as Hr. rewrite Hl in Hr.
    unfold body_line_cb. rewrite Hst, bool_decide_eq_false_2 by done.
    destruct (yenc_classify_line l) as [kind yl]. destruct Hr as (-> & Hhr & Hb & He).
    rewrite (bool_decide_eq_false_2 (YENC_LINE_PART = _)) by done. cbn [andb]. rewrite Hst, Hhr, Hb.
    assert (negb true || (Z.of_nat (ar_offset a) + 1 <? 1) || (yl_end yl <? Z.of_nat (ar_offset a) + 1) = false)
      as -> by (cbn [negb orb]; lia).
    rewrite Z.add_simpl_r.
    destruct (resolve_ok sc fs (Z.of_nat (ar_offset a)) (yl_end yl - (Z.of_nat (ar_offset a) + 1) + 1) Hof)
      as (fs1 & -> & Hgood & Hcont & Hrem); [lia|].
    eexists _, fs1. split; [done|]. split.
    + split; [done|]. split; [apply Hgood|]. split; [done|]. split; [done|]. split; [done|].
      by apply (in_data_start D a sb sc fs); try done; lia.
    + split; [intros; apply Hgood|]. split; [by destruct Hgood as [_ ->]|]. split; [done|]. by rewrite Hcont.
  - destruct (Forall2_lookup_l _ _ _ _ _ (ao_data _ _ Hok) Hl) as (ch & _ & Hk & _).
    destruct (yenc_classify_line l) as [kind yl] eqn:Hcl. cbn in Hk. subst kind.
    destruct (single_part_ok sc fs l _ yl
      (λ sc1 fs1, (data_line rapidyenc_decode_ex env_ok sc1 fs1 l YENC_LINE_DATA yl).1)
      (λ sc1 fs1, (data_line rapidyenc_decode_ex env_ok sc1 fs1 l YENC_LINE_DATA yl).2) Hnp Hat Hcl)
      as (sc1 & fs1 & -> & Hhe & Hst & Hsb & Hin & Hfs); [by left|intros; by destruct (data_line _ _ _ _ _ _ _)|].
    destruct (data_line_ok 0 l sc1 fs1 Hl Hhe Hst Hsb Hin) as (sc' & fs' & Hd & Hat' & Hfs').
    change (data_line rapidyenc_decode_ex env_ok sc1 fs1 l YENC_LINE_DATA yl) with
      (data_line rapidyenc_decode_ex env_ok sc1 fs1 l YENC_LINE_DATA yenc_line_zero). rewrite Hd.
    exists sc', fs'. split; [done|]. split; [done|].
    destruct Hfs as (? & ? & ? & ?), Hfs' as (? & ? & ? & ?).
    split; [auto|]. split; [congruence|]. split; [congruence|]. by etrans.
  - pose proof (ao_end _ _ Hok) as Hk. destruct (yenc_classify_line (ar_end a)) as [kind yl] eqn:Hcl.
    cbn in Hk. subst kind.
    destruct (single_part_ok sc fs (ar_end a) _ yl
      (λ sc1 fs1, (data_line rapidyenc_decode_ex env_ok sc1 fs1 (ar_end a) YENC_LINE_END yl).1)
      (λ sc1 fs1, fs1) Hnp Hat Hcl) as (sc1 & fs1 & -> & Hhe & Hst & Hsb & Hin & Hfs); [by right|done|].
    assert (length (ar_data a) = 0%nat) as Hz by (rewrite <- length_lines_data, Hl; done).
    destruct (end_line_ok sc1 fs1 Hhe Hst Hsb) as (sc' & Hd & Hat'); [by rewrite Hz|].
    rewrite Hcl in Hd. cbn [snd] in Hd. rewrite Hd. eauto.
  - destruct Hat as (Hsb & Hof & Hwf & Hst & Hhe & Hin).
    destruct (Forall2_lookup_l _ _ _ _ _ (ao_data _ _ Hok) Hl) as (ch & _ & Hk & _).
    unfold body_line_cb. rewrite Hst, bool_decide_eq_false_2 by done.
    destruct (yenc_classify_line l) as [kind yl]. cbn in Hk. subst kind.
    rewrite (bool_decide_eq_false_2 (YENC_LINE_DATA = _)) by done. cbn [andb]. rewrite Hst.
    by apply (data_line_ok n l sc fs).
  - destruct Hat as (Hsb & Hof & Hwf & Hst & Hhe & Hin). rewrite length_lines_data in Hin.
    destruct (end_line_ok sc fs Hhe Hst Hsb Hin) as (sc' & Hd & Hat').
    unfold body_line_cb. rewrite Hst, bool_decide_eq_false_2 by done.
    pose proof (ao_end _ _ Hok) as Hk. destruct (yenc_classify_line (ar_end a)) as [kind yl].
    cbn [fst snd] in *. subst kind.
    rewrite (bool_decide_eq_false_2 (YENC_LINE_END = _)) by done. cbn [andb]. rewrite Hst, Hd.
    eauto using file_step_refl.
  - destruct Hat as (Hsb & Hof & Hwf & Hst & Hrest). unfold body_line_cb.
    rewrite Hst, bool_decide_eq_true_2 by done. exists sc, fs. split; [done|].
    split; [exact (conj Hsb (conj Hof (conj Hwf (conj Hst Hrest))))|apply file_step_refl].
Qed.

(** After the trailer the fetch is over: the rest of the buffer is written and
    the segment is accepted. *)
Lemma done_ok sc fs :
  at_stage sb D a At_done sc fs →
  ∃ sc' fs', segment_flush env_ok sc fs = (sc', fs') ∧ file_step D fs fs' ∧
    region D (fd_content fs') (ar_offset a) (ar_offset a + length (article_bytes a)) ∧
    ∀ status, multi_line status → segment_ok sc' fs' status = true.
Proof using Hok.
  intros (Hsb & Hof & Hwf & Hst & (Hn & Hgood & Hip & Hcrc & Hbud & Hrr & Hyf) & Hexp).
  rewrite bytes_upto_all in Hip, Hcrc by done. destruct Hip as [Hoff Hw _ Hwb Hsm Hcnt Hmat Hreg].
  destruct (segment_flush_good D (ar_offset a) (length (article_bytes a)) sc fs Hgood Hwf Hwb Hoff Hw Hcnt Hmat Hreg)
    as (fs' & -> & Hsame & Himp & Hreg').
  eexists _, fs'. split; [done|]. split; [by apply file_step_same|]. split; [done|].
  intros status Hs. unfold segment_ok. seg_fields.
  destruct (file_same_good _ _ Hsame Hgood) as [_ Hof']. rewrite Hwf, Hof'. cbn [orb].
  assert (negb (status =? 220) && negb (status =? 222) = false) as -> by (destruct Hs as [-> | ->]; done).
  rewrite Hrr, Hst, Hyf, bool_decide_eq_true_2 by done. cbn [negb orb].
  destruct (sc_have_expected_crc sc); [|done]. rewrite Hexp, Hcrc by done. unfold crc32.
  by rewrite Z.eqb_refl.
Qed.

(** ** Whole attempts *)

Inductive stage_path : stage → list (list byte) → stage → Prop :=
  | sp_nil st : stage_path st [] st
  | sp_cons st l st' ls st'' :
      stage_step a st l st' → stage_path st' ls st'' → stage_path st (l :: ls) st''.

Lemma stage_path_take st ls st' k : stage_path st ls st' → ∃ st'', stage_path st (take k ls) st''.
Proof using.
  intros Hp. induction Hp as [st|st l st' ls st'' Hs Hp IH] in k |- *.
  - exists st. rewrite take_nil. constructor.
  - destruct k as [|k]; [exists st; constructor|]. destruct (IH k) as [st3 ?]. exists st3. by econstructor.
Qed.

Lemma stage_path_done ls : stage_path At_done ls At_done.
Proof using. induction ls as [|l ls IH]; [constructor|]. econstructor; [constructor|done]. Qed.

Lemma stage_path_data ls n :
  drop n (ar_lines a) = ls → (n <= length (ar_lines a))%nat →
  stage_path (At_data n) (ls ++ [ar_end a]) At_done.
Proof using.
  induction ls as [|l ls IH] in n |- *; intros Hd Hn.
  - apply (f_equal length) in Hd. rewrite length_drop in Hd. cbn in Hd.
    replace n with (length (ar_lines a)) by lia. econstructor; [apply ss_end|constructor].
  - assert (ar_lines a !! n = Some l) as Hl.
    { rewrite <- (Nat.add_0_r n), <- lookup_drop, Hd. done. }
    cbn [app]. econstructor; [by constructor|]. apply IH; [|by apply lookup_lt_Some in Hl; lia].
    rewrite (drop_S _ _ _ Hl) in Hd. congruence.
Qed.

(** From every stage, one whole article leads to the end. *)
Lemma stage_path_article st : stage_path st (article_lines a) At_done.
Proof using.
  destruct (decide (st = At_done)) as [->|Hne]; [apply stage_path_done|].
  unfold article_lines. econstructor; [by apply ss_begin|].
  destruct (ar_part a) as [l|] eqn:Hp; cbn [option_list app].
  - econstructor; [by apply ss_part|]. apply stage_path_data; [apply drop_0|lia].
  - destruct (ar_lines a) as [|l ls] eqn:Hl; cbn [app].
    + econstructor; [by apply ss_empty|constructor].
    + econstructor; [apply ss_first; [done|by rewrite Hl]|].
      apply stage_path_data; rewrite Hl; cbn; [done|lia].
Qed.

Lemma deliver_path st ls st' sc fs :
  stage_path st ls st' → at_stage sb D a st sc fs →
  ∃ sc' fs', deliver (body_line_callback rapidyenc_decode_ex env_ok) (sc, fs) ls = (sc', fs') ∧
    at_stage sb D a st' sc' fs' ∧ file_step D fs fs'.
Proof using Hok HD.
  intros Hp. induction Hp as [st|st l st' ls st'' Hs Hp IH] in sc, fs |- *; intros Hat.
  - exists sc, fs. eauto using file_step_refl.
  - cbn [deliver body_line_callback]. destruct (at_stage_step _ _ _ _ _ Hat Hs) as (sc1 & fs1 & -> & Hat1 & Hf1).
    destruct (IH sc1 fs1 Hat1) as (sc2 & fs2 & -> & Hat2 & Hf2). exists sc2, fs2.
    split; [done|]. split; [done|]. destruct Hf1 as (? & ? & ? & ?), Hf2 as (? & ? & ? & ?).
    split; [auto|]. split; [congruence|]. split; [congruence|]. by etrans.
Qed.

(** Any number of broken attempts, then a whole one. *)
Lemma deliver_partial ks st sc fs :
  at_stage sb D a st sc fs →
  ∃ sc' fs', deliver (body_line_callback rapidyenc_decode_ex env_ok)
      (partial (article_lines a) (body_line_callback rapidyenc_decode_ex env_ok) (sc, fs) ks)
      (article_lines a) = (sc', fs') ∧
    at_stage sb D a At_done sc' fs' ∧ file_step D fs fs'.
Proof using Hok HD.
  induction ks as [|k ks IH] in st, sc, fs |- *; intros Hat; cbn [partial foldl].
  - by apply (deliver_path st), Hat; apply stage_path_article.
  - destruct (stage_path_take _ _ _ k (stage_path_article st)) as [st1 Hp].
    destruct (deliver_path _ _ _ _ _ Hp Hat) as (sc1 & fs1 & -> & Hat1 & Hf1).
    destruct (IH _ _ _ Hat1) as (sc2 & fs2 & Hd & Hat2 & Hf2). exists sc2, fs2.
    split; [exact Hd|]. split; [done|]. destruct Hf1 as (? & ? & ? & ?), Hf2 as (? & ? & ? & ?).
    split; [auto|]. split; [congruence|]. split; [congruence|]. by etrans.
Qed.
End stages.
End articles.
