(* ===== verification/Assembly.v ===== *)
(** * The segments of one file together ([download/download.c])

    All segments of a job file are fetched at once and write into one file, each
    at the place its own article names. A run interleaves, in any order, the
    lines and the ends of all the fetches; the file they leave does not depend
    on that order. The properties of [Segment] are stated here too. *)

From Stdlib Require Import ZArith Lia List.
From Stdlib Require Import Strings.Byte Strings.String.
From stdpp Require Import base list gmap.
From S2P Require Import Prelude Crc32 Cnum Yenc Job Nntp NntpPool Segment.

Section assembly.
Context (rapidyenc_decode_ex : list byte → list byte).

(** A segment is being fetched, at a stage of its article, or its fetch is over
    with a verdict. *)
Inductive seg_status :=
  | Fetching (st : stage) (sc : segment_ctx)
  | Finished (ok : bool).

Definition is_fetching (s : seg_status) : Z :=
  match s with Fetching _ _ => 1 | Finished _ => 0 end.

Definition fetching_count (segs : list seg_status) : Z := foldr (λ s n, is_fetching s + n) 0 segs.

(** [download_segments] before the first line arrives: a fresh context for every
    segment to fetch, and their number in [remaining]. *)
Definition segments_start (arts : list (Z * article)) (content : list byte)
    : list seg_status * file_dl :=
  ((λ '(sb, _), Fetching At_begin (segment_ctx_new sb)) <$> arts,
   FileDl false false (Z.of_nat (length arts)) content 0).

(** One line for one segment, or the end of one segment's fetch. *)
Inductive file_run (arts : list (Z * article))
    : list seg_status * file_dl → list seg_status * file_dl → Prop :=
  | run_line i sb a st sc l st' segs fs sc' fs' :
      arts !! i = Some (sb, a) → segs !! i = Some (Fetching st sc) → stage_step a st l st' →
      body_line_cb rapidyenc_decode_ex env_ok sc fs l = (sc', fs') →
      file_run arts (segs, fs) (<[i := Fetching st' sc']> segs, fs')
  | run_done i sc status segs fs sc' fs' :
      segs !! i = Some (Fetching At_done sc) → multi_line status →
      segment_flush env_ok sc fs = (sc', fs') →
      file_run arts (segs, fs) (<[i := Finished (segment_ok sc' fs' status)]> segs, file_dl_release fs').

Section run.
Context (arts : list (Z * article)) (D : list byte).
Context (Harts : ∀ i sb a, arts !! i = Some (sb, a) →
  article_ok rapidyenc_decode_ex sb a ∧ matches D (ar_offset a) (article_bytes a)).

Definition part_placed (c : list byte) (a : article) : Prop :=
  region D c (ar_offset a) (ar_offset a + length (article_bytes a)).

(** The invariant of the runs that start over [c0]. *)
Record run_inv (c0 : list byte) (segs : list seg_status) (fs : file_dl) : Prop := {
  ri_failed : fd_open_failed fs = false;
  ri_length : length segs = length arts;
  ri_remaining : fd_remaining fs = fetching_count segs;
  ri_closed : fd_remaining fs = 0 → fd_open fs = false;
  ri_improves : improves D c0 (fd_content fs);
  ri_fetching : ∀ i sb a st sc, arts !! i = Some (sb, a) → segs !! i = Some (Fetching st sc) →
    at_stage sb D a st sc fs;
  ri_finished : ∀ i sb a ok, arts !! i = Some (sb, a) → segs !! i = Some (Finished ok) →
    ok = true ∧ part_placed (fd_content fs) a
}.

Lemma fetching_count_insert segs i s s' :
  segs !! i = Some s → fetching_count (<[i := s']> segs) = fetching_count segs - is_fetching s + is_fetching s'.
Proof using.
  intros Hi. destruct (insert_split _ _ _ Hi) as (l1 & l2 & -> & Hr). rewrite Hr. clear.
  unfold fetching_count. induction l1 as [|x l1 IH]; cbn [app foldr] in *; lia.
Qed.

Lemma fetching_count_nonneg segs : 0 <= fetching_count segs.
Proof using.
  unfold fetching_count. induction segs as [|x l IH]; cbn [foldr]; [lia|].
  destruct x; cbn [is_fetching]; lia.
Qed.

Lemma fetching_count_pos segs i st sc : segs !! i = Some (Fetching st sc) → 0 < fetching_count segs.
Proof using.
  intros Hi. pose proof (fetching_count_insert segs i _ (Finished true) Hi) as H. cbn [is_fetching] in H.
  pose proof (fetching_count_nonneg (<[i := Finished true]> segs)). lia.
Qed.

Lemma part_placed_improves c c' a : improves D c c' → part_placed c a → part_placed c' a.
Proof using. apply region_improves. Qed.

Lemma run_inv_step c0 segs fs segs' fs' :
  run_inv c0 segs fs → file_run arts (segs, fs) (segs', fs') → run_inv c0 segs' fs'.
Proof using Harts.
  intros [Hof Hlen Hrem Hcl Himp Hfet Hfin] Hstep.
  inversion Hstep as [i sb a st sc l st' ? ? sc' ? Ha Hi Hs Hl|i sc status ? ? sc' fs1 Hi Hm Hfl]; subst.
  - destruct (Harts _ _ _ Ha) as [Hok HD].
    destruct (at_stage_step rapidyenc_decode_ex sb D a Hok HD _ _ _ _ _ (Hfet _ _ _ _ _ Ha Hi) Hs)
      as (sc2 & fs2 & Hl2 & Hat & Hfs). rewrite Hl in Hl2. simplify_eq.
    pose proof Hfs as (Ho & Hf & Hr & Hi2). constructor.
    + congruence.
    + by rewrite length_insert.
    + rewrite (fetching_count_insert _ _ _ _ Hi). cbn [is_fetching]. lia.
    + pose proof (fetching_count_pos _ _ _ _ Hi). lia.
    + by etrans.
    + intros k sb' a' st2 sc2' Hk Hk2. destruct (decide (i = k)) as [->|Hne].
      * rewrite list_lookup_insert_eq in Hk2 by (by eapply lookup_lt_Some). by simplify_eq.
      * rewrite list_lookup_insert_ne in Hk2 by done. eapply at_stage_file; [done|]. by eapply Hfet.
    + intros k sb' a' ok Hk Hk2. destruct (decide (i = k)) as [->|Hne].
      * by rewrite list_lookup_insert_eq in Hk2 by (by eapply lookup_lt_Some).
      * rewrite list_lookup_insert_ne in Hk2 by done. destruct (Hfin _ _ _ _ Hk Hk2).
        split; [done|]. by eapply part_placed_improves.
  - assert (is_Some (arts !! i)) as [[sb a] Ha].
    { apply lookup_lt_is_Some. rewrite <- Hlen. by eapply lookup_lt_Some. }
    destruct (Harts _ _ _ Ha) as [Hok HD].
    destruct (done_ok rapidyenc_decode_ex sb D a Hok _ _ (Hfet _ _ _ _ _ Ha Hi))
      as (sc2 & fs2 & Hfl2 & (Ho & Hf & Hr & Hi2) & Hreg & Hsok). rewrite Hfl in Hfl2. simplify_eq.
    pose proof (fetching_count_insert _ _ _ (Finished (segment_ok sc2 fs2 status)) Hi) as Hcnt.
    cbn [is_fetching] in Hcnt. unfold file_dl_release. cbv zeta. constructor; cbn [fd_open_failed fd_remaining fd_content].
    + congruence.
    + by rewrite length_insert.
    + lia.
    + intros ->%Z.eqb_eq. done.
    + by etrans.
    + intros k sb' a' st2 sc2' Hk Hk2. destruct (decide (i = k)) as [->|Hne].
      * by rewrite list_lookup_insert_eq in Hk2 by (by eapply lookup_lt_Some).
      * pose proof (fetching_count_pos _ _ _ _ Hk2). rewrite list_lookup_insert_ne in Hk2 by done.
        eapply at_stage_keep; [| | |by eapply Hfet]; cbn [fd_open fd_open_failed fd_content]; [|done..].
        intros Hop. destruct (Z.eqb_spec (fd_remaining fs2 - 1) 0); [lia|]. by apply Ho.
    + intros k sb' a' ok Hk Hk2. destruct (decide (i = k)) as [->|Hne].
      * rewrite list_lookup_insert_eq in Hk2 by (by eapply lookup_lt_Some). simplify_eq.
        split; [by apply Hsok|done].
      * rewrite list_lookup_insert_ne in Hk2 by done. destruct (Hfin _ _ _ _ Hk Hk2).
        split; [done|]. by eapply part_placed_improves.
Qed.

Lemma run_inv_start content :
  run_inv content (fst (segments_start arts content)) (snd (segments_start arts content)).
Proof using.
  unfold segments_start. constructor; cbn [fst snd fd_open_failed fd_remaining fd_content]; try done.
  - by rewrite length_fmap.
  - unfold fetching_count. clear Harts. induction arts as [|[sb a] l IH]; [done|]. cbn [fmap list_fmap foldr length is_fetching].
    rewrite <- IH. lia.
  - intros i sb a st sc Ha Hs. rewrite list_lookup_fmap, Ha in Hs. cbn in Hs. by simplify_eq.
  - intros i sb a ok Ha Hs. rewrite list_lookup_fmap, Ha in Hs. by cbn in Hs.
Qed.

Lemma run_inv_reach content segs fs :
  rtc (file_run arts) (segments_start arts content) (segs, fs) → run_inv content segs fs.
Proof using Harts.
  intros Hr. assert (∀ x y, rtc (file_run arts) x y → run_inv content x.1 x.2 → run_inv content y.1 y.2) as Hgen.
  { clear Hr. intros x y Hr. induction Hr as [x|[s1 f1] [s2 f2] [s3 f3] Hs Hr IH]; [done|].
    intros Hinv. apply IH. by eapply run_inv_step. }
  by apply (Hgen _ _ Hr), run_inv_start.
Qed.
(** A fetch can always go on, whatever the others have done, and so can all. *)
Lemma file_run_path i sb a st st' ls segs fs sc :
  arts !! i = Some (sb, a) → stage_path a st ls st' → segs !! i = Some (Fetching st sc) →
  ∃ sc' fs', rtc (file_run arts) (segs, fs) (<[i := Fetching st' sc']> segs, fs').
Proof using.
  intros Ha Hp. induction Hp as [st|st l st1 ls st2 Hs Hp IH] in segs, fs, sc |- *; intros Hi.
  - exists sc, fs. by rewrite list_insert_id.
  - destruct (body_line_cb rapidyenc_decode_ex env_ok sc fs l) as [sc1 fs1] eqn:Hl.
    destruct (IH (<[i := Fetching st1 sc1]> segs) fs1 sc1) as (sc' & fs' & Hr).
    { by rewrite list_lookup_insert_eq by (by eapply lookup_lt_Some). }
    exists sc', fs'. eapply rtc_l; [by econstructor|]. by rewrite list_insert_insert_eq in Hr.
Qed.

Lemma file_run_finish i st sc segs fs :
  length segs = length arts → segs !! i = Some (Fetching st sc) →
  ∃ ok fs', rtc (file_run arts) (segs, fs) (<[i := Finished ok]> segs, fs').
Proof using.
  intros Hlen Hi. assert (is_Some (arts !! i)) as [[sb a] Ha].
  { apply lookup_lt_is_Some. rewrite <- Hlen. by eapply lookup_lt_Some. }
  destruct (file_run_path i sb a st At_done (article_lines a) segs fs sc Ha (stage_path_article _ _) Hi)
    as (sc' & fs' & Hr).
  destruct (segment_flush env_ok sc' fs') as [sc2 fs2] eqn:Hf.
  exists (segment_ok sc2 fs2 222), (file_dl_release fs2). eapply rtc_r; [exact Hr|].
  pose proof (run_done arts i sc' 222 (<[i := Fetching At_done sc']> segs) fs' sc2 fs2) as Hd.
  rewrite list_insert_insert_eq in Hd. apply Hd; [|by right|done].
  apply list_lookup_insert_eq. by eapply lookup_lt_Some.
Qed.

Lemma fetching_exists segs : 0 < fetching_count segs → ∃ i st sc, segs !! i = Some (Fetching st sc).
Proof using.
  clear. unfold fetching_count. induction segs as [|[st sc|ok] segs IH]; cbn [foldr is_fetching]; intros H; [lia| |].
  - by exists O, st, sc.
  - destruct IH as (i & st & sc & ?); [lia|]. by exists (S i), st, sc.
Qed.

Definition finished (s : seg_status) : Prop := is_fetching s = 0.

Lemma file_run_completes n segs fs :
  fetching_count segs = Z.of_nat n → length segs = length arts →
  ∃ segs' fs', rtc (file_run arts) (segs, fs) (segs', fs') ∧ Forall finished segs'.
Proof using.
  induction n as [|n IH] in segs, fs |- *; intros Hn Hlen.
  - exists segs, fs. split; [apply rtc_refl|]. apply Forall_lookup. intros i [st sc|ok] Hi; [|done].
    pose proof (fetching_count_pos _ _ _ _ Hi). lia.
  - destruct (fetching_exists segs ltac:(lia)) as (i & st & sc & Hi).
    destruct (file_run_finish i st sc segs fs Hlen Hi) as (ok & fs1 & Hr).
    destruct (IH (<[i := Finished ok]> segs) fs1) as (segs' & fs' & Hr' & Hf).
    + rewrite (fetching_count_insert _ _ _ _ Hi). cbn [is_fetching]. lia.
    + by rewrite length_insert.
    + exists segs', fs'. split; [by etrans|done].
Qed.

(** Every byte of [D] is in the part of some segment, or already in place. *)
Definition covered (c0 : list byte) : Prop :=
  ∀ x, (x < length D)%nat → c0 !! x = D !! x ∨
    ∃ i sb a, arts !! i = Some (sb, a) ∧
      (ar_offset a <= x < ar_offset a + length (article_bytes a))%nat.

Lemma run_inv_finished c0 segs fs :
  covered c0 → (length c0 <= length D)%nat → run_inv c0 segs fs → Forall finished segs →
  fd_content fs = D ∧ fd_open fs = false ∧ Forall (λ s, s = Finished true) segs.
Proof using Harts.
  intros Hcov Hc0 [Hof Hlen Hrem Hcl Himp Hfet Hfin] Hall.
  assert (∀ i sb a, arts !! i = Some (sb, a) →
    segs !! i = Some (Finished true) ∧ part_placed (fd_content fs) a) as Hdone.
  { intros i sb a Ha. destruct (lookup_lt_is_Some_2 segs i) as [s Hs].
    { rewrite Hlen. by eapply lookup_lt_Some. }
    rewrite Forall_lookup in Hall. specialize (Hall _ _ Hs). destruct s as [st sc|ok]; [done|].
    destruct (Hfin _ _ _ _ Ha Hs) as [-> ?]. done. }
  split; [|split].
  - apply region_full; [by apply Himp|]. intros x _ Hx. destruct (Hcov x Hx) as [?|(i & sb & a & Ha & ?)].
    + by apply Himp.
    + destruct (Hdone _ _ _ Ha) as [_ Hp]. by apply Hp.
  - apply Hcl. rewrite Hrem. clear - Hall. unfold fetching_count. induction Hall as [|s l Hs _ IH]; cbn [foldr]; [done|].
    unfold finished in Hs. lia.
  - apply Forall_lookup. intros i s Hs. assert (is_Some (arts !! i)) as [[sb a] Ha].
    { apply lookup_lt_is_Some. rewrite <- Hlen. by eapply lookup_lt_Some. }
    destruct (Hdone _ _ _ Ha). by simplify_eq.
Qed.
End run.
End assembly.

(** ** The properties *)

(** The lines of one fetch, each with the outcomes of the calls made for it. *)
Definition segment_run (decode : list byte → list byte) (steps : list (seg_env * list byte))
    (s : segment_ctx * file_dl) : segment_ctx * file_dl :=
  foldl (λ '(sc, fs) '(e, l), body_line_cb decode e sc fs l) s steps.

(** All the bytes the file has at positions some line of the run had in range. *)
Lemma segment_run_budget decode steps sc fs sc' fs' :
  segment_run decode steps (sc, fs) = (sc', fs') → budget_ok sc → budget_ok sc'.
Proof.
  unfold segment_run. induction steps as [|[e l] steps IH] in sc, fs |- *; cbn [foldl]; intros Hr Hb.
  - by simplify_eq.
  - destruct (body_line_cb decode e sc fs l) as [sc1 fs1] eqn:Hl.
    destruct (body_line_budget decode _ _ _ _ _ _ Hl Hb) as [Hb1 _]. eauto.
Qed.

(** C6: Whatever an article contains and whatever the disk answers, no line of it
    makes the segment write outside the byte range it has resolved, nor make the
    file longer than that range; the position stays inside a [long] and the write
    buffer inside its allocation. This covers the last flush too. *)
Theorem segment_writes_stay_in_range (decode : list byte → list byte) (seg_bytes : Z)
    (fs0 fs fs' fs'' : file_dl) (steps : list (seg_env * list byte)) (e e' : seg_env) (l : list byte)
    (sc sc' sc'' : segment_ctx)
    (Hsb : - 2 ^ 63 <= seg_bytes <= LONG_MAX)
    (Hrun : segment_run decode steps (segment_ctx_new seg_bytes, fs0) = (sc, fs))
    (Hline : body_line_cb decode e sc fs l = (sc', fs'))
    (Hflush : segment_flush e' sc' fs' = (sc'', fs'')) :
  within (sc_offset sc') (sc_offset sc' + sc_budget sc') (fd_content fs) (fd_content fs'') ∧
  0 <= sc_offset sc' ∧ 0 <= sc_budget sc' ∧ sc_offset sc' + sc_budget sc' <= LONG_MAX ∧
  sc_written sc' + Z.of_nat (wbuf_len sc') <= sc_budget sc' ∧ (wbuf_len sc' < SEG_WBUF_SIZE)%nat.
Proof.
  pose proof (segment_run_budget _ _ _ _ _ _ Hrun (segment_ctx_new_budget _ Hsb)) as Hb.
  destruct (body_line_budget decode _ _ _ _ _ _ Hline Hb) as [[] Hw].
  split; [|done]. eapply within_trans; [exact Hw|].
  destruct (decide (sc_yenc_state sc' ∈ [YENC_WANT_BEGIN; YENC_WANT_PART_OR_DATA])) as [Hst|Hst].
  - destruct (bo_start Hst) as [_ Hn]. unfold segment_flush, wbuf_len in Hflush. rewrite Hn in Hflush.
    cbn in Hflush. simplify_eq. apply within_refl.
  - by destruct (segment_flush_budget _ _ _ _ _ Hflush Hst) as (_ & _ & ?).
Qed.

Definition hostile_lines : list (seg_env * list byte) :=
  [(env_ok, $ "=ybegin part=1 line=128 size=9 name=a"); (env_ok, $ "=ypart begin=2 end=3")].

Lemma segment_writes_stay_in_range_witness :
  let run := segment_run yenc_decode_ref hostile_lines
               (segment_ctx_new 9, FileDl false false 1 [x00; x00; x00; x00; x00] 0) in
  let step := body_line_cb yenc_decode_ref env_ok (fst run) (snd run) ($ "abcdefgh") in
  let last := segment_flush env_ok (fst step) (snd step) in
  fd_content (snd last) = [x00; x37; x38; x00; x00] ∧
  within (sc_offset (fst step)) (sc_offset (fst step) + sc_budget (fst step))
    (fd_content (snd run)) (fd_content (snd last)) ∧
  0 <= sc_offset (fst step) ∧ 0 <= sc_budget (fst step) ∧
  sc_offset (fst step) + sc_budget (fst step) <= LONG_MAX ∧
  sc_written (fst step) + Z.of_nat (wbuf_len (fst step)) <= sc_budget (fst step) ∧
  (wbuf_len (fst step) < SEG_WBUF_SIZE)%nat.
Proof.
  intros run step last. split; [vm_compute; reflexivity|].
  apply (segment_writes_stay_in_range yenc_decode_ref 9 (FileDl false false 1 [x00; x00; x00; x00; x00] 0)
    (snd run) (snd step) (snd last) hostile_lines env_ok env_ok ($ "abcdefgh") (fst run) (fst step) (fst last)).
  - unfold LONG_MAX. lia.
  - apply surjective_pairing.
  - apply surjective_pairing.
  - apply surjective_pairing.
Defined.

(** C3: All segments of a file are fetched into it at once. From every point such
    a run reaches, in whatever order the lines of the fetches come and however
    often a fetch starts its article over, the run can go on to its end; and when
    every fetch is over, the file is closed and holds exactly the content the
    articles describe, with every segment accepted. A file of an interrupted
    download, in which some of the content is already there, needs only the
    segments that are missing. *)
Theorem segments_assemble_in_any_order (decode : list byte → list byte) (arts : list (Z * article))
    (D c0 : list byte) (segs : list seg_status) (fs : file_dl)
    (Harts : ∀ i sb a, arts !! i = Some (sb, a) →
      article_ok decode sb a ∧ matches D (ar_offset a) (article_bytes a))
    (Hcov : covered arts D c0) (Hc0 : (length c0 <= length D)%nat)
    (Hrun : rtc (file_run decode arts) (segments_start arts c0) (segs, fs)) :
  (∃ segs' fs', rtc (file_run decode arts) (segs, fs) (segs', fs') ∧ Forall finished segs') ∧
  (Forall finished segs →
     fd_content fs = D ∧ fd_open fs = false ∧ Forall (λ s, s = Finished true) segs).
Proof.
  pose proof (run_inv_reach decode arts D Harts _ _ _ Hrun) as Hinv. split.
  - destruct Hinv as [_ Hlen _ _ _ _]. apply (file_run_completes decode arts (Z.to_nat (fetching_count segs))); [|done].
    pose proof (fetching_count_nonneg segs). lia.
  - intros Hf. by eapply run_inv_finished.
Qed.

(** Two parts of a file of five bytes, the second one first in the list. *)
Definition sample_articles : list (Z * article) :=
  [(3, Article ($ "=ybegin part=2 line=128 size=5 name=a") (Some ($ "=ypart begin=3 end=5"))
         [$ ",-"; $ "."] ($ "=yend size=3 part=2") 2 [[x02; x03]; [x04]]);
   (2, Article ($ "=ybegin part=1 line=128 size=5 name=a") (Some ($ "=ypart begin=1 end=2"))
         [$ "*+"] ($ "=yend size=2 part=1 pcrc32=36de2269") 0 [[x00; x01]])].
Definition sample_content : list byte := [x00; x01; x02; x03; x04].

Lemma sample_articles_ok i sb a :
  sample_articles !! i = Some (sb, a) →
  article_ok yenc_decode_ref sb a ∧ matches sample_content (ar_offset a) (article_bytes a).
Proof.
  intros Ha. destruct i as [|[|i]]; [..|done]; cbn [lookup list_lookup sample_articles] in Ha; simplify_eq.
  - split; [split|].
    + vm_compute. reflexivity.
    + vm_compute. repeat split. intros [=].
    + repeat (apply Forall2_cons_2; [split; vm_compute; reflexivity|]). apply Forall2_nil_2.
    + vm_compute. reflexivity.
    + vm_compute. intros [=].
    + vm_compute. reflexivity.
  - split; [split|].
    + vm_compute. reflexivity.
    + vm_compute. repeat split. intros [=].
    + repeat (apply Forall2_cons_2; [split; vm_compute; reflexivity|]). apply Forall2_nil_2.
    + vm_compute. reflexivity.
    + cbv zeta. intros _. vm_compute. reflexivity.
    + vm_compute. reflexivity.
Qed.

Lemma segments_assemble_in_any_order_witness :
  ∃ segs fs, rtc (file_run yenc_decode_ref sample_articles) (segments_start sample_articles []) (segs, fs) ∧
    Forall finished segs ∧ fd_content fs = sample_content.
Proof.
  assert (covered sample_articles sample_content []) as Hcov.
  { intros x Hx. right. destruct (decide (x < 2)%nat) as [H|H].
    - eexists 1%nat, _, _. split; [reflexivity|]. cbn. lia.
    - eexists 0%nat, _, _. split; [reflexivity|]. cbn in Hx |- *. lia. }
  assert ((length (@nil byte) <= length sample_content)%nat) as Hc0 by (cbn; lia).
  destruct (segments_assemble_in_any_order yenc_decode_ref sample_articles sample_content []
    (segments_start sample_articles []).1 (segments_start sample_articles []).2 sample_articles_ok Hcov Hc0)
    as [(segs & fs & Hr & Hf) _]; [apply rtc_refl|].
  exists segs, fs. split; [exact Hr|]. split; [exact Hf|].
  exact (proj1 (proj2 (segments_assemble_in_any_order yenc_decode_ref sample_articles sample_content []
    segs fs sample_articles_ok Hcov Hc0 Hr) Hf)).
Defined.

(** C5: One segment from the queue of the pool to the disk. When the first
    connections fail or break anywhere inside the article, and there are no more
    of them than [retry_count], the fetch that then succeeds leaves the segment
    complete: what the broken attempts had already written does no harm, the
    segment's bytes are in the file at the place its article names, every other
    byte that was right still is, and [segment_done_cb] marks the segment. *)
Theorem segment_survives_broken_connections (decode : list byte → list byte) (opts : nntp_pool_opts)
    (pj : pool_job) (status : cstr) (sb : Z) (a : article) (D : list byte)
    (bad : list network) (good : network) (more : list network) (rest : list byte)
    (fs0 : file_dl) (st : job_dl_state) (jb : job) (now_ms : Z)
    (Hj : job_fits pj) (Hp : plain_line status) (Hl : (length status < LINE_SIZE - 1)%nat)
    (Hc : multi_line (code_of status)) (Hls : Forall body_line_ok (article_lines a))
    (Hbad : Forall (breaks opts status (article_lines a)) bad)
    (Hgood : serves opts status (article_lines a) rest good)
    (Hn : Z.of_nat (length bad) <= po_retry_count opts)
    (Ha : article_ok decode sb a) (HD : matches D (ar_offset a) (article_bytes a))
    (Hfs : fd_open_failed fs0 = false) :
  ∃ c sc fs, run_job opts None (bad ++ good :: more) pj (Some (body_line_callback decode env_ok))
               (segment_ctx_new sb, fs0) = Some (Some c, more, (sc, fs), code_of status) ∧
    let '(fs', _, jb', _) :=
      segment_done_cb env_ok sc fs st jb (pj_message_id pj) now_ms (code_of status) in
    jb' = fst (job_mark_segment_downloaded jb (pj_message_id pj)) ∧
    improves D (fd_content fs0) (fd_content fs') ∧
    region D (fd_content fs') (ar_offset a) (ar_offset a + length (article_bytes a)).
Proof.
  destruct (run_attempts_retries opts pj status (article_lines a) Hj Hp Hl Hc Hls
    (body_line_callback decode env_ok) bad good more rest Hbad Hgood (Z.to_nat (po_retry_count opts + 1))
    (segment_ctx_new sb, fs0) NNTP_POOL_ERR_TRANSPORT ltac:(lia)) as (c & ks & Hr & _ & _).
  destruct (deliver_partial decode sb D a Ha HD ks At_begin (segment_ctx_new sb) fs0)
    as (sc & fs & Hd & Hat & Hst); [done|].
  exists c, sc, fs. split; [by rewrite <- Hd|].
  destruct (done_ok decode sb D a Ha sc fs Hat) as (sc' & fs' & Hf & Hst' & Hreg & Hok).
  unfold segment_done_cb. rewrite Hf, (Hok _ Hc). cbv zeta.
  destruct (checkpoint_due st now_ms) as [st' ck]. split; [done|]. split; [|done].
  etrans; [apply Hst|apply Hst'].
Qed.

Definition sample_article : article :=
  Article ($ "=ybegin line=128 size=2 name=a") None [$ "*+"] ($ "=yend size=2 crc32=36de2269") 0
    [[x00; x01]].
Definition sample_cut : network :=
  Network (λ _, true) true true true
    [$ "200 hi" ++ crlf; $ "222 x" ++ crlf ++ $ "=ybegin line=128 size=2 name=a" ++ crlf] [true].
Definition sample_good : network :=
  Network (λ _, true) true true true
    [$ "200 hi" ++ crlf; $ "222 x" ++ crlf ++ body_wire (article_lines sample_article)] [true].

Lemma segment_survives_broken_connections_witness :
  ∃ c sc fs, run_job (NntpPoolOpts false [] [] 1 1) None [sample_cut; sample_good]
      (PoolJob ($ "BODY") ($ "<a>") 0) (Some (body_line_callback yenc_decode_ref env_ok))
      (segment_ctx_new 2, FileDl false false 1 [] 0) = Some (Some c, [], (sc, fs), 222) ∧
    let '(fs', _, jb', _) :=
      segment_done_cb env_ok sc fs (JobDlState 1 0 0) zero_job ($ "<a>") 0 222 in
    jb' = fst (job_mark_segment_downloaded zero_job ($ "<a>")) ∧
    improves [x00; x01] [] (fd_content fs') ∧ region [x00; x01] (fd_content fs') 0 2.
Proof.
  apply (segment_survives_broken_connections yenc_decode_ref (NntpPoolOpts false [] [] 1 1)
    (PoolJob ($ "BODY") ($ "<a>") 0) ($ "222 x") 2 sample_article [x00; x01] [sample_cut] sample_good [] []
    (FileDl false false 1 [] 0)).
  - split; cbn; lia.
  - literal_line.
  - unfold LINE_SIZE. simpl length. lia.
  - right. reflexivity.
  - repeat (apply Forall_cons_2; [literal_line|]). apply Forall_nil_2.
  - apply Forall_singleton. right.
    destruct (connects (NntpPoolOpts false [] [] 1 1) sample_cut ($ "200 hi")
      ($ "222 x" ++ crlf ++ $ "=ybegin line=128 size=2 name=a" ++ crlf))
      as (c & He & Hok & Hst); [done..|literal_line|unfold REPLY_SIZE; simpl length; lia|reflexivity|].
    exists c, []. rewrite Hst. split; [exact He|]. split; [exact Hok|]. split; [|discriminate].
    by exists ($ "*+" ++ crlf ++ $ "=yend size=2 crc32=36de2269" ++ crlf ++ dot :: crlf).
  - destruct (connects (NntpPoolOpts false [] [] 1 1) sample_good ($ "200 hi")
      ($ "222 x" ++ crlf ++ body_wire (article_lines sample_article)))
      as (c & He & Hok & Hst); [done..|literal_line|unfold REPLY_SIZE; simpl length; lia|reflexivity|].
    exists c, []. rewrite Hst. split; [exact He|]. split; [exact Hok|reflexivity].
  - cbn. lia.
  - split.
    + vm_compute. reflexivity.
    + vm_compute. repeat split. intros [=].
    + repeat (apply Forall2_cons_2; [split; vm_compute; reflexivity|]). apply Forall2_nil_2.
    + vm_compute. reflexivity.
    + cbv zeta. intros _. vm_compute. reflexivity.
  - reflexivity.
  - reflexivity.
Defined.
