(* ===== verification/Worker.v ===== *)
(** * The world of the worker threads ([download/download.c])

    The downloader and the finalizer share the queue with the threads that serve
    the API. A job pointer is the job's id; using one whose job has been removed
    is a fault. What the other threads do is a script of events, a batch before
    every point where this thread takes the queue lock or looks at a job, so an
    execution is one interleaving and a theorem over all scripts is about all of
    them. Calls that leave the program take their outcomes from the inputs.

    The code runs in a state monad with faults; its weakest precondition is the
    logic the properties of [Download] and [Finalizer] are proved in. *)

From Stdlib Require Import ZArith Lia List.
From Stdlib Require Import Strings.Byte Strings.String.
From stdpp Require Import base list gmap.
From S2P Require Import Prelude Cnum Json Paths Job JobStore Queue Nntp.

(** A call of the queue's interface by another thread, with the outcomes of its
    writes, or [app_request_shutdown]. *)
Inductive event :=
  | EvQueue (w1 w2 : write_outcome) (op : queue_op)
  | EvShutdown.

(** Events at a progress count: those of a batch that come while a long call
    reports its progress come when it has done that many bytes. *)
Abbreviation batch := (list (Z * event)).

(** The fetches of one [download_segments]: the verdict on each segment, the
    segments at whose end a checkpoint was due, and the files they leave. *)
Record fetches := Fetches {
  ft_ok : cstr → bool;
  ft_checkpoint : cstr → bool;
  ft_files : file_system → file_system
}.

Inductive extract_result := EXTRACT_OK | EXTRACT_NONE | EXTRACT_FAILED (err : cstr).

(** [move_file] on two names: renamed at once; copied, the [rename] having met
    another file system; or failed with the destination removed or untouched. *)
Inductive move_outcome := Renamed | Copied | CopyFailed | MoveFailed.

(** Outcomes of calls, in the order they are made; when a list is used up, the
    call succeeds. *)
Record inputs := Inputs {
  in_malloc : list bool;
  in_nets : list network;
  in_saves : list (write_outcome * write_outcome);
  in_fetches : list fetches;
  in_extract : list (extract_result * (file_system → file_system));
  in_moves : list move_outcome;
  in_installs : list bool
}.

Record world := World {
  w_queue : queue;
  w_disk : file_system;    (* the queue directory *)
  w_files : file_system;   (* everything else *)
  w_shutdown : bool;
  w_fq : list cstr;        (* [finalize_queue_t], from the head *)
  w_installed : list cstr; (* packages handed to the installer *)
  w_ids : list cstr;       (* the job ids given out so far *)
  w_script : list batch;
  w_inputs : inputs
}.

Definition with_queue (q : queue) (w : world) : world :=
  World q (w_disk w) (w_files w) (w_shutdown w) (w_fq w) (w_installed w) (w_ids w) (w_script w) (w_inputs w).
Definition with_disk (d : file_system) (w : world) : world :=
  World (w_queue w) d (w_files w) (w_shutdown w) (w_fq w) (w_installed w) (w_ids w) (w_script w) (w_inputs w).
Definition with_content (f : file_system) (w : world) : world :=
  World (w_queue w) (w_disk w) f (w_shutdown w) (w_fq w) (w_installed w) (w_ids w) (w_script w) (w_inputs w).
Definition with_fq (l : list cstr) (w : world) : world :=
  World (w_queue w) (w_disk w) (w_files w) (w_shutdown w) l (w_installed w) (w_ids w) (w_script w) (w_inputs w).
Definition with_installed (l : list cstr) (w : world) : world :=
  World (w_queue w) (w_disk w) (w_files w) (w_shutdown w) (w_fq w) l (w_ids w) (w_script w) (w_inputs w).
Definition with_ids (l : list cstr) (w : world) : world :=
  World (w_queue w) (w_disk w) (w_files w) (w_shutdown w) (w_fq w) (w_installed w) l (w_script w) (w_inputs w).
Definition with_script (s : list batch) (w : world) : world :=
  World (w_queue w) (w_disk w) (w_files w) (w_shutdown w) (w_fq w) (w_installed w) (w_ids w) s (w_inputs w).
Definition with_inputs (i : inputs) (w : world) : world :=
  World (w_queue w) (w_disk w) (w_files w) (w_shutdown w) (w_fq w) (w_installed w) (w_ids w) (w_script w) i.

(** ** The monad *)

(** [None] is a fault, or a call that does not return. *)
Definition M (A : Type) : Type := world → option (A * world).

#[global] Instance M_ret : MRet M := λ A a w, Some (a, w).
#[global] Instance M_bind : MBind M := λ A B k m w,
  match m w with
  | Some (a, w) => k a w
  | None => None
  end.

Definition get {A} (f : world → A) : M A := λ w, Some (f w, w).
Definition put (f : world → world) : M () := λ w, Some ((), f w).
Definition fault {A} : M A := λ _, None.
Definition of_option {A} (o : option A) : M A :=
  match o with Some a => mret a | None => fault end.

(** The job behind a pointer. *)
Definition lookup_job (q : queue) (id : cstr) : option job :=
  i ← queue_find_job q id; q_jobs q !! i.

Definition deref (id : cstr) : M job := λ w, (λ j, (j, w)) <$> lookup_job (w_queue w) id.

Definition store (id : cstr) (f : job → job) : M () := λ w,
  match queue_find_job (w_queue w) id with
  | Some i =>
    match q_jobs (w_queue w) !! i with
    | Some j => Some ((), with_queue (Queue (q_dir (w_queue w)) (<[i := f j]> (q_jobs (w_queue w)))) w)
    | None => None
    end
  | None => None
  end.

(** ** Inputs *)

Definition pop {A} (a : A) (l : list A) : A * list A :=
  match l with
  | [] => (a, [])
  | a :: l => (a, l)
  end.

Definition next_malloc : M bool := λ w,
  let i := w_inputs w in
  let '(b, l) := pop true (in_malloc i) in
  Some (b, with_inputs (Inputs l (in_nets i) (in_saves i) (in_fetches i) (in_extract i) (in_moves i)
    (in_installs i)) w).

(** With none left, the server accepts the connection and greets. *)
Definition open_network : network :=
  Network (λ _, true) true true true [$ "200 ready" ++ [x0d; x0a]] [].

Definition next_net : M network := λ w,
  let i := w_inputs w in
  let '(n, l) := pop open_network (in_nets i) in
  Some (n, with_inputs (Inputs (in_malloc i) l (in_saves i) (in_fetches i) (in_extract i) (in_moves i)
    (in_installs i)) w).

Definition next_save : M (write_outcome * write_outcome) := λ w,
  let i := w_inputs w in
  let '(o, l) := pop (all_good, all_good) (in_saves i) in
  Some (o, with_inputs (Inputs (in_malloc i) (in_nets i) l (in_fetches i) (in_extract i) (in_moves i)
    (in_installs i)) w).

Definition next_fetches : M fetches := λ w,
  let i := w_inputs w in
  let '(f, l) := pop (Fetches (λ _, true) (λ _, false) id) (in_fetches i) in
  Some (f, with_inputs (Inputs (in_malloc i) (in_nets i) (in_saves i) l (in_extract i) (in_moves i)
    (in_installs i)) w).

Definition next_extract : M (extract_result * (file_system → file_system)) := λ w,
  let i := w_inputs w in
  let '(e, l) := pop (EXTRACT_NONE, id) (in_extract i) in
  Some (e, with_inputs (Inputs (in_malloc i) (in_nets i) (in_saves i) (in_fetches i) l (in_moves i)
    (in_installs i)) w).

Definition next_move : M move_outcome := λ w,
  let i := w_inputs w in
  let '(m, l) := pop Renamed (in_moves i) in
  Some (m, with_inputs (Inputs (in_malloc i) (in_nets i) (in_saves i) (in_fetches i) (in_extract i) l
    (in_installs i)) w).

Definition next_install : M bool := λ w,
  let i := w_inputs w in
  let '(b, l) := pop true (in_installs i) in
  Some (b, with_inputs (Inputs (in_malloc i) (in_nets i) (in_saves i) (in_fetches i) (in_extract i)
    (in_moves i) l) w).

(** ** The other threads *)

Section threads.
Context `{JsonCodec}.

(** The id of a new job, 48 random bits, is taken not to have been given out
    before, and the [int] priorities not to run out. *)
Definition possible (w : world) (op : queue_op) : bool :=
  match op with
  | QAdd j =>
    negb (bool_decide (j_id j ∈ w_ids w)) &&
    match last (q_jobs (w_queue w)) with
    | Some l => j_priority l <? 2 ^ 31 - 1
    | None => true
    end
  | QReorder _ _ => Z.of_nat (length (q_jobs (w_queue w))) <=? 2 ^ 31
  | _ => true
  end.

Definition new_id (op : queue_op) : list cstr :=
  match op with QAdd j => [j_id j] | _ => [] end.

Definition apply_event (w : world) (e : event) : world :=
  match e with
  | EvQueue w1 w2 op =>
    if possible w op then
      let '(q, d, _) := run_queue_op w1 w2 op (w_queue w) (w_disk w) in
      with_ids (new_id op ++ w_ids w) (with_disk d (with_queue q w))
    else w
  | EvShutdown =>
    World (w_queue w) (w_disk w) (w_files w) true (w_fq w) (w_installed w) (w_ids w) (w_script w) (w_inputs w)
  end.

Definition apply_batch (b : batch) (w : world) : world := foldl apply_event w (snd <$> b).

(** The other threads run. *)
Definition tick : M () := λ w,
  let '(b, s) := pop [] (w_script w) in Some ((), apply_batch b (with_script s w)).

(** ** What the threads of the program share *)

(** [queue_lock(); ... queue_unlock();] *)
Definition locked {A} (m : M A) : M A := tick;; m.

Definition set_job_state (id : cstr) (s : job_state) : M () :=
  store id (λ j, fst (job_set_state j s)).

Definition save_job (id : cstr) : M () :=
  '(w1, w2) ← next_save;
  j ← deref id;
  put (λ w, with_disk (fst (queue_save_job w1 w2 (w_queue w) (w_disk w) j)) w).

Definition app_is_shutting_down : M bool := tick;; get w_shutdown.

Definition dl_should_continue (id : cstr) : M bool :=
  down ← app_is_shutting_down;
  if (down : bool) then mret false
  else
    locked (
      j ← deref id;
      mret (negb (bool_decide (j_state j = JOB_PAUSED)) && negb (bool_decide (j_state j = JOB_CANCELLED)))).

Definition job_was_cancelled (id : cstr) : M bool :=
  locked (j ← deref id; mret (bool_decide (j_state j = JOB_CANCELLED))).

(** [app_is_shutting_down() || job_was_cancelled(job)] *)
Definition stop_requested (id : cstr) : M bool :=
  down ← app_is_shutting_down;
  if (down : bool) then mret true else job_was_cancelled id.

Definition job_busy_begin (id : cstr) : M () := locked (store id (set_busy true)).
Definition job_busy_end (id : cstr) : M () := locked (store id (set_busy false)).

(** The progress callbacks: the answer when a call has done so many bytes. *)
Definition stopped_at (id : cstr) (w : world) (b : batch) (bytes_done : Z) : bool :=
  let w := apply_batch (filter (λ e, e.1 <= bytes_done) b) w in
  w_shutdown w ||
  match lookup_job (w_queue w) id with
  | Some j => bool_decide (j_state j = JOB_CANCELLED)
  | None => true
  end.

(** A long call that reports its progress: the other threads run during it. *)
Definition with_progress {A} (id : cstr) (call : (Z → Z → bool) → A) : M A := λ w,
  let '(b, s) := pop [] (w_script w) in
  let w := with_script s w in
  Some (call (λ bytes_done _, stopped_at id w b bytes_done), apply_batch b w).
End threads.

(** ** What the other threads leave alone *)

Lemma lookup_job_elem q id j :
  NoDup (j_id <$> q_jobs q) → lookup_job q id = Some j ↔ j ∈ q_jobs q ∧ j_id j = id.
Proof.
  intros Hnd. unfold lookup_job, queue_find_job. split.
  - intros Hl. destruct (index_of (q_jobs q) id) as [i|] eqn:Hi; [|done]. cbn in Hl.
    destruct (index_of_Some _ _ _ Hi) as (j' & Hj' & Hid). simplify_eq.
    split; [by eapply list_elem_of_lookup_2|done].
  - intros [Hin <-]. destruct (index_of (q_jobs q) (j_id j)) as [i|] eqn:Hi.
    + destruct (index_of_Some _ _ _ Hi) as (j' & Hj' & Hid). cbn. rewrite Hj'. f_equal.
      apply list_elem_of_lookup in Hin as [k Hk].
      assert (i = k) as ->; [|congruence].
      eapply (NoDup_lookup _ i k (j_id j)); [done| |]; rewrite list_lookup_fmap; [by rewrite Hj', <- Hid|by rewrite Hk].
    + apply index_of_None in Hi. destruct Hi. by apply list_elem_of_fmap_2.
Qed.

(** What a job keeps under the calls of the interface: everything but its state,
    its place in the queue, and the error and retry count a retry clears. *)
Definition same_work (j j' : job) : Prop :=
  j_id j' = j_id j ∧ j_name j' = j_name j ∧ j_files j' = j_files j ∧ j_busy j' = j_busy j ∧
  j_output_dir j' = j_output_dir j ∧ j_add_to_shadowmount j' = j_add_to_shadowmount j ∧
  j_auto_install_pkgs j' = j_auto_install_pkgs j.

#[global] Instance same_work_preorder : PreOrder same_work.
Proof.
  split; [by repeat split|]. intros j1 j2 j3. unfold same_work. intuition congruence.
Qed.

Lemma same_work_set_state j s : same_work j (fst (job_set_state j s)).
Proof. unfold job_set_state. by case_decide. Qed.

Section rely.
Context `{JsonCodec}.

Definition comes_from (l l' : list job) (new : list cstr) : Prop :=
  ∀ j', j' ∈ l' → (∃ j, j ∈ l ∧ same_work j j') ∨ j_id j' ∈ new.

Definition keeps_busy (l l' : list job) : Prop :=
  ∀ j, j ∈ l → j_busy j = true → ∃ j', j' ∈ l' ∧ same_work j j'.

Lemma change_job_steps w1 w2 ok update q d id :
  (∀ j, same_work j (update j)) →
  let q' := (change_job w1 w2 ok update q d id).1.1 in
  comes_from (q_jobs q) (q_jobs q') [] ∧ keeps_busy (q_jobs q) (q_jobs q').
Proof.
  intros Hup. assert (comes_from (q_jobs q) (q_jobs q) [] ∧ keeps_busy (q_jobs q) (q_jobs q)) as Hsame.
  { split; [intros j Hj; left|intros j Hj _]; by exists j. }
  unfold change_job. destruct (queue_find_job q id) as [i|]; [|done].
  destruct (q_jobs q !! i) as [j|] eqn:Hi; [|done]. destruct (ok (j_state j)); [|done]. cbv zeta.
  destruct (queue_save_job _ _ _ _ _) as [fs b]. cbn [fst q_jobs]. clear Hsame. split.
  - intros j' Hj'. left. apply list_elem_of_lookup in Hj' as [k Hk].
    apply list_lookup_insert_Some in Hk as [(-> & <- & ?)|[_ Hk]];
      [exists j|exists j']; (split; [by eapply list_elem_of_lookup_2|done]).
  - intros j' Hj' _. apply list_elem_of_lookup in Hj' as [k Hk]. destruct (decide (i = k)) as [->|Hne].
    + simplify_eq. exists (update j). split; [|done]. apply (list_elem_of_lookup_2 _ k).
      apply list_lookup_insert_eq. by eapply lookup_lt_Some.
    + exists j'. split; [|done]. apply (list_elem_of_lookup_2 _ k). by rewrite list_lookup_insert_ne.
Qed.

Lemma elem_of_renumber l j' : j' ∈ renumber_priorities l → ∃ j, j ∈ l ∧ same_work j j'.
Proof.
  intros Hj. apply list_elem_of_lookup in Hj as [k Hk]. unfold renumber_priorities in Hk.
  rewrite list_lookup_imap in Hk. apply fmap_Some in Hk as (j & Hj & ->).
  exists j. split; [by eapply list_elem_of_lookup_2|done].
Qed.

Lemma renumber_elem_of l j : j ∈ l → ∃ j', j' ∈ renumber_priorities l ∧ same_work j j'.
Proof.
  intros Hj. apply list_elem_of_lookup in Hj as [k Hk].
  exists (set_priority (s32 (Z.of_nat k)) j). split; [|done].
  apply (list_elem_of_lookup_2 _ k). unfold renumber_priorities. by rewrite list_lookup_imap, Hk.
Qed.

Lemma queue_op_steps w1 w2 op q d :
  let q' := (run_queue_op w1 w2 op q d).1.1 in
  comes_from (q_jobs q) (q_jobs q') (new_id op) ∧ keeps_busy (q_jobs q) (q_jobs q').
Proof.
  assert (∀ new, comes_from (q_jobs q) (q_jobs q) new ∧ keeps_busy (q_jobs q) (q_jobs q)) as Hsame.
  { intros new. split; [intros j Hj; left|intros j Hj _]; by exists j. }
  destruct op as [j|id|id n|id|id|id|id]; cbn [run_queue_op new_id].
  - unfold queue_add_job. cbv zeta. destruct (job_save _ _ _ _ _) as [fs [|]]; cbn [fst q_jobs]; [|done]. split.
    + intros j' [Hj'|Hj']%elem_of_app; [left; by exists j'|right].
      apply list_elem_of_singleton in Hj' as ->. by apply list_elem_of_singleton.
    + intros j' Hj' _. exists j'. split; [by apply elem_of_app; left|done].
  - destruct (index_of (q_jobs q) id) as [i|] eqn:Ei; [|unfold queue_remove_job; by rewrite Ei].
    destruct (index_of_Some _ _ _ Ei) as (j & Hj & _).
    destruct (was_active (j_state j) || j_busy j) eqn:Eb; [unfold queue_remove_job; by rewrite Ei, Hj, Eb|].
    rewrite (proj1 (queue_remove_eq q d id i j Ei Hj Eb)).
    pose proof (take_drop_middle (q_jobs q) i j Hj) as Hsplit.
    revert Hsplit. generalize (take i (q_jobs q)) as pre, (drop (S i) (q_jobs q)) as post.
    intros pre post <-. split.
    + intros j' Hj'. left. exists j'. split; [|done]. apply elem_of_app in Hj'.
      rewrite elem_of_app, elem_of_cons. tauto.
    + intros j' Hj' Hb. exists j'. split; [|done]. rewrite elem_of_app, elem_of_cons in Hj'. rewrite elem_of_app.
      destruct Hj' as [?|[->|?]]; [by left| |by right]. by rewrite Hb, orb_true_r in Eb.
  - destruct (index_of (q_jobs q) id) as [i|] eqn:Ei; [|unfold queue_reorder_job; by rewrite Ei].
    destruct (index_of_Some _ _ _ Ei) as (j & Hj & _).
    destruct (Nat.lt_ge_cases n (length (q_jobs q))) as [Hn|Hn].
    2:{ unfold queue_reorder_job. rewrite Ei. by rewrite (proj2 (Nat.leb_le _ _)) by done. }
    rewrite (proj1 (queue_reorder_eq w1 w2 q d id n i j Ei Hj Hn)). cbn [q_jobs].
    pose proof (move_permutation (q_jobs q) i n j Hj) as Hperm. split.
    + intros j' (j1 & Hj1 & Hs)%elem_of_renumber. left. exists j1. split; [by rewrite <- Hperm|done].
    + intros j' Hj' _. apply renumber_elem_of. by rewrite Hperm.
  - apply change_job_steps. intros j. apply same_work_set_state.
  - apply change_job_steps. intros j. apply same_work_set_state.
  - apply change_job_steps. intros j. apply same_work_set_state.
  - apply change_job_steps. intros j. etrans; [|apply same_work_set_state]. done.
Qed.

(** One step of the other threads. *)
Record others (w w' : world) : Prop := {
  ot_files : w_files w' = w_files w;
  ot_fq : w_fq w' = w_fq w;
  ot_installed : w_installed w' = w_installed w;
  ot_inputs : w_inputs w' = w_inputs w;
  ot_shutdown : w_shutdown w = true → w_shutdown w' = true;
  ot_ids : w_ids w ⊆ w_ids w';
  ot_from : comes_from (q_jobs (w_queue w)) (q_jobs (w_queue w')) (filter (.∉ w_ids w) (w_ids w'));
  ot_busy : keeps_busy (q_jobs (w_queue w)) (q_jobs (w_queue w'))
}.

(** The queue is in order and its ids have been given out. *)
Record world_ok (w : world) : Prop := {
  wo_queue : queue_inv (w_queue w);
  wo_ids : (j_id <$> q_jobs (w_queue w)) ⊆ w_ids w
}.

Lemma others_same w w' :
  w_queue w' = w_queue w → w_files w' = w_files w → w_fq w' = w_fq w → w_installed w' = w_installed w →
  w_inputs w' = w_inputs w → w_ids w' = w_ids w → (w_shutdown w = true → w_shutdown w' = true) →
  others w w'.
Proof using.
  intros Hq ? ? ? ? Hids ?. constructor; try done; rewrite ?Hq, ?Hids; [done|..].
  - intros j' Hj'. left. by exists j'.
  - intros j Hj _. by exists j.
Qed.

#[global] Instance others_preorder : PreOrder others.
Proof using.
  split.
  - intros w. by apply others_same.
  - intros w1 w2 w3 [F1 Q1 I1 N1 S1 D1 C1 B1] [F2 Q2 I2 N2 S2 D2 C2 B2].
    constructor; try congruence; [auto|set_solver| |].
    + intros j3 Hj3. destruct (C2 _ Hj3) as [(j2 & Hj2 & Hs2)|[? ?]%list_elem_of_filter].
      * destruct (C1 _ Hj2) as [(j1 & Hj1 & Hs1)|[? ?]%list_elem_of_filter].
        -- left. exists j1. split; [done|by etrans].
        -- right. rewrite (proj1 Hs2). apply list_elem_of_filter. auto.
      * right. apply list_elem_of_filter. split; [|done]. auto.
    + intros j1 Hj1 Hb. destruct (B1 _ Hj1 Hb) as (j2 & Hj2 & Hs1).
      destruct (B2 _ Hj2) as (j3 & Hj3 & Hs2); [|exists j3; split; [done|by etrans]].
      destruct Hs1 as (_ & _ & _ & -> & _). done.
Qed.

Lemma possible_pre w op : world_ok w → possible w op = true → op_pre (w_queue w) op.
Proof using.
  intros [_ Hids]. destruct op as [j|id|id n|id|id|id|id]; cbn [possible op_pre]; try done.
  - intros [Hj%negb_true_iff%bool_decide_eq_false Hl]%andb_true_iff. split; [by intros ?%Hids|].
    intros l Hlast. rewrite Hlast in Hl. by apply Z.ltb_lt.
  - apply Z.leb_le.
Qed.

Lemma apply_event_others w e : world_ok w → world_ok (apply_event w e) ∧ others w (apply_event w e).
Proof using.
  intros Hok. destruct e as [w1 w2 op|]; cbn [apply_event].
  2:{ split; [by destruct Hok|by apply others_same]. }
  destruct (possible w op) eqn:Hp; [|by split]. pose proof (possible_pre _ _ Hok Hp) as Hpre.
  destruct (queue_op_steps w1 w2 op (w_queue w) (w_disk w)) as [Hfrom Hbusy].
  destruct (run_queue_op w1 w2 op (w_queue w) (w_disk w)) as [[q d] rc] eqn:Hrun. cbn [fst] in Hfrom, Hbusy.
  destruct Hok as [Hq Hids].
  assert (∀ j', j' ∈ q_jobs q → (∃ j, j ∈ q_jobs (w_queue w) ∧ same_work j j') ∨
    j_id j' ∈ filter (.∉ w_ids w) (new_id op ++ w_ids w)) as Hnew.
  { intros j' Hj'. destruct (Hfrom j' Hj') as [?|Hn]; [by left|right]. apply list_elem_of_filter.
    split; [|by apply elem_of_app; left]. destruct op; cbn in Hn; try by apply elem_of_nil in Hn.
    apply list_elem_of_singleton in Hn as ->. cbn [possible] in Hp.
    by apply andb_true_iff in Hp as [Hp%negb_true_iff%bool_decide_eq_false _]. }
  split.
  - constructor; cbn.
    + by apply (queue_step_inv (w_queue w, w_disk w) (q, d)); [by econstructor|].
    + intros id (j' & -> & Hj')%list_elem_of_fmap. apply elem_of_app.
      destruct (Hfrom j' Hj') as [(j & Hj & -> & _)|?]; [right|by left].
      apply Hids. by apply list_elem_of_fmap_2.
  - constructor; cbn; try done. set_solver.
Qed.

Lemma apply_batch_others b w : world_ok w → world_ok (apply_batch b w) ∧ others w (apply_batch b w).
Proof using.
  unfold apply_batch. induction (snd <$> b) as [|e es IH] in w |- *; cbn [foldl]; intros Hok; [by split|].
  destruct (apply_event_others w e Hok) as [Hok1 Ho1]. destruct (IH _ Hok1) as [Hok2 Ho2].
  split; [done|by etrans].
Qed.
End rely.

(** ** The logic *)

(** The results of [m] from [w] satisfy [Q]; a fault satisfies every [Q]. *)
Definition wp {A} (m : M A) (Q : A → world → Prop) (w : world) : Prop :=
  match m w with
  | Some (a, w') => Q a w'
  | None => True
  end.

Lemma wp_bind {A B} (m : M A) (k : A → M B) Q w :
  wp (m ≫= k) Q w ↔ wp m (λ a, wp (k a) Q) w.
Proof. unfold wp, mbind, M_bind. by destruct (m w) as [[a w']|]. Qed.

Lemma wp_ret {A} (a : A) (Q : A → world → Prop) w : Q a w → wp (mret a) Q w.
Proof. done. Qed.

Lemma wp_mono {A} (m : M A) (Q Q' : A → world → Prop) w :
  (∀ a w', Q a w' → Q' a w') → wp m Q w → wp m Q' w.
Proof. unfold wp. destruct (m w) as [[a w']|]; auto. Qed.

Lemma wp_result {A} (m : M A) (Q : A → world → Prop) w a w' : wp m Q w → m w = Some (a, w') → Q a w'.
Proof. unfold wp. intros Hm Heq. by rewrite Heq in Hm. Qed.

(** A job is known to the program, its files satisfy [P], and no allocation is
    going to fail. *)
Record job_at (id : cstr) (P : list job_file → Prop) (w : world) : Prop := {
  ja_ok : world_ok w;
  ja_id : id ∈ w_ids w;
  ja_files : ∀ j, j ∈ q_jobs (w_queue w) → j_id j = id → P (j_files j);
  ja_malloc : in_malloc (w_inputs w) = []
}.

(** What [m] leaves alone: the files of the job and those on disk, and the queue
    of the finalizer. *)
Definition same_data (w w' : world) : Prop := w_files w' = w_files w ∧ w_fq w' = w_fq w.

#[global] Instance same_data_preorder : PreOrder same_data.
Proof. split; [done|]. intros w1 w2 w3 [] []. split; congruence. Qed.

Definition quiet {A} (id : cstr) (m : M A) : Prop :=
  ∀ P w, job_at id P w → wp m (λ _ w', job_at id P w' ∧ same_data w w') w.

(** An assignment to fields of the job that has no bearing on its files. *)
Definition keeps (P : list job_file → Prop) (f : job → job) : Prop :=
  ∀ j, j_id (f j) = j_id j ∧ j_priority (f j) = j_priority j ∧ (P (j_files j) → P (j_files (f j))).

Definition keeps_files (f : job → job) : Prop :=
  ∀ j, j_id (f j) = j_id j ∧ j_priority (f j) = j_priority j ∧ j_files (f j) = j_files j.

Lemma keeps_set_state s : keeps_files (λ j, fst (job_set_state j s)).
Proof. intros j. unfold job_set_state. by case_decide. Qed.

Lemma quiet_bind {A B} id (m : M A) (k : A → M B) :
  quiet id m → (∀ a, quiet id (k a)) → quiet id (m ≫= k).
Proof.
  intros Hm Hk P w Hw. apply wp_bind. eapply wp_mono; [|by apply Hm].
  intros a w' [Hw' [Hf Hq]]. eapply wp_mono; [|by apply Hk]. intros b w'' [Hw'' [Hf' Hq']].
  split; [done|]. split; congruence.
Qed.

Lemma quiet_ret {A} id (a : A) : quiet id (mret a).
Proof. intros P w Hw. by apply wp_ret. Qed.

Lemma quiet_get {A} id (f : world → A) : quiet id (get f).
Proof. by intros P w Hw. Qed.

Lemma quiet_deref id id' : quiet id (deref id').
Proof. intros P w Hw. unfold wp, deref. by destruct (lookup_job _ _). Qed.

Lemma job_at_elem id P w j :
  job_at id P w → lookup_job (w_queue w) id = Some j ↔ j ∈ q_jobs (w_queue w) ∧ j_id j = id.
Proof. intros [[[_ Hnd _] _] _ _ _]. by apply lookup_job_elem. Qed.

Lemma wp_deref id P w :
  job_at id P w →
  wp (deref id) (λ j w', w' = w ∧ P (j_files j) ∧ lookup_job (w_queue w) id = Some j) w.
Proof.
  intros Hw. unfold wp, deref. destruct (lookup_job (w_queue w) id) as [j|] eqn:Hl; [|done]. cbn.
  pose proof Hl as [Hin Hid]%(job_at_elem _ _ _ _ Hw). split; [done|]. split; [by apply (ja_files _ _ _ Hw)|done].
Qed.

(** What is seen of the job's files is known of them. *)
Lemma job_at_seen id P P' w j :
  job_at id P w → lookup_job (w_queue w) id = Some j → P' (j_files j) → job_at id P' w.
Proof.
  intros Hw Hl HP'. pose proof Hw as [Hok Hid _ Hm]. constructor; [done..| |done].
  intros j' Hj' Hid'. pose proof (proj2 (job_at_elem _ _ _ j' Hw) (conj Hj' Hid')). by simplify_eq.
Qed.

Lemma quiet_of_option {A} id (o : option A) : quiet id (of_option o).
Proof. by intros P w Hw; destruct o. Qed.

Lemma others_job_at id P w w' : world_ok w' → others w w' → job_at id P w → job_at id P w'.
Proof.
  intros Hok [_ _ _ Hin _ Hids Hfrom _] [_ Hid Hfl Hm]. constructor; [done|by apply Hids| |congruence].
  intros j' Hj' Hj'id. destruct (Hfrom j' Hj') as [(j & Hj & Hs)|[Hnew _]%list_elem_of_filter].
  - destruct Hs as (Hi & _ & -> & _). apply Hfl; [done|congruence].
  - congruence.
Qed.

Lemma with_script_ok s w : world_ok w → world_ok (with_script s w).
Proof. by intros []. Qed.

Lemma store_job_at id id' f P w w' :
  keeps P f → job_at id P w → store id' f w = Some ((), w') →
  job_at id P w' ∧ same_data w w'.
Proof.
  intros Hf [Hok Hid Hfl Hm] Hs. unfold store in Hs.
  destruct (queue_find_job (w_queue w) id') as [i|]; [|done].
  destruct (q_jobs (w_queue w) !! i) as [j|] eqn:Hi; [|done]. simplify_eq.
  destruct (Hf j) as (Hid' & Hp' & Hf'). split; [|done]. constructor; cbn; try done.
  - destruct Hok as [Hq Hids]. constructor; cbn.
    + destruct (w_queue w) as [dir jobs]. by apply (queue_inv_update dir jobs i j).
    + by rewrite list_fmap_insert, Hid', list_insert_id by (by rewrite list_lookup_fmap, Hi).
  - intros j' Hj' Hj'id. apply list_elem_of_lookup in Hj' as [k Hk].
    apply list_lookup_insert_Some in Hk as [(-> & <- & _)|[_ Hk]].
    + apply Hf', Hfl; [by eapply list_elem_of_lookup_2|congruence].
    + apply Hfl; [by eapply list_elem_of_lookup_2|done].
Qed.

Lemma wp_store id id' f P w :
  keeps P f → job_at id P w → wp (store id' f) (λ _ w', job_at id P w' ∧ same_data w w') w.
Proof.
  intros Hf Hw. unfold wp. destruct (store id' f w) as [[[] w']|] eqn:Hs; [|done].
  by eapply store_job_at.
Qed.

Lemma quiet_store id id' f : keeps_files f → quiet id (store id' f).
Proof.
  intros Hf P w Hw. apply wp_store; [|done]. intros j. destruct (Hf j) as (? & ? & Hfl).
  by rewrite Hfl.
Qed.

Lemma quiet_next_save id : quiet id next_save.
Proof.
  intros P w [[] ? ? ?]. unfold wp, next_save. destruct (pop _ _). split; [|done]. by constructor.
Qed.

Lemma quiet_next_net id : quiet id next_net.
Proof.
  intros P w [[] ? ? ?]. unfold wp, next_net. destruct (pop _ _). split; [|done]. by constructor.
Qed.

Lemma quiet_next_fetches id : quiet id next_fetches.
Proof.
  intros P w [[] ? ? ?]. unfold wp, next_fetches. destruct (pop _ _). split; [|done]. by constructor.
Qed.

Lemma quiet_next_malloc id : quiet id next_malloc.
Proof.
  intros P w [[] ? ? Hm]. unfold wp, next_malloc. rewrite Hm. cbn. split; [|done]. by constructor.
Qed.

(** With no failing allocation left, the next one succeeds. *)
Lemma wp_malloc {A} id P (k : bool → M A) Q w :
  job_at id P w → (∀ w', job_at id P w' → same_data w w' → wp (k true) Q w') →
  wp (next_malloc ≫= k) Q w.
Proof.
  intros [[] ? ? Hm] Hk. apply wp_bind. unfold wp at 1, next_malloc. rewrite Hm. cbn.
  apply Hk; [|done]. by constructor.
Qed.

Lemma quiet_put_disk id f : quiet id (put (λ w, with_disk (f w) w)).
Proof. intros P w [[] ? ? ?]. unfold wp, put. split; [|done]. by constructor. Qed.

Section quiet_threads.
Context `{JsonCodec}.

Lemma batch_job_at id P b w :
  job_at id P w → job_at id P (apply_batch b w) ∧ same_data w (apply_batch b w).
Proof using.
  intros Hw. destruct (apply_batch_others b w (ja_ok _ _ _ Hw)) as [Hok Ho].
  split; [by eapply others_job_at|]. by destruct Ho.
Qed.

Lemma script_job_at id P s w : job_at id P w → job_at id P (with_script s w).
Proof using. intros [? ? ? ?]. constructor; try done. by apply with_script_ok. Qed.

Lemma quiet_tick id : quiet id tick.
Proof using.
  intros P w Hw. unfold wp, tick. destruct (pop [] (w_script w)) as [b s].
  by apply (batch_job_at id P b (with_script s w)), script_job_at.
Qed.

(** The call is made with some callback. *)
Lemma wp_with_progress {A} id id' P (call : (Z → Z → bool) → A) w :
  job_at id P w →
  wp (with_progress id' call) (λ a w', (∃ cb, a = call cb) ∧ job_at id P w' ∧ same_data w w') w.
Proof using.
  intros Hw. unfold wp, with_progress. destruct (pop [] (w_script w)) as [b s]. split; [by eexists|].
  by apply (batch_job_at id P b (with_script s w)), script_job_at.
Qed.

Lemma quiet_with_progress {A} id id' (call : (Z → Z → bool) → A) : quiet id (with_progress id' call).
Proof using. intros P w Hw. eapply wp_mono; [|by apply wp_with_progress]. by intros a w' [_ ?]. Qed.
End quiet_threads.

Create HintDb quiet.
#[export] Hint Resolve quiet_bind quiet_ret quiet_get quiet_deref quiet_of_option quiet_store
  quiet_next_save quiet_next_net quiet_next_fetches quiet_next_malloc quiet_put_disk quiet_tick
  quiet_with_progress keeps_set_state : quiet.
#[export] Hint Extern 2 (keeps_files _) => (by intros ?) : quiet.

(** Goes through the branches of a piece of code. *)
Ltac quiet_tac :=
  repeat first
    [ solve [auto with quiet nocore]
    | apply quiet_bind; [|intros ?]
    | match goal with
      | |- quiet _ (match ?x with _ => _ end) => destruct x
      | |- quiet _ (if ?x then _ else _) => destruct x
      | |- quiet _ (let _ := _ in _) => cbv zeta
      end ].

Section quiet_shared.
Context `{JsonCodec} (id : cstr).

Lemma quiet_locked {A} id' (m : M A) : quiet id' m → quiet id' (locked m).
Proof using. intros Hm. unfold locked. quiet_tac. Qed.

Lemma quiet_set_job_state id' s : quiet id (set_job_state id' s).
Proof using. unfold set_job_state. quiet_tac. Qed.

Lemma quiet_save_job id' : quiet id (save_job id').
Proof using. unfold save_job. quiet_tac. Qed.

Lemma quiet_should_continue id' : quiet id (dl_should_continue id').
Proof using. unfold dl_should_continue, app_is_shutting_down, locked. quiet_tac. Qed.

Lemma quiet_stop_requested id' : quiet id (stop_requested id').
Proof using. unfold stop_requested, app_is_shutting_down, job_was_cancelled, locked. quiet_tac. Qed.

Lemma quiet_busy_begin id' : quiet id (job_busy_begin id').
Proof using. unfold job_busy_begin, locked. quiet_tac. Qed.

Lemma quiet_busy_end id' : quiet id (job_busy_end id').
Proof using. unfold job_busy_end, locked. quiet_tac. Qed.
End quiet_shared.

#[export] Hint Resolve quiet_locked quiet_set_job_state quiet_save_job quiet_should_continue
  quiet_stop_requested quiet_busy_begin quiet_busy_end : quiet.

(** ** Jobs that cannot be removed

    A busy job stays in the queue whatever the other threads do, so a piece of
    code that keeps it busy never meets a removed job. *)

Definition alive (id : cstr) (w : world) : Prop :=
  world_ok w ∧ ∃ j, lookup_job (w_queue w) id = Some j ∧ j_busy j = true.

(** Total correctness: [m] does not fault. *)
Definition safe {A} (id : cstr) (m : M A) : Prop :=
  ∀ w, alive id w → ∃ a w', m w = Some (a, w') ∧ alive id w'.

Lemma alive_elem id w :
  alive id w ↔ world_ok w ∧ ∃ j, j ∈ q_jobs (w_queue w) ∧ j_id j = id ∧ j_busy j = true.
Proof.
  unfold alive. split; intros (Hok & j & Hj); (split; [done|]); exists j; pose proof (qi_ids _ (wo_queue _ Hok)).
  - destruct Hj as [Hj Hb]. by apply lookup_job_elem in Hj as [? ?].
  - destruct Hj as (? & ? & ?). split; [|done]. by apply lookup_job_elem.
Qed.

Lemma safe_bind {A B} id (m : M A) (k : A → M B) :
  safe id m → (∀ a, safe id (k a)) → safe id (m ≫= k).
Proof.
  intros Hm Hk w Hw. destruct (Hm w Hw) as (a & w' & Heq & Hw'). unfold mbind, M_bind. rewrite Heq. by apply Hk.
Qed.

Lemma safe_ret {A} id (a : A) : safe id (mret a).
Proof. intros w Hw. by eexists _, _. Qed.

Lemma safe_get {A} id (f : world → A) : safe id (get f).
Proof. intros w Hw. by eexists _, _. Qed.

(** A change outside the queue. *)
Lemma alive_same id w w' : w_queue w' = w_queue w → w_ids w' = w_ids w → alive id w → alive id w'.
Proof.
  intros Hq Hids [[] Hj]. split; [constructor; by rewrite Hq, ?Hids|by rewrite Hq].
Qed.

Lemma safe_put id f : (∀ w, w_queue (f w) = w_queue w ∧ w_ids (f w) = w_ids w) → safe id (put f).
Proof. intros Hf w Hw. eexists _, _. split; [done|]. destruct (Hf w). by apply (alive_same id w). Qed.

Lemma safe_deref id : safe id (deref id).
Proof. intros w Hw. pose proof Hw as (_ & j & Hj & _). unfold deref. rewrite Hj. by eexists _, _. Qed.

(** An assignment to a field other than [id], [priority] and [busy]. *)
Definition keeps_alive (f : job → job) : Prop :=
  ∀ j, j_id (f j) = j_id j ∧ j_priority (f j) = j_priority j ∧ (j_busy j = true → j_busy (f j) = true).

Lemma safe_store id f : keeps_alive f → safe id (store id f).
Proof.
  intros Hf w (Hok & j & Hl & Hb). unfold store. unfold lookup_job in Hl.
  destruct (queue_find_job (w_queue w) id) as [i|] eqn:Hi; [|done]. cbn in Hl. rewrite Hl. eexists _, _. split; [done|].
  destruct (Hf j) as (Hid & Hp & Hbusy). destruct Hok as [Hq Hids]. apply alive_elem. split.
  - constructor; cbn.
    + destruct (w_queue w) as [dir jobs]. by apply (queue_inv_update dir jobs i j).
    + by rewrite list_fmap_insert, Hid, list_insert_id by (by rewrite list_lookup_fmap, Hl).
  - destruct (index_of_Some _ _ _ Hi) as (j' & Hj' & Hjid). simplify_eq. exists (f j). split; [|by rewrite Hid; auto].
    cbn. apply (list_elem_of_lookup_2 _ i), list_lookup_insert_eq. by eapply lookup_lt_Some.
Qed.

Section safe_threads.
Context `{JsonCodec}.

Lemma alive_batch id b w : alive id w → alive id (apply_batch b w).
Proof using.
  intros Hw. pose proof Hw as [Hok _]. destruct (apply_batch_others b w Hok) as [Hok' Ho].
  apply alive_elem in Hw as (_ & j & Hj & <- & Hb). apply alive_elem. split; [done|].
  destruct (ot_busy _ _ Ho j Hj Hb) as (j' & Hj' & Hs). exists j'. split; [done|].
  destruct Hs as (? & _ & _ & -> & _). done.
Qed.

Lemma safe_tick id : safe id tick.
Proof using.
  intros w Hw. unfold tick. destruct (pop [] (w_script w)) as [b s]. eexists _, _. split; [done|].
  apply alive_batch. by apply (alive_same id w).
Qed.

Lemma safe_with_progress {A} id id' (call : (Z → Z → bool) → A) : safe id (with_progress id' call).
Proof using.
  intros w Hw. unfold with_progress. destruct (pop [] (w_script w)) as [b s]. eexists _, _. split; [done|].
  apply alive_batch. by apply (alive_same id w).
Qed.

Lemma safe_next_save id : safe id next_save.
Proof using.
  intros w Hw. unfold next_save. destruct (pop _ _). eexists _, _. split; [done|]. by apply (alive_same id w).
Qed.

Lemma safe_next_move id : safe id next_move.
Proof using.
  intros w Hw. unfold next_move. destruct (pop _ _). eexists _, _. split; [done|]. by apply (alive_same id w).
Qed.

Lemma safe_next_extract id : safe id next_extract.
Proof using.
  intros w Hw. unfold next_extract. destruct (pop _ _). eexists _, _. split; [done|]. by apply (alive_same id w).
Qed.

Lemma safe_next_install id : safe id next_install.
Proof using.
  intros w Hw. unfold next_install. destruct (pop _ _). eexists _, _. split; [done|]. by apply (alive_same id w).
Qed.

Lemma keeps_alive_set_state s : keeps_alive (λ j, fst (job_set_state j s)).
Proof using. intros j. unfold job_set_state. by case_decide. Qed.
End safe_threads.

Create HintDb safe.
#[export] Hint Resolve safe_bind safe_ret safe_get safe_deref safe_store safe_tick safe_with_progress
  safe_next_save safe_next_move safe_next_extract safe_next_install keeps_alive_set_state : safe.
#[export] Hint Extern 2 (keeps_alive _) => (by intros ?) : safe.
#[export] Hint Extern 2 (safe _ (put _)) => (by apply safe_put) : safe.

Ltac safe_tac :=
  repeat first
    [ solve [auto with safe nocore]
    | apply safe_bind; [|intros ?]
    | match goal with
      | |- safe _ (match ?x with _ => _ end) => destruct x
      | |- safe _ (if ?x then _ else _) => destruct x
      | |- safe _ (let _ := _ in _) => cbv zeta
      end ].

Section safe_shared.
Context `{JsonCodec} (id : cstr).

Lemma safe_locked {A} (m : M A) : safe id m → safe id (locked m).
Proof using. intros Hm. unfold locked. safe_tac. Qed.

Lemma safe_set_job_state s : safe id (set_job_state id s).
Proof using. unfold set_job_state. safe_tac. Qed.

Lemma safe_save_job : safe id (save_job id).
Proof using. unfold save_job. safe_tac. Qed.
End safe_shared.

#[export] Hint Resolve safe_locked safe_set_job_state safe_save_job : safe.

(** ** Evaluation

    The steps of a run whose other threads are known. *)

Lemma run_bind {A B} (m : M A) (k : A → M B) w a w' :
  m w = Some (a, w') → (m ≫= k) w = k a w'.
Proof. unfold mbind, M_bind. by intros ->. Qed.

Lemma run_deref id w j : lookup_job (w_queue w) id = Some j → deref id w = Some (j, w).
Proof. unfold deref. by intros ->. Qed.

Lemma lookup_job_index q id j :
  lookup_job q id = Some j ↔ ∃ i, index_of (q_jobs q) id = Some i ∧ q_jobs q !! i = Some j.
Proof.
  unfold lookup_job, queue_find_job. destruct (index_of (q_jobs q) id) as [i|]; cbn.
  - split; [by exists i|]. by intros (i' & [= <-] & ?).
  - split; [done|]. by intros (i' & ? & _).
Qed.

Lemma index_of_insert jobs id i j j' :
  index_of jobs id = Some i → jobs !! i = Some j → j_id j' = j_id j → index_of (<[i := j']> jobs) id = Some i.
Proof.
  revert i. induction jobs as [|x jobs IH]; intros i Hi Hj Hid; [done|]. cbn [index_of] in Hi.
  destruct i as [|i]; cbn in Hj.
  - simplify_eq. cbn. rewrite Hid. case_decide; [done|]. by apply fmap_Some in Hi as (? & _ & ?).
  - case_decide as Hd; [done|]. apply fmap_Some in Hi as (k & Hk & [= ->]). cbn.
    rewrite decide_False by done. exact (f_equal (fmap S) (IH k Hk Hj Hid)).
Qed.

(** Everything but the queue, its directory and the inputs for its writes. *)
Record same_rest (w w' : world) : Prop := {
  sr_files : w_files w' = w_files w;
  sr_shutdown : w_shutdown w' = w_shutdown w;
  sr_fq : w_fq w' = w_fq w;
  sr_ids : w_ids w' = w_ids w;
  sr_script : w_script w' = w_script w;
  sr_nets : in_nets (w_inputs w') = in_nets (w_inputs w)
}.

#[global] Instance same_rest_preorder : PreOrder same_rest.
Proof. split; [done|]. intros w1 w2 w3 [] []. split; congruence. Qed.

Lemma run_store id f w j :
  lookup_job (w_queue w) id = Some j → j_id (f j) = j_id j →
  ∃ w', store id f w = Some ((), w') ∧ lookup_job (w_queue w') id = Some (f j) ∧ same_rest w w'.
Proof.
  intros (i & Hi & Hj)%lookup_job_index Hid. unfold store, queue_find_job. rewrite Hi, Hj.
  eexists. split; [done|]. split; [|done]. cbn [w_queue with_queue]. apply lookup_job_index. exists i.
  split; [by eapply index_of_insert|]. apply list_lookup_insert_eq. by eapply lookup_lt_Some.
Qed.

Section run_threads.
Context `{JsonCodec}.

Lemma run_tick w b s : w_script w = b :: s → tick w = Some ((), apply_batch b (with_script s w)).
Proof using. unfold tick. by intros ->. Qed.

(** A turn in which the other threads do nothing. *)
Definition calm (w : world) : Prop := Forall (λ b : batch, b = []) (w_script w).

Lemma run_calm w : calm w → ∃ s, tick w = Some ((), with_script s w) ∧ calm (with_script s w).
Proof using.
  unfold calm, tick. destruct (w_script w) as [|b s]; cbn [pop].
  - intros _. exists []. by split.
  - intros [-> Hs]%Forall_cons. exists s. by split.
Qed.

Lemma run_set_job_state id s w j :
  lookup_job (w_queue w) id = Some j →
  ∃ w', set_job_state id s w = Some ((), w') ∧ lookup_job (w_queue w') id = Some (set_state s j) ∧ same_rest w w'.
Proof using.
  intros Hj. assert (fst (job_set_state j s) = set_state s j) as Hs.
  { unfold job_set_state. case_decide as Hd; [|done]. rewrite <- Hd. by destruct j. }
  unfold set_job_state. destruct (run_store id (λ j, fst (job_set_state j s)) w j Hj) as (w' & ? & Hl & ?).
  { by rewrite Hs. }
  exists w'. by rewrite <- Hs.
Qed.

Lemma run_save_job id w j :
  lookup_job (w_queue w) id = Some j →
  ∃ w', save_job id w = Some ((), w') ∧ w_queue w' = w_queue w ∧ same_rest w w'.
Proof using.
  intros Hj. unfold save_job, next_save, mbind, M_bind. destruct (pop _ _) as [[o1 o2] l].
  rewrite (run_deref id _ j) by done. unfold put. eexists. split; [reflexivity|]. by split.
Qed.

Lemma run_should_continue id w j :
  calm w → w_shutdown w = false → lookup_job (w_queue w) id = Some j →
  ∃ s, dl_should_continue id w =
    Some (negb (bool_decide (j_state j = JOB_PAUSED)) && negb (bool_decide (j_state j = JOB_CANCELLED)), with_script s w) ∧
    calm (with_script s w).
Proof using.
  intros Hc Hup Hj. unfold dl_should_continue, app_is_shutting_down, locked.
  destruct (run_calm w Hc) as (s1 & Ht1 & Hc1). destruct (run_calm _ Hc1) as (s2 & Ht2 & Hc2).
  exists s2. split; [|exact Hc2]. unfold mbind, M_bind, get. rewrite Ht1. cbn [w_shutdown with_script]. rewrite Hup.
  rewrite Ht2. unfold deref. cbn [w_queue with_script]. by rewrite Hj.
Qed.
End run_threads.

Lemma wp_and {A} (m : M A) (Q Q' : A → world → Prop) w :
  wp m Q w → wp m Q' w → wp m (λ a w', Q a w' ∧ Q' a w') w.
Proof. unfold wp. destruct (m w) as [[a w']|]; auto. Qed.

(** The outcomes of the calls to come are the other threads' affair no more than
    the files are. *)
Lemma apply_batch_inputs `{JsonCodec} b w :
  w_inputs (apply_batch b w) = w_inputs w ∧ w_files (apply_batch b w) = w_files w.
Proof.
  unfold apply_batch. induction (snd <$> b) as [|e es IH] in w |- *; [done|]. cbn [foldl].
  destruct (IH (apply_event w e)) as [-> ->]. destruct e as [w1 w2 op|]; cbn; [|done].
  destruct (possible w op); [|done]. by destruct (run_queue_op _ _ _ _ _) as [[q d] rc].
Qed.
