(* ===== verification/Download.v ===== *)
(** * One job's download ([download/download.c])

    [download_job]: the server is tried, the space checked, every segment that
    is missing fetched, the files verified against the PAR2 set, the recovery
    volumes fetched and the files repaired if they are damaged, and the job
    handed to the finalizer. The code runs in the world of [Worker]; PAR2 is
    [Par2] and [Par2Repair], the server check is [Nntp]. *)

From Stdlib Require Import ZArith Lia List.
From Stdlib Require Import Strings.Byte Strings.String.
From stdpp Require Import base list gmap.
From S2P Require Import Prelude Cnum Config Json Paths Job JobStore Queue Par2 Par2Repair Nntp Worker.

(** ** Paths *)

Definition job_temp_dir (cfg : app_config) (id : cstr) : cstr :=
  str_fit 700 (sc_temp_dir (ac_storage cfg) ++ $ "/" ++ id).

Definition job_file_path (cfg : app_config) (id : cstr) (filename : cstr) : cstr :=
  let safe_name := path_sanitize_component (str_fit 512 filename) 512 in
  str_fit 900 (job_temp_dir cfg id ++ $ "/" ++ safe_name).

Definition job_remaining_bytes (j : job) : Z :=
  foldl (λ total jf,
    foldl (λ total s, if sg_downloaded s then total else s64 (total + sg_bytes s)) total (jf_segments jf))
    0 (j_files j).

(** The loop that looks for files with segments missing: the parts of [detail]. *)
Definition file_missing (jf : job_file) : option cstr :=
  let total := length (jf_segments jf) in
  let downloaded := length (filter (λ s, sg_downloaded s = true) (jf_segments jf)) in
  if (downloaded <? total)%nat
  then Some (jf_filename jf ++ $ " (" ++ print_dec (Z.of_nat downloaded) ++ $ "/" ++
             print_dec (Z.of_nat total) ++ $ " segments)")
  else None.

Definition missing_files (fs : list job_file) : list cstr :=
  omap (λ jf, if job_file_is_par2_volume (jf_filename jf) then None else file_missing jf) fs.

Definition join_detail (parts : list cstr) : cstr :=
  str_fit 256 (match parts with
               | [] => []
               | p :: ps => p ++ mjoin ((λ q, $ "; " ++ q) <$> ps)
               end).

(** The files of one phase of the download. *)
Definition phase_files (volumes : bool) (fs : list job_file) : list job_file :=
  filter (λ jf, job_file_is_par2_volume (jf_filename jf) = volumes) fs.

(** The text of a repair error. *)
Definition repair_error_text (e : repair_error) : cstr :=
  str_fit 256
    match e with
    | RE_no_layout => $ "PAR2 repair: no usable PAR2 layout (Main packet missing or invalid)"
    | RE_not_in_job name => $ "PAR2 repair: " ++ name ++
        $ ": not part of this job - recovery set references a file this job doesn't have"
    | RE_too_many_blocks total =>
        $ "PAR2 repair: too many blocks in recovery set for GF(2^16) (" ++ print_dec total ++ $ ")"
    | RE_need_more have need => $ "PAR2 repair: need " ++ print_dec (Z.of_nat (need - have)) ++
        $ " more recovery block(s) (have " ++ print_dec (Z.of_nat have) ++ $ " usable, need " ++
        print_dec (Z.of_nat need) ++ $ ")"
    | RE_singular => $ "PAR2 repair: internal Reed-Solomon computation error (singular matrix)"
    | RE_locate gi => $ "PAR2 repair: internal error: could not locate block " ++ print_dec gi
    | RE_read name => $ "PAR2 repair: I/O error reading " ++ name
    | RE_read_slice e => $ "PAR2 repair: I/O error reading recovery data (exponent " ++ print_dec e ++ $ ")"
    | RE_write name => $ "PAR2 repair: I/O error writing " ++ name
    | RE_aborted => $ "PAR2 repair: aborted"
    end.

Section download.
Context `{JsonCodec}.
Context (cfg : app_config).
Context (md5 : list byte → list byte) (qsort_slices : list par2_slice → list par2_slice).
(** What [readdir] lists, which files can be opened for writing, and what
    [statfs] answers; the fuel bounds the packets read from one PAR2 file. *)
Context (list_dir : file_system → cstr → list cstr) (writable : cstr → bool).
Context (statfs : cstr → option (Z * Z)) (fuel : nat).

(** ** Small steps *)

(** The shape of every failure: an error text, a state, a save. *)
Definition job_fail (id : cstr) (err : cstr) : M () :=
  locked (store id (set_last_error err);; set_job_state id JOB_FAILED;; save_job id).

Definition job_enter (id : cstr) (s : job_state) : M () :=
  locked (set_job_state id s;; save_job id).

Definition finalize_enqueue (id : cstr) : M () :=
  r ← next_malloc;
  if (r : bool) then put (λ w, with_fq (w_fq w ++ [id]) w)
  else job_fail id ($ "out of memory queueing for extraction").

Definition job_fail_or_retry (id : cstr) (err : cstr) : M () :=
  let max_retries := qc_max_retries (ac_queue cfg) in
  locked (
    store id (set_last_error err);;
    j ← deref id;
    (if j_retries_used j <? max_retries then
       store id (λ j, set_retries_used (j_retries_used j + 1) j);; set_job_state id JOB_QUEUED
     else set_job_state id JOB_FAILED);;
    save_job id).

Definition job_mark_stopped (id : cstr) : M () := job_enter id JOB_CANCELLED.

(** ** Fetching *)

(** [None] for 0, else the text in [err]. *)
Definition check_server_reachable : M (option cstr) :=
  let nntp := ac_nntp cfg in
  net ← next_net;
  match nntp_conn_open net (negb (nc_tls nntp =? 0)) with
  | None => mret (Some (str_fit 256 ($ "could not connect to NNTP server " ++ nc_host nntp ++ $ ":" ++ nc_port nntp)))
  | Some (conn, _) =>
    if bool_decide (nc_user nntp = []) then mret None
    else
      '(_, rc) ← of_option (nntp_conn_authenticate conn (nc_user nntp) (nc_pass nntp));
      mret (if rc <? 0 then Some (str_fit 256 ($ "NNTP authentication failed for user " ++ nc_user nntp))
            else None)
  end.

(** The segments dispatched, until the job is to stop. *)
Fixpoint dispatch_segments (id : cstr) (segs : list job_segment) : M (list cstr) :=
  match segs with
  | [] => mret []
  | s :: segs =>
    go ← dl_should_continue id;
    if (go : bool) then
      rest ← dispatch_segments id segs;
      mret (if sg_downloaded s then rest else sg_message_id s :: rest)
    else mret []
  end.

Fixpoint dispatch_files (id : cstr) (files : list job_file) : M (list cstr) :=
  match files with
  | [] => mret []
  | jf :: files =>
    go ← dl_should_continue id;
    if (go : bool) then
      sent ← dispatch_segments id (jf_segments jf);
      rest ← dispatch_files id files;
      mret (sent ++ rest)
    else mret []
  end.

(** The part of [segment_done_cb] on the job: the segment is marked, and the
    progress written when a checkpoint is due. *)
Definition write_checkpoint (id : cstr) : M () :=
  bitmap ← locked (j ← deref id; mret (job_progress_snapshot j));
  '(w1, w2) ← next_save;
  j ← deref id;
  put (λ w, with_disk (fst (queue_write_job_progress w1 w2 (w_queue w) (w_disk w) j bitmap)) w).

Definition segment_done (id : cstr) (f : fetches) (message_id : cstr) : M () :=
  if ft_ok f message_id then
    locked (store id (λ j, fst (job_mark_segment_downloaded j message_id)));;
    if ft_checkpoint f message_id then write_checkpoint id else mret ()
  else mret ().

Fixpoint segments_done (id : cstr) (f : fetches) (sent : list cstr) : M () :=
  match sent with
  | [] => mret ()
  | m :: sent => segment_done id f m;; segments_done id f sent
  end.

Definition download_segments (id : cstr) (files : list job_file) : M () :=
  file_states ← next_malloc;
  if (file_states : bool) then
    sent ← dispatch_files id files;
    f ← next_fetches;
    put (λ w, with_content (ft_files f (w_files w)) w);;
    segments_done id f sent
  else mret ().

(** ** PAR2 *)

Definition scan_temp_dir (id : cstr) (fs : file_system) : option par2_set :=
  let dir := job_temp_dir cfg id in
  par2_scan_dir md5 qsort_slices fuel dir ((λ name, (name, fs !! str_fit 900 (dir ++ $ "/" ++ name))) <$> list_dir fs dir).

(** The sum of the lengths the set declares for the job's files. *)
Definition progress_total (set : par2_set) (names : list cstr) : Z :=
  foldl (λ total name, match par2_find_file set name with
                       | Some pf => s64 (total + pf_length pf)
                       | None => total
                       end) 0 names.

(** The shrink-only fixup. *)
Definition trim_to_declared (path : cstr) (pf : par2_file) (fs : file_system) : file_system :=
  match fs !! path with
  | Some data =>
    if (0 <? pf_length pf) && (pf_length pf <? Z.of_nat (length data)) && writable path
    then <[path := take (Z.to_nat (pf_length pf)) data]> fs
    else fs
  | None => fs
  end.

(** The loop of [par2_verify_job]: [done] is what [pg] has counted. *)
Fixpoint verify_files (id : cstr) (set : par2_set) (total bytes_done : Z) (names : list cstr) : M (option cstr) :=
  match names with
  | [] => mret None
  | name :: names =>
    match par2_find_file set name with
    | None => verify_files id set total bytes_done names
    | Some pf =>
      let path := job_file_path cfg id name in
      put (λ w, with_content (trim_to_declared path pf (w_files w)) w);;
      fs ← get w_files;
      r ← with_progress id (λ cb, par2_verify_file md5 set pf (fs !! path) (Some (Par2Progress bytes_done total (Some cb))));
      match r with
      | None => mret (Some (str_fit 256 ($ "PAR2 verify: could not read " ++ name)))
      | Some (report, pg) =>
        match vr_result report with
        | PAR2_VERIFY_OK => verify_files id set total (default bytes_done (pg_done <$> pg)) names
        | PAR2_VERIFY_DAMAGED =>
          mret (Some (str_fit 256 ($ "PAR2 verify: " ++ name ++ $ ": " ++
            print_dec (Z.of_nat (vr_bad_blocks report)) ++ $ " of " ++
            print_dec (Z.of_nat (vr_block_count report)) ++ $ " blocks corrupt/missing")))
        | PAR2_VERIFY_UNKNOWN =>
          mret (Some (str_fit 256 ($ "PAR2 verify: " ++ name ++
            $ ": content does not match (no block-level detail available)")))
        end
      end
    end
  end.

(** [None] for 1, else the text in [err]. *)
Definition par2_verify_job (id : cstr) : M (option cstr) :=
  mem ← next_malloc;
  if (mem : bool) then
    fs ← get w_files;
    set ← of_option (scan_temp_dir id fs);
    if (length (ps_files set) =? 0)%nat then mret None
    else
      job_enter id JOB_VERIFYING;;
      j ← deref id;
      let names := jf_filename <$> j_files j in
      verify_files id set (progress_total set names) 0 names
  else mret None.

Definition par2_repair_job (id : cstr) : M (option cstr) :=
  mem ← next_malloc;
  if (mem : bool) then
    fs ← get w_files;
    set ← of_option (scan_temp_dir id fs);
    if (length (ps_files set) =? 0)%nat then mret (Some ($ "PAR2 repair: no recovery data found"))
    else
      mem ← next_malloc;
      if (mem : bool) then
        j ← deref id;
        let names := jf_filename <$> j_files j in
        let files := (λ name, Par2RepairFile (str_fit 512 name) (job_file_path cfg id name)) <$> names in
        job_enter id JOB_REPAIRING;;
        fs ← get w_files;
        r ← with_progress id (λ cb,
          par2_repair_set md5 writable set files fs
            (Some (Par2Progress 0 (progress_total set names) (Some cb))));
        let '(fs, _, e) := r in
        put (with_content fs);;
        mret (repair_error_text <$> e)
      else mret (Some ($ "PAR2 repair: out of memory"))
  else mret (Some ($ "PAR2 repair: out of memory scanning recovery data")).

(** ** The job *)

(** The first part of [download_job], up to [JOB_DOWNLOADING]: whether to go on. *)
Definition download_prepare (id : cstr) : M bool :=
  reach ← check_server_reachable;
  match reach with
  | Some reach_err => job_fail_or_retry id reach_err;; mret false
  | None =>
    j ← deref id;
    let needed := job_remaining_bytes j in
    let free_bytes := path_free_bytes statfs (job_temp_dir cfg id) in
    if (0 <=? free_bytes) && (free_bytes <? needed) then
      job_fail id ($ "insufficient disk space: " ++ print_dec needed ++ $ " bytes needed, " ++
                   print_dec free_bytes ++ $ " available");;
      mret false
    else
      locked (store id (set_last_error []);; set_job_state id JOB_DOWNLOADING;; save_job id);;
      mret true
  end.

(** One of the two phases of fetching: its files, and whether to go on. *)
Definition download_phase (id : cstr) (volumes : bool) : M bool :=
  mem ← next_malloc;
  if (mem : bool) then
    j ← deref id;
    download_segments id (phase_files volumes (j_files j));;
    dl_should_continue id
  else job_fail id ($ "out of memory");; mret false.

(** [if (app_is_shutting_down() || job_was_cancelled(job)) ...] after a step
    failed, with [job_busy_end] on both ways: whether the job was stopped. *)
Definition end_if_stopped (id : cstr) : M bool :=
  stop ← stop_requested id;
  job_busy_end id;;
  if (stop : bool) then job_mark_stopped id;; mret true else mret false.

(** The part of [download_job] after a failed verification: whether the job is
    to be finalized. *)
Definition download_repair (id : cstr) : M bool :=
  job_enter id JOB_DOWNLOADING;;
  go ← download_phase id true;
  if (go : bool) then
    job_busy_begin id;;
    repair_err ← par2_repair_job id;
    match repair_err with
    | Some err =>
      stopped ← end_if_stopped id;
      if (stopped : bool) then mret false else job_fail id err;; mret false
    | None =>
      verify_err ← par2_verify_job id;
      match verify_err with
      | Some err =>
        stopped ← end_if_stopped id;
        if (stopped : bool) then mret false
        else job_fail id ($ "PAR2 repair completed but re-verification still failed: " ++ err);; mret false
      | None => job_busy_end id;; mret true
      end
    end
  else mret false.

(** From the check that every file is complete on. *)
Definition download_verify (id : cstr) : M bool :=
  j ← deref id;
  match missing_files (j_files j) with
  | [] =>
    job_busy_begin id;;
    verify_err ← par2_verify_job id;
    match verify_err with
    | None => job_busy_end id;; mret true
    | Some _ =>
      stopped ← end_if_stopped id;
      if (stopped : bool) then mret false else download_repair id
    end
  | missing =>
    job_fail_or_retry id (str_fit 300 ($ "one or more files incomplete: " ++ join_detail missing));; mret false
  end.

Definition download_job (id : cstr) : M () :=
  go ← download_prepare id;
  if (go : bool) then
    go ← download_phase id false;
    if (go : bool) then
      ok ← download_verify id;
      if (ok : bool) then finalize_enqueue id else mret ()
    else mret ()
  else mret ().
End download.

(** ** The steps that leave the files alone *)

Section quiet_steps.
Context `{JsonCodec} (cfg : app_config).

Lemma quiet_job_fail id err : quiet id (job_fail id err).
Proof using. unfold job_fail. quiet_tac. Qed.

Lemma quiet_job_enter id s : quiet id (job_enter id s).
Proof using. unfold job_enter. quiet_tac. Qed.

Lemma quiet_fail_or_retry id err : quiet id (job_fail_or_retry cfg id err).
Proof using. unfold job_fail_or_retry. cbv zeta. quiet_tac. Qed.

Lemma quiet_mark_stopped id : quiet id (job_mark_stopped id).
Proof using. apply quiet_job_enter. Qed.

Lemma quiet_end_if_stopped id : quiet id (end_if_stopped id).
Proof using. unfold end_if_stopped. pose proof (quiet_mark_stopped id). quiet_tac. Qed.

Lemma quiet_check_server id : quiet id (check_server_reachable cfg).
Proof using. unfold check_server_reachable. cbv zeta. quiet_tac. Qed.

Lemma quiet_checkpoint id : quiet id (write_checkpoint id).
Proof using. unfold write_checkpoint. quiet_tac. Qed.

Lemma quiet_dispatch_segments id segs : quiet id (dispatch_segments id segs).
Proof using. induction segs as [|s segs IH]; cbn [dispatch_segments]; quiet_tac. Qed.

Lemma quiet_dispatch_files id files : quiet id (dispatch_files id files).
Proof using.
  induction files as [|jf files IH]; cbn [dispatch_files]; [quiet_tac|].
  pose proof (quiet_dispatch_segments id (jf_segments jf)). quiet_tac.
Qed.
End quiet_steps.

#[export] Hint Resolve quiet_job_fail quiet_job_enter quiet_fail_or_retry quiet_mark_stopped
  quiet_end_if_stopped quiet_check_server quiet_checkpoint quiet_dispatch_segments quiet_dispatch_files : quiet.

Lemma run_job_enter `{JsonCodec} id st w w1 j :
  tick w = Some ((), w1) → lookup_job (w_queue w1) id = Some j →
  ∃ w', job_enter id st w = Some ((), w') ∧ lookup_job (w_queue w') id = Some (set_state st j) ∧ same_rest w1 w'.
Proof.
  intros Ht Hj. unfold job_enter, locked. destruct (run_set_job_state id st w1 j Hj) as (w2 & Hs & Hj2 & Hr2).
  destruct (run_save_job id w2 _ Hj2) as (w3 & Hv & Hq & Hr3). exists w3.
  rewrite (run_bind _ _ _ _ _ Ht), (run_bind _ _ _ _ _ Hs), Hq. split; [done|]. split; [done|by etrans].
Qed.

(** ** What a verified job is *)

(** Every file outside the recovery volumes has all its segments. *)
Definition complete (fl : list job_file) : Prop :=
  ∀ jf, jf ∈ fl → job_file_is_par2_volume (jf_filename jf) = false →
    Forall (λ s, sg_downloaded s = true) (jf_segments jf).

Definition named (names : list cstr) (fl : list job_file) : Prop := jf_filename <$> fl = names.

Definition whole (names : list cstr) (fl : list job_file) : Prop := named names fl ∧ complete fl.

Lemma missing_nil_complete fl : missing_files fl = [] → complete fl.
Proof.
  unfold missing_files, complete. induction fl as [|f fl IH]; intros Hm jf Hin; [by apply elem_of_nil in Hin|].
  cbn [omap list_omap] in Hm. apply elem_of_cons in Hin as [->|Hin].
  - intros Hv. rewrite Hv in Hm. unfold file_missing in Hm. cbv zeta in Hm.
    destruct (Nat.ltb_spec (length (filter (λ s, sg_downloaded s = true) (jf_segments f))) (length (jf_segments f)));
      [done|]. apply Forall_forall. intros s Hs. clear - H Hs.
    revert Hs H. generalize (jf_segments f) as segs. intros segs. induction segs as [|s' segs IH]; intros Hs Hlen;
      [by apply elem_of_nil in Hs|]. rewrite filter_cons in Hlen.
    pose proof (length_filter (λ s, sg_downloaded s = true) segs).
    destruct (decide (sg_downloaded s' = true)); cbn in Hlen; [|lia].
    apply elem_of_cons in Hs as [->|Hs]; [done|]. apply IH; [done|lia].
  - apply IH; [|done]. destruct (job_file_is_par2_volume (jf_filename f)); [done|].
    by destruct (file_missing f).
Qed.

(** Marking segments keeps both. *)
Lemma mark_first_downloaded segs m segs' :
  mark_first segs m = Some segs' → Forall (λ s, sg_downloaded s = true) segs →
  Forall (λ s, sg_downloaded s = true) segs'.
Proof.
  revert segs'. induction segs as [|s segs IH]; intros segs' Hm Hall; [done|]. cbn [mark_first] in Hm.
  apply Forall_cons in Hall as [Hs Hall]. case_decide; simplify_eq.
  - by apply Forall_cons_2.
  - apply fmap_Some in Hm as (segs1 & Hm & ->). apply Forall_cons_2; [done|]. by apply IH.
Qed.

Lemma mark_in_files_keeps fl m fl' :
  mark_in_files fl m = Some fl' →
  jf_filename <$> fl' = jf_filename <$> fl ∧ (complete fl → complete fl').
Proof.
  revert fl'. induction fl as [|f fl IH]; intros fl' Hm; [done|]. cbn [mark_in_files] in Hm.
  destruct (mark_first (jf_segments f) m) as [segs|] eqn:Hs; simplify_eq.
  - split; [done|]. intros Hc jf [->|Hin]%elem_of_cons Hv.
    + cbn in *. eapply mark_first_downloaded; [exact Hs|]. apply Hc; [apply list_elem_of_here|done].
    + apply Hc; [by apply list_elem_of_further|done].
  - apply fmap_Some in Hm as (fl1 & Hm & ->). destruct (IH _ Hm) as [Hn Hc]. split; [by cbn; rewrite Hn|].
    intros Hall jf [->|Hin]%elem_of_cons Hv; [apply Hall; [apply list_elem_of_here|done]|].
    apply Hc; [|done|done]. intros jf' Hjf'. apply Hall. by apply list_elem_of_further.
Qed.

(** A property of the files that a finished segment cannot break. *)
Definition marks_keep (P : list job_file → Prop) : Prop :=
  ∀ fl m fl', mark_in_files fl m = Some fl' → P fl → P fl'.

Lemma named_marks names : marks_keep (named names).
Proof. intros fl m fl' Hm. unfold named. by rewrite (proj1 (mark_in_files_keeps _ _ _ Hm)). Qed.

Lemma complete_marks names : marks_keep (whole names).
Proof.
  intros fl m fl' Hm [Hn Hc]. destruct (mark_in_files_keeps _ _ _ Hm) as [Hn' Hc'].
  split; [unfold named in *; congruence|auto].
Qed.

Section verified.
Context `{JsonCodec}.
Context (cfg : app_config).
Context (md5 : list byte → list byte) (qsort_slices : list par2_slice → list par2_slice).
Context (list_dir : file_system → cstr → list cstr) (writable : cstr → bool).
Context (statfs : cstr → option (Z * Z)) (fuel : nat).

(** The files after the shrink-only fixups. *)
Definition trim_all (id : cstr) (set : par2_set) (fs : file_system) (names : list cstr) : file_system :=
  foldl (λ fs name, match par2_find_file set name with
                    | Some pf => trim_to_declared writable (job_file_path cfg id name) pf fs
                    | None => fs
                    end) fs names.

Definition digests_ok (id : cstr) (set : par2_set) (fs : file_system) (names : list cstr) : Prop :=
  ∀ name pf, name ∈ names → par2_find_file set name = Some pf →
    ∃ data, fs !! job_file_path cfg id name = Some data ∧ md5 data = pf_hash_full pf.

(** The job's files are those the recovery set found in its directory describes. *)
Definition verified (id : cstr) (names : list cstr) (fs : file_system) : Prop :=
  ∃ fs0 set, scan_temp_dir cfg md5 qsort_slices list_dir fuel id fs0 = Some set ∧
    fs = trim_all id set fs0 names ∧ digests_ok id set fs names.

Lemma trim_all_other id set fs names path :
  path ∉ job_file_path cfg id <$> names → trim_all id set fs names !! path = fs !! path.
Proof using.
  unfold trim_all. induction names as [|name names IH] in fs |- *; [done|]. cbn [foldl fmap list_fmap].
  rewrite not_elem_of_cons. intros [Hne Hin]. rewrite IH by done.
  destruct (par2_find_file set name) as [pf|]; [|done]. unfold trim_to_declared.
  destruct (fs !! job_file_path cfg id name); [|done]. destruct (_ && _); [|done].
  by rewrite lookup_insert_ne.
Qed.

Lemma trim_all_none id set fs names :
  (∀ name, par2_find_file set name = None) → trim_all id set fs names = fs.
Proof using.
  intros Hn. unfold trim_all. induction names as [|n names IH] in fs |- *; [done|]. cbn [foldl].
  by rewrite Hn.
Qed.

Lemma put_files_job_at id P F w : job_at id P w → job_at id P (with_content F w).
Proof using. intros [[] ? ? ?]. by constructor. Qed.

Lemma verify_files_ok id P set total names bytes_done w :
  job_at id P w → NoDup (job_file_path cfg id <$> names) →
  wp (verify_files cfg md5 writable id set total bytes_done names)
    (λ r w', job_at id P w' ∧ w_fq w' = w_fq w ∧
      (r = None → w_files w' = trim_all id set (w_files w) names ∧ digests_ok id set (w_files w') names)) w.
Proof using.
  induction names as [|name names IH] in bytes_done, w |- *; intros Hw Hnd; cbn [verify_files].
  { apply wp_ret. split; [done|]. split; [done|]. intros _. split; [done|].
    intros name pf Hn. by apply elem_of_nil in Hn. }
  cbn [fmap list_fmap] in Hnd. apply NoDup_cons in Hnd as [Hni Hnd].
  destruct (par2_find_file set name) as [pf|] eqn:Hpf.
  2:{ eapply wp_mono; [|by apply IH]. intros r w' (Hw' & Hq & Hr). split; [done|]. split; [done|].
      intros Hn. destruct (Hr Hn) as [Ht Hd]. unfold trim_all. cbn [foldl]. rewrite Hpf. split; [done|].
      intros n pf' [->|Hin]%elem_of_cons Hp; [congruence|by apply (Hd n pf')]. }
  set (F := trim_to_declared writable (job_file_path cfg id name) pf (w_files w)).
  apply wp_bind. unfold wp at 1, put. fold F. apply wp_bind. unfold wp at 1, get. cbn [w_files with_content].
  apply wp_bind. eapply wp_mono; [|by apply (wp_with_progress id id P), put_files_job_at].
  intros r w1 ([cb ->] & Hw1 & Hf1 & Hq1). cbn [w_files with_content w_fq] in Hf1, Hq1.
  destruct (par2_verify_file _ _ _ _ _) as [[report pg]|] eqn:Hv;
    [|apply wp_ret; split; [done|]; split; [done|]; by intros [=]].
  destruct (vr_result report) eqn:Hres; [|apply wp_ret; split; [done|]; split; [done|]; by intros [=]..].
  destruct (par2_verify_ok _ _ _ _ _ _ _ Hv Hres) as (data & Hdata & Hmd5).
  eapply wp_mono; [|by apply IH]. intros r w2 (Hw2 & Hq2 & Hr). split; [done|]. split; [congruence|].
  intros Hn. destruct (Hr Hn) as [Ht Hd]. rewrite Hf1 in Ht. unfold trim_all. cbn [foldl]. rewrite Hpf.
  split; [done|]. intros n pf' [->|Hin]%elem_of_cons Hp; [|by apply (Hd n pf')].
  simplify_eq. exists data. split; [|done]. by rewrite Ht, trim_all_other by done.
Qed.

Lemma par2_verify_job_ok id P names w :
  (∀ fl, P fl → named names fl) →
  job_at id P w → NoDup (job_file_path cfg id <$> names) →
  wp (par2_verify_job cfg md5 qsort_slices list_dir writable fuel id)
    (λ r w', job_at id P w' ∧ w_fq w' = w_fq w ∧ (r = None → verified id names (w_files w'))) w.
Proof using.
  intros HP Hw Hnd. unfold par2_verify_job. eapply wp_malloc; [done|]. intros w1 Hw1 [Hf1 Hq1].
  apply wp_bind. unfold wp at 1, get. apply wp_bind. unfold of_option.
  destruct (scan_temp_dir _ _ _ _ _ _ _) as [set|] eqn:Hscan; [|done]. apply wp_ret.
  destruct (Nat.eqb_spec (length (ps_files set)) 0) as [H0|_].
  - apply wp_ret. split; [done|]. split; [done|]. intros _. apply nil_length_inv in H0.
    assert (∀ name, par2_find_file set name = None) as Hnone by (intros; unfold par2_find_file; by rewrite H0).
    exists (w_files w1), set. split; [done|]. split.
    + by rewrite trim_all_none.
    + intros n pf _ Hp. by rewrite Hnone in Hp.
  - apply wp_bind. eapply wp_mono; [|by apply (quiet_job_enter id JOB_VERIFYING P)].
    intros _ w2 [Hw2 [Hf2 Hq2]]. apply wp_bind. eapply wp_mono; [|by apply wp_deref].
    intros j w2' (-> & HPj & _). cbv zeta. rewrite (HP _ HPj).
    eapply wp_mono; [|by apply verify_files_ok]. intros r w3 (Hw3 & Hq3 & Hr).
    split; [done|]. split; [congruence|]. intros Hn. destruct (Hr Hn) as [Ht Hd].
    exists (w_files w1), set. split; [done|]. split; [congruence|done].
Qed.

(** ** Fetching keeps what is known of the files *)

Lemma wp_segment_done id f m P w :
  marks_keep P → job_at id P w →
  wp (segment_done id f m) (λ _ w', job_at id P w' ∧ same_data w w') w.
Proof using.
  intros HP Hw. unfold segment_done. destruct (ft_ok f m); [|by apply wp_ret].
  apply wp_bind. unfold locked. apply wp_bind. eapply wp_mono; [|by apply (quiet_tick id P)].
  intros _ w1 [Hw1 [Hf1 Hq1]]. eapply wp_mono; [|apply (wp_store id); [|done]].
  2:{ intros j. unfold job_mark_segment_downloaded. destruct (mark_in_files (j_files j) m) eqn:Hm; cbn; [|done].
      split; [done|]. split; [done|]. by apply (HP _ m). }
  intros _ w2 [Hw2 Hd2]. assert (same_data w w2) as Hd by (etrans; [by split|exact Hd2]).
  destruct (ft_checkpoint f m); [|by apply wp_ret].
  eapply wp_mono; [|by apply (quiet_checkpoint id P)]. intros _ w3 [Hw3 Hd3]. split; [done|by etrans].
Qed.

Lemma wp_segments_done id f sent P w :
  marks_keep P → job_at id P w →
  wp (segments_done id f sent) (λ _ w', job_at id P w' ∧ same_data w w') w.
Proof using.
  intros HP. induction sent as [|m sent IH] in w |- *; intros Hw; cbn [segments_done]; [by apply wp_ret|].
  apply wp_bind. eapply wp_mono; [|by apply wp_segment_done]. intros _ w1 [Hw1 Hd1].
  eapply wp_mono; [|by apply IH]. intros _ w2 [Hw2 Hd2]. split; [done|by etrans].
Qed.

(** After fetching, the finalizer's queue is as it was. *)
Lemma wp_download_phase id volumes P w :
  marks_keep P → job_at id P w →
  wp (download_phase id volumes) (λ _ w', job_at id P w' ∧ w_fq w' = w_fq w) w.
Proof using.
  intros HP Hw. unfold download_phase. eapply wp_malloc; [done|]. intros w1 Hw1 [_ Hq1].
  apply wp_bind. eapply wp_mono; [|by apply wp_deref]. intros j w1' (-> & _ & _).
  apply wp_bind. eapply (wp_mono _ (λ _ w', job_at id P w' ∧ w_fq w' = w_fq w)).
  { intros _ w2 [Hw2 Hq2]. eapply wp_mono; [|by apply (quiet_should_continue id id P)].
    intros b w3 [Hw3 [_ Hq3]]. split; [done|congruence]. }
  unfold download_segments. eapply wp_malloc; [done|]. intros w2 Hw2 [_ Hq2].
  apply wp_bind. eapply wp_mono; [|by apply (quiet_dispatch_files id _ P)]. intros sent w3 [Hw3 [_ Hq3]].
  apply wp_bind. eapply wp_mono; [|by apply (quiet_next_fetches id P)]. intros f w4 [Hw4 [_ Hq4]].
  apply wp_bind. unfold wp at 1, put. eapply wp_mono; [|by apply (wp_segments_done id f sent P), put_files_job_at].
  intros _ w5 [Hw5 [_ Hq5]]. split; [done|]. cbn [w_fq with_content] in Hq5. congruence.
Qed.

Lemma wp_par2_repair id P w :
  job_at id P w →
  wp (par2_repair_job cfg md5 qsort_slices list_dir writable fuel id)
    (λ _ w', job_at id P w' ∧ w_fq w' = w_fq w) w.
Proof using.
  intros Hw. unfold par2_repair_job. eapply wp_malloc; [done|]. intros w1 Hw1 [_ Hq1].
  apply wp_bind. unfold wp at 1, get. apply wp_bind. unfold of_option.
  destruct (scan_temp_dir _ _ _ _ _ _ _) as [set|]; [|done]. apply wp_ret.
  destruct (length (ps_files set) =? 0)%nat; [by apply wp_ret|].
  eapply wp_malloc; [done|]. intros w2 Hw2 [_ Hq2].
  apply wp_bind. eapply wp_mono; [|by apply wp_deref]. intros j w2' (-> & _ & _). cbv zeta.
  apply wp_bind. eapply wp_mono; [|by apply (quiet_job_enter id JOB_REPAIRING P)]. intros _ w3 [Hw3 [_ Hq3]].
  apply wp_bind. unfold wp at 1, get.
  apply wp_bind. eapply wp_mono; [|by apply (quiet_with_progress id id _ P)]. intros [[fs pg] e] w4 [Hw4 [_ Hq4]].
  apply wp_bind. unfold wp at 1, put. apply wp_ret. split; [by apply put_files_job_at|].
  cbn [w_fq with_content]. congruence.
Qed.

(** A step that decides whether the job goes to the finalizer. *)
Definition decides (id : cstr) (names : list cstr) (w : world) (go : bool) (w' : world) : Prop :=
  job_at id (whole names) w' ∧ w_fq w' = w_fq w ∧
  (go = true → verified id names (w_files w')).

Lemma wp_give_up {A} id names (m : M A) w :
  quiet id m → job_at id (whole names) w →
  wp (m;; mret false) (decides id names w) w.
Proof using.
  intros Hm Hw. apply wp_bind. eapply wp_mono; [|by apply Hm]. intros _ w1 [Hw1 [_ Hq1]].
  by apply wp_ret.
Qed.

Lemma decides_fq id names w w' go w'' :
  w_fq w' = w_fq w → decides id names w' go w'' → decides id names w go w''.
Proof using. intros Hq (? & ? & ?). split; [done|]. split; [congruence|done]. Qed.

(** After a failed step: the job is stopped, or [m] says what happens. *)
Lemma wp_end_if_stopped id names (m : M bool) w :
  job_at id (whole names) w →
  (∀ w', job_at id (whole names) w' → wp m (decides id names w') w') →
  wp (stopped ← end_if_stopped id; if (stopped : bool) then mret false else m) (decides id names w) w.
Proof using.
  intros Hw Hm. apply wp_bind. eapply wp_mono; [|by apply (quiet_end_if_stopped id)].
  intros stopped w1 [Hw1 [_ Hq1]]. destruct stopped; [by apply wp_ret|].
  eapply wp_mono; [|by apply Hm]. intros go w2. by apply decides_fq.
Qed.

Lemma wp_finish id names w :
  job_at id (whole names) w → verified id names (w_files w) →
  wp (job_busy_end id;; mret true) (decides id names w) w.
Proof using.
  intros Hw Hv. apply wp_bind. eapply wp_mono; [|by apply (quiet_busy_end id)].
  intros _ w1 [Hw1 [Hf1 Hq1]]. apply wp_ret. split; [done|]. split; [done|]. intros _. by rewrite Hf1.
Qed.

Lemma wp_download_repair id names w :
  NoDup (job_file_path cfg id <$> names) → job_at id (whole names) w →
  wp (download_repair cfg md5 qsort_slices list_dir writable fuel id) (decides id names w) w.
Proof using.
  intros Hnd Hw. unfold download_repair.
  apply wp_bind. eapply wp_mono; [|by apply (quiet_job_enter id JOB_DOWNLOADING (whole names))]. intros _ w1 [Hw1 [_ Hq1]].
  apply wp_bind. eapply wp_mono; [|by apply (wp_download_phase id true (whole names)); [apply complete_marks|]].
  intros go w2 [Hw2 Hq2]. destruct go; [|by apply wp_ret; split; [done|]; split; [congruence|]].
  apply wp_bind. eapply wp_mono; [|by apply (quiet_busy_begin id)]. intros _ w3 [Hw3 [_ Hq3]].
  apply wp_bind. eapply wp_mono; [|by apply wp_par2_repair]. intros e w4 [Hw4 Hq4].
  destruct e as [err|].
  { eapply wp_mono; [intros go w'; apply (decides_fq id names w w4); congruence|].
    apply wp_end_if_stopped; [done|]. intros w' Hw'. apply wp_give_up; [|done]. auto with quiet. }
  apply wp_bind. eapply wp_mono; [|by apply (par2_verify_job_ok id (whole names) names); [intros fl [? _]|..]].
  intros e w5 (Hw5 & Hq5 & Hv).
  eapply wp_mono; [intros go w'; apply (decides_fq id names w w5); congruence|]. destruct e as [err|].
  - apply wp_end_if_stopped; [done|]. intros w' Hw'. apply wp_give_up; [|done]. auto with quiet.
  - apply wp_finish; auto.
Qed.

Lemma wp_download_verify id names w :
  NoDup (job_file_path cfg id <$> names) → job_at id (named names) w →
  wp (download_verify cfg md5 qsort_slices list_dir writable fuel id)
    (λ go w', w_fq w' = w_fq w ∧ (go = true → decides id names w true w')) w.
Proof using.
  intros Hnd Hw. unfold download_verify. apply wp_bind. eapply wp_mono; [|by apply wp_deref].
  intros j w' (-> & Hn & Hl). destruct (missing_files (j_files j)) as [|m ms] eqn:Hm.
  2:{ apply wp_bind. eapply wp_mono; [|by apply (quiet_fail_or_retry cfg id _ (named names))].
      intros _ w1 [_ [_ Hq1]]. by apply wp_ret. }
  assert (job_at id (whole names) w) as Hw'.
  { eapply job_at_seen; [done..|]. split; [done|]. by apply missing_nil_complete. }
  eapply (wp_mono _ (decides id names w)).
  { intros go w'. destruct go; [|by intros (_ & ? & _)]. intros Hd. split; [apply Hd|done]. }
  apply wp_bind. eapply wp_mono; [|by apply (quiet_busy_begin id)]. intros _ w1 [Hw1 [_ Hq1]].
  apply wp_bind. eapply wp_mono; [|by apply (par2_verify_job_ok id (whole names) names); [intros fl [? _]|..]].
  intros e w2 (Hw2 & Hq2 & Hv).
  eapply wp_mono; [intros go w'; apply (decides_fq id names w w2); congruence|]. destruct e as [err|].
  - apply wp_end_if_stopped; [done|]. intros w' Hw3. by apply wp_download_repair.
  - apply wp_finish; auto.
Qed.

Lemma wp_download_prepare id P w :
  job_at id P w →
  wp (download_prepare cfg statfs id) (λ _ w', job_at id P w' ∧ w_fq w' = w_fq w) w.
Proof using.
  intros Hw. eapply wp_mono; [|apply (λ Hq : quiet id _, Hq P w Hw)].
  - by intros b w' [? [_ ?]].
  - unfold download_prepare, locked. pose proof (quiet_check_server cfg id). pose proof (quiet_job_fail id).
    pose proof (quiet_fail_or_retry cfg id). quiet_tac.
Qed.
End verified.

(** C4: What a job brings to the finalizer. Whatever the other threads do
    meanwhile, whatever the server, the disk and the repair do: a run of
    [download_job] that hands the job over leaves the finalizer's queue with this
    job behind the others, every file but the recovery volumes with all its
    segments fetched, and every file that the job's PAR2 set names on disk with
    the digest the set declares for it. *)
Theorem download_hands_over_verified {codec : JsonCodec} (cfg : app_config)
    (md5 : list byte → list byte) (qsort_slices : list par2_slice → list par2_slice)
    (list_dir : file_system → cstr → list cstr) (writable : cstr → bool)
    (statfs : cstr → option (Z * Z)) (fuel : nat) (id : cstr) (names : list cstr) (w w' : world)
    (Hw : job_at id (named names) w) (Hnd : NoDup (job_file_path cfg id <$> names))
    (Hrun : download_job cfg md5 qsort_slices list_dir writable statfs fuel id w = Some ((), w')) :
  w_fq w' = w_fq w ∨
  (w_fq w' = w_fq w ++ [id] ∧ job_at id (whole names) w' ∧
   verified cfg md5 qsort_slices list_dir writable fuel id names (w_files w')).
Proof.
  refine (wp_result _ (λ _ w', w_fq w' = w_fq w ∨ _) w () w' _ Hrun). clear Hrun w'. unfold download_job.
  apply wp_bind. eapply wp_mono; [|by apply wp_download_prepare]. intros go w1 [Hw1 Hq1].
  destruct go; [|by apply wp_ret; left].
  apply wp_bind. eapply wp_mono; [|by apply (wp_download_phase id false (named names)); [apply named_marks|]].
  intros go w2 [Hw2 Hq2]. destruct go; [|apply wp_ret; left; congruence].
  apply wp_bind. eapply wp_mono; [|by apply (wp_download_verify cfg md5 qsort_slices list_dir writable fuel id names)].
  intros ok w3 [Hq3 Hok]. destruct ok; [|apply wp_ret; left; congruence].
  destruct (Hok eq_refl) as (Hw3 & _ & Hv). unfold finalize_enqueue.
  eapply wp_malloc; [done|]. intros w4 Hw4 [Hf4 Hq4]. unfold wp, put. right. cbn.
  split; [congruence|]. split; [destruct Hw4 as [[] ? ? ?]; by constructor|]. rewrite Hf4. by apply Hv.
Qed.

(** A job of one file of one segment, alone in the queue. *)
Definition one_job : job :=
  Job ($ "0a1b2c") ($ "show") JOB_QUEUED false 0 0 [] 0 [] [] false false [] false [] false
    [JobFile ($ "a.bin") ($ "subj") 3 [JobSegment ($ "m@x") 3 1 false]].

Definition no_inputs : inputs := Inputs [] [] [] [] [] [] [].

Definition one_world (script : list batch) : world :=
  World (Queue ($ "/q") [one_job]) ∅ ∅ false [] [] [$ "0a1b2c"] script no_inputs.

Lemma one_world_at script : job_at ($ "0a1b2c") (named [$ "a.bin"]) (one_world script).
Proof.
  constructor; cbn.
  - constructor; cbn.
    + constructor; cbn; [repeat constructor|apply NoDup_singleton|apply Forall_singleton; lia].
    + intros x Hx. by apply list_elem_of_singleton in Hx as ->; apply list_elem_of_singleton.
  - by apply list_elem_of_singleton.
  - by intros j ->%list_elem_of_singleton _.
  - done.
Qed.

#[local] Abbreviation run_one codec script :=
  (download_job (H := codec) app_config_set_defaults toy_md5 (λ l, l) (λ _ _, []) (λ _, true)
    (λ _, None) 1 ($ "0a1b2c") (one_world script)).

Lemma run_one_enqueues (codec : JsonCodec) :
  (λ r, w_fq (snd r)) <$> run_one codec [] = Some [$ "0a1b2c"].
Proof. reflexivity. Qed.

Lemma download_hands_over_verified_witness :
  match run_one toy_codec [] with
  | Some (_, w') =>
    w_fq w' = [$ "0a1b2c"] ∧ job_at ($ "0a1b2c") (whole [$ "a.bin"]) w' ∧
    verified app_config_set_defaults toy_md5 (λ l, l) (λ _ _, []) (λ _, true) 1 ($ "0a1b2c") [$ "a.bin"]
      (w_files w')
  | None => False
  end.
Proof.
  pose proof (run_one_enqueues toy_codec) as Hfq.
  destruct (run_one toy_codec []) as [[[] w']|] eqn:Hrun; [|discriminate Hfq].
  injection Hfq as Hfq.
  destruct (download_hands_over_verified (codec := toy_codec) app_config_set_defaults toy_md5 (λ l, l)
    (λ _ _, []) (λ _, true) (λ _, None) 1 ($ "0a1b2c") [$ "a.bin"] (one_world []) w' (one_world_at [])
    (NoDup_singleton _) Hrun) as [H|H]; [|exact H].
  rewrite Hfq in H. discriminate H.
Defined.
