(* ===== verification/Output.v ===== *)
(** * What a job leaves ([download/download.c], [storage/shadowmount.c])

    The directory a job's output goes to, the searches of that directory for an
    NFO file, for packages and for a title to mount, and the files that are not
    output. Directory trees are those of [Paths]: an entry whose path does not
    fit the buffer it is printed into is one [stat] does not find. *)

From Stdlib Require Import ZArith Lia List.
From Stdlib Require Import Strings.Byte Strings.String.
From stdpp Require Import base list gmap.
From S2P Require Import Prelude Config Paths Job.

(** ** The output directory *)

Definition job_output_subdir (j : job) : cstr :=
  let name := str_fit 256 (j_name j) in
  let name := if (4 <? length name)%nat && has_suffix_ci name ($ ".nzb")
              then take (length name - 4) name else name in
  str_fit 300 (path_sanitize_component name 256).

(** Empty when no output directory is configured. *)
Definition job_output_dest_dir (cfg : app_config) (j : job) : cstr :=
  let output_dir := str_fit 512 (if decide (j_output_dir j = []) then sc_output_dir (ac_storage cfg)
                                 else j_output_dir j) in
  if decide (output_dir = []) then [] else str_fit 900 (output_dir ++ $ "/" ++ job_output_subdir j).

Definition is_sidecar_file (name : cstr) : bool :=
  existsb (has_suffix_ci name) [$ ".par2"; $ ".rar"; $ ".r00"; $ ".7z"; $ ".zip"].

(** ** Directory searches *)

Definition has_nfo_suffix (name : cstr) : bool := (4 <? length name)%nat && has_suffix_ci name ($ ".nfo").
Definition has_pkg_suffix (name : cstr) : bool := (4 <? length name)%nat && has_suffix_ci name ($ ".pkg").

Definition NFO_SEARCH_MAX_DEPTH : nat := 3.
Definition PKG_SEARCH_MAX_DEPTH : nat := 3.

(** The entries of a directory [stat] answers for, with their paths. *)
Definition stat_entries (size : nat) (dir : cstr) (entries : list (cstr * node))
    : list (cstr * cstr * node) :=
  omap (λ '(name, n),
    let child := dir ++ $ "/" ++ name in
    if bool_decide (name = $ ".") || bool_decide (name = $ "..") || (size <=? length child)%nat then None
    else Some (child, name, n)) entries.

Definition is_file (n : node) : bool := match n with NFile _ => true | _ => false end.
Definition is_dir (n : node) : bool := match n with NDir _ => true | _ => false end.

(** The first entry [f] finds something for. *)
Fixpoint first_some {A B} (f : A → option B) (l : list A) : option B :=
  match l with
  | [] => None
  | x :: l => match f x with Some y => Some y | None => first_some f l end
  end.

Fixpoint find_nfo_recursive (depth : nat) (dir : cstr) (n : node) : option cstr :=
  match depth, n with
  | S depth', NDir entries =>
    let ents := stat_entries 900 dir entries in
    match first_some (λ '(child, name, n), if is_file n && has_nfo_suffix name then Some child else None) ents with
    | Some child => Some child
    | None =>
      if (1 <? depth)%nat then
        first_some (λ '(child, _, n), if is_dir n then find_nfo_recursive depth' child n else None) ents
      else None
    end
  | _, _ => None
  end.

(** The job with the packages found added; the loop ends when it is full. *)
Fixpoint find_pkgs_recursive (depth : nat) (dir : cstr) (n : node) (j : job) : job :=
  match depth, n with
  | S depth', NDir entries =>
    foldl (λ j '(child, name, n),
      if (length (j_pkg_paths j) <? JOB_MAX_PKGS)%nat then
        if is_file n && has_pkg_suffix name then job_add_pkg_path j child
        else if is_dir n && (1 <? depth)%nat then find_pkgs_recursive depth' child n j
        else j
      else j) j (stat_entries 900 dir entries)
  | _, _ => j
  end.

Definition set_nfo (path : cstr) (checked : bool) (j : job) : job :=
  Job (j_id j) (j_name j) (j_state j) (j_busy j) (j_priority j) (j_retries_used j) (j_last_error j)
    (j_final_bytes j) (j_passwords j) (j_output_dir j) (j_add_to_shadowmount j)
    (j_auto_install_pkgs j) path checked (j_pkg_paths j) (j_pkg_checked j) (j_files j).

Definition set_pkg_checked (j : job) : job :=
  Job (j_id j) (j_name j) (j_state j) (j_busy j) (j_priority j) (j_retries_used j) (j_last_error j)
    (j_final_bytes j) (j_passwords j) (j_output_dir j) (j_add_to_shadowmount j)
    (j_auto_install_pkgs j) (j_nfo_path j) (j_nfo_checked j) (j_pkg_paths j) true (j_files j).

(** [tree] is what is on disk at a path. *)
Definition job_ensure_nfo_scanned (cfg : app_config) (tree : cstr → node) (j : job) : job :=
  if negb (bool_decide (j_state j = JOB_COMPLETED)) then j
  else if negb (bool_decide (j_nfo_path j = [])) || j_nfo_checked j then j
  else
    let dest_dir := job_output_dest_dir cfg j in
    set_nfo (if decide (dest_dir = []) then j_nfo_path j
             else default (j_nfo_path j) (find_nfo_recursive NFO_SEARCH_MAX_DEPTH dest_dir (tree dest_dir))) true j.

Definition job_ensure_pkg_scanned (cfg : app_config) (tree : cstr → node) (j : job) : job :=
  if negb (bool_decide (j_state j = JOB_COMPLETED)) then j
  else if (0 <? length (j_pkg_paths j))%nat || j_pkg_checked j then j
  else
    let dest_dir := job_output_dest_dir cfg j in
    set_pkg_checked (if decide (dest_dir = []) then j
                     else find_pkgs_recursive PKG_SEARCH_MAX_DEPTH dest_dir (tree dest_dir) j).

(** ** ShadowMount *)

Definition MANUAL_LST_DIR : cstr := $ "/data/shadowmount".
Definition MANUAL_LST_PATH : cstr := $ "/data/shadowmount/manual.lst".

Definition is_shadowmount_image (name : cstr) : bool :=
  existsb (has_suffix_ci name) [$ ".ffpkg"; $ ".exfat"; $ ".ffpfs"; $ ".ffpfsc"].

Definition entry (name : cstr) (n : node) : option node :=
  match n with
  | NDir entries => snd <$> (list_find (λ e, e.1 = name) entries ≫= λ p, Some p.2)
  | _ => None
  end.

Definition has_param_json (dir : cstr) (n : node) : bool :=
  (length (dir ++ $ "/sce_sys/param.json") <? 1200)%nat &&
  match entry ($ "sce_sys") n ≫= entry ($ "param.json") with
  | Some (NFile _) => true
  | _ => false
  end.

(** The loops over one directory, then over its subdirectories. *)
Fixpoint find_shadowmount_target (dir : cstr) (n : node) : option cstr :=
  if has_param_json dir n then Some (str_fit 1200 dir)
  else
    match n with
    | NDir entries =>
      match first_some (λ '(child, name, n), if is_file n && is_shadowmount_image name then Some child else None)
              (stat_entries 1200 dir entries) with
      | Some child => Some child
      | None =>
        (fix go (es : list (cstr * node)) : option cstr :=
           match es with
           | [] => None
           | (name, sub) :: es =>
             if bool_decide (name = $ ".") || bool_decide (name = $ "..") ||
                (1200 <=? length (dir ++ $ "/" ++ name))%nat || negb (is_dir sub) then go es
             else match find_shadowmount_target (dir ++ $ "/" ++ name) sub with
                  | Some p => Some p
                  | None => go es
                  end
           end) entries
      end
    | _ => None
    end.

(** The list it leaves; [mkdir_ok] and [fopen_ok] are the outcomes of the calls. *)
Definition shadowmount_register (mkdir_ok fopen_ok : bool) (tree : cstr → node) (dest_dir : cstr)
    (fs : file_system) : file_system :=
  match find_shadowmount_target dest_dir (tree dest_dir) with
  | None => fs
  | Some m =>
    if mkdir_ok && fopen_ok
    then <[MANUAL_LST_PATH := default [] (fs !! MANUAL_LST_PATH) ++ m ++ [x0a]]> fs
    else fs
  end.

(** ** The searches and what they look for *)

(** The file at [path] is below [dir] and within [depth] directories; every
    component is one [stat] answers for. *)
Inductive below (size : nat) : nat → cstr → node → cstr → cstr → Prop :=
  | below_here depth dir entries child name k :
      (child, name, NFile k) ∈ stat_entries size dir entries →
      below size (S depth) dir (NDir entries) child name
  | below_sub depth dir entries sub child name n path :
      (child, name, n) ∈ stat_entries size dir entries → is_dir n = true →
      below size depth child n path sub →
      below size (S depth) dir (NDir entries) path sub.

Lemma first_some_Some {A B} (f : A → option B) l y :
  first_some f l = Some y → ∃ x, x ∈ l ∧ f x = Some y.
Proof.
  induction l as [|x l IH]; [done|]. cbn. destruct (f x) eqn:E; intros ?; simplify_eq.
  - exists x. split; [apply list_elem_of_here|done].
  - destruct IH as (x' & ? & ?); [done|]. exists x'. split; [by apply list_elem_of_further|done].
Qed.

Lemma first_some_None {A B} (f : A → option B) l : first_some f l = None ↔ ∀ x, x ∈ l → f x = None.
Proof.
  induction l as [|x l IH]; cbn.
  - split; [|done]. intros _ x Hx. by apply elem_of_nil in Hx.
  - destruct (f x) eqn:E.
    + split; [done|]. intros Hall. rewrite <- E. apply Hall, list_elem_of_here.
    + rewrite IH. split.
      * intros Hall y [->|Hy]%elem_of_cons; auto.
      * intros Hall y Hy. apply Hall. by apply list_elem_of_further.
Qed.

Lemma find_nfo_sound depth dir n path :
  find_nfo_recursive depth dir n = Some path →
  ∃ name, below 900 depth dir n path name ∧ has_nfo_suffix name = true.
Proof.
  induction depth as [|depth IH] in dir, n |- *; [done|]. destruct n as [|entries|]; [done| |done].
  cbn [find_nfo_recursive]. cbv zeta. destruct (first_some _ _) as [c|] eqn:Hf; intros Hr.
  - simplify_eq. apply first_some_Some in Hf as ([[child name] n] & Hin & Hc).
    destruct n as [k| |]; cbn in Hc; [|done..]. destruct (has_nfo_suffix name) eqn:Hn; [|done]. simplify_eq.
    exists name. split; [by eapply below_here|done].
  - destruct (1 <? S depth)%nat; [|done]. apply first_some_Some in Hr as ([[child name] n] & Hin & Hc).
    destruct (is_dir n) eqn:Hd; [|done]. destruct (IH _ _ Hc) as (name' & Hb & Hn).
    exists name'. split; [by eapply below_sub|done].
Qed.

Lemma find_nfo_complete depth dir n path name :
  below 900 depth dir n path name → has_nfo_suffix name = true → is_Some (find_nfo_recursive depth dir n).
Proof.
  induction 1 as [depth dir entries child name k Hin|depth dir entries sub child name n path Hin Hd Hb IH];
    intros Hn; cbn [find_nfo_recursive]; cbv zeta.
  - destruct (first_some _ _) as [c|] eqn:Hf; [by eexists|]. rewrite first_some_None in Hf.
    specialize (Hf _ Hin). cbn in Hf. by rewrite Hn in Hf.
  - destruct (first_some _ _) as [c|] eqn:Hf; [by eexists|]. destruct depth as [|depth]; [inversion Hb|].
    cbn [Nat.ltb Nat.leb]. apply not_eq_None_Some. intros Hnone. rewrite first_some_None in Hnone.
    specialize (Hnone _ Hin). cbn beta iota in Hnone. rewrite Hd in Hnone.
    destruct (IH Hn) as [p Hp]. congruence.
Qed.

(** The NFO search is exact. It finds a path exactly when there is a file
    with that extension in the output directory or one or two levels below it,
    and the path it gives is one of these. *)
Theorem nfo_search_exact (dir : cstr) (n : node) :
  (∀ path, find_nfo_recursive NFO_SEARCH_MAX_DEPTH dir n = Some path →
     ∃ name, below 900 3 dir n path name ∧ has_nfo_suffix name = true) ∧
  (find_nfo_recursive NFO_SEARCH_MAX_DEPTH dir n = None →
     ∀ path name, below 900 3 dir n path name → has_nfo_suffix name = false).
Proof.
  split; [apply find_nfo_sound|]. intros Hnone path name Hb. apply not_true_is_false. intros Hn.
  destruct (find_nfo_complete _ _ _ _ _ Hb Hn) as [p Hp]. unfold NFO_SEARCH_MAX_DEPTH in Hnone. congruence.
Qed.

(** The packages of a tree in the order the search meets them. *)
Fixpoint pkgs_below (depth : nat) (dir : cstr) (n : node) : list cstr :=
  match depth, n with
  | S depth', NDir entries =>
    mjoin ((λ '(child, name, n),
      if is_file n && has_pkg_suffix name then [child]
      else if is_dir n then pkgs_below depth' child n else []) <$> stat_entries 900 dir entries)
  | _, _ => []
  end.

Lemma stat_entries_fit size dir entries child name n :
  (child, name, n) ∈ stat_entries size dir entries → (length child < size)%nat.
Proof.
  unfold stat_entries. intros ([name' n'] & _ & Hc)%list_elem_of_omap. cbv zeta in Hc.
  destruct (Nat.leb_spec size (length (dir ++ $ "/" ++ name'))); [by rewrite orb_true_r in Hc|].
  destruct (_ || _); simplify_eq. done.
Qed.

(** [p] added as far as there is room. *)
Definition add_pkgs (j : job) (ps : list cstr) : job :=
  set_pkg_paths (take JOB_MAX_PKGS (j_pkg_paths j ++ ps)) j.

Definition room_ok (j : job) : Prop := (length (j_pkg_paths j) <= JOB_MAX_PKGS)%nat.

Lemma add_pkgs_nil j : room_ok j → add_pkgs j [] = j.
Proof. intros Hj. unfold add_pkgs. rewrite app_nil_r, take_ge by done. by destruct j. Qed.

Lemma add_pkgs_app j ps qs : add_pkgs (add_pkgs j ps) qs = add_pkgs j (ps ++ qs).
Proof.
  unfold add_pkgs, set_pkg_paths. cbn. unfold JOB_MAX_PKGS in *. f_equal. rewrite (app_assoc _ ps qs).
  generalize (j_pkg_paths j ++ ps) as l. intros l.
  destruct (Nat.le_gt_cases (length l) 16); [by rewrite (take_ge l) by done|].
  rewrite (take_app_le l qs) by lia. rewrite take_app_le by (rewrite length_take; lia).
  by rewrite take_take, Nat.min_id.
Qed.

Lemma add_pkgs_room j ps : room_ok (add_pkgs j ps).
Proof. unfold room_ok, add_pkgs, JOB_MAX_PKGS. cbn. rewrite length_take. lia. Qed.

Lemma add_pkgs_full j ps : room_ok j → ¬ (length (j_pkg_paths j) < JOB_MAX_PKGS)%nat → add_pkgs j ps = j.
Proof.
  unfold room_ok. intros Hj Hn. unfold add_pkgs. rewrite take_app_le, take_ge by lia. by destruct j.
Qed.

Lemma job_add_pkg_path_room j p :
  (length (j_pkg_paths j) < JOB_MAX_PKGS)%nat → (length p < 900)%nat →
  job_add_pkg_path j p = add_pkgs j [p].
Proof.
  intros Hj Hp. unfold job_add_pkg_path, add_pkgs. rewrite (proj2 (Nat.leb_gt _ _)) by done.
  unfold str_fit. rewrite (take_ge p) by lia. f_equal. symmetry. apply take_ge. rewrite length_app. cbn. lia.
Qed.

Lemma find_pkgs_eq depth dir n j :
  room_ok j → find_pkgs_recursive depth dir n j = add_pkgs j (pkgs_below depth dir n).
Proof.
  induction depth as [|depth IH] in dir, n, j |- *; intros Hj; [by rewrite add_pkgs_nil|].
  destruct n as [k|entries|]; [by rewrite add_pkgs_nil| |by rewrite add_pkgs_nil].
  cbn [find_pkgs_recursive pkgs_below].
  assert (∀ e, e ∈ stat_entries 900 dir entries → (length e.1.1 < 900)%nat) as Hfit.
  { intros [[child name] n] He. by eapply stat_entries_fit. }
  revert j Hj Hfit. generalize (stat_entries 900 dir entries) as ents. intros ents.
  induction ents as [|[[child name] n] ents IHe]; intros j Hj Hfit; [by rewrite add_pkgs_nil|].
  cbn [foldl fmap list_fmap]. rewrite mjoin_cons, <- add_pkgs_app.
  assert ((length child < 900)%nat) as Hc by (apply (Hfit (child, name, n)), list_elem_of_here).
  assert ((if (length (j_pkg_paths j) <? JOB_MAX_PKGS)%nat then
      if is_file n && has_pkg_suffix name then job_add_pkg_path j child
      else if is_dir n && (1 <? S depth)%nat then find_pkgs_recursive depth child n j else j else j) =
    add_pkgs j (if is_file n && has_pkg_suffix name then [child]
                else if is_dir n then pkgs_below depth child n else [])) as ->.
  { destruct (Nat.ltb_spec (length (j_pkg_paths j)) JOB_MAX_PKGS); [|rewrite add_pkgs_full; [done|done|lia]].
    destruct (is_file n && has_pkg_suffix name); [by apply job_add_pkg_path_room|].
    destruct (is_dir n); [|by rewrite add_pkgs_nil]. destruct depth as [|depth]; [by rewrite add_pkgs_nil|].
    by apply IH. }
  apply IHe; [apply add_pkgs_room|]. intros e He. apply Hfit. by apply list_elem_of_further.
Qed.

(** The package search collects, in the order it meets them, the packages of
    the output directory and of the two levels below it, and stops at
    [JOB_MAX_PKGS]; nothing else of the job changes. *)
Theorem pkg_search_collects (dir : cstr) (n : node) (j : job) (Hj : j_pkg_paths j = []) :
  find_pkgs_recursive PKG_SEARCH_MAX_DEPTH dir n j =
    set_pkg_paths (take JOB_MAX_PKGS (pkgs_below 3 dir n)) j.
Proof.
  rewrite find_pkgs_eq by (unfold room_ok; rewrite Hj; cbn; lia). unfold add_pkgs. by rewrite Hj.
Qed.

Definition sample_tree : node :=
  NDir [($ "readme.txt", NFile 3);
        ($ "sub", NDir [($ "patch.PKG", NFile 5)]);
        ($ "game.pkg", NFile 9)].

Lemma pkg_search_collects_witness :
  find_pkgs_recursive PKG_SEARCH_MAX_DEPTH ($ "/o") sample_tree zero_job =
    set_pkg_paths [$ "/o/sub/patch.PKG"; $ "/o/game.pkg"] zero_job.
Proof. exact (pkg_search_collects ($ "/o") sample_tree zero_job eq_refl). Defined.

(** The title the search for something to mount picks need not be the
    shallowest: an image two levels down, in the first subdirectory, is taken
    although the second subdirectory holds one itself. *)
Theorem shadowmount_prefers_first_branch :
  let deep := NDir [($ "x", NDir [($ "a.ffpkg", NFile 1)])] in
  let shallow := NDir [($ "b.ffpkg", NFile 1)] in
  find_shadowmount_target ($ "/o") (NDir [($ "one", deep); ($ "two", shallow)]) = Some ($ "/o/one/x/a.ffpkg") ∧
  find_shadowmount_target ($ "/o") (NDir [($ "two", shallow); ($ "one", deep)]) = Some ($ "/o/two/b.ffpkg").
Proof. split; vm_compute; reflexivity. Qed.
