(* ===== verification/Finalizer.v ===== *)
(** * The finalizer and the loops of both threads ([download/download.c])

    [finalize_job] extracts a job's archive or moves its files to the output
    directory; [finalizer_main] does so for the jobs handed over, in their
    order; [downloader_main] takes the next queued job. *)

From Stdlib Require Import ZArith Lia List.
From Stdlib Require Import Strings.Byte Strings.String.
From stdpp Require Import base list gmap.
From S2P Require Import Prelude Cnum Config Json Paths Job JobStore Queue Par2 Par2Repair Nntp Worker Download Output.

Definition COPY_CHUNK : Z := 65536.

(** The bytes counted after each chunk of a copy. *)
Fixpoint copy_counts (fuel : nat) (done len : Z) : list Z :=
  match fuel with
  | O => []
  | S fuel =>
    if len <=? 0 then []
    else let n := Z.min len COPY_CHUNK in (done + n) :: copy_counts fuel (done + n) (len - n)
  end.

(** [rmdir_recursive] of a directory: no path below it is left. *)
Definition under (dir path : cstr) : bool := bool_decide (take (S (length dir)) path = dir ++ [slash]).

Definition remove_tree (dir : cstr) (fs : file_system) : file_system :=
  filter (λ e, under dir e.1 = false) fs.

Section finalizer.
Context `{JsonCodec}.
Context (cfg : app_config).
(** What is on disk at a path, whether a directory can be made, and whether the
    mount list can be opened. *)
Context (tree : file_system → cstr → node) (mkdir_ok : cstr → bool) (lst_ok : bool).

(** [move_file]: 0 or -1, with the running count of bytes. *)
Definition move_file (id src dst : cstr) (bytes_done total : Z) : M (bool * Z) :=
  fs ← get w_files;
  how ← next_move;
  match fs !! src with
  | None => mret (false, bytes_done)
  | Some data =>
    let len := Z.of_nat (length data) in
    match how with
    | Renamed =>
      put (λ w, with_content (<[dst := data]> (delete src (w_files w))) w);;
      mret (true, bytes_done + len)
    | Copied =>
      stop ← with_progress id (λ cb, existsb (λ d, cb d total) (copy_counts (S (length data)) bytes_done len));
      if (stop : bool) then
        put (λ w, with_content (delete dst (w_files w)) w);;
        mret (false, bytes_done)
      else
        put (λ w, with_content (<[dst := data]> (delete src (w_files w))) w);;
        mret (true, bytes_done + len)
    | CopyFailed =>
      put (λ w, with_content (delete dst (w_files w)) w);;
      mret (false, bytes_done)
    | MoveFailed => mret (false, bytes_done)
    end
  end.

Definition output_path (dest_dir name : cstr) : cstr :=
  str_fit 1200 (dest_dir ++ $ "/" ++ path_sanitize_component (str_fit 512 name) 512).

(** The loop over the job's files: [None] when all are moved. *)
Fixpoint move_files (id dest_dir : cstr) (bytes_done total : Z) (names : list cstr) : M (option cstr) :=
  match names with
  | [] => mret None
  | name :: names =>
    if is_sidecar_file name then move_files id dest_dir bytes_done total names
    else
      '(ok, bytes_done) ← move_file id (job_file_path cfg id name) (output_path dest_dir name) bytes_done total;
      if (ok : bool) then move_files id dest_dir bytes_done total names
      else mret (Some (str_fit 256 ($ "could not move " ++ name ++ $ " to the output directory")))
  end.

(** The end both successful branches share. *)
Definition finish_output (id dest_dir : cstr) : M () :=
  fs ← get w_files;
  store id (set_final_bytes (path_dir_total_bytes (tree fs dest_dir)));;
  j ← deref id;
  (if j_add_to_shadowmount j
   then put (λ w, with_content (shadowmount_register (mkdir_ok MANUAL_LST_DIR) lst_ok (tree (w_files w)) dest_dir (w_files w)) w)
   else mret ());;
  put (λ w, with_content (remove_tree (job_temp_dir cfg id) (w_files w)) w).

(** [None] for 1, else the text in [err]. *)
Definition finalize_job (id : cstr) : M (option cstr) :=
  j ← deref id;
  let dest_dir := job_output_dest_dir cfg j in
  if bool_decide (dest_dir = []) then mret None
  else
    job_enter id JOB_EXTRACTING;;
    tick;;
    '(res, effect) ← next_extract;
    put (λ w, with_content (effect (w_files w)) w);;
    match res with
    | EXTRACT_FAILED err => mret (Some (str_fit 256 err))
    | EXTRACT_OK => finish_output id dest_dir;; mret None
    | EXTRACT_NONE =>
      j ← deref id;
      let names := jf_filename <$> j_files j in
      let total := foldl (λ t jf, if is_sidecar_file (jf_filename jf) then t else s64 (t + jf_bytes jf)) 0 (j_files j) in
      if mkdir_ok dest_dir then
        e ← move_files id dest_dir 0 total names;
        match e with
        | Some err => mret (Some err)
        | None => finish_output id dest_dir;; mret None
        end
      else mret (Some (str_fit 256 ($ "could not create output directory " ++ dest_dir)))
    end.

Fixpoint install_all (paths : list cstr) : M () :=
  match paths with
  | [] => mret ()
  | p :: paths =>
    next_install;;
    put (λ w, with_installed (w_installed w ++ [p]) w);;
    install_all paths
  end.

Definition job_auto_install_pkgs (id : cstr) : M () :=
  paths ← locked (j ← deref id; mret (if j_auto_install_pkgs j then j_pkg_paths j else []));
  install_all (str_fit 900 <$> paths).

(** One job of the loop of [finalizer_main]. *)
Definition complete_job (id : cstr) : M () :=
  locked (
    set_job_state id JOB_COMPLETED;;
    fs ← get w_files;
    store id (job_ensure_nfo_scanned cfg (tree fs));;
    store id (job_ensure_pkg_scanned cfg (tree fs));;
    save_job id).

Definition finalizer_job (id : cstr) : M () :=
  go ← dl_should_continue id;
  if (go : bool) then
    job_busy_begin id;;
    finalize_err ← finalize_job id;
    match finalize_err with
    | Some err =>
      job_busy_end id;;
      stop ← stop_requested id;
      if (stop : bool) then job_mark_stopped id else job_fail id err
    | None =>
      complete_job id;;
      job_auto_install_pkgs id;;
      job_busy_end id
    end
  else mret ().

(** [None]: the queue is empty. *)
Definition finalize_dequeue : M (option cstr) := λ w,
  match w_fq w with
  | [] => Some (None, w)
  | id :: l => Some (Some id, with_fq l w)
  end.

(** The next turn of the loop, if there is a job. *)
Definition finalizer_step : M bool :=
  next ← finalize_dequeue;
  match next with
  | Some id => finalizer_job id;; mret true
  | None => mret false
  end.

Section downloader.
Context (md5 : list byte → list byte) (qsort_slices : list par2_slice → list par2_slice).
Context (list_dir : file_system → cstr → list cstr) (writable : cstr → bool).
Context (statfs : cstr → option (Z * Z)) (fuel : nat).

(** A turn of the loop of [downloader_main]: whether there was a job. *)
Definition downloader_step : M bool :=
  next ← locked (get (λ w, queue_find_next_queued (w_queue w)));
  match next with
  | Some j => download_job cfg md5 qsort_slices list_dir writable statfs fuel (j_id j);; mret true
  | None => mret false
  end.

(** [n] turns. *)
Fixpoint downloader_turns (n : nat) : M () :=
  match n with
  | O => mret ()
  | S n => downloader_step;; downloader_turns n
  end.
End downloader.
End finalizer.

(** ** While the job is busy *)

Section busy.
Context `{JsonCodec}.
Context (cfg : app_config) (tree : file_system → cstr → node) (mkdir_ok : cstr → bool) (lst_ok : bool) (id : cstr).

Lemma safe_job_enter s : safe id (job_enter id s).
Proof using. unfold job_enter. safe_tac. Qed.

Lemma safe_move_file src dst bytes_done total : safe id (move_file id src dst bytes_done total).
Proof using. unfold move_file. safe_tac. Qed.

Lemma safe_move_files dest_dir bytes_done total names :
  safe id (move_files cfg id dest_dir bytes_done total names).
Proof using.
  induction names as [|name names IH] in bytes_done |- *; cbn [move_files]; [safe_tac|].
  destruct (is_sidecar_file name); [apply IH|]. apply safe_bind; [apply safe_move_file|].
  intros [ok bd]. destruct ok; [apply IH|safe_tac].
Qed.

Lemma safe_finish_output dest_dir : safe id (finish_output cfg tree mkdir_ok lst_ok id dest_dir).
Proof using. unfold finish_output. safe_tac. Qed.

Lemma safe_finalize_job : safe id (finalize_job cfg tree mkdir_ok lst_ok id).
Proof using.
  unfold finalize_job. pose proof (safe_job_enter JOB_EXTRACTING). pose proof safe_finish_output.
  pose proof safe_move_files. safe_tac.
Qed.

Lemma keeps_alive_nfo t : keeps_alive (job_ensure_nfo_scanned cfg t).
Proof using. intros j. unfold job_ensure_nfo_scanned. cbv zeta. by repeat (case_match; try done). Qed.

Lemma keeps_alive_pkg t : keeps_alive (job_ensure_pkg_scanned cfg t).
Proof using.
  intros j. unfold job_ensure_pkg_scanned. cbv zeta. destruct (negb _); [done|].
  destruct ((0 <? length (j_pkg_paths j))%nat || _) eqn:Hr; [done|].
  apply orb_false_iff in Hr as [Hr _]. apply Nat.ltb_ge in Hr. case_decide; [done|].
  rewrite find_pkgs_eq by (unfold room_ok; lia). done.
Qed.

Lemma safe_complete_job : safe id (complete_job cfg tree id).
Proof using.
  unfold complete_job. pose proof keeps_alive_nfo. pose proof keeps_alive_pkg. safe_tac.
Qed.

Lemma safe_install_all paths : safe id (install_all paths).
Proof using. induction paths as [|p paths IH]; cbn [install_all]; safe_tac. Qed.

Lemma safe_auto_install : safe id (job_auto_install_pkgs id).
Proof using. unfold job_auto_install_pkgs. pose proof safe_install_all. safe_tac. Qed.
End busy.

(** C12: The busy flag does what it is for. Between [job_busy_begin] and
    [job_busy_end] the finalizer never touches a job that has been removed: from
    every state in which the job is busy, and with every script of pauses,
    cancellations, removals, additions and reorderings by the other threads, the
    extraction, the completion and the installation of its packages run to their
    end without a fault, and the job is still there and still busy. *)
Theorem busy_job_survives {codec : JsonCodec} (cfg : app_config) (tree : file_system → cstr → node)
    (mkdir_ok : cstr → bool) (lst_ok : bool) (id : cstr) (w : world) (Hw : alive id w) :
  ∃ e w', (e ← finalize_job cfg tree mkdir_ok lst_ok id;
           match e with
           | Some _ => mret e
           | None => complete_job cfg tree id;; job_auto_install_pkgs id;; mret e
           end) w = Some (e, w') ∧ alive id w'.
Proof.
  revert w Hw. change (safe id (e ← finalize_job cfg tree mkdir_ok lst_ok id;
    match e with
    | Some _ => mret e
    | None => complete_job cfg tree id;; job_auto_install_pkgs id;; mret e
    end)).
  pose proof (safe_finalize_job cfg tree mkdir_ok lst_ok id). pose proof (safe_complete_job cfg tree id).
  pose proof (safe_auto_install id). safe_tac.
Qed.

Definition busy_world : world :=
  World (Queue ($ "/q") [set_busy true one_job]) ∅ ∅ false [] [] [$ "0a1b2c"]
    [[(0, EvQueue all_good all_good (QCancel ($ "0a1b2c"))); (0, EvQueue all_good all_good (QRemove ($ "0a1b2c")))]]
    no_inputs.

(** A cancellation and a removal arrive at once; the second one is refused. *)
Lemma busy_job_survives_witness :
  (∃ j, lookup_job (w_queue busy_world) ($ "0a1b2c") = Some j ∧ j_busy j = true) ∧
  ∃ e w', (e ← finalize_job (H := toy_codec) app_config_set_defaults (λ _ _, NOther) (λ _, true) true ($ "0a1b2c");
           match e with
           | Some _ => mret e
           | None =>
             complete_job (H := toy_codec) app_config_set_defaults (λ _ _, NOther) ($ "0a1b2c");;
             job_auto_install_pkgs (H := toy_codec) ($ "0a1b2c");; mret e
           end) busy_world = Some (e, w') ∧ alive ($ "0a1b2c") w'.
Proof.
  assert (∃ j, lookup_job (w_queue busy_world) ($ "0a1b2c") = Some j ∧ j_busy j = true) as Hj
    by (eexists; split; reflexivity).
  split; [exact Hj|]. apply (busy_job_survives (codec := toy_codec)). split; [|exact Hj].
  constructor; cbn.
  - constructor; cbn; [repeat constructor|apply NoDup_singleton|apply Forall_singleton; lia].
  - intros x Hx. by apply list_elem_of_singleton in Hx as ->; apply list_elem_of_singleton.
Defined.

(** ** Cancelling and removing at the wrong moment *)

Section races.
Context `{JsonCodec}.

(** A cancellation changes the state in memory, whatever becomes of the save. *)
Lemma cancel_event w1 w2 w id j :
  lookup_job (w_queue w) id = Some j → j_state j ∉ [JOB_COMPLETED; JOB_CANCELLED] →
  ∃ w', apply_event w (EvQueue w1 w2 (QCancel id)) = w' ∧
    lookup_job (w_queue w') id = Some (set_state JOB_CANCELLED j) ∧ same_data w w' ∧
    w_script w' = w_script w ∧ w_ids w' = w_ids w ∧ w_shutdown w' = w_shutdown w ∧
    (j_id <$> q_jobs (w_queue w')) = (j_id <$> q_jobs (w_queue w)).
Proof using.
  intros (i & Hi & Hj)%lookup_job_index Hst. eexists. split; [done|]. cbn [apply_event possible run_queue_op].
  unfold queue_cancel_job, change_job, queue_find_job. rewrite Hi, Hj, bool_decide_false by done. cbn [negb]. cbv zeta.
  destruct (queue_save_job _ _ _ _ _) as [d ok].
  assert (fst (job_set_state j JOB_CANCELLED) = set_state JOB_CANCELLED j) as ->.
  { unfold job_set_state. rewrite decide_False; [done|]. set_solver. }
  cbn [w_queue with_ids with_disk with_queue q_jobs]. split.
  - apply lookup_job_index. exists i. split; [by eapply index_of_insert|].
    apply list_lookup_insert_eq. by eapply lookup_lt_Some.
  - repeat split. rewrite list_fmap_insert. apply list_insert_id. by rewrite list_lookup_fmap, Hj.
Qed.

Lemma remove_event w1 w2 w id j :
  NoDup (j_id <$> q_jobs (w_queue w)) → lookup_job (w_queue w) id = Some j →
  was_active (j_state j) || j_busy j = false →
  lookup_job (w_queue (apply_event w (EvQueue w1 w2 (QRemove id)))) id = None.
Proof using.
  intros Hnd (i & Hi & Hj)%lookup_job_index Hb. cbn [apply_event possible run_queue_op].
  pose proof (proj1 (queue_remove_eq (w_queue w) (w_disk w) id i j Hi Hj Hb)) as Hq.
  destruct (queue_remove_job _ _ _) as [[q d] rc]. cbn [fst] in Hq. cbn.
  unfold lookup_job, queue_find_job. rewrite Hq.
  assert (index_of (take i (q_jobs (w_queue w)) ++ drop (S i) (q_jobs (w_queue w))) id = None) as ->; [|done].
  apply index_of_None. destruct (index_of_Some _ _ _ Hi) as (j' & Hj' & <-). simplify_eq.
  rewrite <- (take_drop_middle _ _ _ Hj) in Hnd. rewrite fmap_app, fmap_cons in Hnd.
  apply NoDup_app in Hnd as (_ & H1 & H2). apply NoDup_cons in H2 as [H2 _]. rewrite fmap_app, elem_of_app.
  intros [?|?]; [|done]. eapply H1; [done|]. apply list_elem_of_here.
Qed.
End races.

(** C39: A job waiting for the finalizer can be freed under it. [queue_remove_job]
    refuses jobs that are active or busy; a job handed over is neither once an API
    thread cancels it, for the busy flag is only set when the finalizer has
    looked at it. Cancelled and removed while it waits, the finalizer's next turn
    is a use of the removed job. *)
Theorem waiting_job_can_be_freed {codec : JsonCodec} (cfg : app_config) (tree : file_system → cstr → node)
    (mkdir_ok : cstr → bool) (lst_ok : bool) (w : world) (id : cstr) (j : job) (l : list cstr)
    (w1 w2 w3 w4 : write_outcome) (s : list batch)
    (Hok : world_ok w) (Hj : lookup_job (w_queue w) id = Some j) (Hfq : w_fq w = id :: l)
    (Hst : j_state j ∉ [JOB_COMPLETED; JOB_CANCELLED]) (Hbusy : j_busy j = false)
    (Hup : w_shutdown w = false)
    (Hs : w_script w = [(0, EvQueue w1 w2 (QCancel id)); (0, EvQueue w3 w4 (QRemove id))] :: [] :: s) :
  finalizer_step cfg tree mkdir_ok lst_ok w = None.
Proof.
  destruct Hok as [[_ Hnd _] _].
  destruct (cancel_event w1 w2 (with_script ([] :: s) (with_fq l w)) id j) as (wc & Hc & Hlc & _ & Hsc & _ & Huc & Hids);
    [done..|].
  pose proof (remove_event w3 w4 wc id _ ltac:(rewrite Hids; exact Hnd) Hlc Hbusy) as Hr.
  assert (w_shutdown (apply_event wc (EvQueue w3 w4 (QRemove id))) = false ∧
          w_script (apply_event wc (EvQueue w3 w4 (QRemove id))) = [] :: s) as [Hu Hsr].
  { cbn [apply_event possible run_queue_op]. destruct (queue_remove_job _ _ _) as [[q d] rc]. cbn.
    rewrite Huc, Hsc. done. }
  unfold finalizer_step, finalize_dequeue, finalizer_job, dl_should_continue, app_is_shutting_down, locked.
  unfold mbind, M_bind. rewrite Hfq. cbn [w_fq with_fq]. unfold tick at 1. cbn [w_script with_fq].
  rewrite Hs. cbn [pop]. unfold apply_batch. cbn [fmap list_fmap snd foldl]. rewrite Hc. unfold get. rewrite Hu.
  unfold tick. rewrite Hsr. cbn [pop apply_batch fmap list_fmap foldl]. unfold deref. cbn [w_queue with_script].
  by rewrite Hr.
Qed.

Definition cancel_it : Z * event := (0, EvQueue all_good all_good (QCancel ($ "0a1b2c"))).
Definition remove_it : Z * event := (0, EvQueue all_good all_good (QRemove ($ "0a1b2c"))).

Lemma waiting_job_can_be_freed_witness :
  finalizer_step (H := toy_codec) app_config_set_defaults (λ _ _, NOther) (λ _, true) true
    (with_fq [$ "0a1b2c"] (one_world [[cancel_it; remove_it]; []])) = None.
Proof.
  apply (waiting_job_can_be_freed (codec := toy_codec) _ _ _ _ _ ($ "0a1b2c") one_job []
    all_good all_good all_good all_good []); try reflexivity.
  - by destruct (one_world_at [[cancel_it; remove_it]; []]) as [[? ?] _ _ _].
  - set_solver.
Defined.

(** A cancellation can be lost. The states the worker enters are written
    without a look at the one that is there. A job cancelled after the checks of
    [download_job] and before [par2_verify_job] announces its state is "verifying"
    afterwards, and the finalizer's check whether to go on says yes: unless the
    verification fails, the cancelled job is extracted and completed. *)
Theorem cancel_before_verify_is_lost {codec : JsonCodec} (w : world) (id : cstr) (j : job)
    (w1 w2 : write_outcome) (s : list batch)
    (Hok : world_ok w) (Hj : lookup_job (w_queue w) id = Some j)
    (Hst : j_state j ∉ [JOB_COMPLETED; JOB_CANCELLED]) (Hup : w_shutdown w = false)
    (Hs : w_script w = [(0, EvQueue w1 w2 (QCancel id))] :: s) (Hcalm : Forall (λ b, b = []) s) :
  lookup_job (w_queue (apply_event w (EvQueue w1 w2 (QCancel id)))) id = Some (set_state JOB_CANCELLED j) ∧
  ∃ w', (job_enter id JOB_VERIFYING;; dl_should_continue id) w = Some (true, w') ∧
    lookup_job (w_queue w') id = Some (set_state JOB_VERIFYING j).
Proof.
  destruct (cancel_event w1 w2 w id j Hj Hst) as (wc0 & <- & Hl0 & _). split; [exact Hl0|].
  destruct (cancel_event w1 w2 (with_script s w) id j Hj Hst)
    as (wc & Hc & Hlc & _ & Hsc & _ & Huc & _).
  assert (tick w = Some ((), wc)) as Ht by (by rewrite (run_tick _ _ _ Hs), <- Hc).
  destruct (run_job_enter id JOB_VERIFYING w wc _ Ht Hlc) as (w3 & He & Hl3 & Hr3).
  destruct (run_should_continue id w3 (set_state JOB_VERIFYING j)) as (s' & Hg & _).
  - unfold calm. by rewrite (sr_script _ _ Hr3), Hsc.
  - by rewrite (sr_shutdown _ _ Hr3), Huc.
  - exact Hl3.
  - rewrite (run_bind _ _ _ _ _ He), Hg. eexists. split; [reflexivity|exact Hl3].
Qed.

Lemma cancel_before_verify_is_lost_witness :
  let w := one_world [[cancel_it]; []; []] in
  lookup_job (w_queue (apply_event (H := toy_codec) w (EvQueue all_good all_good (QCancel ($ "0a1b2c"))))) ($ "0a1b2c") =
    Some (set_state JOB_CANCELLED one_job) ∧
  ∃ w', (job_enter (H := toy_codec) ($ "0a1b2c") JOB_VERIFYING;; dl_should_continue (H := toy_codec) ($ "0a1b2c")) w = Some (true, w') ∧
    lookup_job (w_queue w') ($ "0a1b2c") = Some (set_state JOB_VERIFYING one_job).
Proof.
  apply (cancel_before_verify_is_lost (codec := toy_codec) _ ($ "0a1b2c") one_job all_good all_good [[]; []]); try reflexivity.
  - by destruct (one_world_at [[cancel_it]; []; []]) as [[? ?] _ _ _].
  - set_solver.
  - repeat (apply Forall_cons_2; [reflexivity|]). apply Forall_nil_2.
Defined.

(** ** Retrying *)

Section retries.
Context `{JsonCodec}.
Context (cfg : app_config).
Context (md5 : list byte → list byte) (qsort_slices : list par2_slice → list par2_slice).
Context (list_dir : file_system → cstr → list cstr) (writable : cstr → bool).
Context (statfs : cstr → option (Z * Z)) (fuel : nat).

(** A queue of one job, and no other thread at work. *)
Definition solo (j : job) (w : world) : Prop := q_jobs (w_queue w) = [j] ∧ calm w.

Lemma solo_lookup j w : solo j w → lookup_job (w_queue w) (j_id j) = Some j.
Proof using.
  intros [Hq _]. apply lookup_job_index. exists O. rewrite Hq. cbn. by rewrite decide_True by done.
Qed.

Lemma solo_store f j w :
  solo j w → j_id (f j) = j_id j →
  ∃ w', store (j_id j) f w = Some ((), w') ∧ solo (f j) w' ∧ in_nets (w_inputs w') = in_nets (w_inputs w).
Proof using.
  intros [Hq Hc] Hid. unfold store, queue_find_job. rewrite Hq. cbn [index_of].
  rewrite decide_True by done. cbn. by eexists.
Qed.

Lemma solo_save j w :
  solo j w →
  ∃ w', save_job (j_id j) w = Some ((), w') ∧ solo j w' ∧ in_nets (w_inputs w') = in_nets (w_inputs w).
Proof using.
  intros Hw. destruct (run_save_job (j_id j) w j (solo_lookup _ _ Hw)) as (w' & Hs & Hq & Hr). exists w'.
  split; [done|]. destruct Hw as [Hj Hc]. split; [|apply Hr]. unfold solo, calm. by rewrite Hq, (sr_script _ _ Hr).
Qed.

Lemma solo_tick j w :
  solo j w → ∃ w', tick w = Some ((), w') ∧ solo j w' ∧ in_nets (w_inputs w') = in_nets (w_inputs w).
Proof using. intros [Hq Hc]. destruct (run_calm w Hc) as (s & Ht & Hc'). eexists. by split. Qed.

(** The job after one more failure. *)
Definition unreachable_error : cstr :=
  str_fit 256 ($ "could not connect to NNTP server " ++ nc_host (ac_nntp cfg) ++ $ ":" ++ nc_port (ac_nntp cfg)).

Definition failed_once (err : cstr) (j : job) : job :=
  let j := set_last_error err j in
  if j_retries_used j <? qc_max_retries (ac_queue cfg)
  then set_state JOB_QUEUED (set_retries_used (j_retries_used j + 1) j)
  else set_state JOB_FAILED j.

Lemma solo_set_state s j w :
  solo j w →
  ∃ w', set_job_state (j_id j) s w = Some ((), w') ∧ solo (set_state s j) w' ∧
    in_nets (w_inputs w') = in_nets (w_inputs w).
Proof using.
  intros Hw. unfold set_job_state.
  assert (fst (job_set_state j s) = set_state s j) as Hs.
  { unfold job_set_state. case_decide as Hd; [|done]. rewrite <- Hd. by destruct j. }
  destruct (solo_store (λ j, fst (job_set_state j s)) j w Hw) as (w' & ? & Hj & ?); [by rewrite Hs|].
  exists w'. by rewrite <- Hs.
Qed.

Lemma solo_fail_or_retry err j w :
  solo j w →
  ∃ w', job_fail_or_retry cfg (j_id j) err w = Some ((), w') ∧ solo (failed_once err j) w' ∧
    in_nets (w_inputs w') = in_nets (w_inputs w).
Proof using.
  intros Hw. unfold job_fail_or_retry, locked. cbv zeta.
  destruct (solo_tick j w Hw) as (w1 & H1 & Hw1 & N1). rewrite (run_bind _ _ _ _ _ H1).
  destruct (solo_store (set_last_error err) j w1 Hw1) as (w2 & H2 & Hw2 & N2); [done|]. rewrite (run_bind _ _ _ _ _ H2).
  set (j2 := set_last_error err j) in *. change (j_id j) with (j_id j2).
  rewrite (run_bind _ _ _ _ _ (run_deref _ _ _ (solo_lookup _ _ Hw2))).
  unfold failed_once. fold j2. destruct (j_retries_used j2 <? qc_max_retries (ac_queue cfg)).
  - destruct (solo_store (λ j, set_retries_used (j_retries_used j + 1) j) j2 w2 Hw2) as (w3 & H3 & Hw3 & N3); [done|].
    destruct (solo_set_state JOB_QUEUED _ w3 Hw3) as (w4 & H4 & Hw4 & N4).
    destruct (solo_save _ w4 Hw4) as (w5 & H5 & Hw5 & N5). exists w5.
    erewrite run_bind; [|erewrite run_bind; [exact H4|exact H3]]. split; [exact H5|]. split; [exact Hw5|congruence].
  - destruct (solo_set_state JOB_FAILED _ w2 Hw2) as (w3 & H3 & Hw3 & N3).
    destruct (solo_save _ w3 Hw3) as (w4 & H4 & Hw4 & N4). exists w4.
    erewrite run_bind; [|exact H3]. split; [exact H4|]. split; [exact Hw4|congruence].
Qed.

(** A turn of the downloader while the server cannot be reached. *)
Lemma solo_unreachable_turn j w net nets :
  solo j w → j_state j = JOB_QUEUED → in_nets (w_inputs w) = net :: nets → tcp_connect net = false →
  ∃ w', downloader_step cfg md5 qsort_slices list_dir writable statfs fuel w = Some (true, w') ∧
    solo (failed_once unreachable_error j) w' ∧ in_nets (w_inputs w') = nets.
Proof using.
  intros Hw Hst Hn Hnet. unfold downloader_step, locked.
  destruct (solo_tick j w Hw) as (w1 & H1 & Hw1 & N1).
  assert (queue_find_next_queued (w_queue w1) = Some j) as Hnext.
  { unfold queue_find_next_queued. rewrite (proj1 Hw1). cbn. by rewrite decide_True by done. }
  erewrite run_bind; [|by rewrite (run_bind _ _ _ _ _ H1)]. rewrite Hnext.
  set (w2 := with_inputs (Inputs (in_malloc (w_inputs w1)) nets (in_saves (w_inputs w1)) (in_fetches (w_inputs w1))
    (in_extract (w_inputs w1)) (in_moves (w_inputs w1)) (in_installs (w_inputs w1))) w1).
  assert (check_server_reachable cfg w1 = Some (Some unreachable_error, w2)) as Hreach.
  { unfold check_server_reachable. cbv zeta. erewrite run_bind; [|unfold next_net; by rewrite N1, Hn].
    unfold nntp_conn_open. by rewrite Hnet. }
  assert (solo j w2) as Hw2 by exact Hw1.
  destruct (solo_fail_or_retry unreachable_error j w2 Hw2) as (w3 & H3 & Hw3 & N3).
  assert (download_prepare cfg statfs (j_id j) w1 = Some (false, w3)) as Hprep.
  { unfold download_prepare. rewrite (run_bind _ _ _ _ _ Hreach). by rewrite (run_bind _ _ _ _ _ H3). }
  assert (download_job cfg md5 qsort_slices list_dir writable statfs fuel (j_id j) w1 = Some ((), w3)) as Hjob.
  { unfold download_job. by rewrite (run_bind _ _ _ _ _ Hprep). }
  exists w3. split; [by rewrite (run_bind _ _ _ _ _ Hjob)|]. split; [exact Hw3|]. by rewrite N3.
Qed.
End retries.

(** C33: A job whose server cannot be reached is tried once and then as often as
    [max_retries] allows, no more: after that many turns of the downloader it is
    failed, with the reason in [last_error], and no job is left to take. *)
Theorem unreachable_server_gives_up {codec : JsonCodec} (cfg : app_config)
    (md5 : list byte → list byte) (qsort_slices : list par2_slice → list par2_slice)
    (list_dir : file_system → cstr → list cstr) (writable : cstr → bool)
    (statfs : cstr → option (Z * Z)) (fuel : nat) (j : job) (w : world) (dead rest : list network)
    (Hw : solo j w) (Hst : j_state j = JOB_QUEUED)
    (Hlen : Z.of_nat (length dead) = qc_max_retries (ac_queue cfg) - j_retries_used j + 1)
    (Hne : dead ≠ []) (Hdead : Forall (λ net, tcp_connect net = false) dead)
    (Hn : in_nets (w_inputs w) = dead ++ rest) :
  ∃ w', downloader_turns cfg md5 qsort_slices list_dir writable statfs fuel (length dead) w = Some ((), w') ∧
    q_jobs (w_queue w') =
      [set_state JOB_FAILED (set_last_error (unreachable_error cfg) (set_retries_used (qc_max_retries (ac_queue cfg)) j))] ∧
    queue_find_next_queued (w_queue w') = None ∧ in_nets (w_inputs w') = rest.
Proof.
  revert j w Hw Hst Hlen Hne Hn. induction Hdead as [|net dead Hnet Hdead IH]; intros j w Hw Hst Hlen Hne Hn; [done|].
  destruct (solo_unreachable_turn cfg md5 qsort_slices list_dir writable statfs fuel j w net (dead ++ rest)
    Hw Hst Hn Hnet) as (w1 & H1 & Hw1 & N1).
  cbn [length downloader_turns]. rewrite (run_bind _ _ _ _ _ H1). cbn [length] in Hlen.
  unfold failed_once in Hw1. cbv zeta in Hw1.
  change (j_retries_used (set_last_error (unreachable_error cfg) j)) with (j_retries_used j) in Hw1.
  destruct dead as [|net' dead].
  - rewrite (proj2 (Z.ltb_ge _ _)) in Hw1 by (cbn in Hlen; lia). exists w1. split; [done|].
    assert (j_retries_used j = qc_max_retries (ac_queue cfg)) as Hr by (cbn in Hlen; lia).
    rewrite <- Hr. destruct Hw1 as [Hq1 _]. split; [rewrite Hq1; by destruct j|]. split; [|done].
    unfold queue_find_next_queued. by rewrite Hq1.
  - rewrite (proj2 (Z.ltb_lt _ _)) in Hw1 by (cbn in Hlen; lia).
    destruct (IH _ w1 Hw1) as (w2 & H2 & Hq2 & Hf2 & N2); [done|cbn in Hlen |- *; lia|done|done|].
    exists w2. split; [exact H2|]. split; [|done]. rewrite Hq2. by destruct j.
Qed.

Definition dead_network : network := Network (λ _, false) false false false [] [].

Lemma unreachable_server_gives_up_witness :
  ∃ w', downloader_turns (H := toy_codec) app_config_set_defaults toy_md5 (λ l, l) (λ _ _, []) (λ _, true)
      (λ _, None) 1 4
      (with_inputs (Inputs [] [dead_network; dead_network; dead_network; dead_network] [] [] [] [] []) (one_world [])) =
      Some ((), w') ∧
    q_jobs (w_queue w') =
      [set_state JOB_FAILED (set_last_error (unreachable_error app_config_set_defaults) (set_retries_used 3 one_job))] ∧
    queue_find_next_queued (w_queue w') = None ∧ in_nets (w_inputs w') = [].
Proof.
  apply (unreachable_server_gives_up (codec := toy_codec) app_config_set_defaults toy_md5 (λ l, l) (λ _ _, [])
    (λ _, true) (λ _, None) 1 one_job _ [dead_network; dead_network; dead_network; dead_network] []);
    [|reflexivity..| | |reflexivity].
  - split; [reflexivity|]. by apply Forall_nil_2.
  - discriminate.
  - repeat (apply Forall_cons_2; [reflexivity|]). apply Forall_nil_2.
Defined.

(** ** Moving the output *)

Section moving.
Context `{JsonCodec} (cfg : app_config) (tree : file_system → cstr → node) (mkdir_ok : cstr → bool) (lst_ok : bool).
Context (id dest_dir : cstr).

Abbreviation src name := (job_file_path cfg id name).
Abbreviation dst name := (output_path dest_dir name).

(** The files that are output. *)
Definition outputs (names : list cstr) : list cstr := filter (λ name, is_sidecar_file name = false) names.

(** Moving does not run over itself: names, sources and destinations apart. *)
Definition apart (names : list cstr) : Prop :=
  NoDup (job_file_path cfg id <$> names) ∧ NoDup (output_path dest_dir <$> names) ∧
  ∀ n m, n ∈ names → m ∈ names → src n ≠ dst m.

Lemma move_file_effect s d bytes_done total w :
  wp (move_file id s d bytes_done total) (λ r w',
    (r.1 = true ∧ ∃ data, w_files w !! s = Some data ∧ w_files w' = <[d := data]> (delete s (w_files w))) ∨
    (r.1 = false ∧ (w_files w' = w_files w ∨ w_files w !! s ≠ None ∧ w_files w' = delete d (w_files w)))) w.
Proof using.
  unfold move_file. apply wp_bind. unfold wp at 1, get. apply wp_bind. unfold wp at 1, next_move.
  destruct (pop _ _) as [how l]. destruct (w_files w !! s) as [data|] eqn:Hs; [|apply wp_ret; by right; split; [|left]].
  cbv zeta. destruct how.
  - apply wp_bind. unfold wp at 1, put. apply wp_ret. left. split; [done|]. exists data. by split.
  - apply wp_bind. unfold wp at 1, with_progress. destruct (pop _ _) as [b sc].
    match goal with |- context [apply_batch b ?x] => destruct (apply_batch_inputs b x) as [_ Hf] end.
    cbn [w_files with_script with_inputs] in Hf. destruct (existsb _ _).
    + apply wp_bind. unfold wp at 1, put. apply wp_ret. right. split; [done|]. right. cbn [w_files with_content].
      by rewrite Hf.
    + apply wp_bind. unfold wp at 1, put. apply wp_ret. left. split; [done|]. exists data. cbn [w_files with_content].
      by rewrite Hf.
  - apply wp_bind. unfold wp at 1, put. apply wp_ret. right. split; [done|]. right. by split.
  - apply wp_ret. right. split; [done|by left].
Qed.

(** What moving [names] from [fs] leaves, whole or broken off: nothing that was
    there to move is lost, and nothing else is touched. *)
Definition kept (fs fs' : file_system) (names : list cstr) : Prop :=
  (∀ n data, n ∈ names → fs !! src n = Some data → fs' !! src n = Some data ∨ fs' !! dst n = Some data) ∧
  (∀ p, p ∉ (job_file_path cfg id <$> names) → p ∉ (output_path dest_dir <$> names) → fs' !! p = fs !! p).

Definition moved (fs fs' : file_system) (names : list cstr) : Prop :=
  ∀ n, n ∈ names → ∃ data, fs !! src n = Some data ∧ fs' !! dst n = Some data ∧ fs' !! src n = None.

(** One file moved, and then the others. *)
Lemma moved_step fs fs' name names data :
  apart (name :: names) → fs !! src name = Some data →
  let fs1 := <[dst name := data]> (delete (src name) fs) in
  (kept fs1 fs' names → kept fs fs' (name :: names)) ∧
  (kept fs1 fs' names → moved fs1 fs' names → moved fs fs' (name :: names)).
Proof using.
  intros (Hs & Hd & Hsd) Hdata fs1. cbn [fmap list_fmap] in Hs, Hd.
  apply NoDup_cons in Hs as [Hs _]. apply NoDup_cons in Hd as [Hd _].
  assert (∀ n, n ∈ names → fs1 !! src n = fs !! src n) as Hsame.
  { intros n Hn. unfold fs1. rewrite lookup_insert_ne, lookup_delete_ne; [done|..].
    - intros He. apply Hs. rewrite He. by apply list_elem_of_fmap_2.
    - intros He. symmetry in He. revert He. apply Hsd; [by apply list_elem_of_further|apply list_elem_of_here]. }
  assert (src name ≠ dst name) as Hself by (apply Hsd; apply list_elem_of_here).
  assert (kept fs1 fs' names → fs' !! dst name = Some data ∧ fs' !! src name = None) as Hname.
  { intros [_ Hk]. unfold fs1 in Hk. split.
    - rewrite Hk; [by rewrite lookup_insert_eq| |done]. intros (n & He & Hn)%list_elem_of_fmap. symmetry in He.
      revert He. apply Hsd; [by apply list_elem_of_further|apply list_elem_of_here].
    - rewrite Hk; [rewrite lookup_insert_ne by done; apply lookup_delete_eq|done|].
      intros (n & He & Hn)%list_elem_of_fmap. revert He. apply Hsd; [apply list_elem_of_here|by apply list_elem_of_further]. }
  split.
  - intros Hk. destruct (Hname Hk) as [Hn1 _]. destruct Hk as [Hk1 Hk2]. split.
    + intros n data' [->|Hn]%elem_of_cons Hl; [right; congruence|]. apply Hk1; [done|]. by rewrite Hsame.
    + intros p [Hp1 Hp2]%not_elem_of_cons [Hp3 Hp4]%not_elem_of_cons. rewrite Hk2 by done. unfold fs1.
      by rewrite lookup_insert_ne, lookup_delete_ne by done.
  - intros Hk Hm n [->|Hn]%elem_of_cons; [exists data; by destruct (Hname Hk)|].
    destruct (Hm n Hn) as (data' & ? & ? & ?). exists data'. by rewrite <- Hsame.
Qed.

(** The first file not moved: its destination is removed at most. *)
Lemma kept_broken_off fs name names :
  apart (name :: names) → kept fs (delete (dst name) fs) (name :: names).
Proof using.
  intros (_ & _ & Hsd). split.
  - intros n data Hn Hl. left. rewrite lookup_delete_ne; [done|]. intros He. symmetry in He. revert He.
    apply Hsd; [done|apply list_elem_of_here].
  - intros p _ [Hp _]%not_elem_of_cons. by rewrite lookup_delete_ne by done.
Qed.

Lemma kept_refl fs names : kept fs fs names.
Proof using. split; [by left|done]. Qed.

Lemma move_files_effect names bytes_done total w :
  apart (outputs names) →
  wp (move_files cfg id dest_dir bytes_done total names) (λ e w',
    kept (w_files w) (w_files w') (outputs names) ∧
    (e = None → moved (w_files w) (w_files w') (outputs names))) w.
Proof using.
  induction names as [|name names IH] in bytes_done, w |- *; intros Hap; cbn [move_files].
  { apply wp_ret. split; [split; [|done]|].
    - intros n data Hn. by apply elem_of_nil in Hn.
    - intros _ n Hn. by apply elem_of_nil in Hn. }
  unfold outputs in *. rewrite filter_cons in Hap |- *. destruct (is_sidecar_file name) eqn:Hside.
  { rewrite decide_False in Hap |- * by done. by apply IH. }
  rewrite decide_True in Hap |- * by done.
  set (outs := filter (λ name, is_sidecar_file name = false) names) in *.
  assert (apart outs) as Hap'.
  { destruct Hap as (Hs & Hd & Hsd). cbn [fmap list_fmap] in Hs, Hd.
    apply NoDup_cons in Hs as [_ Hs]. apply NoDup_cons in Hd as [_ Hd].
    split; [done|]. split; [done|]. intros n m Hn Hm. apply Hsd; by apply list_elem_of_further. }
  apply wp_bind. eapply wp_mono; [|apply move_file_effect]. intros [ok bd] w1 Hr. cbn [fst] in Hr.
  destruct Hr as [[-> (data & Hdata & Hf1)]|[-> Hf1]].
  - eapply wp_mono; [|by apply IH]. intros e w2 [Hk Hm]. rewrite Hf1 in Hk, Hm.
    destruct (moved_step (w_files w) (w_files w2) name outs data Hap Hdata) as [H1 H2]. auto.
  - apply wp_ret. split; [|done]. destruct Hf1 as [->|[_ ->]]; [apply kept_refl|by apply kept_broken_off].
Qed.

(** ** The whole of [finalize_job], without an archive *)

Definition same_extract (w w' : world) : Prop := in_extract (w_inputs w') = in_extract (w_inputs w).

Lemma tick_extract w : wp tick (λ _ w', same_extract w w') w.
Proof using.
  unfold wp, tick. destruct (pop [] (w_script w)) as [b s]. unfold same_extract.
  by destruct (apply_batch_inputs b (with_script s w)) as [-> _].
Qed.

Lemma enter_extract s w : wp (job_enter id s) (λ _ w', same_extract w w') w.
Proof using.
  unfold job_enter, locked. apply wp_bind. eapply wp_mono; [|apply tick_extract]. intros [] w1 H1.
  apply wp_bind. unfold wp at 1, set_job_state, store.
  destruct (queue_find_job (w_queue w1) id) as [i|]; [|done]. destruct (q_jobs (w_queue w1) !! i) as [j|]; [|done].
  unfold save_job. apply wp_bind. unfold wp at 1, next_save. destruct (pop _ _) as [[o1 o2] l].
  apply wp_bind. unfold wp at 1, deref. destruct (lookup_job _ _) as [j'|]; [|done]. cbn.
  unfold wp, put, same_extract. cbn. exact H1.
Qed.

Lemma finish_output_effect w :
  wp (finish_output cfg tree mkdir_ok lst_ok id dest_dir) (λ _ w',
    (∀ p, under (job_temp_dir cfg id) p = true → w_files w' !! p = None) ∧
    (∀ p, under (job_temp_dir cfg id) p = false → p ≠ MANUAL_LST_PATH → w_files w' !! p = w_files w !! p)) w.
Proof using.
  unfold finish_output. apply wp_bind. unfold wp at 1, get.
  apply wp_bind. unfold wp at 1, store. destruct (queue_find_job (w_queue w) id) as [i|]; [|done].
  destruct (q_jobs (w_queue w) !! i) as [j|]; [|done].
  apply wp_bind. unfold wp at 1, deref. destruct (lookup_job _ _) as [j'|]; [|done]. cbn [fmap option_fmap option_map].
  apply wp_bind. eapply (wp_mono _ (λ _ w', ∀ p, p ≠ MANUAL_LST_PATH → w_files w' !! p = w_files w !! p)).
  - intros [] w1 H1. unfold wp, put. cbn [w_files with_content]. unfold remove_tree. split.
    + intros p Hp. apply map_lookup_filter_None. right. intros x _ Hf. cbn [fst] in Hf. congruence.
    + intros p Hp Hm. rewrite <- H1 by done. destruct (w_files w1 !! p) as [x|] eqn:Hx.
      * by apply map_lookup_filter_Some.
      * apply map_lookup_filter_None. by left.
  - destruct (j_add_to_shadowmount j'); [|by apply wp_ret]. unfold wp, put. cbn [w_files with_content with_queue].
    intros p Hp. unfold shadowmount_register. destruct (find_shadowmount_target _ _); [|done].
    destruct (_ && _); [|done]. by rewrite lookup_insert_ne.
Qed.

Definition placed_output (fs fs' : file_system) (names : list cstr) (e : option cstr) : Prop :=
  match e with
  | Some _ => kept fs fs' (outputs names)
  | None =>
    (∀ n, n ∈ outputs names → ∃ data, fs !! src n = Some data ∧ fs' !! dst n = Some data) ∧
    (∀ p, under (job_temp_dir cfg id) p = true → fs' !! p = None)
  end.

Lemma finalize_job_places names w :
  job_at id (named names) w →
  (∀ j, lookup_job (w_queue w) id = Some j → job_output_dest_dir cfg j = dest_dir) → dest_dir ≠ [] →
  in_extract (w_inputs w) = [] → apart (outputs names) →
  (∀ n, n ∈ outputs names → under (job_temp_dir cfg id) (dst n) = false ∧ dst n ≠ MANUAL_LST_PATH) →
  wp (finalize_job cfg tree mkdir_ok lst_ok id) (λ e w', placed_output (w_files w) (w_files w') names e) w.
Proof using.
  intros Hw Hdest Hne Hex Hap Hout. unfold finalize_job.
  apply wp_bind. eapply wp_mono; [|by apply wp_deref]. intros j w' (-> & Hn & Hj). cbv zeta.
  rewrite (Hdest j Hj), bool_decide_false by done.
  apply wp_bind. eapply wp_mono; [|apply wp_and; [by apply (quiet_job_enter id JOB_EXTRACTING (named names))|apply enter_extract]].
  intros _ w1 [[Hw1 [Hf1 _]] Hx1].
  apply wp_bind. eapply wp_mono; [|apply wp_and; [by apply (quiet_tick id (named names))|apply tick_extract]].
  intros _ w2 [[Hw2 [Hf2 _]] Hx2]. unfold same_extract in *.
  apply wp_bind. unfold wp at 1, next_extract. rewrite Hx2, Hx1, Hex. cbn [pop].
  apply wp_bind. unfold wp at 1, put. cbn [w_files with_content with_inputs Datatypes.id].
  set (w3 := with_content _ _). assert (w_files w3 = w_files w) as Hf3 by (unfold w3; cbn; congruence).
  assert (job_at id (named names) w3) as Hw3 by (destruct Hw2 as [[] ? ? ?]; by constructor).
  apply wp_bind. eapply wp_mono; [|by apply wp_deref]. intros j3 w' (-> & Hn3 & _). cbv zeta. rewrite Hn3.
  destruct (mkdir_ok dest_dir); [|apply wp_ret; rewrite Hf3; apply kept_refl].
  apply wp_bind. eapply wp_mono; [|by apply move_files_effect]. intros e w4 [Hk Hm]. rewrite Hf3 in Hk, Hm.
  destruct e as [err|]; [by apply wp_ret|]. specialize (Hm eq_refl).
  apply wp_bind. eapply wp_mono; [|apply finish_output_effect]. intros _ w5 [Hu Hs]. apply wp_ret. split; [|done].
  intros n Hin. destruct (Hm n Hin) as (data & Hd1 & Hd2 & _). exists data. split; [done|].
  destruct (Hout n Hin). by rewrite Hs.
Qed.
End moving.


Definition small_config : app_config :=
  AppConfig (ac_nntp app_config_set_defaults) (StorageConfig ($ "/o") ($ "/t")) (QueueConfig 3).

Definition filled_world : world :=
  with_content {[ $ "/t/0a1b2c/a.bin" := [x01; x02; x03] ]} (one_world []).

#[local] Abbreviation finalize_filled codec :=
  (finalize_job (H := codec) small_config (λ _ _, NOther) (λ _, true) true ($ "0a1b2c") filled_world).

Lemma finalize_filled_succeeds (codec : JsonCodec) : fst <$> finalize_filled codec = Some None.
Proof. reflexivity. Qed.

