(* ===== verification/Complete.v ===== *)
(** * A job that goes through ([download/download.c])

    The other side of the theorems of [Download] and [Finalizer], which say what
    holds when a step succeeds: here it is shown that the steps do succeed. With
    no other thread at work, a server that answers and files that verify, one turn
    of the downloader and one of the finalizer take a queued job to its end. *)

From Stdlib Require Import ZArith Lia List.
From Stdlib Require Import Strings.Byte Strings.String.
From stdpp Require Import base list gmap.
From S2P Require Import Prelude Cnum Config Json Paths Job JobStore Queue Par2 Nntp Worker Download Output Finalizer.

(** ** Marking segments *)

Definition flat (fl : list job_file) : list job_segment := mjoin (jf_segments <$> fl).

Definition mark_ids (ms : list cstr) (s : job_segment) : job_segment :=
  if decide (sg_message_id s ∈ ms) then mark_segment s else s.

Definition mark_files (ms : list cstr) (fl : list job_file) : list job_file :=
  (λ f, with_segments f (mark_ids ms <$> jf_segments f)) <$> fl.

Definition distinct_ids (fl : list job_file) : Prop := NoDup (sg_message_id <$> flat fl).

Lemma mark_ids_id ms s : sg_message_id (mark_ids ms s) = sg_message_id s.
Proof. unfold mark_ids. by case_decide. Qed.

Lemma mark_ids_nil (segs : list job_segment) m : m ∉ sg_message_id <$> segs → mark_ids [m] <$> segs = segs.
Proof.
  intros Hm. rewrite <- (list_fmap_id segs) at 2. apply list_fmap_ext. intros i s Hs. unfold mark_ids.
  rewrite decide_False; [done|]. intros He%list_elem_of_singleton. apply Hm. rewrite <- He.
  by apply list_elem_of_fmap_2, (list_elem_of_lookup_2 _ i).
Qed.

Lemma mark_first_mark segs m :
  NoDup (sg_message_id <$> segs) →
  match mark_first segs m with
  | Some segs' => segs' = mark_ids [m] <$> segs ∧ m ∈ sg_message_id <$> segs
  | None => m ∉ sg_message_id <$> segs
  end.
Proof.
  induction segs as [|s segs IH]; intros Hnd; cbn [mark_first]; [by apply not_elem_of_nil|].
  cbn [fmap list_fmap] in Hnd. apply NoDup_cons in Hnd as [Hs Hnd]. case_decide as Hd.
  - split; [|cbn; rewrite Hd; apply list_elem_of_here]. cbn [fmap list_fmap]. rewrite mark_ids_nil by congruence.
    unfold mark_ids. rewrite decide_True; [done|]. rewrite Hd. apply list_elem_of_here.
  - specialize (IH Hnd). destruct (mark_first segs m) as [segs'|]; cbn [fmap list_fmap option_fmap option_map].
    + destruct IH as [-> Hin]. split; [|by apply list_elem_of_further]. f_equal. unfold mark_ids.
      by rewrite decide_False by (intros ?%list_elem_of_singleton; done).
    + by rewrite not_elem_of_cons.
Qed.

Lemma with_segments_same f : with_segments f (jf_segments f) = f.
Proof. by destruct f. Qed.

Lemma mark_files_nil m fl : m ∉ sg_message_id <$> flat fl → mark_files [m] fl = fl.
Proof.
  induction fl as [|f fl IH]; [done|]. unfold flat, mark_files in *. cbn [fmap list_fmap]. rewrite mjoin_cons, fmap_app.
  intros [H1 H2]%not_elem_of_app. rewrite IH by done. by rewrite mark_ids_nil, with_segments_same.
Qed.

Lemma mark_in_files_mark fl m :
  distinct_ids fl → default fl (mark_in_files fl m) = mark_files [m] fl.
Proof.
  unfold distinct_ids. induction fl as [|f fl IH]; [done|]. unfold flat in *. cbn [fmap list_fmap].
  rewrite mjoin_cons, fmap_app. intros (Hf & Hfl & Hnd)%NoDup_app. cbn [mark_in_files].
  pose proof (mark_first_mark (jf_segments f) m Hf) as Hm. destruct (mark_first (jf_segments f) m) as [segs|].
  - destruct Hm as [-> Hin].
    change (with_segments f (mark_ids [m] <$> jf_segments f) :: fl =
      with_segments f (mark_ids [m] <$> jf_segments f) :: mark_files [m] fl).
    by rewrite mark_files_nil by apply Hfl, Hin.
  - specialize (IH Hnd). unfold mark_files at 1. cbn [fmap list_fmap]. rewrite mark_ids_nil, with_segments_same by done.
    change (default (f :: fl) (cons f <$> mark_in_files fl m) = f :: mark_files [m] fl).
    rewrite <- IH. by destruct (mark_in_files fl m).
Qed.

Lemma mark_files_distinct ms fl : distinct_ids fl → distinct_ids (mark_files ms fl).
Proof.
  unfold distinct_ids. assert (sg_message_id <$> flat (mark_files ms fl) = sg_message_id <$> flat fl) as ->; [|done].
  unfold flat, mark_files. induction fl as [|f fl IH]; [done|]. cbn [fmap list_fmap with_segments jf_segments].
  rewrite !mjoin_cons, !fmap_app. f_equal; [|exact IH]. rewrite <- list_fmap_compose. apply list_fmap_ext. intros i s _.
  apply mark_ids_id.
Qed.

Lemma mark_files_cons m ms fl : mark_files ms (mark_files [m] fl) = mark_files (m :: ms) fl.
Proof.
  unfold mark_files. rewrite <- list_fmap_compose. apply list_fmap_ext. intros i f _. cbn.
  rewrite <- list_fmap_compose. unfold with_segments. cbn. f_equal. apply list_fmap_ext. intros k s _. cbn.
  unfold mark_ids. destruct (decide (sg_message_id s ∈ [m])) as [H1|H1], (decide (sg_message_id s ∈ m :: ms)) as [H2|H2];
    cbn [mark_segment sg_message_id]; try case_decide; try done; set_solver.
Qed.

Lemma filter_every {A} (P : A → Prop) `{!∀ x, Decision (P x)} (l : list A) : Forall P l → filter P l = l.
Proof. induction 1 as [|x l Hx _ IH]; [done|]. by rewrite filter_cons_True, IH. Qed.

Lemma mark_files_complete ms fl :
  (∀ f s, f ∈ fl → job_file_is_par2_volume (jf_filename f) = false → s ∈ jf_segments f →
     sg_downloaded s = true ∨ sg_message_id s ∈ ms) →
  missing_files (mark_files ms fl) = [].
Proof.
  intros Hall. unfold missing_files, mark_files. induction fl as [|f fl IH]; [done|].
  cbn [fmap list_fmap omap list_omap with_segments jf_filename].
  assert (omap (λ jf, if job_file_is_par2_volume (jf_filename jf) then None else file_missing jf)
    (mark_files ms fl) = []) as Hrest.
  { apply IH. intros g s Hg. apply Hall. by apply list_elem_of_further. }
  destruct (job_file_is_par2_volume (jf_filename f)) eqn:Hv; [exact Hrest|].
  assert (file_missing (with_segments f (mark_ids ms <$> jf_segments f)) = None) as ->; [|exact Hrest].
  unfold file_missing. cbv zeta. cbn [with_segments jf_segments].
  assert (filter (λ s, sg_downloaded s = true) (mark_ids ms <$> jf_segments f) = mark_ids ms <$> jf_segments f) as ->;
    [|by rewrite Nat.ltb_irrefl].
  apply filter_every. apply Forall_fmap, Forall_forall. intros s Hs. cbn. unfold mark_ids. case_decide; [done|].
  destruct (Hall f s (list_elem_of_here _ _) Hv Hs); [done|contradiction].
Qed.

(** ** Runs without disturbance *)

(** [m] returns [a], in a world like [P]. *)
Definition goes {A} (m : M A) (w : world) (a : A) (P : world → Prop) : Prop := ∃ w', m w = Some (a, w') ∧ P w'.

Lemma goes_bind {A B} (m : M A) (k : A → M B) w a b (P Q : world → Prop) :
  goes m w a P → (∀ w', P w' → goes (k a) w' b Q) → goes (m ≫= k) w b Q.
Proof. intros (w' & Hm & Hp) Hk. unfold goes. rewrite (run_bind _ _ _ _ _ Hm). by apply Hk. Qed.

Lemma goes_ret {A} (a : A) w (P : world → Prop) : P w → goes (mret a) w a P.
Proof. intros. by exists w. Qed.

Section undisturbed.
Context `{JsonCodec}.

(** The world of one job that no other thread touches: every call succeeds, but
    for the connections and fetches that are listed. *)
Definition lone_world (nets : list network) (fts : list fetches) (j : job) (fs : file_system) (fq : list cstr)
    (w : world) : Prop :=
  ∃ dir d inst ids, w = World (Queue dir [j]) d fs false fq inst ids [] (Inputs [] nets [] fts [] [] []).

Context {nets : list network} {fts : list fetches}.
#[local] Abbreviation lone := (lone_world nets fts).

Lemma lone_lookup j fs fq w : lone j fs fq w → lookup_job (w_queue w) (j_id j) = Some j.
Proof using. intros (dir & d & inst & ids & ->). unfold lookup_job, queue_find_job. cbn. by rewrite decide_True. Qed.

Lemma goes_tick j fs fq w : lone j fs fq w → goes tick w () (lone j fs fq).
Proof using. intros (dir & d & inst & ids & ->). eexists. split; [done|]. by eexists _, _, _, _. Qed.

Lemma goes_deref j fs fq w : lone j fs fq w → goes (deref (j_id j)) w j (lone j fs fq).
Proof using. intros Hw. exists w. split; [|done]. by eapply run_deref, lone_lookup. Qed.

Lemma goes_store (f : job → job) j fs fq w :
  lone j fs fq w → goes (store (j_id j) f) w () (lone (f j) fs fq).
Proof using.
  intros (dir & d & inst & ids & ->). unfold goes, store, queue_find_job. cbn [w_queue q_jobs index_of].
  rewrite decide_True by done. cbn. eexists. split; [done|]. by eexists _, _, _, _.
Qed.

Lemma goes_save j fs fq w : lone j fs fq w → goes (save_job (j_id j)) w () (lone j fs fq).
Proof using.
  intros Hw. unfold save_job. pose proof (lone_lookup _ _ _ _ Hw) as Hl.
  destruct Hw as (dir & d & inst & ids & ->). cbn [w_queue] in Hl.
  unfold goes, next_save, mbind, M_bind. cbn [w_inputs in_saves pop].
  rewrite (run_deref _ _ j) by exact Hl. eexists. split; [done|]. by eexists _, _, _, _.
Qed.

Lemma goes_malloc {A} (k : bool → M A) j fs fq w a P :
  lone j fs fq w → (∀ w', lone j fs fq w' → goes (k true) w' a P) → goes (r ← next_malloc; k r) w a P.
Proof using.
  intros (dir & d & inst & ids & ->) Hk. eapply (goes_bind _ _ _ true _ (lone j fs fq)); [|done].
  eexists. split; [done|]. by eexists _, _, _, _.
Qed.

Lemma goes_files (fs' : file_system) j fs fq w :
  lone j fs fq w → goes (put (with_content fs')) w () (lone j fs' fq).
Proof using. intros (dir & d & inst & ids & ->). eexists. split; [done|]. by eexists _, _, _, _. Qed.

Lemma goes_get_files j fs fq w : lone j fs fq w → goes (get w_files) w fs (lone j fs fq).
Proof using. intros Hw. exists w. split; [|done]. by destruct Hw as (dir & d & inst & ids & ->). Qed.

Lemma goes_locked {A} (m : M A) j fs fq w a P :
  lone j fs fq w → (∀ w', lone j fs fq w' → goes m w' a P) → goes (locked m) w a P.
Proof using. intros Hw Hm. unfold locked. eapply goes_bind; [by apply goes_tick|done]. Qed.

Lemma job_set_state_eq j s : fst (job_set_state j s) = set_state s j.
Proof using. unfold job_set_state. case_decide as Hd; [|done]. rewrite <- Hd. by destruct j. Qed.

Lemma goes_state s j fs fq w : lone j fs fq w → goes (set_job_state (j_id j) s) w () (lone (set_state s j) fs fq).
Proof using. intros Hw. unfold set_job_state. rewrite <- job_set_state_eq. by apply (goes_store (λ j, fst (job_set_state j s))). Qed.

Lemma goes_enter s j fs fq w : lone j fs fq w → goes (job_enter (j_id j) s) w () (lone (set_state s j) fs fq).
Proof using.
  intros Hw. unfold job_enter. eapply goes_locked; [done|]. intros w1 Hw1.
  eapply goes_bind; [by apply goes_state|]. intros w2 Hw2. by apply (goes_save (set_state s j)).
Qed.

Lemma goes_busy (b : bool) j fs fq w :
  lone j fs fq w → goes (if b then job_busy_begin (j_id j) else job_busy_end (j_id j)) w () (lone (set_busy b j) fs fq).
Proof using. intros Hw. destruct b; (eapply goes_locked; [done|]); intros w1 Hw1; by apply goes_store. Qed.

(** Neither paused nor cancelled. *)
Definition active (j : job) : Prop := j_state j ≠ JOB_PAUSED ∧ j_state j ≠ JOB_CANCELLED.

Lemma goes_continue j fs fq w : active j → lone j fs fq w → goes (dl_should_continue (j_id j)) w true (lone j fs fq).
Proof using.
  intros [Hp Hc] Hw. unfold dl_should_continue, app_is_shutting_down.
  eapply (goes_bind _ _ _ false).
  { eapply goes_bind; [by apply goes_tick|]. intros w1 Hw1. exists w1. split; [|exact Hw1].
    by destruct Hw1 as (dir & d & inst & ids & ->). }
  intros w1 Hw1. cbn beta iota. eapply goes_locked; [done|]. intros w2 Hw2. eapply goes_bind; [by apply goes_deref|].
  intros w3 Hw3. rewrite !bool_decide_false by done. by apply goes_ret.
Qed.

(** A call that reports its progress is never told to stop. *)
Lemma goes_with_progress {A} (call : (Z → Z → bool) → A) j fs fq w :
  active j → lone j fs fq w →
  ∃ cb, (∀ d t, cb d t = false) ∧ goes (with_progress (j_id j) call) w (call cb) (lone j fs fq).
Proof using.
  intros [_ Hc] Hw. unfold with_progress. pose proof (lone_lookup _ _ _ _ Hw) as Hl.
  destruct Hw as (dir & d & inst & ids & ->). cbn in Hl. eexists. split; [|eexists; split; [reflexivity|]].
  - intros b t. unfold stopped_at. cbn. rewrite Hl. by apply bool_decide_false.
  - by eexists _, _, _, _.
Qed.
End undisturbed.

(** ** The downloader's turn *)

Section turn.
Context `{JsonCodec} (cfg : app_config).
Context (md5 : list byte → list byte) (qsort_slices : list par2_slice → list par2_slice).
Context (list_dir : file_system → cstr → list cstr) (writable : cstr → bool).
Context (statfs : cstr → option (Z * Z)) (fuel : nat).

(** The server lets the program in. *)
Definition server_accepts (net : network) : Prop :=
  ∃ conn rest, nntp_conn_open net (negb (nc_tls (ac_nntp cfg) =? 0)) = Some (conn, rest) ∧
    (nc_user (ac_nntp cfg) = [] ∨
     ∃ conn' rc, nntp_conn_authenticate conn (nc_user (ac_nntp cfg)) (nc_pass (ac_nntp cfg)) = Some (conn', rc) ∧ 0 <= rc).

Definition space_for (j : job) : Prop :=
  let free_bytes := path_free_bytes statfs (job_temp_dir cfg (j_id j)) in
  free_bytes < 0 ∨ job_remaining_bytes j <= free_bytes.

Lemma goes_reachable net nets fts j fs fq w :
  server_accepts net → lone_world (net :: nets) fts j fs fq w →
  goes (check_server_reachable cfg) w None (lone_world nets fts j fs fq).
Proof using.
  intros (conn & rest & Hopen & Hauth) (dir & d & inst & ids & ->). unfold check_server_reachable. cbv zeta.
  eapply (goes_bind _ _ _ net _ (lone_world nets fts j fs fq)); [eexists; split; [done|]; by eexists _, _, _, _|].
  intros w1 Hw1. rewrite Hopen. destruct Hauth as [Hu|(conn' & rc & Ha & Hrc)].
  - rewrite bool_decide_true by done. by apply goes_ret.
  - case_bool_decide; [by apply goes_ret|].
    eapply (goes_bind _ _ _ (conn', rc)); [rewrite Ha; by apply goes_ret|]. intros w2 Hw2. cbn beta iota.
    rewrite (proj2 (Z.ltb_ge rc 0)) by done. by apply goes_ret.
Qed.

Definition downloading (j : job) : job := set_state JOB_DOWNLOADING (set_last_error [] j).

Lemma goes_prepare net nets fts j fs fq w :
  server_accepts net → space_for j → lone_world (net :: nets) fts j fs fq w →
  goes (download_prepare cfg statfs (j_id j)) w true (lone_world nets fts (downloading j) fs fq).
Proof using.
  intros Hnet Hsp Hw. unfold download_prepare. eapply goes_bind; [eapply goes_reachable; [exact Hnet|exact Hw]|]. intros w1 Hw1. cbn beta iota.
  eapply goes_bind; [by eapply goes_deref|]. intros w2 Hw2. cbv zeta.
  assert ((0 <=? path_free_bytes statfs (job_temp_dir cfg (j_id j))) &&
          (path_free_bytes statfs (job_temp_dir cfg (j_id j)) <? job_remaining_bytes j) = false) as ->.
  { unfold space_for in Hsp. cbv zeta in Hsp. apply andb_false_iff. rewrite Z.leb_gt, Z.ltb_ge. lia. }
  eapply (goes_bind _ _ _ ()); [|intros w3 Hw3; by apply goes_ret].
  eapply goes_locked; [done|]. intros w3 Hw3.
  eapply goes_bind; [by eapply goes_store|]. intros w4 Hw4.
  eapply goes_bind; [by eapply (goes_state JOB_DOWNLOADING (set_last_error [] j))|]. intros w5 Hw5.
  by eapply (goes_save (downloading j)).
Qed.

(** The segments still to be fetched. *)
Definition undone (segs : list job_segment) : list cstr :=
  sg_message_id <$> filter (λ s, sg_downloaded s = false) segs.

Lemma goes_dispatch_segments nets fts j fs fq segs w :
  active j → lone_world nets fts j fs fq w →
  goes (dispatch_segments (j_id j) segs) w (undone segs) (lone_world nets fts j fs fq).
Proof using.
  intros Ha. revert w. induction segs as [|s segs IH]; intros w Hw; cbn [dispatch_segments]; [by apply goes_ret|].
  eapply goes_bind; [by eapply goes_continue|]. intros w1 Hw1. cbn beta iota.
  eapply goes_bind; [by apply IH|]. intros w2 Hw2. unfold undone. rewrite filter_cons.
  destruct (sg_downloaded s) eqn:Hd.
  - rewrite decide_False by congruence. by apply goes_ret.
  - rewrite decide_True by done. by apply goes_ret.
Qed.

Lemma goes_dispatch_files nets fts j fs fq files w :
  active j → lone_world nets fts j fs fq w →
  goes (dispatch_files (j_id j) files) w (undone (flat files)) (lone_world nets fts j fs fq).
Proof using.
  intros Ha. revert w. induction files as [|f files IH]; intros w Hw; cbn [dispatch_files]; [by apply goes_ret|].
  eapply goes_bind; [by eapply goes_continue|]. intros w1 Hw1. cbn beta iota.
  eapply goes_bind; [by eapply goes_dispatch_segments|]. intros w2 Hw2.
  eapply goes_bind; [by apply IH|]. intros w3 Hw3.
  assert (undone (flat (f :: files)) = undone (jf_segments f) ++ undone (flat files)) as ->.
  { unfold undone, flat. cbn [fmap list_fmap]. by rewrite mjoin_cons, filter_app, fmap_app. }
  by apply goes_ret.
Qed.

(** The job with these segments marked. *)
Definition fetched (ms : list cstr) (j : job) : job := set_files (mark_files ms (j_files j)) j.

Lemma marked_eq m j : distinct_ids (j_files j) → fst (job_mark_segment_downloaded j m) = fetched [m] j.
Proof using.
  intros Hd. unfold job_mark_segment_downloaded, fetched. rewrite <- (mark_in_files_mark _ _ Hd).
  destruct (mark_in_files (j_files j) m); [done|]. by destruct j.
Qed.

Lemma fetched_nil j : fetched [] j = j.
Proof using.
  unfold fetched, mark_files. assert ((λ f, with_segments f (mark_ids [] <$> jf_segments f)) <$> j_files j = j_files j) as ->.
  - rewrite <- (list_fmap_id (j_files j)) at 2. apply list_fmap_ext. intros i f _. cbn.
    assert (mark_ids [] <$> jf_segments f = jf_segments f) as ->; [|by destruct f].
    rewrite <- (list_fmap_id (jf_segments f)) at 2. apply list_fmap_ext. intros k s _. unfold mark_ids.
    rewrite decide_False; [done|]. apply not_elem_of_nil.
  - by destruct j.
Qed.

Lemma goes_checkpoint nets fts j fs fq w :
  lone_world nets fts j fs fq w → goes (write_checkpoint (j_id j)) w () (lone_world nets fts j fs fq).
Proof using.
  intros Hw. unfold write_checkpoint.
  eapply (goes_bind _ _ _ (job_progress_snapshot j) _ (lone_world nets fts j fs fq)).
  { eapply goes_locked; [done|]. intros w1 Hw1. eapply goes_bind; [by eapply goes_deref|]. intros. by apply goes_ret. }
  intros w1 Hw1. pose proof (lone_lookup _ _ _ _ Hw1) as Hl. destruct Hw1 as (dir & d & inst & ids & ->). cbn in Hl.
  unfold goes, next_save, mbind, M_bind. cbn [w_inputs in_saves pop].
  rewrite (run_deref _ _ j) by exact Hl. eexists. split; [done|]. by eexists _, _, _, _.
Qed.

Lemma goes_segments_done nets fts f j fs fq sent w :
  (∀ m, ft_ok f m = true) → distinct_ids (j_files j) → lone_world nets fts j fs fq w →
  goes (segments_done (j_id j) f sent) w () (lone_world nets fts (fetched sent j) fs fq).
Proof using.
  intros Hok. revert j w. induction sent as [|m sent IH]; intros j w Hd Hw; cbn [segments_done].
  { apply goes_ret. by rewrite fetched_nil. }
  assert (fetched (m :: sent) j = fetched sent (fetched [m] j)) as ->.
  { unfold fetched. cbn [j_files set_files]. by rewrite mark_files_cons. }
  eapply (goes_bind _ _ _ () _ (lone_world nets fts (fetched [m] j) fs fq)).
  - unfold segment_done. rewrite Hok. eapply (goes_bind _ _ _ () _ (lone_world nets fts (fetched [m] j) fs fq)).
    + eapply goes_locked; [done|]. intros w1 Hw1. rewrite <- marked_eq by done.
      by eapply (goes_store (λ j, fst (job_mark_segment_downloaded j m))).
    + intros w1 Hw1. destruct (ft_checkpoint f m); [|by apply goes_ret]. by eapply (goes_checkpoint _ _ (fetched [m] j)).
  - intros w1 Hw1. apply (IH (fetched [m] j)); [by apply mark_files_distinct|done].
Qed.

Definition content_ids (j : job) : list cstr := undone (flat (phase_files false (j_files j))).

Lemma goes_phase nets fts f j fs fq w :
  active j → (∀ m, ft_ok f m = true) → distinct_ids (j_files j) → lone_world nets (f :: fts) j fs fq w →
  goes (download_phase (j_id j) false) w true
    (lone_world nets fts (fetched (content_ids j) j) (ft_files f fs) fq).
Proof using.
  intros Ha Hok Hd Hw. unfold download_phase. eapply goes_malloc; [done|]. intros w1 Hw1.
  eapply goes_bind; [by eapply goes_deref|]. intros w2 Hw2.
  eapply (goes_bind _ _ _ ()); [|intros w3 Hw3; by eapply (goes_continue (fetched (content_ids j) j))].
  unfold download_segments. eapply goes_malloc; [done|]. intros w3 Hw3.
  eapply goes_bind; [by eapply goes_dispatch_files|]. intros w4 Hw4.
  eapply (goes_bind _ _ _ f _ (lone_world nets fts j fs fq)).
  { destruct Hw4 as (dir & d & inst & ids & ->). eexists. split; [done|]. by eexists _, _, _, _. }
  intros w5 Hw5. eapply (goes_bind _ _ _ () _ (lone_world nets fts j (ft_files f fs) fq)).
  { destruct Hw5 as (dir & d & inst & ids & ->). eexists. split; [done|]. by eexists _, _, _, _. }
  intros w6 Hw6. by eapply goes_segments_done.
Qed.

(** ** Verification *)

(** Every file the set knows is on disk, whole. *)
Definition intact (id : cstr) (set : par2_set) (fs : file_system) (names : list cstr) : Prop :=
  ∀ name pf, name ∈ names → par2_find_file set name = Some pf →
    0 <= pf_block_count pf ∧
    ∃ data, fs !! job_file_path cfg id name = Some data ∧ md5 data = pf_hash_full pf ∧
            Z.of_nat (length data) <= pf_length pf.

Lemma trim_intact path pf fs data :
  fs !! path = Some data → Z.of_nat (length data) <= pf_length pf → trim_to_declared writable path pf fs = fs.
Proof using.
  intros Hd Hl. unfold trim_to_declared. rewrite Hd, (proj2 (Z.ltb_ge (pf_length pf) _)) by done.
  by rewrite andb_false_r.
Qed.

Lemma goes_verify_files nets fts j fs fq set total names bytes_done w :
  active j → intact (j_id j) set fs names → lone_world nets fts j fs fq w →
  goes (verify_files cfg md5 writable (j_id j) set total bytes_done names) w None (lone_world nets fts j fs fq).
Proof using.
  intros Ha. revert bytes_done w. induction names as [|name names IH]; intros bytes_done w Hin Hw; cbn [verify_files];
    [by apply goes_ret|].
  assert (intact (j_id j) set fs names) as Hin' by (intros n pf Hn; apply Hin; by apply list_elem_of_further).
  destruct (par2_find_file set name) as [pf|] eqn:Hpf; [|by apply IH].
  destruct (Hin name pf (list_elem_of_here _ _) Hpf) as (Hc & data & Hdata & Hmd5 & Hlen).
  eapply (goes_bind _ _ _ () _ (lone_world nets fts j fs fq)).
  { destruct Hw as (dir & d & inst & ids & ->). eexists. split; [done|]. cbn [w_files]. rewrite (trim_intact _ _ _ data) by done.
    by eexists _, _, _, _. }
  intros w1 Hw1. eapply goes_bind; [by eapply goes_get_files|]. intros w2 Hw2.
  destruct (goes_with_progress (λ cb, par2_verify_file md5 set pf (fs !! job_file_path cfg (j_id j) name)
    (Some (Par2Progress bytes_done total (Some cb)))) j fs fq w2 Ha Hw2) as (cb & Hcb & Hgo).
  eapply goes_bind; [exact Hgo|]. intros w3 Hw3. rewrite Hdata.
  pose proof (par2_verify_file_eq md5 set pf data (Some (Par2Progress bytes_done total (Some cb))) Hcb Hc) as Hv.
  apply fmap_Some in Hv as ([report pg] & -> & Hr). cbn [fst] in Hr. subst report.
  unfold verify_spec. rewrite decide_True by done. cbn [vr_result]. by apply IH.
Qed.

Definition verified_job (set : par2_set) (j : job) : job :=
  if (length (ps_files set) =? 0)%nat then j else set_state JOB_VERIFYING j.

Lemma goes_verify nets fts j fs fq set w :
  active j → scan_temp_dir cfg md5 qsort_slices list_dir fuel (j_id j) fs = Some set →
  intact (j_id j) set fs (jf_filename <$> j_files j) → lone_world nets fts j fs fq w →
  goes (par2_verify_job cfg md5 qsort_slices list_dir writable fuel (j_id j)) w None
    (lone_world nets fts (verified_job set j) fs fq).
Proof using.
  intros Ha Hscan Hin Hw. unfold par2_verify_job, verified_job. eapply goes_malloc; [done|]. intros w1 Hw1.
  eapply goes_bind; [by eapply goes_get_files|]. intros w2 Hw2. rewrite Hscan. cbn [of_option].
  eapply goes_bind; [by apply goes_ret|]. intros w3 Hw3. destruct (_ =? 0)%nat; [by apply goes_ret|].
  eapply goes_bind; [by eapply (goes_enter JOB_VERIFYING)|]. intros w4 Hw4.
  eapply goes_bind; [by eapply (goes_deref (set_state JOB_VERIFYING j))|]. intros w5 Hw5. cbv zeta.
  by apply (goes_verify_files _ _ (set_state JOB_VERIFYING j)).
Qed.

Definition handed_over (set : par2_set) (j : job) : job :=
  set_busy false (verified_job set (set_busy true j)).

Lemma goes_download_verify nets fts j fs fq set w :
  active j → missing_files (j_files j) = [] →
  scan_temp_dir cfg md5 qsort_slices list_dir fuel (j_id j) fs = Some set →
  intact (j_id j) set fs (jf_filename <$> j_files j) → lone_world nets fts j fs fq w →
  goes (download_verify cfg md5 qsort_slices list_dir writable fuel (j_id j)) w true
    (lone_world nets fts (handed_over set j) fs fq).
Proof using.
  intros Ha Hm Hscan Hin Hw. unfold download_verify. eapply goes_bind; [by eapply goes_deref|]. intros w1 Hw1. rewrite Hm.
  eapply goes_bind; [by eapply (goes_busy true)|]. intros w2 Hw2.
  eapply goes_bind; [by eapply (goes_verify _ _ (set_busy true j))|]. intros w3 Hw3. cbn beta iota.
  assert (j_id (verified_job set (set_busy true j)) = j_id j) as Hid.
  { unfold verified_job. by destruct (_ =? 0)%nat. }
  eapply (goes_bind _ _ _ ()); [rewrite <- Hid; by eapply (goes_busy false)|]. intros w4 Hw4. by apply goes_ret.
Qed.

(** The job at the end of its download. *)
Definition downloaded (set : par2_set) (j : job) : job :=
  handed_over set (fetched (content_ids j) (downloading j)).

Lemma undone_marked j f s :
  f ∈ j_files j → job_file_is_par2_volume (jf_filename f) = false → s ∈ jf_segments f →
  sg_downloaded s = true ∨ sg_message_id s ∈ content_ids j.
Proof using.
  intros Hf Hv Hs. destruct (sg_downloaded s) eqn:Hd; [by left|right].
  unfold content_ids, undone, phase_files, flat. apply list_elem_of_fmap_2, list_elem_of_filter. split; [done|].
  apply list_elem_of_join. exists (jf_segments f). split; [done|]. apply list_elem_of_fmap_2, list_elem_of_filter. done.
Qed.

Lemma fetched_names ms j : jf_filename <$> j_files (fetched ms j) = jf_filename <$> j_files j.
Proof using.
  cbn [fetched j_files set_files]. unfold mark_files. rewrite <- list_fmap_compose. by apply list_fmap_ext.
Qed.

Lemma goes_turn net f j fs set w :
  j_state j = JOB_QUEUED → distinct_ids (j_files j) → server_accepts net → space_for j → (∀ m, ft_ok f m = true) →
  scan_temp_dir cfg md5 qsort_slices list_dir fuel (j_id j) (ft_files f fs) = Some set →
  intact (j_id j) set (ft_files f fs) (jf_filename <$> j_files j) →
  lone_world [net] [f] j fs [] w →
  goes (downloader_step cfg md5 qsort_slices list_dir writable statfs fuel) w true
    (lone_world [] [] (downloaded set j) (ft_files f fs) [j_id j]).
Proof using.
  intros Hst Hd Hnet Hsp Hok Hscan Hin Hw. unfold downloader_step.
  eapply (goes_bind _ _ _ (Some j) _ (lone_world [net] [f] j fs [])).
  { eapply goes_locked; [done|]. intros w1 Hw1. exists w1. split; [|done].
    destruct Hw1 as (dir & d & inst & ids & ->). unfold get, queue_find_next_queued. cbn. by rewrite decide_True. }
  intros w1 Hw1. cbn beta iota. eapply (goes_bind _ _ _ ()); [|intros w2 Hw2; by apply goes_ret].
  unfold download_job. eapply goes_bind; [eapply goes_prepare; [exact Hnet|done|exact Hw1]|]. intros w2 Hw2. cbn beta iota.
  eapply goes_bind; [by eapply (goes_phase _ _ _ (downloading j))|]. intros w3 Hw3. cbn beta iota.
  change (content_ids (downloading j)) with (content_ids j) in Hw3.
  eapply goes_bind.
  { eapply (goes_download_verify _ _ (fetched (content_ids j) (downloading j))); [done| |exact Hscan| |exact Hw3].
    - apply mark_files_complete. exact (undone_marked j).
    - rewrite fetched_names. exact Hin. }
  intros w4 Hw4. cbn beta iota. unfold finalize_enqueue. eapply goes_malloc; [done|]. intros w5 Hw5. cbn beta iota.
  destruct Hw5 as (dir & d & inst & ids & ->). eexists. split; [done|]. by eexists _, _, _, _.
Qed.
End turn.

(** ** The finalizer's turn *)

Section finalizing.
Context `{JsonCodec} (cfg : app_config).
Context (tree : file_system → cstr → node) (mkdir_ok : cstr → bool) (lst_ok : bool).

(** [lone_world] with files as [F] says. *)
Definition lone_files (j : job) (F : file_system → Prop) (fq : list cstr) (w : world) : Prop :=
  ∃ fs, F fs ∧ lone_world [] [] j fs fq w.

Lemma lone_w_files nets fts j fs fq w : lone_world nets fts j fs fq w → w_files w = fs.
Proof using. by intros (dir & d & inst & ids & ->). Qed.

Lemma goes_move_file id src dst bytes_done total j fs fq w data :
  fs !! src = Some data → lone_world [] [] j fs fq w →
  goes (move_file id src dst bytes_done total) w (true, bytes_done + Z.of_nat (length data))
    (lone_world [] [] j (<[dst := data]> (delete src fs)) fq).
Proof using.
  intros Hs (dir & d & inst & ids & ->). unfold goes, move_file, get, next_move, mbind, M_bind, put, mret, M_ret.
  cbn [w_files w_inputs in_moves pop with_inputs with_content]. rewrite Hs. cbn [w_files with_content with_inputs].
  eexists. split; [done|]. by eexists _, _, _, _.
Qed.

Lemma goes_move_files id dest_dir total names bytes_done j fs fq w :
  apart cfg id dest_dir (outputs names) → (∀ n, n ∈ outputs names → is_Some (fs !! job_file_path cfg id n)) →
  lone_world [] [] j fs fq w →
  goes (move_files cfg id dest_dir bytes_done total names) w None (lone_files j (λ _, True) fq).
Proof using.
  revert bytes_done fs w. induction names as [|name names IH]; intros bytes_done fs w Hap Hin Hw; cbn [move_files].
  { apply goes_ret. by exists fs. }
  unfold outputs in Hap, Hin. rewrite filter_cons in Hap, Hin. destruct (is_sidecar_file name).
  { rewrite decide_False in Hap, Hin by done. by eapply IH. }
  rewrite decide_True in Hap, Hin by done. fold (outputs names) in Hap, Hin.
  destruct Hap as (Hs & Hd & Hsd). cbn [fmap list_fmap] in Hs, Hd.
  apply NoDup_cons in Hs as [Hs Hs']. apply NoDup_cons in Hd as [Hd Hd'].
  destruct (Hin name (list_elem_of_here _ _)) as [data Hdata].
  eapply goes_bind; [by eapply (goes_move_file id _ (output_path dest_dir name) _ _ _ _ _ _ data)|]. intros w1 Hw1. cbn beta iota.
  eapply IH; [|intros n Hn|exact Hw1].
  - split; [done|]. split; [done|]. intros n m Hn Hm. apply Hsd; by apply list_elem_of_further.
  - rewrite lookup_insert_ne, lookup_delete_ne.
    + apply Hin. by apply list_elem_of_further.
    + intros He. apply Hs. rewrite He. by apply list_elem_of_fmap_2.
    + intros He. symmetry in He. revert He. apply Hsd; [by apply list_elem_of_further|apply list_elem_of_here].
Qed.

Lemma goes_move_all id dest_dir total names bytes_done j fs fq w :
  apart cfg id dest_dir (outputs names) → (∀ n, n ∈ outputs names → is_Some (fs !! job_file_path cfg id n)) →
  lone_world [] [] j fs fq w →
  goes (move_files cfg id dest_dir bytes_done total names) w None
    (lone_files j (λ fs', moved cfg id dest_dir fs fs' (outputs names)) fq).
Proof using.
  intros Hap Hin Hw. destruct (goes_move_files id dest_dir total names bytes_done j fs fq w Hap Hin Hw)
    as (w' & Hrun & fs' & _ & Hw'). exists w'. split; [done|]. exists fs'. split; [|done].
  pose proof (wp_result _ _ _ _ _ (move_files_effect cfg id dest_dir names bytes_done total w Hap) Hrun) as [_ Hm].
  rewrite <- (lone_w_files _ _ _ _ _ _ Hw), <- (lone_w_files _ _ _ _ _ _ Hw'). by apply Hm.
Qed.

(** The same with any size of the output. *)
Definition finished (j : job) (F : file_system → Prop) (fq : list cstr) (w : world) : Prop :=
  ∃ bytes fs, F fs ∧ lone_world [] [] (set_final_bytes bytes j) fs fq w.

Lemma goes_finish_any dest_dir j fs fq w :
  lone_world [] [] j fs fq w →
  goes (finish_output cfg tree mkdir_ok lst_ok (j_id j) dest_dir) w () (finished j (λ _, True) fq).
Proof using.
  intros Hw. unfold finish_output.
  eapply goes_bind; [by eapply goes_get_files|]. intros w1 Hw1.
  eapply goes_bind; [by eapply goes_store|]. intros w2 Hw2.
  eapply goes_bind; [by eapply (goes_deref (set_final_bytes _ j))|]. intros w3 Hw3.
  eapply (goes_bind _ _ _ () _ (finished j (λ _, True) fq)).
  - cbn [j_add_to_shadowmount set_final_bytes]. destruct (j_add_to_shadowmount j).
    + destruct Hw3 as (dir & d & inst & ids & ->). eexists. split; [done|]. eexists _, _. split; [done|].
      by eexists _, _, _, _.
    + apply goes_ret. by eexists _, _.
  - intros w4 (bytes & fs4 & _ & dir & d & inst & ids & ->). eexists. split; [done|]. eexists _, _. split; [done|].
    by eexists _, _, _, _.
Qed.

(** Nothing is left below the temporary directory, and the rest is as it was, but
    for the list of titles to mount. *)
Definition cleaned (id : cstr) (fs fs' : file_system) : Prop :=
  (∀ p, under (job_temp_dir cfg id) p = true → fs' !! p = None) ∧
  (∀ p, under (job_temp_dir cfg id) p = false → p ≠ MANUAL_LST_PATH → fs' !! p = fs !! p).

Lemma goes_finish dest_dir j fs fq w :
  lone_world [] [] j fs fq w →
  goes (finish_output cfg tree mkdir_ok lst_ok (j_id j) dest_dir) w () (finished j (cleaned (j_id j) fs) fq).
Proof using.
  intros Hw. destruct (goes_finish_any dest_dir j fs fq w Hw) as (w' & Hrun & bytes & fs' & _ & Hw').
  exists w'. split; [done|]. exists bytes, fs'. split; [|done]. unfold cleaned.
  rewrite <- (lone_w_files _ _ _ _ _ _ Hw), <- (lone_w_files _ _ _ _ _ _ Hw').
  exact (wp_result _ _ _ _ _ (finish_output_effect cfg tree mkdir_ok lst_ok (j_id j) dest_dir w) Hrun).
Qed.

(** The files are there, and apart from where they go. *)
Definition ready_to_move (j : job) (fs : file_system) : Prop :=
  let dest_dir := job_output_dest_dir cfg j in
  let names := jf_filename <$> j_files j in
  dest_dir ≠ [] ∧ mkdir_ok dest_dir = true ∧ apart cfg (j_id j) dest_dir (outputs names) ∧
  (∀ n, n ∈ outputs names → is_Some (fs !! job_file_path cfg (j_id j) n)) ∧
  (∀ n, n ∈ outputs names →
     under (job_temp_dir cfg (j_id j)) (output_path dest_dir n) = false ∧ output_path dest_dir n ≠ MANUAL_LST_PATH).

(** Every file that is output is, whole, where it belongs, and nothing is left
    below the temporary directory. *)
Definition in_place (j : job) (fs fs' : file_system) : Prop :=
  (∀ n, n ∈ outputs (jf_filename <$> j_files j) →
     ∃ data, fs !! job_file_path cfg (j_id j) n = Some data ∧
             fs' !! output_path (job_output_dest_dir cfg j) n = Some data) ∧
  (∀ p, under (job_temp_dir cfg (j_id j)) p = true → fs' !! p = None).

(** What decides where the output goes. *)
Definition same_output (j j' : job) : Prop :=
  j_id j' = j_id j ∧ jf_filename <$> j_files j' = jf_filename <$> j_files j ∧
  job_output_dest_dir cfg j' = job_output_dest_dir cfg j.

Lemma same_output_ready j j' fs : same_output j j' → ready_to_move j fs → ready_to_move j' fs.
Proof using. intros (Hid & Hn & Hd). unfold ready_to_move. cbv zeta. by rewrite Hid, Hn, Hd. Qed.

Lemma same_output_in_place j j' fs : same_output j j' → in_place j' fs = in_place j fs.
Proof using. intros (Hid & Hn & Hd). unfold in_place. by rewrite Hid, Hn, Hd. Qed.

Lemma dest_dir_same j j' :
  j_output_dir j' = j_output_dir j → j_name j' = j_name j → j_id j' = j_id j →
  job_output_dest_dir cfg j' = job_output_dest_dir cfg j.
Proof using. intros Ho Hn Hi. unfold job_output_dest_dir, job_output_subdir. by rewrite Ho, Hn, ?Hi. Qed.

Lemma set_busy_output b j : same_output j (set_busy b j).
Proof using. split; [done|]. split; [done|]. by apply dest_dir_same. Qed.

Lemma goes_finalize j fs fq w :
  ready_to_move j fs → lone_world [] [] j fs fq w →
  goes (finalize_job cfg tree mkdir_ok lst_ok (j_id j)) w None (finished (set_state JOB_EXTRACTING j) (in_place j fs) fq).
Proof using.
  intros (Hne & Hmk & Hap & Hin & Hout) Hw. set (je := set_state JOB_EXTRACTING j).
  unfold finalize_job. eapply goes_bind; [by eapply goes_deref|]. intros w1 Hw1. cbv zeta.
  rewrite bool_decide_false by done.
  eapply goes_bind; [by eapply (goes_enter JOB_EXTRACTING)|]. intros w2 Hw2.
  eapply goes_bind; [by eapply goes_tick|]. intros w3 Hw3.
  eapply (goes_bind _ _ _ (EXTRACT_NONE, id) _ (lone_world [] [] je fs fq)).
  { destruct Hw3 as (dir & d & inst & ids & ->). eexists. split; [done|]. by eexists _, _, _, _. }
  intros w4 Hw4. cbn beta iota. eapply (goes_bind _ _ _ () _ (lone_world [] [] je fs fq)).
  { destruct Hw4 as (dir & d & inst & ids & ->). eexists. split; [done|]. by eexists _, _, _, _. }
  intros w5 Hw5. eapply goes_bind; [by eapply (goes_deref je)|]. intros w6 Hw6. cbv zeta. rewrite Hmk.
  eapply goes_bind; [by eapply goes_move_all|]. intros w7 (fs7 & Hmoved & Hw7). cbn beta iota.
  eapply (goes_bind _ _ _ ()); [by apply (goes_finish _ je fs7)|]. intros w8 (bytes & fs8 & [Hnone Hrest] & Hw8).
  apply goes_ret. exists bytes, fs8. split; [|done]. split; [|done]. intros n Hn.
  destruct (Hmoved n Hn) as (data & Hsrc & Hdst & _). exists data. split; [done|].
  destruct (Hout n Hn). by rewrite Hrest.
Qed.

(** The fields that the scans after completion keep. *)
Definition same_head (j j' : job) : Prop := j_id j' = j_id j ∧ j_state j' = j_state j ∧ j_busy j' = j_busy j.

Lemma scanned_head t j : same_head j (job_ensure_pkg_scanned cfg t (job_ensure_nfo_scanned cfg t j)).
Proof using.
  assert (same_head j (job_ensure_nfo_scanned cfg t j)) as (H1 & H2 & H3).
  { unfold job_ensure_nfo_scanned, same_head. cbv zeta. by repeat (case_match; try done). }
  set (jn := job_ensure_nfo_scanned cfg t j) in *.
  assert (same_head jn (job_ensure_pkg_scanned cfg t jn)) as (H4 & H5 & H6).
  { unfold job_ensure_pkg_scanned, same_head. cbv zeta. destruct (negb _); [done|].
    destruct ((0 <? length (j_pkg_paths jn))%nat || _) eqn:Hr; [done|].
    apply orb_false_iff in Hr as [Hr _]. apply Nat.ltb_ge in Hr. case_decide; [done|].
    by rewrite find_pkgs_eq by (unfold room_ok; lia). }
  split_and!; congruence.
Qed.

(** A completed job, busy until its packages are installed. *)
Definition completed (busy : bool) (id : cstr) (F : file_system → Prop) (fq : list cstr) (w : world) : Prop :=
  ∃ j fs, lone_world [] [] j fs fq w ∧ F fs ∧ j_id j = id ∧ j_state j = JOB_COMPLETED ∧ j_busy j = busy.

Lemma goes_complete F j fq w :
  finished j F fq w → goes (complete_job cfg tree (j_id j)) w () (completed (j_busy j) (j_id j) F fq).
Proof using.
  intros (bytes & fs & HF & Hw). set (jb := set_final_bytes bytes j) in *.
  unfold complete_job. eapply goes_locked; [done|]. intros w1 Hw1.
  eapply goes_bind; [by eapply (goes_state JOB_COMPLETED jb)|]. intros w2 Hw2.
  set (jc := set_state JOB_COMPLETED jb) in *.
  eapply goes_bind; [by eapply goes_get_files|]. intros w3 Hw3.
  destruct (scanned_head (tree fs) jc) as (Hid & Hst & Hbusy).
  eapply goes_bind; [by eapply (goes_store _ jc)|]. intros w4 Hw4.
  assert (j_id (job_ensure_nfo_scanned cfg (tree fs) jc) = j_id j) as Hidn.
  { unfold job_ensure_nfo_scanned. cbv zeta. by repeat (case_match; try done). }
  eapply goes_bind.
  { rewrite <- Hidn. by eapply goes_store. }
  intros w5 Hw5. set (jp := job_ensure_pkg_scanned cfg (tree fs) (job_ensure_nfo_scanned cfg (tree fs) jc)) in *.
  change (j_id jc) with (j_id j) in Hid. change (j_busy jc) with (j_busy j) in Hbusy.
  rewrite <- Hid. destruct (goes_save jp fs fq w5 Hw5) as (w6 & Hs & Hw6). exists w6. split; [exact Hs|].
  exists jp, fs. by rewrite Hid.
Qed.

Lemma goes_install_all paths j fs fq w :
  lone_world [] [] j fs fq w → goes (install_all paths) w () (lone_world [] [] j fs fq).
Proof using.
  revert w. induction paths as [|p paths IH]; intros w Hw; cbn [install_all]; [by apply goes_ret|].
  eapply (goes_bind _ _ _ true _ (lone_world [] [] j fs fq)).
  { destruct Hw as (dir & d & inst & ids & ->). eexists. split; [done|]. by eexists _, _, _, _. }
  intros w1 Hw1. eapply (goes_bind _ _ _ () _ (lone_world [] [] j fs fq)); [|done].
  destruct Hw1 as (dir & d & inst & ids & ->). eexists. split; [done|]. by eexists _, _, _, _.
Qed.

Lemma goes_finalizer j fs fq w :
  active j → ready_to_move j fs → lone_world [] [] j fs fq w →
  goes (finalizer_job cfg tree mkdir_ok lst_ok (j_id j)) w () (completed false (j_id j) (in_place j fs) fq).
Proof using.
  intros Ha Hr Hw. unfold finalizer_job. eapply goes_bind; [by eapply goes_continue|]. intros w1 Hw1. cbn beta iota.
  eapply goes_bind; [by eapply (goes_busy true)|]. intros w2 Hw2.
  set (jb := set_busy true j) in *. set (je := set_state JOB_EXTRACTING jb).
  eapply (goes_bind _ _ _ None _ (finished je (in_place j fs) fq)).
  { rewrite <- (same_output_in_place j jb fs) by apply set_busy_output.
    apply (goes_finalize jb); [|exact Hw2]. apply (same_output_ready j); [apply set_busy_output|exact Hr]. }
  intros w3 Hw3. cbn beta iota.
  eapply (goes_bind _ _ _ () _ (completed true (j_id j) (in_place j fs) fq)).
  { exact (goes_complete (in_place j fs) je fq w3 Hw3). }
  intros w4 (j4 & fs4 & Hw4 & HF & Hid & Hst & Hb). rewrite <- Hid.
  eapply (goes_bind _ _ _ () _ (lone_world [] [] j4 fs4 fq)).
  - unfold job_auto_install_pkgs.
    eapply (goes_bind _ _ _ (if j_auto_install_pkgs j4 then j_pkg_paths j4 else [])); [|intros; by apply goes_install_all].
    eapply goes_locked; [done|]. intros w5 Hw5. eapply goes_bind; [by eapply goes_deref|]. intros. by apply goes_ret.
  - intros w5 Hw5. destruct (goes_busy false j4 fs4 fq w5 Hw5) as (w6 & H6 & Hw6). exists w6. split; [exact H6|].
    exists (set_busy false j4), fs4. split; [exact Hw6|]. split; [exact HF|]. split; [done|]. split; [exact Hst|done].
Qed.
End finalizing.

Lemma downloaded_output cfg set j : active (downloaded set j) ∧ same_output cfg j (downloaded set j).
Proof.
  assert (∀ j', same_output cfg j (set_busy false j') ∧ active j' → active (set_busy false j') ∧ same_output cfg j (set_busy false j'))
    as Hgo by (intros j' [H1 H2]; by split).
  apply Hgo. unfold verified_job. set (jf := fetched (content_ids j) (downloading j)).
  assert (same_output cfg j jf) as (H1 & H2 & H3).
  { split; [done|]. split; [exact (fetched_names (content_ids j) (downloading j))|by apply dest_dir_same]. }
  destruct (_ =? 0)%nat; (split; [split; [exact H1|]; split; [exact H2|by apply dest_dir_same]|done]).
Qed.

(** ** Properties *)

(** C9: a job goes through. With a server that lets the program in and delivers
    every segment, room on the disk, distinct message ids, files that are those
    the job's PAR2 set describes (if there is one) and an output directory that
    can be made, one turn of the downloader and one of the finalizer, undisturbed,
    bring a queued job without an archive to its end: it is completed and no
    longer busy, nothing waits for the finalizer, every file that is output is in
    the output directory with the bytes that were fetched, and the temporary
    directory is empty. *)
Theorem queued_job_completes {codec : JsonCodec} (cfg : app_config)
    (md5 : list byte → list byte) (qsort_slices : list par2_slice → list par2_slice)
    (list_dir : file_system → cstr → list cstr) (writable : cstr → bool)
    (statfs : cstr → option (Z * Z)) (fuel : nat)
    (tree : file_system → cstr → node) (mkdir_ok : cstr → bool) (lst_ok : bool)
    (net : network) (f : fetches) (j : job) (fs : file_system) (set : par2_set) (w : world)
    (Hw : lone_world [net] [f] j fs [] w) (Hst : j_state j = JOB_QUEUED)
    (Hids : distinct_ids (j_files j)) (Hnet : server_accepts cfg net) (Hspace : space_for cfg statfs j)
    (Hok : ∀ m, ft_ok f m = true)
    (Hscan : scan_temp_dir cfg md5 qsort_slices list_dir fuel (j_id j) (ft_files f fs) = Some set)
    (Hintact : intact cfg md5 (j_id j) set (ft_files f fs) (jf_filename <$> j_files j))
    (Hready : ready_to_move cfg mkdir_ok j (ft_files f fs)) :
  ∃ w1 w2 j',
    downloader_step cfg md5 qsort_slices list_dir writable statfs fuel w = Some (true, w1) ∧
    finalizer_step cfg tree mkdir_ok lst_ok w1 = Some (true, w2) ∧
    q_jobs (w_queue w2) = [j'] ∧ j_id j' = j_id j ∧ j_state j' = JOB_COMPLETED ∧ j_busy j' = false ∧
    w_fq w2 = [] ∧ in_place cfg j (ft_files f fs) (w_files w2).
Proof.
  destruct (goes_turn cfg md5 qsort_slices list_dir writable statfs fuel net f j fs set w
    Hst Hids Hnet Hspace Hok Hscan Hintact Hw) as (w1 & H1 & Hw1).
  set (jd := downloaded set j) in *.
  assert (active jd ∧ same_output cfg j jd) as [Ha Hsame] by apply downloaded_output.
  pose proof (proj1 Hsame) as Hid. pose proof (same_output_in_place cfg j jd (ft_files f fs) Hsame) as Hplace.
  pose proof (same_output_ready cfg mkdir_ok j jd _ Hsame Hready) as Hr.
  assert (goes (finalizer_step cfg tree mkdir_ok lst_ok) w1 true (completed false (j_id jd) (in_place cfg jd (ft_files f fs)) []))
    as (w2 & H2 & j' & fs' & Hw2 & Hf2 & Hid2 & Hst2 & Hb2).
  { unfold finalizer_step. eapply (goes_bind _ _ _ (Some (j_id j)) _ (lone_world [] [] jd (ft_files f fs) [])).
    - destruct Hw1 as (dir & d & inst & ids & ->). eexists. split; [done|]. by eexists _, _, _, _.
    - intros w2 Hw2. cbn beta iota. rewrite <- Hid.
      eapply (goes_bind _ _ _ ()); [by eapply goes_finalizer|]. intros w3 Hw3. by apply goes_ret. }
  exists w1, w2, j'. rewrite Hplace in Hf2.
  destruct Hw2 as (dir & d & inst & ids & ->). split_and!; try done; congruence.
Qed.

(** The job of one file of one segment, and what is fetched. *)
Definition fetch_one : fetches :=
  Fetches (λ _, true) (λ _, true) (λ fs, <[ $ "/t/0a1b2c/a.bin" := [x01; x02; x03] ]> fs).

Definition one_lone : world := with_inputs (Inputs [] [open_network] [] [fetch_one] [] [] []) (one_world []).

Lemma queued_job_completes_witness :
  ∃ w1 w2 j',
    downloader_step (H := toy_codec) small_config toy_md5 (λ l, l) (λ _ _, []) (λ _, true) (λ _, None) 1 one_lone =
      Some (true, w1) ∧
    finalizer_step (H := toy_codec) small_config (λ _ _, NOther) (λ _, true) true w1 = Some (true, w2) ∧
    q_jobs (w_queue w2) = [j'] ∧ j_id j' = $ "0a1b2c" ∧ j_state j' = JOB_COMPLETED ∧ j_busy j' = false ∧
    w_fq w2 = [] ∧ in_place small_config one_job (ft_files fetch_one ∅) (w_files w2).
Proof.
  eapply (queued_job_completes (codec := toy_codec) small_config toy_md5 (λ l, l) (λ _ _, []) (λ _, true) (λ _, None) 1
    (λ _ _, NOther) (λ _, true) true open_network fetch_one one_job ∅).
  - by eexists _, _, _, _.
  - reflexivity.
  - apply NoDup_singleton.
  - eexists _, _. split; [vm_compute; reflexivity|]. by left.
  - by left.
  - done.
  - reflexivity.
  - by intros name pf _ Hf.
  - unfold ready_to_move. cbv zeta. split_and!; [discriminate|reflexivity|..].
    + split; [apply NoDup_singleton|]. split; [apply NoDup_singleton|].
      intros n m Hn%list_elem_of_singleton Hm%list_elem_of_singleton. rewrite Hn, Hm. discriminate.
    + intros n Hn%list_elem_of_singleton. rewrite Hn. eexists. reflexivity.
    + intros n Hn%list_elem_of_singleton. rewrite Hn. split; [reflexivity|discriminate].
Defined.
