(* ===== verification/Threads.v ===== *)
(** * The two threads and their hand-over ([download/download.c], [main.c])

    [downloader_main] and [finalizer_main] with the queue between them, and the
    main thread that starts them, tells them to end, waits for them and frees
    what they used. A step is one critical section, or one stretch of code
    between two of them; the steps of the threads interleave freely. Waiting on
    [not_empty] is a phase of its own, left by a signal or for no reason, as POSIX
    allows. What a job's turn does is in [Download] and [Finalizer]: there it is
    shown that a turn of the downloader leaves the queue as it is or appends its
    job ([Download.download_job]). *)

From Stdlib Require Import ZArith Lia List.
From Stdlib Require Import Strings.Byte Strings.String.
From stdpp Require Import base list gmap relations.
From S2P Require Import Prelude.

(** ** State *)

(** [finalize_queue_t], the list from [head] to [tail]. *)
Record finalize_queue := FinalizeQueue { fq_jobs : list cstr; fq_shutdown : bool }.

(** Where [finalizer_main] is: in front of the test in [finalize_dequeue], in
    [pthread_cond_wait], at a job. *)
Inductive finalizer_phase := FinNone | FinTest | FinWaiting | FinJob (id : cstr) | FinExited.

(** Where [downloader_main] is, with [pool_idle]: in front of its test, of
    [app_reload_pool_if_needed], of the look for a job; in [download_job]. *)
Inductive downloader_phase :=
  | DlNone | DlTest (pool_idle : bool) | DlReload (pool_idle : bool) | DlFind (pool_idle : bool)
  | DlJob (id : cstr) | DlExited.

(** Where the main thread is: before the two threads are made; serving; joining
    the downloader after a failed start; joining it in [downloader_stop], past
    that, joining the finalizer; with [d] freed, the pool destroyed, the queue
    closed. *)
Inductive main_phase :=
  | MainStart | MainStarted | MainServing | MainFailed
  | MainJoinDownloader | MainJoined | MainJoinFinalizer | MainFreed | MainPoolDestroyed | MainClosed.

(** What the downloader does with the pool, in order. *)
Inductive pool_use := Rebuilt | ClosedIdle | Downloaded (id : cstr).

(** [t_stop] is [d->stop], [t_reload] [g_app.pool_reload_needed]. For the
    theorems: the jobs handed over and finalized so far, and the uses of the
    pool. *)
Record threads := Threads {
  t_main : main_phase;
  t_downloader : downloader_phase;
  t_finalizer : finalizer_phase;
  t_stop : bool;
  t_reload : bool;
  t_fq : finalize_queue;
  t_handed : list cstr;
  t_finalized : list cstr;
  t_uses : list pool_use
}.

Definition at_main (p : main_phase) (t : threads) : threads :=
  Threads p (t_downloader t) (t_finalizer t) (t_stop t) (t_reload t) (t_fq t) (t_handed t) (t_finalized t) (t_uses t).
Definition at_downloader (p : downloader_phase) (t : threads) : threads :=
  Threads (t_main t) p (t_finalizer t) (t_stop t) (t_reload t) (t_fq t) (t_handed t) (t_finalized t) (t_uses t).
Definition at_finalizer (p : finalizer_phase) (t : threads) : threads :=
  Threads (t_main t) (t_downloader t) p (t_stop t) (t_reload t) (t_fq t) (t_handed t) (t_finalized t) (t_uses t).
Definition set_stop (t : threads) : threads :=
  Threads (t_main t) (t_downloader t) (t_finalizer t) true (t_reload t) (t_fq t) (t_handed t) (t_finalized t) (t_uses t).
Definition set_reload (b : bool) (t : threads) : threads :=
  Threads (t_main t) (t_downloader t) (t_finalizer t) (t_stop t) b (t_fq t) (t_handed t) (t_finalized t) (t_uses t).
Definition with_fq (q : finalize_queue) (t : threads) : threads :=
  Threads (t_main t) (t_downloader t) (t_finalizer t) (t_stop t) (t_reload t) q (t_handed t) (t_finalized t) (t_uses t).
Definition log_handed (id : cstr) (t : threads) : threads :=
  Threads (t_main t) (t_downloader t) (t_finalizer t) (t_stop t) (t_reload t) (t_fq t) (t_handed t ++ [id])
    (t_finalized t) (t_uses t).
Definition log_finalized (id : cstr) (t : threads) : threads :=
  Threads (t_main t) (t_downloader t) (t_finalizer t) (t_stop t) (t_reload t) (t_fq t) (t_handed t)
    (t_finalized t ++ [id]) (t_uses t).
Definition log_use (u : pool_use) (t : threads) : threads :=
  Threads (t_main t) (t_downloader t) (t_finalizer t) (t_stop t) (t_reload t) (t_fq t) (t_handed t) (t_finalized t)
    (t_uses t ++ [u]).

(** ** Steps *)

(** [pthread_cond_signal(&fq->not_empty)]: the finalizer is the only waiter. *)
Definition signal (t : threads) : threads :=
  match t_finalizer t with FinWaiting => at_finalizer FinTest t | _ => t end.

Definition finalize_enqueue (id : cstr) (t : threads) : threads :=
  signal (log_handed id (with_fq (FinalizeQueue (fq_jobs (t_fq t) ++ [id]) (fq_shutdown (t_fq t))) t)).

(** The test of [finalize_dequeue] and what follows it under the lock. *)
Definition finalize_dequeue (t : threads) : threads :=
  match fq_jobs (t_fq t) with
  | id :: l => at_finalizer (FinJob id) (with_fq (FinalizeQueue l (fq_shutdown (t_fq t))) t)
  | [] => at_finalizer (if fq_shutdown (t_fq t) then FinExited else FinWaiting) t
  end.

Definition finalizer_main (t : threads) : option threads :=
  match t_finalizer t with
  | FinTest => Some (finalize_dequeue t)
  | FinJob id => Some (at_finalizer FinTest (log_finalized id t))
  | FinNone | FinWaiting | FinExited => None
  end.

(** What the outside decides in a step of the downloader: whether a new pool
    could be made, the next queued job, and whether its turn hands it over; it
    does not when the job is not good, nor when there is no memory for the
    request, a job [Download.finalize_enqueue] then fails. *)
Record turn := Turn { tn_created : bool; tn_next : option cstr; tn_hands_over : bool }.

Definition reload_pool (created : bool) (t : threads) : threads :=
  if t_reload t
  then let t := set_reload false t in if created then log_use Rebuilt t else t
  else t.

Definition downloader_main (d : turn) (t : threads) : option threads :=
  match t_downloader t with
  | DlTest idle => Some (at_downloader (if t_stop t then DlExited else DlReload idle) t)
  | DlReload idle => Some (at_downloader (DlFind idle) (reload_pool (tn_created d) t))
  | DlFind idle =>
    match tn_next d with
    | None => Some (at_downloader (DlTest true) (if idle then t else log_use ClosedIdle t))
    | Some id => Some (at_downloader (DlJob id) t)
    end
  | DlJob id =>
    let t := log_use (Downloaded id) t in
    Some (at_downloader (DlTest false) (if tn_hands_over d then finalize_enqueue id t else t))
  | DlNone | DlExited => None
  end.

(** The main thread: [downloader_start], [downloader_stop] and the end of
    [main]; [ok] is what [pthread_create] answers. *)
Definition main_thread (ok : bool) (t : threads) : option threads :=
  match t_main t with
  | MainStart =>
    Some (if ok then at_main MainStarted (at_downloader (DlTest false) t) else at_main MainFreed t)
  | MainStarted =>
    Some (if ok then at_main MainServing (at_finalizer FinTest t) else at_main MainFailed (set_stop t))
  | MainFailed => match t_downloader t with DlExited => Some (at_main MainFreed t) | _ => None end
  | MainServing => Some (at_main MainJoinDownloader (set_stop t))
  | MainJoinDownloader => match t_downloader t with DlExited => Some (at_main MainJoined t) | _ => None end
  | MainJoined =>
    Some (at_main MainJoinFinalizer (signal (with_fq (FinalizeQueue (fq_jobs (t_fq t)) true) t)))
  | MainJoinFinalizer => match t_finalizer t with FinExited => Some (at_main MainFreed t) | _ => None end
  | MainFreed => Some (at_main MainPoolDestroyed t)
  | MainPoolDestroyed => Some (at_main MainClosed t)
  | MainClosed => None
  end.

Inductive thread_step (t : threads) : threads → Prop :=
  | step_main ok t' : main_thread ok t = Some t' → thread_step t t'
  | step_downloader d t' : downloader_main d t = Some t' → thread_step t t'
  | step_finalizer t' : finalizer_main t = Some t' → thread_step t t'.

(** With what needs no thread of these three: settings are posted, and
    [pthread_cond_wait] returns without a signal. *)
Inductive world_step (t : threads) : threads → Prop :=
  | step_thread t' : thread_step t t' → world_step t t'
  | step_post : t_main t = MainServing → world_step t (set_reload true t)
  | step_spurious : t_finalizer t = FinWaiting → world_step t (at_finalizer FinTest t).

Definition before_start : threads :=
  Threads MainStart DlNone FinNone false false (FinalizeQueue [] false) [] [] [].

(** ** The invariant *)

Definition at_hand (p : finalizer_phase) : list cstr := match p with FinJob id => [id] | _ => [] end.

(** What the phase of the main thread says of the others. *)
Definition phases_fit (t : threads) : Prop :=
  let d := t_downloader t in
  let f := t_finalizer t in
  match t_main t with
  | MainStart => d = DlNone ∧ f = FinNone ∧ t_stop t = false ∧ fq_shutdown (t_fq t) = false ∧ t_handed t = []
  | MainStarted => d ≠ DlNone ∧ d ≠ DlExited ∧ f = FinNone ∧ t_stop t = false ∧ fq_shutdown (t_fq t) = false
  | MainServing =>
    d ≠ DlNone ∧ d ≠ DlExited ∧ f ≠ FinNone ∧ f ≠ FinExited ∧ t_stop t = false ∧ fq_shutdown (t_fq t) = false
  | MainFailed => d ≠ DlNone ∧ f = FinNone ∧ t_stop t = true ∧ fq_shutdown (t_fq t) = false
  | MainJoinDownloader =>
    d ≠ DlNone ∧ f ≠ FinNone ∧ f ≠ FinExited ∧ t_stop t = true ∧ fq_shutdown (t_fq t) = false
  | MainJoined => d = DlExited ∧ f ≠ FinNone ∧ f ≠ FinExited ∧ t_stop t = true ∧ fq_shutdown (t_fq t) = false
  | MainJoinFinalizer => d = DlExited ∧ f ≠ FinNone ∧ t_stop t = true ∧ fq_shutdown (t_fq t) = true
  | MainFreed | MainPoolDestroyed | MainClosed =>
    (d = DlNone ∧ f = FinNone ∧ t_handed t = []) ∨ (d = DlExited ∧ f = FinNone ∧ t_stop t = true) ∨
    (d = DlExited ∧ f = FinExited ∧ t_stop t = true)
  end.

Record threads_inv (t : threads) : Prop := {
  ti_handed : t_handed t = t_finalized t ++ at_hand (t_finalizer t) ++ fq_jobs (t_fq t);
  ti_waiting : t_finalizer t = FinWaiting → fq_jobs (t_fq t) = [] ∧ fq_shutdown (t_fq t) = false;
  ti_exited : t_finalizer t = FinExited → fq_jobs (t_fq t) = [];
  ti_phases : phases_fit t
}.

Ltac thread_fields :=
  cbn [at_main at_downloader at_finalizer set_stop set_reload with_fq log_handed log_finalized log_use
       t_main t_downloader t_finalizer t_stop t_reload t_fq t_handed t_finalized t_uses fq_jobs fq_shutdown at_hand] in *.

(** All cases of one step of a thread that is at a known phase. *)
Ltac thread_cases :=
  intros Heq; repeat case_match; simplify_eq; constructor; unfold phases_fit, signal in *; thread_fields;
  repeat case_match; thread_fields; naive_solver.

Lemma main_thread_inv ok t t' : threads_inv t → main_thread ok t = Some t' → threads_inv t'.
Proof.
  destruct t as [m d f stop reload [l sh] handed fin uses]. intros [Hh Hw He Hp].
  unfold main_thread, phases_fit, signal in *. thread_fields. destruct m; thread_cases.
Qed.

Lemma finalizer_main_inv t t' : threads_inv t → finalizer_main t = Some t' → threads_inv t'.
Proof.
  destruct t as [m d f stop reload [l sh] handed fin uses]. intros [Hh Hw He Hp].
  unfold finalizer_main, finalize_dequeue, phases_fit in *. thread_fields.
  destruct f; try done; [destruct l as [|id l], sh|]; intros [= <-]; constructor; unfold phases_fit; thread_fields;
    rewrite <- ?app_assoc; try done; destruct m; naive_solver.
Qed.

Lemma downloader_main_inv c t t' : threads_inv t → downloader_main c t = Some t' → threads_inv t'.
Proof.
  destruct t as [m d f stop reload [l sh] handed fin uses]. intros [Hh Hw He Hp].
  unfold downloader_main, reload_pool, finalize_enqueue, phases_fit in *. thread_fields.
  destruct d as [|idle|idle|idle|id|]; try done.
  4: { destruct (tn_hands_over c); intros [= <-]; [|constructor; unfold phases_fit; thread_fields; [done..|destruct m; naive_solver]].
       assert (f ≠ FinExited) as Hne by (destruct m; naive_solver).
       unfold signal. destruct f; constructor; unfold phases_fit; thread_fields; subst handed;
         rewrite <- ?app_assoc; try done; try (by destruct m; naive_solver). }
  all: intros Heq; repeat case_match; simplify_eq; constructor; unfold phases_fit; thread_fields; try done; naive_solver.
Qed.

Lemma world_step_inv t t' : threads_inv t → world_step t t' → threads_inv t'.
Proof.
  intros Hi [t'' [ok t1 H1|c t1 H1|t1 H1]|Hm|Hf].
  - by eapply main_thread_inv.
  - by eapply downloader_main_inv.
  - by eapply finalizer_main_inv.
  - destruct t, Hi. constructor; unfold phases_fit in *; by thread_fields.
  - destruct t as [m d f stop reload [l sh] handed fin uses], Hi as [Hh Hw He Hp].
    constructor; unfold phases_fit in *; thread_fields; subst f; [done..|]. destruct m; naive_solver.
Qed.

Lemma before_start_inv : threads_inv before_start.
Proof. by constructor. Qed.

Lemma reachable_threads t : rtc world_step before_start t → threads_inv t.
Proof.
  revert t. refine (rtc_ind_r _ _ before_start_inv _). intros t t' _ Hstep Hi. by eapply world_step_inv.
Qed.

(** ** Work left once the stop was asked for *)

Definition main_work (p : main_phase) : nat :=
  match p with
  | MainJoinDownloader => 8 | MainJoined => 7 | MainJoinFinalizer => 3 | MainFailed => 3
  | MainFreed => 2 | MainPoolDestroyed => 1 | MainClosed => 0
  | MainStart | MainStarted | MainServing => 0
  end%nat.

Definition downloader_work (p : downloader_phase) : nat :=
  match p with
  | DlReload _ => 7 | DlFind _ => 6 | DlJob _ => 5 | DlTest _ => 1 | DlNone | DlExited => 0
  end%nat.

Definition finalizer_work (p : finalizer_phase) : nat :=
  match p with FinJob _ => 2 | FinTest => 1 | FinNone | FinWaiting | FinExited => 0 end%nat.

(** Bounds the steps that are left: two for every job handed over. *)
Definition work_left (t : threads) : nat :=
  (main_work (t_main t) + downloader_work (t_downloader t) + finalizer_work (t_finalizer t) +
   2 * length (fq_jobs (t_fq t)))%nat.

Lemma signal_work t : (work_left (signal t) <= S (work_left t))%nat.
Proof. unfold signal, work_left. destruct (t_finalizer t) eqn:Hf; thread_fields; rewrite ?Hf; cbn; lia. Qed.

Lemma signal_stop t : t_stop (signal t) = t_stop t.
Proof. unfold signal. by destruct (t_finalizer t). Qed.

Lemma signal_main t : t_main (signal t) = t_main t.
Proof. unfold signal. by destruct (t_finalizer t). Qed.

Lemma signal_downloader t : t_downloader (signal t) = t_downloader t.
Proof. unfold signal. by destruct (t_finalizer t). Qed.

Definition stopping (p : main_phase) : bool :=
  match p with MainStart | MainStarted | MainServing => false | _ => true end.

Lemma stop_stopping t : threads_inv t → t_stop t = true → stopping (t_main t) = true.
Proof.
  intros [_ _ _ Hp] Hs. unfold phases_fit in Hp. rewrite Hs in Hp. destruct (t_main t); try done; exfalso; clear Hs; tauto || intuition congruence.
Qed.

(** The step takes away more than a signal adds. *)
Ltac less_work H := unfold work_left; thread_fields; rewrite H; cbn; lia.

Lemma thread_step_work t t' :
  threads_inv t → t_stop t = true → thread_step t t' → t_stop t' = true ∧ (work_left t' < work_left t)%nat.
Proof.
  intros Hi Hs [ok t1 H1|c t1 H1|t1 H1].
  - pose proof (stop_stopping t Hi Hs) as Hst. unfold main_thread in H1.
    destruct (t_main t) eqn:Hm; try done; repeat case_match; simplify_eq; thread_fields; rewrite ?signal_stop; thread_fields;
      (split; [done|]); try less_work Hm.
    pose proof (signal_work (with_fq (FinalizeQueue (fq_jobs (t_fq t)) true) t)) as Hw.
    unfold work_left in *. rewrite signal_main in Hw. thread_fields. rewrite Hm in *. cbn [main_work] in *. lia.
  - unfold downloader_main, reload_pool in H1. destruct (t_downloader t) eqn:Hd; try done.
    + simplify_eq. thread_fields. rewrite Hs. split; [done|]. less_work Hd.
    + repeat case_match; simplify_eq; thread_fields; (split; [done|]); less_work Hd.
    + repeat case_match; simplify_eq; thread_fields; (split; [done|]); less_work Hd.
    + simplify_eq. thread_fields. destruct (tn_hands_over c).
      * unfold finalize_enqueue. rewrite signal_stop. thread_fields. split; [done|].
        pose proof (signal_work (log_handed id (with_fq (FinalizeQueue (fq_jobs (t_fq t) ++ [id]) (fq_shutdown (t_fq t)))
          (log_use (Downloaded id) t)))) as Hw.
        unfold work_left in *. rewrite signal_downloader in Hw. thread_fields. rewrite length_app in Hw.
        rewrite Hd in *. cbn [downloader_work length] in *. lia.
      * thread_fields. split; [done|]. less_work Hd.
  - unfold finalizer_main, finalize_dequeue in H1. destruct (t_finalizer t) eqn:Hf; try done.
    + destruct (t_fq t) as [[|id l] [|]] eqn:Hq; simplify_eq; thread_fields; (split; [done|]);
        unfold work_left; thread_fields; rewrite Hf, Hq; cbn; lia.
    + simplify_eq. thread_fields. split; [done|]. less_work Hf.
Qed.

Lemma thread_steps_work t t' n :
  threads_inv t → t_stop t = true → nsteps thread_step n t t' →
  threads_inv t' ∧ t_stop t' = true ∧ (n + work_left t' <= work_left t)%nat.
Proof.
  intros Hi Hs Hn. revert Hi Hs. induction Hn as [t|n t t1 t2 H1 _ IH]; intros Hi Hs; [by split_and!; [..|lia]|].
  destruct (thread_step_work _ _ Hi Hs H1) as [Hs1 Hw1].
  destruct IH as (? & ? & ?); [by eapply world_step_inv; [|constructor]|done|]. split_and!; [done..|lia].
Qed.

(** While the end is not reached, some thread can go on. *)
Lemma thread_progress t : threads_inv t → t_stop t = true → t_main t ≠ MainClosed → ∃ t', thread_step t t'.
Proof.
  intros [Hh Hw He Hp] Hs Hm.
  assert (∀ p, t_downloader t = p → p ≠ DlNone → p ≠ DlExited → ∃ t', thread_step t t') as Hdl.
  { intros p Hd H1 H2. destruct (downloader_main (Turn true None false) t) as [t'|] eqn:Hd'.
    { exists t'. by eapply step_downloader. }
    exfalso. revert Hd'. unfold downloader_main. rewrite Hd. cbn. by destruct p; try destruct pool_idle. }
  assert (∀ p, t_finalizer t = p → p ≠ FinNone → p ≠ FinExited → p ≠ FinWaiting → ∃ t', thread_step t t') as Hfin.
  { intros p Hf H1 H2 H3. destruct (finalizer_main t) as [t'|] eqn:Hf'; [exists t'; by apply step_finalizer|].
    exfalso. revert Hf'. unfold finalizer_main. rewrite Hf. by destruct p. }
  assert (∀ t', main_thread true t = Some t' → ∃ t', thread_step t t') as Hgo.
  { intros t' Ht'. exists t'. by eapply step_main. }
  pose proof (stop_stopping t (Build_threads_inv t Hh Hw He Hp) Hs) as Hst.
  unfold main_thread, phases_fit in *. destruct (t_main t); try done; try (by eapply Hgo).
  - destruct (t_downloader t) eqn:Hd; try (by eapply (Hdl _ eq_refl)); [by destruct Hp|by eapply Hgo].
  - destruct (t_downloader t) eqn:Hd; try (by eapply (Hdl _ eq_refl)); [by destruct Hp|by eapply Hgo].
  - destruct (t_finalizer t) eqn:Hf; try (by eapply (Hfin _ eq_refl)); [by destruct Hp as (_ & ? & _)| |by eapply Hgo].
    destruct (Hw eq_refl) as [_ Hsh]. destruct Hp as (_ & _ & _ & Hsh'). congruence.
Qed.

(** ** The pool between jobs *)

(** [pool_idle] after these uses; [None]: idle connections were closed twice
    with no download in between. *)
Fixpoint idle_after (idle : bool) (uses : list pool_use) : option bool :=
  match uses with
  | [] => Some idle
  | Rebuilt :: uses => idle_after idle uses
  | Downloaded _ :: uses => idle_after false uses
  | ClosedIdle :: uses => if idle then None else idle_after true uses
  end.

Lemma idle_after_app idle l l' : idle_after idle (l ++ l') = b ← idle_after idle l; idle_after b l'.
Proof. revert idle. induction l as [|[| |id] l IH]; intros idle; cbn; try done. by destruct idle. Qed.

Definition idle_inv (t : threads) : Prop :=
  match t_downloader t with
  | DlTest idle | DlReload idle | DlFind idle => idle_after false (t_uses t) = Some idle
  | DlNone => t_uses t = []
  | DlJob _ | DlExited => is_Some (idle_after false (t_uses t))
  end.

Lemma signal_uses t : t_uses (signal t) = t_uses t.
Proof. unfold signal. by destruct (t_finalizer t). Qed.

Lemma main_keeps_downloader ok t t' :
  threads_inv t → main_thread ok t = Some t' →
  t_uses t' = t_uses t ∧
  (t_downloader t' = t_downloader t ∨ t_downloader t = DlNone ∧ t_downloader t' = DlTest false).
Proof.
  intros [_ _ _ Hp]. unfold main_thread, phases_fit in *.
  destruct (t_main t); intros H; repeat case_match; simplify_eq; thread_fields;
    rewrite ?signal_uses, ?signal_downloader; thread_fields; auto.
  destruct Hp as [Hd _]. auto.
Qed.

Lemma idle_step_inv t t' : threads_inv t → idle_inv t → world_step t t' → idle_inv t'.
Proof.
  intros Hinv Hi [t'' [ok t1 H1|c t1 H1|t1 H1]|Hm|Hf]; try done.
  - destruct (main_keeps_downloader ok t t1 Hinv H1) as [Hu [Hd|[Hd Hd']]]; unfold idle_inv in *.
    + by rewrite Hd, Hu.
    + rewrite Hd', Hu. rewrite Hd in Hi. by rewrite Hi.
  - unfold downloader_main, reload_pool, finalize_enqueue, idle_inv in *.
    destruct (t_downloader t) eqn:Hd; try done; repeat case_match; simplify_eq; thread_fields;
      rewrite ?signal_uses; thread_fields; rewrite ?idle_after_app, ?Hi; cbn; try done.
    all: simplify_eq; try done. all: destruct Hi as [b Hi]; by rewrite Hi.
  - assert (t_downloader t1 = t_downloader t ∧ t_uses t1 = t_uses t) as [Hd Hu].
    { unfold finalizer_main, finalize_dequeue in H1. destruct (t_finalizer t); simplify_eq; [|done].
      by destruct (fq_jobs (t_fq t)). }
    unfold idle_inv in *. by rewrite Hd, Hu.
Qed.

(** ** Properties *)


(** A job is handed over while the finalizer waits, and the program is stopped
    before the finalizer wakes up. *)
Definition step_by (c : (bool + turn) + bool) (t : threads) : option threads :=
  match c with
  | inl (inl ok) => main_thread ok t
  | inl (inr d) => downloader_main d t
  | inr _ => finalizer_main t
  end.

Definition run_by (cs : list ((bool + turn) + bool)) (t : threads) : option threads :=
  foldl (λ t c, t ≫= step_by c) (Some t) cs.

Lemma run_by_reaches cs t t' : run_by cs t = Some t' → rtc thread_step t t'.
Proof.
  unfold run_by. revert t. induction cs as [|c cs IH]; intros t; cbn [foldl]; [by intros [= ->]|].
  cbn [mbind option_bind]. destruct (step_by c t) as [t1|] eqn:H1.
  - intros H. apply rtc_l with t1; [|by apply IH]. destruct c as [[ok|d]|u]; cbn in H1.
    + by eapply step_main.
    + by eapply step_downloader.
    + by apply step_finalizer.
  - intros H. exfalso. clear - H. by induction cs.
Qed.

Definition main_goes : (bool + turn) + bool := inl (inl true).
Definition downloader_goes (next : option cstr) (hands_over : bool) : (bool + turn) + bool :=
  inl (inr (Turn true next hands_over)).
Definition finalizer_goes : (bool + turn) + bool := inr true.

Definition sample_schedule : list ((bool + turn) + bool) :=
  [main_goes; main_goes; finalizer_goes] ++
  replicate 4 (downloader_goes (Some ($ "a")) true) ++ [main_goes].

Lemma world_steps t t' : rtc thread_step t t' → rtc world_step t t'.
Proof. induction 1 as [|t t1 t2 H _ IH]; [done|]. eapply rtc_l; [by apply step_thread|done]. Qed.

Definition sample_stopped : threads :=
  Threads MainJoinDownloader (DlTest false) FinTest true false (FinalizeQueue [$ "a"] false) [$ "a"] []
    [Downloaded ($ "a")].

Lemma sample_stopped_reached : rtc world_step before_start sample_stopped.
Proof. apply world_steps, (run_by_reaches sample_schedule). by vm_compute. Qed.




(** Idle connections are closed once after a download, not at every turn that
    finds nothing to do, and a new pool is made only between jobs. *)
Lemma idle_connections_closed_once t : rtc world_step before_start t → is_Some (idle_after false (t_uses t)).
Proof.
  intros Hr. assert (threads_inv t ∧ idle_inv t) as [_ Hp].
  { revert t Hr. refine (rtc_ind_r _ _ _ _); [split; [apply before_start_inv|done]|].
    intros t t' _ Hstep [Hi Hp]. split; [by eapply world_step_inv|by eapply idle_step_inv]. }
  unfold idle_inv in Hp. destruct (t_downloader t); try done; rewrite Hp; by eexists.
Qed.
