(* ===== verification/Rar5.v ===== *)
(** * RAR5 archives with encrypted headers ([extract/rar5_crypt.c])

    The stream that libarchive reads in place of such an archive: the header
    blocks decrypted and patched, the file data decrypted. AES-256-CBC, PBKDF2
    and SHA-256 are OpenSSL's: parameters, of which [Rar5Stream] states what it
    needs. An open cipher context is its key, its first vector and all it was
    fed; with padding off it has given out the whole blocks of that. Memory
    allocation and the calls of OpenSSL are taken to succeed.

    A read outside a buffer is the outcome [RCrash]. *)

From Stdlib Require Import ZArith Lia List.
From Stdlib Require Import Strings.Byte Strings.String.
From stdpp Require Import base list.
From S2P Require Import Prelude Crc32.

Definition RAR5_SIG : list byte := [x52; x61; x72; x21; x1a; x07; x01; x00].
Definition RAR5_SIG_LEN : nat := 8.
Definition SIZE_SALT50 : nat := 16.
Definition SIZE_INITV : nat := 16.
Definition SIZE_PSWCHECK : nat := 8.
Definition SIZE_PSWCHECK_CSUM : nat := 4.
Definition CRYPT5_KDF_LG2_COUNT_MAX : Z := 24.
Definition CRYPT_VERSION : Z := 0.
Definition HEAD_FILE : Z := 2.
Definition HEAD_SERVICE : Z := 3.
Definition HEAD_CRYPT : Z := 4.
Definition HEAD_ENDARC : Z := 5.
Definition HFL_EXTRA : Z := 0x0001.
Definition HFL_DATA : Z := 0x0002.
Definition HFL_SPLITBEFORE : Z := 0x0008.
Definition HFL_SPLITAFTER : Z := 0x0010.
Definition FHFL_UTIME : Z := 0x0002.
Definition FHFL_CRC32 : Z := 0x0004.
Definition FHFL_UNPUNKNOWN : Z := 0x0008.
Definition FHEXTRA_CRYPT : Z := 0x01.
Definition CHFL_CRYPT_PSWCHECK : Z := 0x0001.
Definition MAX_HEADER_SIZE : Z := 2 * 1024 * 1024 + 64.
Definition STREAM_CHUNK : Z := 256 * 1024.
Definition UINT64_MAX : Z := 2 ^ 64 - 1.

(** The messages given to [archive_set_error], or left in [err]. *)
Inductive rar5_error :=
  | E_no_password_configured
  | E_open
  | E_not_rar5
  | E_truncated
  | E_corrupt_encryption_header
  | E_not_encryption_header
  | E_unsupported_version
  | E_wrong_password (tried : nat)
  | E_expected_header
  | E_partial_header
  | E_bad_size_field
  | E_implausible_size
  | E_checksum
  | E_truncated_data
  | E_trailer.

Inductive res (A : Type) := ROk (a : A) | RErr (e : rar5_error) | RCrash.
Arguments ROk {A} a.
Arguments RErr {A} e.
Arguments RCrash {A}.

Definition has_flag (flags bit : Z) : bool := negb (Z.land flags bit =? 0).

(** ** Variable-length integers and checksums *)

Definition byte_val (buf : list byte) (pos : Z) : Z := b2z (nth (Z.to_nat pos) buf x00).

(** The loop of [get_vint]; [shift < 64] allows ten rounds. *)
Fixpoint vint_loop (n : nat) (buf : list byte) (len pos shift result : Z) : Z * Z :=
  match n with
  | O => (0, pos)
  | S n =>
    if pos <? len then
      let b := byte_val buf pos in
      let result := Z.lor result (u64 (Z.shiftl (Z.land b 0x7f) shift)) in
      if Z.land b 0x80 =? 0 then (result, pos + 1)
      else vint_loop n buf len (pos + 1) (shift + 7) result
    else (0, pos)
  end.

(** The value, and the position after it. *)
Definition get_vint (buf : list byte) (len pos : Z) : Z * Z := vint_loop 10 buf len pos 0 0.

Fixpoint vint_bytes (width : nat) (value : Z) : list byte :=
  match width with
  | O => []
  | S width =>
    let b := Z.land value 0x7f in
    z2b (if (0 <? width)%nat then Z.lor b 0x80 else b) :: vint_bytes width (Z.shiftr value 7)
  end.

(** [memcpy(buf + pos, l, ...)] inside the buffer. *)
Definition overwrite (buf : list byte) (pos : nat) (l : list byte) : list byte :=
  take pos buf ++ l ++ drop (pos + length l) buf.

Definition put_vint_fixed_width (buf : list byte) (pos value : Z) (width : nat) : list byte :=
  overwrite buf (Z.to_nat pos) (vint_bytes width value).

(** [crc32_of(buf + from, len)], [len] a [size_t]; it must lie in the buffer. *)
Definition crc32_of (buf : list byte) (from len : Z) : option Z :=
  if from + len <=? Z.of_nat (length buf)
  then Some (u32 (crc32 (take (Z.to_nat len) (drop (Z.to_nat from) buf))))
  else None.

Definition le32_bytes (z : Z) : list byte :=
  [z2b (Z.land z 0xff); z2b (Z.land (Z.shiftr z 8) 0xff);
   z2b (Z.land (Z.shiftr z 16) 0xff); z2b (Z.land (Z.shiftr z 24) 0xff)].

Definition read_le32_at0 (l : list byte) : Z :=
  Z.lor (Z.lor (Z.lor (byte_val l 0) (Z.shiftl (byte_val l 1) 8))
               (Z.shiftl (byte_val l 2) 16)) (Z.shiftl (byte_val l 3) 24).

(** ** Input *)

(** An open [FILE]: its content and position. *)
Record file_in := FileIn { fi_data : list byte; fi_pos : nat }.

(** [fread(buf, 1, n, f) == n], and the file after it. *)
Definition read_n (f : file_in) (n : nat) : option (list byte * file_in) :=
  let l := take n (drop (fi_pos f) (fi_data f)) in
  if (length l =? n)%nat then Some (l, FileIn (fi_data f) (fi_pos f + n)) else None.

Definition at_eof (f : file_in) : bool := (length (fi_data f) <=? fi_pos f)%nat.

(** ** Records *)

(** What [find_file_crypt] reports of a header. *)
Record file_crypt := FileCrypt {
  fc_salt : list byte;
  fc_iv : list byte;
  fc_lg2count : Z;
  fc_field_id_pos : Z;
  fc_unp_size : Z;
  fc_unp_size_known : bool
}.

Record rar5_split_state := Rar5SplitState {
  ss_active : bool;
  ss_unp_total : Z;
  ss_written_so_far : Z
}.

Definition split_idle : rar5_split_state := Rar5SplitState false 0 0.

(** A decryption context: key, vector, and all the input it was given. *)
Record evp_ctx := EvpCtx { ec_key : list byte; ec_iv : list byte; ec_in : list byte }.

(** [rar5_vol_t] from the open callback on. [have_file_crypt] is [vl_file_ctx]
    being there: the code sets both together for an entry with data, and looks
    at either only while it reads that data. *)
Record rar5_vol := Rar5Vol {
  vl_in : file_in;
  vl_archive_key : list byte;
  vl_confirmed_password : cstr;
  vl_done : bool;
  vl_wrote_sig : bool;
  vl_in_filedata : bool;
  vl_data_remaining : Z;
  vl_write_cap : Z;
  vl_emitted : Z;
  vl_endarc_pending : bool;
  vl_file_ctx : option evp_ctx
}.

Definition vl_fail (v : rar5_vol) : rar5_vol :=
  Rar5Vol (vl_in v) (vl_archive_key v) (vl_confirmed_password v) true (vl_wrote_sig v)
    (vl_in_filedata v) (vl_data_remaining v) (vl_write_cap v) (vl_emitted v)
    (vl_endarc_pending v) (vl_file_ctx v).
Abbreviation vl_finish := vl_fail.

Definition vl_at (f : file_in) (v : rar5_vol) : rar5_vol :=
  Rar5Vol f (vl_archive_key v) (vl_confirmed_password v) (vl_done v) (vl_wrote_sig v)
    (vl_in_filedata v) (vl_data_remaining v) (vl_write_cap v) (vl_emitted v)
    (vl_endarc_pending v) (vl_file_ctx v).

(** What one call of the read callback gives libarchive. *)
Inductive chunk :=
  | Chunk (data : list byte)
  | ChunkEof
  | ChunkFailed (e : rar5_error).

Definition rar5_headers_encrypted (content : option (list byte)) : bool :=
  match content with
  | None => false
  | Some data =>
    match read_n (FileIn data 0) 16 with
    | Some (buf, _) =>
      if bool_decide (take RAR5_SIG_LEN buf = RAR5_SIG) then
        let '(_, pos) := get_vint buf 16 (Z.of_nat RAR5_SIG_LEN + 4) in
        if pos <? 16 then fst (get_vint buf 16 pos) =? HEAD_CRYPT else false
      else false
    | None => false
    end
  end.

(** ** [find_file_crypt] *)

(** The last branch: the body of an FHEXTRA_CRYPT record at [fp]. *)
Definition read_crypt_record (body : list byte) (extra_end after_size_pos fp unp_size : Z)
    (unp_known : bool) : option file_crypt :=
  let '(enc_ver, fp) := get_vint body extra_end fp in
  let '(_, fp) := get_vint body extra_end fp in
  if (enc_ver =? CRYPT_VERSION) && (fp <? extra_end) then
    let lg2 := byte_val body fp in
    let fp := fp + 1 in
    if (lg2 <=? CRYPT5_KDF_LG2_COUNT_MAX) &&
       (fp + Z.of_nat SIZE_SALT50 + Z.of_nat SIZE_INITV <=? extra_end) then
      Some (FileCrypt (take SIZE_SALT50 (drop (Z.to_nat fp) body))
              (take SIZE_INITV (drop (Z.to_nat fp + SIZE_SALT50) body))
              lg2 after_size_pos unp_size unp_known)
    else None
  else None.

(** The loop over the fields of the extra area; the outer [None] when the fuel
    does not suffice. *)
Fixpoint extra_loop (fuel : nat) (body : list byte) (extra_end ep unp_size : Z)
    (unp_known : bool) : option (option file_crypt) :=
  match fuel with
  | O => None
  | S fuel =>
    if ep <? extra_end then
      let '(field_size, after_size_pos) := get_vint body extra_end ep in
      if (field_size =? 0) || (extra_end <? u64 (after_size_pos + field_size)) then Some None
      else
        let '(field_id, ep) := get_vint body extra_end after_size_pos in
        if field_id =? FHEXTRA_CRYPT then
          Some (read_crypt_record body extra_end after_size_pos ep unp_size unp_known)
        else extra_loop fuel body extra_end (u64 (after_size_pos + field_size)) unp_size unp_known
    else Some None
  end.

(** [body] is the whole buffer, [body_len] the part of it that is the header.
    The name is copied to [name_out], whose 256 bytes it fills at most, when its
    end, computed modulo 2^64, lies in the header: [RCrash] when the copy then
    reads past the buffer. *)
Definition find_file_crypt (fuel : nat) (body : list byte) (body_len extra_size after_common_pos : Z)
    : option (res (option file_crypt)) :=
  if extra_size =? 0 then Some (ROk None)
  else
    let pos := after_common_pos in
    let '(file_flags, pos) := get_vint body body_len pos in
    let '(unp_size, pos) := get_vint body body_len pos in
    let '(_, pos) := get_vint body body_len pos in
    let pos := if has_flag file_flags FHFL_UTIME then pos + 4 else pos in
    let pos := if has_flag file_flags FHFL_CRC32 then pos + 4 else pos in
    let '(_, pos) := get_vint body body_len pos in
    let '(_, pos) := get_vint body body_len pos in
    let '(name_size, pos) := get_vint body body_len pos in
    let copied := if name_size <? 255 then name_size else 255 in
    if (u64 (pos + name_size) <=? body_len) && (Z.of_nat (length body) <? pos + copied)
    then Some RCrash
    else
      let pos := u64 (pos + name_size) in
      if body_len <? pos then Some (ROk None)
      else
        let extra_end := u64 (pos + extra_size) in
        if body_len <? extra_end then Some (ROk None)
        else
          ROk <$> extra_loop fuel body extra_end pos unp_size
                    (negb (has_flag file_flags FHFL_UNPUNKNOWN)).

Section crypto.
(** One-shot AES-256-CBC decryption of whole blocks; PBKDF2-HMAC-SHA256 to 32
    bytes; SHA-256. *)
Context (aes256cbc_decrypt : list byte → list byte → list byte → list byte).
Context (pbkdf2 : cstr → list byte → Z → list byte).
Context (sha256 : list byte → list byte).

Definition derive_key (password : cstr) (salt : list byte) (lg2count : Z) : list byte :=
  pbkdf2 password salt (Z.shiftl 1 lg2count).

(** [check_out]: byte [i] is the exclusive or of the bytes [i], [i + 8], ... *)
Definition derive_check (password : cstr) (salt : list byte) (lg2count : Z) : list byte :=
  let raw := pbkdf2 password salt (Z.shiftl 1 lg2count + 32) in
  (λ i, z2b (foldl (λ acc k, Z.lxor acc (byte_val raw (Z.of_nat (i + 8 * k)))) 0 (seq 0 4))) <$>
    seq 0 SIZE_PSWCHECK.

(** [read_and_decrypt_header]: the plaintext buffer (whole blocks), the length
    of the header in it, whether its checksum is right, the file after it. *)
Definition read_and_decrypt_header (f : file_in) (key : list byte)
    : res (list byte * Z * bool * file_in) :=
  match read_n f 16 with
  | None => RErr E_expected_header
  | Some (iv, f) =>
    match read_n f 16 with
    | None => RErr E_partial_header
    | Some (first_ct, f) =>
      let first_pt := aes256cbc_decrypt key iv first_ct in
      let stored_crc := read_le32_at0 first_pt in
      let '(block_size, pos) := get_vint first_pt 16 4 in
      let size_bytes := pos - 4 in
      if (block_size =? 0) || (size_bytes =? 0) then RErr E_bad_size_field
      else
        let total_header := u64 (4 + size_bytes + block_size) in
        if MAX_HEADER_SIZE <? total_header then RErr E_implausible_size
        else
          let aligned := Z.land (total_header + 15) (Z.lnot 15) in
          let aligned := if aligned <? 16 then 16 else aligned in
          match read_n f (Z.to_nat (aligned - 16)) with
          | None => RErr E_partial_header
          | Some (rest, f) =>
            let pt := aes256cbc_decrypt key iv (first_ct ++ rest) in
            match crc32_of pt 4 (u64 (total_header - 4)) with
            | None => RCrash
            | Some calc_crc => ROk (pt, total_header, calc_crc =? stored_crc, f)
            end
          end
    end
  end.

(** ** [rar5_vol_open_cb] *)

(** The fields of HEAD_CRYPT: KDF count, salt, the check value if it is there
    and its own digest right. *)
Definition read_head_crypt (body : list byte) (block_size : Z)
    : res (Z * list byte * option (list byte)) :=
  let '(btype, bp) := get_vint body block_size 0 in
  let '(bflags, bp) := get_vint body block_size bp in
  if negb (btype =? HEAD_CRYPT) then RErr E_not_encryption_header
  else
    let bp := if has_flag bflags HFL_EXTRA then snd (get_vint body block_size bp) else bp in
    let bp := if has_flag bflags HFL_DATA then snd (get_vint body block_size bp) else bp in
    let '(crypt_ver, bp) := get_vint body block_size bp in
    if negb (crypt_ver =? CRYPT_VERSION) then RErr E_unsupported_version
    else
      let '(enc_flags, bp) := get_vint body block_size bp in
      if block_size <=? bp then RErr E_corrupt_encryption_header
      else
        let lg2count := byte_val body bp in
        let bp := bp + 1 in
        if (CRYPT5_KDF_LG2_COUNT_MAX <? lg2count) || (block_size <? bp + Z.of_nat SIZE_SALT50)
        then RErr E_corrupt_encryption_header
        else
          let salt := take SIZE_SALT50 (drop (Z.to_nat bp) body) in
          let bp := bp + Z.of_nat SIZE_SALT50 in
          if has_flag enc_flags CHFL_CRYPT_PSWCHECK &&
             (bp + Z.of_nat SIZE_PSWCHECK + Z.of_nat SIZE_PSWCHECK_CSUM <=? block_size) then
            let check := take SIZE_PSWCHECK (drop (Z.to_nat bp) body) in
            let csum := take SIZE_PSWCHECK_CSUM (drop (Z.to_nat bp + SIZE_PSWCHECK) body) in
            ROk (lg2count, salt,
                 if bool_decide (csum = take SIZE_PSWCHECK_CSUM (sha256 check)) then Some check
                 else None)
          else ROk (lg2count, salt, None).

(** The loop over the passwords: the first that opens the headers, with its key. *)
Fixpoint try_passwords (f : file_in) (lg2count : Z) (salt : list byte)
    (pswcheck : option (list byte)) (passwords : list cstr) : res (option (cstr * list byte)) :=
  match passwords with
  | [] => ROk None
  | password :: passwords =>
    let key := derive_key password salt lg2count in
    match pswcheck with
    | Some stored =>
      if bool_decide (derive_check password salt lg2count = stored) then ROk (Some (password, key))
      else try_passwords f lg2count salt pswcheck passwords
    | None =>
      match read_and_decrypt_header f key with
      | RCrash => RCrash
      | RErr e => RErr e
      | ROk (_, _, true, _) => ROk (Some (password, key))
      | ROk (_, _, false, _) => try_passwords f lg2count salt pswcheck passwords
      end
    end
  end.

Definition rar5_vol_open_cb (passwords : list cstr) (content : option (list byte)) : res rar5_vol :=
  if (length passwords =? 0)%nat then RErr E_no_password_configured
  else
    match content with
    | None => RErr E_open
    | Some data =>
      match read_n (FileIn data 0) RAR5_SIG_LEN with
      | None => RErr E_not_rar5
      | Some (sig, f) =>
        if negb (bool_decide (sig = RAR5_SIG)) then RErr E_not_rar5
        else
          match read_n f 7 with
          | None => RErr E_truncated
          | Some (pre, f) =>
            let '(block_size, pos) := get_vint pre 7 4 in
            let size_bytes := pos - 4 in
            if (block_size =? 0) || (size_bytes =? 0) || (128 <? block_size)
            then RErr E_corrupt_encryption_header
            else
              let have := drop (Z.to_nat pos) pre in
              match read_n f (Z.to_nat block_size - length have) with
              | None => RErr E_truncated
              | Some (more, f) =>
                match read_head_crypt (have ++ more) block_size with
                | RCrash => RCrash
                | RErr e => RErr e
                | ROk (lg2count, salt, pswcheck) =>
                  match try_passwords f lg2count salt pswcheck passwords with
                  | RCrash => RCrash
                  | RErr e => RErr e
                  | ROk None => RErr (E_wrong_password (length passwords))
                  | ROk (Some (password, key)) =>
                    ROk (Rar5Vol f key password false false false 0 0 0 false None)
                  end
                end
              end
          end
      end
    end.

(** ** Reading the stream *)

(** The write cap and the split state for an encrypted entry. *)
Definition entry_cap (ss : rar5_split_state) (split_before split_after : bool)
    (data_size unp_size : Z) (unp_known : bool) : Z * rar5_split_state :=
  if negb split_before && negb split_after then
    (if unp_known && (unp_size <? data_size) then unp_size else UINT64_MAX, ss)
  else if split_after && negb split_before then
    (UINT64_MAX, Rar5SplitState true unp_size data_size)
  else if split_after then
    (UINT64_MAX,
     if ss_active ss
     then Rar5SplitState true (ss_unp_total ss) (u64 (ss_written_so_far ss + data_size)) else ss)
  else if ss_active ss then
    let true_size :=
      if ss_written_so_far ss <? ss_unp_total ss then ss_unp_total ss - ss_written_so_far ss else 0 in
    (if true_size <? data_size then true_size else UINT64_MAX,
     Rar5SplitState false (ss_unp_total ss) (ss_written_so_far ss))
  else (UINT64_MAX, ss).

(** The header with the type of its FHEXTRA_CRYPT record overwritten, PackSize
    shrunk to the cap, and the checksum set again. *)
Definition patch_header (pt : list byte) (ptlen : Z) (crypt : option file_crypt)
    (write_cap data_size_pos : Z) (data_size_width : nat) : list byte :=
  let pt := match crypt with
            | Some fc => overwrite pt (Z.to_nat (fc_field_id_pos fc)) [x40]
            | None => pt
            end in
  let pt := if negb (write_cap =? UINT64_MAX)
            then put_vint_fixed_width pt data_size_pos write_cap data_size_width else pt in
  if bool_decide (is_Some crypt) || negb (write_cap =? UINT64_MAX) then
    overwrite pt 0 (le32_bytes (default 0 (crc32_of pt 4 (ptlen - 4))))
  else pt.

(** The fields every header starts with. *)
Record header_fields := HeaderFields {
  hf_type : Z;
  hf_flags : Z;
  hf_extra_size : Z;
  hf_data_size : Z;
  hf_data_size_pos : Z;
  hf_data_size_width : nat;
  hf_end : Z
}.

Definition parse_common (pt : list byte) (ptlen : Z) : header_fields :=
  let '(_, hpos) := get_vint pt ptlen 4 in
  let '(htype, hpos) := get_vint pt ptlen hpos in
  let '(hflags, hpos) := get_vint pt ptlen hpos in
  let '(extra_size, hpos) :=
    if has_flag hflags HFL_EXTRA then get_vint pt ptlen hpos else (0, hpos) in
  if has_flag hflags HFL_DATA then
    let data_size_pos := hpos in
    let '(data_size, hpos) := get_vint pt ptlen hpos in
    HeaderFields htype hflags extra_size data_size data_size_pos (Z.to_nat (hpos - data_size_pos)) hpos
  else HeaderFields htype hflags extra_size 0 0 0 hpos.

Definition rar5_next_header_chunk (fuel : nat) (v : rar5_vol) (ss : rar5_split_state)
    : option (res (rar5_vol * rar5_split_state * chunk)) :=
  if at_eof (vl_in v) then Some (ROk (vl_finish v, ss, ChunkEof))
  else
    match read_and_decrypt_header (vl_in v) (vl_archive_key v) with
    | RCrash => Some RCrash
    | RErr e => Some (ROk (vl_fail v, ss, ChunkFailed e))
    | ROk (_, _, false, _) => Some (ROk (vl_fail v, ss, ChunkFailed E_checksum))
    | ROk (pt, ptlen, true, f) =>
      let v := vl_at f v in
      let h := parse_common pt ptlen in
      crypt ← (if (hf_type h =? HEAD_FILE) || (hf_type h =? HEAD_SERVICE)
               then find_file_crypt fuel pt ptlen (hf_extra_size h) (hf_end h)
               else Some (ROk None));
      Some
        match crypt with
        | RCrash => RCrash
        | RErr e => RErr e
        | ROk crypt =>
          let split_before := has_flag (hf_flags h) HFL_SPLITBEFORE in
          let split_after := has_flag (hf_flags h) HFL_SPLITAFTER in
          let is_endarc := hf_type h =? HEAD_ENDARC in
          let '(write_cap, ss) :=
            match crypt with
            | Some fc =>
              entry_cap ss split_before split_after (hf_data_size h) (fc_unp_size fc)
                (fc_unp_size_known fc)
            | None => (UINT64_MAX, ss)
            end in
          let pt := patch_header pt ptlen crypt write_cap (hf_data_size_pos h)
                      (hf_data_size_width h) in
          let out := Chunk (take (Z.to_nat ptlen) pt) in
          if 0 <? hf_data_size h then
            let ctx :=
              (λ fc, EvpCtx (derive_key (vl_confirmed_password v) (fc_salt fc) (fc_lg2count fc))
                       (fc_iv fc) []) <$> crypt in
            ROk (Rar5Vol (vl_in v) (vl_archive_key v) (vl_confirmed_password v) (vl_done v)
                   (vl_wrote_sig v) true (hf_data_size h) write_cap 0 is_endarc ctx, ss, out)
          else ROk (if is_endarc then vl_finish v else v, ss, out)
        end
    end.

(** [EVP_DecryptUpdate] with padding off: the whole blocks completed by [l]. *)
Definition evp_update (c : evp_ctx) (l : list byte) : list byte * evp_ctx :=
  let whole n := (n / 16 * 16)%nat in
  let input := ec_in c ++ l in
  let clear := aes256cbc_decrypt (ec_key c) (ec_iv c) (take (whole (length input)) input) in
  (drop (whole (length (ec_in c))) clear, EvpCtx (ec_key c) (ec_iv c) input).

(** [EVP_DecryptFinal_ex] with padding off: nothing more, and an error after an
    incomplete block. *)
Definition evp_final (c : evp_ctx) : option (list byte) :=
  if (length (ec_in c) mod 16 =? 0)%nat then Some [] else None.

Definition vl_data_state (f : file_in) (remaining emitted : Z) (in_filedata : bool)
    (ctx : option evp_ctx) (v : rar5_vol) : rar5_vol :=
  Rar5Vol f (vl_archive_key v) (vl_confirmed_password v) (vl_done v) (vl_wrote_sig v) in_filedata
    remaining (vl_write_cap v) emitted (vl_endarc_pending v) ctx.

(** What may still be given out of this entry. *)
Definition room (v : rar5_vol) : Z :=
  if vl_emitted v <? vl_write_cap v then vl_write_cap v - vl_emitted v else 0.

(** The loop of [rar5_next_filedata_chunk]: [None] in the result when it ends
    with nothing to give out. *)
Fixpoint filedata_loop (fuel : nat) (v : rar5_vol) : rar5_vol * option chunk :=
  match fuel with
  | O => (v, None)
  | S fuel =>
    if 0 <? vl_data_remaining v then
      let n := Z.to_nat (if STREAM_CHUNK <? vl_data_remaining v then STREAM_CHUNK
                         else vl_data_remaining v) in
      match read_n (vl_in v) n with
      | None => (vl_fail v, Some (ChunkFailed E_truncated_data))
      | Some (inbuf, f) =>
        let '(clear, ctx) :=
          match vl_file_ctx v with
          | Some c => let '(clear, c) := evp_update c inbuf in (clear, Some c)
          | None => (inbuf, None)
          end in
        let r := room v in
        let r := if Z.of_nat (length clear) <? r then Z.of_nat (length clear) else r in
        let v' := vl_data_state f (vl_data_remaining v - Z.of_nat n) (vl_emitted v + r) true ctx v in
        if r =? 0 then filedata_loop fuel v' else (v', Some (Chunk (take (Z.to_nat r) clear)))
      end
    else (v, None)
  end.

Definition rar5_next_filedata_chunk (fuel : nat) (v : rar5_vol) (ss : rar5_split_state)
    : option (res (rar5_vol * rar5_split_state * chunk)) :=
  match filedata_loop (S (length (fi_data (vl_in v)))) v with
  | (v, Some c) => Some (ROk (v, ss, c))
  | (v, None) =>
    let after ctx := vl_data_state (vl_in v) (vl_data_remaining v) (vl_emitted v) false ctx v in
    match vl_file_ctx v with
    | Some c =>
      let v := after None in
      match evp_final c with
      | None => Some (ROk (vl_fail v, ss, ChunkFailed E_trailer))
      | Some tail =>
        let r := if Z.of_nat (length tail) <? room v then Z.of_nat (length tail) else room v in
        if 0 <? r then
          let v := vl_data_state (vl_in v) (vl_data_remaining v) (vl_emitted v + r) false None v in
          Some (ROk (if vl_endarc_pending v then vl_finish v else v, ss, Chunk (take (Z.to_nat r) tail)))
        else if vl_endarc_pending v then Some (ROk (vl_finish v, ss, ChunkEof))
        else rar5_next_header_chunk fuel v ss
      end
    | None =>
      let v := after None in
      if vl_endarc_pending v then Some (ROk (vl_finish v, ss, ChunkEof))
      else rar5_next_header_chunk fuel v ss
    end
  end.

Definition rar5_vol_read_cb (fuel : nat) (v : rar5_vol) (ss : rar5_split_state)
    : option (res (rar5_vol * rar5_split_state * chunk)) :=
  if vl_done v then Some (ROk (v, ss, ChunkEof))
  else if negb (vl_wrote_sig v) then
    Some (ROk (Rar5Vol (vl_in v) (vl_archive_key v) (vl_confirmed_password v) (vl_done v) true
                 (vl_in_filedata v) (vl_data_remaining v) (vl_write_cap v) (vl_emitted v)
                 (vl_endarc_pending v) (vl_file_ctx v), ss, Chunk RAR5_SIG))
  else if vl_in_filedata v then rar5_next_filedata_chunk fuel v ss
  else rar5_next_header_chunk fuel v ss.

(** libarchive reads a volume until the callback gives it nothing or fails. *)
Inductive volume_read (fuel : nat) : rar5_vol → rar5_split_state → list byte →
    rar5_split_state → option rar5_error → Prop :=
  | read_end v ss v' ss' :
      rar5_vol_read_cb fuel v ss = Some (ROk (v', ss', ChunkEof)) →
      volume_read fuel v ss [] ss' None
  | read_failed v ss v' ss' e :
      rar5_vol_read_cb fuel v ss = Some (ROk (v', ss', ChunkFailed e)) →
      volume_read fuel v ss [] ss' (Some e)
  | read_more v ss v' ss' data l ss'' e :
      rar5_vol_read_cb fuel v ss = Some (ROk (v', ss', Chunk data)) →
      volume_read fuel v' ss' l ss'' e → volume_read fuel v ss (data ++ l) ss'' e.

(** The volumes of a set one after the other, the split state shared. *)
Inductive volumes_read (fuel : nat) (passwords : list cstr) : list (list byte) →
    rar5_split_state → list (list byte) → Prop :=
  | volumes_nil ss : volumes_read fuel passwords [] ss []
  | volumes_cons content contents v ss l ss' ls :
      rar5_vol_open_cb passwords (Some content) = ROk v →
      volume_read fuel v ss l ss' None →
      volumes_read fuel passwords contents ss' ls →
      volumes_read fuel passwords (content :: contents) ss (l :: ls).
End crypto.
