(* ===== verification/Rar5Stream.v ===== *)
(** * What libarchive reads of an encrypted RAR5 archive ([extract/rar5_crypt.c])

    Against a description of what an archiver writes: variable-length integers
    round-trip, an encrypted header is read back, the patched header is a valid
    one, and the stream of a volume is its plain form: the signature, every
    header, and the data of every entry, decrypted and without its padding. *)

From Stdlib Require Import ZArith Lia List.
From Stdlib Require Import Strings.Byte Strings.String.
From stdpp Require Import base list.
From S2P Require Import Prelude Crc32 Rar5.

(** ** Variable-length integers *)

Lemma byte_val_range buf pos : 0 <= byte_val buf pos < 256.
Proof. apply b2z_range. Qed.

(** The low part is below [2 ^ shift], the group goes above it. *)
Lemma lor_group r v shift :
  0 <= shift → 0 <= r < 2 ^ shift → 0 <= v → Z.lor r (Z.shiftl v shift) = r + v * 2 ^ shift.
Proof.
  intros Hs Hr Hv. rewrite Z.shiftl_mul_pow2 by done.
  assert (Z.land r (v * 2 ^ shift) = 0) as Hland.
  { apply Z.bits_inj'. intros i Hi. rewrite Z.land_spec, Z.bits_0.
    destruct (Z.ltb_spec i shift).
    - rewrite (Z.mul_pow2_bits_low v shift i) by done. apply andb_false_r.
    - by rewrite (proj1 (testbit_bound shift r Hs (proj1 Hr)) (proj2 Hr) i). }
  rewrite <- Z.lxor_lor by done. symmetry. by apply Z.add_nocarry_lxor.
Qed.

Lemma length_vint_bytes w v : length (vint_bytes w v) = w.
Proof. revert v. induction w as [|w IH]; intros v; simpl; [done|]. by rewrite IH. Qed.

Lemma byte_val_app pre b post : byte_val (pre ++ b :: post) (Z.of_nat (length pre)) = b2z b.
Proof. unfold byte_val. by rewrite Nat2Z.id, nth_middle. Qed.

Lemma vint_loop_bytes n w v pre post len shift r :
  (w <= n)%nat → (0 < w)%nat → 0 <= v < 2 ^ (7 * Z.of_nat w) → 0 <= shift →
  0 <= r < 2 ^ shift → r + v * 2 ^ shift < 2 ^ 64 →
  Z.of_nat (length pre) + Z.of_nat w <= len →
  vint_loop n (pre ++ vint_bytes w v ++ post) len (Z.of_nat (length pre)) shift r =
  (r + v * 2 ^ shift, Z.of_nat (length pre) + Z.of_nat w).
Proof.
  revert w v pre shift r. induction n as [|n IH]; intros [|w] v pre shift r Hw H0 Hv Hs Hr Hb Hl;
    [lia..|]. cbn [vint_loop vint_bytes app].
  destruct (Z.ltb_spec (Z.of_nat (length pre)) len); [|lia]. rewrite byte_val_app.
  assert (Z.land v 0x7f = v mod 128) as Hlow by exact (Z.land_ones v 7 ltac:(lia)).
  pose proof (Z.mod_pos_bound v 128 ltac:(done)) as Hm.
  pose proof (Z.pow_pos_nonneg 2 shift ltac:(done) Hs) as Hp.
  assert (u64 (Z.shiftl (v mod 128) shift) = Z.shiftl (v mod 128) shift) as Hu.
  { unfold u64. rewrite Z.shiftl_mul_pow2 by done. apply Z.mod_small.
    assert (v mod 128 <= v) by (apply Z.mod_le; lia). generalize dependent (2 ^ shift). intros p **.
    split; [apply Z.mul_nonneg_nonneg; lia|].
    apply Z.le_lt_trans with (v * p); [apply Z.mul_le_mono_nonneg_r; lia|lia]. }
  assert (Z.lor r (u64 (Z.shiftl (v mod 128) shift)) = r + v mod 128 * 2 ^ shift) as Hlor
    by (rewrite Hu; apply lor_group; lia).
  rewrite Hlow. destruct w as [|w]; cbn [Nat.ltb Nat.leb].
  - rewrite z2b_small by lia.
    assert (v mod 128 = v) as Hid by (apply Z.mod_small; simpl in Hv; lia).
    assert (Z.land (v mod 128) 0x7f = v mod 128) as -> by
      (rewrite (Z.land_ones _ 7 ltac:(lia)); apply Z.mod_mod; done).
    assert (Z.land (v mod 128) 0x80 = 0) as ->.
    { apply Z.bits_inj'. intros i Hi. rewrite Z.land_spec, Z.bits_0.
      change 128 with (2 ^ 7) at 1. rewrite Z.testbit_mod_pow2 by lia.
      change 0x80 with (2 ^ 7). rewrite Z.pow2_bits_eqb by lia.
      destruct (Z.ltb_spec i 7), (Z.eqb_spec 7 i); try done; lia. }
    rewrite Hlor, Hid. f_equal; lia.
  - assert (Z.lor (v mod 128) 0x80 = v mod 128 + 128) as Hset.
    { exact (lor_group (v mod 128) 1 7 ltac:(done) Hm ltac:(done)). }
    rewrite Hset, z2b_small by lia.
    assert (Z.land (v mod 128 + 128) 0x7f = v mod 128) as ->.
    { rewrite (Z.land_ones _ 7 ltac:(lia)). change (2 ^ 7) with 128.
      rewrite <- (Z.mul_1_l 128) at 2. rewrite Z_mod_plus_full. by apply Z.mod_mod. }
    assert ((Z.land (v mod 128 + 128) 0x80 =? 0) = false) as ->.
    { apply Z.eqb_neq. rewrite <- Hset. intros Hz. apply (f_equal (λ z, Z.testbit z 7)) in Hz.
      rewrite Z.land_spec, Z.lor_spec in Hz. change (Z.testbit 0x80 7) with true in Hz.
      by rewrite orb_true_r in Hz. }
    rewrite Hlor. rewrite Z.shiftr_div_pow2 by lia. change (2 ^ 7) with 128.
    replace (pre ++ z2b (v mod 128 + 128) :: vint_bytes (S w) (v / 128) ++ post)
      with ((pre ++ [z2b (v mod 128 + 128)]) ++ vint_bytes (S w) (v / 128) ++ post)
      by (by rewrite <- app_assoc).
    pose proof (Z.div_mod v 128 ltac:(done)) as Hdm.
    assert (2 ^ (shift + 7) = 2 ^ shift * 128) as Hpow by (rewrite Z.pow_add_r by lia; done).
    assert (Z.of_nat (length pre) + 1 = Z.of_nat (length (pre ++ [z2b (v mod 128 + 128)]))) as ->
      by (rewrite length_app; simpl; lia).
    rewrite IH; rewrite ?length_app, ?Hpow; cbn [length]; [f_equal; nia|lia|lia| |lia|nia|nia|lia].
    split; [apply Z.div_pos; lia|]. apply Z.div_lt_upper_bound; [lia|].
    replace (128 * 2 ^ (7 * Z.of_nat (S w))) with (2 ^ (7 * Z.of_nat (S (S w)))); [lia|].
    change 128 with (2 ^ 7). rewrite <- Z.pow_add_r by lia. f_equal. lia.
Qed.

(** A value written in [w] bytes is read back, and the position is after it. *)
Lemma get_vint_bytes w v pre post len :
  (0 < w <= 10)%nat → 0 <= v < 2 ^ (7 * Z.of_nat w) → v < 2 ^ 64 →
  Z.of_nat (length pre) + Z.of_nat w <= len →
  get_vint (pre ++ vint_bytes w v ++ post) len (Z.of_nat (length pre)) =
  (v, Z.of_nat (length pre) + Z.of_nat w).
Proof.
  intros Hw Hv H64 Hl. unfold get_vint. rewrite vint_loop_bytes; try lia. f_equal. lia.
Qed.

(** ** Little-endian fields and reads *)

Lemma lor_byte_above x b k :
  0 <= k → 0 <= x < 2 ^ k → Z.lor x (Z.shiftl (b2z b) k) = x + b2z b * 2 ^ k.
Proof. intros Hk Hx. apply lor_group; [done|done|]. apply b2z_range. Qed.

Lemma le32_sum b0 b1 b2 b3 rest :
  read_le32_at0 (b0 :: b1 :: b2 :: b3 :: rest) =
  b2z b0 + 256 * b2z b1 + 65536 * b2z b2 + 16777216 * b2z b3.
Proof.
  unfold read_le32_at0. change (byte_val _ 0) with (b2z b0). change (byte_val _ 1) with (b2z b1).
  change (byte_val _ 2) with (b2z b2). change (byte_val _ 3) with (b2z b3).
  pose proof (b2z_range b0). pose proof (b2z_range b1). pose proof (b2z_range b2).
  rewrite (lor_byte_above (b2z b0) b1 8) by (change (2 ^ 8) with 256; lia).
  change (2 ^ 8) with 256.
  rewrite (lor_byte_above (b2z b0 + _) b2 16) by (change (2 ^ 16) with 65536; lia).
  change (2 ^ 16) with 65536.
  rewrite (lor_byte_above (_ + _ + _) b3 24) by (change (2 ^ 24) with 16777216; lia).
  change (2 ^ 24) with 16777216. lia.
Qed.

Lemma read_le32_bytes z rest : 0 <= z < 2 ^ 32 → read_le32_at0 (le32_bytes z ++ rest) = z.
Proof.
  intros Hz. unfold le32_bytes. cbn [app]. rewrite le32_sum.
  assert (∀ x, b2z (z2b (Z.land x 0xff)) = x mod 256) as Hb.
  { intros x. rewrite b2z_z2b. change 0xff with (Z.ones 8). rewrite Z.land_ones by done.
    by apply Z.mod_mod. }
  rewrite !Hb, !Z.shiftr_div_pow2 by lia.
  change (2 ^ 8) with 256. change (2 ^ 16) with (256 * 256). change (2 ^ 24) with (256 * 256 * 256).
  change (2 ^ 32) with (256 * 256 * 256 * 256) in Hz.
  rewrite <- !Z.div_div by lia.
  pose proof (Z.div_mod z 256 ltac:(done)). pose proof (Z.div_mod (z / 256) 256 ltac:(done)).
  pose proof (Z.div_mod (z / 256 / 256) 256 ltac:(done)).
  rewrite (Z.mod_small (z / 256 / 256 / 256) 256) by
    (rewrite !Z.div_div by lia; split; [apply Z.div_pos; lia|apply Z.div_lt_upper_bound; lia]).
  lia.
Qed.

Lemma read_n_app pre l post n :
  n = length l →
  read_n (FileIn (pre ++ l ++ post) (length pre)) n =
  Some (l, FileIn (pre ++ l ++ post) (length pre + n)).
Proof.
  intros ->. unfold read_n. cbn [fi_data fi_pos]. rewrite drop_app_length, take_app_length.
  by rewrite Nat.eqb_refl.
Qed.

(** ** Headers *)

(** A header as it is written: checksum, size in [sw] bytes, and [body], all
    from the type on. *)
Definition header_bytes (sw : nat) (body : list byte) : list byte :=
  let sized := vint_bytes sw (Z.of_nat (length body)) ++ body in
  le32_bytes (u32 (crc32 sized)) ++ sized.

Definition header_sized (sw : nat) (body : list byte) : Prop :=
  (0 < sw <= 10)%nat ∧ (0 < length body)%nat ∧ Z.of_nat (length body) < 2 ^ (7 * Z.of_nat sw) ∧
  Z.of_nat (4 + sw + length body) <= MAX_HEADER_SIZE.

Lemma length_header_bytes sw body : length (header_bytes sw body) = (4 + sw + length body)%nat.
Proof. unfold header_bytes. rewrite !length_app, length_vint_bytes. simpl. lia. Qed.

Lemma land_align x : Z.land x (Z.lnot 15) = x / 16 * 16.
Proof.
  rewrite <- Z.ldiff_land. change 15 with (Z.ones 4). rewrite Z.ldiff_ones_r by done.
  rewrite Z.shiftl_mul_pow2, Z.shiftr_div_pow2 by done. done.
Qed.

Lemma u32_range z : 0 <= u32 z < 2 ^ 32.
Proof. unfold u32. by apply Z.mod_pos_bound. Qed.

(** What OpenSSL's AES-CBC does: decryption is by whole blocks, each from what
    came before it, and undoes encryption. *)
Class CbcCipher (enc dec : list byte → list byte → list byte → list byte) := {
  cbc_decrypts key iv p : (length p mod 16 = 0)%nat → dec key iv (enc key iv p) = p;
  cbc_enc_length key iv p : length (enc key iv p) = length p;
  cbc_prefix key iv c n :
    (length c mod 16 = 0)%nat → dec key iv (take (16 * n) c) = take (16 * n) (dec key iv c)
}.

Section headers.
Context `{Hcbc : CbcCipher enc dec}.

(** The size field lies in the first block. *)
Lemma first_block_size sw body pad :
  header_sized sw body → (16 <= length (header_bytes sw body ++ pad))%nat →
  let first := take 16 (header_bytes sw body ++ pad) in
  get_vint first 16 4 = (Z.of_nat (length body), 4 + Z.of_nat sw) ∧
  read_le32_at0 first = u32 (crc32 (vint_bytes sw (Z.of_nat (length body)) ++ body)).
Proof using.
  intros (Hsw & Hb & Hfit & Hmax) H16 first.
  assert (first = le32_bytes (u32 (crc32 (vint_bytes sw (Z.of_nat (length body)) ++ body))) ++
    vint_bytes sw (Z.of_nat (length body)) ++ take (12 - sw) (body ++ pad)) as ->.
  { subst first. unfold header_bytes. rewrite <- !app_assoc.
    rewrite (take_app_ge (le32_bytes _)) by (simpl; lia). f_equal. simpl length.
    rewrite take_app_ge by (rewrite length_vint_bytes; lia). rewrite length_vint_bytes.
    f_equal. }
  split; [|apply read_le32_bytes, u32_range].
  apply (get_vint_bytes sw _ (le32_bytes _)); [done|lia| |simpl; lia].
  unfold MAX_HEADER_SIZE in Hmax. lia.
Qed.

Lemma read_header_ok key iv pre post pad sw body :
  header_sized sw body → length iv = 16%nat →
  (length pad < 16)%nat → (length (header_bytes sw body ++ pad) mod 16 = 0)%nat →
  let h := header_bytes sw body in
  let data := pre ++ iv ++ enc key iv (h ++ pad) ++ post in
  read_and_decrypt_header dec (FileIn data (length pre)) key =
  ROk (h ++ pad, Z.of_nat (length h), true, FileIn data (length pre + 16 + length (h ++ pad))).
Proof using Hcbc.
  intros Hs Hiv Hpad Hmod h data. pose proof Hs as (Hsw & Hb & Hfit & Hmax).
  pose proof (length_header_bytes sw body) as Hlen. fold h in Hlen, Hmod.
  set (ct := enc key iv (h ++ pad)).
  assert (length ct = length (h ++ pad)) as Hct by apply cbc_enc_length.
  assert (16 <= length (h ++ pad))%nat as H16.
  { rewrite length_app in Hmod |- *. pose proof (Nat.div_mod_eq (length h + length pad) 16). lia. }
  assert (data = pre ++ iv ++ ct ++ post) as Hdata by done.
  assert (ct = take 16 ct ++ drop 16 ct) as Hsplit by (by rewrite take_drop).
  assert (dec key iv ct = h ++ pad) as Hdec by (by apply cbc_decrypts).
  unfold read_and_decrypt_header. rewrite Hdata, read_n_app by done.
  replace (pre ++ iv ++ ct ++ post) with ((pre ++ iv) ++ take 16 ct ++ drop 16 ct ++ post)
    by (rewrite (app_assoc (take 16 ct)), <- Hsplit, <- app_assoc; done).
  replace (length pre + 16)%nat with (length (pre ++ iv)) by (rewrite length_app; lia).
  rewrite read_n_app by (rewrite length_take; lia).
  replace (dec key iv (take 16 ct)) with (take 16 (h ++ pad))
    by (rewrite <- Hdec; symmetry; apply (cbc_prefix key iv ct 1); by rewrite Hct).
  destruct (first_block_size sw body pad Hs H16) as [Hsize Hcrc]. fold h in Hsize, Hcrc.
  rewrite Hsize, Hcrc.
  replace (4 + Z.of_nat sw - 4) with (Z.of_nat sw) by lia.
  destruct (Z.eqb_spec (Z.of_nat (length body)) 0); [lia|].
  destruct (Z.eqb_spec (Z.of_nat sw) 0); [lia|]. cbn [orb].
  assert (u64 (4 + Z.of_nat sw + Z.of_nat (length body)) = Z.of_nat (length h)) as ->.
  { unfold MAX_HEADER_SIZE in Hmax. unfold u64. rewrite Z.mod_small; lia. }
  destruct (Z.ltb_spec MAX_HEADER_SIZE (Z.of_nat (length h))); [lia|].
  assert (Z.land (Z.of_nat (length h) + 15) (Z.lnot 15) = Z.of_nat (length (h ++ pad))) as ->.
  { rewrite land_align. rewrite length_app in Hmod |- *.
    pose proof (Nat.div_mod_eq (length h + length pad) 16) as Hd. rewrite Hmod in Hd.
    assert (Z.of_nat (length h) + 15 =
      Z.of_nat ((length h + length pad) / 16) * 16 + (15 - Z.of_nat (length pad))) as -> by lia.
    rewrite Z.div_add_l by done. rewrite (Z.div_small (15 - _)) by lia. lia. }
  destruct (Z.ltb_spec (Z.of_nat (length (h ++ pad))) 16); [lia|].
  rewrite (app_assoc (pre ++ iv)).
  replace (length (pre ++ iv) + 16)%nat with (length ((pre ++ iv) ++ take 16 ct))
    by (rewrite length_app, length_take; lia).
  rewrite read_n_app by (rewrite length_drop; lia). rewrite <- Hsplit, Hdec.
  assert (crc32_of (h ++ pad) 4 (u64 (Z.of_nat (length h) - 4)) =
    Some (u32 (crc32 (vint_bytes sw (Z.of_nat (length body)) ++ body)))) as ->.
  { unfold MAX_HEADER_SIZE in Hmax. unfold crc32_of, u64. rewrite Z.mod_small by lia.
    destruct (Z.leb_spec (4 + (Z.of_nat (length h) - 4)) (Z.of_nat (length (h ++ pad)))) as [_|Hgt];
      [|rewrite length_app in Hgt; lia].
    do 3 f_equal. subst h. unfold header_bytes. rewrite <- app_assoc.
    change (Z.to_nat 4) with (length (le32_bytes (u32 (crc32 (vint_bytes sw (Z.of_nat (length body)) ++ body))))).
    rewrite drop_app_length, take_app_length'; [done|].
    rewrite !length_app, length_vint_bytes. cbn [length le32_bytes]. lia. }
  rewrite Z.eqb_refl.
  assert (length ((pre ++ iv) ++ take 16 ct) + Z.to_nat (Z.of_nat (length (h ++ pad)) - 16) =
    length pre + 16 + length (h ++ pad))%nat as ->
    by (rewrite !length_app, length_take, Hct, length_app; rewrite length_app in H16; lia).
  do 3 f_equal. rewrite (length_app pre), Hiv. done.
Qed.

(** ** The data of one entry *)

(** Of the first [k] bytes, what lies below the cap. *)
Definition capped (cap : Z) (k : nat) : nat := Z.to_nat (Z.min (Z.of_nat k) cap).

(** [v] has read [k] bytes of the data [wire] of its entry, [clear] in plain. *)
Record data_state (pre wire post clear : list byte) (cap : Z) (v : rar5_vol) (k : nat) : Prop := {
  ds_k : (k <= length clear)%nat;
  ds_length : length wire = length clear;
  ds_in : vl_in v = FileIn (pre ++ wire ++ post) (length pre + k);
  ds_remaining : vl_data_remaining v = Z.of_nat (length clear) - Z.of_nat k;
  ds_cap : 0 <= cap;
  ds_write_cap : vl_write_cap v = cap;
  ds_emitted : vl_emitted v = Z.min (Z.of_nat k) cap;
  ds_ctx : match vl_file_ctx v with
           | None => wire = clear
           | Some c => (length clear mod 16 = 0)%nat ∧ (k mod 16 = 0)%nat ∧
               wire = enc (ec_key c) (ec_iv c) clear ∧ ec_in c = take k wire
           end
}.

(** What does not change while data is read. *)
Definition same_vol (v v' : rar5_vol) : Prop :=
  vl_archive_key v' = vl_archive_key v ∧ vl_confirmed_password v' = vl_confirmed_password v ∧
  vl_done v' = vl_done v ∧ vl_wrote_sig v' = vl_wrote_sig v ∧
  vl_endarc_pending v' = vl_endarc_pending v.

Lemma whole_id n : (n mod 16 = 0)%nat → (n / 16 * 16 = n)%nat.
Proof using. intros H. pose proof (Nat.div_mod_eq n 16). lia. Qed.

(** The next piece of the data, decrypted if it has to be. *)
Lemma data_step pre wire post clear cap v k n :
  data_state pre wire post clear cap v k → (k + n <= length clear)%nat →
  ((k + n) mod 16 = 0 ∨ vl_file_ctx v = None)%nat →
  match vl_file_ctx v with
  | None => take n (drop k wire) = take n (drop k clear)
  | Some c =>
    evp_update dec c (take n (drop k wire)) =
      (take n (drop k clear), EvpCtx (ec_key c) (ec_iv c) (take (k + n) wire))
  end.
Proof using Hcbc.
  intros [Hk Hl _ _ _ _ _ Hctx] Hn Hmod. destruct (vl_file_ctx v) as [c|]; [|by subst].
  destruct Hmod as [Hmod|]; [|done]. destruct Hctx as (Hd16 & Hk16 & Hw & Hin).
  unfold evp_update. rewrite Hin.
  assert (take k wire ++ take n (drop k wire) = take (k + n) wire) as -> by (by rewrite take_take_drop).
  rewrite !length_take, !Nat.min_l by lia. rewrite (whole_id (k + n)), (whole_id k) by done.
  rewrite take_take, Nat.min_id. f_equal.
  rewrite <- (whole_id (k + n) Hmod), Nat.mul_comm, cbc_prefix by (by rewrite Hl).
  rewrite Nat.mul_comm, (whole_id (k + n) Hmod), Hw, cbc_decrypts by done.
  by rewrite skipn_firstn_comm, Nat.add_comm, Nat.add_sub.
Qed.

Lemma take_capped_more (clear : list byte) cap k n :
  0 <= cap → (k + n <= length clear)%nat →
  take (capped cap (k + n)) clear =
  take (capped cap k) clear ++ take (capped cap (k + n) - capped cap k) (take n (drop k clear)) ∧
  (capped cap k <= capped cap (k + n) <= capped cap k + n)%nat ∧
  (capped cap k < capped cap (k + n) → capped cap k = k)%nat.
Proof using.
  intros Hcap Hn. unfold capped.
  assert (Z.to_nat (Z.min (Z.of_nat k) cap) <= Z.to_nat (Z.min (Z.of_nat (k + n)) cap) <=
    Z.to_nat (Z.min (Z.of_nat k) cap) + n)%nat as Hle by lia.
  assert (Z.to_nat (Z.min (Z.of_nat k) cap) < Z.to_nat (Z.min (Z.of_nat (k + n)) cap) →
    Z.to_nat (Z.min (Z.of_nat k) cap) = k)%nat as Heq by lia.
  split; [|done]. set (a := Z.to_nat (Z.min (Z.of_nat k) cap)) in *.
  set (b := Z.to_nat (Z.min (Z.of_nat (k + n)) cap)) in *. clearbody a b.
  destruct (decide (a < b)%nat) as [Hlt|Hge].
  - rewrite (Heq Hlt) in *. rewrite take_take, Nat.min_l by lia.
    rewrite take_take_drop. f_equal. lia.
  - assert (b = a) as -> by lia. by rewrite Nat.sub_diag, take_0, app_nil_r.
Qed.

Lemma read_n_mid pre (wire post : list byte) k n :
  (k + n <= length wire)%nat →
  read_n (FileIn (pre ++ wire ++ post) (length pre + k)) n =
  Some (take n (drop k wire), FileIn (pre ++ wire ++ post) (length pre + k + n)).
Proof using.
  intros Hk. unfold read_n. cbn [fi_data fi_pos].
  rewrite <- drop_drop, drop_app_length, drop_app_le, take_app_le by (rewrite ?length_drop; lia).
  rewrite length_take, length_drop. by rewrite (proj2 (Nat.eqb_eq _ _)) by lia.
Qed.

(** The loop: it gives the next piece below the cap, or has read everything. *)
Lemma filedata_loop_spec pre wire post clear cap fuel v k :
  data_state pre wire post clear cap v k → (length clear - k < fuel)%nat →
  ∃ v' k' oc, filedata_loop dec fuel v = (v', oc) ∧ data_state pre wire post clear cap v' k' ∧
    (k <= k')%nat ∧ same_vol v v' ∧ (bool_decide (is_Some (vl_file_ctx v')) = bool_decide (is_Some (vl_file_ctx v))) ∧
    match oc with
    | Some (Chunk piece) => (k < k')%nat ∧ vl_in_filedata v' = true ∧
        take (capped cap k') clear = take (capped cap k) clear ++ piece
    | Some _ => False
    | None => k' = length clear ∧ take (capped cap k') clear = take (capped cap k) clear
    end.
Proof using Hcbc.
  revert v k. induction fuel as [|fuel IH]; intros v k Hst Hf; [lia|]. cbn [filedata_loop].
  pose proof Hst as [Hk Hl Hin Hrem Hcap Hwc Hem Hctx]. rewrite Hrem.
  destruct (Z.ltb_spec 0 (Z.of_nat (length clear) - Z.of_nat k)) as [Hpos|Hdone].
  2: { exists v, k, None. assert (k = length clear) as -> by lia. by split_and!. }
  set (n := Z.to_nat (if STREAM_CHUNK <? _ then _ else _)).
  assert ((0 < n)%nat ∧ (k + n <= length clear)%nat ∧
    (Z.of_nat n = 262144 ∨ (k + n = length clear)%nat)) as (Hn & Hkn & Hlast).
  { subst n. unfold STREAM_CHUNK. destruct (Z.ltb_spec (256 * 1024) (Z.of_nat (length clear) - Z.of_nat k)); lia. }
  clearbody n.
  assert ((k + n) mod 16 = 0 ∨ vl_file_ctx v = None)%nat as Hmod.
  { destruct (vl_file_ctx v) as [c|]; [|by right]. destruct Hctx as (Hd16 & Hk16 & _). left.
    destruct Hlast as [Hn'| ->]; [|done].
    pose proof (Nat.div_mod_eq k 16). pose proof (Nat.div_mod_eq (k + n) 16).
    pose proof (Nat.mod_upper_bound (k + n) 16 ltac:(done)). lia. }
  pose proof (data_step _ _ _ _ _ _ _ _ Hst Hkn Hmod) as Hstep.
  rewrite Hin, read_n_mid by lia.
  destruct (take_capped_more clear cap k n Hcap Hkn) as (Hmore & Hgrow & Hsame).
  set (r0 := room v).
  assert (length (take n (drop k clear)) = n) as Hclear by (rewrite length_take, length_drop; lia).
  set (r := if Z.of_nat (length (take n (drop k clear))) <? r0
            then Z.of_nat (length (take n (drop k clear))) else r0).
  assert (r = Z.of_nat (capped cap (k + n) - capped cap k)) as Hr.
  { subst r r0. unfold room. rewrite Hclear, Hem, Hwc. unfold capped. bool_cases; lia. }
  set (ctx' := (λ c, EvpCtx (ec_key c) (ec_iv c) (take (k + n) wire)) <$> vl_file_ctx v).
  set (v' := vl_data_state (FileIn (pre ++ wire ++ post) (length pre + k + n))
    (Z.of_nat (length clear) - Z.of_nat k - Z.of_nat n) (vl_emitted v + r) true ctx' v).
  assert (data_state pre wire post clear cap v' (k + n)) as Hst'.
  { split; cbn [v' vl_data_state vl_in vl_data_remaining vl_write_cap vl_emitted vl_file_ctx]; try done; try lia.
    - f_equal. lia.
    - rewrite Hem, Hr. unfold capped. lia.
    - subst ctx'. destruct (vl_file_ctx v) as [c|]; [|done]. simpl.
      destruct Hctx as (? & ? & ? & ?). destruct Hmod; by split_and!. }
  assert (same_vol v v' ∧ bool_decide (is_Some (vl_file_ctx v')) = bool_decide (is_Some (vl_file_ctx v)))
    as [Hvol Hdec] by (split; [by split_and!|]; subst v' ctx'; simpl; by destruct (vl_file_ctx v)).
  assert ((match vl_file_ctx v with
           | Some c => let '(clear, c) := evp_update dec c (take n (drop k wire)) in (clear, Some c)
           | None => (take n (drop k wire), None)
           end) = (take n (drop k clear), ctx')) as ->.
  { subst ctx'. destruct (vl_file_ctx v) as [c|]; [by rewrite Hstep|by rewrite Hstep]. }
  fold r. fold v'. destruct (Z.eqb_spec r 0) as [Hz|Hnz].
  - destruct (IH v' (k + n)%nat Hst' ltac:(lia)) as (v2 & k2 & oc & Hrun & Hst2 & Hk2 & Hvol2 & Hdec2 & Hoc).
    exists v2, k2, oc. rewrite Hdec2, Hdec. split_and!; [done|done|lia| |done|].
    + destruct Hvol as (? & ? & ? & ? & ?), Hvol2 as (? & ? & ? & ? & ?). split_and!; congruence.
    + assert (capped cap (k + n) = capped cap k) as <- by lia. destruct oc as [[piece| |]|]; [|done..].
      destruct Hoc as (? & ? & ?). split_and!; [lia|done|done].
  - exists v', (k + n)%nat. eexists. split_and!; [reflexivity|done|lia|done|done|].
    split_and!; [lia|done|]. rewrite Hmore. f_equal. f_equal. lia.
Qed.

(** ** The stream *)

Context (pbkdf2 : cstr → list byte → Z → list byte).
Abbreviation reads fuel := (volume_read dec pbkdf2 fuel).

(** Before a header: nothing of an entry is pending. *)
Record at_header (f : file_in) (key : list byte) (password : cstr) (v : rar5_vol) : Prop := {
  ah_in : vl_in v = f;
  ah_key : vl_archive_key v = key;
  ah_password : vl_confirmed_password v = password;
  ah_done : vl_done v = false;
  ah_sig : vl_wrote_sig v = true;
  ah_data : vl_in_filedata v = false;
  ah_endarc : vl_endarc_pending v = false
}.

(** What the read callback does next is all that counts. *)
Lemma volume_read_same fuel v v' ss l ss' e :
  rar5_vol_read_cb dec pbkdf2 fuel v ss = rar5_vol_read_cb dec pbkdf2 fuel v' ss →
  reads fuel v' ss l ss' e → reads fuel v ss l ss' e.
Proof using.
  intros Heq Hr. inversion Hr; subst.
  - eapply read_end. by rewrite Heq.
  - eapply read_failed. by rewrite Heq.
  - eapply read_more; [by rewrite Heq|done].
Qed.

Lemma empty_room r : (0 <? (if 0 <? r then 0 else r)) = false.
Proof using. destruct (Z.ltb_spec 0 r); [done|]. by apply Z.ltb_ge. Qed.

Lemma data_phase fuel pre wire post clear cap v k ss l ss' e :
  data_state pre wire post clear cap v k →
  vl_done v = false → vl_wrote_sig v = true → vl_in_filedata v = true → vl_endarc_pending v = false →
  (∀ v1, at_header (FileIn (pre ++ wire ++ post) (length pre + length wire)) (vl_archive_key v)
           (vl_confirmed_password v) v1 → reads fuel v1 ss l ss' e) →
  reads fuel v ss (drop (capped cap k) (take (capped cap (length clear)) clear) ++ l) ss' e.
Proof using Hcbc.
  remember (length clear - k)%nat as m eqn:Hm. revert v k Hm.
  induction m as [m IH] using lt_wf_ind. intros v k Hm Hst Hdone Hsig Hdata Hend Hafter.
  assert (length clear - k < S (length (fi_data (vl_in v))))%nat as Hfuel.
  { rewrite (ds_in _ _ _ _ _ _ _ Hst). cbn [fi_data]. rewrite !length_app.
    pose proof (ds_length _ _ _ _ _ _ _ Hst). lia. }
  destruct (filedata_loop_spec _ _ _ _ _ _ _ _ Hst Hfuel)
    as (v' & k' & oc & Hrun & Hst' & Hk & (Hkey & Hpw & Hd' & Hs' & He') & Hctx & Hoc).
  assert (rar5_vol_read_cb dec pbkdf2 fuel v ss = rar5_next_filedata_chunk dec pbkdf2 fuel v ss) as Hcb
    by (unfold rar5_vol_read_cb; by rewrite Hdone, Hsig, Hdata).
  destruct oc as [[piece| |]|]; [|done|done|].
  - destruct Hoc as (Hlt & Hd & Hpiece).
    assert (drop (capped cap k) (take (capped cap (length clear)) clear) =
      piece ++ drop (capped cap k') (take (capped cap (length clear)) clear)) as ->.
    { pose proof (ds_k _ _ _ _ _ _ _ Hst') as Hle. pose proof (ds_cap _ _ _ _ _ _ _ Hst').
      assert (capped cap k <= capped cap k' <= capped cap (length clear))%nat as Hc by (unfold capped; lia).
      assert (capped cap k' <= length clear)%nat by (unfold capped; lia).
      apply (f_equal (drop (capped cap k))) in Hpiece.
      rewrite drop_app_length' in Hpiece by (rewrite length_take; lia).
      rewrite <- Hpiece.
      rewrite <- (take_drop (capped cap k' - capped cap k) (drop (capped cap k) (take _ clear))) at 1.
      rewrite drop_drop. f_equal; [|f_equal; lia].
      rewrite !skipn_firstn_comm, take_take. f_equal. lia. }
    rewrite <- app_assoc. eapply read_more.
    + rewrite Hcb. unfold rar5_next_filedata_chunk. by rewrite Hrun.
    + apply (IH (length clear - k')%nat ltac:(pose proof (ds_k _ _ _ _ _ _ _ Hst'); lia) v' k');
        [done|done|congruence|congruence|done|congruence|by rewrite Hkey, Hpw].
  - destruct Hoc as [-> Hall].
    assert (drop (capped cap k) (take (capped cap (length clear)) clear) = []) as ->.
    { rewrite Hall. apply drop_ge. rewrite length_take. lia. }
    set (v1 := vl_data_state (vl_in v') (vl_data_remaining v') (vl_emitted v') false None v').
    apply (volume_read_same fuel v v1).
    + assert (rar5_vol_read_cb dec pbkdf2 fuel v1 ss = rar5_next_header_chunk dec pbkdf2 fuel v1 ss) as ->
        by (unfold rar5_vol_read_cb; cbn; by rewrite Hd', Hdone, Hs', Hsig).
      rewrite Hcb. unfold rar5_next_filedata_chunk. rewrite Hrun.
      pose proof (ds_ctx _ _ _ _ _ _ _ Hst') as Hc. destruct (vl_file_ctx v') as [c|].
      * destruct Hc as (Hmod & _ & Hw & Hin). unfold evp_final.
        rewrite Hin, take_ge by (rewrite (ds_length _ _ _ _ _ _ _ Hst'); done).
        rewrite (ds_length _ _ _ _ _ _ _ Hst'), Hmod. cbn [Nat.eqb length].
        change (Z.of_nat 0) with 0. rewrite empty_room.
        cbn [vl_endarc_pending vl_data_state]. by rewrite He', Hend.
      * cbn [vl_endarc_pending vl_data_state]. by rewrite He', Hend.
    + apply Hafter. split; cbn; try congruence. rewrite (ds_in _ _ _ _ _ _ _ Hst').
      by rewrite (ds_length _ _ _ _ _ _ _ Hst').
Qed.

(** ** Entries *)

(** One entry as the archiver has it: its header, the packed data with its
    padding, in plain, and what the header says of their encryption. *)
Record rar5_entry := Rar5Entry {
  en_size_width : nat;
  en_body : list byte;
  en_pad : list byte;
  en_iv : list byte;
  en_data : list byte;
  en_crypt : option file_crypt
}.

Definition en_header (e : rar5_entry) : list byte := header_bytes (en_size_width e) (en_body e).
Definition en_plain (e : rar5_entry) : list byte := en_header e ++ en_pad e.
Definition en_length (e : rar5_entry) : Z := Z.of_nat (length (en_header e)).
Definition en_fields (e : rar5_entry) : header_fields := parse_common (en_plain e) (en_length e).

Record entry_ok (fuel : nat) (e : rar5_entry) : Prop := {
  eo_sized : header_sized (en_size_width e) (en_body e);
  eo_iv : length (en_iv e) = 16%nat;
  eo_pad : (length (en_pad e) < 16)%nat;
  eo_blocks : (length (en_plain e) mod 16 = 0)%nat;
  eo_crypt :
    (if (hf_type (en_fields e) =? HEAD_FILE) || (hf_type (en_fields e) =? HEAD_SERVICE)
     then find_file_crypt fuel (en_plain e) (en_length e) (hf_extra_size (en_fields e))
            (hf_end (en_fields e))
     else Some (ROk None)) = Some (ROk (en_crypt e));
  eo_unp : ∀ fc, en_crypt e = Some fc → 0 <= fc_unp_size fc;
  eo_data : hf_data_size (en_fields e) = Z.of_nat (length (en_data e));
  eo_data_blocks : is_Some (en_crypt e) → (length (en_data e) mod 16 = 0)%nat;
  eo_endarc : hf_type (en_fields e) = HEAD_ENDARC → en_data e = []
}.

(** The entry in the archive. *)
Definition entry_data_wire (password : cstr) (e : rar5_entry) : list byte :=
  match en_crypt e with
  | Some fc => enc (derive_key pbkdf2 password (fc_salt fc) (fc_lg2count fc)) (fc_iv fc) (en_data e)
  | None => en_data e
  end.

Definition entry_wire (key : list byte) (password : cstr) (e : rar5_entry) : list byte :=
  en_iv e ++ enc key (en_iv e) (en_plain e) ++ entry_data_wire password e.

(** How much of its data is content, and the split state after it. *)
Definition entry_split (ss : rar5_split_state) (e : rar5_entry) : Z * rar5_split_state :=
  match en_crypt e with
  | Some fc =>
    entry_cap ss (has_flag (hf_flags (en_fields e)) HFL_SPLITBEFORE)
      (has_flag (hf_flags (en_fields e)) HFL_SPLITAFTER) (hf_data_size (en_fields e))
      (fc_unp_size fc) (fc_unp_size_known fc)
  | None => (UINT64_MAX, ss)
  end.

(** What libarchive reads of it: the patched header and the content. *)
Definition entry_out (ss : rar5_split_state) (e : rar5_entry) : list byte :=
  let cap := fst (entry_split ss e) in
  take (length (en_header e))
    (patch_header (en_plain e) (en_length e) (en_crypt e) cap (hf_data_size_pos (en_fields e))
       (hf_data_size_width (en_fields e))) ++
  take (capped cap (length (en_data e))) (en_data e).

Lemma capped_0 cap : 0 <= cap → capped cap 0 = O.
Proof using. intros Hc. unfold capped. lia. Qed.

Lemma entry_split_cap fuel ss e : entry_ok fuel e → 0 <= fst (entry_split ss e).
Proof using.
  intros Hok. unfold entry_split. destruct (en_crypt e) as [fc|] eqn:E; [|done].
  pose proof (eo_unp _ _ Hok fc E). unfold entry_cap. bool_cases; cbn [fst]; unfold UINT64_MAX; lia.
Qed.

Lemma length_entry_data_wire password e : length (entry_data_wire password e) = length (en_data e).
Proof using Hcbc. unfold entry_data_wire. destruct (en_crypt e); [apply cbc_enc_length|done]. Qed.

(** The call that reads the header of [e]. *)
Lemma header_call fuel pre post e key password v ss :
  entry_ok fuel e →
  let data := pre ++ entry_wire key password e ++ post in
  at_header (FileIn data (length pre)) key password v →
  ∃ v', rar5_vol_read_cb dec pbkdf2 fuel v ss =
      Some (ROk (v', snd (entry_split ss e),
        Chunk (take (length (en_header e))
          (patch_header (en_plain e) (en_length e) (en_crypt e) (fst (entry_split ss e))
             (hf_data_size_pos (en_fields e)) (hf_data_size_width (en_fields e)))))) ∧
    let f := FileIn data (length pre + 16 + length (en_plain e)) in
    if 0 <? hf_data_size (en_fields e) then
      v' = Rar5Vol f key password false true true (hf_data_size (en_fields e))
             (fst (entry_split ss e)) 0 (hf_type (en_fields e) =? HEAD_ENDARC)
             ((λ fc, EvpCtx (derive_key pbkdf2 password (fc_salt fc) (fc_lg2count fc)) (fc_iv fc) []) <$>
                en_crypt e)
    else
      if hf_type (en_fields e) =? HEAD_ENDARC then vl_done v' = true
      else at_header f key password v'.
Proof using Hcbc.
  intros [Hs Hiv Hpad Hmod Hcrypt _ _ _ _] data [Hin Hkey Hpw Hdone Hsig Hdat Hend].
  unfold rar5_vol_read_cb. rewrite Hdone, Hsig, Hdat. cbn [negb]. unfold rar5_next_header_chunk.
  assert (at_eof (vl_in v) = false) as ->.
  { rewrite Hin. unfold at_eof. apply Nat.leb_gt. cbn [fi_data fi_pos]. subst data.
    unfold entry_wire. rewrite !length_app. lia. }
  rewrite Hin, Hkey. subst data. unfold entry_wire. rewrite <- !app_assoc.
  pose proof (read_header_ok key (en_iv e) pre (entry_data_wire password e ++ post) (en_pad e)
    (en_size_width e) (en_body e) Hs Hiv Hpad Hmod) as Hread.
  cbv zeta in Hread. fold (en_header e) in Hread. fold (en_plain e) in Hread.
  fold (en_length e) in Hread. rewrite Hread. fold (en_fields e). cbv zeta.
  rewrite Hcrypt. cbv [mbind option_bind].
  assert (∀ {A} (g : Z * rar5_split_state → A), (let '(cap, ss') := entry_split ss e in g (cap, ss')) =
    g (entry_split ss e)) as Hlet by (intros; by destruct (entry_split ss e)).
  change (match en_crypt e with
          | Some fc => entry_cap ss _ _ _ (fc_unp_size fc) (fc_unp_size_known fc)
          | None => (UINT64_MAX, ss) end) with (entry_split ss e).
  destruct (entry_split ss e) as [cap ss']. cbn [fst snd].
  replace (Z.to_nat (en_length e)) with (length (en_header e)) by (unfold en_length; lia).
  destruct (0 <? hf_data_size (en_fields e)).
  - eexists. split; [reflexivity|]. cbn. rewrite Hkey, Hpw, Hdone, Hsig. done.
  - eexists. split; [reflexivity|]. destruct (_ =? HEAD_ENDARC); [done|]. by split.
Qed.

(** An entry that does not end the archive: what it gives, then the rest. *)
Lemma entry_read fuel pre post e key password v ss l ss' err :
  entry_ok fuel e → hf_type (en_fields e) ≠ HEAD_ENDARC →
  let data := pre ++ entry_wire key password e ++ post in
  at_header (FileIn data (length pre)) key password v →
  (∀ v1, at_header (FileIn data (length pre + length (entry_wire key password e))) key password v1 →
    reads fuel v1 (snd (entry_split ss e)) l ss' err) →
  reads fuel v ss (entry_out ss e ++ l) ss' err.
Proof using Hcbc.
  intros Hok Hne data Hat Hrest. destruct (header_call fuel pre post e key password v ss Hok Hat)
    as (v' & Hcb & Hv').
  assert (length (entry_wire key password e) = 16 + length (en_plain e) + length (en_data e))%nat as Hlen.
  { unfold entry_wire. rewrite !length_app, cbc_enc_length, length_entry_data_wire.
    rewrite (eo_iv _ _ Hok). lia. }
  unfold entry_out. rewrite <- app_assoc. eapply read_more; [exact Hcb|].
  cbv zeta in Hv'. rewrite (eo_data _ _ Hok) in Hv'.
  rewrite (proj2 (Z.eqb_neq _ _) Hne) in Hv'. destruct (Z.ltb_spec 0 (Z.of_nat (length (en_data e)))).
  - subst v'. set (cap := fst (entry_split ss e)).
    replace (take (capped cap (length (en_data e))) (en_data e))
      with (drop (capped cap 0) (take (capped cap (length (en_data e))) (en_data e)))
      by (by rewrite capped_0 by (by eapply entry_split_cap)).
    set (pre' := pre ++ en_iv e ++ enc key (en_iv e) (en_plain e)).
    assert (length pre' = length pre + 16 + length (en_plain e))%nat as Hpre'
      by (subst pre'; rewrite !length_app, cbc_enc_length, (eo_iv _ _ Hok); lia).
    assert (pre' ++ entry_data_wire password e ++ post = data) as Hdata
      by (subst pre' data; unfold entry_wire; by rewrite <- !app_assoc).
    eapply (data_phase fuel pre' (entry_data_wire password e) post); [|done..|].
    + split; cbn [vl_in vl_data_remaining vl_write_cap vl_emitted vl_file_ctx]; try done; try lia.
      * apply length_entry_data_wire.
      * by rewrite Hdata, Hpre', Nat.add_0_r.
      * by eapply entry_split_cap.
      * pose proof (entry_split_cap fuel ss e Hok). subst cap. lia.
      * unfold entry_data_wire. pose proof (eo_data_blocks _ _ Hok) as Hb.
        destruct (en_crypt e) as [fc|]; [|done]. simpl. split_and!; [by apply Hb|done|done|done].
    + cbn [vl_archive_key vl_confirmed_password]. rewrite Hdata, Hpre', length_entry_data_wire.
      intros v1 Hv1. apply Hrest. rewrite Hlen. by rewrite !Nat.add_assoc in *.
  - assert (en_data e = []) as Hnil by (apply length_zero_iff_nil; lia).
    rewrite Hnil, take_nil. apply Hrest. rewrite Hlen, Hnil. cbn [length].
    by rewrite Nat.add_0_r, Nat.add_assoc.
Qed.

(** ** Volumes *)

Fixpoint stream_out (ss : rar5_split_state) (es : list rar5_entry) : list byte :=
  match es with
  | [] => []
  | e :: es => entry_out ss e ++ stream_out (snd (entry_split ss e)) es
  end.

Definition stream_split (ss : rar5_split_state) (es : list rar5_entry) : rar5_split_state :=
  foldl (λ ss e, snd (entry_split ss e)) ss es.

Definition entries_wire (key : list byte) (password : cstr) (es : list rar5_entry) : list byte :=
  mjoin (entry_wire key password <$> es).

Lemma entries_wire_cons key password e es :
  entries_wire key password (e :: es) = entry_wire key password e ++ entries_wire key password es.
Proof using. reflexivity. Qed.

Lemma entries_read fuel es pre post key password v ss l ss' err :
  Forall (λ e, entry_ok fuel e ∧ hf_type (en_fields e) ≠ HEAD_ENDARC) es →
  let data := pre ++ entries_wire key password es ++ post in
  at_header (FileIn data (length pre)) key password v →
  (∀ v1, at_header (FileIn data (length pre + length (entries_wire key password es))) key password v1 →
    reads fuel v1 (stream_split ss es) l ss' err) →
  reads fuel v ss (stream_out ss es ++ l) ss' err.
Proof using Hcbc.
  intros Hes. revert pre v ss. induction Hes as [|e es [Hok Hne] _ IH]; intros pre v ss data Hat Hrest.
  { apply Hrest. subst data. cbn. by rewrite Nat.add_0_r. }
  subst data. rewrite entries_wire_cons, <- app_assoc in Hat, Hrest. cbn [stream_out].
  rewrite <- app_assoc.
  eapply entry_read; [done|done|exact Hat|]. intros v1 Hv1.
  apply (IH (pre ++ entry_wire key password e)).
  - rewrite length_app, <- app_assoc. exact Hv1.
  - intros v2 Hv2. apply Hrest. rewrite !length_app, <- app_assoc in *. by rewrite Nat.add_assoc.
Qed.

(** A volume ends with its end-of-archive header, whatever follows, or with the file. *)
Definition ends (fuel : nat) (last : option rar5_entry) (rest : list byte) : Prop :=
  match last with
  | Some e => entry_ok fuel e ∧ hf_type (en_fields e) = HEAD_ENDARC
  | None => rest = []
  end.

Definition last_wire (key : list byte) (password : cstr) (last : option rar5_entry) : list byte :=
  from_option (entry_wire key password) [] last.
Definition last_out (ss : rar5_split_state) (last : option rar5_entry) : list byte :=
  from_option (entry_out ss) [] last.
Definition last_split (ss : rar5_split_state) (last : option rar5_entry) : rar5_split_state :=
  from_option (λ e, snd (entry_split ss e)) ss last.

Lemma end_read fuel last rest pre key password v ss :
  ends fuel last rest →
  at_header (FileIn (pre ++ last_wire key password last ++ rest) (length pre)) key password v →
  reads fuel v ss (last_out ss last) (last_split ss last) None.
Proof using Hcbc.
  intros Hends Hat. destruct last as [e|]; cbn [last_wire last_out last_split from_option] in *.
  - destruct Hends as [Hok Hend].
    destruct (header_call fuel pre rest e key password v ss Hok Hat) as (v' & Hcb & Hv').
    cbv zeta in Hv'. rewrite (eo_data _ _ Hok), (eo_endarc _ _ Hok Hend) in Hv'. cbn [length] in Hv'.
    change (0 <? Z.of_nat 0) with false in Hv'. rewrite Hend in Hv'. cbn in Hv'.
    unfold entry_out. rewrite (eo_endarc _ _ Hok Hend), take_nil.
    eapply read_more; [exact Hcb|]. eapply read_end. unfold rar5_vol_read_cb. by rewrite Hv'.
  - change (rest = []) in Hends. subst rest. eapply read_end. destruct Hat as [Hin _ _ Hdone Hsig Hdat _].
    unfold rar5_vol_read_cb. rewrite Hdone, Hsig, Hdat. cbn [negb]. unfold rar5_next_header_chunk.
    rewrite Hin. unfold at_eof. cbn [fi_data fi_pos]. rewrite !app_nil_r, Nat.leb_refl. reflexivity.
Qed.

(** ** Opening a volume *)

Context (sha256 : list byte → list byte).
Hypothesis sha256_length : ∀ l, (4 <= length (sha256 l))%nat.

(** The unencrypted HEAD_CRYPT block: any checksum, the KDF count, the salt, and
    perhaps the check value of the password. *)
Definition crypt_body (lg2 : Z) (salt : list byte) (check : option (list byte)) : list byte :=
  [x04; x00; x00; if bool_decide (is_Some check) then x01 else x00; z2b lg2] ++ salt ++
  match check with Some c => c ++ take 4 (sha256 c) | None => [] end.

Definition crypt_block (crc : list byte) (lg2 : Z) (salt : list byte) (check : option (list byte))
    : list byte :=
  crc ++ vint_bytes 1 (Z.of_nat (length (crypt_body lg2 salt check))) ++ crypt_body lg2 salt check.

Definition crypt_ok (crc : list byte) (lg2 : Z) (salt : list byte) (check : option (list byte)) : Prop :=
  length crc = 4%nat ∧ 0 <= lg2 <= 24 ∧ length salt = 16%nat ∧
  (∀ c, check = Some c → length c = 8%nat).

Lemma length_crypt_body crc lg2 salt check :
  crypt_ok crc lg2 salt check →
  length (crypt_body lg2 salt check) = if bool_decide (is_Some check) then 33%nat else 21%nat.
Proof using sha256_length.
  intros (_ & _ & Hs & Hc). unfold crypt_body. rewrite !length_app, Hs.
  destruct check as [c|]; simpl; [|done]. rewrite length_app, (Hc c eq_refl), length_take.
  pose proof (sha256_length c). lia.
Qed.

Lemma get_vint_small b pre post len :
  b2z b < 128 → Z.of_nat (length pre) < len →
  get_vint (pre ++ b :: post) len (Z.of_nat (length pre)) = (b2z b, Z.of_nat (length pre) + 1).
Proof using.
  intros Hb Hl. pose proof (b2z_range b).
  assert (vint_bytes 1 (b2z b) = [b]) as Hv.
  { simpl. assert (Z.land (b2z b) 0x7f = b2z b) as ->.
    { change 0x7f with (Z.ones 7). rewrite Z.land_ones by done. apply Z.mod_small. change (2 ^ 7) with 128. lia. }
    by rewrite z2b_b2z. }
  pose proof (get_vint_bytes 1 (b2z b) pre post len ltac:(lia)) as H1. rewrite Hv in H1.
  apply H1; simpl; lia.
Qed.

Lemma read_head_crypt_ok crc lg2 salt check :
  crypt_ok crc lg2 salt check →
  read_head_crypt sha256 (crypt_body lg2 salt check) (Z.of_nat (length (crypt_body lg2 salt check))) =
  ROk (lg2, salt, check).
Proof using sha256_length.
  intros Hok. pose proof (length_crypt_body _ _ _ _ Hok) as Hlen.
  destruct Hok as (_ & Hlg & Hsalt & Hcheck).
  set (flag := if bool_decide (is_Some check) then x01 else x00).
  set (tail := match check with Some c => c ++ take 4 (sha256 c) | None => [] end).
  assert (crypt_body lg2 salt check = x04 :: x00 :: x00 :: flag :: z2b lg2 :: salt ++ tail) as Hbody by done.
  rewrite Hbody in *. set (body := x04 :: _) in *. set (n := Z.of_nat (length body)).
  assert (21 <= n) as Hn by (subst n; rewrite Hlen; destruct (bool_decide _); lia).
  unfold read_head_crypt.
  rewrite (get_vint_small x04 [] (x00 :: x00 :: flag :: z2b lg2 :: salt ++ tail)) by (first [done|cbn [length]; lia]).
  cbn [length Z.of_nat Z.add]. change (b2z x04 =? HEAD_CRYPT) with true.
  rewrite (get_vint_small x00 [x04] (x00 :: flag :: z2b lg2 :: salt ++ tail)) by (first [done|cbn [length]; lia]).
  change (has_flag (b2z x00) HFL_EXTRA) with false. change (has_flag (b2z x00) HFL_DATA) with false.
  cbv iota beta zeta. cbn [negb].
  change (Z.of_nat (length [x04]) + 1) with (Z.of_nat (length [x04; x00])).
  rewrite (get_vint_small x00 [x04; x00] (flag :: z2b lg2 :: salt ++ tail)) by (first [done|cbn [length]; lia]).
  change (b2z x00 =? CRYPT_VERSION) with true. cbn [negb].
  change (Z.of_nat (length [x04; x00]) + 1) with (Z.of_nat (length [x04; x00; x00])).
  assert (b2z flag < 128) by (subst flag; by destruct (bool_decide _)).
  rewrite (get_vint_small flag [x04; x00; x00] (z2b lg2 :: salt ++ tail)) by (first [done|cbn [length]; lia]).
  change (Z.of_nat (length [x04; x00; x00]) + 1) with 4.
  destruct (Z.leb_spec n 4); [lia|].
  change (byte_val body 4) with (b2z (z2b lg2)). rewrite z2b_small by lia.
  change (4 + 1 + Z.of_nat SIZE_SALT50) with 21. change (4 + 1) with 5.
  unfold CRYPT5_KDF_LG2_COUNT_MAX.
  destruct (Z.ltb_spec 24 lg2); [lia|]. destruct (Z.ltb_spec n 21); [lia|]. cbn [orb].
  change (drop (Z.to_nat 5) body) with (salt ++ tail).
  rewrite take_app_length' by done.
  change (21 + Z.of_nat SIZE_PSWCHECK + Z.of_nat SIZE_PSWCHECK_CSUM) with 33.
  change (drop (Z.to_nat 21) body) with (drop 16 (salt ++ tail)).
  change (drop (Z.to_nat 21 + SIZE_PSWCHECK) body) with (drop (16 + 8) (salt ++ tail)).
  rewrite <- drop_drop, drop_app_length' by done.
  destruct check as [c|]; cbn [andb is_Some] in *; [|done].
  change (has_flag (b2z flag) CHFL_CRYPT_PSWCHECK) with true. cbn [andb].
  assert (n = 33) as -> by (subst n; by rewrite Hlen). cbn [Z.leb Z.compare Pos.compare Pos.compare_cont].
  subst tail. rewrite take_app_length', drop_app_length' by (by rewrite (Hcheck c eq_refl)).
  unfold SIZE_PSWCHECK_CSUM. rewrite take_take, Nat.min_id. by rewrite bool_decide_true.
Qed.

(** The volume up to its first header. *)
Definition volume_start (crc : list byte) (lg2 : Z) (salt : list byte) (check : option (list byte))
    : list byte := RAR5_SIG ++ crypt_block crc lg2 salt check.

Lemma open_ok crc lg2 salt check post passwords password key :
  crypt_ok crc lg2 salt check →
  let start := volume_start crc lg2 salt check in
  let f := FileIn (start ++ post) (length start) in
  try_passwords dec pbkdf2 f lg2 salt check passwords = ROk (Some (password, key)) →
  rar5_vol_open_cb dec pbkdf2 sha256 passwords (Some (start ++ post)) =
  ROk (Rar5Vol f key password false false false 0 0 0 false None).
Proof using sha256_length.
  intros Hok start f Htry. pose proof (length_crypt_body _ _ _ _ Hok) as Hlen.
  pose proof (read_head_crypt_ok _ _ _ _ Hok) as Hread.
  set (body := crypt_body lg2 salt check) in *. pose proof Hok as (Hcrc & _ & _ & _).
  unfold rar5_vol_open_cb. destruct passwords as [|p ps]; [done|]. cbn [length Nat.eqb].
  assert (start ++ post = RAR5_SIG ++ (crc ++ vint_bytes 1 (Z.of_nat (length body)) ++ take 2 body) ++
    drop 2 body ++ post) as Hdata.
  { subst start. unfold volume_start, crypt_block. fold body. rewrite <- !app_assoc. do 3 f_equal. }
  set (pre := crc ++ vint_bytes 1 (Z.of_nat (length body)) ++ take 2 body) in *.
  assert (length body = 33 ∨ length body = 21)%nat as Hn by (rewrite Hlen; destruct (bool_decide _); lia).
  assert (length pre = 7)%nat as Hpre.
  { subst pre. rewrite !length_app, length_vint_bytes, Hcrc, length_take. lia. }
  assert (∀ rest, read_n (FileIn (RAR5_SIG ++ rest) 0) RAR5_SIG_LEN =
    Some (RAR5_SIG, FileIn (RAR5_SIG ++ rest) (length RAR5_SIG))) as Hsig
    by (intros rest; exact (read_n_app [] RAR5_SIG rest RAR5_SIG_LEN eq_refl)).
  rewrite Hdata, Hsig. rewrite bool_decide_true by done. cbn [negb].
  rewrite (read_n_app RAR5_SIG pre (drop 2 body ++ post)) by done.
  assert (get_vint pre 7 4 = (Z.of_nat (length body), 5)) as ->.
  { unfold pre. replace 4 with (Z.of_nat (length crc)) by lia. rewrite (get_vint_bytes 1) by lia.
    by rewrite Hcrc. }
  change (5 - 4) with 1. change (1 =? 0) with false.
  destruct (Z.eqb_spec (Z.of_nat (length body)) 0); [lia|].
  destruct (Z.ltb_spec 128 (Z.of_nat (length body))); [lia|]. cbn [orb].
  assert (drop (Z.to_nat 5) pre = take 2 body) as ->.
  { subst pre. rewrite app_assoc. apply drop_app_length'. by rewrite length_app, length_vint_bytes, Hcrc. }
  rewrite (app_assoc RAR5_SIG).
  replace (length RAR5_SIG + 7)%nat with (length (RAR5_SIG ++ pre)) by (rewrite length_app, Hpre; done).
  rewrite (read_n_app (RAR5_SIG ++ pre) (drop 2 body) post) by (rewrite length_take, length_drop; lia).
  rewrite take_drop, Hread, <- (app_assoc RAR5_SIG), <- Hdata.
  assert (length (RAR5_SIG ++ pre) + (Z.to_nat (Z.of_nat (length body)) - length (take 2 body)) =
    length start)%nat as ->.
  { subst start. unfold volume_start, crypt_block. fold body.
    rewrite !length_app, length_vint_bytes, Hcrc, Hpre, length_take. lia. }
  fold f. by rewrite Htry.
Qed.
End headers.

(** ** Patched headers *)

Lemma length_overwrite (buf l : list byte) pos :
  (pos + length l <= length buf)%nat → length (overwrite buf pos l) = length buf.
Proof. intros H. unfold overwrite. rewrite !length_app, length_take, length_drop. lia. Qed.

Lemma lookup_overwrite (buf l : list byte) pos i :
  (pos + length l <= length buf)%nat →
  overwrite buf pos l !! i =
  if decide (pos <= i < pos + length l)%nat then l !! (i - pos)%nat else buf !! i.
Proof.
  intros H. unfold overwrite. case_decide as Hd.
  - rewrite lookup_app_r by (rewrite length_take; lia). rewrite length_take, Nat.min_l by lia.
    by rewrite lookup_app_l by lia.
  - destruct (decide (i < pos)%nat).
    + rewrite lookup_app_l by (rewrite length_take; lia). by rewrite lookup_take_lt.
    + rewrite lookup_app_r by (rewrite length_take; lia). rewrite length_take, Nat.min_l by lia.
      rewrite lookup_app_r by lia. rewrite lookup_drop. f_equal. lia.
Qed.

(** A value read by [get_vint] fits the width it was read from. *)
Lemma vint_loop_fits n buf len pos shift r v pos' :
  vint_loop n buf len pos shift r = (v, pos') →
  0 <= shift → 0 <= r < 2 ^ shift →
  pos <= pos' <= pos + Z.of_nat n ∧ 0 <= v < 2 ^ (shift + 7 * (pos' - pos)).
Proof.
  revert pos shift r. induction n as [|n IH]; intros pos shift r Hrun Hs Hr; cbn [vint_loop] in Hrun.
  { simplify_eq. split; [lia|]. rewrite Z.sub_diag, Z.add_0_r. pose proof (Z.pow_pos_nonneg 2 shift). lia. }
  destruct (Z.ltb_spec pos len) as [Hlt|Hge].
  2: { simplify_eq. split; [lia|]. rewrite Z.sub_diag, Z.add_0_r. pose proof (Z.pow_pos_nonneg 2 shift). lia. }
  set (b := Z.land (byte_val buf pos) 0x7f) in *.
  assert (0 <= b < 128) as Hb.
  { subst b. change 0x7f with (Z.ones 7). rewrite Z.land_ones by done. by apply Z.mod_pos_bound. }
  assert (0 <= Z.lor r (u64 (Z.shiftl b shift)) < 2 ^ (shift + 7)) as Hlor.
  { assert (0 <= u64 (Z.shiftl b shift) < 2 ^ (shift + 7)) as [Hu0 Hu1].
    { unfold u64. pose proof (Z.mod_pos_bound (Z.shiftl b shift) (2 ^ 64) ltac:(done)).
      split; [lia|]. apply Z.le_lt_trans with (Z.shiftl b shift).
        - apply Z.mod_le; [|done]. apply Z.shiftl_nonneg. lia.
      - rewrite Z.shiftl_mul_pow2, Z.pow_add_r by lia. change (2 ^ 7) with 128.
        pose proof (Z.pow_pos_nonneg 2 shift). nia. }
    assert (2 ^ shift <= 2 ^ (shift + 7)) by (apply Z.pow_le_mono_r; lia).
    split; [apply Z.lor_nonneg; lia|]. apply testbit_bound; [lia|apply Z.lor_nonneg; lia|].
    intros i Hi. rewrite Z.lor_spec. apply orb_false_iff.
    split; [apply (proj1 (testbit_bound (shift + 7) r ltac:(lia) ltac:(lia)) ltac:(lia)); lia|].
    by apply (proj1 (testbit_bound (shift + 7) _ ltac:(lia) Hu0)). }
  destruct (Z.land (byte_val buf pos) 0x80 =? 0).
  - simplify_eq. split; [lia|]. by replace (pos + 1 - pos) with 1 by lia.
  - apply IH in Hrun as [Hp Hv]; [|lia|done]. split; [lia|].
    by replace (shift + 7 * (pos' - pos)) with (shift + 7 + 7 * (pos' - (pos + 1))) by lia.
Qed.

Lemma get_vint_fits buf len pos v pos' :
  get_vint buf len pos = (v, pos') →
  pos <= pos' <= pos + 10 ∧ 0 <= v < 2 ^ (7 * (pos' - pos)).
Proof. intros H. apply (vint_loop_fits 10 buf len pos 0 0) in H as [Hp Hv]; [by split|done|done]. Qed.

Section patch.
Context (pt : list byte) (n : nat) (fc : file_crypt) (cap : Z) (dpos dw : nat).
Hypothesis Hn : (4 <= n <= length pt)%nat.
Hypothesis Hdpos : (4 <= dpos)%nat.
Hypothesis Hfid : (dpos + dw <= Z.to_nat (fc_field_id_pos fc) < n)%nat.

Abbreviation fid := (Z.to_nat (fc_field_id_pos fc)).
Definition patched : list byte :=
  take n (patch_header pt (Z.of_nat n) (Some fc) cap (Z.of_nat dpos) dw).

Definition patched_body : list byte :=
  let pt1 := overwrite pt fid [x40] in
  if negb (cap =? UINT64_MAX) then overwrite pt1 dpos (vint_bytes dw cap) else pt1.

Lemma length_patched_body : length patched_body = length pt.
Proof using Hn Hdpos Hfid.
  unfold patched_body. destruct (negb _); rewrite ?length_overwrite; cbn [length];
    rewrite ?length_vint_bytes, ?length_overwrite; cbn [length]; lia.
Qed.

Lemma patched_eq :
  patched = le32_bytes (u32 (crc32 (take (n - 4) (drop 4 patched_body)))) ++
    take (n - 4) (drop 4 patched_body).
Proof using Hn Hdpos Hfid.
  pose proof length_patched_body as Hl. unfold patched, patch_header, put_vint_fixed_width.
  rewrite Nat2Z.id. fold patched_body.
  rewrite bool_decide_true by done. cbn [orb].
  assert (crc32_of patched_body 4 (Z.of_nat n - 4) =
    Some (u32 (crc32 (take (n - 4) (drop 4 patched_body))))) as Hcrc.
  { unfold crc32_of. destruct (Z.leb_spec (4 + (Z.of_nat n - 4)) (Z.of_nat (length patched_body))); [|lia].
    do 4 f_equal. lia. }
  rewrite Hcrc. cbn [default from_option id].
  unfold overwrite at 1. rewrite take_0. cbn [app Nat.add].
  rewrite take_app_ge by (simpl; lia). done.
Qed.

Lemma length_patched : length patched = n.
Proof using Hn Hdpos Hfid.
  rewrite patched_eq, length_app, length_take, length_drop, length_patched_body. simpl. lia.
Qed.

(** From the checksum on, the bytes are those of the patched buffer. *)
Lemma lookup_patched i : (4 <= i < n)%nat → patched !! i = patched_body !! i.
Proof using Hn Hdpos Hfid.
  intros Hi. rewrite patched_eq, lookup_app_r by (simpl; lia). cbn [length le32_bytes].
  rewrite lookup_take_lt, lookup_drop by lia. f_equal. lia.
Qed.

Lemma patched_checksum : read_le32_at0 patched = u32 (crc32 (drop 4 patched)).
Proof using Hn Hdpos Hfid.
  rewrite patched_eq at 1. rewrite read_le32_bytes by apply u32_range. f_equal. f_equal.
  rewrite patched_eq. done.
Qed.

Lemma lookup_patched_body i :
  (i < length pt)%nat →
  patched_body !! i =
  if decide (cap ≠ UINT64_MAX ∧ dpos <= i < dpos + dw)%nat then vint_bytes dw cap !! (i - dpos)%nat
  else if decide (i = fid) then Some x40 else pt !! i.
Proof using Hn Hdpos Hfid.
  intros Hi. unfold patched_body.
  assert (overwrite pt fid [x40] !! i = if decide (i = fid) then Some x40 else pt !! i) as H1.
  { rewrite lookup_overwrite by (cbn [length]; lia). cbn [length].
    repeat case_decide; try done; try lia. subst. by rewrite Nat.sub_diag. }
  destruct (Z.eqb_spec cap UINT64_MAX) as [->|Hne]; cbn [negb].
  - rewrite decide_False by (intros [? _]; done). exact H1.
  - rewrite lookup_overwrite by (rewrite length_vint_bytes, length_overwrite; cbn [length]; lia).
    rewrite length_vint_bytes. repeat case_decide; try done; naive_solver.
Qed.

Lemma patched_size :
  cap ≠ UINT64_MAX → (0 < dw <= 10)%nat → 0 <= cap < 2 ^ (7 * Z.of_nat dw) → cap < 2 ^ 64 →
  get_vint patched (Z.of_nat n) (Z.of_nat dpos) = (cap, Z.of_nat (dpos + dw)).
Proof using Hn Hdpos Hfid.
  intros Hcap Hdw Hfit H64. pose proof length_patched as Hl.
  assert (patched = take dpos patched ++ vint_bytes dw cap ++ drop (dpos + dw) patched) as Heq.
  { apply list_eq. intros i. destruct (decide (i < dpos)%nat).
    - rewrite lookup_app_l by (rewrite length_take; lia). by rewrite lookup_take_lt.
    - rewrite lookup_app_r by (rewrite length_take; lia). rewrite length_take, Nat.min_l by lia.
      destruct (decide (i < dpos + dw)%nat).
      + rewrite lookup_app_l by (rewrite length_vint_bytes; lia).
        rewrite lookup_patched, lookup_patched_body, decide_True by lia. done.
      + rewrite lookup_app_r, length_vint_bytes, lookup_drop by (rewrite length_vint_bytes; lia).
        f_equal. lia. }
  rewrite Heq. assert (length (take dpos patched) = dpos) as Hd by (rewrite length_take; lia).
  pose proof (get_vint_bytes dw cap (take dpos patched) (drop (dpos + dw) patched) (Z.of_nat n)) as Hv.
  rewrite Hd in Hv. rewrite Hv by lia. f_equal. lia.
Qed.
End patch.

(** ** Properties *)

Lemma try_passwords_check dec pbkdf2 f lg2 salt check wrong password others :
  Forall (λ p, derive_check pbkdf2 p salt lg2 ≠ check) wrong →
  derive_check pbkdf2 password salt lg2 = check →
  try_passwords dec pbkdf2 f lg2 salt (Some check) (wrong ++ password :: others) =
  ROk (Some (password, derive_key pbkdf2 password salt lg2)).
Proof.
  intros Hw Hp. induction Hw as [|p wrong Hne _ IH]; cbn [app try_passwords].
  - by rewrite bool_decide_true.
  - by rewrite bool_decide_false.
Qed.


Definition toy_cbc (key iv l : list byte) : list byte := (λ b, z2b (Z.lxor (b2z b) 0x5a)) <$> l.

#[local] Instance toy_cbc_ok : CbcCipher toy_cbc toy_cbc.
Proof.
  split.
  - intros key iv p _. unfold toy_cbc. rewrite <- list_fmap_compose. rewrite <- (list_fmap_id p) at 2.
    apply list_fmap_ext. intros _ b _. by destruct b.
  - intros. apply length_fmap.
  - intros key iv c n _. unfold toy_cbc. by rewrite fmap_take.
Qed.

(** One stored file of five bytes, padded to a block and encrypted. *)
Definition tiny_entry : rar5_entry :=
  Rar5Entry 1
    ([x02; x03; x25; x10; x00; x05; x00; x00; x00; x01; x66] ++
     [x24; x01; x00; x00; x00] ++ replicate 16 x11 ++ replicate 16 x22)
    (replicate 11 x00) (replicate 16 x33) ($ "HELLO" ++ replicate 11 x00)
    (Some (FileCrypt (replicate 16 x11) (replicate 16 x22) 0 17 5 true)).

Definition tiny_end : rar5_entry :=
  Rar5Entry 1 [x05; x00] (replicate 9 x00) (replicate 16 x44) [] None.

Definition toy_pbkdf2 (password : cstr) (salt : list byte) (iters : Z) : list byte :=
  password ++ replicate (32 - length password) x00.

Lemma tiny_entry_ok : entry_ok 3 tiny_entry.
Proof.
  split; [|reflexivity|cbn; lia|reflexivity|reflexivity| |reflexivity|reflexivity|done].
  - unfold header_sized. split_and!; first [by vm_compute|cbn; lia].
  - intros fc Hfc. cbn in Hfc. by simplify_eq.
Qed.

Lemma tiny_end_ok : entry_ok 3 tiny_end.
Proof.
  split; [|reflexivity|cbn; lia|reflexivity|reflexivity|done|reflexivity|done|done].
  unfold header_sized. split_and!; first [by vm_compute|cbn; lia].
Qed.


(** A patched header is one libarchive accepts: of the same length, with a
    right checksum, the encryption record's type replaced by an unused one, the
    packed size reading as the cap where there is one, and every other byte as
    it was. *)
Theorem rar5_patched_header_valid (pt : list byte) (n : nat) (fc : file_crypt) (cap : Z)
    (dpos dw : nat)
    (Hn : (4 <= n <= length pt)%nat) (Hdpos : (4 <= dpos)%nat) (Hdw : (dw <= 10)%nat)
    (Hfid : (dpos + dw <= Z.to_nat (fc_field_id_pos fc) < n)%nat) :
  let h := take n (patch_header pt (Z.of_nat n) (Some fc) cap (Z.of_nat dpos) dw) in
  length h = n ∧ read_le32_at0 h = u32 (crc32 (drop 4 h)) ∧
  h !! Z.to_nat (fc_field_id_pos fc) = Some x40 ∧
  (cap ≠ UINT64_MAX → (0 < dw)%nat → 0 <= cap < 2 ^ (7 * Z.of_nat dw) → cap < 2 ^ 64 →
    get_vint h (Z.of_nat n) (Z.of_nat dpos) = (cap, Z.of_nat (dpos + dw))) ∧
  (∀ i, (4 <= i < n)%nat → i ≠ Z.to_nat (fc_field_id_pos fc) →
    (cap = UINT64_MAX ∨ ¬ (dpos <= i < dpos + dw)%nat) → h !! i = pt !! i).
Proof.
  intros h. change h with (patched pt n fc cap dpos dw). split_and!.
  - by apply length_patched.
  - by apply patched_checksum.
  - rewrite (lookup_patched _ _ _ _ _ _ Hn Hdpos Hfid), (lookup_patched_body _ _ _ _ _ _ Hn Hdpos Hfid) by lia.
    rewrite decide_False by lia. by rewrite decide_True.
  - intros Hcap H0 Hfit H64. apply patched_size; [assumption..|lia|done|done].
  - intros i Hi Hne Hor. rewrite (lookup_patched _ _ _ _ _ _ Hn Hdpos Hfid), (lookup_patched_body _ _ _ _ _ _ Hn Hdpos Hfid) by lia.
    rewrite decide_False by naive_solver. by rewrite decide_False.
Qed.

Lemma rar5_patched_header_valid_witness :
  let h := take 53 (patch_header (en_plain tiny_entry) (Z.of_nat 53)
    (Some (FileCrypt (replicate 16 x11) (replicate 16 x22) 0 17 5 true)) 5 (Z.of_nat 8) 1) in
  read_le32_at0 h = u32 (crc32 (drop 4 h)) ∧ get_vint h (Z.of_nat 53) (Z.of_nat 8) = (5, Z.of_nat (8 + 1)).
Proof.
  intros h.
  destruct (rar5_patched_header_valid (en_plain tiny_entry) 53
    (FileCrypt (replicate 16 x11) (replicate 16 x22) 0 17 5 true) 5 8 1)
    as (_ & Hcrc & _ & Hsize & _).
  - change (length (en_plain tiny_entry)) with 64%nat. lia.
  - lia.
  - lia.
  - change (Z.to_nat _) with 17%nat. lia.
  - split; [exact Hcrc|]. refine (Hsize _ _ _ _); clear; [by vm_compute|lia|by vm_compute|by vm_compute].
Defined.

(** The content of the fragments [es] of one file, in order. *)
Fixpoint content_length (ss : rar5_split_state) (es : list rar5_entry) : Z :=
  match es with
  | [] => 0
  | e :: es =>
    Z.of_nat (capped (fst (entry_split ss e)) (length (en_data e))) +
    content_length (snd (entry_split ss e)) es
  end.

(** An encrypted fragment, continued from before and continuing after. *)
Definition fragment (before after : bool) (e : rar5_entry) : Prop :=
  is_Some (en_crypt e) ∧ hf_data_size (en_fields e) = Z.of_nat (length (en_data e)) ∧
  has_flag (hf_flags (en_fields e)) HFL_SPLITBEFORE = before ∧
  has_flag (hf_flags (en_fields e)) HFL_SPLITAFTER = after.

Definition sizes (es : list rar5_entry) : Z := foldr (λ e n, Z.of_nat (length (en_data e)) + n) 0 es.

Lemma middle_fragments mids final ss :
  Forall (fragment true true) mids → fragment true false final → ss_active ss = true →
  0 <= ss_written_so_far ss → ss_unp_total ss < 2 ^ 64 →
  ss_written_so_far ss + sizes mids <= ss_unp_total ss <=
    ss_written_so_far ss + sizes mids + Z.of_nat (length (en_data final)) →
  content_length ss (mids ++ [final]) = ss_unp_total ss - ss_written_so_far ss.
Proof.
  intros Hmids Hfinal. revert ss. induction Hmids as [|e mids He _ IH]; intros ss Hact Hw H64 Hsum;
    cbn [sizes foldr app content_length] in *.
  - destruct Hfinal as ([fc Hfc] & Hd & Hb & Ha). unfold entry_split. rewrite Hfc, Hb, Ha, Hd.
    unfold entry_cap. cbn [negb andb]. rewrite Hact. cbn [fst snd]. unfold capped, UINT64_MAX.
    bool_cases; lia.
  - assert (0 <= sizes mids) by (clear; induction mids; simpl; lia).
    destruct He as ([fc Hfc] & Hd & Hb & Ha). unfold entry_split. rewrite Hfc, Hb, Ha, Hd.
    unfold entry_cap. cbn [negb andb]. rewrite Hact. cbn [fst snd].
    assert (u64 (ss_written_so_far ss + Z.of_nat (length (en_data e))) =
      ss_written_so_far ss + Z.of_nat (length (en_data e))) as Hu
      by (unfold u64, sizes in *; apply Z.mod_small; lia).
    rewrite Hu, IH; cbn [ss_active ss_written_so_far ss_unp_total]; [|done|lia|done|unfold sizes in *; lia].
    unfold capped, UINT64_MAX, sizes in *. lia.
Qed.

(** Of a file split over several volumes, each with encrypted data, the
    fragments give exactly the file's size, although only the whole size is
    declared and the last fragment is padded; afterwards no file is pending. *)
Theorem rar5_split_file_size (first final : rar5_entry) (mids : list rar5_entry) (fc : file_crypt)
    (ss : rar5_split_state)
    (Hfirst : fragment false true first) (Hfc : en_crypt first = Some fc)
    (Hmids : Forall (fragment true true) mids) (Hfinal : fragment true false final)
    (H64 : fc_unp_size fc < 2 ^ 64)
    (Hsize : sizes (first :: mids) <= fc_unp_size fc <=
               sizes (first :: mids) + Z.of_nat (length (en_data final))) :
  content_length ss (first :: mids ++ [final]) = fc_unp_size fc ∧
  ss_active (stream_split ss (first :: mids ++ [final])) = false.
Proof.
  destruct Hfirst as (_ & Hd & Hb & Ha). cbn [sizes foldr] in Hsize.
  assert (entry_split ss first =
    (UINT64_MAX, Rar5SplitState true (fc_unp_size fc) (Z.of_nat (length (en_data first))))) as He
    by (unfold entry_split, entry_cap; by rewrite Hfc, Hb, Ha, Hd).
  assert (0 <= sizes mids) by (clear; induction mids; simpl; lia).
  split.
  - cbn [content_length]. rewrite He. cbn [fst snd].
    rewrite middle_fragments; cbn [ss_active ss_written_so_far ss_unp_total]; try done;
      unfold capped, UINT64_MAX, sizes in *; lia.
  - unfold stream_split. cbn [foldl app]. rewrite He, foldl_app. cbn [foldl snd].
    destruct Hfinal as ([fc' Hfc'] & _ & Hb' & Ha').
    set (s := foldl _ _ mids). unfold entry_split. rewrite Hfc', Hb', Ha'. unfold entry_cap.
    cbn [negb andb]. by destruct (ss_active s) eqn:E.
Qed.

Definition tiny_fragment (flags : byte) (data : list byte) : rar5_entry :=
  Rar5Entry 1
    ([x02; flags; x25; x10; x00; x15; x00; x00; x00; x01; x66] ++
     [x24; x01; x00; x00; x00] ++ replicate 16 x11 ++ replicate 16 x22)
    (replicate 11 x00) (replicate 16 x33) data
    (Some (FileCrypt (replicate 16 x11) (replicate 16 x22) 0 17 21 true)).

Lemma rar5_split_file_size_witness :
  content_length split_idle [tiny_fragment x13 ($ "0123456789abcdef");
    tiny_fragment x0b ($ "ghijk" ++ replicate 11 x00)] = 21.
Proof.
  apply (rar5_split_file_size (tiny_fragment x13 ($ "0123456789abcdef"))
    (tiny_fragment x0b ($ "ghijk" ++ replicate 11 x00)) []
    (FileCrypt (replicate 16 x11) (replicate 16 x22) 0 17 21 true) split_idle).
  - split_and!; [by eexists|reflexivity|reflexivity|reflexivity].
  - reflexivity.
  - constructor.
  - split_and!; [by eexists|reflexivity|reflexivity|reflexivity].
  - done.
  - cbn. lia.
Defined.

(** ** Hostile headers *)

(** A block size that makes the header's length wrap around to 2. *)
Definition overflow_block : list byte :=
  replicate 4 x00 ++ vint_bytes 10 (2 ^ 64 - 12) ++ [x00; x00].

(** The length of a header is computed modulo [2 ^ 64]: with a block size of
    [2 ^ 64 - 12] it is 2, passes the test for plausible sizes, and the checksum
    is taken over [2 ^ 64 - 2] bytes of a buffer of 16. *)
Theorem rar5_header_length_wraps (enc dec : list byte → list byte → list byte → list byte)
    {Hcbc : CbcCipher enc dec} (key iv rest : list byte) (Hiv : length iv = 16%nat) :
  read_and_decrypt_header dec (FileIn (iv ++ enc key iv overflow_block ++ rest) 0) key = RCrash.
Proof.
  set (ct := enc key iv overflow_block).
  assert (length ct = 16%nat) as Hct by apply cbc_enc_length.
  assert (dec key iv ct = overflow_block) as Hdec by (by apply cbc_decrypts).
  unfold read_and_decrypt_header. rewrite (read_n_app [] iv (ct ++ rest)) by done.
  cbn [app length Nat.add].
  replace (FileIn (iv ++ ct ++ rest) 16) with (FileIn (iv ++ ct ++ rest) (length iv)) by (by rewrite Hiv).
  rewrite (read_n_app iv ct rest) by done. rewrite Hdec.
  assert (get_vint overflow_block 16 4 = (2 ^ 64 - 12, 14)) as -> by reflexivity.
  change (Z.to_nat _) with O.
  rewrite (app_assoc iv). replace (length iv + 16)%nat with (length (iv ++ ct)) by (rewrite length_app; lia).
  rewrite (read_n_app (iv ++ ct) [] rest) by done.
  rewrite app_nil_r, Hdec. reflexivity.
Qed.

Lemma rar5_header_length_wraps_witness :
  read_and_decrypt_header toy_cbc
    (FileIn (replicate 16 x33 ++ toy_cbc (replicate 32 x00) (replicate 16 x33) overflow_block) 0)
    (replicate 32 x00) = RCrash.
Proof.
  rewrite <- (app_nil_r (toy_cbc _ _ _)).
  apply (rar5_header_length_wraps toy_cbc toy_cbc (replicate 32 x00) (replicate 16 x33) []). reflexivity.
Defined.

(** A file header whose extra area holds one field of length [2 ^ 64 - 10]. *)
Definition looping_header : list byte :=
  replicate 4 x00 ++ [x15; x02; x03; x0b; x10; x00; x00; x00; x00; x00; x00] ++
  vint_bytes 10 (2 ^ 64 - 10) ++ [x40].

Definition looping_fields : header_fields :=
  parse_common looping_header (Z.of_nat (length looping_header)).

(** The end of a field of the extra area is computed modulo [2 ^ 64] as well:
    a field of length [2 ^ 64 - 10] ends where it starts, and [find_file_crypt]
    looks at it for ever, whatever number of rounds it is given. *)
Theorem rar5_extra_loops_forever (fuel : nat) :
  find_file_crypt fuel looping_header (Z.of_nat (length looping_header))
    (hf_extra_size looping_fields) (hf_end looping_fields) = None.
Proof.
  assert (∀ fuel, extra_loop fuel looping_header 26 15 0 true = None) as Hloop.
  { induction fuel0 as [|n IH]; [done|]. cbn [extra_loop].
    assert (get_vint looping_header 26 15 = (2 ^ 64 - 10, 25)) as -> by reflexivity.
    assert (get_vint looping_header 26 25 = (0x40, 26)) as -> by reflexivity.
    exact IH. }
  transitivity (ROk <$> extra_loop fuel looping_header 26 15 0 true); [reflexivity|].
  by rewrite Hloop.
Qed.

(** The search for the password of an archive without check value gives up at
    the first password whose garbage does not look like a header. *)
Definition keyed_cbc (key iv l : list byte) : list byte :=
  (λ b, z2b (Z.lxor (b2z b) (byte_val key 0))) <$> l.

Definition unchecked_archive : list byte :=
  volume_start (λ _, replicate 32 x00) (replicate 4 x00) 0 (replicate 16 x55) None ++
  entries_wire (enc := keyed_cbc) toy_pbkdf2 (derive_key toy_pbkdf2 ($ "good") (replicate 16 x55) 0)
    ($ "good") [tiny_entry].

Example wrong_password_ends_search :
  rar5_vol_open_cb keyed_cbc toy_pbkdf2 (λ _, replicate 32 x00) [$ "Wrong"; $ "good"]
    (Some unchecked_archive) = RErr E_bad_size_field ∧
  ∃ v, rar5_vol_open_cb keyed_cbc toy_pbkdf2 (λ _, replicate 32 x00) [$ "good"]
    (Some unchecked_archive) = ROk v.
Proof. split; [vm_compute; reflexivity|]. eexists. vm_compute. reflexivity. Qed.
