(* ===== verification/Volumes.v ===== *)
(** * Archive names and volume sets ([extract/extract.c])

    [classify] recognises the name of an archive or of one of its volumes;
    [extract_job] and [walk_nested_archives] group the names into sets and put
    each set in the order of its volumes. *)

From Stdlib Require Import ZArith Lia List.
From Stdlib Require Import Strings.Byte Strings.String.
From Stdlib Require Import Sorting.Sorted.
From stdpp Require Import base list gmap sorting.
From S2P Require Import Prelude Cnum Job.

(** ** Data *)

Inductive archive_kind := AKIND_RAR | AKIND_SEVENZ | AKIND_ZIP.

#[export] Instance archive_kind_eq_dec : EqDecision archive_kind.
Proof. solve_decision. Defined.

Record archive_id := ArchiveId {
  ai_kind : archive_kind;
  ai_base : cstr;    (* char[400] *)
  ai_volume : Z;     (* long *)
}.

Record member := Member {
  mb_kind : archive_kind;
  mb_base : cstr;
  mb_volume : Z;
  mb_filename : cstr;  (* char[512] *)
}.

(** ** [classify] *)

Definition isalpha (c : byte) : bool := (97 <=? b2z (tolower c)) && (b2z (tolower c) <=? 122).

Definition all_digits (s : cstr) : bool := negb (bool_decide (s = [])) && forallb isdigit s.

(** The first [base_len] bytes, cut to the buffer of 400. *)
Definition set_base (name : cstr) (base_len : nat) : cstr :=
  take (if (400 <=? base_len)%nat then 399%nat else base_len) name.

(** [while (i > 0 && isdigit(name[i - 1])) i--;] *)
Fixpoint digits_start (name : cstr) (i : nat) : nat :=
  match i with
  | O => O
  | S j => if isdigit (nth j name x00) then digits_start name j else i
  end.

(** [".rar"], with a [".part<N>"] before it or not. *)
Definition classify_rar (name : cstr) : archive_id :=
  let digits_end := (length name - 4)%nat in
  let i := digits_start name digits_end in
  if negb (i =? digits_end)%nat && (5 <=? i)%nat && strcase_eq (take 5 (drop (i - 5) name)) ($ ".part")
  then ArchiveId AKIND_RAR (set_base name (i - 5)) (strtol10 (drop i name))
  else ArchiveId AKIND_RAR (set_base name (length name - 4)) 0.

(** [".r00"] to [".z99"], with any number of digits. *)
Definition classify_old_volume (name : cstr) : option archive_id :=
  match split_last x2e name with
  | Some (before, c :: digits) =>
    if isalpha c && (114 <=? b2z (tolower c)) && (b2z (tolower c) <=? 122) && all_digits digits then
      let letter_offset := b2z (tolower c) - 114 in
      Some (ArchiveId AKIND_RAR (set_base name (length before)) (s64 (1 + letter_offset * 100 + strtol10 digits)))
    else None
  | _ => None
  end.

(** [".7z.<digits>"] *)
Definition classify_7z_volume (name : cstr) : option archive_id :=
  let i := digits_start name (length name) in
  if negb (i =? length name)%nat && (4 <=? i)%nat && bool_decide (nth (i - 1) name x00 = x2e) &&
     strcase_eq (take 4 (drop (i - 4) name)) ($ ".7z.")
  then Some (ArchiveId AKIND_SEVENZ (set_base name (i - 4)) (strtol10 (drop i name)))
  else None.

Definition classify (name : cstr) : option archive_id :=
  let len := length name in
  if has_suffix_ci name ($ ".rar") then Some (classify_rar name)
  else
    match classify_old_volume name with
    | Some id => Some id
    | None =>
      if has_suffix_ci name ($ ".7z") then Some (ArchiveId AKIND_SEVENZ (set_base name (len - 3)) 0)
      else
        match classify_7z_volume name with
        | Some id => Some id
        | None =>
          if has_suffix_ci name ($ ".zip") then Some (ArchiveId AKIND_ZIP (set_base name (len - 4)) 0)
          else None
        end
    end.

(** ** Grouping *)

(** The loop that fills [members]. *)
Definition member_of (name : cstr) : option member :=
  match classify name with
  | Some c => Some (Member (ai_kind c) (str_fit 400 (ai_base c)) (ai_volume c) (str_fit 512 name))
  | None => None
  end.

Definition members_of (names : list cstr) : list member := omap member_of names.

Definition cmp_member_volume (a b : member) : Z :=
  if mb_volume a <? mb_volume b then -1 else if mb_volume b <? mb_volume a then 1 else 0.

(** The test of the inner loop. *)
Definition same_set (a b : member) : bool :=
  bool_decide (mb_kind a = mb_kind b) && bool_decide (mb_base a = mb_base b).

Definition in_set (members : list member) (m : member) (gj : nat) : bool :=
  match members !! gj with Some m' => same_set m' m | None => false end.

(** One turn of the outer loop: the flags [grouped], and the groups found. *)
Definition group_at (members : list member) (st : list bool * list (list member)) (fi : nat)
    : list bool * list (list member) :=
  let '(grouped, groups) := st in
  if nth fi grouped false then st
  else
    match members !! fi with
    | None => st
    | Some m =>
      let js := filter (λ gj, in_set members m gj = true) (seq fi (length members - fi)) in
      (foldr (λ gj g, <[gj := true]> g) grouped js, groups ++ [omap (λ gj, members !! gj) js])
    end.

Definition group_members (members : list member) : list (list member) :=
  (foldl (group_at members) (replicate (length members) false, []) (seq 0 (length members))).2.

(** The sets in the order the loop reaches them, each sorted. *)
Definition volume_sets (qsort : list member → list member) (names : list cstr) : list (list member) :=
  qsort <$> group_members (members_of names).

Definition qsort_volumes_contract (qsort : list member → list member) : Prop :=
  ∀ l, qsort l ≡ₚ l ∧ Sorted (λ a b, cmp_member_volume a b <= 0) (qsort l).

(** ** The groups, without the flags *)

Definition key (m : member) : archive_kind * cstr := (mb_kind m, mb_base m).

Lemma same_set_true a b : same_set a b = true ↔ key a = key b.
Proof.
  unfold same_set, key. rewrite andb_true_iff, !bool_decide_eq_true. split; [by intros [-> ->]|by intros [= -> ->]].
Qed.

(** The members whose key is not that of one before. *)
Fixpoint leaders (seen : list (archive_kind * cstr)) (ms : list member) : list member :=
  match ms with
  | [] => []
  | m :: ms => if decide (key m ∈ seen) then leaders seen ms else m :: leaders (key m :: seen) ms
  end.

(** All members of one key, in the order of the names. *)
Definition set_of (ms : list member) (m : member) : list member := filter (λ m', same_set m' m = true) ms.

Lemma leaders_seen seen ms m : m ∈ leaders seen ms → m ∈ ms ∧ key m ∉ seen.
Proof.
  revert seen. induction ms as [|x ms IH]; intros seen; simpl; [set_solver|].
  case_decide; intros Hm.
  - apply IH in Hm. set_solver.
  - apply elem_of_cons in Hm as [->|Hm]; [set_solver|]. apply IH in Hm. set_solver.
Qed.

Lemma leaders_nodup seen ms : NoDup (key <$> leaders seen ms).
Proof.
  revert seen. induction ms as [|x ms IH]; intros seen; simpl; [constructor|].
  case_decide; [apply IH|]. rewrite fmap_cons. constructor; [|apply IH].
  intros (m & Hk & Hm)%list_elem_of_fmap. apply leaders_seen in Hm as [_ Hm]. rewrite <- Hk in Hm. set_solver.
Qed.

Lemma leaders_cover seen ms m : m ∈ ms → key m ∉ seen → ∃ l, l ∈ leaders seen ms ∧ key l = key m.
Proof.
  revert seen. induction ms as [|x ms IH]; intros seen Hm Hs; [set_solver|]. simpl.
  apply elem_of_cons in Hm as [->|Hm].
  - rewrite decide_False by done. exists x. by split; [left|].
  - case_decide as Hd; [by apply IH|]. destruct (decide (key m = key x)) as [Hk|Hk].
    + exists x. split; [left|congruence].
    + destruct (IH (key x :: seen) Hm) as (l & Hl & Hkl); [set_solver|]. exists l. by split; [right|].
Qed.

(** The flags after some turns: the members whose key has been met. *)
Definition flags_of (seen : list (archive_kind * cstr)) (ms : list member) : list bool :=
  (λ m, bool_decide (key m ∈ seen)) <$> ms.

Lemma filter_none {A} (P : A → Prop) `{∀ x, Decision (P x)} (l : list A) :
  (∀ x, x ∈ l → ¬ P x) → filter P l = [].
Proof.
  induction l as [|x l IH]; intros Hl; [done|]. rewrite filter_cons, decide_False by (apply Hl; left).
  apply IH. intros y Hy. apply Hl. by right.
Qed.

Lemma set_flags (js : list nat) (g : list bool) j :
  foldr (λ gj g, <[gj := true]> g) g js !! j = (λ b, b || bool_decide (j ∈ js)) <$> g !! j.
Proof.
  induction js as [|i js IH]; cbn [foldr].
  - destruct (g !! j); cbn; [|done]. by rewrite bool_decide_eq_false_2, orb_false_r by set_solver.
  - destruct (decide (i = j)) as [->|Hne].
    + rewrite bool_decide_eq_true_2 by set_solver. destruct (g !! j) as [b|] eqn:E.
      * rewrite list_lookup_insert_eq; [cbn; by rewrite orb_true_r|].
        apply lookup_lt_is_Some. rewrite IH. by eexists.
      * rewrite list_insert_ge; [by rewrite IH|]. apply lookup_ge_None. by rewrite IH.
    + rewrite list_lookup_insert_ne by done. rewrite IH. destruct (g !! j); [|done]. cbn. do 2 f_equal.
      apply bool_decide_ext. set_solver.
Qed.

Lemma in_set_seq ms m k :
  omap (λ j, ms !! j) (filter (λ j, in_set ms m j = true) (seq k (length ms - k))) = set_of (drop k ms) m.
Proof.
  remember (length ms - k)%nat as n eqn:Hn. revert k Hn. induction n as [|n IH]; intros k Hn; simpl.
  - by rewrite drop_ge by lia.
  - destruct (lookup_lt_is_Some_2 ms k) as [m' Hm]; [lia|]. rewrite (drop_S _ _ _ Hm). unfold set_of.
    assert (in_set ms m k = same_set m' m) as Hin by (unfold in_set; by rewrite Hm).
    rewrite !filter_cons, Hin. case_decide as Hp; simpl.
    + rewrite Hm. f_equal. apply IH. lia.
    + apply IH. lia.
Qed.

Lemma elem_in_set ms m k j :
  j ∈ filter (λ j, in_set ms m j = true) (seq k (length ms - k)) ↔
  (k <= j)%nat ∧ ∃ m', ms !! j = Some m' ∧ key m' = key m.
Proof.
  rewrite list_elem_of_filter, elem_of_seq. unfold in_set. split.
  - intros [Hs Hj]. split; [lia|]. destruct (ms !! j) as [m'|]; [|done]. exists m'. by rewrite <- same_set_true.
  - intros [Hk (m' & Hm & Hkey)]. rewrite Hm, same_set_true. split; [done|]. apply lookup_lt_Some in Hm. lia.
Qed.

Lemma set_of_drop ms m k : (∀ m', m' ∈ take k ms → key m' ≠ key m) → set_of ms m = set_of (drop k ms) m.
Proof.
  intros Hpre. rewrite <- (take_drop k ms) at 1. unfold set_of. rewrite filter_app.
  rewrite (filter_none _ (take k ms)); [done|]. intros m' Hm'. rewrite same_set_true. by apply Hpre.
Qed.

(** One turn at an index whose key is new, and at one whose key is known. *)
Lemma group_at_step ms seen groups k m :
  ms !! k = Some m → (∀ m', m' ∈ take k ms → key m' ∈ seen) →
  group_at ms (flags_of seen ms, groups) k =
  if decide (key m ∈ seen) then (flags_of seen ms, groups)
  else (flags_of (key m :: seen) ms, groups ++ [set_of ms m]).
Proof.
  intros Hm Hpre. unfold group_at. cbv beta iota. rewrite nth_lookup. unfold flags_of at 1. rewrite list_lookup_fmap, Hm.
  cbn [fmap option_fmap option_map from_option default]. case_bool_decide as Hs.
  - by rewrite decide_True by done.
  - rewrite decide_False by done. rewrite in_set_seq. f_equal.
    + apply list_eq. intros j. rewrite set_flags. unfold flags_of. rewrite !list_lookup_fmap.
      destruct (ms !! j) as [m'|] eqn:Hj; [|done]. cbn. f_equal.
      apply eq_iff_eq_true. rewrite orb_true_iff, !bool_decide_eq_true, elem_in_set, Hj. split.
      * intros [H|(_ & ? & [= <-] & ->)]; set_solver.
      * intros [H|H]%elem_of_cons; [|by left]. right. split; [|eauto].
        destruct (decide (k <= j)%nat); [done|]. exfalso. apply Hs. rewrite <- H. apply Hpre.
        apply list_elem_of_lookup_2 with j. rewrite lookup_take_lt by lia. done.
    + do 2 f_equal. rewrite (set_of_drop ms m k); [done|]. intros m' Hm' Hk. apply Hs. rewrite <- Hk. by apply Hpre.
Qed.

Lemma key_snoc pre m x :
  (∃ m', m' ∈ pre ++ [m] ∧ key m' = x) ↔ (∃ m', m' ∈ pre ∧ key m' = x) ∨ x = key m.
Proof.
  setoid_rewrite elem_of_app. setoid_rewrite list_elem_of_singleton. split.
  - intros (m' & [Hm| ->] & Hk); [left; by exists m'|by right].
  - intros [(m' & Hm & Hk)| ->]; [exists m'; by split; [left|]|exists m; by split; [right|]].
Qed.

Lemma group_loop_spec ms pre suf seen groups :
  ms = pre ++ suf → (∀ x, x ∈ seen ↔ ∃ m, m ∈ pre ∧ key m = x) →
  (foldl (group_at ms) (flags_of seen ms, groups) (seq (length pre) (length suf))).2 =
  groups ++ (set_of ms <$> leaders seen suf).
Proof.
  revert pre seen groups. induction suf as [|m suf IH]; intros pre seen groups Hms Hseen; cbn [length seq foldl leaders].
  - by rewrite app_nil_r.
  - assert (take (length pre) ms = pre) as Htake by by rewrite Hms, take_app_length.
    rewrite (group_at_step ms seen groups (length pre) m).
    2: { rewrite Hms. by rewrite list_lookup_middle. }
    2: { rewrite Htake. intros m' Hm'. apply Hseen. by exists m'. }
    case_decide as Hs.
    + rewrite <- (IH (pre ++ [m]) seen groups).
      * rewrite length_app. cbn [length]. by replace (length pre + 1)%nat with (S (length pre)) by lia.
      * by rewrite Hms, <- app_assoc.
      * intros x. rewrite key_snoc, <- Hseen. split; [by left|]. by intros [H| ->].
    + trans ((groups ++ [set_of ms m]) ++ (set_of ms <$> leaders (key m :: seen) suf)); [|by rewrite <- app_assoc].
      rewrite <- (IH (pre ++ [m]) (key m :: seen)).
      * rewrite length_app. cbn [length]. by replace (length pre + 1)%nat with (S (length pre)) by lia.
      * by rewrite Hms, <- app_assoc.
      * intros x. rewrite key_snoc, elem_of_cons, Hseen. tauto.
Qed.

Lemma no_flags ms : replicate (length ms) false = flags_of [] ms.
Proof. induction ms as [|m ms IH]; [done|]. simpl. f_equal. exact IH. Qed.

(** The loop with its flags computes the sets of the members whose key is new. *)
Lemma group_members_spec ms : group_members ms = set_of ms <$> leaders [] ms.
Proof.
  unfold group_members. rewrite <- (app_nil_l (set_of ms <$> _)).
  rewrite <- (group_loop_spec ms [] ms [] []); [|done|].
  2: { intros x. split; [by intros ?%elem_of_nil|by intros (? & ?%elem_of_nil & _)]. }
  rewrite no_flags. reflexivity.
Qed.

(** ** Names of volumes *)

(** A number with leading zeros up to a width ([%0*d]). *)
Definition pad (w : nat) (n : Z) : cstr := replicate (w - length (print_dec n)) x30 ++ print_dec n.

(** How the volumes of a set are named. *)
Inductive scheme :=
  | Old_volumes            (* name.rar name.r00 ... name.r99 name.s00 ... *)
  | Part_volumes (w : nat) (* name.part01.rar name.part02.rar ... *)
  | Split_7z (w : nat).    (* name.7z.001 name.7z.002 ... *)

Definition scheme_kind (s : scheme) : archive_kind :=
  match s with Split_7z _ => AKIND_SEVENZ | _ => AKIND_RAR end.

(** The letter of the old volumes: ['r'] for the first hundred, then ['s']. *)
Definition old_letter (k : Z) : byte := z2b (114 + k / 100).

(** The name of the [k]-th volume, from 0. *)
Definition volume_name (s : scheme) (base : cstr) (k : nat) : cstr :=
  let n := Z.of_nat k in
  match s with
  | Old_volumes =>
    match k with
    | O => base ++ $ ".rar"
    | S _ => base ++ $ "." ++ old_letter (n - 1) :: pad 2 ((n - 1) mod 100)
    end
  | Part_volumes w => base ++ $ ".part" ++ pad w (n + 1) ++ $ ".rar"
  | Split_7z w => base ++ $ ".7z." ++ pad w (n + 1)
  end.

(** The number [classify] gives it. *)
Definition volume_number (s : scheme) (k : nat) : Z :=
  match s with Old_volumes => Z.of_nat k | _ => Z.of_nat k + 1 end.

(** The most volumes a scheme can name. *)
Definition scheme_limit (s : scheme) : Z :=
  match s with Old_volumes => 901 | _ => 2 ^ 62 end.

(** A base that does not itself end in [".part<digits>"]. *)
Definition no_part (base : cstr) : Prop :=
  ∀ b p d, base = b ++ p ++ d → d ≠ [] → Forall (λ c, isdigit c = true) d → strcase_eq p ($ ".part") = false.

Lemma no_part_nondigit base c : isdigit c = false → no_part (base ++ [c]).
Proof.
  intros Hc b p d Hd Hne Hdig. exfalso. destruct (exists_last Hne) as (d' & z & ->).
  rewrite !app_assoc in Hd. apply app_inj_tail in Hd as [_ <-].
  apply Forall_app in Hdig as [_ Hz]. apply Forall_cons in Hz as [Hz _]. congruence.
Qed.

Definition base_ok (s : scheme) (base : cstr) : Prop :=
  (length base < 400)%nat ∧ (s = Old_volumes → no_part base).

Lemma digit_char_digit d : 0 <= d < 10 → isdigit (digit_char d) = true.
Proof.
  intros Hd. unfold isdigit, digit_char. rewrite z2b_small by lia.
  apply andb_true_iff. rewrite !Z.leb_le. lia.
Qed.

Lemma print_digits_digits fuel n l :
  0 <= n → Forall (λ c, isdigit c = true) l → Forall (λ c, isdigit c = true) (print_digits fuel n l).
Proof.
  revert n l. induction fuel as [|fuel IH]; intros n l Hn Hl; cbn [print_digits]; [done|].
  pose proof (Z.mod_pos_bound n 10 ltac:(lia)).
  assert (Forall (λ c, isdigit c = true) (digit_char (n mod 10) :: l)).
  { constructor; [by apply digit_char_digit|done]. }
  destruct (n <? 10); [done|]. apply IH; [apply Z.div_pos; lia|done].
Qed.

Lemma pad_digits w n : 0 <= n → Forall (λ c, isdigit c = true) (pad w n).
Proof.
  intros Hn. unfold pad. apply Forall_app. split; [by apply Forall_replicate|].
  unfold print_dec. rewrite (proj2 (Z.ltb_ge _ _)) by lia. by apply print_digits_digits.
Qed.

Lemma pad_nonempty w n : 0 <= n < 2 ^ 63 → pad w n ≠ [].
Proof.
  intros Hn. destruct (print_dec_head n Hn) as (d & l & _ & E). unfold pad. rewrite E.
  by destruct (replicate _ x30).
Qed.

Lemma read_digits_zeros k s : read_digits 10 0 (replicate k x30 ++ s) = read_digits 10 0 s.
Proof. induction k as [|k IH]; [done|]. cbn [replicate app read_digits]. exact IH. Qed.

Lemma strtol10_digits s : Forall (λ c, isdigit c = true) (take 1 s) →
  strtol10 s = clamp (- 2 ^ 63) (2 ^ 63 - 1) (read_digits 10 0 s).
Proof.
  destruct s as [|c s]; [done|]. intros Hc. apply Forall_cons in Hc as [Hc _].
  unfold isdigit in Hc. apply andb_true_iff in Hc as [H1%Z.leb_le H2%Z.leb_le].
  unfold strtol10. cbn [skip_space]. unfold isspace.
  rewrite (proj2 (Z.eqb_neq _ _)), (proj2 (Z.leb_gt (b2z c) 13)), andb_false_r by lia. cbn [orb].
  destruct c; try (exfalso; cbv in H1, H2; lia || (by apply H1) || (by apply H2)); reflexivity.
Qed.

Lemma strtol10_pad w n t :
  0 <= n < 2 ^ 63 → (∀ c t', t = c :: t' → digit_val c = None) → strtol10 (pad w n ++ t) = n.
Proof.
  intros Hn Ht. assert (∀ s, s ≠ [] → Forall (λ c, isdigit c = true) s → Forall (λ c, isdigit c = true) (take 1 (s ++ t))) as Htake.
  { intros [|c s] Hs Hd; [done|]. apply Forall_cons in Hd as [Hd _]. by constructor. }
  assert (Forall (λ c, isdigit c = true) (print_dec n)) as Hdig.
  { pose proof (pad_digits 0 n ltac:(lia)) as Hp. exact Hp. }
  rewrite strtol10_digits.
  - unfold pad. rewrite <- app_assoc, read_digits_zeros, <- strtol10_digits; [apply strtol10_print; [lia|done]|].
    apply Htake; [|done]. destruct (print_dec_head n Hn) as (d & l & _ & ->). done.
  - apply Htake; [by apply pad_nonempty|by apply pad_digits; lia].
Qed.

(** The digits before a position. *)
Lemma digits_start_stop a c t : isdigit c = false → digits_start ((a ++ [c]) ++ t) (S (length a)) = S (length a).
Proof. intros Hc. cbn [digits_start]. rewrite <- app_assoc. cbn [app]. by rewrite nth_middle, Hc. Qed.

Lemma digits_start_run d a t :
  Forall (λ c, isdigit c = true) d →
  digits_start (a ++ d ++ t) (length a + length d) = digits_start (a ++ d ++ t) (length a).
Proof.
  revert t. induction d as [|c d IH] using rev_ind; intros t Hd; [by rewrite Nat.add_0_r|].
  apply Forall_app in Hd as [Hd Hc]. apply Forall_cons in Hc as [Hc _].
  rewrite length_app, Nat.add_1_r, Nat.add_succ_r. cbn [digits_start].
  rewrite <- (app_assoc d). cbn [app].
  replace (nth (length a + length d) (a ++ d ++ c :: t) x00) with c.
  - rewrite Hc. apply (IH (c :: t) Hd).
  - rewrite (app_assoc a d), <- (length_app a d). by rewrite nth_middle.
Qed.

(** Digits after a byte that is none. *)
Lemma digits_start_after a c d t :
  isdigit c = false → Forall (λ c, isdigit c = true) d →
  digits_start (a ++ c :: d ++ t) (S (length a) + length d) = S (length a).
Proof.
  intros Hc Hd. pose proof (digits_start_run d (a ++ [c]) t Hd) as H.
  rewrite length_app, Nat.add_1_r in H. rewrite <- app_assoc in H. cbn [app] in H. rewrite H.
  pose proof (digits_start_stop a c (d ++ t) Hc) as H'. rewrite <- app_assoc in H'. exact H'.
Qed.

Lemma strcase_eq_refl s : strcase_eq s s = true.
Proof. by apply strcase_eq_true. Qed.

Lemma set_base_app base t : (length base < 400)%nat → set_base (base ++ t) (length base) = base.
Proof.
  intros Hb. unfold set_base. rewrite (proj2 (Nat.leb_gt _ _)) by lia. apply take_app_length.
Qed.

Lemma suffix_differs s t suf :
  length t = length suf → strcase_eq t suf = false → has_suffix_ci (s ++ t) suf = false.
Proof.
  intros Hl Ht. unfold has_suffix_ci, str_tail. rewrite length_app.
  replace (length s + length t - length suf)%nat with (length s) by lia.
  rewrite drop_app_length, Ht. apply andb_false_r.
Qed.

(** A name that ends in a digit has no suffix that does not. *)
Lemma digit_no_suffix s c suf x :
  isdigit c = true → isdigit (tolower x) = false → has_suffix_ci (s ++ [c]) (suf ++ [x]) = false.
Proof.
  intros Hc Hx. apply not_true_iff_false. rewrite has_suffix_ci_app. intros (b & e & Heq & He).
  apply strcase_eq_true in He. rewrite fmap_app in He.
  destruct e as [|e0 e _] using rev_ind.
  - apply (f_equal length) in He. rewrite length_app in He. simpl in He. lia.
  - rewrite app_assoc in Heq. apply app_inj_tail in Heq as [_ <-].
    rewrite fmap_app in He. apply app_inj_tail in He as [_ He].
    rewrite (isdigit_tolower _ Hc) in He. congruence.
Qed.

Lemma part_name_classified w base k :
  (length base < 400)%nat → 0 <= k < 2 ^ 63 →
  classify (base ++ $ ".part" ++ pad w k ++ $ ".rar") = Some (ArchiveId AKIND_RAR base k).
Proof.
  intros Hb Hk. set (name := base ++ $ ".part" ++ pad w k ++ $ ".rar").
  assert (has_suffix_ci name ($ ".rar") = true) as Hs.
  { apply has_suffix_ci_app. exists (base ++ $ ".part" ++ pad w k), ($ ".rar"). split; [|done].
    unfold name. by rewrite <- !app_assoc. }
  assert (length name - 4 = S (length (base ++ $ ".par")) + length (pad w k))%nat as Hlen.
  { unfold name. rewrite !length_app. simpl. lia. }
  assert (name = (base ++ $ ".par") ++ x74 :: pad w k ++ $ ".rar") as Hname.
  { unfold name. rewrite <- app_assoc. reflexivity. }
  assert (digits_start name (length name - 4) = S (length (base ++ $ ".par"))) as Hd.
  { rewrite Hlen, Hname. apply digits_start_after; [done|apply pad_digits; lia]. }
  assert (S (length (base ++ $ ".par")) = length base + 5)%nat as Hi by (rewrite length_app; simpl; lia).
  unfold classify. rewrite Hs. f_equal. unfold classify_rar. rewrite Hd, Hi.
  rewrite (proj2 (Nat.eqb_neq _ _)), (proj2 (Nat.leb_le 5 _)).
  - replace (length base + 5 - 5)%nat with (length base) by lia. cbn [negb andb].
    unfold name. rewrite drop_app_length. cbn [take app list_byte_of_string].
    change (strcase_eq (take 5 ($ ".part" ++ pad w k ++ $ ".rar")) ($ ".part")) with true. cbn iota.
    rewrite set_base_app by done. f_equal.
    replace (drop (length base + 5) (base ++ $ ".part" ++ pad w k ++ $ ".rar")) with (pad w k ++ $ ".rar").
    + rewrite strtol10_pad; [done|lia|]. by intros c t' [= <- _].
    + rewrite drop_app_ge by lia. by replace (length base + 5 - length base)%nat with 5%nat by lia.
  - lia.
  - rewrite Hlen, Hi. pose proof (pad_nonempty w k Hk). destruct (pad w k); [done|]. simpl. lia.
Qed.

Lemma split_7z_classified w base k :
  (length base < 400)%nat → 0 <= k < 2 ^ 63 →
  classify (base ++ $ ".7z." ++ pad w k) = Some (ArchiveId AKIND_SEVENZ base k).
Proof.
  intros Hb Hk. set (name := base ++ $ ".7z." ++ pad w k).
  pose proof (pad_digits w k ltac:(lia)) as Hdig. pose proof (pad_nonempty w k Hk) as Hne.
  destruct (exists_last Hne) as (ds & z & Hz). 
  assert (isdigit z = true) as Hzd.
  { rewrite Hz in Hdig. apply Forall_app in Hdig as [_ Hd]. by apply Forall_cons in Hd as [? _]. }
  assert (∀ suf x, isdigit (tolower x) = false → has_suffix_ci name (suf ++ [x]) = false) as Hno.
  { intros suf x Hx. unfold name. rewrite Hz, !app_assoc. by apply digit_no_suffix. }
  assert (length name = S (length (base ++ $ ".7z")) + length (pad w k))%nat as Hlen.
  { unfold name. rewrite !length_app. simpl. lia. }
  assert (name = (base ++ $ ".7z") ++ x2e :: pad w k ++ []) as Hname.
  { unfold name. rewrite <- app_assoc, app_nil_r. reflexivity. }
  assert (digits_start name (length name) = S (length (base ++ $ ".7z"))) as Hd.
  { rewrite Hlen, Hname. by apply digits_start_after. }
  assert (S (length (base ++ $ ".7z")) = length base + 4)%nat as Hi by (rewrite length_app; simpl; lia).
  assert (classify_old_volume name = None) as Hold.
  { unfold classify_old_volume, name. change ($ ".7z." ++ pad w k) with ($ ".7z" ++ x2e :: pad w k).
    rewrite app_assoc, split_last_app.
    - destruct (pad w k) as [|c d]; [done|]. apply Forall_cons in Hdig as [Hc _].
      assert (isalpha c = false) as ->; [|done]. unfold isalpha. rewrite (isdigit_tolower _ Hc).
      unfold isdigit in Hc. apply andb_true_iff in Hc as [_ Hc%Z.leb_le].
      by rewrite (proj2 (Z.leb_gt _ _)) by lia.
    - eapply Forall_impl; [exact Hdig|]. cbv beta. intros c Hc ->. done. }
  assert (has_suffix_ci name ($ ".rar") = false) as Hr by exact (Hno ($ ".ra") x72 eq_refl).
  assert (has_suffix_ci name ($ ".7z") = false) as H7 by exact (Hno ($ ".7") x7a eq_refl).
  unfold classify. rewrite Hr, Hold, H7.
  assert (classify_7z_volume name = Some (ArchiveId AKIND_SEVENZ base k)) as ->; [|done].
  unfold classify_7z_volume. rewrite Hd, Hi.
  rewrite (proj2 (Nat.eqb_neq _ _)), (proj2 (Nat.leb_le 4 _)).
  - assert (nth (length base + 4 - 1) name x00 = x2e) as ->.
    { replace (length base + 4 - 1)%nat with (length (base ++ $ ".7z")) by (rewrite length_app; simpl; lia).
      rewrite Hname. apply nth_middle. }
    replace (length base + 4 - 4)%nat with (length base) by lia. unfold name. rewrite drop_app_length.
    change (strcase_eq (take 4 ($ ".7z." ++ pad w k)) ($ ".7z.")) with true.
    rewrite bool_decide_eq_true_2 by done. cbn [negb andb]. rewrite set_base_app by done. do 2 f_equal.
    replace (drop (length base + 4) (base ++ $ ".7z." ++ pad w k)) with (pad w k).
    + rewrite <- (app_nil_r (pad w k)). by apply strtol10_pad.
    + rewrite drop_app_ge by lia. by replace (length base + 4 - length base)%nat with 4%nat by lia.
  - lia.
  - rewrite Hlen, Hi. destruct (pad w k); [done|]. simpl. lia.
Qed.

Lemma no_part_rar base : no_part base → (length base < 400)%nat →
  classify (base ++ $ ".rar") = Some (ArchiveId AKIND_RAR base 0).
Proof.
  intros Hp Hb. set (name := base ++ $ ".rar").
  assert (has_suffix_ci name ($ ".rar") = true) as Hs by (apply has_suffix_ci_app; by exists base, ($ ".rar")).
  assert (length name - 4 = length base)%nat as Hlen by (unfold name; rewrite length_app; simpl; lia).
  unfold classify. rewrite Hs. f_equal. unfold classify_rar. rewrite Hlen.
  assert (∀ i, (i <= length base)%nat → ∃ d, digits_start name i = (i - length d)%nat ∧ (length d <= i)%nat ∧
            Forall (λ c, isdigit c = true) d ∧ take i base = take (i - length d) base ++ d) as Hrun.
  { induction i as [|i IH]; intros Hi; [exists []; by rewrite app_nil_r|]. cbn [digits_start].
    destruct (lookup_lt_is_Some_2 base i) as [c Hc]; [lia|].
    assert (nth i name x00 = c) as ->.
    { unfold name. rewrite nth_lookup, lookup_app_l by lia. by rewrite Hc. }
    destruct (isdigit c) eqn:Ed; [|exists []; rewrite app_nil_r, Nat.sub_0_r; split_and!; [done|simpl; lia|constructor|done]].
    destruct (IH ltac:(lia)) as (d & H1 & H2 & H3 & H4). exists (d ++ [c]). rewrite length_app. simpl.
    replace (S i - (length d + 1))%nat with (i - length d)%nat by lia. split_and!; [done|lia| |].
    - apply Forall_app. split; [done|by constructor].
    - rewrite (take_S_r _ _ _ Hc), H4, app_assoc. done. }
  destruct (Hrun (length base) ltac:(lia)) as (d & -> & Hd & Hdig & Htake). rewrite firstn_all in Htake.
  set (i := (length base - length d)%nat) in *.
  destruct (negb (i =? length base)%nat && (5 <=? i)%nat && strcase_eq (take 5 (drop (i - 5) name)) ($ ".part")) eqn:E.
  - exfalso. apply andb_true_iff in E as [[E1%negb_true_iff%Nat.eqb_neq E2%Nat.leb_le]%andb_true_iff E3].
    assert (take 5 (drop (i - 5) name) = drop (i - 5) (take i base)) as Heq.
    { unfold name. rewrite drop_app_le by lia. rewrite take_app_le by (rewrite length_drop; lia).
      rewrite skipn_firstn_comm. f_equal. lia. }
    rewrite Heq in E3. rewrite (Hp (take (i - 5) base) (drop (i - 5) (take i base)) d) in E3; [done| | |done].
    + rewrite app_assoc. replace (take (i - 5) base) with (take (i - 5) (take i base)) by (rewrite take_take; f_equal; lia).
      rewrite take_drop. exact Htake.
    + intros ->. unfold i in E1. simpl in E1. lia.
  - unfold name. by rewrite set_base_app.
Qed.

Lemma old_volume_classified base n :
  (length base < 400)%nat → 0 <= n < 900 →
  classify (base ++ $ "." ++ old_letter n :: pad 2 (n mod 100)) = Some (ArchiveId AKIND_RAR base (n + 1)).
Proof.
  intros Hb Hn. set (d := pad 2 (n mod 100)).
  pose proof (Z.mod_pos_bound n 100 ltac:(lia)) as Hm.
  pose proof (pad_digits 2 (n mod 100) ltac:(lia)) as Hdig. pose proof (pad_nonempty 2 (n mod 100) ltac:(lia)) as Hne.
  fold d in Hdig, Hne.
  assert (0 <= n / 100 < 9) as Hq by (split; [apply Z.div_pos|apply Z.div_lt_upper_bound]; lia).
  assert (b2z (old_letter n) = 114 + n / 100) as Hl by (unfold old_letter; apply z2b_small; lia).
  assert (tolower (old_letter n) = old_letter n) as Hlow.
  { unfold tolower. rewrite Hl. by rewrite (proj2 (Z.leb_gt _ 90)), andb_false_r by lia. }
  set (name := base ++ $ "." ++ old_letter n :: d).
  assert (has_suffix_ci name ($ ".rar") = false) as Hr.
  { destruct (exists_last Hne) as (ds & z & Hz). unfold name. rewrite Hz.
    replace (base ++ $ "." ++ old_letter n :: ds ++ [z]) with ((base ++ $ "." ++ old_letter n :: ds) ++ [z])
      by (by rewrite <- !app_assoc).
    apply (digit_no_suffix _ z ($ ".ra") x72); [|done].
    rewrite Hz in Hdig. apply Forall_app in Hdig as [_ Hd]. by apply Forall_cons in Hd as [? _]. }
  unfold classify. rewrite Hr.
  assert (classify_old_volume name = Some (ArchiveId AKIND_RAR base (n + 1))) as ->; [|done].
  unfold classify_old_volume, name. change ($ "." ++ old_letter n :: d) with (x2e :: old_letter n :: d).
  rewrite split_last_app.
  - assert (all_digits d = true) as ->.
    { unfold all_digits. rewrite bool_decide_eq_false_2 by done. apply forallb_forall. intros c Hc.
      rewrite Forall_forall in Hdig. apply Hdig. by apply list_elem_of_In. }
    unfold isalpha. rewrite Hlow, Hl.
    rewrite !(proj2 (Z.leb_le _ _)) by lia. cbn [andb]. rewrite set_base_app by done. do 2 f_equal.
    assert (strtol10 d = n mod 100) as ->.
    { rewrite <- (app_nil_r d). apply strtol10_pad; [lia|done]. }
    pose proof (Z.div_mod n 100 ltac:(lia)). unfold s64. rewrite Z.mod_small; lia.
  - constructor.
    + intros E. rewrite E in Hl. change (b2z x2e) with 46 in Hl. lia.
    + eapply Forall_impl; [exact Hdig|]. cbv beta. intros c Hc ->. done.
Qed.

(** Every volume of a set is recognised, with the set's name and its own
    number. *)
Lemma volume_classified s base k :
  base_ok s base → Z.of_nat k < scheme_limit s →
  classify (volume_name s base k) = Some (ArchiveId (scheme_kind s) base (volume_number s k)).
Proof.
  intros [Hb Hp] Hk. destruct s as [|w|w]; cbn [volume_name scheme_kind volume_number scheme_limit] in *.
  - destruct k as [|k]; [by apply no_part_rar; [apply Hp|]|].
    rewrite old_volume_classified by lia. do 2 f_equal. lia.
  - apply part_name_classified; [done|lia].
  - apply split_7z_classified; [done|lia].
Qed.

(** ** Sets *)

Lemma set_of_member ms m m' : m' ∈ set_of ms m ↔ m' ∈ ms ∧ key m' = key m.
Proof. unfold set_of. rewrite list_elem_of_filter, same_set_true. tauto. Qed.

Lemma cmp_volume_le a b : cmp_member_volume a b <= 0 ↔ mb_volume a <= mb_volume b.
Proof. unfold cmp_member_volume. destruct (Z.ltb_spec (mb_volume a) (mb_volume b)), (Z.ltb_spec (mb_volume b) (mb_volume a)); lia. Qed.

Lemma sorted_volumes l : Sorted (λ a b, cmp_member_volume a b <= 0) l → StronglySorted (λ a b, mb_volume a <= mb_volume b) l.
Proof.
  intros Hs. apply Sorted_StronglySorted; [intros a b c; lia|].
  eapply (Sorted_weaken _ _ (λ _, True)); [|by apply Forall_true|exact Hs]. intros a b _ _. by rewrite cmp_volume_le.
Qed.

(** The sets together hold every member once. *)
Lemma mjoin_sets ms (ls : list member) :
  NoDup (key <$> ls) → (∀ m, m ∈ ms → ∃ l, l ∈ ls ∧ key l = key m) → mjoin (set_of ms <$> ls) ≡ₚ ms.
Proof.
  revert ms. induction ls as [|l ls IH]; intros ms Hnd Hcov.
  - destruct ms as [|m ms]; [done|]. destruct (Hcov m) as (l & Hl & _); [left|]. by apply elem_of_nil in Hl.
  - rewrite fmap_cons in Hnd. apply NoDup_cons in Hnd as [Hnew Hnd]. rewrite fmap_cons, mjoin_cons.
    rewrite <- (filter_app_complement (λ m', same_set m' l = true) ms) at 3. apply Permutation_app; [done|].
    set (rest := filter _ ms). rewrite <- (IH rest Hnd) at 1.
    + apply Permutation_refl'. f_equal. apply list_fmap_ext. intros i l' Hl'.
      unfold set_of, rest. rewrite list_filter_filter. apply list_filter_iff. intros m'. rewrite !same_set_true.
      split; [|tauto]. intros Hk. split; [done|]. intros Hk'. apply Hnew. rewrite <- Hk', Hk.
      apply list_elem_of_fmap_2. by apply list_elem_of_lookup_2 with i.
    + intros m Hm. apply list_elem_of_filter in Hm as [Hk Hm]. rewrite same_set_true in Hk.
      destruct (Hcov m Hm) as (l' & Hl' & Hkl'). apply elem_of_cons in Hl' as [->|Hl']; [congruence|by exists l'].
Qed.

Lemma group_members_partition ms :
  mjoin (group_members ms) ≡ₚ ms ∧
  Forall (λ g, g ≠ [] ∧ ∀ a b, a ∈ g → b ∈ g → key a = key b) (group_members ms) ∧
  (∀ i j g g' a b, group_members ms !! i = Some g → group_members ms !! j = Some g' →
     a ∈ g → b ∈ g' → key a = key b → i = j).
Proof.
  rewrite group_members_spec. split_and!.
  - apply mjoin_sets; [apply leaders_nodup|]. intros m Hm. apply leaders_cover; [done|apply not_elem_of_nil].
  - apply Forall_fmap, Forall_forall. intros l Hl. apply leaders_seen in Hl as [Hl _]. cbn. split.
    + intros He. assert (l ∈ set_of ms l) as Hin by by apply set_of_member. rewrite He in Hin. by apply elem_of_nil in Hin.
    + intros a b [_ ->]%set_of_member [_ ->]%set_of_member. done.
  - intros i j g g' a b Hi Hj Ha Hb Hab. rewrite list_lookup_fmap in Hi, Hj.
    apply fmap_Some in Hi as (l & Hi & ->), Hj as (l' & Hj & ->).
    apply set_of_member in Ha as [_ Ha], Hb as [_ Hb].
    apply (NoDup_lookup (key <$> leaders [] ms) i j (key l)); [apply leaders_nodup|..];
      rewrite list_lookup_fmap; [by rewrite Hi|rewrite Hj; cbn; congruence].
Qed.

(** Every member of a set is one of the files. *)
Lemma volume_sets_names qsort names g m :
  qsort_volumes_contract qsort → g ∈ volume_sets qsort names → m ∈ g →
  ∃ name, name ∈ names ∧ mb_filename m = str_fit 512 name.
Proof.
  intros Hq Hg Hm. unfold volume_sets in Hg. apply list_elem_of_fmap in Hg as (g' & -> & Hg).
  rewrite (proj1 (Hq g')) in Hm. rewrite group_members_spec in Hg.
  apply list_elem_of_fmap in Hg as (l & -> & _). apply set_of_member in Hm as [Hm _].
  apply list_elem_of_omap in Hm as (name & Hname & Hm). exists name. split; [done|].
  unfold member_of in Hm. destruct (classify name); by simplify_eq.
Qed.

(** A sorted arrangement of volumes with different numbers is unique. *)
Lemma sorted_volumes_unique l k :
  StronglySorted (λ a b, mb_volume a <= mb_volume b) l → StronglySorted (λ a b, mb_volume a < mb_volume b) k →
  l ≡ₚ k → l = k.
Proof.
  intros Hl Hk Hp.
  assert (∀ a b, a ∈ k → b ∈ k → mb_volume a = mb_volume b → a = b) as Hinj.
  { clear -Hk. induction Hk as [|x k Hk IH Hx]; intros a b Ha Hb Hab; [by apply elem_of_nil in Ha|].
    rewrite Forall_forall in Hx. apply elem_of_cons in Ha as [->|Ha], Hb as [->|Hb]; [done|..].
    - specialize (Hx b Hb). lia.
    - specialize (Hx a Ha). lia.
    - by apply IH. }
  apply (StronglySorted_unique_strong (λ a b, mb_volume a <= mb_volume b)); [|done| |done].
  - intros a b Ha Hb Hab Hba. rewrite Hp in Ha. apply Hinj; [done|done|lia].
  - clear -Hk. induction Hk as [|x k Hk IH Hx]; constructor; [done|].
    eapply Forall_impl; [exact Hx|]. cbn. lia.
Qed.

(** ** Properties *)

Definition set_names (s : scheme) (base : cstr) (n : nat) : list cstr := volume_name s base <$> seq 0 n.

(** The names of a job's files that are volumes of one set. *)
Definition name_key (name : cstr) : option (archive_kind * cstr) :=
  (λ c, (ai_kind c, ai_base c)) <$> classify name.

Definition names_of (k : archive_kind * cstr) (names : list cstr) : list cstr :=
  filter (λ name, name_key name = Some k) names.

Lemma set_base_length name n : (length (set_base name n) < 400)%nat.
Proof. unfold set_base. rewrite length_take. destruct (Nat.leb_spec 400 n); lia. Qed.

Lemma classify_base_length name c : classify name = Some c → (length (ai_base c) < 400)%nat.
Proof.
  unfold classify, classify_rar, classify_old_volume, classify_7z_volume. intros H.
  repeat (case_match; try discriminate); simplify_eq; try apply set_base_length.
Qed.

Lemma member_of_spec name m :
  (length name < 512)%nat → member_of name = Some m → mb_filename m = name ∧ name_key name = Some (key m).
Proof.
  unfold member_of, name_key. intros Hn. destruct (classify name) as [c|] eqn:Hc; [|done]. intros [= <-].
  apply classify_base_length in Hc. unfold key.
  cbn [mb_kind mb_base mb_filename fmap option_fmap option_map]. by rewrite !str_fit_id by done.
Qed.

Lemma members_of_key k names :
  Forall (λ name, length name < 512)%nat names →
  mb_filename <$> filter (λ m, key m = k) (members_of names) = names_of k names.
Proof.
  induction 1 as [|name names Hn _ IH]; [done|]. unfold members_of, names_of. cbn [omap list_omap].
  rewrite filter_cons. destruct (member_of name) as [m|] eqn:Hm.
  - destruct (member_of_spec name m Hn Hm) as [Hf Hk]. rewrite filter_cons, Hk.
    destruct (decide (key m = k)) as [->|Hne].
    + rewrite decide_True by done. rewrite fmap_cons, Hf. f_equal. exact IH.
    + rewrite decide_False by congruence. exact IH.
  - rewrite decide_False; [exact IH|]. unfold name_key. intros Hk. unfold member_of in Hm.
    by destruct (classify name).
Qed.

(** A member is determined by its file name. *)
Lemma member_of_filename names m :
  Forall (λ name, length name < 512)%nat names → m ∈ members_of names → member_of (mb_filename m) = Some m.
Proof.
  intros Hlen Hm. unfold members_of in Hm. apply list_elem_of_omap in Hm as (name & Hname & Hm).
  rewrite Forall_forall in Hlen. destruct (member_of_spec name m (Hlen _ Hname) Hm) as [-> _]. done.
Qed.

Lemma members_from_names (l : list member) : (∀ m, m ∈ l → member_of (mb_filename m) = Some m) → omap member_of (mb_filename <$> l) = l.
Proof.
  induction l as [|m l IH]; intros Hl; [done|]. rewrite fmap_cons. cbn [omap list_omap].
  rewrite (Hl m) by left. f_equal. apply IH. intros m' Hm'. apply Hl. by right.
Qed.

Definition set_member (s : scheme) (base : cstr) (k : nat) : member :=
  Member (scheme_kind s) base (volume_number s k) (volume_name s base k).

Lemma set_member_of s base k :
  base_ok s base → Z.of_nat k < scheme_limit s → (length (volume_name s base k) < 512)%nat →
  member_of (volume_name s base k) = Some (set_member s base k).
Proof.
  intros Hb Hk Hlen. unfold member_of. rewrite volume_classified by done. cbn [ai_kind ai_base ai_volume].
  destruct Hb as [Hb _]. by rewrite !str_fit_id by done.
Qed.

Lemma set_members_sorted s base i n :
  StronglySorted (λ a b, mb_volume a < mb_volume b) (set_member s base <$> seq i n).
Proof.
  revert i. induction n as [|n IH]; intros i; [constructor|]. cbn [seq]. rewrite fmap_cons. constructor; [apply IH|].
  apply Forall_fmap, Forall_forall. intros j Hj%elem_of_seq. cbn. destruct s; cbn; lia.
Qed.

Section one_set.
Context (qsort : list member → list member) (names : list cstr) (s : scheme) (base : cstr) (n : nat).
Context (Hq : qsort_volumes_contract qsort) (Hlen : Forall (λ name, length name < 512)%nat names).
Context (Hb : base_ok s base) (Hn : 0 < Z.of_nat n <= scheme_limit s).
Context (Hset : names_of (scheme_kind s, base) names ≡ₚ set_names s base n).

Lemma set_members : filter (λ m, key m = (scheme_kind s, base)) (members_of names) ≡ₚ set_member s base <$> seq 0 n.
Proof using Hlen Hb Hn Hset.
  rewrite <- (members_from_names (filter _ (members_of names))), members_of_key, Hset by
    (done || (intros m [_ Hm]%list_elem_of_filter; by apply (member_of_filename names))).
  rewrite <- (members_from_names (set_member s base <$> seq 0 n)).
  - by rewrite <- list_fmap_compose.
  - intros m (i & -> & Hi)%list_elem_of_fmap. apply elem_of_seq in Hi. apply set_member_of; [done|lia|].
    rewrite Forall_forall in Hlen. apply Hlen.
    assert (volume_name s base i ∈ names_of (scheme_kind s, base) names) as Hin.
    { rewrite Hset. apply list_elem_of_fmap_2. apply elem_of_seq. lia. }
    by apply list_elem_of_filter in Hin as [_ ?].
Qed.

Lemma set_inhabited : ∃ m, m ∈ members_of names ∧ key m = (scheme_kind s, base).
Proof using Hlen Hb Hn Hset.
  exists (set_member s base 0).
  assert (set_member s base 0 ∈ filter (λ m, key m = (scheme_kind s, base)) (members_of names)) as Hin.
  - rewrite set_members. apply list_elem_of_fmap_2. apply elem_of_seq. lia.
  - by apply list_elem_of_filter in Hin as [? ?].
Qed.

Lemma set_sorted l :
  key l = (scheme_kind s, base) → mb_filename <$> qsort (set_of (members_of names) l) = set_names s base n.
Proof using Hq Hlen Hb Hn Hset.
  intros Hk. assert (set_of (members_of names) l = filter (λ m, key m = (scheme_kind s, base)) (members_of names)) as ->.
  { unfold set_of. apply list_filter_iff. intros m'. rewrite same_set_true. by rewrite Hk. }
  rewrite (sorted_volumes_unique (qsort _) (set_member s base <$> seq 0 n)).
  - by rewrite <- list_fmap_compose.
  - apply sorted_volumes, Hq.
  - apply set_members_sorted.
  - by rewrite (proj1 (Hq _)), set_members.
Qed.

(** With no other archive among the files, this set is the only one. *)
Lemma single_set :
  (∀ name, name ∈ names → name_key name = None ∨ name_key name = Some (scheme_kind s, base)) →
  ∃ g, volume_sets qsort names = [g] ∧ mb_filename <$> g = set_names s base n.
Proof using Hq Hlen Hb Hn Hset.
  intros Hother. destruct set_inhabited as (m & Hm & Hk).
  destruct (leaders_cover [] (members_of names) m Hm) as (l & Hl & Hkl); [apply not_elem_of_nil|].
  assert (∀ l', l' ∈ leaders [] (members_of names) → key l' = (scheme_kind s, base)) as Hall.
  { intros l' [Hl' _]%leaders_seen. apply list_elem_of_omap in Hl' as (name & Hname & Hl').
    rewrite Forall_forall in Hlen. destruct (member_of_spec name l' (Hlen _ Hname) Hl') as [_ Hkey].
    destruct (Hother name Hname); congruence. }
  pose proof (leaders_nodup [] (members_of names)) as Hnd.
  exists (qsort (set_of (members_of names) l)). split; [|apply set_sorted; congruence].
  unfold volume_sets. rewrite group_members_spec.
  destruct (leaders [] (members_of names)) as [|l1 [|l2 ls]]; [by apply elem_of_nil in Hl| |].
  - apply list_elem_of_singleton in Hl as ->. done.
  - exfalso. rewrite !fmap_cons in Hnd. apply NoDup_cons in Hnd as [Hnew _]. apply Hnew.
    rewrite (Hall l1), (Hall l2) by (apply elem_of_cons; rewrite ?elem_of_cons; tauto). left.
Qed.
End one_set.

(** Grouping loses and invents nothing: the sets hold the recognised names
    once each; a set is not empty, its volumes are of one kind and base name
    and in ascending order; and no two sets are of the same archive. *)
Theorem volume_sets_partition (qsort : list member → list member) (names : list cstr)
    (Hq : qsort_volumes_contract qsort) :
  mjoin (volume_sets qsort names) ≡ₚ members_of names ∧
  Forall (λ g, g ≠ [] ∧ (∀ a b, a ∈ g → b ∈ g → key a = key b) ∧
               StronglySorted (λ a b, mb_volume a <= mb_volume b) g) (volume_sets qsort names) ∧
  (∀ i j g g' a b, volume_sets qsort names !! i = Some g → volume_sets qsort names !! j = Some g' →
     a ∈ g → b ∈ g' → key a = key b → i = j).
Proof.
  destruct (group_members_partition (members_of names)) as (Hjoin & Hall & Hkeys).
  assert (∀ l, qsort l ≡ₚ l) as Hperm by apply Hq. unfold volume_sets. split_and!.
  - etrans; [|exact Hjoin]. clear Hjoin Hall Hkeys. induction (group_members (members_of names)) as [|g gs IH]; [done|].
    rewrite fmap_cons, !mjoin_cons. by rewrite IH, Hperm.
  - apply Forall_fmap. eapply Forall_impl; [exact Hall|]. cbv beta. intros g [Hne Hk]. cbn. split_and!.
    + intros He. apply Hne, Permutation_nil. by rewrite <- He, Hperm.
    + intros a b. rewrite !Hperm. apply Hk.
    + apply sorted_volumes, Hq.
  - intros i j g g' a b Hi Hj. rewrite list_lookup_fmap in Hi, Hj.
    apply fmap_Some in Hi as (g0 & Hi & ->), Hj as (g1 & Hj & ->). rewrite !Hperm. by apply Hkeys.
Qed.


(** ** Instances *)

#[local] Instance cmp_volume_total : Total (λ a b, cmp_member_volume a b <= 0).
Proof. intros a b. rewrite !cmp_volume_le. lia. Qed.

#[local] Instance cmp_volume_dec : RelDecision (λ a b, cmp_member_volume a b <= 0).
Proof. intros a b. apply _. Defined.

(** A sort with the contract of [qsort]. *)
Definition merge_sort_volumes (l : list member) : list member :=
  merge_sort (λ a b, cmp_member_volume a b <= 0) l.

Lemma merge_sort_volumes_contract : qsort_volumes_contract merge_sort_volumes.
Proof.
  intros l. split; [apply merge_sort_Permutation|].
  apply (Sorted_merge_sort (λ a b, cmp_member_volume a b <= 0)).
Qed.

Definition sample_names : list cstr :=
  [$ "movie.r01"; $ "movie.nfo"; $ "movie.rar"; $ "subs.zip"; $ "movie.r00"].

Lemma volume_sets_partition_witness :
  mjoin (volume_sets merge_sort_volumes sample_names) ≡ₚ members_of sample_names.
Proof. apply (volume_sets_partition merge_sort_volumes sample_names merge_sort_volumes_contract). Defined.


(** A name that ends in a letter from ['r'] to ['z'] and a number is taken for a
    volume, whatever the number of digits. *)
Example version_suffix_is_volume :
  classify ($ "notes.v2") = Some (ArchiveId AKIND_RAR ($ "notes") 403) ∧
  classify ($ "split.z01") = Some (ArchiveId AKIND_RAR ($ "split") 802).
Proof. vm_compute. done. Qed.
