(* ===== verification/Extract.v ===== *)
(** * Extraction of a job's archives ([extract/extract.c])

    [extract_one_archive] copies the entries of one archive to the disk through
    a write buffer; [extract_job] does so for every volume set among a job's
    files and then for the archives found in what was extracted. libarchive and
    the system are the class [ExtractDisk]. *)

From Stdlib Require Import ZArith Lia List.
From Stdlib Require Import Strings.Byte Strings.String.
From stdpp Require Import base list gmap.
From S2P Require Import Prelude Cnum Paths Job Worker Rar5 Volumes.

(** ** What libarchive gives *)

(** What [archive_read_data_block] returns for [ARCHIVE_OK] and
    [ARCHIVE_WARN], which is only logged. *)
Record block := Block { bk_data : list byte; bk_offset : Z (* int64 *) }.

Inductive entry_type := Regular | Directory | Link (target : cstr).

(** An entry: its path ([None]: a null pointer), its size if it is set, and the
    blocks until the end of its data ([None]) or a read error. *)
Record lib_entry := LibEntry {
  le_path : option cstr;
  le_type : entry_type;
  le_size : option Z;
  le_blocks : list block;
  le_read_error : option cstr;
}.

(** The entries until the end of the archive ([None]) or a fatal error. *)
Record lib_archive := LibArchive { la_entries : list lib_entry; la_error : option cstr }.

(** [archive_write_header]: both other outcomes are logged. *)
Inductive header_status := HeaderDone | HeaderFailed.

(** The system calls and libarchive's reader and writer. A string on the left
    is an error text, and so is [Some] after [write_data]. The reader sees the
    volumes as they are when the archive is opened. *)
Class ExtractDisk (D : Type) := {
  disk_read : D → cstr → option (list byte);
  disk_size : D → cstr → option Z;
  disk_readdir : D → cstr → option (list cstr);
  disk_is_dir : D → cstr → bool;
  disk_statfs : D → cstr → option (Z * Z);
  disk_mkdir : D → cstr → D * mkdir_result;
  disk_remove : D → cstr → D;
  disk_chmod : D → cstr → D;
  open_filenames : D → list cstr → list cstr → cstr + lib_archive;
  open_encrypted : D → list cstr → list cstr → cstr + lib_archive;
  write_header : D → cstr → lib_entry → D * header_status;
  write_data : D → cstr → list byte → Z → D * option cstr;
  finish_entry : D → cstr → lib_entry → D;
}.

(** ** Paths of entries *)

(** The parts between slashes. *)
Fixpoint components (s : cstr) : list cstr :=
  match s with
  | [] => [[]]
  | c :: s =>
    if decide (c = slash) then [] :: components s
    else match components s with
         | x :: l => (c :: x) :: l
         | [] => [[c]]
         end
  end.

Definition segment_safe (seg : cstr) : bool :=
  negb (bool_decide (seg = [])) && negb (bool_decide (seg = $ "..")).

Definition is_safe_relpath (p : option cstr) : bool :=
  match p with
  | None | Some [] => false
  | Some (c :: s) => negb (bool_decide (c = slash)) && forallb segment_safe (components (c :: s))
  end.

(** [snprintf(full_path, 1200, "%s/%s", dir, name)] *)
Definition join_path (dir name : cstr) : cstr := str_fit 1200 (dir ++ $ "/" ++ name).

Section extract.
Context `{ExtractDisk D}.
(** The progress callback: nonzero asks to stop. *)
Context (cb : Z → Z → bool).

(** ** Copying one entry *)

Definition WRITE_COALESCE_SIZE : Z := 1024 * 1024.

(** [len] is the length of [wb_buf], [cap] always [WRITE_COALESCE_SIZE]. *)
Record write_buf := WriteBuf { wb_buf : list byte; wb_offset : Z }.

Definition empty_buf : write_buf := WriteBuf [] 0.

(** The disk, the write buffer and the bytes counted in [progress_t]. *)
Record copy_state := CopyState { cs_disk : D; cs_wb : write_buf; cs_done : Z }.

Definition write_error_text (display : cstr) (copied entry_size : Z) (msg : cstr) : cstr :=
  display ++ $ ": write error after " ++ print_dec copied ++ $ "/" ++ print_dec entry_size ++ $ " bytes: " ++ msg.

Definition read_error_text (display : cstr) (copied entry_size : Z) (msg : cstr) : cstr :=
  display ++ $ ": read error after " ++ print_dec copied ++ $ "/" ++ print_dec entry_size ++ $ " bytes: " ++ msg.

(** The error of a call, [None] for 0. *)
Definition write_buf_flush (path : cstr) (copied entry_size : Z) (st : copy_state) : copy_state * option cstr :=
  match wb_buf (cs_wb st) with
  | [] => (st, None)
  | buf =>
    match write_data (cs_disk st) path buf (wb_offset (cs_wb st)) with
    | (d, Some msg) => (CopyState d (cs_wb st) (cs_done st), Some (write_error_text path copied entry_size msg))
    | (d, None) => (CopyState d (WriteBuf [] (wb_offset (cs_wb st))) (cs_done st), None)
    end
  end.

(** Steps that stop at the first error. *)
Definition and_then (r : copy_state * option cstr) (f : copy_state → copy_state * option cstr)
    : copy_state * option cstr :=
  match r with (st, None) => f st | (st, Some e) => (st, Some e) end.

Definition buf_len (st : copy_state) : Z := Z.of_nat (length (wb_buf (cs_wb st))).

(** One block: flush what is not contiguous, then write or buffer it. *)
Definition copy_block (path : cstr) (copied entry_size : Z) (b : block) (st : copy_state)
    : copy_state * option cstr :=
  let size := Z.of_nat (length (bk_data b)) in
  let flush := write_buf_flush path copied entry_size in
  and_then
    (if (0 <? buf_len st) && negb (bk_offset b =? s64 (wb_offset (cs_wb st) + buf_len st)) then flush st else (st, None))
    (λ st,
      if WRITE_COALESCE_SIZE <=? size then
        and_then (flush st) (λ st,
          match write_data (cs_disk st) path (bk_data b) (bk_offset b) with
          | (d, Some msg) => (CopyState d (cs_wb st) (cs_done st), Some (write_error_text path copied entry_size msg))
          | (d, None) => (CopyState d (cs_wb st) (cs_done st), None)
          end)
      else
        and_then (if WRITE_COALESCE_SIZE <? buf_len st + size then flush st else (st, None)) (λ st,
          let offset := if buf_len st =? 0 then bk_offset b else wb_offset (cs_wb st) in
          (CopyState (cs_disk st) (WriteBuf (wb_buf (cs_wb st) ++ bk_data b) offset) (cs_done st), None))).

(** [report_progress] *)
Definition report_progress (total n : Z) (st : copy_state) : copy_state * bool :=
  let done := cs_done st + n in
  (CopyState (cs_disk st) (cs_wb st) done, cb done total).

Fixpoint copy_blocks (path : cstr) (total entry_size : Z) (read_error : option cstr) (blocks : list block)
    (copied : Z) (st : copy_state) : copy_state * option cstr :=
  match blocks with
  | [] =>
    match read_error with
    | None => write_buf_flush path copied entry_size st
    | Some msg => (st, Some (read_error_text path copied entry_size msg))
    end
  | b :: blocks =>
    and_then (copy_block path copied entry_size b st) (λ st,
      let copied := copied + Z.of_nat (length (bk_data b)) in
      let '(st, stop) := report_progress total (Z.of_nat (length (bk_data b))) st in
      if stop then (st, Some (path ++ $ ": extraction aborted"))
      else copy_blocks path total entry_size read_error blocks copied st)
  end.

Definition copy_data (path : cstr) (total entry_size : Z) (e : lib_entry) (st : copy_state)
    : copy_state * option cstr :=
  copy_blocks path total entry_size (le_read_error e) (le_blocks e) 0 st.

(** ** One archive *)

(** [archive_entry_size]: 0 when it is not set. *)
Definition archive_entry_size (e : lib_entry) : Z := default 0 (le_size e).

(** One turn of the loop over the entries: the error that ends it, and whether
    the entry counts as written. *)
Definition extract_entry (dest_dir : cstr) (total : Z) (e : lib_entry) (st : copy_state)
    : copy_state * option cstr * bool :=
  if negb (is_safe_relpath (le_path e)) then (st, None, false)
  else
    let full_path := join_path dest_dir (default [] (le_path e)) in
    match write_header (cs_disk st) full_path e with
    | (d, HeaderFailed) => (CopyState d (cs_wb st) (cs_done st), None, false)
    | (d, HeaderDone) =>
      let st := CopyState d (cs_wb st) (cs_done st) in
      let '(st, err) :=
        if 0 <? archive_entry_size e then copy_data full_path total (archive_entry_size e) e st else (st, None) in
      match err with
      | Some err => (st, Some err, false)
      | None =>
        let d := disk_chmod (finish_entry (cs_disk st) full_path e) full_path in
        (CopyState d (cs_wb st) (cs_done st), None, true)
      end
    end.

(** The loop: with the counts [entries_seen] and [entries_written]. *)
Fixpoint extract_entries (dest_dir display : cstr) (total : Z) (entries : list lib_entry) (error : option cstr)
    (seen written : nat) (st : copy_state) : copy_state * option cstr * nat * nat :=
  match entries with
  | [] =>
    match error with
    | None => (st, None, seen, written)
    | Some msg => (st, Some (display ++ $ ": " ++ msg), seen, written)
    end
  | e :: entries =>
    match extract_entry dest_dir total e st with
    | (st, Some err, _) => (st, Some err, S seen, written)
    | (st, None, w) =>
      extract_entries dest_dir display total entries error (S seen) (if w then S written else written) st
    end
  end.

Definition open_archive (d : D) (passwords volumes : list cstr) : cstr + lib_archive :=
  if rar5_headers_encrypted (disk_read d (hd [] volumes)) then open_encrypted d passwords volumes
  else open_filenames d passwords volumes.

(** The disk, the bytes counted, and the error, [None] for 0. *)
Definition extract_one_archive (volumes : list cstr) (dest_dir : cstr) (passwords : list cstr) (total : Z)
    (d : D) (done : Z) : D * Z * option cstr :=
  let display := hd [] volumes in
  match open_archive d passwords volumes with
  | inl msg => (d, done, Some ($ "could not open " ++ display ++ $ ": " ++ msg))
  | inr a =>
    let '(st, err, seen, written) :=
      extract_entries dest_dir display total (la_entries a) (la_error a) 0 0 (CopyState d empty_buf done) in
    let err :=
      match err with
      | Some e => Some e
      | None =>
        if (0 <? seen)%nat && (written =? 0)%nat
        then Some (display ++ $ ": all " ++ print_dec (Z.of_nat seen) ++ $ " entries failed to extract")
        else None
      end in
    (cs_disk st, cs_done st, err)
  end.

(** -1 when the archive cannot be opened; a fatal error later only ends the
    sum. *)
Definition peek_archive_total_bytes (volumes passwords : list cstr) (d : D) : Z :=
  match open_archive d passwords volumes with
  | inl _ => -1
  | inr a =>
    foldl (λ total e, match le_size e with Some n => s64 (total + n) | None => total end) 0 (la_entries a)
  end.

(** The sum of [st_size] over the volumes [stat] answers for. *)
Definition on_disk_bytes (d : D) (paths : list cstr) (total : Z) : Z :=
  foldl (λ t p, match disk_size d p with Some n => s64 (t + n) | None => t end) total paths.

(** ** Archives inside what was extracted *)

Definition NESTED_EXTRACT_MAX_DEPTH : nat := 5.

(** The names in a directory and whether they are directories. *)
Definition scan_dir_entries (d : D) (dir : cstr) : option (list (cstr * bool)) :=
  match disk_readdir d dir with
  | None => None
  | Some names =>
    Some (omap (λ name,
      if bool_decide (name = $ ".") || bool_decide (name = $ "..") then None
      else Some (str_fit 512 name, disk_is_dir d (join_path dir name))) names)
  end.

Context (qsort : list member → list member).

Fixpoint walk_nested_archives {C} (disk_of : C → D) (fn : cstr → list cstr → C → C) (depth : nat) (dir : cstr)
    (c : C) : C :=
  match depth with
  | O => c
  | S depth =>
    match scan_dir_entries (disk_of c) dir with
    | None => c
    | Some entries =>
      let files := fst <$> filter (λ e, e.2 = false) entries in
      let c := foldl (λ c g, fn dir (join_path dir <$> (mb_filename <$> g)) c) c (volume_sets qsort files) in
      foldl (λ c '(name, is_dir),
        if (is_dir : bool) then walk_nested_archives disk_of fn depth (join_path dir name) c else c) c entries
    end
  end.

(** The first walk, which only reads. *)
Definition size_group_fn (passwords : list cstr) (d : D) (dir : cstr) (paths : list cstr) (total : Z) : Z :=
  let bytes := peek_archive_total_bytes paths passwords d in
  if 0 <=? bytes then s64 (total + bytes) else on_disk_bytes d paths total.

Definition nested_total (passwords : list cstr) (dest_dir : cstr) (d : D) : Z :=
  walk_nested_archives (λ _, d) (size_group_fn passwords d) NESTED_EXTRACT_MAX_DEPTH dest_dir 0.

(** The second walk. *)
Record nested_ctx := NestedCtx {
  nc_disk : D;
  nc_done : Z;
  nc_error : option cstr;  (* [failed] and [err[256]] *)
}.

Definition extract_group_fn (passwords : list cstr) (total : Z) (dir : cstr) (paths : list cstr) (c : nested_ctx)
    : nested_ctx :=
  let '(d, done, err) := extract_one_archive paths dir passwords total (nc_disk c) (nc_done c) in
  match err with
  | None => NestedCtx (foldl disk_remove d paths) done (nc_error c)
  | Some e =>
    let text := str_fit 256 ($ "nested archive inside " ++ dir ++ $ " failed: " ++ str_fit 256 e) in
    NestedCtx d done (Some (default text (nc_error c)))
  end.

Definition extract_nested (passwords : list cstr) (dest_dir : cstr) (d : D) : D * extract_result :=
  let total := nested_total passwords dest_dir d in
  if 0 <? total then
    let free := path_free_bytes (disk_statfs d) dest_dir in
    if (0 <=? free) && (free <? total) then
      (d, EXTRACT_FAILED ($ "insufficient disk space to extract nested archive: " ++ print_dec total ++
                          $ " bytes needed, " ++ print_dec free ++ $ " available"))
    else
      let c := walk_nested_archives nc_disk (extract_group_fn passwords total) NESTED_EXTRACT_MAX_DEPTH dest_dir
                 (NestedCtx d 0 None) in
      (nc_disk c, match nc_error c with Some e => EXTRACT_FAILED e | None => EXTRACT_OK end)
  else (d, EXTRACT_OK).

(** ** The job *)

(** The path of a volume in the job's directory. *)
Definition volume_path (src_dir name : cstr) : cstr :=
  str_fit 900 (src_dir ++ $ "/" ++ path_sanitize_component (str_fit 512 name) 512).

(** One volume set: the disk, [done] and [total], and the error. *)
Definition extract_set (passwords : list cstr) (src_dir dest_dir : cstr) (g : list member) (d : D) (done total : Z)
    : D * Z * Z * option cstr :=
  let paths := volume_path src_dir <$> (mb_filename <$> g) in
  let peeked := peek_archive_total_bytes paths passwords d in
  let group_bytes := if peeked <? 0 then on_disk_bytes d paths 0 else peeked in
  let total := s64 (total + group_bytes) in
  let free := path_free_bytes (disk_statfs d) dest_dir in
  if (0 <=? free) && (free <? group_bytes) then
    (d, done, total,
     Some ($ "insufficient disk space to extract " ++ hd [] (mb_filename <$> g) ++ $ ": " ++ print_dec group_bytes ++
           $ " bytes needed, " ++ print_dec free ++ $ " available"))
  else
    let '(d, done, err) := extract_one_archive paths dest_dir passwords total d done in
    (d, done, total, err).

(** The loop over the sets; the directory is made before the first. *)
Fixpoint extract_sets (passwords : list cstr) (src_dir dest_dir : cstr) (sets : list (list member)) (dir_ready : bool)
    (d : D) (done total : Z) : D * option cstr :=
  match sets with
  | [] => (d, None)
  | g :: sets =>
    let '(d, ready) := if dir_ready then (d, true) else mkdir_p disk_mkdir d dest_dir in
    if negb ready then (d, Some ($ "could not create extraction directory " ++ dest_dir))
    else
      match extract_set passwords src_dir dest_dir g d done total with
      | (d, _, _, Some e) => (d, Some e)
      | (d, done, total, None) => extract_sets passwords src_dir dest_dir sets true d done total
      end
  end.

Definition extract_job (j : job) (src_dir dest_dir : cstr) (d : D) : D * extract_result :=
  match volume_sets qsort (jf_filename <$> j_files j) with
  | [] => (d, EXTRACT_NONE)
  | sets =>
    match extract_sets (j_passwords j) src_dir dest_dir sets false d 0 0 with
    | (d, Some e) => (d, EXTRACT_FAILED e)
    | (d, None) => extract_nested (j_passwords j) dest_dir d
    end
  end.
End extract.
