(* ===== verification/ExtractFrame.v ===== *)
(** * Where an extraction writes ([extract/extract.c])

    On a disk without symbolic links, [extract_job] changes no file outside the
    directory it extracts into, whatever the archives hold. With links it does. *)

From Stdlib Require Import ZArith Lia List.
From Stdlib Require Import Strings.Byte Strings.String.
From stdpp Require Import base list gmap.
From S2P Require Import Prelude Cnum Paths Job Worker Rar5 Volumes Extract.

(** ** Paths *)

(** A path has a [".."] component; otherwise, and where no link is on the way,
    it names the file [resolve] says. *)
Definition dotdot (p : cstr) : Prop := $ ".." ∈ components p.

Definition resolve (p : cstr) : list cstr :=
  filter (λ c, negb (bool_decide (c = [])) && negb (bool_decide (c = $ ".")) = true) (components p).

Lemma components_app a b : components (a ++ $ "/" ++ b) = components a ++ components b.
Proof.
  induction a as [|c a IH]; [reflexivity|]. cbn [app components]. rewrite IH.
  case_decide; [done|]. destruct (components a) as [|x l] eqn:E; [|done].
  exfalso. destruct a as [|c' a]; [done|]. cbn in E. case_decide; [done|]. by destruct (components a).
Qed.

Lemma components_nonempty s : components s ≠ [].
Proof. destruct s as [|c s]; [done|]. cbn. case_decide; [done|]. by destruct (components s). Qed.

Lemma resolve_app a b : resolve (a ++ $ "/" ++ b) = resolve a ++ resolve b.
Proof. unfold resolve. by rewrite components_app, filter_app. Qed.

Lemma dotdot_app a b : dotdot (a ++ $ "/" ++ b) ↔ dotdot a ∨ dotdot b.
Proof. unfold dotdot. rewrite components_app. apply elem_of_app. Qed.

Lemma plain_component name : slash ∉ name → components name = [name].
Proof.
  induction name as [|c s IH]; intros Hs; [done|]. cbn. rewrite decide_False by (intros ->; apply Hs; left).
  rewrite IH; [done|]. intros Hin. apply Hs. by right.
Qed.

Lemma join_fits dir name :
  (length dir + S (length name) < 1200)%nat → join_path dir name = dir ++ $ "/" ++ name.
Proof. intros Hl. unfold join_path. apply str_fit_id. rewrite !length_app. exact Hl. Qed.

(** A path below a directory, as far as the text goes. *)
Definition textually_below (dir p : cstr) : Prop := ∃ rel, p = dir ++ $ "/" ++ rel.

Definition inside (dir p : cstr) : Prop := p = dir ∨ textually_below dir p.

(** A path of 1199 bytes still shows the directory it is in. *)
Lemma join_inside dest dir name :
  (length dest < 1199)%nat → inside dest dir → inside dest (join_path dir name).
Proof.
  intros Hl Hdir. unfold join_path, str_fit.
  assert (∃ rel, dir ++ $ "/" ++ name = dest ++ $ "/" ++ rel) as [rel ->].
  { destruct Hdir as [->|[rel ->]]; [by exists name|]. exists (rel ++ $ "/" ++ name). by rewrite <- !app_assoc. }
  right. exists (take (1199 - length dest - 1) rel).
  rewrite take_app_ge by lia. f_equal. change ($ "/") with [slash]. cbn [app].
  replace (1200 - 1 - length dest)%nat with (S (1199 - length dest - 1))%nat by lia. done.
Qed.

Lemma inside_resolve dest p : inside dest p → resolve dest `prefix_of` resolve p.
Proof.
  intros [->|[rel ->]]; [done|]. rewrite resolve_app. by apply prefix_app_r.
Qed.

(** ** Disks without links *)

(** What the calls leave alone. [disk_file] is the content of a file by the
    components of its path; a path with [".."] in it is refused by the writer
    ([ARCHIVE_EXTRACT_SECURE_NODOTDOT]); names in a directory hold no slash,
    and paths on the disk are shorter than the buffers ([PATH_MAX] is 1024). *)
Class DiskFrame (D : Type) `{ExtractDisk D} := {
  disk_file : D → list cstr → option (list byte);
  mkdir_frame d p f : disk_file (disk_mkdir d p).1 f = disk_file d f;
  chmod_frame d p f : disk_file (disk_chmod d p) f = disk_file d f;
  remove_frame d p f : (¬ dotdot p) → f ≠ resolve p → disk_file (disk_remove d p) f = disk_file d f;
  header_dotdot d p e : dotdot p → write_header d p e = (d, HeaderFailed);
  header_frame d p e f : (¬ dotdot p) → f ≠ resolve p → disk_file (write_header d p e).1 f = disk_file d f;
  data_frame d p b off f : (¬ dotdot p) → f ≠ resolve p → disk_file (write_data d p b off).1 f = disk_file d f;
  finish_frame d p e f : (¬ dotdot p) → f ≠ resolve p → disk_file (finish_entry d p e) f = disk_file d f;
  readdir_plain d dir names name :
    disk_readdir d dir = Some names → name ∈ names → (slash ∉ name) ∧ (length dir + S (length name) < 1200)%nat;
}.

(** ** Every step stays inside *)

Section steps.
Context `{DiskFrame D}.
Context (cb : Z → Z → bool) (Q : list cstr → Prop).

(** The files of [Q] are those of before. *)
Definition keeps_files_of (d d' : D) : Prop := ∀ f, Q f → disk_file d' f = disk_file d f.

#[export] Instance keeps_files_preorder : PreOrder keeps_files_of.
Proof. split; [by intros d f|]. intros d1 d2 d3 H12 H23 f Hf. by rewrite H23, H12. Qed.

(** A path that names none of them. *)
Definition avoids (p : cstr) : Prop := (¬ dotdot p) ∧ ¬ Q (resolve p).

Lemma avoids_differs p f : avoids p → Q f → f ≠ resolve p.
Proof. intros [_ Hp] Hf ->. done. Qed.

Lemma data_keeps d p b off : avoids p → keeps_files_of d (write_data d p b off).1.
Proof. intros Hp f Hf. apply data_frame; [apply Hp|by apply avoids_differs]. Qed.

Lemma flush_keeps p copied size st :
  avoids p → keeps_files_of (cs_disk st) (cs_disk (write_buf_flush p copied size st).1).
Proof.
  intros Hp. unfold write_buf_flush. destruct (wb_buf (cs_wb st)) as [|x buf] eqn:E; [done|].
  pose proof (data_keeps (cs_disk st) p (x :: buf) (wb_offset (cs_wb st)) Hp) as Hd.
  by destruct (write_data _ _ _ _) as [d' [msg|]].
Qed.

Lemma and_then_keeps r f d :
  keeps_files_of d (cs_disk r.1) → (∀ st, r = (st, None) → keeps_files_of (cs_disk st) (cs_disk (f st).1)) →
  keeps_files_of d (cs_disk (and_then r f).1).
Proof. destruct r as [st [e|]]; intros Hr Hf; cbn; [done|]. etrans; [exact Hr|by apply Hf]. Qed.

Lemma copy_block_keeps p copied size b st :
  avoids p → keeps_files_of (cs_disk st) (cs_disk (copy_block p copied size b st).1).
Proof.
  intros Hp. unfold copy_block. apply and_then_keeps.
  - case_match; [by apply flush_keeps|done].
  - intros st1 _. case_match.
    + apply and_then_keeps; [by apply flush_keeps|]. intros st2 _.
      pose proof (data_keeps (cs_disk st2) p (bk_data b) (bk_offset b) Hp) as Hd.
      by destruct (write_data _ _ _ _) as [d' [msg|]].
    + apply and_then_keeps; [case_match; [by apply flush_keeps|done]|]. by intros st2 _.
Qed.

Lemma copy_blocks_keeps p total size re blocks copied st :
  avoids p → keeps_files_of (cs_disk st) (cs_disk (copy_blocks cb p total size re blocks copied st).1).
Proof.
  intros Hp. revert copied st. induction blocks as [|b blocks IH]; intros copied st; cbn [copy_blocks].
  - destruct re; [done|by apply flush_keeps].
  - apply and_then_keeps; [by apply copy_block_keeps|]. intros st1 _. cbn [report_progress].
    case_match; [done|]. apply (IH _ (CopyState (cs_disk st1) _ _)).
Qed.

(** [write_header] refuses a path with [".."]. *)
Lemma header_keeps d p e :
  (¬ Q (resolve p)) → keeps_files_of d (write_header d p e).1 ∧ ((write_header d p e).2 = HeaderDone → avoids p).
Proof.
  intros Hp. destruct (decide (dotdot p)) as [Hd|Hd]; [by rewrite header_dotdot|].
  split; [|by split]. intros f Hf. apply header_frame; [done|]. by intros ->.
Qed.

Lemma extract_entry_keeps dir total e st :
  (¬ Q (resolve (join_path dir (default [] (le_path e))))) →
  keeps_files_of (cs_disk st) (cs_disk (extract_entry cb dir total e st).1.1).
Proof.
  intros Hdir. unfold extract_entry. case_match; [done|].
  set (p := join_path dir (default [] (le_path e))) in *.
  destruct (header_keeps (cs_disk st) p e Hdir) as [Hh Hin].
  destruct (write_header (cs_disk st) p e) as [d []]; [|done]. cbn [fst snd] in Hh, Hin. specialize (Hin eq_refl).
  assert (∀ st1, keeps_files_of d (cs_disk st1) →
    keeps_files_of (cs_disk st) (disk_chmod (finish_entry (cs_disk st1) p e) p)) as Hend.
  { intros st1 Hst1 f Hf. rewrite chmod_frame, finish_frame; [|apply Hin|by apply avoids_differs].
    by rewrite Hst1, Hh. }
  destruct (0 <? archive_entry_size e); [|by apply (Hend (CopyState d (cs_wb st) (cs_done st)))]. unfold copy_data.
  pose proof (copy_blocks_keeps p total (archive_entry_size e) (le_read_error e) (le_blocks e) 0
    (CopyState d (cs_wb st) (cs_done st)) Hin) as Hc.
  destruct (copy_blocks _ _ _ _ _ _ _ _) as [st1 [err|]]; cbn [fst snd cs_disk] in *; [by etrans|by apply Hend].
Qed.
End steps.

Section frame.
Context `{DiskFrame D}.
Context (cb : Z → Z → bool) (qsort : list member → list member).
Context (dest : cstr).
Context (Hq : qsort_volumes_contract qsort) (Hdest : ¬ dotdot dest) (Hlen : (length dest < 1199)%nat).

(** The files outside the directory. *)
Definition outside (f : list cstr) : Prop := ¬ resolve dest `prefix_of` f.

Definition keeps_outside : D → D → Prop := keeps_files_of outside.

#[local] Instance keeps_outside_preorder : PreOrder keeps_outside := keeps_files_preorder outside.

(** The paths the program writes to. *)
Definition within (p : cstr) : Prop := inside dest p ∧ ¬ dotdot p.

Lemma inside_not_outside p : inside dest p → ¬ outside (resolve p).
Proof. intros Hp Hf. apply Hf. by apply inside_resolve. Qed.

Lemma outside_differs p f : within p → outside f → f ≠ resolve p.
Proof. intros [Hp _] Hf ->. by apply (inside_not_outside p). Qed.

Lemma extract_entries_outside dir display total entries error seen written st :
  inside dest dir →
  keeps_outside (cs_disk st) (cs_disk (extract_entries cb dir display total entries error seen written st).1.1.1).
Proof.
  intros Hdir. revert seen written st. induction entries as [|e entries IH]; intros seen written st; cbn [extract_entries].
  - by destruct error.
  - assert (keeps_outside (cs_disk st) (cs_disk (extract_entry cb dir total e st).1.1)) as He.
    { apply extract_entry_keeps, inside_not_outside. by apply join_inside. }
    destruct (extract_entry cb dir total e st) as [[st1 [err|]] w]; cbn in *; [done|]. etrans; [exact He|apply IH].
Qed.

Lemma extract_one_archive_outside volumes dir passwords total d n :
  inside dest dir → keeps_outside d (extract_one_archive cb volumes dir passwords total d n).1.1.
Proof.
  intros Hdir. unfold extract_one_archive. destruct (open_archive d passwords volumes) as [msg|a]; [done|].
  pose proof (extract_entries_outside dir (hd [] volumes) total (la_entries a) (la_error a) 0 0
    (CopyState d empty_buf n) Hdir) as He.
  by destruct (extract_entries _ _ _ _ _ _ _ _ _) as [[[st err] seen] written].
Qed.

(** ** The walk *)

Definition plain_name (name : cstr) : Prop := (slash ∉ name) ∧ name ≠ $ "..".

Lemma join_within dir name :
  within dir → plain_name name → (length dir + S (length name) < 1200)%nat → within (join_path dir name).
Proof.
  intros [Hin Hd] [Hs Hn] Hl. split; [by apply join_inside|].
  rewrite join_fits by done.
  rewrite dotdot_app. intros [?|Hdd]; [done|]. unfold dotdot in Hdd. rewrite plain_component in Hdd by done.
  by apply list_elem_of_singleton in Hdd.
Qed.

Lemma str_fit_plain n name : (4 <= n)%nat → plain_name name → plain_name (str_fit n name).
Proof.
  intros Hn [Hs Hd]. unfold str_fit. split.
  - intros Hin. apply Hs. rewrite <- (take_drop (n - 1) name). apply elem_of_app. by left.
  - intros E. destruct (decide (length name <= n - 1)%nat); [rewrite take_ge in E by lia; done|].
    apply (f_equal length) in E. rewrite length_take in E. cbn in E. lia.
Qed.

Lemma scan_dir_plain d dir entries name b :
  scan_dir_entries d dir = Some entries → (name, b) ∈ entries →
  plain_name name ∧ (length dir + S (length name) < 1200)%nat.
Proof.
  unfold scan_dir_entries. destruct (disk_readdir d dir) as [names|] eqn:E; [|done]. intros [= <-] Hin.
  apply list_elem_of_omap in Hin as (name' & Hin & Hsome). case_match eqn:Hdot; [done|].
  apply orb_false_iff in Hdot as [_ Hdot%bool_decide_eq_false].
  injection Hsome as <- _. destruct (readdir_plain d dir names name' E Hin) as [Hs Hl].
  split; [by apply str_fit_plain; [lia|]|]. unfold str_fit. rewrite length_take. lia.
Qed.

(** A walk whose callback keeps what is outside keeps it. *)
Lemma walk_outside {C} (disk_of : C → D) (fn : cstr → list cstr → C → C) depth dir c :
  (∀ dir paths c, within dir → Forall within paths → keeps_outside (disk_of c) (disk_of (fn dir paths c))) →
  within dir →
  keeps_outside (disk_of c) (disk_of (walk_nested_archives qsort disk_of fn depth dir c)).
Proof.
  intros Hfn. revert dir c. induction depth as [|depth IH]; intros dir c Hdir; cbn [walk_nested_archives]; [done|].
  destruct (scan_dir_entries (disk_of c) dir) as [entries|] eqn:Hscan; [|done].
  pose proof (λ name b, scan_dir_plain (disk_of c) dir entries name b Hscan) as Hplain. clear Hscan.
  set (files := fst <$> filter _ entries).
  assert (∀ g m, g ∈ volume_sets qsort files → m ∈ g → within (join_path dir (mb_filename m))) as Hsets.
  { intros g m Hg Hm. destruct (volume_sets_names qsort files g m Hq Hg Hm) as (name & Hname & ->).
    apply list_elem_of_fmap in Hname as ([name' b] & -> & Hname). apply list_elem_of_filter in Hname as [_ Hname].
    destruct (Hplain name' b Hname) as [Hp Hl]. cbn [fst].
    apply join_within; [done|by apply str_fit_plain; [lia|]|]. unfold str_fit. rewrite length_take. lia. }
  set (c1 := foldl _ c (volume_sets qsort files)).
  assert (keeps_outside (disk_of c) (disk_of c1)) as Hc1.
  { unfold c1. clear c1. induction (volume_sets qsort files) as [|g gs IHg] using rev_ind; [done|].
    rewrite foldl_snoc. etrans.
    - apply IHg. intros g' m Hg' Hm. apply (Hsets g'); [|done]. apply elem_of_app. by left.
    - apply Hfn; [done|]. apply Forall_fmap, Forall_fmap, Forall_forall. intros m Hm. cbn.
      apply (Hsets g); [|done]. apply elem_of_app. right. by apply list_elem_of_singleton. }
  etrans; [exact Hc1|]. clearbody c1. clear Hc1 Hsets. revert c1.
  induction entries as [|[name b] entries IHe]; intros c1; [done|]. cbn [foldl].
  etrans; [|apply IHe; intros; apply Hplain with b0; by right]. destruct b; [|done].
  apply IH. destruct (Hplain name true) as [Hp Hl]; [left|]. by apply join_within.
Qed.

Lemma extract_group_outside passwords total dir paths c :
  within dir → Forall within paths →
  keeps_outside (nc_disk c) (nc_disk (extract_group_fn cb passwords total dir paths c)).
Proof.
  intros [Hdir _] Hpaths. unfold extract_group_fn.
  pose proof (extract_one_archive_outside paths dir passwords total (nc_disk c) (nc_done c) Hdir) as Ho.
  destruct (extract_one_archive _ _ _ _ _ _ _) as [[d n] [e|]]; [done|]. cbn in *.
  etrans; [exact Ho|]. clear Ho. revert d. induction Hpaths as [|p paths Hp _ IH]; intros d; [done|]. cbn [foldl].
  etrans; [|apply IH]. intros f Hf. apply remove_frame; [apply Hp|by apply outside_differs].
Qed.

Lemma dest_within : within dest.
Proof. split; [by left|done]. Qed.

Lemma extract_nested_outside passwords d : keeps_outside d (extract_nested cb qsort passwords dest d).1.
Proof.
  unfold extract_nested. case_match; [|done]. case_match; [done|]. cbn [fst].
  apply (walk_outside nc_disk _ _ _ (NestedCtx d 0 None)); [|exact dest_within].
  intros dir paths c. apply extract_group_outside.
Qed.

Lemma mkdir_outside d : keeps_outside d (mkdir_p disk_mkdir d dest).1.
Proof.
  unfold mkdir_p. generalize (mkdir_p_calls dest). intros calls. revert d.
  induction calls as [|p calls IH]; intros d; [done|]. cbn [mkdir_all].
  assert (keeps_outside d (disk_mkdir d p).1) as Hm by (intros f _; apply mkdir_frame).
  destruct (disk_mkdir d p) as [d' []]; [by etrans|by etrans|done].
Qed.

Lemma extract_set_outside passwords src_dir g d n total :
  keeps_outside d (extract_set cb passwords src_dir dest g d n total).1.1.1.
Proof.
  unfold extract_set. destruct (_ && _); [done|].
  match goal with |- context [extract_one_archive cb ?v dest passwords ?t d n] =>
    pose proof (extract_one_archive_outside v dest passwords t d n (or_introl eq_refl)) as Ho;
    by destruct (extract_one_archive cb v dest passwords t d n) as [[d2 n2] e] end.
Qed.

Lemma extract_sets_outside passwords src_dir sets ready d n total :
  keeps_outside d (extract_sets cb passwords src_dir dest sets ready d n total).1.
Proof.
  revert ready d n total. induction sets as [|g sets IH]; intros ready d n total; [done|]. cbn [extract_sets].
  assert (keeps_outside d (if ready then (d, true) else mkdir_p disk_mkdir d dest).1) as Hm.
  { destruct ready; [done|apply mkdir_outside]. }
  destruct (if ready then _ else _) as [d1 r]. cbn in Hm. etrans; [exact Hm|]. clear Hm.
  destruct r; [|done]. cbn [negb]. pose proof (extract_set_outside passwords src_dir g d1 n total) as Ho.
  destruct (extract_set _ _ _ _ _ _ _ _) as [[[d2 n2] t2] [e|]]; [done|]. cbn [fst] in Ho. etrans; [exact Ho|apply IH].
Qed.

Lemma extract_job_outside j src_dir d : keeps_outside d (extract_job cb qsort j src_dir dest d).1.
Proof.
  unfold extract_job. destruct (volume_sets qsort _) as [|g sets]; [done|].
  pose proof (extract_sets_outside (j_passwords j) src_dir (g :: sets) false d 0 0) as Hs.
  destruct (extract_sets _ _ _ _ _ _ _ _ _) as [d1 [e|]]; [done|]. cbn in Hs. etrans; [exact Hs|].
  apply extract_nested_outside.
Qed.
End frame.

(** ** Two disks *)

(** Regular files only; [lib] is what libarchive reads from the volumes. *)
Abbreviation plain := (gmap (list cstr) (list byte)).

Section plain_disk.
Context (lib : list cstr → lib_archive).

Definition plain_names (d : plain) (dir : cstr) : list cstr :=
  remove_dups (omap (λ f, match drop (length (resolve dir)) f with
                     | name :: _ => if bool_decide (resolve dir `prefix_of` f) && bool_decide (slash ∉ name) &&
                                       (length dir + S (length name) <? 1200)%nat then Some name else None
                     | [] => None end) (map_to_list d).*1).

#[local] Instance dotdot_dec p : Decision (dotdot p).
Proof. unfold dotdot. apply _. Defined.

#[export] Instance plain_disk : ExtractDisk plain := {
  disk_read d p := d !! resolve p;
  disk_size d p := Z.of_nat ∘ length <$> d !! resolve p;
  disk_readdir d dir := Some (plain_names d dir);
  disk_is_dir d p := bool_decide (d !! resolve p = None);
  disk_statfs d p := None;
  disk_mkdir d p := (d, MkdirOk);
  disk_remove d p := delete (resolve p) d;
  disk_chmod d p := d;
  open_filenames d passwords volumes := inr (lib volumes);
  open_encrypted d passwords volumes := inr (lib volumes);
  write_header d p e :=
    if decide (dotdot p) then (d, HeaderFailed)
    else match le_type e with
         | Regular => (<[resolve p := []]> d, HeaderDone)
         | Directory => (d, HeaderDone)
         | Link _ => (d, HeaderFailed)
         end;
  write_data d p b off := (alter (λ c, pwrite c (Z.to_nat off) b) (resolve p) d, None);
  finish_entry d p e := d;
}.

#[export] Program Instance plain_frame : DiskFrame plain := { disk_file d f := d !! f }.
Next Obligation. done. Qed.
Next Obligation. done. Qed.
Next Obligation. intros d p f _ Hf. cbn. by rewrite lookup_delete_ne. Qed.
Next Obligation. intros d p e Hd. cbn. by rewrite decide_True. Qed.
Next Obligation.
  intros d p e f Hd Hf. cbn. rewrite decide_False by done. destruct (le_type e); cbn; [|done|done].
  by rewrite lookup_insert_ne.
Qed.
Next Obligation. intros d p b off f _ Hf. cbn. by rewrite lookup_alter_ne. Qed.
Next Obligation. done. Qed.
Next Obligation.
  intros d dir names name [= <-] Hin. unfold plain_names in Hin. rewrite elem_of_remove_dups in Hin.
  apply list_elem_of_omap in Hin as (f & _ & Hf). case_match; [done|]. case_match eqn:Hb; [|done]. injection Hf as ->.
  rewrite !andb_true_iff, !bool_decide_eq_true, Nat.ltb_lt in Hb. tauto.
Qed.
End plain_disk.

(** Files and symbolic links. A link on the way is followed; the writer replaces
    one at the end of a path. *)
Inductive object := FileObject (data : list byte) | LinkObject (target : cstr).

Abbreviation linked := (gmap (list cstr) object).

Section link_disk.
Context (lib : list cstr → lib_archive).

(** The file a path names: at most [fuel] links are followed. *)
Fixpoint follow (fuel : nat) (d : linked) (seen rest : list cstr) : list cstr :=
  match fuel, rest with
  | S fuel, x :: (_ :: _) as tl =>
    match d !! (seen ++ [x]) with
    | Some (LinkObject target) => follow fuel d [] (resolve target ++ tail rest)
    | _ => follow fuel d (seen ++ [x]) (tail rest)
    end
  | _, _ => seen ++ rest
  end.

Definition place (d : linked) (p : cstr) : list cstr := follow 64 d [] (resolve p).

Definition file_at (d : linked) (f : list cstr) : option (list byte) :=
  match d !! f with Some (FileObject data) => Some data | _ => None end.

#[export] Instance link_disk : ExtractDisk linked := {
  disk_read d p := file_at d (place d p);
  disk_size d p := Z.of_nat ∘ length <$> file_at d (place d p);
  disk_readdir d dir := Some [];
  disk_is_dir d p := false;
  disk_statfs d p := None;
  disk_mkdir d p := (d, MkdirOk);
  disk_remove d p := delete (place d p) d;
  disk_chmod d p := d;
  open_filenames d passwords volumes := inr (lib volumes);
  open_encrypted d passwords volumes := inr (lib volumes);
  write_header d p e :=
    if bool_decide (dotdot p) then (d, HeaderFailed)
    else match le_type e with
         | Regular => (<[place d p := FileObject []]> d, HeaderDone)
         | Directory => (d, HeaderDone)
         | Link target => (<[place d p := LinkObject target]> d, HeaderDone)
         end;
  write_data d p b off :=
    (alter (λ o, match o with FileObject c => FileObject (pwrite c (Z.to_nat off) b) | _ => o end) (place d p) d, None);
  finish_entry d p e := d;
}.
End link_disk.

(** ** Properties *)


Definition never_stop : Z → Z → bool := λ _ _, false.

Definition sample_entry : lib_entry :=
  LibEntry (Some ($ "game/eboot.bin")) Regular (Some 3) [Block [x01; x02] 0; Block [x03] 2] None.

Definition hostile_entry : lib_entry :=
  LibEntry (Some ($ "../nzb.conf")) Regular (Some 1) [Block [x00] 0] None.

Definition sample_archive : lib_archive := LibArchive [hostile_entry; sample_entry] None.

Definition archive_job : job := set_files [JobFile ($ "game.rar") [] 10 []] zero_job.

Definition start_disk : plain := {[ [$ "data"; $ "nzb.conf"] := [x41]; [$ "data"; $ "t"; $ "game.rar"] := [x42] ]}.

#[local] Instance sample_disk : ExtractDisk plain := plain_disk (λ _, sample_archive).
#[local] Instance sample_frame : DiskFrame plain := plain_frame (λ _, sample_archive).


(** The same archive on the same disk, to the end: the unsafe entry is skipped,
    the other one is there. *)
Definition sample_result : plain * extract_result :=
  extract_job never_stop merge_sort_volumes archive_job ($ "/data/t") ($ "/data/out") start_disk.

Example sample_extracted :
  sample_result.2 = EXTRACT_OK ∧
  sample_result.1 !! [$ "data"; $ "out"; $ "game"; $ "eboot.bin"] = Some [x01; x02; x03] ∧
  size sample_result.1 = 3%nat.
Proof. split_and!; vm_compute; reflexivity. Qed.

(** An archive with a link and a file below it. *)
Definition link_entry : lib_entry := LibEntry (Some ($ "x")) (Link ($ "/data")) (Some 0) [] None.

Definition below_link : lib_entry := LibEntry (Some ($ "x/nzb.conf")) Regular (Some 1) [Block [x00] 0] None.

Definition link_archive : lib_archive := LibArchive [link_entry; below_link] None.

Definition link_start : linked :=
  {[ [$ "data"; $ "nzb.conf"] := FileObject [x41]; [$ "data"; $ "t"; $ "game.rar"] := FileObject [x42] ]}.

#[local] Instance sample_links : ExtractDisk linked := link_disk (λ _, link_archive).

(** Where links are followed, as the writer does without
    [ARCHIVE_EXTRACT_SECURE_SYMLINKS], an archive whose every entry has a safe
    path overwrites a file outside the directory: a link to [/data] and then a
    file below the link. *)
Theorem extraction_follows_links :
  Forall (λ e, is_safe_relpath (le_path e) = true) (la_entries link_archive) ∧
  file_at link_start [$ "data"; $ "nzb.conf"] = Some [x41] ∧
  let r := extract_job never_stop merge_sort_volumes archive_job ($ "/data/t") ($ "/data/out") link_start in
  r.2 = EXTRACT_OK ∧ file_at r.1 [$ "data"; $ "nzb.conf"] = Some [x00].
Proof.
  split; [by repeat (constructor; [reflexivity|])|]. split; [reflexivity|].
  split; vm_compute; reflexivity.
Qed.
