(* ===== verification/ExtractData.v ===== *)
(** * What an extraction writes ([extract/extract.c])

    The write buffer of [copy_data] is invisible in the file; an archive without
    errors, on a disk without errors, is unpacked to the last byte; and a job
    whose files are the volumes of one archive ends with its contents in the
    output directory. *)

From Stdlib Require Import ZArith Lia List.
From Stdlib Require Import Strings.Byte Strings.String.
From stdpp Require Import base list gmap.
From S2P Require Import Prelude Cnum Paths Job Worker Rar5 Volumes Extract ExtractFrame.

(** ** Writing block by block *)

Lemma lookup_pwrite_hole data off buf i :
  (length data <= i < off)%nat → pwrite data off buf !! i = Some x00.
Proof.
  intros Hi. unfold pwrite. rewrite lookup_app_r by (rewrite length_take; lia).
  rewrite lookup_app_l by (rewrite length_take, length_replicate; lia).
  apply lookup_replicate_2. rewrite length_take. lia.
Qed.

(** Two writes one behind the other are one write. *)
Lemma pwrite_pwrite data off a b :
  a ≠ [] → pwrite (pwrite data off a) (off + length a) b = pwrite data off (a ++ b).
Proof.
  intros Ha. assert (0 < length a)%nat as Hl by (destruct a; [done|cbn; lia]).
  apply list_eq. intros i.
  destruct (decide (i < off)%nat) as [H1|H1].
  - rewrite lookup_pwrite_out by (rewrite ?length_pwrite; lia).
    destruct (decide (i < length data)%nat); [by rewrite !lookup_pwrite_out by lia|by rewrite !lookup_pwrite_hole by lia].
  - destruct (decide (i < off + length a)%nat) as [H2|H2].
    + rewrite lookup_pwrite_out by (rewrite ?length_pwrite; lia). rewrite !lookup_pwrite_in by (rewrite ?length_app; lia).
      by rewrite lookup_app_l by lia.
    + destruct (decide (i < off + length a + length b)%nat) as [H3|H3].
      * rewrite !lookup_pwrite_in by (rewrite ?length_app; lia). rewrite lookup_app_r by lia. f_equal. lia.
      * destruct (decide (i < length data)%nat).
        -- rewrite !lookup_pwrite_out by (rewrite ?length_pwrite, ?length_app; lia). done.
        -- rewrite !lookup_ge_None_2 by (rewrite ?length_pwrite, ?length_app; lia). done.
Qed.

Definition write_block (c : list byte) (b : block) : list byte :=
  if bool_decide (bk_data b = []) then c else pwrite c (Z.to_nat (bk_offset b)) (bk_data b).

(** What the blocks of an entry make of an empty file. *)
Definition assembled (e : lib_entry) : list byte := foldl write_block [] (le_blocks e).

(** Offsets of a file of less than [2^63] bytes. *)
Definition block_ok (b : block) : Prop := 0 <= bk_offset b ∧ bk_offset b + Z.of_nat (length (bk_data b)) < 2 ^ 63.

(** ** A disk that stores what is written *)

Class DiskWrites (D : Type) `{DiskFrame D} := {
  header_file d p e : (¬ dotdot p) → le_type e = Regular → (write_header d p e).2 = HeaderDone →
    disk_file (write_header d p e).1 (resolve p) = Some [];
  data_file d p b off c : (¬ dotdot p) → disk_file d (resolve p) = Some c → 0 <= off →
    (write_data d p b off).2 = None →
    disk_file (write_data d p b off).1 (resolve p) = Some (pwrite c (Z.to_nat off) b);
  finish_file d p e c : (¬ dotdot p) → disk_file d (resolve p) = Some c → le_size e = Some (Z.of_nat (length c)) →
    disk_file (finish_entry d p e) (resolve p) = Some c;
}.

Section copy.
Context `{Hdw : DiskWrites D}.
Context (cb : Z → Z → bool).
Context (p : cstr) (Hp : ¬ dotdot p).

(** The file with what is still in the buffer. *)
Definition pending (wb : write_buf) (c : list byte) : list byte :=
  match wb_buf wb with [] => c | buf => pwrite c (Z.to_nat (wb_offset wb)) buf end.

Definition buf_ok (wb : write_buf) : Prop :=
  wb_buf wb = [] ∨ 0 <= wb_offset wb ∧ wb_offset wb + Z.of_nat (length (wb_buf wb)) < 2 ^ 63.

(** The state holds a file: on disk and in the buffer. *)
Definition holds (st : copy_state) (c : list byte) : Prop :=
  buf_ok (cs_wb st) ∧ ∃ c0, disk_file (cs_disk st) (resolve p) = Some c0 ∧ pending (cs_wb st) c0 = c.

Lemma flush_holds copied size st st' c :
  holds st c → write_buf_flush p copied size st = (st', None) →
  holds st' c ∧ wb_buf (cs_wb st') = [].
Proof using Hp Hdw.
  intros [Hok (c0 & Hc & Hpend)]. unfold write_buf_flush, pending in *.
  destruct (wb_buf (cs_wb st)) as [|x buf] eqn:E.
  { intros [= <-]. split; [|done]. split; [by left|]. exists c0. split; [done|]. unfold pending. by rewrite E. }
  destruct Hok as [Hok|[Ho _]]; [by rewrite E in Hok|].
  pose proof (data_file (cs_disk st) p (x :: buf) (wb_offset (cs_wb st)) c0 Hp Hc Ho) as Hd.
  destruct (write_data _ _ _ _) as [d [msg|]]; intros [= <-]. split; [|done]. split; [by left|].
  exists c. split; [|done]. cbn [cs_disk]. rewrite <- Hpend. by apply Hd.
Qed.

Lemma and_then_None (r : @copy_state D * option cstr) f st' : and_then r f = (st', None) → ∃ st, r = (st, None) ∧ f st = (st', None).
Proof. destruct r as [st [e|]]; cbn; [done|]. intros Hf. by exists st. Qed.

Lemma s64_in_range z : - 2 ^ 63 <= z < 2 ^ 63 → s64 z = z.
Proof. intros Hz. unfold s64. rewrite Z.mod_small; lia. Qed.

Lemma copy_block_holds copied size b st st' c :
  holds st c → block_ok b → copy_block p copied size b st = (st', None) → holds st' (write_block c b).
Proof using Hp Hdw.
  intros Hst [Hb0 Hb1] Hcopy. unfold copy_block in Hcopy.
  apply and_then_None in Hcopy as (st1 & Hfirst & Hcopy).
  (* after the first test what is buffered ends where the block starts *)
  assert (holds st1 c ∧ (wb_buf (cs_wb st1) = [] ∨
            bk_offset b = wb_offset (cs_wb st1) + Z.of_nat (length (wb_buf (cs_wb st1))))) as [Hst1 Hcont].
  { destruct (_ && _) eqn:Htest in Hfirst.
    - apply (flush_holds _ _ _ _ c) in Hfirst as [? ?]; [by split; [|left]|done].
    - injection Hfirst as <-. split; [done|]. apply andb_false_iff in Htest as [Ht|Ht].
      + left. unfold buf_len in Ht. apply Z.ltb_ge in Ht. apply nil_length_inv. lia.
      + destruct (wb_buf (cs_wb st)) eqn:E; [by left|right]. apply negb_false_iff, Z.eqb_eq in Ht.
        destruct Hst as [[Hok|[Ho1 Ho2]] _]; [by rewrite E in Hok|]. rewrite Ht. unfold buf_len.
        rewrite E in Ho2 |- *. apply s64_in_range. lia. }
  clear Hfirst Hst. destruct (WRITE_COALESCE_SIZE <=? Z.of_nat (length (bk_data b))) eqn:Hbig.
  - apply and_then_None in Hcopy as (st2 & Hflush & Hcopy).
    apply (flush_holds _ _ _ _ c) in Hflush as [[_ (c0 & Hc0 & Hp0)] Hempty]; [|done].
    unfold pending in Hp0. rewrite Hempty in Hp0. subst c0.
    pose proof (data_file (cs_disk st2) p (bk_data b) (bk_offset b) c Hp Hc0 Hb0) as Hd.
    destruct (write_data _ _ _ _) as [d [msg|]]; [done|]. injection Hcopy as <-.
    split; [by left|]. exists (write_block c b). split; [|cbn [cs_wb]; unfold pending; by rewrite Hempty].
    cbn [cs_disk]. cbn [fst snd] in Hd. rewrite Hd by done. f_equal. unfold write_block. rewrite bool_decide_eq_false_2; [done|].
    intros E. rewrite E in Hbig. done.
  - apply and_then_None in Hcopy as (st2 & Hflush & Hcopy). injection Hcopy as <-.
    assert (holds st2 c ∧ (wb_buf (cs_wb st2) = [] ∨
              bk_offset b = wb_offset (cs_wb st2) + Z.of_nat (length (wb_buf (cs_wb st2))))) as [Hst2 Hcont2].
    { destruct (_ <? _) in Hflush; [|by injection Hflush as <-].
      apply (flush_holds _ _ _ _ c) in Hflush as [? ?]; [by split; [|left]|done]. }
    clear Hst1 Hcont Hflush. destruct Hst2 as [Hok (c0 & Hc0 & Hp0)]. unfold buf_len.
    destruct (wb_buf (cs_wb st2)) as [|x buf] eqn:E.
    + cbn [length Z.of_nat Z.eqb]. rewrite app_nil_l. unfold pending in Hp0. rewrite E in Hp0. subst c0.
      split; [right; by split|]. exists c. split; [done|]. unfold pending, write_block. cbn [cs_wb wb_buf wb_offset].
      by destruct (bk_data b).
    + destruct Hcont2 as [?|Hoff]; [done|]. destruct Hok as [Hok|[Ho1 Ho2]]; [by rewrite E in Hok|].
      rewrite (proj2 (Z.eqb_neq _ 0)) by (cbn [length]; lia).
      split.
      * right. cbn [cs_wb wb_buf wb_offset]. rewrite length_app. split; [done|]. lia.
      * exists c0. split; [done|]. rewrite <- Hp0. unfold pending at 1. cbn [cs_wb wb_buf wb_offset].
        unfold pending, write_block. rewrite E. destruct (bk_data b) as [|y data] eqn:Ed; [by rewrite app_nil_r|].
        rewrite bool_decide_eq_false_2 by done.
        replace (Z.to_nat (bk_offset b)) with (Z.to_nat (wb_offset (cs_wb st2)) + length (x :: buf))%nat by lia.
        by rewrite pwrite_pwrite.
Qed.

Lemma copy_blocks_holds total size re blocks copied st st' c :
  holds st c → Forall block_ok blocks → copy_blocks cb p total size re blocks copied st = (st', None) →
  disk_file (cs_disk st') (resolve p) = Some (foldl write_block c blocks) ∧ wb_buf (cs_wb st') = [].
Proof using Hp Hdw.
  intros Hst Hblocks. revert copied st c Hst. induction Hblocks as [|b blocks Hb _ IH]; intros copied st c Hst; cbn [copy_blocks foldl].
  - destruct re; [done|]. intros Hf. apply (flush_holds _ _ _ _ c) in Hf as [[_ (c0 & Hc0 & Hp0)] Hempty]; [|done].
    unfold pending in Hp0. rewrite Hempty in Hp0. by subst.
  - intros Hc. apply and_then_None in Hc as (st1 & H1 & Hrest). cbn [report_progress] in Hrest.
    destruct (cb _ _); [done|]. apply (IH _ _ (write_block c b)) in Hrest; [done|].
    exact (copy_block_holds copied size b st st1 c Hst Hb H1).
Qed.

(** Nothing fails where no write fails and nobody stops it. *)
Section no_failure.
Context (Hdata : ∀ d b off, (write_data d p b off).2 = None) (Hcb : ∀ done total, cb done total = false).

Lemma flush_succeeds copied size st : (write_buf_flush p copied size st).2 = None.
Proof using Hdata.
  unfold write_buf_flush. destruct (wb_buf (cs_wb st)) as [|x buf]; [done|].
  specialize (Hdata (cs_disk st) (x :: buf) (wb_offset (cs_wb st))). by destruct (write_data _ _ _ _) as [d [msg|]].
Qed.

Lemma and_then_succeeds (r : @copy_state D * option cstr) f : r.2 = None → (∀ st, (f st).2 = None) → (and_then r f).2 = None.
Proof. destruct r as [st [e|]]; cbn; [done|auto]. Qed.

Lemma copy_block_succeeds copied size b st : (copy_block p copied size b st).2 = None.
Proof using Hdata.
  unfold copy_block. apply and_then_succeeds; [case_match; [apply flush_succeeds|done]|].
  intros st1. case_match; apply and_then_succeeds.
  - apply flush_succeeds.
  - intros st2. specialize (Hdata (cs_disk st2) (bk_data b) (bk_offset b)). by destruct (write_data _ _ _ _) as [d [msg|]].
  - case_match; [apply flush_succeeds|done].
  - done.
Qed.

Lemma copy_blocks_succeeds total size blocks copied st :
  (copy_blocks cb p total size None blocks copied st).2 = None.
Proof using Hdata Hcb.
  revert copied st. induction blocks as [|b blocks IH]; intros copied st; cbn [copy_blocks]; [apply flush_succeeds|].
  apply and_then_succeeds; [apply copy_block_succeeds|]. intros st1. cbn [report_progress]. rewrite Hcb. apply IH.
Qed.
End no_failure.
End copy.

(** ** Unpacking an archive *)

Definition target (dest : cstr) (e : lib_entry) : list cstr := resolve (join_path dest (default [] (le_path e))).

(** A file with all its data, at a path the program accepts. *)
Record entry_whole (dest : cstr) (e : lib_entry) : Prop := {
  ew_safe : is_safe_relpath (le_path e) = true;
  ew_fits : (length dest + S (length (default [] (le_path e))) < 1200)%nat;
  ew_regular : le_type e = Regular;
  ew_blocks : Forall block_ok (le_blocks e);
  ew_no_error : le_read_error e = None;
  ew_size : le_size e = Some (Z.of_nat (length (assembled e)));
}.

(** What should be on the disk: the entries one after the other. *)
Definition unpack (dest : cstr) (es : list lib_entry) (files : list cstr → option (list byte))
    : list cstr → option (list byte) :=
  foldl (λ m e f, if decide (f = target dest e) then Some (assembled e) else m f) files es.

Lemma safe_relpath_dotdot s : is_safe_relpath (Some s) = true → ¬ dotdot s.
Proof.
  destruct s as [|c s]; [done|]. cbn [is_safe_relpath]. intros [_ Hall]%andb_true_iff Hd.
  rewrite forallb_forall in Hall. specialize (Hall ($ "..")). unfold segment_safe in Hall.
  rewrite andb_true_iff in Hall. destruct Hall as [_ Hall]; [by apply list_elem_of_In|done].
Qed.

Lemma assembled_empty e : length (assembled e) = 0%nat → le_blocks e = [] ∨ assembled e = [].
Proof. intros Hl. right. by apply nil_length_inv. Qed.

Section archives.
Context `{Hdw : DiskWrites D}.
Context (cb : Z → Z → bool).
(** No system call fails, and nobody asks to stop. *)
Context (Hheader : ∀ d p e, (¬ dotdot p) → le_type e = Regular → (write_header d p e).2 = HeaderDone).
Context (Hdata : ∀ d p b off, (write_data d p b off).2 = None).
Context (Hcb : ∀ done total, cb done total = false).
Context (dest : cstr) (Hdest : ¬ dotdot dest).

Lemma target_path e : entry_whole dest e → ¬ dotdot (join_path dest (default [] (le_path e))).
Proof using Hdest.
  intros [Hs Hf _ _ _ _]. destruct (le_path e) as [s|]; [|done]. cbn [default] in Hf |- *.
  rewrite join_fits by done.
  rewrite dotdot_app. intros [?|?]; [done|]. by apply (safe_relpath_dotdot s).
Qed.

Lemma extract_entry_whole total e st st' err w :
  entry_whole dest e → wb_buf (cs_wb st) = [] → extract_entry cb dest total e st = (st', err, w) →
  err = None ∧ w = true ∧ wb_buf (cs_wb st') = [] ∧
  ∀ f, disk_file (cs_disk st') f =
       if decide (f = target dest e) then Some (assembled e) else disk_file (cs_disk st) f.
Proof using Hdw Hheader Hdata Hcb Hdest.
  intros He Hwb Hrun. pose proof (target_path e He) as Hp. destruct He as [Hs _ Hr Hb Hn Hsz].
  pose proof (extract_entry_keeps cb (λ f, f ≠ target dest e) dest total e st ltac:(by intros Hf; apply Hf)) as Hkeep.
  rewrite Hrun in Hkeep. cbn [fst] in Hkeep. unfold target in *.
  set (p := join_path dest (default [] (le_path e))) in *.
  assert (err = None ∧ w = true ∧ wb_buf (cs_wb st') = [] ∧ disk_file (cs_disk st') (resolve p) = Some (assembled e))
    as (H1 & H2 & H3 & H4).
  { unfold extract_entry in Hrun. rewrite Hs in Hrun. cbn [negb] in Hrun. fold p in Hrun.
    pose proof (header_file (cs_disk st) p e Hp Hr (Hheader _ _ _ Hp Hr)) as Hf.
    pose proof (Hheader (cs_disk st) p e Hp Hr) as Hok.
    destruct (write_header (cs_disk st) p e) as [d []]; [|done]. cbn [fst] in Hf.
    assert (∀ st1, disk_file (cs_disk st1) (resolve p) = Some (assembled e) →
      disk_file (disk_chmod (finish_entry (cs_disk st1) p e) p) (resolve p) = Some (assembled e)) as Hend.
    { intros st1 H1. rewrite chmod_frame. by apply finish_file. }
    unfold archive_entry_size in Hrun. rewrite Hsz in Hrun. cbn [from_option id] in Hrun.
    destruct (Z.ltb_spec 0 (Z.of_nat (length (assembled e)))) as [Hpos|Hpos].
    - unfold copy_data in Hrun. rewrite Hn in Hrun.
      pose proof (copy_blocks_succeeds cb p (λ d, Hdata d p) Hcb total
        (Z.of_nat (length (assembled e))) (le_blocks e) 0 (CopyState d (cs_wb st) (cs_done st))) as Hsucc.
      destruct (copy_blocks _ _ _ _ _ _ _ _) as [st1 err1] eqn:Hcopy. cbn in Hsucc. subst err1.
      apply (copy_blocks_holds cb p Hp _ _ _ _ _ _ _ []) in Hcopy as [Hfile Hempty]; [|split; [by left|]|done].
      + cbv beta iota in Hrun. injection Hrun as <- <- <-. split_and!; [done|done|exact Hempty|by apply Hend].
      + exists []. split; [exact Hf|]. unfold pending. cbn [cs_wb]. by rewrite Hwb.
    - cbv beta iota in Hrun. injection Hrun as <- <- <-. split_and!; [done|done|done|].
      apply (Hend (CopyState d (cs_wb st) (cs_done st))). cbn [cs_disk]. rewrite Hf. f_equal. symmetry.
      apply nil_length_inv. lia. }
  split_and!; [done..|]. intros f. case_decide as Hf; [by subst f|]. by apply Hkeep.
Qed.
Lemma extract_entries_whole display total es seen written st :
  Forall (entry_whole dest) es → wb_buf (cs_wb st) = [] →
  ∃ st', extract_entries cb dest display total es None seen written st =
           (st', None, (seen + length es)%nat, (written + length es)%nat) ∧
         ∀ f, disk_file (cs_disk st') f = unpack dest es (disk_file (cs_disk st)) f.
Proof using Hdw Hheader Hdata Hcb Hdest.
  intros Hes. revert seen written st. induction Hes as [|e es He _ IH]; intros seen written st Hwb.
  - exists st. cbn [extract_entries length]. by rewrite !Nat.add_0_r.
  - cbn [extract_entries]. destruct (extract_entry cb dest total e st) as [[st1 err] w] eqn:Hrun.
    destruct (extract_entry_whole total e st st1 err w He Hwb Hrun) as (-> & -> & Hwb1 & Hf).
    destruct (IH (S seen) (S written) st1 Hwb1) as (st' & -> & Hst'). exists st'. split.
    + cbn [length]. by rewrite !Nat.add_succ_r.
    + intros f. rewrite Hst'. unfold unpack. cbn [foldl].
      assert (∀ m m' : list cstr → option (list byte), (∀ f, m f = m' f) →
        foldl (λ m e f, if decide (f = target dest e) then Some (assembled e) else m f) m es f =
        foldl (λ m e f, if decide (f = target dest e) then Some (assembled e) else m f) m' es f) as Hext.
      { clear. induction es as [|e es IH]; intros m m' Hm; [by apply Hm|]. cbn [foldl]. apply IH.
        intros f'. case_decide; [done|apply Hm]. }
      by apply Hext.
Qed.

(** The archive opened from the volumes is whole. *)
Definition archive_whole (passwords volumes : list cstr) (es : list lib_entry) (d : D) : Prop :=
  open_archive d passwords volumes = inr (LibArchive es None) ∧ Forall (entry_whole dest) es.

Lemma extract_one_archive_whole passwords volumes es total d n :
  archive_whole passwords volumes es d →
  ∃ d' n', extract_one_archive cb volumes dest passwords total d n = (d', n', None) ∧
           ∀ f, disk_file d' f = unpack dest es (disk_file d) f.
Proof using Hdw Hheader Hdata Hcb Hdest.
  intros [Ho He]. unfold extract_one_archive. rewrite Ho. cbn [la_entries la_error].
  destruct (extract_entries_whole (hd [] volumes) total es 0 0 (CopyState d empty_buf n) He eq_refl) as (st' & -> & Hf).
  exists (cs_disk st'), (cs_done st'). split; [|exact Hf]. cbn [Nat.add].
  by destruct (length es).
Qed.

(** The bytes of all files of an archive. *)
Fixpoint archive_bytes (es : list lib_entry) : Z :=
  match es with [] => 0 | e :: es => Z.of_nat (length (assembled e)) + archive_bytes es end.

Lemma archive_bytes_nonneg es : 0 <= archive_bytes es.
Proof using Type. induction es as [|e es IH]; cbn [archive_bytes]; lia. Qed.

Lemma peek_whole passwords volumes es d :
  archive_whole passwords volumes es d → archive_bytes es < 2 ^ 63 →
  peek_archive_total_bytes volumes passwords d = archive_bytes es.
Proof using Type.
  intros [Ho He] Hsum. unfold peek_archive_total_bytes. rewrite Ho. cbn [la_entries]. clear Ho.
  assert (∀ t, 0 <= t → t + archive_bytes es < 2 ^ 63 →
    foldl (λ total e, match le_size e with Some n => s64 (total + n) | None => total end) t es = t + archive_bytes es) as Hfold.
  { clear Hsum. induction He as [|e es He _ IH]; intros t Ht Hs; [cbn; lia|].
    pose proof (archive_bytes_nonneg es). cbn [foldl].
    cbn [archive_bytes] in Hs |- *.
    rewrite (ew_size dest e He), s64_in_range by lia. rewrite IH by lia. lia. }
  rewrite Hfold; lia.
Qed.
End archives.

(** ** A job with one archive *)

(** No call fails for a regular file, and nobody asks to stop. *)
Class Reliable (D : Type) `{ExtractDisk D} (cb : Z → Z → bool) : Prop := {
  header_reliable d p e : (¬ dotdot p) → le_type e = Regular → (write_header d p e).2 = HeaderDone;
  data_reliable d p b off : (write_data d p b off).2 = None;
  never_stopped done total : cb done total = false;
}.

(** The job's files are the volumes of one archive, and others that are none. *)
Record job_volumes (j : job) (s : scheme) (base : cstr) (n : nat) : Prop := {
  jv_base : base_ok s base;
  jv_count : 0 < Z.of_nat n <= scheme_limit s;
  jv_names : Forall (λ name, length name < 512)%nat (jf_filename <$> j_files j);
  jv_set : names_of (scheme_kind s, base) (jf_filename <$> j_files j) ≡ₚ set_names s base n;
  jv_other name : name ∈ jf_filename <$> j_files j →
    name_key name = None ∨ name_key name = Some (scheme_kind s, base);
}.

Lemma extract_job_single `{Hdw : DiskWrites D} (cb : Z → Z → bool) `{!Reliable D cb}
    (qsort : list member → list member) (dest src : cstr) j s base n es d d1 :
  qsort_volumes_contract qsort → (¬ dotdot dest) → job_volumes j s base n →
  mkdir_p disk_mkdir d dest = (d1, true) →
  archive_whole dest (j_passwords j) (volume_path src <$> set_names s base n) es d1 →
  archive_bytes es < 2 ^ 63 →
  (path_free_bytes (disk_statfs d1) dest < 0 ∨ archive_bytes es <= path_free_bytes (disk_statfs d1) dest) →
  ∃ d2, extract_job cb qsort j src dest d = extract_nested cb qsort (j_passwords j) dest d2 ∧
        ∀ f, disk_file d2 f = unpack dest es (disk_file d1) f.
Proof.
  intros Hq Hdest [Hb Hn Hlen Hset Hother] Hmk Harch Hbytes Hfree.
  destruct (single_set qsort _ s base n Hq Hlen Hb Hn Hset Hother) as (g & Hg & Hnames).
  unfold extract_job. rewrite Hg. cbn [extract_sets]. rewrite Hmk. cbn [negb].
  unfold extract_set. rewrite Hnames.
  rewrite (peek_whole dest (j_passwords j) _ es d1 Harch Hbytes).
  pose proof (archive_bytes_nonneg es) as Hpos. rewrite (proj2 (Z.ltb_ge _ 0)) by lia.
  assert ((0 <=? path_free_bytes (disk_statfs d1) dest) && (path_free_bytes (disk_statfs d1) dest <? archive_bytes es) = false) as ->.
  { apply andb_false_iff. rewrite Z.leb_gt, Z.ltb_ge. lia. }
  destruct (extract_one_archive_whole cb header_reliable data_reliable never_stopped dest Hdest
    (j_passwords j) _ es (s64 (0 + archive_bytes es)) d1 0 Harch) as (d2 & n' & -> & Hf).
  by exists d2.
Qed.

(** With no archive among the files it holds. *)
Lemma extract_job_flat `{Hdw : DiskWrites D} (cb : Z → Z → bool) `{!Reliable D cb}
    (qsort : list member → list member) (dest src : cstr) j s base n es d d1 :
  qsort_volumes_contract qsort → (¬ dotdot dest) → job_volumes j s base n →
  mkdir_p disk_mkdir d dest = (d1, true) →
  archive_whole dest (j_passwords j) (volume_path src <$> set_names s base n) es d1 →
  archive_bytes es < 2 ^ 63 →
  (path_free_bytes (disk_statfs d1) dest < 0 ∨ archive_bytes es <= path_free_bytes (disk_statfs d1) dest) →
  (∀ d', (∀ f, disk_file d' f = unpack dest es (disk_file d1) f) → nested_total qsort (j_passwords j) dest d' = 0) →
  ∃ d', extract_job cb qsort j src dest d = (d', EXTRACT_OK) ∧
        ∀ f, disk_file d' f = unpack dest es (disk_file d1) f.
Proof.
  intros Hq Hdest Hj Hmk Harch Hbytes Hfree Hflat.
  destruct (extract_job_single cb qsort dest src j s base n es d d1) as (d2 & -> & Hf); [done..|].
  exists d2. split; [|done]. unfold extract_nested. by rewrite (Hflat d2 Hf).
Qed.

(** ** Properties *)

(** C17: when [copy_data] returns 0, the file holds what writing every block by
    itself would have made of it, whatever the sizes of the blocks and the gaps
    between them; nothing is left in the write buffer for the next entry, and
    no other file is touched. *)
Theorem copy_data_coalesces {D : Type} `{DiskWrites D} (cb : Z → Z → bool) (p : cstr) (total size n : Z)
    (e : lib_entry) (d : D) (c : list byte) (st : copy_state)
    (Hp : dotdot p → False) (Hc : disk_file d (resolve p) = Some c) (Hb : Forall block_ok (le_blocks e))
    (Hrun : copy_data cb p total size e (CopyState d empty_buf n) = (st, None)) :
  disk_file (cs_disk st) (resolve p) = Some (foldl write_block c (le_blocks e)) ∧
  wb_buf (cs_wb st) = [] ∧
  ∀ f, f ≠ resolve p → disk_file (cs_disk st) f = disk_file d f.
Proof.
  pose proof (copy_blocks_keeps cb (λ f, f ≠ resolve p) p total size (le_read_error e) (le_blocks e) 0
    (CopyState d empty_buf n) (conj Hp (λ Hf, Hf eq_refl))) as Hkeep.
  unfold copy_data in Hrun. rewrite Hrun in Hkeep.
  apply (copy_blocks_holds cb p Hp _ _ _ _ _ _ _ c) in Hrun as [Hfile Hempty]; [by split_and!| |done].
  split; [by left|]. by exists c.
Qed.

(** A job whose files are the volumes of one archive, named in any scheme
    and in any order between other files, is extracted: with the volumes
    readable, room on the disk and no failing call, [extract_job] returns
    [EXTRACT_OK] and the output directory holds every file of the archive, byte
    for byte, all other files being as before. *)
Theorem extract_job_unpacks {D : Type} `{DiskWrites D} (cb : Z → Z → bool) (qsort : list member → list member)
    (dest src : cstr) (j : job) (s : scheme) (base : cstr) (n : nat) (es : list lib_entry) (d d1 : D)
    (Hrel : Reliable D cb) (Hq : qsort_volumes_contract qsort) (Hdest : dotdot dest → False)
    (Hj : job_volumes j s base n) (Hmk : mkdir_p disk_mkdir d dest = (d1, true))
    (Harch : archive_whole dest (j_passwords j) (volume_path src <$> set_names s base n) es d1)
    (Hbytes : archive_bytes es < 2 ^ 63)
    (Hfree : path_free_bytes (disk_statfs d1) dest < 0 ∨ archive_bytes es <= path_free_bytes (disk_statfs d1) dest)
    (Hflat : ∀ d', (∀ f, disk_file d' f = unpack dest es (disk_file d1) f) →
               nested_total qsort (j_passwords j) dest d' = 0) :
  ∃ d', extract_job cb qsort j src dest d = (d', EXTRACT_OK) ∧
        ∀ f, disk_file d' f = unpack dest es (disk_file d1) f.
Proof.
  by apply (extract_job_flat cb qsort dest src j s base n).
Qed.

(** An archive found inside what was extracted, whose headers cannot be read
    (the wrong password, say), counts as empty: with no other one there the
    second walk is skipped and the job ends as [EXTRACT_OK], although the
    extraction of that archive fails. *)
Theorem nested_unreadable_reported_ok {D : Type} `{ExtractDisk D} (cb : Z → Z → bool)
    (qsort : list member → list member) (passwords : list cstr) (dest name msg : cstr) (c : archive_id) (d : D)
    (Hq : qsort_volumes_contract qsort) (Hscan : scan_dir_entries d dest = Some [(name, false)])
    (Hlen : (length name < 512)%nat) (Hname : classify name = Some c)
    (Hopen : open_archive d passwords [join_path dest name] = inr (LibArchive [] (Some msg))) :
  extract_nested cb qsort passwords dest d = (d, EXTRACT_OK) ∧
  (extract_one_archive cb [join_path dest name] dest passwords 0 d 0).2 =
    Some (join_path dest name ++ $ ": " ++ msg).
Proof.
  assert (volume_sets qsort [name] = [[Member (ai_kind c) (str_fit 400 (ai_base c)) (ai_volume c) name]]) as Hsets.
  { unfold volume_sets. rewrite group_members_spec. unfold members_of, member_of. cbn [omap list_omap].
    rewrite Hname, (str_fit_id 512) by done. cbn [leaders]. rewrite decide_False by apply not_elem_of_nil.
    cbn [fmap list_fmap]. f_equal. unfold set_of. rewrite filter_cons, decide_True by by apply same_set_true.
    apply Permutation_singleton_r. apply Hq. }
  split.
  - unfold extract_nested. assert (nested_total qsort passwords dest d = 0) as ->; [|done].
    unfold nested_total, NESTED_EXTRACT_MAX_DEPTH. cbn [walk_nested_archives]. rewrite Hscan.
    rewrite filter_cons, decide_True by done. cbn [filter list_filter fmap list_fmap fst].
    rewrite Hsets. cbn [foldl fmap list_fmap mb_filename]. unfold size_group_fn, peek_archive_total_bytes.
    by rewrite Hopen.
  - unfold extract_one_archive. by rewrite Hopen.
Qed.

(** ** Witnesses *)

#[export] Instance plain_writes lib : @DiskWrites plain (plain_disk lib) (plain_frame lib).
Proof.
  split.
  - intros d p e Hp Hr _. cbn. rewrite decide_False, Hr by done. cbn. by rewrite lookup_insert_eq.
  - intros d p b off c _ Hc _ _. cbn in *. by rewrite lookup_alter_eq, Hc.
  - by intros d p e c _ Hc _.
Qed.

#[export] Instance plain_reliable lib : @Reliable plain (plain_disk lib) never_stop.
Proof. split; [|done|done]. intros d p e Hp Hr. cbn. by rewrite decide_False, Hr. Qed.

(** What the volumes of the sample hold; its other archive is unreadable. *)
Definition sample_lib (volumes : list cstr) : lib_archive :=
  if bool_decide (volumes = [$ "/data/out/in.rar"]) then LibArchive [] (Some ($ "wrong password"))
  else LibArchive [sample_entry] None.

#[local] Instance witness_disk : ExtractDisk plain := plain_disk sample_lib.
#[local] Instance witness_frame : DiskFrame plain := plain_frame sample_lib.
#[local] Instance witness_writes : DiskWrites plain := plain_writes sample_lib.

Definition copy_file : cstr := $ "/data/out/f".

Definition copy_disk : plain := {[ [$ "data"; $ "out"; $ "f"] := [] ]}.

Definition copied_state : copy_state :=
  (copy_data never_stop copy_file 3 3 sample_entry (CopyState copy_disk empty_buf 0)).1.

Lemma out_dotdot_dir : dotdot ($ "/data/out") → False.
Proof.
  change (dotdot ($ "/data/out")) with ($ ".." ∈ [$ ""; $ "data"; $ "out"]).
  rewrite !elem_of_cons, elem_of_nil. naive_solver.
Qed.

Lemma out_dotdot name : slash ∉ name → name ≠ $ ".." → dotdot ($ "/data/out" ++ $ "/" ++ name) → False.
Proof.
  intros Hs Hn. rewrite dotdot_app. intros [Hd|Hd]; [by apply out_dotdot_dir|].
  unfold dotdot in Hd. rewrite plain_component in Hd by done. by apply list_elem_of_singleton in Hd.
Qed.

Lemma copy_data_coalesces_witness :
  disk_file (cs_disk copied_state) (resolve copy_file) = Some [x01; x02; x03].
Proof.
  apply (copy_data_coalesces never_stop copy_file 3 3 0 sample_entry copy_disk [] copied_state).
  - apply (out_dotdot ($ "f")); [|done].
    by intros Hs%list_elem_of_singleton.
  - reflexivity.
  - repeat constructor; cbn; lia.
  - reflexivity.
Defined.

Definition game_files : list job_file :=
  [JobFile ($ "game.r00") [] 10 []; JobFile ($ "game.nfo") [] 1 []; JobFile ($ "game.rar") [] 10 []].

Lemma game_volumes j : j_files j = game_files → job_volumes j Old_volumes ($ "game") 2.
Proof.
  intros Hf. assert (jf_filename <$> j_files j = [$ "game.r00"; $ "game.nfo"; $ "game.rar"]) as Hn by by rewrite Hf.
  constructor; rewrite ?Hn.
  - split; [cbn; lia|]. intros _. by apply (no_part_nondigit ($ "gam") x65).
  - cbn. lia.
  - repeat constructor; cbn; lia.
  - change (names_of _ _) with [$ "game.r00"; $ "game.rar"]. change (set_names _ _ _) with [$ "game.rar"; $ "game.r00"].
    apply Permutation_swap.
  - intros name. rewrite !elem_of_cons, elem_of_nil. intros [->|[->|[->|[]]]]; [by right|by left|by right].
Qed.

Lemma sample_entry_whole dest : (length dest < 1000)%nat → entry_whole dest sample_entry.
Proof.
  intros Hl. constructor; [reflexivity|cbn; lia|done| |done|reflexivity]. repeat constructor; cbn; lia.
Qed.

Definition volumes_job : job := set_files game_files zero_job.

Lemma extract_job_unpacks_witness :
  ∃ d', extract_job never_stop merge_sort_volumes volumes_job ($ "/data/t") ($ "/data/out") start_disk = (d', EXTRACT_OK) ∧
        ∀ f, disk_file d' f = unpack ($ "/data/out") [sample_entry] (disk_file start_disk) f.
Proof.
  apply (extract_job_unpacks never_stop merge_sort_volumes ($ "/data/out") ($ "/data/t") volumes_job Old_volumes ($ "game") 2
           [sample_entry] start_disk start_disk (plain_reliable sample_lib) merge_sort_volumes_contract).
  - apply (out_dotdot_dir).
  - by apply game_volumes.
  - reflexivity.
  - split; [reflexivity|]. constructor; [|constructor]. apply sample_entry_whole. cbn. lia.
  - reflexivity.
  - left. reflexivity.
  - intros d' Hd'. assert (d' = <[ [$ "data"; $ "out"; $ "game"; $ "eboot.bin"] := [x01; x02; x03] ]> start_disk) as ->.
    { apply map_eq. intros f. etrans; [apply (Hd' f)|]. unfold unpack. cbn [foldl].
      change (target _ _) with [$ "data"; $ "out"; $ "game"; $ "eboot.bin"].
      case_decide as Hf; [rewrite Hf; by rewrite lookup_insert_eq|by rewrite lookup_insert_ne]. }
    vm_compute. reflexivity.
Defined.

Lemma nested_unreadable_reported_ok_witness :
  extract_nested never_stop merge_sort_volumes [] ($ "/data/out") (<[ [$ "data"; $ "out"; $ "in.rar"] := [x43] ]> start_disk) =
  (<[ [$ "data"; $ "out"; $ "in.rar"] := [x43] ]> start_disk, EXTRACT_OK).
Proof.
  apply (nested_unreadable_reported_ok never_stop merge_sort_volumes [] ($ "/data/out") ($ "in.rar") ($ "wrong password")
           (ArchiveId AKIND_RAR ($ "in") 0) (<[ [$ "data"; $ "out"; $ "in.rar"] := [x43] ]> start_disk) merge_sort_volumes_contract).
  - vm_compute. reflexivity.
  - cbn. lia.
  - reflexivity.
  - reflexivity.
Defined.
