(* ===== verification/FinalizeArchive.v ===== *)
(** * A job with an archive, to its output ([finalize_job] with [extract_job])

    [Finalizer] takes the extraction as a result and what it does to the files;
    here both are those of [Extract.extract_job] on a disk that holds the
    files, so that the two components are one. *)

From Stdlib Require Import ZArith Lia List.
From Stdlib Require Import Strings.Byte Strings.String.
From stdpp Require Import base list gmap.
From S2P Require Import Prelude Json Config Paths Job JobStore Queue Worker Download Output Finalizer.
From S2P Require Import Volumes Extract ExtractFrame ExtractData.

(** A path without empty parts: different ones name different files. *)
Definition canonical (p : cstr) : Prop := p = abs_path (resolve p).

(** The files of the world as the disk of the extraction has them. *)
Definition view {D} `{DiskFrame D} (d : D) (fs : file_system) : Prop :=
  ∀ p, canonical p → fs !! p = disk_file d (resolve p).

(** The input of the world's next extraction is what [extract_job] does. *)
Record extraction_of {D} `{DiskFrame D} (cb : Z → Z → bool) (qsort : list member → list member) (j : job)
    (src dest : cstr) (d : D) (w : world) : Prop := {
  eo_before : view d (w_files w);
  eo_input : ∃ effect rest, let r := extract_job cb qsort j src dest d in
    in_extract (w_inputs w) = (r.2, effect) :: rest ∧ view r.1 (effect (w_files w));
}.

Section finalize.
Context {codec : JsonCodec}.
Context (cfg : app_config) (tree : file_system → cstr → node) (mkdir_ok : cstr → bool) (lst_ok : bool).

(** The end of [finalize_job] when the extraction succeeds, in every
    interleaving. *)
Lemma finalize_job_extracted id dest_dir effect rest w :
  job_at id (λ _, True) w →
  (∀ j, lookup_job (w_queue w) id = Some j → job_output_dest_dir cfg j = dest_dir) → dest_dir ≠ [] →
  in_extract (w_inputs w) = (EXTRACT_OK, effect) :: rest →
  wp (finalize_job cfg tree mkdir_ok lst_ok id) (λ e w', e = None ∧
    (∀ p, under (job_temp_dir cfg id) p = true → w_files w' !! p = None) ∧
    (∀ p, under (job_temp_dir cfg id) p = false → p ≠ MANUAL_LST_PATH →
       w_files w' !! p = effect (w_files w) !! p)) w.
Proof using.
  intros Hw Hdest Hne Hex. unfold finalize_job.
  apply wp_bind. eapply wp_mono; [|by apply wp_deref]. intros j w' (-> & _ & Hj). cbv zeta.
  rewrite (Hdest j Hj), bool_decide_false by done.
  apply wp_bind. eapply wp_mono; [|apply wp_and; [by apply (quiet_job_enter id JOB_EXTRACTING (λ _, True))|apply enter_extract]].
  intros _ w1 [[Hw1 [Hf1 _]] Hx1].
  apply wp_bind. eapply wp_mono; [|apply wp_and; [by apply (quiet_tick id (λ _, True))|apply tick_extract]].
  intros _ w2 [[_ [Hf2 _]] Hx2]. unfold same_extract in *.
  apply wp_bind. unfold wp at 1, next_extract. rewrite Hx2, Hx1, Hex. cbn [pop].
  apply wp_bind. unfold wp at 1, put. cbn [w_files with_content with_inputs].
  apply wp_bind. eapply wp_mono; [|apply finish_output_effect]. intros _ w5 [Hu Hs]. apply wp_ret.
  split_and!; [done|done|]. intros p Hp Hm. rewrite (Hs p Hp Hm). cbn [w_files with_content]. congruence.
Qed.
End finalize.


(** ** An archive of one file *)

Lemma view_empty (lib : list cstr → lib_archive) : @view plain (plain_disk lib) (plain_frame lib) ∅ ∅.
Proof. intros p _. cbn. by rewrite !lookup_empty. Qed.

Lemma view_insert (lib : list cstr → lib_archive) (d : plain) (fs : file_system) q data :
  canonical q → @view plain (plain_disk lib) (plain_frame lib) d fs →
  @view plain (plain_disk lib) (plain_frame lib) (<[resolve q := data]> d) (<[q := data]> fs).
Proof.
  intros Hq Hv p Hp. cbn. destruct (decide (q = p)) as [->|Hne]; [by rewrite !lookup_insert_eq|].
  rewrite !lookup_insert_ne; [by apply Hv| |done]. intros E. apply Hne.
  rewrite Hq, E. symmetry. exact Hp.
Qed.

Definition game_lib (volumes : list cstr) : lib_archive := LibArchive [sample_entry] None.

#[local] Instance game_disk : ExtractDisk plain := plain_disk game_lib.
#[local] Instance game_frame : DiskFrame plain := plain_frame game_lib.
#[local] Instance game_writes : DiskWrites plain := plain_writes game_lib.

Definition game_job : job := set_files game_files one_job.
Definition game_dest : cstr := job_output_dest_dir small_config game_job.
Definition game_volume : cstr := $ "/t/0a1b2c/game.rar".
Definition game_output : cstr := $ "/o/show/game/eboot.bin".

Definition game_store : plain := <[resolve game_volume := [x43] ]> ∅.
Definition game_store_after : plain := <[resolve game_output := [x01; x02; x03] ]> game_store.

Definition game_world : world :=
  World (Queue ($ "/q") [game_job]) ∅ (<[game_volume := [x43] ]> ∅) false [] [] [$ "0a1b2c"] []
    (Inputs [] [] [] [] [(EXTRACT_OK, <[game_output := [x01; x02; x03] ]>)] [] []).

Lemma game_dotdot : dotdot game_dest → False.
Proof.
  change (dotdot game_dest) with ($ ".." ∈ [$ ""; $ "o"; $ "show"]). rewrite !elem_of_cons, elem_of_nil. naive_solver.
Qed.

Lemma game_flat (d : plain) :
  (∀ f, disk_file d f = unpack game_dest [sample_entry] (disk_file game_store) f) → d = game_store_after.
Proof.
  intros Hd. apply map_eq. intros f. etrans; [apply (Hd f)|]. unfold unpack. cbn [foldl].
  change (target _ _) with (resolve game_output). unfold game_store_after.
  case_decide as Hf; [rewrite Hf; by rewrite lookup_insert_eq|by rewrite lookup_insert_ne].
Qed.

Lemma game_nothing_nested (d : plain) :
  (∀ f, disk_file d f = unpack game_dest [sample_entry] (disk_file game_store) f) →
  nested_total merge_sort_volumes (j_passwords game_job) game_dest d = 0.
Proof. intros ->%game_flat. vm_compute. reflexivity. Qed.

Lemma game_whole volumes : archive_whole game_dest (j_passwords game_job) volumes [sample_entry] game_store.
Proof.
  split; [unfold open_archive; by case_match|].
  constructor; [|constructor]. apply sample_entry_whole. apply Nat.ltb_lt. vm_compute. reflexivity.
Qed.

Lemma game_extracted : extraction_of never_stop merge_sort_volumes game_job (job_temp_dir small_config ($ "0a1b2c"))
  game_dest game_store game_world.
Proof.
  assert (view game_store (w_files game_world)) as Hv
    by exact (view_insert game_lib ∅ ∅ game_volume [x43] eq_refl (view_empty game_lib)).
  split; [exact Hv|].
  destruct (extract_job_flat never_stop merge_sort_volumes game_dest (job_temp_dir small_config ($ "0a1b2c")) game_job
    Old_volumes ($ "game") 2 [sample_entry] game_store game_store) as (d' & -> & Hd').
  - exact merge_sort_volumes_contract.
  - exact game_dotdot.
  - by apply game_volumes.
  - reflexivity.
  - apply game_whole.
  - reflexivity.
  - left. reflexivity.
  - exact game_nothing_nested.
  - exists (<[game_output := [x01; x02; x03] ]>), []. apply game_flat in Hd' as ->. split; [reflexivity|].
    exact (view_insert game_lib game_store (w_files game_world) game_output [x01; x02; x03] eq_refl Hv).
Qed.

#[local] Abbreviation finalize_game codec :=
  (finalize_job (H := codec) small_config (λ _ _, NOther) (λ _, true) true ($ "0a1b2c") game_world).

Lemma finalize_game_succeeds (codec : JsonCodec) : fst <$> finalize_game codec = Some None.
Proof. reflexivity. Qed.

