(* ===== verification/PkgInstall.v ===== *)
(** * Installing a package ([system/pkg_install.c])

    The two calls of the console's installer, with the flag that remembers that
    the first one was made. *)

From Stdlib Require Import ZArith Lia List.
From Stdlib Require Import Strings.Byte Strings.String.
From stdpp Require Import base list gmap.
From S2P Require Import Prelude Paths Job.

(** [%x] of an [int]: the digits of the 32-bit word, at most eight. *)
Fixpoint hex_digits (fuel : nat) (n : Z) (acc : cstr) : cstr :=
  match fuel with
  | O => acc
  | S fuel =>
    let acc := hex_digit (n mod 16) :: acc in
    if n <? 16 then acc else hex_digits fuel (n / 16) acc
  end.

Definition print_hex (n : Z) : cstr := hex_digits 8 (u32 n) [].

Definition failed_text (what : cstr) (rc : Z) : cstr := str_fit 256 (what ++ $ " failed (0x" ++ print_hex rc ++ $ ")").

(** [initialize] and [install] are what the two system calls return; the answer
    is the flag [g_initialized], whether the package was handed to the
    installer, and the error ([None] for 0). *)
Definition pkg_install_file (initialize install : Z) (initialized : bool) : bool * bool * option cstr :=
  if negb initialized && negb (initialize =? 0)
  then (false, false, Some (failed_text ($ "sceAppInstUtilInitialize") initialize))
  else (true, true, if install =? 0 then None else Some (failed_text ($ "install") install)).

(** The flag is set once and for good, and no package is handed over before. *)
Lemma pkg_install_initialized initialize install initialized :
  let '(initialized', handed, err) := pkg_install_file initialize install initialized in
  (initialized = true → initialized' = true) ∧ (handed = true → initialized' = true) ∧
  (handed = false → initialized = false ∧ err ≠ None).
Proof. unfold pkg_install_file. destruct initialized, (initialize =? 0); cbn; by split_and!. Qed.

Example failed_install :
  pkg_install_file 0 (- 2137260032) false = (true, true, Some ($ "install failed (0x809c0000)")).
Proof. vm_compute. done. Qed.
