(* ===== verification/Utf8.v ===== *)
(** * The text of an NFO file ([web/api_jobs.c])

    The bytes of an NFO file are sent as they are when they are UTF-8, else
    they are read as codepage 437 and encoded. *)

From Stdlib Require Import ZArith Lia List.
From Stdlib Require Import Strings.Byte Strings.String.
From stdpp Require Import base list gmap.
From S2P Require Import Prelude.

(** ** [is_valid_utf8] *)

(** The number of bytes that follow a first byte, and its own bits. *)
Definition utf8_lead (c : byte) : option (nat * Z) :=
  let c := b2z c in
  if c <? 0x80 then Some (0%nat, c)
  else if Z.land c 0xE0 =? 0xC0 then Some (1%nat, Z.land c 0x1F)
  else if Z.land c 0xF0 =? 0xE0 then Some (2%nat, Z.land c 0x0F)
  else if Z.land c 0xF8 =? 0xF0 then Some (3%nat, Z.land c 0x07)
  else None.

(** The inner loop: the code point after [extra] more bytes. *)
Fixpoint utf8_tail (extra : nat) (cp : Z) (s : list byte) : option Z :=
  match extra, s with
  | O, _ => Some cp
  | S extra, cc :: s =>
    if Z.land (b2z cc) 0xC0 =? 0x80
    then utf8_tail extra (Z.lor (Z.shiftl cp 6) (Z.land (b2z cc) 0x3F)) s
    else None
  | S _, [] => None
  end.

Definition utf8_refused (extra : nat) (cp : Z) : bool :=
  ((extra =? 1)%nat && (cp <? 0x80)) || ((extra =? 2)%nat && (cp <? 0x800)) ||
  ((extra =? 3)%nat && (cp <? 0x10000)) || ((0xD800 <=? cp) && (cp <=? 0xDFFF)) || (0x10FFFF <? cp).

(** The outer loop on what is left of the text. *)
Fixpoint utf8_loop (fuel : nat) (s : list byte) : bool :=
  match fuel, s with
  | _, [] => true
  | O, _ => false
  | S fuel, c :: rest =>
    match utf8_lead c with
    | None => false
    | Some (extra, cp) =>
      if (length s <=? extra)%nat then false
      else
        match utf8_tail extra cp rest with
        | None => false
        | Some cp => if utf8_refused extra cp then false else utf8_loop fuel (drop extra rest)
        end
    end
  end.

(** Every turn takes a byte. *)
Definition is_valid_utf8 (s : list byte) : bool := utf8_loop (length s) s.

(** ** [cp437_to_utf8] *)

Definition cp437_upper : list Z :=
  [0x00C7; 0x00FC; 0x00E9; 0x00E2; 0x00E4; 0x00E0; 0x00E5; 0x00E7;
   0x00EA; 0x00EB; 0x00E8; 0x00EF; 0x00EE; 0x00EC; 0x00C4; 0x00C5;
   0x00C9; 0x00E6; 0x00C6; 0x00F4; 0x00F6; 0x00F2; 0x00FB; 0x00F9;
   0x00FF; 0x00D6; 0x00DC; 0x00A2; 0x00A3; 0x00A5; 0x20A7; 0x0192;
   0x00E1; 0x00ED; 0x00F3; 0x00FA; 0x00F1; 0x00D1; 0x00AA; 0x00BA;
   0x00BF; 0x2310; 0x00AC; 0x00BD; 0x00BC; 0x00A1; 0x00AB; 0x00BB;
   0x2591; 0x2592; 0x2593; 0x2502; 0x2524; 0x2561; 0x2562; 0x2556;
   0x2555; 0x2563; 0x2551; 0x2557; 0x255D; 0x255C; 0x255B; 0x2510;
   0x2514; 0x2534; 0x252C; 0x251C; 0x2500; 0x253C; 0x255E; 0x255F;
   0x255A; 0x2554; 0x2569; 0x2566; 0x2560; 0x2550; 0x256C; 0x2567;
   0x2568; 0x2564; 0x2565; 0x2559; 0x2558; 0x2552; 0x2553; 0x256B;
   0x256A; 0x2518; 0x250C; 0x2588; 0x2584; 0x258C; 0x2590; 0x2580;
   0x03B1; 0x00DF; 0x0393; 0x03C0; 0x03A3; 0x03C3; 0x00B5; 0x03C4;
   0x03A6; 0x0398; 0x03A9; 0x03B4; 0x221E; 0x03C6; 0x03B5; 0x2229;
   0x2261; 0x00B1; 0x2265; 0x2264; 0x2320; 0x2321; 0x00F7; 0x2248;
   0x00B0; 0x2219; 0x00B7; 0x221A; 0x207F; 0x00B2; 0x25A0; 0x00A0].

Definition utf8_encode (cp : Z) : list byte :=
  if cp <? 0x80 then [z2b cp]
  else if cp <? 0x800 then [z2b (Z.lor 0xC0 (Z.shiftr cp 6)); z2b (Z.lor 0x80 (Z.land cp 0x3F))]
  else [z2b (Z.lor 0xE0 (Z.shiftr cp 12)); z2b (Z.lor 0x80 (Z.land (Z.shiftr cp 6) 0x3F));
        z2b (Z.lor 0x80 (Z.land cp 0x3F))].

Definition cp437_point (c : byte) : Z :=
  if b2z c <? 0x80 then b2z c else nth (Z.to_nat (b2z c - 0x80)) cp437_upper 0.

Definition cp437_to_utf8 (s : list byte) : list byte := mjoin (utf8_encode ∘ cp437_point <$> s).

(** The text [api_jobs_get_nfo] sends for the bytes of a file. *)
Definition nfo_text (content : list byte) : list byte :=
  if is_valid_utf8 content then content else cp437_to_utf8 content.

(** ** The standard *)

(** Unicode scalar values, and their encoding form (RFC 3629). *)
Definition scalar (cp : Z) : Prop := 0 <= cp < 0x110000 ∧ ¬ (0xD800 <= cp < 0xE000).

Definition utf8 (cp : Z) : list byte :=
  if cp <? 0x80 then [z2b cp]
  else if cp <? 0x800 then [z2b (0xC0 + cp / 64); z2b (0x80 + cp mod 64)]
  else if cp <? 0x10000 then [z2b (0xE0 + cp / 4096); z2b (0x80 + cp / 64 mod 64); z2b (0x80 + cp mod 64)]
  else [z2b (0xF0 + cp / 262144); z2b (0x80 + cp / 4096 mod 64); z2b (0x80 + cp / 64 mod 64); z2b (0x80 + cp mod 64)].

Definition utf8_text (cps : list Z) : list byte := mjoin (utf8 <$> cps).

(** ** Bytes *)

(** A first byte by its range. *)
Lemma utf8_lead_cases c :
  utf8_lead c =
  if b2z c <? 0x80 then Some (0%nat, b2z c)
  else if b2z c <? 0xC0 then None
  else if b2z c <? 0xE0 then Some (1%nat, b2z c - 0xC0)
  else if b2z c <? 0xF0 then Some (2%nat, b2z c - 0xE0)
  else if b2z c <? 0xF8 then Some (3%nat, b2z c - 0xF0)
  else None.
Proof. by destruct c. Qed.

Definition is_cont (c : byte) : bool := (0x80 <=? b2z c) && (b2z c <? 0xC0).

Lemma cont_test c : (Z.land (b2z c) 0xC0 =? 0x80) = is_cont c.
Proof. by destruct c. Qed.

Lemma cont_bits c : is_cont c = true → Z.land (b2z c) 0x3F = b2z c - 0x80.
Proof. by destruct c. Qed.

Lemma is_cont_range c : is_cont c = true ↔ 0x80 <= b2z c < 0xC0.
Proof. unfold is_cont. rewrite andb_true_iff, Z.leb_le, Z.ltb_lt. lia. Qed.

Lemma shift_in cp x : 0 <= x < 64 → Z.lor (Z.shiftl cp 6) x = cp * 64 + x.
Proof. intros Hx. rewrite Z.lor_comm, lor_low by lia. change (2 ^ 6) with 64. lia. Qed.

Lemma land_3F x : Z.land x 0x3F = x mod 64.
Proof. change 0x3F with (Z.ones 6). by rewrite Z.land_ones. Qed.

(** A sequence of continuation bytes. *)
Lemma utf8_tail_S extra cp c s cp' :
  utf8_tail (S extra) cp (c :: s) = Some cp' ↔
  0x80 <= b2z c < 0xC0 ∧ utf8_tail extra (cp * 64 + (b2z c - 0x80)) s = Some cp'.
Proof.
  cbn [utf8_tail]. rewrite cont_test. destruct (is_cont c) eqn:Hc.
  - pose proof Hc as Hr. rewrite is_cont_range in Hr. rewrite cont_bits, shift_in by (done || lia). tauto.
  - split; [done|]. intros [Hr _]. rewrite <- is_cont_range in Hr. congruence.
Qed.

Lemma byte_eq c z : b2z c = z → c = z2b z.
Proof. intros <-. by rewrite z2b_b2z. Qed.

(** ** One character *)

(** What the loop accepts is the encoding of a scalar value. *)
Lemma utf8_accepted c rest extra v cp :
  utf8_lead c = Some (extra, v) → (extra < length (c :: rest))%nat → utf8_tail extra v rest = Some cp →
  utf8_refused extra cp = false → scalar cp ∧ c :: take extra rest = utf8 cp.
Proof.
  rewrite utf8_lead_cases. pose proof (b2z_range c) as Hc. intros Hlead Hlen Htail Href.
  unfold utf8_refused in Href. rewrite !orb_false_iff, !andb_false_iff, !Z.ltb_ge, !Z.leb_gt in Href.
  unfold scalar, utf8.
  repeat match type of Hlead with (if ?b then _ else _) = _ => destruct b eqn:? end; try discriminate;
    injection Hlead as <- <-; cbn [length] in Hlen;
    repeat match goal with
    | H : (_ <? _) = true |- _ => apply Z.ltb_lt in H
    | H : (_ <? _) = false |- _ => apply Z.ltb_ge in H
    end.
  - cbn in Htail. injection Htail as <-. rewrite (proj2 (Z.ltb_lt _ 0x80)) by lia.
    split; [lia|]. cbn. f_equal. by apply byte_eq.
  - destruct rest as [|c1 rest]; [cbn in Hlen; lia|]. apply utf8_tail_S in Htail as [H1 [= <-]].
    cbn [Nat.eqb] in Href. rewrite (proj2 (Z.ltb_ge _ 0x80)), (proj2 (Z.ltb_lt _ 0x800)) by lia.
    split; [lia|]. cbn. f_equal; [apply byte_eq; Z.div_mod_to_equations; lia|].
    f_equal. apply byte_eq. Z.div_mod_to_equations; lia.
  - destruct rest as [|c1 [|c2 rest]]; [cbn in Hlen; lia..|]. apply utf8_tail_S in Htail as [H1 Htail].
    apply utf8_tail_S in Htail as [H2 [= <-]]. cbn [Nat.eqb] in Href.
    rewrite (proj2 (Z.ltb_ge _ 0x80)), (proj2 (Z.ltb_ge _ 0x800)), (proj2 (Z.ltb_lt _ 0x10000)) by lia.
    split; [lia|]. cbn. f_equal; [apply byte_eq; Z.div_mod_to_equations; lia|].
    f_equal; [apply byte_eq; Z.div_mod_to_equations; lia|]. f_equal. apply byte_eq. Z.div_mod_to_equations; lia.
  - destruct rest as [|c1 [|c2 [|c3 rest]]]; [cbn in Hlen; lia..|]. apply utf8_tail_S in Htail as [H1 Htail].
    apply utf8_tail_S in Htail as [H2 Htail]. apply utf8_tail_S in Htail as [H3 [= <-]]. cbn [Nat.eqb] in Href.
    rewrite (proj2 (Z.ltb_ge _ 0x80)), (proj2 (Z.ltb_ge _ 0x800)), (proj2 (Z.ltb_ge _ 0x10000)) by lia.
    split; [lia|]. cbn. f_equal; [apply byte_eq; Z.div_mod_to_equations; lia|].
    f_equal; [apply byte_eq; Z.div_mod_to_equations; lia|]. f_equal; [apply byte_eq; Z.div_mod_to_equations; lia|].
    f_equal. apply byte_eq. Z.div_mod_to_equations; lia.
Qed.

Lemma lead_z2b z extra v :
  0 <= z < 256 →
  (z < 0x80 ∧ extra = 0%nat ∧ v = z ∨ 0xC0 <= z < 0xE0 ∧ extra = 1%nat ∧ v = z - 0xC0 ∨
   0xE0 <= z < 0xF0 ∧ extra = 2%nat ∧ v = z - 0xE0 ∨ 0xF0 <= z < 0xF8 ∧ extra = 3%nat ∧ v = z - 0xF0) →
  utf8_lead (z2b z) = Some (extra, v).
Proof.
  intros Hz Hcase. rewrite utf8_lead_cases, z2b_small by done.
  destruct (Z.ltb_spec z 0x80), (Z.ltb_spec z 0xC0), (Z.ltb_spec z 0xE0), (Z.ltb_spec z 0xF0), (Z.ltb_spec z 0xF8);
    try lia; do 2 f_equal; lia.
Qed.

Lemma tail_z2b extra cp x s : 0 <= x < 64 → utf8_tail (S extra) cp (z2b (0x80 + x) :: s) = utf8_tail extra (cp * 64 + x) s.
Proof.
  intros Hx. cbn [utf8_tail]. rewrite cont_test.
  assert (b2z (z2b (0x80 + x)) = 0x80 + x) as Hb by (apply z2b_small; lia).
  assert (is_cont (z2b (0x80 + x)) = true) as Hc by (apply is_cont_range; lia).
  rewrite Hc, cont_bits, shift_in by (done || lia). f_equal. lia.
Qed.

(** The encoding of a scalar value is one turn of the loop. *)
Lemma utf8_step cp s fuel : scalar cp → utf8_loop (S fuel) (utf8 cp ++ s) = utf8_loop fuel s.
Proof.
  intros [Hr Hs]. unfold utf8.
  assert (∀ extra v c rest, utf8_lead c = Some (extra, v) → length rest = extra → utf8_tail extra v (rest ++ s) = Some cp →
    utf8_refused extra cp = false → utf8_loop (S fuel) ((c :: rest) ++ s) = utf8_loop fuel s) as Hturn.
  { intros extra v c rest Hl He Ht Hf. cbn [app utf8_loop]. rewrite Hl.
    rewrite (proj2 (Nat.leb_gt _ _)) by (cbn; rewrite length_app; lia). rewrite Ht, Hf. f_equal.
    rewrite <- He. apply drop_app_length. }
  assert (∀ extra, (extra = 1%nat → 0x80 <= cp) → (extra = 2%nat → 0x800 <= cp) → (extra = 3%nat → 0x10000 <= cp) →
    utf8_refused extra cp = false) as Hok.
  { intros extra H1 H2 H3. unfold utf8_refused.
    rewrite !orb_false_iff, !andb_false_iff, !Z.ltb_ge, !Z.leb_gt, !Nat.eqb_neq. split_and!; [| | |lia|lia].
    - destruct (decide (extra = 1%nat)); [right; auto|by left].
    - destruct (decide (extra = 2%nat)); [right; auto|by left].
    - destruct (decide (extra = 3%nat)); [right; auto|by left]. }
  repeat case_match; repeat match goal with
    | H : (_ <? _) = true |- _ => apply Z.ltb_lt in H
    | H : (_ <? _) = false |- _ => apply Z.ltb_ge in H
    end.
  - apply (Hturn 0%nat cp); [apply lead_z2b; lia|done|done|]. apply (Hok 0%nat); lia.
  - pose proof (Z.div_mod cp 64 ltac:(lia)) as E. pose proof (Z.mod_pos_bound cp 64 ltac:(lia)).
    apply (Hturn 1%nat (cp / 64)); [apply lead_z2b; lia|done| |apply (Hok 1%nat); lia].
    cbn [app]. rewrite tail_z2b by lia. cbn. f_equal. lia.
  - pose proof (Z.mod_pos_bound cp 64 ltac:(lia)). pose proof (Z.mod_pos_bound (cp / 64) 64 ltac:(lia)).
    apply (Hturn 2%nat (cp / 4096)); [apply lead_z2b; Z.div_mod_to_equations; lia|done| |apply (Hok 2%nat); lia].
    cbn [app]. rewrite !tail_z2b by lia. cbn. f_equal. Z.div_mod_to_equations. lia.
  - pose proof (Z.mod_pos_bound cp 64 ltac:(lia)). pose proof (Z.mod_pos_bound (cp / 64) 64 ltac:(lia)).
    pose proof (Z.mod_pos_bound (cp / 4096) 64 ltac:(lia)).
    apply (Hturn 3%nat (cp / 262144)); [apply lead_z2b; Z.div_mod_to_equations; lia|done| |].
    + cbn [app]. rewrite !tail_z2b by lia. cbn. f_equal. Z.div_mod_to_equations. lia.
    + apply (Hok 3%nat); lia.
Qed.

Lemma utf8_nonempty cp : utf8 cp ≠ [].
Proof. unfold utf8. by repeat case_match. Qed.

Lemma utf8_text_accepted cps fuel :
  Forall scalar cps → (length (utf8_text cps) <= fuel)%nat → utf8_loop fuel (utf8_text cps) = true.
Proof.
  intros Hs. revert fuel. induction Hs as [|cp cps Hcp _ IH]; intros fuel Hf; [by destruct fuel|].
  unfold utf8_text in *. rewrite fmap_cons, mjoin_cons in *. rewrite length_app in Hf.
  pose proof (utf8_nonempty cp). destruct fuel as [|fuel]; [destruct (utf8 cp); [done|cbn in Hf; lia]|].
  rewrite utf8_step by done. apply IH. destruct (utf8 cp); [done|cbn in Hf; lia].
Qed.

Lemma utf8_loop_text fuel s : utf8_loop fuel s = true → ∃ cps, Forall scalar cps ∧ s = utf8_text cps.
Proof.
  revert s. induction fuel as [|fuel IH]; intros s Hrun.
  - destruct s; [by exists []|done].
  - destruct s as [|c rest]; [by exists []|]. cbn [utf8_loop] in Hrun.
    destruct (utf8_lead c) as [[extra v]|] eqn:Hl; [|done]. case_match eqn:Hlen; [done|]. apply Nat.leb_gt in Hlen.
    destruct (utf8_tail extra v rest) as [cp|] eqn:Ht; [|done]. case_match eqn:Hf; [done|].
    destruct (utf8_accepted c rest extra v cp Hl Hlen Ht Hf) as [Hcp Heq].
    destruct (IH _ Hrun) as (cps & Hcps & Hrest). exists (cp :: cps). split; [by constructor|].
    unfold utf8_text in *. rewrite fmap_cons, mjoin_cons, <- Heq, <- Hrest. cbn [app]. by rewrite take_drop.
Qed.

(** ** Codepage 437 *)

Lemma utf8_encode_standard cp : 0 <= cp < 0x10000 → utf8_encode cp = utf8 cp.
Proof.
  intros Hcp. unfold utf8_encode, utf8.
  assert (∀ lo, 0 <= lo < 64 → Z.lor 0x80 lo = 0x80 + lo) as H80.
  { intros lo Hlo. change (Z.lor 0x80 lo) with (Z.lor (Z.shiftl 2 6) lo). rewrite Z.lor_comm, lor_low by lia. lia. }
  rewrite !land_3F, !Z.shiftr_div_pow2 by lia. change (2 ^ 6) with 64. change (2 ^ 12) with 4096.
  pose proof (Z.mod_pos_bound cp 64 ltac:(lia)). pose proof (Z.mod_pos_bound (cp / 64) 64 ltac:(lia)).
  rewrite !H80 by lia. case_match; [done|]. case_match eqn:H8; [|rewrite (proj2 (Z.ltb_lt cp 0x10000)) by lia].
  - apply Z.ltb_lt in H8. do 2 f_equal. change 0xC0 with (Z.shiftl 3 6) at 1.
    rewrite Z.lor_comm, lor_low by (Z.div_mod_to_equations; lia). change (2 ^ 6) with 64. lia.
  - do 2 f_equal. change 0xE0 with (Z.shiftl 0xE 4) at 1.
    rewrite Z.lor_comm, lor_low by (Z.div_mod_to_equations; lia). change (2 ^ 4) with 16. lia.
Qed.

Lemma cp437_point_scalar c : 0 <= cp437_point c < 0xD800.
Proof.
  assert ((0 <=? cp437_point c) && (cp437_point c <? 0xD800) = true) as Hc by by destruct c.
  rewrite andb_true_iff, Z.leb_le, Z.ltb_lt in Hc. lia.
Qed.

Lemma cp437_is_text s : cp437_to_utf8 s = utf8_text (cp437_point <$> s).
Proof.
  unfold cp437_to_utf8, utf8_text. rewrite <- list_fmap_compose. f_equal. apply list_fmap_ext. intros i c _. cbn.
  pose proof (cp437_point_scalar c). apply utf8_encode_standard. lia.
Qed.

Lemma utf8_encode_length cp : (1 <= length (utf8_encode cp) <= 3)%nat.
Proof. unfold utf8_encode. repeat case_match; cbn; lia. Qed.

(** ** Properties *)

(** C18: [is_valid_utf8] accepts exactly the encodings of sequences of Unicode
    scalar values: no overlong form, no surrogate, nothing above 10FFFF, no
    sequence cut short. *)
Theorem is_valid_utf8_iff (s : list byte) :
  is_valid_utf8 s = true ↔ ∃ cps, Forall scalar cps ∧ s = utf8_text cps.
Proof.
  split; [apply utf8_loop_text|]. intros (cps & Hs & ->). by apply utf8_text_accepted.
Qed.

(** Whatever bytes an NFO file holds, what is sent is valid UTF-8: the bytes
    themselves where they are UTF-8 already, and else one character of codepage
    437 for each byte, which fits the buffer of three bytes each. *)
Theorem nfo_text_is_utf8 (content : list byte) :
  (∃ cps, Forall scalar cps ∧ nfo_text content = utf8_text cps ∧
          ((content = utf8_text cps) ∨ cps = cp437_point <$> content)) ∧
  (length (cp437_to_utf8 content) <= 3 * length content)%nat.
Proof.
  split.
  - unfold nfo_text. destruct (is_valid_utf8 content) eqn:Hv.
    + apply utf8_loop_text in Hv as (cps & Hs & Heq). exists cps. split_and!; [done|done|by left].
    + exists (cp437_point <$> content). split_and!; [|apply cp437_is_text|by right].
      apply Forall_fmap, Forall_true. intros c. pose proof (cp437_point_scalar c). unfold scalar. cbn. lia.
  - unfold cp437_to_utf8. induction content as [|c s IH]; [done|]. rewrite fmap_cons, mjoin_cons, length_app.
    pose proof (utf8_encode_length (cp437_point c)). cbn [length compose] in *. lia.
Qed.
