(* ===== verification/ApiConfig.v ===== *)
(** * The settings over HTTP ([web/api_config.c], [web/json_util.c])

    What GET answers, what POST changes, and what two POSTs at once do. *)

From Stdlib Require Import ZArith Lia List.
From Stdlib Require Import Strings.Byte Strings.String.
From stdpp Require Import base list gmap.
From S2P Require Import Prelude Cnum Config Json NntpPool.

(** ** Answers *)

(** What [httpd_queue_response] is given: a status and a JSON text ([Httpd] adds
    the answers that are none). *)
Record response := Response { rs_status : Z; rs_body : json }.

Definition HTTP_OK : Z := 200.
Definition HTTP_CREATED : Z := 201.
Definition HTTP_BAD_REQUEST : Z := 400.
Definition HTTP_NOT_FOUND : Z := 404.
Definition HTTP_CONFLICT : Z := 409.
Definition HTTP_INTERNAL_SERVER_ERROR : Z := 500.

Definition json_respond (status : Z) (body : json) : response := Response status body.

Definition json_respond_error (status : Z) (message : cstr) : response :=
  json_respond status (JObj [($ "error", JStr message)]).

(** ** GET *)

Definition config_to_json (cfg : app_config) : json :=
  let n := ac_nntp cfg in
  JObj [($ "nntp", JObj [($ "host", JStr (nc_host n)); ($ "port", JStr (nc_port n));
                         ($ "tls", JBool (negb (nc_tls n =? 0))); ($ "user", JStr (nc_user n));
                         ($ "max_connections", JNum (nc_max_connections n))]);
        ($ "storage", JObj [($ "output_dir", JStr (sc_output_dir (ac_storage cfg)));
                            ($ "temp_dir", JStr (sc_temp_dir (ac_storage cfg)))]);
        ($ "queue", JObj [($ "max_retries", JNum (qc_max_retries (ac_queue cfg)))])].

Definition api_config_get (cfg : app_config) : response :=
  json_respond HTTP_OK (config_to_json (app_config_redacted cfg)).

(** ** POST *)

Definition apply_string (obj : option json) (key : cstr) (size : nat) (dest : cstr) : cstr :=
  match as_string (get_item obj key) with Some s => str_fit size s | None => dest end.

Definition apply_int (obj : option json) (key : cstr) (dest : Z) : Z :=
  match get_item obj key with
  | Some (JNum n) => valueint n
  | Some (JBool b) => if b then 1 else 0
  | _ => dest
  end.

(** The password is only taken when it is not empty. *)
Definition apply_password (nntp : option json) (dest : cstr) : cstr :=
  match as_string (get_item nntp ($ "password")) with
  | Some (c :: s) => str_fit 128 (c :: s)
  | _ => dest
  end.

(** The fields of the body over those of the configuration. An object that is
    missing changes nothing: every lookup in it is [None]. *)
Definition merge_config (root : json) (cfg : app_config) : app_config :=
  let nntp := get_item (Some root) ($ "nntp") in
  let storage := get_item (Some root) ($ "storage") in
  let queue := get_item (Some root) ($ "queue") in
  let n := ac_nntp cfg in
  let max_connections := apply_int nntp ($ "max_connections") (nc_max_connections n) in
  let max_retries := apply_int queue ($ "max_retries") (qc_max_retries (ac_queue cfg)) in
  AppConfig
    (NntpConfig (apply_string nntp ($ "host") 256 (nc_host n)) (apply_string nntp ($ "port") 8 (nc_port n))
       (apply_int nntp ($ "tls") (nc_tls n)) (apply_string nntp ($ "user") 128 (nc_user n))
       (apply_password nntp (nc_pass n)) (if max_connections <? 1 then 1 else max_connections)
       (nc_connect_timeout_sec n) (nc_read_timeout_sec n) (nc_retry_count n))
    (StorageConfig (apply_string storage ($ "output_dir") 512 (sc_output_dir (ac_storage cfg)))
       (apply_string storage ($ "temp_dir") 512 (sc_temp_dir (ac_storage cfg))))
    (QueueConfig (if max_retries <? 0 then 0 else max_retries)).

#[export] Instance nntp_config_eq_dec : EqDecision nntp_config.
Proof. solve_decision. Defined.

(** [g_app.config], the file at [config_path] and [pool_reload_needed]. *)
Record config_state := ConfigState { cf_config : app_config; cf_file : list byte; cf_reload : bool }.

(** The second critical section. The buffers [memcmp] looks at agree beyond the
    strings where the strings agree, since one is a copy of the other. [saved]
    is whether the file could be written. *)
Definition config_commit (saved : bool) (updated : app_config) (st : config_state) : config_state :=
  let nntp_changed := negb (bool_decide (ac_nntp (cf_config st) = ac_nntp updated)) in
  ConfigState updated (if saved then app_config_save updated else cf_file st) (cf_reload st || nntp_changed).

Section post.
Context `{JsonCodec}.

(** The body read against the configuration of the first critical section:
    an answer at once, or the configuration to commit. *)
Definition config_prepare (body : list byte) (cfg : app_config) : response + app_config :=
  match body with
  | [] => inl (json_respond_error HTTP_BAD_REQUEST ($ "empty request body"))
  | _ =>
    match parse body with
    | None => inl (json_respond_error HTTP_BAD_REQUEST ($ "invalid JSON"))
    | Some root => inr (merge_config root cfg)
    end
  end.

(** A request that nobody interrupts. *)
Definition api_config_post (saved : bool) (body : list byte) (st : config_state) : config_state * response :=
  match config_prepare body (cf_config st) with
  | inl r => (st, r)
  | inr updated =>
    (config_commit saved updated st, json_respond HTTP_OK (config_to_json (app_config_redacted updated)))
  end.
End post.

(** [app_build_pool_opts]; the host, the port and the timeouts go to the
    connections, whose opening is an outcome in [Nntp]. *)
Definition app_build_pool_opts (cfg : app_config) : nntp_pool_opts :=
  let n := ac_nntp cfg in
  NntpPoolOpts (negb (nc_tls n =? 0)) (str_fit 128 (nc_user n)) (str_fit 128 (nc_pass n)) (nc_max_connections n)
    (nc_retry_count n).

(** [app_reload_pool_if_needed], up to the pools: the flag is cleared and the
    new pool is made with the settings of now. *)
Definition app_reload_pool_if_needed (st : config_state) : config_state * option nntp_pool_opts :=
  if cf_reload st
  then (ConfigState (cf_config st) (cf_file st) false, Some (app_build_pool_opts (cf_config st)))
  else (st, None).

(** ** Several requests at once *)

(** A step of request [i]: it reads the configuration and prepares its own, or
    commits it. The prepared ones are kept by the number of the request. *)
Inductive config_event := ReadConfig (i : nat) (root : json) | CommitConfig (i : nat) (saved : bool).

Definition config_step (st : config_state * gmap nat app_config) (e : config_event)
    : config_state * gmap nat app_config :=
  match e with
  | ReadConfig i root => (st.1, <[i := merge_config root (cf_config st.1)]> st.2)
  | CommitConfig i saved =>
    match st.2 !! i with
    | Some updated => (config_commit saved updated st.1, delete i st.2)
    | None => st
    end
  end.

(** ** Lemmas *)

(** A configuration whose fields fit what stores them. *)
Record config_typed (cfg : app_config) : Prop := {
  ct_host : (length (nc_host (ac_nntp cfg)) < 256)%nat;
  ct_port : (length (nc_port (ac_nntp cfg)) < 8)%nat;
  ct_user : (length (nc_user (ac_nntp cfg)) < 128)%nat;
  ct_pass : (length (nc_pass (ac_nntp cfg)) < 128)%nat;
  ct_output : (length (sc_output_dir (ac_storage cfg)) < 512)%nat;
  ct_temp : (length (sc_temp_dir (ac_storage cfg)) < 512)%nat;
  ct_tls : - 2 ^ 31 <= nc_tls (ac_nntp cfg) < 2 ^ 31;
  ct_conns : 1 <= nc_max_connections (ac_nntp cfg) < 2 ^ 31;
  ct_retries : 0 <= qc_max_retries (ac_queue cfg) < 2 ^ 31;
}.

Lemma str_fit_length n s : (0 < n)%nat → (length (str_fit n s) < n)%nat.
Proof. intros Hn. unfold str_fit. rewrite length_take. lia. Qed.

Lemma apply_string_fits obj key n dest : (0 < n)%nat → (length dest < n)%nat → (length (apply_string obj key n dest) < n)%nat.
Proof. intros Hn Hd. unfold apply_string. case_match; [by apply str_fit_length|done]. Qed.

Lemma valueint_range n : - 2 ^ 31 <= valueint n < 2 ^ 31.
Proof. unfold valueint. destruct (Z.leb_spec (2 ^ 31 - 1) n), (Z.leb_spec n (- 2 ^ 31)); lia. Qed.

Lemma apply_int_range obj key dest : - 2 ^ 31 <= dest < 2 ^ 31 → - 2 ^ 31 <= apply_int obj key dest < 2 ^ 31.
Proof.
  intros Hd. unfold apply_int. destruct (get_item obj key) as [[|[]| | | |]|]; try lia. apply valueint_range.
Qed.

Lemma merge_typed root cfg : config_typed cfg → config_typed (merge_config root cfg).
Proof.
  intros []. unfold merge_config. split; cbn [ac_nntp ac_storage ac_queue nc_host nc_port nc_user nc_pass nc_tls
    nc_max_connections sc_output_dir sc_temp_dir qc_max_retries];
    try (apply apply_string_fits; [lia|done]).
  - unfold apply_password. repeat case_match; try done. apply str_fit_length. lia.
  - by apply apply_int_range.
  - pose proof (apply_int_range (get_item (Some root) ($ "nntp")) ($ "max_connections")
      (nc_max_connections (ac_nntp cfg)) ltac:(lia)). destruct (Z.ltb_spec (apply_int (get_item (Some root) ($ "nntp"))
      ($ "max_connections") (nc_max_connections (ac_nntp cfg))) 1); lia.
  - pose proof (apply_int_range (get_item (Some root) ($ "queue")) ($ "max_retries")
      (qc_max_retries (ac_queue cfg)) ltac:(lia)). destruct (Z.ltb_spec (apply_int (get_item (Some root) ($ "queue"))
      ($ "max_retries") (qc_max_retries (ac_queue cfg))) 0); lia.
Qed.

Definition events_typed (st : config_state * gmap nat app_config) : Prop :=
  config_typed (cf_config st.1) ∧ map_Forall (λ _ cfg, config_typed cfg) st.2.

Lemma config_step_typed st e : events_typed st → events_typed (config_step st e).
Proof.
  intros [Hc Hp]. destruct e as [i root|i saved]; cbn [config_step].
  - split; [done|]. apply map_Forall_insert_2; [by apply merge_typed|done].
  - destruct (st.2 !! i) as [updated|] eqn:E; [|done]. split; [by apply (Hp i)|]. by apply map_Forall_delete.
Qed.

Lemma redacted_idemp_json cfg :
  config_to_json (app_config_redacted cfg) = config_to_json cfg.
Proof. done. Qed.

(** The fields GET shows, put over the configuration they are from. *)
Lemma merge_own_json cfg :
  config_typed cfg → nc_tls (ac_nntp cfg) = 0 ∨ nc_tls (ac_nntp cfg) = 1 →
  merge_config (config_to_json cfg) cfg = cfg.
Proof.
  destruct cfg as [[host port tls user pass conns t1 t2 rc] [out tmp] [retries]].
  intros [Hh Hp Hu Hpw Ho Ht _ Hc Hr] Htls. cbn in Hh, Hp, Hu, Hpw, Ho, Ht, Hc, Hr, Htls.
  trans (AppConfig (NntpConfig (str_fit 256 host) (str_fit 8 port) (if negb (tls =? 0) then 1 else 0)
    (str_fit 128 user) pass (if valueint conns <? 1 then 1 else valueint conns) t1 t2 rc)
    (StorageConfig (str_fit 512 out) (str_fit 512 tmp))
    (QueueConfig (if valueint retries <? 0 then 0 else valueint retries))); [reflexivity|].
  rewrite !str_fit_id, !valueint_id by lia.
  rewrite (proj2 (Z.ltb_ge conns 1)), (proj2 (Z.ltb_ge retries 0)) by lia.
  by destruct Htls as [-> | ->].
Qed.

(** The strings of a configuration hold no NUL, and its numbers are exact. *)
Lemma config_json_ok cfg :
  config_typed cfg → no_nul (nc_host (ac_nntp cfg)) → no_nul (nc_port (ac_nntp cfg)) →
  no_nul (nc_user (ac_nntp cfg)) → no_nul (sc_output_dir (ac_storage cfg)) → no_nul (sc_temp_dir (ac_storage cfg)) →
  json_ok (config_to_json cfg).
Proof.
  intros [] Hh Hp Hu Ho Ht. unfold config_to_json. cbn [json_ok]. unfold json_int.
  split_and!; try done; try lia; repeat (constructor; [done|]); by constructor.
Qed.

(** ** Properties *)

(** C19: whatever requests with whatever JSON bodies are answered, in any
    interleaving of their two critical sections, every field of the
    configuration in use fits its buffer and its integer, with at least one
    connection and no negative number of retries. *)
Theorem config_always_typed (st : config_state) (events : list config_event)
    (Hst : config_typed (cf_config st)) :
  config_typed (cf_config (foldl config_step (st, ∅) events).1).
Proof.
  assert (events_typed (foldl config_step (st, ∅) events)) as [H _]; [|done].
  assert (events_typed (st, ∅)) as H by (split; [done|apply map_Forall_empty]). revert H.
  generalize (st, ∅ : gmap nat app_config). induction events as [|e es IH]; intros s Hs; [done|].
  apply IH. by apply config_step_typed.
Qed.

(** What GET answers does not depend on the password; and sent back as the
    body of a POST it changes nothing: the configuration, with its password,
    stays, the connections are not rebuilt, and the answer is the same again. *)
Theorem config_get_post_roundtrip {codec : JsonCodec} (saved : bool) (st : config_state) (pass : cstr)
    (Ht : config_typed (cf_config st))
    (Htls : nc_tls (ac_nntp (cf_config st)) = 0 ∨ nc_tls (ac_nntp (cf_config st)) = 1)
    (Hok : json_ok (config_to_json (cf_config st))) (Hprint : print (config_to_json (cf_config st)) ≠ []) :
  let n := ac_nntp (cf_config st) in
  let other := AppConfig (NntpConfig (nc_host n) (nc_port n) (nc_tls n) (nc_user n) pass (nc_max_connections n)
                 (nc_connect_timeout_sec n) (nc_read_timeout_sec n) (nc_retry_count n))
                 (ac_storage (cf_config st)) (ac_queue (cf_config st)) in
  api_config_get other = api_config_get (cf_config st) ∧
  let '(st', r) := api_config_post saved (print (rs_body (api_config_get (cf_config st)))) st in
  cf_config st' = cf_config st ∧ cf_reload st' = cf_reload st ∧ r = api_config_get (cf_config st).
Proof.
  split; [done|]. unfold api_config_post, config_prepare, api_config_get. cbn [rs_body json_respond].
  rewrite redacted_idemp_json. destruct (print (config_to_json (cf_config st))) as [|c body] eqn:E; [done|].
  rewrite <- E, parse_print by done. rewrite (merge_own_json _ Ht Htls). cbn [config_commit cf_config cf_reload].
  by rewrite bool_decide_eq_true_2, orb_false_r.
Qed.

Definition host_body : json := JObj [($ "nntp", JObj [($ "host", JStr ($ "news.example"))])].
Definition retries_body : json := JObj [($ "queue", JObj [($ "max_retries", JNum 7)])].

Definition two_posts (first second : list config_event) (st : config_state) : config_state :=
  (foldl config_step (st, ∅) (first ++ second)).1.

(** Two POSTs whose critical sections interleave: both are answered with
    success, but of two changes to different fields the first is undone by the
    second, which no order of the two requests one after the other does. *)
Theorem concurrent_posts_lose_update (st : config_state) (host : cstr) (retries : Z)
    (r1 := JObj [($ "nntp", JObj [($ "host", JStr host)])])
    (r2 := JObj [($ "queue", JObj [($ "max_retries", JNum retries)])])
    (Hhost : (length host < 256)%nat) :
  let interleaved := two_posts [ReadConfig 1 r1; ReadConfig 2 r2] [CommitConfig 1 true; CommitConfig 2 true] st in
  let in_order := two_posts [ReadConfig 1 r1; CommitConfig 1 true] [ReadConfig 2 r2; CommitConfig 2 true] st in
  let other_order := two_posts [ReadConfig 2 r2; CommitConfig 2 true] [ReadConfig 1 r1; CommitConfig 1 true] st in
  nc_host (ac_nntp (cf_config interleaved)) = nc_host (ac_nntp (cf_config st)) ∧
  nc_host (ac_nntp (cf_config in_order)) = host ∧ nc_host (ac_nntp (cf_config other_order)) = host.
Proof.
  assert (str_fit 256 host = host) as Hfit by by apply str_fit_id.
  split_and!; [reflexivity|..]; (etrans; [|exact Hfit]); reflexivity.
Qed.

Definition sample_state : config_state := ConfigState sample_config [] false.

Lemma sample_typed : config_typed sample_config.
Proof. split; cbn; lia. Qed.

Lemma config_always_typed_witness :
  config_typed (cf_config (foldl config_step (sample_state, ∅)
    [ReadConfig 1 host_body; ReadConfig 2 retries_body; CommitConfig 2 true; CommitConfig 1 false]).1).
Proof. apply (config_always_typed sample_state). exact sample_typed. Defined.

Lemma concurrent_posts_lose_update_witness :
  let interleaved := two_posts [ReadConfig 1 host_body; ReadConfig 2 retries_body]
                       [CommitConfig 1 true; CommitConfig 2 true] sample_state in
  nc_host (ac_nntp (cf_config interleaved)) = nc_host (ac_nntp (cf_config sample_state)).
Proof.
  apply (concurrent_posts_lose_update sample_state ($ "news.example") 7). cbn. lia.
Defined.

(** A codec whose texts are not empty. *)
#[local] Instance sample_codec : JsonCodec.
Proof.
  refine {| print t := x20 :: @print toy_codec t; parse s := @parse toy_codec (tail s) |}.
  - intros t Ht. constructor; [done|]. by apply (@print_no_nul toy_codec).
  - exact (@parse_print toy_codec).
Defined.

Lemma config_get_post_roundtrip_witness :
  api_config_get (cf_config sample_state) = api_config_get (AppConfig
    (NntpConfig ($ "news.example.org") ($ "563") 1 ($ "bob") ($ "another") 20 60 15 5)
    (StorageConfig ($ "/mnt/usb0") ($ "/data/tmp")) (QueueConfig 3)).
Proof.
  symmetry. apply (config_get_post_roundtrip true sample_state ($ "another")).
  - exact sample_typed.
  - by right.
  - apply config_json_ok; [exact sample_typed|..]; repeat constructor; done.
  - done.
Defined.

(** A value with a line break becomes a line of its own in the file: after a
    restart the password is another one. *)
Example posted_line_break :
  let posted := merge_config (JObj [($ "storage", JObj [($ "output_dir", JStr ($ "/data" ++ x0a :: $ "pass=other"))])])
                  sample_config in
  nc_pass (ac_nntp posted) = $ "p=#w d" ∧
  nc_pass (ac_nntp (fst (app_config_load (Some (app_config_save posted))))) = $ "other".
Proof. vm_compute. done. Qed.
