(* ===== verification/Interact.v ===== *)
(** * Programs that talk to their environment

    A program whose calls leave it is an interaction tree: its nodes are calls,
    and what follows a call depends on the answer. A protocol says in which
    states a call is allowed and which states its answers lead to; a program
    obeys it when every call it ever makes, on every run, finite or not, is
    allowed. The rules of [obeys] are those of a program logic, with an invariant
    for loops. [runs] are the single finite runs, [ends_within] bounds the calls
    until the program returns. *)

From Stdlib Require Import ZArith Lia List.
From stdpp Require Import base list gmap.
From ITree Require Import ITree.
From Paco Require Import paco.
From S2P Require Import Prelude.

#[global] Instance itree_mret {E : Type → Type} : MRet (itree E) := λ A a, Ret a.
#[global] Instance itree_mbind {E : Type → Type} : MBind (itree E) := λ A B k t, ITree.bind t k.

Abbreviation call := ITree.trigger.

Class Protocol (E : Type → Type) (S : Type) := {
  allowed : ∀ {A}, S → E A → Prop;
  leads : ∀ {A}, S → E A → A → S → Prop
}.

Section protocol.
Context {E : Type → Type} {S : Type} `{!Protocol E S}.

(** ** Every call is allowed *)

Inductive obeysF {R} (post : S → R → Prop) (rec : S → itree E R → Prop) (s : S) : itree' E R → Prop :=
  | obeys_RetF r : post s r → obeysF post rec s (RetF r)
  | obeys_TauF t : rec s t → obeysF post rec s (TauF t)
  | obeys_VisF A (e : E A) k :
      allowed s e → (∀ a s', leads s e a s' → rec s' (k a)) → obeysF post rec s (VisF e k).

Definition obeys_ {R} (post : S → R → Prop) (rec : S → itree E R → Prop) (s : S) (t : itree E R) : Prop :=
  obeysF post rec s (observe t).

Lemma obeys_mono {R} (post : S → R → Prop) : monotone2 (obeys_ post).
Proof. intros s t r r' H Hr. unfold obeys_ in *. destruct H; constructor; auto. Qed.
#[local] Hint Resolve obeys_mono : paco.

(** From the state [s] the tree [t] makes allowed calls only, and where it
    returns, the state and the result satisfy [post]. *)
Definition obeys {R} (post : S → R → Prop) (s : S) (t : itree E R) : Prop := paco2 (obeys_ post) bot2 s t.

Lemma obeys_ret {R} (post : S → R → Prop) s r : post s r → obeys post s (mret r).
Proof. intros. pfold. by constructor. Qed.

Lemma obeys_call {A} (post : S → A → Prop) s (e : E A) :
  allowed s e → (∀ a s', leads s e a s' → post s' a) → obeys post s (call e).
Proof. intros He Hn. pfold. constructor; [done|]. intros a s' Hs. left. by apply obeys_ret, Hn. Qed.

(** Only what a tree does matters. *)
Lemma obeys_observe {R} (post : S → R → Prop) s (t t' : itree E R) :
  observe t = observe t' → obeys post s t → obeys post s t'.
Proof. intros Heq Ht. punfold Ht. pfold. unfold obeys_ in *. by rewrite <- Heq. Qed.

Lemma observe_bind {A R} (t : itree E A) (k : A → itree E R) :
  observe (ITree.bind t k) =
  match observe t with
  | RetF a => observe (k a)
  | TauF t' => TauF (ITree.bind t' k)
  | VisF e h => VisF e (λ x, ITree.bind (h x) k)
  end.
Proof. unfold observe at 1. cbn. by destruct (observe t). Qed.

Lemma obeys_bind {A R} (mid : S → A → Prop) (post : S → R → Prop) s (t : itree E A) (k : A → itree E R) :
  obeys mid s t → (∀ s' a, mid s' a → obeys post s' (k a)) → obeys post s (t ≫= k).
Proof.
  intros Ht Hk. revert s t Ht. pcofix CIH. intros s t Ht. punfold Ht. pfold. unfold obeys_ in *. unfold mbind, itree_mbind.
  rewrite observe_bind. destruct Ht as [a Ha|t' Ht'|B e k' He Hn].
  - specialize (Hk s a Ha). punfold Hk. unfold obeys_ in Hk.
    eapply (obeys_mono post s (k a) (upaco2 (obeys_ post) bot2)); [exact Hk|].
    intros s' u [Hu|[]]. left. eapply paco2_mon_bot; eauto.
  - pclearbot. constructor. right. by apply CIH.
  - constructor; [done|]. intros b s' Hs. specialize (Hn b s' Hs). pclearbot. right. by apply CIH.
Qed.

Lemma obeys_step {A R} (post : S → R → Prop) s (e : E A) (k : A → itree E R) :
  allowed s e → (∀ a s', leads s e a s' → obeys post s' (k a)) → obeys post s (call e ≫= k).
Proof. intros He Hk. eapply (obeys_bind (λ s' a, leads s e a s')); [by apply obeys_call|auto]. Qed.

(** A loop whose body keeps [inv] until it leaves. *)
Lemma obeys_iter {I R} (inv : S → I → Prop) (post : S → R → Prop) (body : I → itree E (I + R)) :
  (∀ s i, inv s i → obeys (λ s' lr, match lr with inl i' => inv s' i' | inr r => post s' r end) s (body i)) →
  ∀ s i, inv s i → obeys post s (ITree.iter body i).
Proof.
  intros Hbody s i Hi. set (mid := λ s' lr, match lr with inl i' => inv s' i' | inr r => post s' r end) in *.
  set (loop := λ lr : I + R, match lr with inl i' => Tau (ITree.iter body i') | inr r => Ret r end).
  assert (∀ s t u, obeys mid s t → observe u = observe (ITree.bind t loop) → obeys post s u) as Hloop.
  { clear s i Hi. pcofix CIH. intros s t u Ht Hu. punfold Ht. pfold. unfold obeys_ in *. rewrite Hu, observe_bind.
    destruct Ht as [[i|r0] Ha|t' Ht'|B e k' He Hn]; cbn [loop observe _observe].
    - constructor. right. by eapply (CIH s (body i)); [apply Hbody|].
    - by constructor.
    - pclearbot. constructor. right. by eapply CIH.
    - constructor; [done|]. intros b s' Hs. specialize (Hn b s' Hs). pclearbot. right. by eapply CIH. }
  eapply (Hloop s (body i)); [by apply Hbody|reflexivity].
Qed.

Lemma obeys_weaken {R} (post post' : S → R → Prop) s (t : itree E R) :
  (∀ s' r, post s' r → post' s' r) → obeys post s t → obeys post' s t.
Proof.
  intros Hp. revert s t. pcofix CIH. intros s t Ht. punfold Ht. pfold. unfold obeys_ in *.
  destruct Ht as [a Ha|t' Ht'|B e k' He Hn].
  - constructor. by apply Hp.
  - pclearbot. constructor. right. by apply CIH.
  - constructor; [done|]. intros b s' Hs. specialize (Hn b s' Hs). pclearbot. right. by apply CIH.
Qed.

(** ** Finite runs *)

(** A run: the calls with their answers, in order, until the program returns. *)
Record answered := Answered { an_type : Type; an_call : E an_type; an_answer : an_type }.

Inductive runs {R} : S → itree E R → list answered → S → R → Prop :=
  | runs_ret s t r : observe t = RetF r → runs s t [] s r
  | runs_tau s t t' tr s' r : observe t = TauF t' → runs s t' tr s' r → runs s t tr s' r
  | runs_vis s t A (e : E A) k a s1 tr s' r :
      observe t = VisF e k → leads s e a s1 → runs s1 (k a) tr s' r → runs s t (Answered A e a :: tr) s' r.

Lemma obeysF_vis {R} (post : S → R → Prop) rec s A (e : E A) (k : A → itree E R) :
  obeysF post rec s (VisF e k) → allowed s e ∧ ∀ a s', leads s e a s' → rec s' (k a).
Proof.
  intros H. refine (match H in obeysF _ _ _ t
    return match t with VisF e k => allowed s e ∧ ∀ a s', leads s e a s' → rec s' (k a) | _ => True end
    with obeys_VisF _ _ _ _ _ _ He Hn => conj He Hn | _ => I end).
Qed.

Lemma obeys_runs {R} (post : S → R → Prop) s (t : itree E R) tr s' r :
  obeys post s t → runs s t tr s' r → post s' r.
Proof.
  intros Ht Hr. revert Ht. induction Hr as [s t r Ho|s t t' tr s' r Ho _ IH|s t A e k a s1 tr s' r Ho Hl _ IH];
    intros Ht; punfold Ht; unfold obeys_ in Ht; rewrite Ho in Ht.
  - by inversion Ht.
  - inversion Ht; subst. pclearbot. by apply IH.
  - apply obeysF_vis in Ht as [_ Hn]. destruct (Hn a s1 Hl) as [|[]]. by apply IH.
Qed.
End protocol.

(** ** How soon a program returns *)

Section ends.
Context {E : Type → Type} (answers : ∀ A, E A → A → Prop).

(** With such [answers], whatever they are, [t] makes at most [n] calls and
    returns a result in [P]. *)
Inductive ends_within {R} (P : R → Prop) : nat → itree E R → Prop :=
  | ends_Ret n t r : observe t = RetF r → P r → ends_within P n t
  | ends_Tau n t t' : observe t = TauF t' → ends_within P n t' → ends_within P n t
  | ends_Vis n t A (e : E A) k :
      observe t = VisF e k → (∀ a, answers A e a → ends_within P n (k a)) → ends_within P (S n) t.

Lemma ends_ret {R} (P : R → Prop) n r : P r → ends_within P n (mret r).
Proof. intros. by eapply ends_Ret. Qed.

Lemma ends_more {R} (P : R → Prop) n m t : (n <= m)%nat → ends_within P n t → ends_within P m t.
Proof.
  intros Hle H. revert m Hle. induction H as [n t r Ho Hr|n t t' Ho _ IH|n t A e k Ho _ IH]; intros m Hle.
  - by eapply ends_Ret.
  - eapply ends_Tau; [done|]. by apply IH.
  - destruct m as [|m]; [lia|]. eapply ends_Vis; [done|]. intros a Ha. apply IH; [done|lia].
Qed.

Lemma ends_observe {R} (P : R → Prop) n t t' : observe t = observe t' → ends_within P n t → ends_within P n t'.
Proof.
  intros Heq. destruct 1 as [n t r Ho Hr|n t t1 Ho H1|n t C e h Ho H1]; rewrite Heq in Ho.
  - by eapply ends_Ret.
  - by eapply ends_Tau.
  - by eapply ends_Vis.
Qed.

Lemma ends_call {A} (P : A → Prop) n (e : E A) : (∀ a, answers A e a → P a) → ends_within P (S n) (call e).
Proof. intros HP. eapply ends_Vis; [reflexivity|]. intros a Ha. by apply ends_ret, HP. Qed.

Lemma ends_bind {A R} (Q : A → Prop) (P : R → Prop) n m (t : itree E A) (k : A → itree E R) :
  ends_within Q n t → (∀ a, Q a → ends_within P m (k a)) → ends_within P (n + m) (t ≫= k).
Proof.
  intros Ht Hk. unfold mbind, itree_mbind. induction Ht as [n t a Ho Ha|n t t' Ho _ IH|n t B e h Ho _ IH].
  - apply (ends_more _ m); [lia|]. apply (ends_observe _ m (k a)); [by rewrite observe_bind, Ho|by apply Hk].
  - eapply ends_Tau; [by rewrite observe_bind, Ho|done].
  - eapply ends_Vis; [by rewrite observe_bind, Ho|]. intros b Hb. by apply IH.
Qed.

Lemma ends_iter {I R} (P : R → Prop) n m (body : I → itree E (I + R)) i :
  ends_within (λ lr, match lr with inl i' => ends_within P m (ITree.iter body i') | inr r => P r end) n (body i) →
  ends_within P (n + m) (ITree.iter body i).
Proof.
  intros Hb. set (loop := λ lr : I + R, match lr with inl i' => Tau (ITree.iter body i') | inr r => Ret r end).
  apply (ends_observe _ _ (ITree.bind (body i) loop)); [reflexivity|]. apply (ends_bind _ _ n m _ loop Hb).
  intros [i'|r] Hr; [by eapply ends_Tau|by apply ends_ret].
Qed.
End ends.

(** ** At every moment *)

(** What is left of a program after some of its calls. *)
Section residual.
Context {E : Type → Type}.

Inductive residual {R} : itree E R → itree E R → Prop :=
  | residual_here t t' : observe t = observe t' → residual t t'
  | residual_Tau t t1 t' : observe t = TauF t1 → residual t1 t' → residual t t'
  | residual_Vis t A (e : E A) k a t' : observe t = VisF e k → residual (k a) t' → residual t t'.

(** Whenever the answers become [answers], the program returns after at most [n]
    more calls. *)
Definition prompt (answers : ∀ A, E A → A → Prop) {R} (n : nat) (t : itree E R) : Prop :=
  ∀ t', residual t t' → ends_within answers (λ _, True) n t'.

Context (answers : ∀ A, E A → A → Prop).

Lemma residual_inv {R} (t t' : itree E R) :
  residual t t' →
  observe t = observe t' ∨
  match observe t with
  | RetF _ => False
  | TauF t1 => residual t1 t'
  | VisF e k => ∃ a, residual (k a) t'
  end.
Proof. destruct 1 as [t t' Ho|t t1 t' Ho H|t A e k a t' Ho H]; [by left|right..]; rewrite Ho; eauto. Qed.

Lemma prompt_ret {R} n (r : R) : prompt answers n (mret r).
Proof. intros t' [Ho|[]]%residual_inv. by eapply ends_Ret. Qed.

Lemma prompt_call {A} (e : E A) n : prompt answers (Datatypes.S n) (call e).
Proof.
  intros t' [Ho|[a Ha]]%residual_inv.
  - apply (ends_observe _ _ _ (call e)); [done|]. by apply ends_call.
  - apply (ends_more _ _ 0); [lia|]. by apply (prompt_ret 0 a).
Qed.

Lemma prompt_now {R} n (t : itree E R) : prompt answers n t → ends_within answers (λ _, True) n t.
Proof. intros H. apply H. by apply residual_here. Qed.

Lemma residual_bind {A R} (t : itree E A) (k : A → itree E R) u t' :
  observe u = observe (ITree.bind t k) → residual u t' →
  (∃ t1, residual t t1 ∧ observe t' = observe (ITree.bind t1 k)) ∨ (∃ a, residual (k a) t').
Proof.
  intros Hu H. revert t Hu. induction H as [u t' Ho|u u1 t' Ho H IH|u B e h b t' Ho H IH]; intros t Hu.
  - left. exists t. split; [by apply residual_here|congruence].
  - rewrite Hu, observe_bind in Ho. destruct (observe t) as [a|t1|C e h] eqn:Ht; [|injection Ho as <-|done].
    + right. exists a. by eapply residual_Tau.
    + destruct (IH t1 eq_refl) as [(t2 & H2 & Heq)|Ha]; [left|by right]. exists t2. split; [by eapply residual_Tau|done].
  - rewrite Hu, observe_bind in Ho. destruct (observe t) as [a|t1|C e' h'] eqn:Ht; [|done|].
    + right. exists a. by eapply residual_Vis.
    + revert b H IH. refine (match Ho in _ = v return match v with VisF e h => _ | _ => True end with eq_refl => _ end).
      intros b H IH. destruct (IH (h' b) eq_refl) as [(t2 & H2 & Heq)|Ha]; [left|by right].
      exists t2. split; [by eapply residual_Vis|done].
Qed.

Lemma prompt_bind {A R} n m (t : itree E A) (k : A → itree E R) :
  prompt answers n t → (∀ a, prompt answers m (k a)) → prompt answers (n + m) (t ≫= k).
Proof.
  intros Ht Hk t' H. destruct (residual_bind t k _ t' eq_refl H) as [(t1 & H1 & Heq)|(a & Ha)].
  - apply (ends_observe _ _ _ (ITree.bind t1 k)); [done|].
    apply (ends_bind _ (λ _, True)); [by apply Ht|]. intros a _. by apply prompt_now.
  - apply (ends_more _ _ m); [lia|]. by apply (Hk a).
Qed.

(** A loop is prompt when its body is and when, once the answers are there, the
    loop ends soon from its head. *)
Lemma prompt_iter {I R} n m (body : I → itree E (I + R)) i :
  (∀ i, prompt answers n (body i)) → (∀ i, ends_within answers (λ _, True) m (ITree.iter body i)) →
  prompt answers (n + m) (ITree.iter body i).
Proof.
  intros Hb Hhead t' H.
  set (loop := λ lr : I + R, match lr with inl i' => Tau (ITree.iter body i') | inr r => Ret r end).
  assert (∀ u, residual u t' → ∀ t, observe u = observe (ITree.bind t loop) → prompt answers n t →
          ends_within answers (λ _, True) (n + m) t') as Hgo.
  { clear H i. induction 1 as [u t' Ho|u u1 t' Ho H IH|u B e h b t' Ho H IH]; intros t Hu Ht.
    - apply (ends_observe _ _ _ (ITree.bind t loop)); [congruence|].
      apply (ends_bind _ (λ _, True)); [by apply prompt_now|].
      intros [i|r] _; [|by apply ends_ret]. by eapply ends_Tau; [|apply Hhead].
    - rewrite Hu, observe_bind in Ho. destruct (observe t) as [[i|r]|t1|C e h] eqn:Ht1; cbn in Ho; [|done| |done].
      + injection Ho as <-. by apply (IH (body i)).
      + injection Ho as <-. apply (IH t1); [done|]. intros t2 H2. apply Ht. by eapply residual_Tau.
    - rewrite Hu, observe_bind in Ho. destruct (observe t) as [[i|r]|t1|C e' h'] eqn:Ht1; [done..|].
      revert b H IH. refine (match Ho in _ = v return match v with VisF e h => _ | _ => True end with eq_refl => _ end).
      intros b H IH. apply (IH (h' b)); [done|]. intros t2 H2. apply Ht. by eapply residual_Vis. }
  eapply (Hgo _ H (body i)); [reflexivity|apply Hb].
Qed.
End residual.
