(* ===== verification/Listen.v ===== *)
(** * The listening socket ([web/httpd.c])

    [httpd_listen] and what it calls, as a program over the calls of the main
    thread: the socket is made, the daemon of libmicrohttpd started, connections
    are accepted and handed to it until [g_stop] is set, and a socket that breaks
    is rebuilt. What the process holds after each call is computed, so that a
    call on a descriptor that is not held, or held for something else, breaks the
    protocol. Log lines are left out. *)

From Stdlib Require Import ZArith Lia List.
From Stdlib Require Import Strings.Byte Strings.String.
From stdpp Require Import base list gmap.
From ITree Require Import ITree.
From S2P Require Import Prelude Config Queue NntpPool Interact.

(** ** The calls of the main thread *)

Inductive select_result := SelectInterrupted | SelectFailed | SelectTimeout | SelectReady.

(** [AcceptRetry]: [EAGAIN], [EWOULDBLOCK] or [EINTR]. *)
Inductive accept_result := Accepted (connfd : Z) | AcceptRetry | AcceptFailed.

Inductive thread := Downloader | Finalizer.

(** The preparations that only [main] makes, before any other thread runs. *)
Inductive preparation := LogInit (path : cstr) | IgnoreSigpipe | StopOnSignal | YencGlobalInit | Gf16Init.

(** An element of [getifaddrs]: is it IPv4, is it up, is it loopback, and the
    address in network order. *)
Record ifaddr := IfAddr { ifa_inet : bool; ifa_up : bool; ifa_loopback : bool; ifa_bytes : list Z }.

Inductive sysE : Type → Type :=
  | GetStop : sysE bool                              (* reading [g_stop] *)
  | Socket : sysE (option Z)
  | Bind (fd port : Z) : sysE bool
  | Listen (fd backlog : Z) : sysE bool
  | Close (fd : Z) : sysE ()
  | Sleep (seconds : Z) : sysE ()
  | Select (fd seconds : Z) : sysE select_result
  | Accept (fd : Z) : sysE accept_result
  | StartDaemon : sysE bool                          (* [MHD_start_daemon] *)
  | AddConnection (fd : Z) : sysE bool               (* [MHD_add_connection] *)
  | StopDaemon : sysE ()                             (* [MHD_stop_daemon] *)
  | Prepare (p : preparation) : sysE ()
  | LoadConfigFile (path : cstr) : sysE (option (list byte))
  | QueueOpen (dir temp_dir : cstr) : sysE bool
  | PoolCreate (opts : nntp_pool_opts) : sysE bool
  | AppStateInit (cfg : app_config) (path : cstr) : sysE ()
  | DownloaderAlloc : sysE bool
  | PthreadCreate (t : thread) : sysE bool
  | SetStop : sysE ()                                (* [d->stop = 1] *)
  | FqShutdown : sysE ()                             (* [d->fq.shutdown = 1], signalled *)
  | Join (t : thread) : sysE ()
  | DownloaderFree : sysE ()
  | GetIfAddrs : sysE (option (list ifaddr))
  | Notify (message : cstr) : sysE ()
  | PoolDestroy : sysE ()
  | QueueClose : sysE ().

Abbreviation prog := (itree sysE).

(** ** What the process holds *)

Inductive sock_kind := Fresh | Bound | Listening | Connection.
#[global] Instance sock_kind_eq_dec : EqDecision sock_kind.
Proof. solve_decision. Defined.

(** [Told]: the thread was asked to end; joining any other would not return. *)
Inductive thread_state := NotStarted | Running | Told | Joined.
#[global] Instance thread_state_eq_dec : EqDecision thread_state.
Proof. solve_decision. Defined.

(** The sockets of the main thread, the connections libmicrohttpd refused, and
    the closed descriptors that were not the main thread's. *)
Record net_state := NetState {
  nt_socks : gmap Z sock_kind;
  nt_daemon : bool;
  nt_refused : list Z;
  nt_stray : list Z
}.

Record proc_state := ProcState {
  pr_decoder : bool;         (* [yenc_global_init] *)
  pr_tables : bool;          (* [gf16_init] *)
  pr_queue : bool;
  pr_pool : bool;
  pr_app : bool;             (* [app_state_init] *)
  pr_alloc : bool;           (* [downloader_t] *)
  pr_downloader : thread_state;
  pr_finalizer : thread_state
}.

Record held := Held { hd_net : net_state; hd_proc : proc_state }.

Definition with_socks (f : gmap Z sock_kind → gmap Z sock_kind) (s : held) : held :=
  Held (NetState (f (nt_socks (hd_net s))) (nt_daemon (hd_net s)) (nt_refused (hd_net s)) (nt_stray (hd_net s)))
    (hd_proc s).
Definition with_daemon (b : bool) (s : held) : held :=
  Held (NetState (nt_socks (hd_net s)) b (nt_refused (hd_net s)) (nt_stray (hd_net s))) (hd_proc s).
Definition with_proc (f : proc_state → proc_state) (s : held) : held := Held (hd_net s) (f (hd_proc s)).

Definition set_decoder (p : proc_state) : proc_state :=
  ProcState true (pr_tables p) (pr_queue p) (pr_pool p) (pr_app p) (pr_alloc p) (pr_downloader p) (pr_finalizer p).
Definition set_tables (p : proc_state) : proc_state :=
  ProcState (pr_decoder p) true (pr_queue p) (pr_pool p) (pr_app p) (pr_alloc p) (pr_downloader p) (pr_finalizer p).
Definition set_queue (b : bool) (p : proc_state) : proc_state :=
  ProcState (pr_decoder p) (pr_tables p) b (pr_pool p) (pr_app p) (pr_alloc p) (pr_downloader p) (pr_finalizer p).
Definition set_pool (b : bool) (p : proc_state) : proc_state :=
  ProcState (pr_decoder p) (pr_tables p) (pr_queue p) b (pr_app p) (pr_alloc p) (pr_downloader p) (pr_finalizer p).
Definition set_app (p : proc_state) : proc_state :=
  ProcState (pr_decoder p) (pr_tables p) (pr_queue p) (pr_pool p) true (pr_alloc p) (pr_downloader p) (pr_finalizer p).
Definition set_alloc (b : bool) (p : proc_state) : proc_state :=
  ProcState (pr_decoder p) (pr_tables p) (pr_queue p) (pr_pool p) (pr_app p) b (pr_downloader p) (pr_finalizer p).
Definition set_thread (t : thread) (st : thread_state) (p : proc_state) : proc_state :=
  match t with
  | Downloader =>
    ProcState (pr_decoder p) (pr_tables p) (pr_queue p) (pr_pool p) (pr_app p) (pr_alloc p) st (pr_finalizer p)
  | Finalizer =>
    ProcState (pr_decoder p) (pr_tables p) (pr_queue p) (pr_pool p) (pr_app p) (pr_alloc p) (pr_downloader p) st
  end.

Definition thread_of (t : thread) (p : proc_state) : thread_state :=
  match t with Downloader => pr_downloader p | Finalizer => pr_finalizer p end.

Definition gone (st : thread_state) : bool := bool_decide (st = NotStarted) || bool_decide (st = Joined).

(** No thread but the main one is left. *)
Definition alone (s : held) : bool :=
  gone (pr_downloader (hd_proc s)) && gone (pr_finalizer (hd_proc s)) && negb (nt_daemon (hd_net s)).

(** Whether a call is in order: on a descriptor made ready for it; on what was
    prepared; a thread is joined when it was told to end, the finalizer told when
    the downloader cannot hand over any more, and nothing the threads use is
    freed before they have ended. *)
Definition in_order {A} (s : held) (e : sysE A) : bool :=
  let socks := nt_socks (hd_net s) in
  let p := hd_proc s in
  match e with
  | Bind fd _ => bool_decide (socks !! fd = Some Fresh)
  | Listen fd _ => bool_decide (socks !! fd = Some Bound)
  | Select fd _ => bool_decide (socks !! fd = Some Listening)
  | Accept fd => bool_decide (socks !! fd = Some Listening)
  | AddConnection fd => bool_decide (socks !! fd = Some Connection) && nt_daemon (hd_net s)
  | StartDaemon => pr_app p && pr_queue p && pr_pool p && negb (nt_daemon (hd_net s))
  | StopDaemon => nt_daemon (hd_net s)
  | PoolCreate _ => pr_decoder p && negb (pr_pool p)
  | AppStateInit _ _ => pr_queue p && pr_pool p && alone s
  | PthreadCreate t =>
    pr_app p && pr_queue p && pr_pool p && pr_tables p && pr_alloc p && bool_decide (thread_of t p = NotStarted)
  | SetStop => pr_alloc p
  | FqShutdown => pr_alloc p && gone (pr_downloader p)
  | Join t => pr_alloc p && bool_decide (thread_of t p = Told)
  | DownloaderFree => pr_alloc p && gone (pr_downloader p) && gone (pr_finalizer p)
  | PoolDestroy => pr_pool p && alone s
  | QueueClose => pr_queue p && negb (pr_pool p) && alone s
  | _ => true
  end.

Definition tell (t : thread) (p : proc_state) : proc_state :=
  if decide (thread_of t p = Running) then set_thread t Told p else p.

(** A new descriptor is one that is not in use. *)
Definition new_fd (fd : Z) (k : sock_kind) (s : held) : option held :=
  if decide (0 <= fd ∧ nt_socks (hd_net s) !! fd = None) then Some (with_socks <[fd := k]> s) else None.

Definition if_done (b : bool) (f : held → held) (s : held) : option held := Some (if b then f s else s).

Definition close_fd (fd : Z) (s : held) : held :=
  match nt_socks (hd_net s) !! fd with
  | Some _ => with_socks (delete fd) s
  | None =>
    Held (NetState (nt_socks (hd_net s)) (nt_daemon (hd_net s)) (nt_refused (hd_net s)) (nt_stray (hd_net s) ++ [fd]))
      (hd_proc s)
  end.

(** [MHD_add_connection] takes the connection, or closes it and fails. *)
Definition refuse_fd (fd : Z) (s : held) : held :=
  Held (NetState (delete fd (nt_socks (hd_net s))) (nt_daemon (hd_net s)) (nt_refused (hd_net s) ++ [fd])
    (nt_stray (hd_net s))) (hd_proc s).

(** What is held after an answer; [None]: the answer cannot be. *)
Definition after {A} (s : held) (e : sysE A) : A → option held :=
  match e in sysE A return A → option held with
  | GetStop => λ _, Some s
  | Socket => λ r, match r with Some fd => new_fd fd Fresh s | None => Some s end
  | Bind fd _ => λ ok, if_done ok (with_socks <[fd := Bound]>) s
  | Listen fd _ => λ ok, if_done ok (with_socks <[fd := Listening]>) s
  | Close fd => λ _, Some (close_fd fd s)
  | Accept _ => λ r, match r with Accepted connfd => new_fd connfd Connection s | _ => Some s end
  | StartDaemon => λ ok, if_done ok (with_daemon true) s
  | AddConnection fd => λ ok, Some (if ok : bool then with_socks (delete fd) s else refuse_fd fd s)
  | StopDaemon => λ _, Some (with_daemon false s)
  | Prepare YencGlobalInit => λ _, Some (with_proc set_decoder s)
  | Prepare Gf16Init => λ _, Some (with_proc set_tables s)
  | QueueOpen _ _ => λ ok, if_done ok (with_proc (set_queue true)) s
  | PoolCreate _ => λ ok, if_done ok (with_proc (set_pool true)) s
  | AppStateInit _ _ => λ _, Some (with_proc set_app s)
  | DownloaderAlloc => λ ok, if_done ok (with_proc (set_alloc true)) s
  | PthreadCreate t => λ ok, if_done ok (with_proc (set_thread t Running)) s
  | SetStop => λ _, Some (with_proc (tell Downloader) s)
  | FqShutdown => λ _, Some (with_proc (tell Finalizer) s)
  | Join t => λ _, Some (with_proc (set_thread t Joined) s)
  | DownloaderFree => λ _, Some (with_proc (set_alloc false) s)
  | PoolDestroy => λ _, Some (with_proc (set_pool false) s)
  | QueueClose => λ _, Some (with_proc (set_queue false) s)
  | _ => λ _, Some s
  end.

#[global] Instance sys_protocol : Protocol sysE held := {|
  allowed A s e := in_order s e = true;
  leads A s e a s' := after s e a = Some s'
|}.

(** ** [web/httpd.c] *)

Definition open_listen_socket (port : Z) : prog (option Z) :=
  fd ← call Socket;
  match fd with
  | None => mret None
  | Some fd =>
    bound ← call (Bind fd port);
    if negb bound then _ ← call (Close fd); mret None
    else
      listening ← call (Listen fd 16);
      if negb listening then _ ← call (Close fd); mret None
      else mret (Some fd)
  end.

(** [while (!g_stop && (srvfd = open_listen_socket(port)) < 0) sleep(1);] *)
Definition reopen (port srvfd : Z) : prog (Z + Z) :=
  stop ← call GetStop;
  if (stop : bool) then mret (inr srvfd)
  else
    fd ← open_listen_socket port;
    match fd with
    | Some fd => mret (inr fd)
    | None => _ ← call (Sleep 1); mret (inl (-1))
    end.

Definition rebuild_listen_socket (srvfd port : Z) : prog Z :=
  _ ← call (Close srvfd);
  srvfd ← ITree.iter (reopen port) (-1);
  stop ← call GetStop;
  if (stop : bool) then mret (-1) else mret srvfd.

(** [if ((srvfd = rebuild_listen_socket(srvfd, port)) < 0) break; continue;] *)
Definition rebuild_or_break (srvfd port : Z) : prog (Z + Z) :=
  srvfd ← rebuild_listen_socket srvfd port;
  if srvfd <? 0 then mret (inr srvfd) else mret (inl srvfd).

(** One turn of the accept loop: [inl] to go on, [inr] to leave it. *)
Definition listen_turn (port srvfd : Z) : prog (Z + Z) :=
  stop ← call GetStop;
  if (stop : bool) then mret (inr srvfd)
  else
    ready ← call (Select srvfd 1);
    match ready with
    | SelectInterrupted => mret (inl srvfd)
    | SelectFailed => rebuild_or_break srvfd port
    | SelectTimeout => mret (inl srvfd)
    | SelectReady =>
      r ← call (Accept srvfd);
      match r with
      | AcceptRetry => mret (inl srvfd)
      | AcceptFailed => rebuild_or_break srvfd port
      | Accepted connfd =>
        added ← call (AddConnection connfd);
        if (added : bool) then mret (inl srvfd)
        else _ ← call (Close connfd); mret (inl srvfd)
      end
    end.

Definition httpd_listen (port : Z) : prog Z :=
  srvfd ← open_listen_socket port;
  match srvfd with
  | None => mret (-1)
  | Some srvfd =>
    httpd ← call StartDaemon;
    if negb httpd then _ ← call (Close srvfd); mret (-1)
    else
      srvfd ← ITree.iter (listen_turn port) srvfd;
      _ ← call StopDaemon;
      _ ← call (Close srvfd);
      mret 0
  end.

(** ** The descriptors *)

(** Steps a call: its order is checked by computation, its answer a case. *)
Ltac sys_step a :=
  eapply obeys_step;
  [try done|let s' := fresh "s'" in let Hgo := fresh "Hgo" in
   intros a s' Hgo; cbn [leads sys_protocol after] in Hgo; unfold if_done in Hgo;
   try (injection Hgo as <-)].

Ltac sys_ret := try match goal with H : Some _ = Some _ |- _ => injection H as <- end; apply obeys_ret.

Section sockets.
Context (port : Z) (p : proc_state).

(** The main thread's only socket is [fd], listening; whatever else it closed
    was a connection libmicrohttpd had refused. *)
Record serving (s : held) (fd : Z) : Prop := {
  sv_fd : 0 <= fd;
  sv_socks : nt_socks (hd_net s) = {[fd := Listening]};
  sv_daemon : nt_daemon (hd_net s) = true;
  sv_stray : nt_stray (hd_net s) = nt_refused (hd_net s);
  sv_proc : hd_proc s = p
}.

(** The loop was left while the socket was being rebuilt: there is none, or the
    new one was abandoned. *)
Record abandoned (s : held) : Prop := {
  ab_socks : nt_socks (hd_net s) = ∅ ∨ ∃ fd, 0 <= fd ∧ nt_socks (hd_net s) = {[fd := Listening]};
  ab_daemon : nt_daemon (hd_net s) = true;
  ab_stray : nt_stray (hd_net s) = nt_refused (hd_net s);
  ab_proc : hd_proc s = p
}.

Definition closed (s : held) : held := with_socks (λ _, ∅) s.

Lemma held_same s : nt_socks (hd_net s) = ∅ → with_socks (λ _, ∅) s = s.
Proof. destruct s as [[socks d r st] q]. cbn. by intros ->. Qed.

Lemma open_obeys s :
  nt_socks (hd_net s) = ∅ →
  obeys (λ s' r, match r with
                 | Some fd => 0 <= fd ∧ s' = with_socks (λ _, {[fd := Listening]}) s
                 | None => s' = s
                 end) s (open_listen_socket port).
Proof.
  intros Hs. unfold open_listen_socket. destruct s as [[socks d r st] q]. cbn in Hs. subst socks.
  sys_step fd. destruct fd as [fd|]; [|by sys_ret].
  unfold new_fd in Hgo. case_decide as Hfd; [|done]. simplify_eq. destruct Hfd as [Hfd _].
  sys_step bound; [apply bool_decide_eq_true, lookup_insert_eq|]. destruct bound; simplify_eq; cbn [negb].
  - sys_step listening; [apply bool_decide_eq_true, lookup_insert_eq|]. destruct listening; simplify_eq; cbn [negb].
    + sys_ret. split; [done|]. unfold with_socks. cbn. by rewrite !insert_insert_eq.
    + sys_step u. sys_ret. unfold close_fd. cbn.
      rewrite !insert_insert_eq, lookup_insert_eq. unfold with_socks. cbn. by rewrite !delete_insert_eq, delete_empty.
  - sys_step u. sys_ret. unfold close_fd. cbn.
    rewrite lookup_insert_eq. unfold with_socks. cbn. by rewrite !delete_insert_eq, delete_empty.
Qed.

Lemma reopen_obeys s fd0 :
  nt_socks (hd_net s) = ∅ → nt_daemon (hd_net s) = true → nt_stray (hd_net s) = nt_refused (hd_net s) →
  hd_proc s = p → fd0 = -1 →
  obeys (λ s' fd, (fd = -1 ∧ abandoned s') ∨ serving s' fd) s (ITree.iter (reopen port) fd0).
Proof.
  intros Hsocks Hd Hst Hp ->. pose (inv := λ s' fd, s' = s ∧ fd = -1).
  apply (obeys_iter inv); [|done]. intros s1 i [-> ->]. unfold reopen. sys_step stop.
  destruct stop; [apply obeys_ret; left; split; [done|]; split; [by left|done..]|].
  eapply obeys_bind; [by apply open_obeys|]. intros s2 [fd|]; cbn beta iota.
  - intros [Hfd ->]. apply obeys_ret. right. by split.
  - intros ->. sys_step u. sys_ret. done.
Qed.

Lemma rebuild_obeys s fd :
  serving s fd → obeys (λ s' r, match r with inl fd => serving s' fd | inr fd => fd = -1 ∧ abandoned s' end) s
                   (rebuild_or_break fd port).
Proof.
  intros [Hfd Hs Hd Hst Hp]. unfold rebuild_or_break, rebuild_listen_socket.
  eapply (obeys_bind (λ s' fd, (fd = -1 ∧ abandoned s') ∨ serving s' fd)).
  - sys_step u. unfold close_fd. rewrite Hs, lookup_singleton_eq.
    eapply obeys_bind.
    { apply reopen_obeys; try done. cbn. by rewrite Hs, delete_singleton_eq. }
    intros s1 fd1 H1. sys_step stop. destruct stop; apply obeys_ret; [left|done].
    split; [done|]. destruct H1 as [[_ ?]|[]]; [done|]. split; try done. right. by eexists.
  - intros s' fd' [[-> Hab]|Hsv]; [by apply obeys_ret|].
    destruct (Z.ltb_spec fd' 0) as [Hlt|_]; [by destruct Hsv; lia|by apply obeys_ret].
Qed.

Lemma turn_obeys s fd :
  serving s fd → obeys (λ s' r, match r with inl fd => serving s' fd | inr fd => serving s' fd ∨ fd = -1 ∧ abandoned s' end)
                   s (listen_turn port fd).
Proof.
  intros Hsv. pose proof Hsv as [Hfd Hs Hd Hst Hp]. unfold listen_turn.
  assert (nt_socks (hd_net s) !! fd = Some Listening) as Hl by (by rewrite Hs, lookup_singleton_eq).
  assert (obeys (λ s' r, match r with inl fd => serving s' fd | inr fd => serving s' fd ∨ fd = -1 ∧ abandoned s' end)
            s (rebuild_or_break fd port)) as Hrebuild.
  { eapply obeys_weaken; [|by apply rebuild_obeys]. intros s' [fd'|fd']; auto. }
  sys_step stop. destruct stop; [apply obeys_ret; by left|].
  sys_step ready; [by apply bool_decide_eq_true|]. destruct ready; try (by apply obeys_ret); [done|].
  sys_step r; [by apply bool_decide_eq_true|]. destruct r as [c| |]; simplify_eq; [|by apply obeys_ret|done].
  unfold new_fd in Hgo. case_decide as Hc; [|done]. destruct Hc as [Hc Hfree]. simplify_eq.
  assert (delete c (<[c := Connection]> (nt_socks (hd_net s))) = {[fd := Listening]}) as Hdel.
  { by rewrite delete_insert_id, Hs. }
  sys_step added; [cbn; rewrite Hd, lookup_insert_eq; done|]. destruct added; simplify_eq.
  - apply obeys_ret. by split.
  - sys_step u. sys_ret. unfold close_fd. cbn. rewrite delete_insert_eq.
    rewrite (lookup_delete_eq (nt_socks (hd_net s)) c). split; cbn; try done; [|by rewrite Hst].
    by rewrite delete_id.
Qed.
End sockets.

(** What is left when [httpd_listen] returns: the sockets are closed, but for
    one rebuilt at the moment the server was stopped; the only descriptors closed
    that were not held are the refused connections and, when the server was
    stopped during a rebuild, -1. *)
Record listened (s s' : held) (rc : Z) : Prop := {
  ld_proc : hd_proc s' = hd_proc s;
  ld_daemon : nt_daemon (hd_net s') = false;
  ld_result : rc = 0 ∨ rc = -1 ∧ s' = s;
  ld_socks : nt_socks (hd_net s') = ∅ ∨ ∃ fd, 0 <= fd ∧ nt_socks (hd_net s') = {[fd := Listening]};
  ld_stray : nt_stray (hd_net s') = nt_refused (hd_net s') ∨
             nt_stray (hd_net s') = nt_refused (hd_net s') ++ [-1];
}.

Lemma no_negative_fd (fd : Z) : 0 <= fd → ({[fd := Listening]} : gmap Z sock_kind) !! (-1) = None.
Proof. intros. apply lookup_singleton_None. lia. Qed.

Lemma listen_obeys port s :
  nt_socks (hd_net s) = ∅ → nt_daemon (hd_net s) = false → nt_stray (hd_net s) = nt_refused (hd_net s) →
  pr_app (hd_proc s) = true → pr_queue (hd_proc s) = true → pr_pool (hd_proc s) = true →
  obeys (listened s) s (httpd_listen port).
Proof.
  intros Hs Hd Hst Ha Hq Hp. unfold httpd_listen.
  eapply obeys_bind; [by apply open_obeys|]. intros s1 [fd|]; cbn beta iota.
  2: { intros ->. apply obeys_ret. by split; [..|right|left|left]. }
  intros [Hfd ->]. sys_step httpd; [cbn; by rewrite Ha, Hq, Hp, Hd|].
  destruct httpd; cbn [negb].
  2: { sys_step u. apply obeys_ret. assert (close_fd fd (with_socks (λ _, {[fd := Listening]}) s) = s) as ->.
       { unfold close_fd. cbn. rewrite lookup_singleton_eq. unfold with_socks. cbn. rewrite delete_singleton_eq.
         destruct s as [[]]. cbn in Hs. by rewrite <- Hs. }
       by split; [..|right|left|left]. }
  eapply obeys_bind.
  { apply (obeys_iter (serving (hd_proc s))); [intros; by apply turn_obeys|]. by split. }
  intros s2 fd2 H2.
  assert (nt_daemon (hd_net s2) = true) as Hd2 by (by destruct H2 as [[]|[_ []]]).
  sys_step u1. sys_step u2. apply obeys_ret. unfold close_fd. cbn.
  destruct H2 as [[Hfd2 Hs2 _ Hst2 Hp2]|[-> [Hs2 _ Hst2 Hp2]]].
  - rewrite Hs2, lookup_singleton_eq. split; cbn; try done; [by left| |by left].
    left. by rewrite Hs2, delete_singleton_eq.
  - assert (nt_socks (hd_net s2) !! (-1) = None) as ->.
    { destruct Hs2 as [->|(fd' & Hfd' & ->)]; [done|by apply no_negative_fd]. }
    split; cbn; try done; [by left|by right; rewrite Hst2].
Qed.

(** ** Stopping *)

(** [g_stop] is set. *)
Definition stopped_answers (A : Type) (e : sysE A) : A → Prop :=
  match e in sysE A return A → Prop with
  | GetStop => λ stop, stop = true
  | _ => λ _, True
  end.

(** Once [g_stop] is set every loop ends at its next test. *)
Lemma ends_at_test {R} (body : Z → prog (Z + R)) (cont : prog (Z + R)) (r : R) i :
  body i = (stop ← call GetStop; if (stop : bool) then mret (inr r) else cont) →
  ends_within stopped_answers (λ _, True) 1 (ITree.iter body i).
Proof.
  intros Hb. apply (ends_more _ _ (1 + 0)); [lia|]. apply ends_iter. rewrite Hb.
  apply (ends_more _ _ (1 + 0)); [lia|]. apply (ends_bind _ (λ stop, stop = true)).
  - apply ends_call. by intros a.
  - intros a ->. by apply ends_ret.
Qed.

Lemma prompt_then {A R} n (e : sysE A) (k : A → prog R) :
  (∀ a, prompt stopped_answers n (k a)) → prompt stopped_answers (S n) (call e ≫= k).
Proof. intros Hk. apply (prompt_bind _ 1 n); [apply prompt_call|done]. Qed.

Lemma prompt_at_least {R} n m (t : prog R) : (n <= m)%nat → prompt stopped_answers n t → prompt stopped_answers m t.
Proof. intros Hle H t' Ht. by apply (ends_more _ _ n), H. Qed.

Lemma open_prompt port : prompt stopped_answers 4 (open_listen_socket port).
Proof.
  unfold open_listen_socket. apply prompt_then. intros [fd|]; [|apply prompt_ret].
  apply prompt_then. intros [|]; cbn [negb]; [|apply prompt_then; intros; apply prompt_ret].
  apply prompt_then. intros [|]; cbn [negb]; [apply prompt_ret|apply prompt_then; intros; apply prompt_ret].
Qed.

Lemma rebuild_prompt fd port : prompt stopped_answers 9 (rebuild_or_break fd port).
Proof.
  unfold rebuild_or_break, rebuild_listen_socket. apply (prompt_bind _ 9 0).
  - apply (prompt_then 8). intros _. apply (prompt_bind _ 7 1).
    + apply (prompt_iter _ 6 1); [|intros; by eapply ends_at_test].
      intros i. unfold reopen. apply prompt_then. intros [|]; [apply prompt_ret|].
      apply (prompt_bind _ 4 1); [apply open_prompt|]. intros [fd'|]; [apply prompt_ret|].
      apply prompt_then. intros. apply prompt_ret.
    + intros. apply prompt_then. intros [|]; apply prompt_ret.
  - intros fd'. destruct (fd' <? 0); apply prompt_ret.
Qed.

Lemma turn_prompt port fd : prompt stopped_answers 12 (listen_turn port fd).
Proof.
  unfold listen_turn. apply prompt_then. intros [|]; [apply prompt_ret|].
  apply prompt_then. intros [| | |]; try apply prompt_ret.
  - apply (prompt_at_least 9); [lia|apply rebuild_prompt].
  - apply prompt_then. intros [c| |]; [|apply prompt_ret|apply rebuild_prompt].
    apply prompt_then. intros [|]; [apply prompt_ret|]. apply prompt_then. intros. apply prompt_ret.
Qed.

(** ** Properties *)

(** C26: from every point of its execution, [httpd_listen] returns after at most
    20 more calls once [g_stop] is set, whatever these calls answer: also while
    connections are refused, while the socket is being rebuilt, and when
    rebuilding fails again and again. *)
Theorem httpd_listen_stops (port : Z) : prompt stopped_answers 20 (httpd_listen port).
Proof.
  unfold httpd_listen. apply (prompt_bind _ 4 16); [apply open_prompt|].
  intros [fd|]; [|apply prompt_ret]. apply (prompt_then 15). intros [|]; cbn [negb].
  - apply (prompt_bind _ 13 2); [|intros; do 2 (apply prompt_then; intros); apply prompt_ret].
    apply (prompt_iter _ 12 1); [intros; apply turn_prompt|]. intros i. by eapply ends_at_test.
  - apply prompt_then. intros. apply prompt_ret.
Qed.

(** ** Runs *)

(** A run, as the calls with their answers. *)
Definition ans {A} (e : sysE A) (a : A) : answered := Answered A e a.

(** One step of a run that is known. *)
Ltac run_observe :=
  match goal with |- observe ?t = _ => let v := eval hnf in (observe t) in transitivity v; reflexivity end.
Ltac run_vis := eapply runs_vis; [run_observe|vm_compute; reflexivity|].
Ltac run_to_end :=
  repeat first [run_vis | apply runs_ret; run_observe | eapply runs_tau; [run_observe|]].

(** The server whose socket is 3. *)
Definition ready_state : held :=
  Held (NetState ∅ false [] []) (ProcState true true true true true true Running Running).

(** A connection that libmicrohttpd refuses, and so closes, is closed again. *)
Theorem refused_connection_closed_twice :
  ∃ s', runs ready_state (httpd_listen 4202)
          [ans Socket (Some 3); ans (Bind 3 4202) true; ans (Listen 3 16) true; ans StartDaemon true;
           ans GetStop false; ans (Select 3 1) SelectReady; ans (Accept 3) (Accepted 7);
           ans (AddConnection 7) false; ans (Close 7) ();
           ans GetStop true; ans StopDaemon (); ans (Close 3) ()] s' 0 ∧
        nt_refused (hd_net s') = [7] ∧ nt_stray (hd_net s') = [7].
Proof. eexists. split; [unfold ans; run_to_end|by vm_compute]. Qed.

(** The stop comes between the success of [open_listen_socket] and the test
    after the loop: the new socket is neither used nor closed, and -1 is. *)
Theorem rebuilt_socket_left_open :
  ∃ s', runs ready_state (httpd_listen 4202)
          [ans Socket (Some 3); ans (Bind 3 4202) true; ans (Listen 3 16) true; ans StartDaemon true;
           ans GetStop false; ans (Select 3 1) SelectFailed; ans (Close 3) ();
           ans GetStop false; ans Socket (Some 5); ans (Bind 5 4202) true; ans (Listen 5 16) true;
           ans GetStop true; ans StopDaemon (); ans (Close (-1)) ()] s' 0 ∧
        nt_socks (hd_net s') = {[5 := Listening]} ∧ nt_stray (hd_net s') = [-1].
Proof. eexists. split; [unfold ans; run_to_end|by vm_compute]. Qed.
