(* ===== verification/Main.v ===== *)
(** * Start-up and shutdown ([main.c], [download/download.c], [util/notify.c])

    [main] as a program over the calls of [Listen]: what it prepares, starts and
    opens, the server it runs until it is stopped, and how it takes everything
    down again, on every way out. *)

From Stdlib Require Import ZArith Lia List.
From Stdlib Require Import Strings.Byte Strings.String.
From stdpp Require Import base list gmap.
From ITree Require Import ITree.
From S2P Require Import Prelude Cnum Config Queue NntpPool ApiConfig Interact Listen.

Definition DEFAULT_CONFIG_PATH : cstr := $ "/data/nzb-downloader/nzb.conf".
Definition DEFAULT_QUEUE_DIR : cstr := $ "/data/nzb-downloader/queue".
Definition DEFAULT_LOG_PATH : cstr := $ "/data/nzb-downloader/nzb.log".
Definition HTTP_PORT : Z := 4202.

(** [vsnprintf] into [req.message] *)
Definition notify (text : cstr) : prog () := call (Notify (str_fit 3075 text)).

(** [inet_ntop(AF_INET, ...)] *)
Definition inet_ntop (bytes : list Z) : cstr :=
  match print_dec <$> bytes with
  | [] => []
  | b :: bs => b ++ mjoin ((λ b, $ "." ++ b) <$> bs)
  end.

(** The interfaces [get_local_ip] does not pass over. *)
Definition usable (i : ifaddr) : bool := ifa_inet i && ifa_up i && negb (ifa_loopback i).

Definition get_local_ip (out_size : nat) : prog cstr :=
  ifap ← call GetIfAddrs;
  let placeholder := str_fit out_size ($ "this console's IP") in
  mret match ifap with
       | None => placeholder
       | Some l => match list_find usable l with Some (_, i) => inet_ntop (ifa_bytes i) | None => placeholder end
       end.

(** The handle of a thread is set when the thread was made. *)
Definition downloader_start : prog bool :=
  d ← call DownloaderAlloc;
  if negb d then mret false
  else
    thread ← call (PthreadCreate Downloader);
    ok ← (if (thread : bool) then call (PthreadCreate Finalizer) else mret false);
    if (ok : bool) then mret true
    else
      _ ← (if (thread : bool) then _ ← call SetStop; call (Join Downloader) else mret ());
      _ ← call DownloaderFree;
      mret false.

Definition downloader_stop : prog () :=
  _ ← call SetStop;
  _ ← call (Join Downloader);
  _ ← call FqShutdown;
  _ ← call (Join Finalizer);
  call DownloaderFree.

Definition serving_text (ip : cstr) : cstr :=
  $ "Serving NZB Downloader UI on " ++ ip ++ $ ":" ++ print_dec HTTP_PORT.

(** From the announcement on. *)
Definition serve_and_stop : prog Z :=
  ip ← get_local_ip 64;
  _ ← notify (serving_text ip);
  _ ← httpd_listen HTTP_PORT;
  _ ← downloader_stop;
  _ ← call PoolDestroy;
  _ ← call QueueClose;
  mret 0.

(** [app_state_init]: the configuration is copied, the path into its buffer; the
    queue and the pool are those just opened, everything else is zero. *)
Definition app_state_init (config : app_config) (config_path : cstr) : prog () :=
  call (AppStateInit config (str_fit 512 config_path)).

(** [argv] without the program's name. *)
Definition main (argv : list cstr) : prog Z :=
  let cfgpath := default DEFAULT_CONFIG_PATH (head argv) in
  _ ← call (Prepare (LogInit DEFAULT_LOG_PATH));
  _ ← call (Prepare IgnoreSigpipe);
  _ ← call (Prepare StopOnSignal);
  _ ← call (Prepare YencGlobalInit);
  _ ← call (Prepare Gf16Init);
  content ← call (LoadConfigFile cfgpath);
  let cfg := fst (app_config_load content) in
  queue ← call (QueueOpen DEFAULT_QUEUE_DIR (sc_temp_dir (ac_storage cfg)));
  if negb queue then mret 1
  else
    pool ← call (PoolCreate (app_build_pool_opts cfg));
    if negb pool then _ ← call QueueClose; mret 1
    else
      _ ← app_state_init cfg cfgpath;
      downloader ← downloader_start;
      if negb downloader then _ ← call PoolDestroy; _ ← call QueueClose; mret 1
      else serve_and_stop.

(** ** Everything is released *)

Definition nothing_held : held :=
  Held (NetState ∅ false [] []) (ProcState false false false false false false NotStarted NotStarted).

(** The process after [app_state_init], before its threads and while they run. *)
Definition started (alloc : bool) (d f : thread_state) : proc_state := ProcState true true true true true alloc d f.

(** What a process that ends leaves: no queue, pool, thread or server; no socket
    but one rebuilt at the moment it was stopped; and it closed nothing that was
    not its own but refused connections, once more, and the descriptor -1. *)
Record released (s : held) (rc : Z) : Prop := {
  rl_code : rc = 0 ∨ rc = 1 ∧ nt_socks (hd_net s) = ∅ ∧ nt_stray (hd_net s) = [];
  rl_queue : pr_queue (hd_proc s) = false;
  rl_pool : pr_pool (hd_proc s) = false;
  rl_alloc : pr_alloc (hd_proc s) = false;
  rl_alone : alone s = true;
  rl_socks : nt_socks (hd_net s) = ∅ ∨ ∃ fd, 0 <= fd ∧ nt_socks (hd_net s) = {[fd := Listening]};
  rl_stray : nt_stray (hd_net s) = nt_refused (hd_net s) ∨ nt_stray (hd_net s) = nt_refused (hd_net s) ++ [-1]
}.

Definition idle_net : net_state := NetState ∅ false [] [].

Lemma start_obeys :
  let before := Held idle_net (started false NotStarted NotStarted) in
  obeys (λ s' ok, if (ok : bool) then s' = Held idle_net (started true Running Running)
                  else hd_net s' = idle_net ∧ pr_queue (hd_proc s') = true ∧ pr_pool (hd_proc s') = true ∧
                       pr_alloc (hd_proc s') = false ∧ alone s' = true) before downloader_start.
Proof.
  cbv zeta. unfold downloader_start. sys_step d. destruct d; cbn [negb]; [|by apply obeys_ret].
  sys_step made. destruct made.
  - eapply obeys_bind; [apply obeys_call; [done|]; intros a s1 H1; exact H1|].
    cbn [leads sys_protocol after]. unfold if_done. intros s1 [|] [= <-]; [by apply obeys_ret|].
    eapply (obeys_bind (λ s _, s = _)).
    { sys_step u. apply obeys_call; [done|]. intros u2 s2 [= <-]. reflexivity. }
    intros s2 u ->. sys_step u2. by apply obeys_ret.
  - eapply (obeys_bind (λ s a, s = _ ∧ a = false)); [by apply obeys_ret|]. intros s1 ok [-> ->].
    eapply (obeys_bind (λ s _, s = _)); [by apply obeys_ret|]. intros s2 u ->. sys_step u2. by apply obeys_ret.
Qed.

Lemma stop_obeys s :
  hd_proc s = started true Running Running →
  obeys (λ s' _, s' = Held (hd_net s) (started false Joined Joined)) s downloader_stop.
Proof.
  destruct s as [net p]. cbn. intros ->. unfold downloader_stop. sys_step u1. sys_step u2. sys_step u3. sys_step u4.
  apply obeys_call; [done|]. intros u5 s5 [= <-]. reflexivity.
Qed.

Lemma serve_obeys :
  obeys released (Held idle_net (started true Running Running)) serve_and_stop.
Proof.
  eapply (obeys_bind (λ s _, s = Held idle_net (started true Running Running))).
  { unfold get_local_ip. sys_step ifap. by apply obeys_ret. }
  intros s1 ip ->. unfold notify. sys_step u. eapply obeys_bind; [by apply listen_obeys|].
  intros s2 rc [Hp Hd _ Hs Hst]. cbn [hd_proc] in Hp. eapply obeys_bind; [by apply stop_obeys|].
  intros s3 u2 ->. sys_step u3; [cbn; unfold alone; cbn; by rewrite Hd|].
  sys_step u4; [cbn; unfold alone; cbn; by rewrite Hd|].
  apply obeys_ret. split; cbn; try done; [by left|]. unfold alone. cbn. by rewrite Hd.
Qed.

(** ** Properties *)

(** C10: whatever the system answers, [main] makes every call in order on every way
    through start-up, serving and shutdown: the decoder and the tables are
    prepared before a thread runs, the server runs only on an initialised state,
    calls on sockets meet sockets made ready for them, a thread is joined after
    it was told to end, the finalizer is told only when the downloader is gone,
    and queue and pool are freed once no thread is left. When it returns, it has
    released everything, but for a socket that was rebuilt at the moment of the
    stop. *)
Theorem main_releases (argv : list cstr) : obeys released nothing_held (main argv).
Proof.
  unfold main, app_state_init. cbv zeta. sys_step u1. sys_step u2. sys_step u3. sys_step u4. sys_step u5. sys_step content.
  sys_step q. destruct q; cbn [negb]; [|by apply obeys_ret; split; [right|..|left|left]].
  sys_step pool. destruct pool; cbn [negb].
  2: { sys_step u. by apply obeys_ret; split; [right|..|left|left]. }
  sys_step u6. eapply obeys_bind; [apply start_obeys|]. intros s [|]; cbn [negb].
  - intros ->. apply serve_obeys.
  - destruct s as [net [? ? ? ? ? ? d f]]. cbn. intros (-> & -> & -> & -> & Hal).
    sys_step x7. sys_step x8. apply obeys_ret. split; cbn; try done; [by right|by left|by left].
Qed.

(** Everything comes up, but another program has the port. *)
Definition busy_port_run (argv : list cstr) (content : option (list byte)) (ifap : option (list ifaddr)) (fd : Z)
    (ip : cstr) : list answered :=
  let cfgpath := default DEFAULT_CONFIG_PATH (head argv) in
  let cfg := fst (app_config_load content) in
  [ans (Prepare (LogInit DEFAULT_LOG_PATH)) (); ans (Prepare IgnoreSigpipe) (); ans (Prepare StopOnSignal) ();
   ans (Prepare YencGlobalInit) (); ans (Prepare Gf16Init) (); ans (LoadConfigFile cfgpath) content;
   ans (QueueOpen DEFAULT_QUEUE_DIR (sc_temp_dir (ac_storage cfg))) true;
   ans (PoolCreate (app_build_pool_opts cfg)) true; ans (AppStateInit cfg (str_fit 512 cfgpath)) ();
   ans DownloaderAlloc true; ans (PthreadCreate Downloader) true; ans (PthreadCreate Finalizer) true;
   ans GetIfAddrs ifap; ans (Notify (str_fit 3075 (serving_text ip))) ();
   ans Socket (Some fd); ans (Bind fd HTTP_PORT) false; ans (Close fd) ();
   ans SetStop (); ans (Join Downloader) (); ans FqShutdown (); ans (Join Finalizer) (); ans DownloaderFree ();
   ans PoolDestroy (); ans QueueClose ()].

(** When another program has the port, [main] first announces that the page is
    served there, then takes everything down again, and ends with the code of a
    success: it does not look at what [httpd_listen] returns. *)
Theorem busy_port_reported_as_success (argv : list cstr) (content : option (list byte))
    (ifap : option (list ifaddr)) (fd : Z) (Hfd : 0 <= fd) :
  ∃ ip s', runs nothing_held (main argv) (busy_port_run argv content ifap fd ip) s' 0.
Proof.
  eexists _, _. unfold busy_port_run, ans. cbv zeta. do 14 run_vis.
  eapply runs_vis; [run_observe|cbn [leads sys_protocol after]; unfold new_fd; by rewrite decide_True|].
  eapply runs_vis; [run_observe|reflexivity|].
  eapply runs_vis; [run_observe|cbn [leads sys_protocol after]; unfold close_fd; cbn; by rewrite lookup_insert_eq|].
  do 7 (eapply runs_vis; [run_observe|reflexivity|]). apply runs_ret. run_observe.
Qed.

Lemma busy_port_reported_as_success_witness :
  0 <= 3 ∧ ∃ ip s', runs nothing_held (main []) (busy_port_run [] None None 3 ip) s' 0.
Proof. split; [lia|]. apply (busy_port_reported_as_success [] None None 3). lia. Defined.

Example local_ip :
  inet_ntop (ifa_bytes (IfAddr true true false [192; 168; 1; 20])) = $ "192.168.1.20".
Proof. vm_compute. done. Qed.
