(* ===== verification/JobJson.v ===== *)
(** * Jobs as JSON ([web/job_json.c])

    What the list of jobs and the page of a job show: the progress figures, the
    summary and the details, with the property that the figures never pass
    their totals. *)

From Stdlib Require Import ZArith Lia List.
From Stdlib Require Import Strings.Byte Strings.String.
From stdpp Require Import base list gmap.
From S2P Require Import Prelude Json Paths Job.

(** The fields of one long phase: [extract_job_id], [extract_bytes_done] and
    [extract_bytes_total], and the same for verifying and repairing. *)
Record phase_progress := PhaseProgress { pg_job : cstr; pg_done : Z; pg_total : Z }.

Record app_progress := AppProgress {
  ap_extract : phase_progress;
  ap_verify : phase_progress;
  ap_repair : phase_progress;
}.

(** The members [progress_json] adds for a phase that is at this job. *)
Definition phase_items (flag done total : cstr) (p : phase_progress) (id : cstr) : list (cstr * json) :=
  if negb (bool_decide (pg_job p = [])) && bool_decide (pg_job p = id)
  then [(flag, JBool true); (done, JNum (pg_done p)); (total, JNum (pg_total p))] else [].

(** [total_bytes] and [downloaded_bytes]: the loop over the files, without the
    recovery volumes nothing was fetched of. The sums are those of [long]. *)
Definition progress_bytes (j : job) : Z * Z :=
  foldl (λ '(total, downloaded) f,
    if counted f then
      (s64 (total + jf_bytes f),
       foldl (λ d s, if sg_downloaded s then s64 (d + sg_bytes s) else d) downloaded (jf_segments f))
    else (total, downloaded)) (0, 0) (j_files j).

Definition progress_json (p : app_progress) (j : job) : json :=
  let '(total, downloaded) := job_segment_progress j in
  let '(total_bytes, downloaded_bytes) := progress_bytes j in
  let final := 0 <? j_final_bytes j in
  JObj ([($ "total_segments", JNum (Z.of_nat total));
         ($ "downloaded_segments", JNum (Z.of_nat downloaded));
         ($ "total_bytes", JNum (if final then j_final_bytes j else total_bytes));
         ($ "downloaded_bytes", JNum (if final then j_final_bytes j else downloaded_bytes))] ++
        phase_items ($ "extracting") ($ "extract_bytes_done") ($ "extract_bytes_total") (ap_extract p) (j_id j) ++
        phase_items ($ "verifying") ($ "verify_bytes_done") ($ "verify_bytes_total") (ap_verify p) (j_id j) ++
        phase_items ($ "repairing") ($ "repair_bytes_done") ($ "repair_bytes_total") (ap_repair p) (j_id j)).

(** The members of a summary, in the order they are added. *)
Definition summary_items (p : app_progress) (j : job) : list (cstr * json) :=
  [($ "id", JStr (j_id j)); ($ "name", JStr (j_name j)); ($ "state", JStr (job_state_name (j_state j)));
   ($ "priority", JNum (j_priority j)); ($ "retries_used", JNum (j_retries_used j));
   ($ "last_error", JStr (j_last_error j)); ($ "output_dir", JStr (j_output_dir j));
   ($ "add_to_shadowmount", JBool (j_add_to_shadowmount j)); ($ "auto_install_pkgs", JBool (j_auto_install_pkgs j));
   ($ "has_nfo", JBool (negb (bool_decide (j_nfo_path j = []))));
   ($ "pkg_count", JNum (Z.of_nat (length (j_pkg_paths j))));
   ($ "password_count", JNum (Z.of_nat (length (j_passwords j)))); ($ "progress", progress_json p j)].

Definition job_to_json_summary (p : app_progress) (j : job) : json := JObj (summary_items p j).

(** [strrchr(path, '/')]: what comes after the last slash. *)
Definition path_basename (path : cstr) : cstr :=
  match before_last_slash path with
  | Some dir => drop (S (length dir)) path
  | None => path
  end.

Definition file_to_json (f : job_file) : json :=
  JObj [($ "filename", JStr (jf_filename f)); ($ "subject", JStr (jf_subject f)); ($ "bytes", JNum (jf_bytes f));
        ($ "segment_count", JNum (Z.of_nat (length (jf_segments f))));
        ($ "downloaded_segment_count",
         JNum (Z.of_nat (foldl (λ n s, if sg_downloaded s then S n else n) 0%nat (jf_segments f))))].

Definition job_to_json_detail (p : app_progress) (j : job) : json :=
  JObj (summary_items p j ++
        [($ "pkg_files", JArr (JStr ∘ path_basename <$> j_pkg_paths j)); ($ "files", JArr (file_to_json <$> j_files j))]).

(** ** Sums *)

Definition segment_bytes (segs : list job_segment) : Z := foldr (λ s n, sg_bytes s + n) 0 segs.

Definition downloaded_bytes (segs : list job_segment) : Z :=
  foldr (λ s n, (if sg_downloaded s then sg_bytes s else 0) + n) 0 segs.

(** A job as the parser makes it: a file is as long as its segments are
    together, no segment has a negative length, and the total is a [long]. *)
Record job_sized (j : job) : Prop := {
  sz_files : Forall (λ f, jf_bytes f = segment_bytes (jf_segments f)) (j_files j);
  sz_segments : Forall (λ s, 0 <= sg_bytes s) (all_segments j);
  sz_total : segment_bytes (all_segments j) < 2 ^ 63;
}.

Lemma s64_id z : 0 <= z < 2 ^ 63 → s64 z = z.
Proof. intros H. unfold s64. rewrite Z.mod_small; lia. Qed.

Lemma segment_bytes_app a b : segment_bytes (a ++ b) = segment_bytes a + segment_bytes b.
Proof. unfold segment_bytes. induction a as [|s a IH]; cbn; lia. Qed.

Lemma downloaded_bytes_app a b : downloaded_bytes (a ++ b) = downloaded_bytes a + downloaded_bytes b.
Proof. unfold downloaded_bytes. induction a as [|s a IH]; cbn; lia. Qed.

Lemma downloaded_bytes_range segs :
  Forall (λ s, 0 <= sg_bytes s) segs → 0 <= downloaded_bytes segs <= segment_bytes segs.
Proof.
  unfold downloaded_bytes, segment_bytes.
  induction 1 as [|s segs Hs _ IH]; cbn; [lia|]. destruct (sg_downloaded s); lia.
Qed.

Lemma downloaded_bytes_all segs :
  downloaded_count segs = length segs → downloaded_bytes segs = segment_bytes segs.
Proof.
  unfold downloaded_count, downloaded_bytes, segment_bytes.
  induction segs as [|s segs IH]; [done|]. rewrite filter_cons. cbn [length foldr].
  pose proof (downloaded_count_le segs) as Hle. unfold downloaded_count in Hle.
  case_decide as E; cbn [length]; intros H; [|lia]. rewrite E, IH by lia. done.
Qed.

(** The inner loop adds without wrapping. *)
Lemma downloaded_loop segs d :
  Forall (λ s, 0 <= sg_bytes s) segs → 0 <= d → d + segment_bytes segs < 2 ^ 63 →
  foldl (λ d s, if sg_downloaded s then s64 (d + sg_bytes s) else d) d segs = d + downloaded_bytes segs.
Proof.
  intros Hs. revert d. unfold segment_bytes, downloaded_bytes.
  induction Hs as [|s segs Hs Hall IH]; intros d Hd Hb; cbn in *; [lia|].
  pose proof (downloaded_bytes_range _ Hall) as Hr. unfold segment_bytes, downloaded_bytes in Hr.
  destruct (sg_downloaded s); [rewrite s64_id by lia|]; rewrite IH; lia.
Qed.

(** The loop over the files, from any point on. *)
Lemma progress_loop files t d :
  Forall (λ f, jf_bytes f = segment_bytes (jf_segments f)) files →
  Forall (λ s, 0 <= sg_bytes s) (mjoin (jf_segments <$> files)) →
  0 <= d <= t → t + segment_bytes (mjoin (jf_segments <$> files)) < 2 ^ 63 →
  foldl (λ '(total, downloaded) f,
    if counted f then
      (s64 (total + jf_bytes f),
       foldl (λ d s, if sg_downloaded s then s64 (d + sg_bytes s) else d) downloaded (jf_segments f))
    else (total, downloaded)) (t, d) files =
  (t + segment_bytes (counted_segments files), d + downloaded_bytes (counted_segments files)).
Proof.
  unfold counted_segments. intros Hf. revert t d.
  induction Hf as [|f files Hf Hall IH]; intros t d Hs Hd Hb; cbn [foldl].
  { cbn. by rewrite !Z.add_0_r. }
  rewrite fmap_cons, mjoin_cons in Hs, Hb. apply Forall_app in Hs as [Hs1 Hs2].
  rewrite segment_bytes_app in Hb.
  pose proof (downloaded_bytes_range _ Hs1). pose proof (downloaded_bytes_range _ Hs2).
  rewrite filter_cons. destruct (counted f); [rewrite decide_True by done|rewrite decide_False by done].
  - rewrite downloaded_loop, Hf, s64_id, IH by (done || lia).
    rewrite fmap_cons, mjoin_cons, segment_bytes_app, downloaded_bytes_app. f_equal; lia.
  - apply IH; (done || lia).
Qed.

Lemma counted_sublist j : counted_segments (j_files j) ⊆ all_segments j.
Proof.
  unfold counted_segments, all_segments. intros s Hs.
  apply list_elem_of_join in Hs as (l & Hl & Hin). apply list_elem_of_fmap in Hin as (f & -> & Hin).
  apply list_elem_of_filter in Hin as [_ Hin]. apply list_elem_of_join. exists (jf_segments f).
  split; [done|]. by apply list_elem_of_fmap_2.
Qed.

Lemma progress_bytes_eq j :
  job_sized j →
  progress_bytes j =
  (segment_bytes (counted_segments (j_files j)), downloaded_bytes (counted_segments (j_files j))).
Proof.
  intros [Hf Hs Ht]. unfold all_segments in Hs, Ht. unfold progress_bytes.
  rewrite progress_loop by (done || lia). by rewrite !Z.add_0_l.
Qed.

(** Adding a segment as the parser does keeps the length of its file right. *)
Lemma add_segment_sized f id bytes number :
  jf_bytes f = segment_bytes (jf_segments f) → 0 <= jf_bytes f + bytes < 2 ^ 63 →
  jf_bytes (job_file_add_segment f id bytes number) =
  segment_bytes (jf_segments (job_file_add_segment f id bytes number)).
Proof.
  intros Hf Hb. cbn [job_file_add_segment jf_bytes jf_segments]. rewrite s64_id by done.
  rewrite segment_bytes_app, Hf. cbn. lia.
Qed.

(** ** Properties *)

(** C22: the progress of a job is never past its total, in segments or in bytes,
    and complete in both together: when every segment that counts is there the
    bytes are all there. *)
Theorem progress_within_total (p : app_progress) (j : job) (Hsized : job_sized j) :
  ∃ ts ds tb db,
    let item k := get_item (Some (progress_json p j)) k in
    item ($ "total_segments") = Some (JNum ts) ∧ item ($ "downloaded_segments") = Some (JNum ds) ∧
    item ($ "total_bytes") = Some (JNum tb) ∧ item ($ "downloaded_bytes") = Some (JNum db) ∧
    0 <= ds <= ts ∧ 0 <= db <= tb ∧ (ds = ts → db = tb).
Proof.
  unfold progress_json. rewrite job_segment_progress_eq, progress_bytes_eq by done.
  set (segs := counted_segments (j_files j)).
  assert (0 <= downloaded_bytes segs <= segment_bytes segs).
  { apply downloaded_bytes_range. apply Forall_forall. intros s Hs%counted_sublist.
    by apply (proj1 (Forall_forall _ _) (sz_segments _ Hsized)). }
  pose proof (downloaded_count_le segs).
  eexists _, _, _, _. cbv zeta. do 4 (split; [reflexivity|]).
  destruct (Z.ltb_spec 0 (j_final_bytes j)); [split_and!; lia|].
  split_and!; [lia..|]. intros E. rewrite downloaded_bytes_all by lia. done.
Qed.

Definition sized_job : job :=
  set_files [JobFile ($ "a.rar") [] 300 [JobSegment ($ "1@x") 100 1 true; JobSegment ($ "2@x") 200 2 false];
             JobFile ($ "a.vol0+1.par2") [] 50 [JobSegment ($ "3@x") 50 1 false]] zero_job.

Definition idle_progress : app_progress :=
  AppProgress (PhaseProgress [] 0 0) (PhaseProgress [] 0 0) (PhaseProgress [] 0 0).

Lemma sized_job_sized : job_sized sized_job.
Proof. split; [repeat constructor..|done]; cbn; lia. Qed.

Lemma progress_within_total_witness :
  ∃ ts ds tb db,
    let item k := get_item (Some (progress_json idle_progress sized_job)) k in
    item ($ "total_segments") = Some (JNum ts) ∧ item ($ "downloaded_segments") = Some (JNum ds) ∧
    item ($ "total_bytes") = Some (JNum tb) ∧ item ($ "downloaded_bytes") = Some (JNum db) ∧
    0 <= ds <= ts ∧ 0 <= db <= tb ∧ (ds = ts → db = tb).
Proof. exact (progress_within_total idle_progress sized_job sized_job_sized). Defined.

Example sized_job_progress :
  get_item (Some (progress_json idle_progress sized_job)) ($ "total_bytes") = Some (JNum 300) ∧
  get_item (Some (progress_json idle_progress sized_job)) ($ "downloaded_bytes") = Some (JNum 100).
Proof. vm_compute. done. Qed.

(** Nothing the client sees tells the passwords or where a package lies: only
    how many passwords there are, and the names of the packages. *)
Lemma job_json_hides (p : app_progress) (j : job) (passwords pkg_paths : list cstr) :
  length passwords = length (j_passwords j) → path_basename <$> pkg_paths = path_basename <$> j_pkg_paths j →
  job_to_json_detail p (set_passwords passwords (set_pkg_paths pkg_paths j)) = job_to_json_detail p j.
Proof.
  intros Hp Hk. unfold job_to_json_detail, summary_items, progress_json, job_segment_progress, progress_bytes.
  cbn [set_passwords set_pkg_paths j_id j_name j_state j_priority j_retries_used j_last_error j_output_dir
       j_add_to_shadowmount j_auto_install_pkgs j_nfo_path j_pkg_paths j_passwords j_files j_final_bytes].
  rewrite Hp. rewrite <- (length_fmap path_basename pkg_paths), Hk, length_fmap.
  rewrite !list_fmap_compose, Hk. done.
Qed.
