(* ===== verification/Status.v ===== *)
(** * The status page and the logs ([web/api_status.c], [web/api_logs.c])

    The gate that keeps several pollers from spoiling each other's speed, the
    ring of recent errors over the logger's lines, the answer itself, and the
    lines and the file of the log. *)

From Stdlib Require Import ZArith Lia List.
From Stdlib Require Import Strings.Byte Strings.String Sorting.Sorted.
From stdpp Require Import base list gmap.
From S2P Require Import Prelude Ring Cnum Json Log Job Queue ApiConfig JobJson.

(** ** Download speed *)

(** The fields under [stats_mu]; the clock is in milliseconds. *)
Record stats := Stats {
  st_total_bytes : Z;          (* unsigned long *)
  st_last_poll_bytes : Z;
  st_last_poll_time_ms : Z;
  st_last_speed : Z;
}.

(** The downloader's side: [total_bytes += n]. *)
Definition count_bytes (n : Z) (s : stats) : stats :=
  Stats (u64 (st_total_bytes s + n)) (st_last_poll_bytes s) (st_last_poll_time_ms s) (st_last_speed s).

(** The critical section of [api_status_get]. *)
Definition poll_speed (now_ms : Z) (s : stats) : stats :=
  if st_last_poll_time_ms s =? 0 then Stats (st_total_bytes s) (st_total_bytes s) now_ms 0
  else
    let dt_ms := now_ms - st_last_poll_time_ms s in
    if 1000 <=? dt_ms then
      let dbytes := u64 (st_total_bytes s - st_last_poll_bytes s) in
      Stats (st_total_bytes s) (st_total_bytes s) now_ms (u64 (dbytes * 1000) / dt_ms)
    else s.

(** ** Recent errors *)

Definition MAX_RECENT_ERRORS : nat := 10.
Definition ERR_LINE_MAX : nat := 200.

Record error_ring := ErrorRing { er_lines : list cstr; er_count : nat; er_next : nat }.

Definition empty_ring : error_ring := ErrorRing (replicate MAX_RECENT_ERRORS []) 0 0.

Definition error_line (line : cstr) : bool := bool_decide (take 7 line = $ "[ERROR]").

Definition collect_error_cb (er : error_ring) (line : cstr) : error_ring :=
  if error_line line then
    ErrorRing (<[er_next er := str_fit ERR_LINE_MAX line]> (er_lines er))
      (if (er_count er <? MAX_RECENT_ERRORS)%nat then S (er_count er) else er_count er)
      ((er_next er + 1) mod MAX_RECENT_ERRORS)
  else er.

(** The loop that reads the ring out. *)
Definition recent_errors (lines : list cstr) : list cstr :=
  let er := foldl collect_error_cb empty_ring lines in
  let start := if (er_count er <? MAX_RECENT_ERRORS)%nat then 0%nat else er_next er in
  (λ j, default [] (er_lines er !! ((start + j) mod MAX_RECENT_ERRORS)%nat)) <$> seq 0 (er_count er).

(** ** Answers *)

Definition MAX_JOBS_FOR_STATUS : nat := 512.

(** The states listed as active. *)
Definition shown_active (s : job_state) : bool :=
  bool_decide (s ∈ [JOB_DOWNLOADING; JOB_VERIFYING; JOB_EXTRACTING]).

Definition status_json (p : app_progress) (q : queue) (active_conns max_conns : Z) (log : log_state) (s : stats)
    : json :=
  JObj [($ "active_jobs", JArr (job_to_json_summary p <$>
           filter (λ j, shown_active (j_state j) = true) (queue_list_jobs q MAX_JOBS_FOR_STATUS)));
        ($ "queue_length", JNum (Z.of_nat (length (q_jobs q))));
        ($ "download_speed_bytes_per_sec", JNum (st_last_speed s)); ($ "active_connections", JNum active_conns);
        ($ "max_connections", JNum max_conns); ($ "recent_errors", JArr (JStr <$> recent_errors (log_for_each_recent log)))].

Definition api_status_get (now_ms : Z) (p : app_progress) (q : queue) (active_conns max_conns : Z) (log : log_state)
    (s : stats) : stats * response :=
  let s := poll_speed now_ms s in
  (s, json_respond HTTP_OK (status_json p q active_conns max_conns log s)).

Definition api_logs_get (log : log_state) : response :=
  json_respond HTTP_OK (JArr (JStr <$> log_for_each_recent log)).

(** [filename="nzb-<ts>.log"], in its buffer; [ts] is the formatted time. *)
Definition log_disposition (ts : cstr) : cstr :=
  str_fit 80 ($ "attachment; filename=" ++ [x22] ++ $ "nzb-" ++ str_fit 32 ts ++ $ ".log" ++ [x22]).

(** The answer is an error or the file, as it is on disk, with its name; whether
    the file can be opened, its size be found and the answer be made is the
    system's. *)
Definition api_logs_download (log : log_state) (opens stats creates : bool) (ts : cstr)
    : response + cstr * list byte :=
  if bool_decide (lg_path log = []) then
    inl (json_respond_error HTTP_NOT_FOUND ($ "no logfile (log_init() had no path or failed to open it)"))
  else if negb opens then inl (json_respond_error HTTP_NOT_FOUND ($ "logfile not readable"))
  else if negb stats then inl (json_respond_error HTTP_INTERNAL_SERVER_ERROR ($ "could not stat logfile"))
  else if negb creates then inl (json_respond_error HTTP_INTERNAL_SERVER_ERROR ($ "could not create response"))
  else inr (log_disposition ts, default [] (lg_file log)).

(** The name is whole: a time of the format is 19 characters long. *)
Lemma log_disposition_whole ts :
  (length ts <= 19)%nat →
  log_disposition ts = $ "attachment; filename=" ++ [x22] ++ $ "nzb-" ++ ts ++ $ ".log" ++ [x22].
Proof.
  intros Hl. unfold log_disposition, str_fit. rewrite (take_ge ts) by lia. apply take_ge.
  rewrite !length_app. cbn. lia.
Qed.

(** ** The ring of errors *)

Definition kept_errors (lines : list cstr) : list cstr :=
  str_fit ERR_LINE_MAX <$> filter (λ l, error_line l = true) lines.

Definition er_inv (l : list cstr) (er : error_ring) : Prop :=
  ring_holds MAX_RECENT_ERRORS l (er_lines er) (er_next er) (er_count er).

Lemma errors_pos : (0 < MAX_RECENT_ERRORS)%nat.
Proof. unfold MAX_RECENT_ERRORS. lia. Qed.

Lemma collect_errors_inv lines l er :
  er_inv l er → er_inv (l ++ kept_errors lines) (foldl collect_error_cb er lines).
Proof.
  unfold kept_errors. revert l er. induction lines as [|line lines IH]; intros l er H; cbn [foldl].
  { by rewrite app_nil_r. }
  unfold collect_error_cb at 2. rewrite filter_cons.
  destruct (error_line line); [rewrite decide_True by done|rewrite decide_False by done; by apply IH].
  rewrite fmap_cons, cons_middle, app_assoc. apply IH. by apply ring_push; [apply errors_pos|].
Qed.

(** The errors shown are the last ten error lines. *)
Lemma recent_errors_eq lines : recent_errors lines = last_n MAX_RECENT_ERRORS (kept_errors lines).
Proof.
  unfold recent_errors. rewrite (ring_read _ errors_pos (kept_errors lines)); [done|].
  apply (collect_errors_inv lines []). apply ring_empty, errors_pos.
Qed.

(** ** A steady download *)

(** Bytes come at [r] per millisecond, and the status page is asked for at the
    given times by anybody. *)
Definition poll_at (r : Z) (st : Z * stats) (now_ms : Z) : Z * stats :=
  (now_ms, poll_speed now_ms (count_bytes (r * (now_ms - st.1)) st.2)).

(** After the first sample at [t0], at time [t]: the snapshot is the one of the
    first sample or a whole second later. *)
Record steady (r t0 t : Z) (late : bool) (s : stats) : Prop := {
  sd_window : t0 <= st_last_poll_time_ms s <= t;
  sd_bytes : u64 (st_total_bytes s - st_last_poll_bytes s) = r * (t - st_last_poll_time_ms s);
  sd_speed : st_last_speed s = if late then r * 1000 else 0;
  sd_late : if late then t0 + 1000 <= st_last_poll_time_ms s else st_last_poll_time_ms s = t0 ∧ t < t0 + 1000;
}.

Lemma u64_grow a b n : u64 (u64 (a + n) - b) = u64 (u64 (a - b) + n).
Proof.
  unfold u64. rewrite Zminus_mod_idemp_l, Zplus_mod_idemp_l. f_equal. lia.
Qed.

Lemma u64_id z : 0 <= z < 2 ^ 64 → u64 z = z.
Proof. apply Z.mod_small. Qed.

Lemma poll_steady r t0 t now late s :
  0 < t0 → 0 <= r → t <= now → r * 1000 * (now - t0) < 2 ^ 64 → steady r t0 t late s →
  steady r t0 now (late || (t0 + 1000 <=? now)) (poll_at r (t, s) now).2.
Proof.
  intros Ht0 Hr Ht Hb [Hw Hd Hs Hl]. unfold poll_at. cbn [fst snd].
  set (n := r * (now - t)).
  assert (u64 (st_total_bytes (count_bytes n s) - st_last_poll_bytes s) = r * (now - st_last_poll_time_ms s)) as Hd'.
  { cbn [count_bytes st_total_bytes]. rewrite u64_grow, Hd. unfold n. rewrite u64_id by nia. lia. }
  unfold poll_speed. cbn [count_bytes st_last_poll_time_ms st_last_poll_bytes] in *.
  rewrite (proj2 (Z.eqb_neq _ 0)) by lia.
  destruct (Z.leb_spec 1000 (now - st_last_poll_time_ms s)) as [Hdt|Hdt].
  - rewrite Hd'. rewrite (proj2 (Z.leb_le (t0 + 1000) now)), orb_true_r by lia.
    constructor; cbn [st_last_poll_time_ms st_total_bytes st_last_poll_bytes st_last_speed]; [lia| | |lia].
    + rewrite !Z.sub_diag. by rewrite Z.mul_0_r.
    + rewrite u64_id by nia.
      replace (r * (now - st_last_poll_time_ms s) * 1000) with (r * 1000 * (now - st_last_poll_time_ms s)) by lia.
      apply Z.div_mul. lia.
  - constructor; cbn [count_bytes st_last_poll_time_ms st_total_bytes st_last_poll_bytes st_last_speed];
      [lia|exact Hd'|..]; destruct late; cbn [orb]; try done.
    + destruct Hl as [Hl _]. by rewrite (proj2 (Z.leb_gt (t0 + 1000) now)) by lia.
    + destruct Hl as [Hl _]. rewrite (proj2 (Z.leb_gt (t0 + 1000) now)) by lia. lia.
Qed.

Lemma polls_steady r t0 times t late s :
  0 < t0 → 0 <= r → StronglySorted Z.le (t :: times) →
  Forall (λ now, r * 1000 * (now - t0) < 2 ^ 64) times → steady r t0 t late s →
  ∃ t', steady r t0 t' (late || existsb (λ now, t0 + 1000 <=? now) times) (foldl (poll_at r) (t, s) times).2.
Proof.
  intros Ht0 Hr. revert t late s. induction times as [|now times IH]; intros t late s Hsort Hall Hs; cbn [foldl existsb].
  { exists t. by rewrite orb_false_r. }
  apply StronglySorted_inv in Hsort as [Hsort [Hle _]%Forall_cons]. apply Forall_cons in Hall as [Hb Hall].
  rewrite orb_assoc. apply (IH now); [done..|]. by apply (poll_steady r t0 t).
Qed.

(** ** Properties *)

(** C21: while bytes come at a steady rate, every poll reports that rate exactly
    from one second after the first sample on, and 0 before, however many
    clients ask for the status and however close together: no poller makes
    another one see a window too short. *)
Theorem steady_rate_reported (r t0 : Z) (times : list Z) (s : stats)
    (Ht0 : 0 < t0) (Hr : 0 <= r) (Hsort : StronglySorted Z.le (t0 :: times))
    (Hfit : Forall (λ now, r * 1000 * (now - t0) < 2 ^ 64) times) (Hfirst : st_last_poll_time_ms s = 0) :
  st_last_speed (foldl (poll_at r) (t0, poll_speed t0 s) times).2 =
  if existsb (λ now, t0 + 1000 <=? now) times then r * 1000 else 0.
Proof.
  destruct (polls_steady r t0 times t0 false (poll_speed t0 s) Ht0 Hr Hsort Hfit) as (t & [_ _ H _]); [|exact H].
  unfold poll_speed. rewrite Hfirst. cbn [Z.eqb].
  constructor; cbn [st_last_poll_time_ms st_total_bytes st_last_poll_bytes st_last_speed]; [lia| |done|lia].
  by rewrite !Z.sub_diag, Z.mul_0_r.
Qed.

Lemma steady_rate_reported_witness :
  st_last_speed (foldl (poll_at 2000) (500, poll_speed 500 (Stats 77 0 0 0)) [700; 1600; 1610; 2700]).2 = 2000000.
Proof.
  rewrite (steady_rate_reported 2000 500 [700; 1600; 1610; 2700] (Stats 77 0 0 0)).
  - reflexivity.
  - lia.
  - lia.
  - repeat constructor; lia.
  - repeat constructor; lia.
  - reflexivity.
Defined.

(** The lines the logger accepts begin with the time. *)
Lemma accepted_not_errors calls level :
  (∀ l ts msg, Emit l ts msg ∈ calls → head ts ≠ Some x5b) →
  Forall (λ line, error_line line = false) (accepted_lines level calls).
Proof.
  revert level. induction calls as [|[l ts msg|l] calls IH]; intros level Hts; cbn [accepted_lines]; [constructor| |].
  - apply Forall_app. split; [|apply IH; intros l' ts' msg' Hin; apply (Hts l' ts' msg'); by right].
    destruct (level_num level <? level_num l); [constructor|]. constructor; [|constructor].
    assert (head ts ≠ Some x5b) as Hh by (apply (Hts l ts msg); left).
    unfold error_line, log_line. apply bool_decide_eq_false. intros E.
    destruct ts as [|c ts]; [done|]. apply (f_equal head) in E. simpl in E, Hh. congruence.
  - apply IH. intros l' ts' msg' Hin. apply (Hts l' ts' msg'). by right.
Qed.

(** Whatever the program has logged, [GET /api/status] shows no error: the
    callback takes the lines that begin with "[ERROR]", but every line begins
    with the time it was logged at. *)
Theorem status_shows_no_errors (calls : list log_call)
    (Hts : ∀ l ts msg, Emit l ts msg ∈ calls → head ts ≠ Some x5b) :
  recent_errors (log_for_each_recent (foldl run_call log_zero calls)) = [].
Proof.
  rewrite recent_errors_eq, (recent_is_last (accepted_lines LOG_INFO calls)).
  2: exact (run_calls_inv calls [] log_zero log_zero_inv).
  pose proof (accepted_not_errors calls LOG_INFO Hts) as H.
  apply (Forall_drop _ (length (accepted_lines LOG_INFO calls) - LOG_RING_CAPACITY)) in H.
  unfold kept_errors, last_n at 2. induction H as [|x l Hx _ IH]; [done|].
  by rewrite filter_cons, decide_False by congruence.
Qed.

(** An error was logged, and the page of logs shows it. *)
Definition logged_error : list log_call := [Emit LOG_ERROR ($ "2025-01-02 03:04:05") ($ "disk full")].

Lemma status_shows_no_errors_witness :
  recent_errors (log_for_each_recent (foldl run_call log_zero logged_error)) = [] ∧
  log_line LOG_ERROR ($ "2025-01-02 03:04:05") ($ "disk full") = $ "2025-01-02 03:04:05 [ERROR] disk full".
Proof.
  split; [|reflexivity]. apply status_shows_no_errors.
  intros l ts msg [[= -> -> ->]|[]%elem_of_nil]%elem_of_cons. done.
Defined.

(** Lines that do begin so are kept: the last ten of them, in order. *)
Example ring_of_errors :
  recent_errors ((λ i, $ "[ERROR] " ++ print_dec (Z.of_nat i)) <$> seq 0 13) =
  (λ i, $ "[ERROR] " ++ print_dec (Z.of_nat i)) <$> seq 3 10.
Proof. vm_compute. done. Qed.
