(* ===== verification/Api.v ===== *)
(** * The handlers of the API ([web/api_jobs.c], [web/api_system.c])

    Each handler takes the state the threads share and returns it with the
    answer. Every handler holds the queue lock at most once, so what it does to
    the queue is one step for the other threads. What leaves the program is
    recorded as effects, in order; log lines are left out. *)

From Stdlib Require Import ZArith Lia List.
From Stdlib Require Import Strings.Byte Strings.String.
From stdpp Require Import base list gmap.
From S2P Require Import Prelude Json Config Paths Job Nzb JobStore Queue Output PkgInstall Utf8 ApiConfig JobJson.

(** ** State *)

Inductive effect :=
  | Respond (r : response)          (* the answer is queued *)
  | CancelPool                      (* [nntp_pool_cancel_all] *)
  | RemoveTree (path : cstr)        (* [rmdir_recursive] *)
  | InstallPkg (path : cstr)        (* [sceAppInstUtilInstallByPackage] *)
  | StopServer.                     (* [httpd_stop] *)

(** [g_app] as far as the handlers write it: the settings, the queue with its
    files, [shutdown_requested], the installer's flag, and what was done
    outside. *)
Record app_state := App {
  a_config : config_state;
  a_queue : queue;
  a_store : file_system;
  a_shutdown : bool;
  a_pkg_ready : bool;
  a_effects : list effect;
}.

Definition settings (st : app_state) : app_config := cf_config (a_config st).

Definition with_config (c : config_state) (st : app_state) : app_state :=
  App c (a_queue st) (a_store st) (a_shutdown st) (a_pkg_ready st) (a_effects st).
Definition with_queue (q : queue) (fs : file_system) (st : app_state) : app_state :=
  App (a_config st) q fs (a_shutdown st) (a_pkg_ready st) (a_effects st).
Definition with_effect (e : effect) (st : app_state) : app_state :=
  App (a_config st) (a_queue st) (a_store st) (a_shutdown st) (a_pkg_ready st) (a_effects st ++ [e]).
Definition request_shutdown (st : app_state) : app_state :=
  App (a_config st) (a_queue st) (a_store st) true (a_pkg_ready st) (a_effects st).
Definition with_pkg_ready (ready : bool) (st : app_state) : app_state :=
  App (a_config st) (a_queue st) (a_store st) (a_shutdown st) ready (a_effects st).

(** [queue_find_job], the job itself. *)
Definition find_job (q : queue) (id : cstr) : option (nat * job) :=
  match queue_find_job q id with
  | Some i => match q_jobs q !! i with Some j => Some (i, j) | None => None end
  | None => None
  end.

Definition store_job (i : nat) (j : job) (st : app_state) : app_state :=
  with_queue (Queue (q_dir (a_queue st)) (<[i := j]> (q_jobs (a_queue st)))) (a_store st) st.

Section handlers.
Context `{JsonCodec}.

(** What is on disk at a path, the content of a file ([None]: it cannot be
    opened; the flag: it can be read to the end), what the installer's two calls
    return when a package is installed, and expat. *)
Context (tree : cstr → node) (read_file : cstr → option (list byte * bool))
  (installer : cstr → Z * Z) (xml_parse : list (list byte) → list xml_event * bool).

(** ** Reading *)

Definition MAX_JOBS_LISTED : nat := 512.

Definition scan_job (cfg : app_config) (j : job) : job :=
  job_ensure_pkg_scanned cfg tree (job_ensure_nfo_scanned cfg tree j).

Definition api_jobs_list (p : app_progress) (st : app_state) : app_state * response :=
  let q := a_queue st in
  let jobs := scan_job (settings st) <$> queue_list_jobs q MAX_JOBS_LISTED in
  (with_queue (Queue (q_dir q) (jobs ++ drop MAX_JOBS_LISTED (q_jobs q))) (a_store st) st,
   json_respond HTTP_OK (JArr (job_to_json_summary p <$> jobs))).

Definition api_jobs_get (p : app_progress) (id : cstr) (st : app_state) : app_state * response :=
  match find_job (a_queue st) id with
  | None => (st, json_respond_error HTTP_NOT_FOUND ($ "no such job"))
  | Some (i, j) =>
    let j := scan_job (settings st) j in
    (store_job i j st, json_respond HTTP_OK (job_to_json_detail p j))
  end.

Definition NFO_MAX_BYTES : Z := 2 * 1024 * 1024.

(** The part after the lock is released. *)
Definition nfo_response (nfo_path : cstr) : response :=
  match nfo_path with
  | [] => json_respond_error HTTP_NOT_FOUND ($ "no .nfo file found for this job")
  | _ =>
    match read_file nfo_path with
    | None => json_respond_error HTTP_INTERNAL_SERVER_ERROR ($ "could not open .nfo file")
    | Some (content, whole) =>
      if NFO_MAX_BYTES <? Z.of_nat (length content)
      then json_respond_error HTTP_INTERNAL_SERVER_ERROR ($ "nfo file is too large to display")
      else if negb whole then json_respond_error HTTP_INTERNAL_SERVER_ERROR ($ "short read on .nfo file")
      else json_respond HTTP_OK (JObj [($ "filename", JStr (path_basename nfo_path));
                                       ($ "content", JStr (c_str (nfo_text content)))])
    end
  end.

Definition api_jobs_get_nfo (id : cstr) (st : app_state) : app_state * response :=
  match find_job (a_queue st) id with
  | None => (st, json_respond_error HTTP_NOT_FOUND ($ "no such job"))
  | Some (i, j) =>
    let j := job_ensure_nfo_scanned (settings st) tree j in
    (store_job i j st, nfo_response (str_fit 900 (j_nfo_path j)))
  end.

(** ** Packages *)

Definition pkg_filename_selected (fname : cstr) (selected : option (list json)) : bool :=
  match selected with
  | None => true
  | Some items => existsb (λ item, bool_decide (as_string (Some item) = Some fname)) items
  end.

(** [req_files] of a body: [None] is the NULL pointer. *)
Definition requested_files (body : list byte) : option (list json) :=
  match body with
  | [] => None
  | _ =>
    match get_item (parse body) ($ "files") with
    | Some (JArr l) => Some l
    | _ => None
    end
  end.

Definition selected_pkgs (selected : option (list json)) (j : job) : list cstr :=
  str_fit 900 <$> filter (λ path, pkg_filename_selected (path_basename path) selected = true) (j_pkg_paths j).

Definition install_result (path : cstr) (err : option cstr) : json :=
  JObj ([($ "filename", JStr (path_basename path)); ($ "installed", JBool (bool_decide (err = None)))] ++
        match err with Some err => [($ "error", JStr err)] | None => [] end).

(** The loop over the packages. *)
Fixpoint install_each (paths : list cstr) (st : app_state) : app_state * list json :=
  match paths with
  | [] => (st, [])
  | path :: paths =>
    let '(ready, handed, err) := pkg_install_file (installer path).1 (installer path).2 (a_pkg_ready st) in
    let st := with_pkg_ready ready st in
    let '(st, results) := install_each paths (if (handed : bool) then with_effect (InstallPkg path) st else st) in
    (st, install_result path err :: results)
  end.

Definition api_jobs_install_pkgs (id : cstr) (body : list byte) (st : app_state) : app_state * response :=
  match find_job (a_queue st) id with
  | None => (st, json_respond_error HTTP_NOT_FOUND ($ "no such job"))
  | Some (i, j) =>
    let j := job_ensure_pkg_scanned (settings st) tree j in
    let st := store_job i j st in
    match selected_pkgs (requested_files body) j with
    | [] => (st, json_respond_error HTTP_NOT_FOUND ($ "no matching .pkg files found for this job"))
    | paths =>
      let '(st, results) := install_each paths st in
      (st, json_respond HTTP_OK (JArr results))
    end
  end.

(** ** A new job *)

(** How far the upload gets on its way through the scratch file; when it was
    written, what the parser then reads ([None]: it cannot be opened). *)
Inductive upload_outcome := UploadNoDir | UploadNoOpen | UploadShort | UploadStored (content : option (list byte)).

(** The fields the form sets. *)
Definition set_form (name output_dir : cstr) (add_to_shadowmount auto_install_pkgs : bool) (j : job) : job :=
  Job (j_id j) name (j_state j) (j_busy j) (j_priority j) (j_retries_used j) (j_last_error j)
    (j_final_bytes j) (j_passwords j) output_dir add_to_shadowmount auto_install_pkgs
    (j_nfo_path j) (j_nfo_checked j) (j_pkg_paths j) (j_pkg_checked j) (j_files j).

Record upload_form := UploadForm {
  uf_filename : cstr;
  uf_display_name : cstr;
  uf_output_dir : cstr;
  uf_add_to_shadowmount : bool;
  uf_auto_install_pkgs : bool;
}.

Definition form_job (f : upload_form) (j : job) : job :=
  let name :=
    if negb (bool_decide (uf_display_name f = [])) then path_sanitize_component (str_fit 256 (uf_display_name f)) 256
    else if negb (bool_decide (uf_filename f = [])) then path_sanitize_component (str_fit 256 (uf_filename f)) 256
    else j_name j in
  let output_dir := if bool_decide (uf_output_dir f = []) then j_output_dir j else str_fit 512 (uf_output_dir f) in
  set_form name output_dir (uf_add_to_shadowmount f) (uf_auto_install_pkgs f) j.

(** [scratch] and [random] are the bytes of [arc4random_buf] for the scratch
    file and for the job. *)
Definition scratch_path (cfg : app_config) (scratch : list byte) : cstr :=
  str_fit 768 (str_fit 600 (sc_temp_dir (ac_storage cfg) ++ $ "/.uploads") ++ $ "/" ++ mjoin (hex2 <$> scratch) ++ $ ".nzb").

Definition api_jobs_create (w1 w2 : write_outcome) (outcome : upload_outcome) (scratch random : list byte)
    (p : app_progress) (nzb_data : list byte) (f : upload_form) (st : app_state) : app_state * response :=
  let fail status msg := (st, json_respond_error status msg) in
  match nzb_data, outcome with
  | [], _ => fail HTTP_BAD_REQUEST ($ "empty NZB upload")
  | _, UploadNoDir => fail HTTP_INTERNAL_SERVER_ERROR ($ "could not prepare upload scratch space")
  | _, UploadNoOpen => fail HTTP_INTERNAL_SERVER_ERROR ($ "could not buffer upload to disk")
  | _, UploadShort => fail HTTP_INTERNAL_SERVER_ERROR ($ "short write buffering upload")
  | _, UploadStored content =>
    match nzb_parse_file xml_parse random (scratch_path (settings st) scratch) content with
    | None => fail HTTP_BAD_REQUEST ($ "could not parse NZB (malformed XML?)")
    | Some j =>
      if bool_decide (j_files j = []) then fail HTTP_BAD_REQUEST ($ "NZB has no files")
      else
        let '(q, fs, rc) := queue_add_job w1 w2 (a_queue st) (a_store st) (form_job f j) in
        let st := with_queue q fs st in
        if rc <? 0 then (st, json_respond_error HTTP_INTERNAL_SERVER_ERROR ($ "could not persist job"))
        else (st, json_respond HTTP_CREATED (job_to_json_detail p (default (form_job f j) (last (q_jobs q)))))
    end
  end.

(** ** Commands *)

Definition run_action (fn : queue → file_system → cstr → result) (cancel_pool : bool) (id : cstr) (st : app_state)
    : app_state * response :=
  let '(q, fs, rc) := fn (a_queue st) (a_store st) id in
  let st := with_queue q fs st in
  if rc <? 0
  then (st, json_respond_error HTTP_CONFLICT ($ "unknown job id, or action not valid for this job's current state"))
  else (if cancel_pool then with_effect CancelPool st else st, json_respond HTTP_OK (JObj [])).

Definition api_jobs_pause (w1 w2 : write_outcome) := run_action (queue_pause_job w1 w2) true.
Definition api_jobs_resume (w1 w2 : write_outcome) := run_action (queue_resume_job w1 w2) false.
Definition api_jobs_cancel (w1 w2 : write_outcome) := run_action (queue_cancel_job w1 w2) true.
Definition api_jobs_retry (w1 w2 : write_outcome) := run_action (queue_retry_job w1 w2) false.

(** The directories a removal clears, from the settings before it and the job
    in the queue. *)
Definition job_dirs (cfg : app_config) (q : queue) (id : cstr) : list cstr :=
  let dest_dir :=
    match find_job q id with
    | Some (_, j) => if bool_decide (j_state j = JOB_COMPLETED) then [] else job_output_dest_dir cfg j
    | None => []
    end in
  str_fit 700 (sc_temp_dir (ac_storage cfg) ++ $ "/" ++ id) :: (if bool_decide (dest_dir = []) then [] else [dest_dir]).

Definition api_jobs_delete (id : cstr) (st : app_state) : app_state * response :=
  let dirs := job_dirs (settings st) (a_queue st) id in
  let '(q, fs, rc) := queue_remove_job (a_queue st) (a_store st) id in
  let st := with_queue q fs st in
  if rc =? -2 then
    (st, json_respond_error HTTP_CONFLICT ($ "job is still actively being processed - try again in a moment"))
  else if rc <? 0 then (st, json_respond_error HTTP_NOT_FOUND ($ "no such job"))
  else (foldl (λ st dir, with_effect (RemoveTree dir) st) st dirs, json_respond HTTP_OK (JObj [])).

(** ** Shutting down *)

Definition MAX_JOBS_TO_SCAN : nat := 512.

(** The loop looks at the jobs as they are when their turn comes; [w] gives the
    outcomes of the two writes of job [i]. *)
Definition cancel_active_job (w : nat → write_outcome * write_outcome) (st : app_state) : app_state :=
  foldl (λ st i,
    match q_jobs (a_queue st) !! i with
    | Some j =>
      if was_active (j_state j) then
        let '(q, fs, _) := queue_cancel_job (w i).1 (w i).2 (a_queue st) (a_store st) (j_id j) in
        with_queue q fs st
      else st
    | None => st
    end) st (seq 0 (length (queue_list_jobs (a_queue st) MAX_JOBS_TO_SCAN))).

Definition api_system_eject (w : nat → write_outcome * write_outcome) (st : app_state) : app_state * response :=
  let res := json_respond HTTP_OK (JObj []) in
  let st := with_effect (Respond res) st in
  let st := cancel_active_job w st in
  let st := with_effect CancelPool st in
  let st := request_shutdown st in
  (with_effect StopServer st, res).
End handlers.

(** ** What handlers do to the queue *)

Section queue_steps.
Context `{JsonCodec}.
Context (tree : cstr → node) (read_file : cstr → option (list byte * bool))
  (installer : cstr → Z * Z) (xml_parse : list (list byte) → list xml_event * bool).

Definition queue_of (st : app_state) : queue * file_system := (a_queue st, a_store st).

Lemma find_job_lookup q id i j : find_job q id = Some (i, j) → index_of (q_jobs q) id = Some i ∧ q_jobs q !! i = Some j.
Proof.
  unfold find_job, queue_find_job. destruct (index_of (q_jobs q) id) as [k|]; [|done].
  destruct (q_jobs q !! k) as [j'|] eqn:E; [|done]. by intros [= -> ->].
Qed.

Lemma find_job_None q id : find_job q id = None → index_of (q_jobs q) id = None.
Proof.
  unfold find_job, queue_find_job. destruct (index_of (q_jobs q) id) as [k|] eqn:E; [|done].
  destruct (index_of_Some _ _ _ E) as (j & -> & _). done.
Qed.

Lemma add_pkg_keeps j path : j_id (job_add_pkg_path j path) = j_id j ∧ j_priority (job_add_pkg_path j path) = j_priority j.
Proof. unfold job_add_pkg_path. by destruct (JOB_MAX_PKGS <=? length (j_pkg_paths j))%nat. Qed.

Lemma find_pkgs_keeps depth dir n j :
  j_id (find_pkgs_recursive depth dir n j) = j_id j ∧ j_priority (find_pkgs_recursive depth dir n j) = j_priority j.
Proof.
  revert dir n j. induction depth as [|depth IH]; intros dir n j; [done|].
  destruct n as [|entries|]; [done| |done]. cbn [find_pkgs_recursive].
  generalize (stat_entries 900 dir entries). intros ents. revert j.
  induction ents as [|[[child name] n] ents IHe]; intros j; cbn [foldl]; [done|].
  destruct (IHe (if (length (j_pkg_paths j) <? JOB_MAX_PKGS)%nat then
        if is_file n && has_pkg_suffix name then job_add_pkg_path j child
        else if is_dir n && (1 <? S depth)%nat then find_pkgs_recursive depth child n j else j else j)) as [-> ->].
  destruct (length (j_pkg_paths j) <? JOB_MAX_PKGS)%nat; [|done].
  destruct (is_file n && has_pkg_suffix name); [apply add_pkg_keeps|].
  by destruct (is_dir n && (1 <? S depth)%nat).
Qed.

Lemma nfo_scan_keeps cfg j :
  j_id (job_ensure_nfo_scanned cfg tree j) = j_id j ∧ j_priority (job_ensure_nfo_scanned cfg tree j) = j_priority j.
Proof using.
  unfold job_ensure_nfo_scanned. destruct (negb _); [done|]. by destruct (_ || _).
Qed.

Lemma pkg_scan_keeps cfg j :
  j_id (job_ensure_pkg_scanned cfg tree j) = j_id j ∧ j_priority (job_ensure_pkg_scanned cfg tree j) = j_priority j.
Proof using.
  unfold job_ensure_pkg_scanned. destruct (negb _); [done|]. destruct (_ || _); [done|].
  cbn [set_pkg_checked j_id j_priority]. case_decide; [done|]. apply find_pkgs_keeps.
Qed.

Lemma scan_keeps cfg j : j_id (scan_job tree cfg j) = j_id j ∧ j_priority (scan_job tree cfg j) = j_priority j.
Proof using.
  unfold scan_job. destruct (pkg_scan_keeps cfg (job_ensure_nfo_scanned cfg tree j)) as [-> ->].
  apply nfo_scan_keeps.
Qed.

Lemma store_job_step i j j' st :
  q_jobs (a_queue st) !! i = Some j → j_id j' = j_id j ∧ j_priority j' = j_priority j →
  queue_step (queue_of st) (queue_of (store_job i j' st)).
Proof. intros Hj [Hid Hp]. by apply (step_worker _ _ _ i j). Qed.

(** Changing every job of a prefix is a step per job. *)
Lemma prefix_steps (f : job → job) dir pre jobs fs :
  (∀ j, j_id (f j) = j_id j ∧ j_priority (f j) = j_priority j) →
  ∀ n, rtc queue_step (Queue dir (pre ++ jobs), fs) (Queue dir (pre ++ (f <$> take n jobs) ++ drop n jobs), fs).
Proof.
  intros Hf. revert pre. induction jobs as [|j jobs IH]; intros pre n; [by rewrite take_nil, drop_nil|].
  destruct n as [|n]; [done|]. cbn [take firstn fmap list_fmap drop skipn app].
  eapply rtc_l.
  - apply (step_worker _ _ fs (length pre) j (f j)); [|apply Hf..]. cbn [q_jobs].
    by rewrite lookup_app_r, Nat.sub_diag by done.
  - cbn [q_dir q_jobs]. rewrite insert_app_r_alt, Nat.sub_diag by done. cbn.
    specialize (IH (pre ++ [f j]) n). by rewrite <- !app_assoc in IH.
Qed.

Lemma op_step w1 w2 op st q fs rc :
  op_pre (a_queue st) op → run_queue_op w1 w2 op (a_queue st) (a_store st) = (q, fs, rc) →
  queue_step (queue_of st) (q, fs).
Proof. intros Hpre Hrun. by eapply step_op. Qed.

Lemma effects_queue {A} (f : A → effect) l st : queue_of (foldl (λ st x, with_effect (f x) st) st l) = queue_of st.
Proof. revert st. induction l as [|x l IH]; intros st; [done|]. cbn [foldl]. by rewrite IH. Qed.

Lemma install_each_keeps paths st :
  let st' := (install_each installer paths st).1 in
  queue_of st' = queue_of st ∧ a_config st' = a_config st ∧ a_shutdown st' = a_shutdown st.
Proof using.
  revert st. induction paths as [|path paths IH]; intros st; [done|]. cbn [install_each].
  destruct (pkg_install_file _ _ _) as [[ready handed] err].
  specialize (IH (if handed then with_effect (InstallPkg path) (with_pkg_ready ready st) else with_pkg_ready ready st)).
  destruct (install_each _ _ _) as [st' results]. cbn [fst] in *. by destruct IH as (-> & -> & ->), handed.
Qed.

Lemma list_steps p st : rtc queue_step (queue_of st) (queue_of (api_jobs_list tree p st).1).
Proof using.
  unfold api_jobs_list, queue_of, queue_list_jobs. cbn [fst with_queue a_queue a_store].
  destruct (a_queue st) as [dir jobs]. cbn [q_dir q_jobs].
  apply (prefix_steps _ dir [] jobs _ (scan_keeps (settings st))).
Qed.

Lemma get_steps p id st : rtc queue_step (queue_of st) (queue_of (api_jobs_get tree p id st).1).
Proof using.
  unfold api_jobs_get. destruct (find_job (a_queue st) id) as [[i j]|] eqn:E; [|done].
  apply rtc_once. apply (store_job_step i j); [|apply scan_keeps]. by apply find_job_lookup in E as [_ E].
Qed.

Lemma nfo_steps id st : rtc queue_step (queue_of st) (queue_of (api_jobs_get_nfo tree read_file id st).1).
Proof using.
  unfold api_jobs_get_nfo. destruct (find_job (a_queue st) id) as [[i j]|] eqn:E; [|done].
  apply rtc_once. apply (store_job_step i j); [|apply nfo_scan_keeps]. by apply find_job_lookup in E as [_ E].
Qed.

Lemma install_steps id body st :
  rtc queue_step (queue_of st) (queue_of (api_jobs_install_pkgs tree installer id body st).1).
Proof using.
  unfold api_jobs_install_pkgs. destruct (find_job (a_queue st) id) as [[i j]|] eqn:E; [|done].
  apply find_job_lookup in E as [_ E].
  assert (queue_step (queue_of st) (queue_of (store_job i (job_ensure_pkg_scanned (settings st) tree j) st)))
    as Hstep by (apply (store_job_step i j); [done|apply pkg_scan_keeps]).
  destruct (selected_pkgs _ _) as [|path paths]; [by apply rtc_once|].
  pose proof (install_each_keeps (path :: paths) (store_job i (job_ensure_pkg_scanned (settings st) tree j) st)) as [Hk _].
  destruct (install_each _ _ _) as [st' results]. cbn [fst] in *. rewrite Hk. by apply rtc_once.
Qed.

Lemma action_steps w1 w2 op fn pool id st :
  (∀ q fs, run_queue_op w1 w2 op q fs = fn q fs id) → op_pre (a_queue st) op →
  rtc queue_step (queue_of st) (queue_of (run_action fn pool id st).1).
Proof.
  intros Hfn Hpre. unfold run_action. destruct (fn (a_queue st) (a_store st) id) as [[q fs] rc] eqn:E.
  assert (queue_step (queue_of st) (q, fs)) as Hstep
    by (apply (op_step w1 w2 op st q fs rc); [done|by rewrite Hfn]).
  apply rtc_once. by destruct (rc <? 0), pool.
Qed.

Lemma delete_steps id st : rtc queue_step (queue_of st) (queue_of (api_jobs_delete id st).1).
Proof.
  unfold api_jobs_delete. destruct (queue_remove_job (a_queue st) (a_store st) id) as [[q fs] rc] eqn:E.
  apply rtc_once.
  assert (queue_step (queue_of st) (q, fs)) as Hstep by by apply (op_step all_good all_good (QRemove id) st q fs rc).
  destruct (rc =? -2); [done|]. destruct (rc <? 0); [done|]. cbn [fst]. by rewrite (effects_queue RemoveTree).
Qed.

Lemma cancel_active_steps w st : rtc queue_step (queue_of st) (queue_of (cancel_active_job w st)).
Proof.
  unfold cancel_active_job. generalize (seq 0 (length (queue_list_jobs (a_queue st) MAX_JOBS_TO_SCAN))).
  intros l. revert st. induction l as [|i l IH]; intros st; [done|]. cbn [foldl].
  destruct (q_jobs (a_queue st) !! i) as [j|]; [|apply IH]. destruct (was_active (j_state j)); [|apply IH].
  destruct (queue_cancel_job _ _ _ _ _) as [[q fs] rc] eqn:E.
  eapply rtc_l; [|apply (IH (with_queue q fs st))].
  by apply (op_step (w i).1 (w i).2 (QCancel (j_id j)) st q fs rc).
Qed.

(** The id of a parsed job is the one it was created with. *)
Lemma event_keeps_id ctx e : j_id (pc_job (handle_event ctx e)) = j_id (pc_job ctx).
Proof.
  destruct e as [name attrs|text|name]; cbn [handle_event].
  - unfold start_element. repeat case_decide; repeat case_match; done.
  - unfold char_data. repeat case_match; done.
  - unfold end_element, add_to_last_file, job_add_password. repeat case_decide; repeat case_match; done.
Qed.

Lemma parsed_id random path content j :
  nzb_parse_file xml_parse random path content = Some j → j_id j = generate_job_id random.
Proof.
  unfold nzb_parse_file. destruct content as [data|]; [|done]. cbn [mbind option_bind].
  destruct (xml_parse _) as [events ok]. destruct ok; [|done]. intros [= <-].
  assert (∀ ctx, j_id (pc_job (foldl handle_event ctx events)) = j_id (pc_job ctx)) as ->; [|done].
  induction events as [|e events IH]; intros ctx; [done|]. cbn [foldl]. by rewrite IH, event_keeps_id.
Qed.

(** A random id that no job has, and room for one more priority. *)
Definition create_pre (q : queue) (random : list byte) : Prop :=
  (generate_job_id random ∉ (j_id <$> q_jobs q)) ∧ ∀ l, last (q_jobs q) = Some l → j_priority l < 2 ^ 31 - 1.

Lemma create_steps w1 w2 outcome scratch random p data f st :
  create_pre (a_queue st) random →
  rtc queue_step (queue_of st) (queue_of (api_jobs_create xml_parse w1 w2 outcome scratch random p data f st).1).
Proof.
  intros [Hid Hlast]. unfold api_jobs_create. destruct data as [|c data]; [done|].
  destruct outcome as [| | |content]; [done..|].
  destruct (nzb_parse_file _ _ _ _) as [j|] eqn:E; [|done]. case_bool_decide; [done|].
  destruct (queue_add_job _ _ _ _ _) as [[q fs] rc] eqn:Ea.
  assert (queue_step (queue_of st) (q, fs)) as Hstep.
  { apply (op_step w1 w2 (QAdd (form_job f j)) st q fs rc); [|done]. split; [|done].
    apply parsed_id in E. cbn [form_job set_form j_id]. by rewrite E. }
  apply rtc_once. by destruct (rc <? 0).
Qed.
End queue_steps.

(** ** Removal *)

(** The three files of a job. *)
Definition job_store_files (q : queue) (id : cstr) : list cstr :=
  let path := job_path q id 600 in
  [path; job_sidecar_path path ($ ".segments") 700; job_sidecar_path path ($ ".progress") 700].

Lemma remove_tree_effects dirs st :
  a_effects (foldl (λ st dir, with_effect (RemoveTree dir) st) st dirs) = a_effects st ++ (RemoveTree <$> dirs).
Proof.
  revert st. induction dirs as [|dir dirs IH]; intros st; cbn [foldl fmap list_fmap]; [by rewrite app_nil_r|].
  rewrite IH. cbn [with_effect a_effects]. by rewrite <- app_assoc.
Qed.

Lemma remove_refused q fs id i j :
  index_of (q_jobs q) id = Some i → q_jobs q !! i = Some j → was_active (j_state j) || j_busy j = true →
  queue_remove_job q fs id = (q, fs, -2).
Proof. intros Hi Hj Hb. unfold queue_remove_job. by rewrite Hi, Hj, Hb. Qed.

Lemma with_own_queue st : with_queue (a_queue st) (a_store st) st = st.
Proof. by destruct st. Qed.

(** What a successful removal does. *)
Lemma delete_removes st id i j :
  find_job (a_queue st) id = Some (i, j) → was_active (j_state j) || j_busy j = false →
  let '(st', r) := api_jobs_delete id st in
  rs_status r = HTTP_OK ∧ q_jobs (a_queue st') = take i (q_jobs (a_queue st)) ++ drop (S i) (q_jobs (a_queue st)) ∧
  (∀ p, p ∈ job_store_files (a_queue st) id → a_store st' !! p = None) ∧
  (∀ p, p ∉ job_store_files (a_queue st) id → a_store st' !! p = a_store st !! p) ∧
  a_effects st' = a_effects st ++ (RemoveTree <$> job_dirs (settings st) (a_queue st) id).
Proof.
  intros Hf Hb. destruct (find_job_lookup _ _ _ _ Hf) as [Hi Hj].
  destruct (queue_remove_eq _ (a_store st) _ _ _ Hi Hj Hb) as [Hq Hrc]. unfold api_jobs_delete.
  generalize (job_dirs (settings st) (a_queue st) id). intros dirs.
  destruct (queue_remove_job _ _ _) as [[q fs] rc] eqn:E. cbn [fst snd] in Hq, Hrc. subst rc. cbn [Z.eqb Z.ltb Z.compare].
  pose proof (effects_queue RemoveTree dirs (with_queue q fs st)) as [=-> ->].
  rewrite remove_tree_effects. cbn [with_queue a_queue a_store a_effects]. split_and!; [done|done| | |done].
  all: unfold queue_remove_job in E; rewrite Hi, Hj, Hb in E; injection E as <- <-; intros p; unfold job_store_files.
  - intros Hp. rewrite !lookup_delete_None.
    apply elem_of_cons in Hp as [->|[->|[->|[]%elem_of_nil]%elem_of_cons]%elem_of_cons]; tauto.
  - rewrite !not_elem_of_cons. intros (H1 & H2 & H3 & _). by rewrite !lookup_delete_ne by congruence.
Qed.

(** ** Properties *)


(** The output of a completed job can be removed with another job: where a
    job that is not completed has the same name and the same output directory,
    deleting it clears the directory the completed one's output lies in. *)
Theorem delete_removes_finished_output (st : app_state) (id : cstr) (i : nat) (j k : job)
    (Hfind : find_job (a_queue st) id = Some (i, j)) (Hidle : was_active (j_state j) || j_busy j = false)
    (Hj : j_state j ≠ JOB_COMPLETED) (Hk : k ∈ q_jobs (a_queue st)) (Hdone : j_state k = JOB_COMPLETED)
    (Hname : j_name j = j_name k) (Hdir : j_output_dir j = j_output_dir k)
    (Hdest : job_output_dest_dir (settings st) k ≠ []) :
  let '(st', r) := api_jobs_delete id st in
  rs_status r = HTTP_OK ∧ k ∈ q_jobs (a_queue st') ∧
  RemoveTree (job_output_dest_dir (settings st) k) ∈ a_effects st'.
Proof.
  pose proof (delete_removes st id i j Hfind Hidle) as H. destruct (api_jobs_delete id st) as [st' r].
  destruct H as (H1 & H2 & _ & _ & H5). split_and!; [done| |].
  - rewrite H2. destruct (find_job_lookup _ _ _ _ Hfind) as [_ Hij].
    rewrite <- (take_drop_middle _ _ _ Hij) in Hk.
    apply elem_of_app in Hk as [Hk|[->|Hk]%elem_of_cons]; [by apply elem_of_app; left|done|by apply elem_of_app; right].
  - rewrite H5. apply elem_of_app. right. apply list_elem_of_fmap_2. unfold job_dirs. rewrite Hfind.
    rewrite (bool_decide_eq_false_2 (j_state j = JOB_COMPLETED)) by done.
    assert (job_output_dest_dir (settings st) j = job_output_dest_dir (settings st) k) as ->
      by (unfold job_output_dest_dir, job_output_subdir; by rewrite Hname, Hdir).
    rewrite bool_decide_eq_false_2 by done. right. left.
Qed.

Definition named_job (id : cstr) (s : job_state) (priority : Z) : job :=
  Job id ($ "show.nzb") s false priority 0 [] 0 [] ($ "/mnt/usb0") false false [] false [] false [].

Definition two_jobs : app_state :=
  App (ConfigState app_config_set_defaults [] false)
    (Queue ($ "/data/queue") [named_job ($ "aa") JOB_COMPLETED 0; named_job ($ "bb") JOB_FAILED 1]) ∅ false false [].

Lemma delete_removes_finished_output_witness :
  let '(st', r) := api_jobs_delete ($ "bb") two_jobs in
  rs_status r = HTTP_OK ∧ named_job ($ "aa") JOB_COMPLETED 0 ∈ q_jobs (a_queue st') ∧
  RemoveTree ($ "/mnt/usb0/show") ∈ a_effects st'.
Proof.
  exact (delete_removes_finished_output two_jobs ($ "bb") 1 (named_job ($ "bb") JOB_FAILED 1)
    (named_job ($ "aa") JOB_COMPLETED 0) eq_refl eq_refl ltac:(discriminate) ltac:(left) eq_refl eq_refl eq_refl
    ltac:(discriminate)).
Defined.

(** ** Eject *)

Definition cancelled (j : job) : job := if was_active (j_state j) then fst (job_set_state j JOB_CANCELLED) else j.

Lemma cancelled_idle j : was_active (j_state j) = false → cancelled j = j.
Proof. intros Ha. unfold cancelled. by rewrite Ha. Qed.

Lemma cancelled_id j : j_id (cancelled j) = j_id j.
Proof. unfold cancelled. destruct (was_active (j_state j)); [apply set_state_keeps|done]. Qed.

Lemma index_of_lookup jobs i j :
  NoDup (j_id <$> jobs) → jobs !! i = Some j → index_of jobs (j_id j) = Some i.
Proof.
  intros Hn Hj. destruct (index_of jobs (j_id j)) as [k|] eqn:E.
  - destruct (index_of_Some _ _ _ E) as (j' & Hk & Hid). f_equal.
    apply (NoDup_lookup _ _ _ (j_id j) Hn); rewrite list_lookup_fmap; [by rewrite Hk, <- Hid|by rewrite Hj].
  - apply index_of_None in E. destruct E. apply list_elem_of_fmap_2. by apply list_elem_of_lookup_2 in Hj.
Qed.

Lemma cancel_active_keeps `{JsonCodec} w st :
  let st' := cancel_active_job w st in
  a_effects st' = a_effects st ∧ a_shutdown st' = a_shutdown st ∧ a_config st' = a_config st ∧
  q_dir (a_queue st') = q_dir (a_queue st).
Proof.
  unfold cancel_active_job. generalize (seq 0 (length (queue_list_jobs (a_queue st) MAX_JOBS_TO_SCAN))).
  intros l. revert st. induction l as [|i l IH]; intros st; [done|]. cbn [foldl].
  destruct (q_jobs (a_queue st) !! i) as [j|]; [|apply IH]. destruct (was_active (j_state j)); [|apply IH].
  destruct (queue_cancel_job _ _ _ _ _) as [[q fs] rc] eqn:E. destruct (IH (with_queue q fs st)) as (-> & -> & -> & ->).
  split_and!; [done..|]. cbn [with_queue a_queue]. unfold queue_cancel_job, change_job in E.
  repeat case_match; simplify_eq; done.
Qed.

(** One cancellation of a job that is active. *)
Lemma cancel_active_one `{JsonCodec} w1 w2 q fs i j :
  NoDup (j_id <$> q_jobs q) → q_jobs q !! i = Some j → was_active (j_state j) = true →
  q_jobs (queue_cancel_job w1 w2 q fs (j_id j)).1.1 = <[i := cancelled j]> (q_jobs q).
Proof.
  intros Hn Hj Ha. unfold queue_cancel_job, change_job, queue_find_job, cancelled.
  rewrite (index_of_lookup _ i j), Hj, Ha by done.
  assert (negb (bool_decide (j_state j ∈ [JOB_COMPLETED; JOB_CANCELLED])) = true) as ->.
  { apply negb_true_iff, bool_decide_eq_false. revert Ha. unfold was_active. rewrite bool_decide_eq_true.
    intros Ha Hc. destruct (j_state j); apply list_elem_of_In in Ha, Hc; simpl in Ha, Hc; intuition discriminate. }
  by destruct (queue_save_job _ _ _ _ _).
Qed.

Lemma cancel_active_jobs `{JsonCodec} w st :
  NoDup (j_id <$> q_jobs (a_queue st)) →
  q_jobs (a_queue (cancel_active_job w st)) =
  (cancelled <$> take MAX_JOBS_TO_SCAN (q_jobs (a_queue st))) ++ drop MAX_JOBS_TO_SCAN (q_jobs (a_queue st)).
Proof.
  intros Hn. unfold cancel_active_job, queue_list_jobs. rewrite length_take.
  set (jobs := q_jobs (a_queue st)) in *.
  assert (∀ n, (n <= length jobs)%nat → q_jobs (a_queue (foldl (λ st i,
    match q_jobs (a_queue st) !! i with
    | Some j =>
      if was_active (j_state j) then
        let '(q, fs, _) := queue_cancel_job (w i).1 (w i).2 (a_queue st) (a_store st) (j_id j) in with_queue q fs st
      else st
    | None => st
    end) st (seq 0 n))) = (cancelled <$> take n jobs) ++ drop n jobs) as Hloop.
  { induction n as [|n IH]; intros Hlen; [done|]. rewrite seq_S, foldl_app. cbn [Nat.add foldl].
    specialize (IH ltac:(lia)). set (st1 := foldl _ st (seq 0 n)) in *. rewrite IH.
    destruct (lookup_lt_is_Some_2 jobs n) as [j Hj]; [lia|].
    assert (((cancelled <$> take n jobs) ++ drop n jobs) !! n = Some j) as Hlook.
    { rewrite lookup_app_r; rewrite length_fmap, length_take, Nat.min_l by lia; [|done].
      by rewrite lookup_drop, Nat.sub_diag, Nat.add_0_r. }
    rewrite Hlook. rewrite (take_S_r _ _ _ Hj), fmap_app, <- app_assoc. cbn [fmap list_fmap app].
    rewrite (drop_S _ _ _ Hj) in *.
    destruct (was_active (j_state j)) eqn:Ha; [|by rewrite IH, (cancelled_idle j Ha)].
    assert (NoDup (j_id <$> q_jobs (a_queue st1))) as Hn1.
    { rewrite IH, <- (drop_S _ _ _ Hj), fmap_app, <- list_fmap_compose.
      rewrite (list_fmap_ext (j_id ∘ cancelled) j_id) by (intros; apply cancelled_id).
      by rewrite <- fmap_app, take_drop. }
    rewrite <- IH in Hlook.
    pose proof (cancel_active_one (w n).1 (w n).2 (a_queue st1) (a_store st1) n j Hn1 Hlook Ha) as Hone.
    destruct (queue_cancel_job _ _ _ _ _) as [[q fs] rc]. cbn [fst with_queue a_queue] in *.
    rewrite Hone, IH, insert_app_r_alt; rewrite length_fmap, length_take, Nat.min_l by lia; [|done].
    by rewrite Nat.sub_diag. }
  rewrite Hloop by lia. destruct (Nat.le_gt_cases MAX_JOBS_TO_SCAN (length jobs)) as [Hm|Hm].
  - by rewrite Nat.min_l by done.
  - rewrite Nat.min_r by lia. by rewrite !take_ge, !drop_ge by lia.
Qed.


Definition working_app : app_state :=
  App (ConfigState app_config_set_defaults [] false)
    (Queue ($ "/data/queue") [named_job ($ "aa") JOB_REPAIRING 0; named_job ($ "bb") JOB_QUEUED 1]) ∅ false false [].

Lemma working_app_inv : queue_inv (a_queue working_app).
Proof.
  constructor; cbn.
  - repeat constructor; lia.
  - apply NoDup_cons. split; [by intros [|[]%elem_of_nil]%elem_of_cons|apply NoDup_singleton].
  - repeat constructor; lia.
Qed.

