(* ===== verification/Httpd.v ===== *)
(** * Requests ([web/httpd.c], [web/asset.c])

    From the calls libmicrohttpd makes for a request to the handler it ends in:
    the buffers for bodies, the fields of a form, the routes, and the assets.
    What the server's form parser calls back with is an input; the socket and
    the loop that accepts connections are in [Listen]. *)

From Stdlib Require Import ZArith Lia List.
From Stdlib Require Import Strings.Byte Strings.String.
From stdpp Require Import base list gmap.
From S2P Require Import Prelude Cnum Json Log Config Paths Job Nzb JobStore Queue Output ApiConfig JobJson Status Api.

(** ** Buffers *)

Record buffer := Buffer { bf_data : list byte; bf_cap : Z (* size_t *) }.

Definition no_buffer : buffer := Buffer [] 0.

(** [while (new_cap < need) new_cap *= 2;]: [None] when it does not end. *)
Fixpoint grow_cap (fuel : nat) (new_cap need : Z) : option Z :=
  if new_cap <? need then
    match fuel with
    | O => None
    | S fuel => grow_cap fuel (u64 (new_cap * 2)) need
    end
  else Some new_cap.

Definition buf_append (data : list byte) (b : buffer) : option buffer :=
  let need := u64 (Z.of_nat (length (bf_data b)) + Z.of_nat (length data)) in
  if bf_cap b <? need then
    match grow_cap 64 (if bf_cap b =? 0 then 4096 else u64 (bf_cap b * 2)) need with
    | Some new_cap => Some (Buffer (bf_data b ++ data) new_cap)
    | None => None
    end
  else Some (Buffer (bf_data b ++ data) (bf_cap b)).

(** ** Forms *)

Record conn_ctx := ConnCtx {
  cc_is_multipart : bool;
  cc_pp : bool;                (* [pp] is not NULL *)
  cc_raw_body : buffer;
  cc_upload : buffer;
  cc_form : upload_form;
}.

(** A call of [upload_iterator]: a piece of the field's value at an offset. *)
Record form_piece := FormPiece {
  fp_key : cstr;
  fp_filename : option cstr;
  fp_value : list byte;
  fp_off : Z;
}.

Definition set_upload (b : buffer) (ctx : conn_ctx) : conn_ctx :=
  ConnCtx (cc_is_multipart ctx) (cc_pp ctx) (cc_raw_body ctx) b (cc_form ctx).
Definition set_raw_body (b : buffer) (ctx : conn_ctx) : conn_ctx :=
  ConnCtx (cc_is_multipart ctx) (cc_pp ctx) b (cc_upload ctx) (cc_form ctx).
Definition with_form (f : upload_form) (ctx : conn_ctx) : conn_ctx :=
  ConnCtx (cc_is_multipart ctx) (cc_pp ctx) (cc_raw_body ctx) (cc_upload ctx) f.

(** [value[0] == '1'] *)
Definition checked (value : list byte) : bool := bool_decide (head value = Some x31).

(** The fields of a piece: the text fields keep what comes first, as the C
    string their uses read. *)
Definition form_field (p : form_piece) (f : upload_form) : upload_form :=
  let first := fp_off p =? 0 in
  let nonempty := negb (bool_decide (fp_value p = [])) in
  if decide (fp_key p = $ "display_name") then
    if first then UploadForm (uf_filename f) (c_str (take 255 (fp_value p))) (uf_output_dir f)
                    (uf_add_to_shadowmount f) (uf_auto_install_pkgs f) else f
  else if decide (fp_key p = $ "output_dir") then
    if first then UploadForm (uf_filename f) (uf_display_name f) (c_str (take 511 (fp_value p)))
                    (uf_add_to_shadowmount f) (uf_auto_install_pkgs f) else f
  else if decide (fp_key p = $ "add_to_shadowmount") then
    if first && nonempty then UploadForm (uf_filename f) (uf_display_name f) (uf_output_dir f)
                    (checked (fp_value p)) (uf_auto_install_pkgs f) else f
  else if decide (fp_key p = $ "auto_install_pkgs") then
    if first && nonempty then UploadForm (uf_filename f) (uf_display_name f) (uf_output_dir f)
                    (uf_add_to_shadowmount f) (checked (fp_value p)) else f
  else if decide (fp_key p = $ "nzb") then
    match fp_filename p with
    | Some name =>
      if first then UploadForm (str_fit 256 name) (uf_display_name f) (uf_output_dir f)
                      (uf_add_to_shadowmount f) (uf_auto_install_pkgs f) else f
    | None => f
    end
  else f.

Definition upload_iterator (p : form_piece) (ctx : conn_ctx) : option conn_ctx :=
  let ctx := with_form (form_field p (cc_form ctx)) ctx in
  if decide (fp_key p = $ "nzb")
  then match buf_append (fp_value p) (cc_upload ctx) with Some b => Some (set_upload b ctx) | None => None end
  else Some ctx.

(** ** Routes *)

(** What a request ends in. *)
Inductive api_call :=
  | CallStatus | CallJobsList | CallConfigGet | CallLogs | CallLogsDownload
  | CallJobsGet (id : cstr) | CallNfo (id : cstr)
  | CallAsset (path : cstr)
  | CallError (status : Z) (message : cstr)
  | CallCreate (nzb_data : list byte) (f : upload_form)
  | CallConfigPost (body : list byte)
  | CallEject
  | CallPause (id : cstr) | CallResume (id : cstr) | CallCancel (id : cstr) | CallRetry (id : cstr)
  | CallInstall (id : cstr) (body : list byte)
  | CallDelete (id : cstr).

Definition url_starts (prefix url : cstr) : bool := bool_decide (take (length prefix) url = prefix).

(** [split_id_action], with the size of [out_id]. *)
Definition split_id_action (rest : cstr) (out_id_size : nat) : option (cstr * cstr) :=
  match split_at x2f rest with
  | None => None
  | Some (id, action) =>
    if (length id =? 0)%nat || (out_id_size <=? length id)%nat then None else Some (id, action)
  end.

Definition route_get (url : cstr) : api_call :=
  if decide (url = $ "/api/status") then CallStatus
  else if decide (url = $ "/api/jobs") then CallJobsList
  else if decide (url = $ "/api/config") then CallConfigGet
  else if decide (url = $ "/api/logs") then CallLogs
  else if decide (url = $ "/api/logs/download") then CallLogsDownload
  else if url_starts ($ "/api/jobs/") url then
    let rest := drop 10 url in
    match rest with
    | [] => CallError HTTP_NOT_FOUND ($ "missing job id")
    | _ =>
      match split_id_action rest 64 with
      | Some (id, action) =>
        if decide (action = $ "nfo") then CallNfo id
        else CallError HTTP_NOT_FOUND ($ "unknown job sub-resource")
      | None => CallJobsGet rest
      end
    end
  else if url_starts ($ "/api/") url then CallError HTTP_NOT_FOUND ($ "unknown API route")
  else if decide (url = $ "/") then CallAsset ($ "/index.html")
  else if decide (url = []) then CallAsset ($ "/index.html")
  else CallAsset url.

Definition route_post (url : cstr) (ctx : conn_ctx) : api_call :=
  if bool_decide (url = $ "/api/jobs") || bool_decide (url = $ "/api/upload") then
    if bf_cap (cc_upload ctx) =? 0 then CallError HTTP_BAD_REQUEST ($ "missing 'nzb' file field")
    else CallCreate (bf_data (cc_upload ctx)) (cc_form ctx)
  else if decide (url = $ "/api/config") then CallConfigPost (bf_data (cc_raw_body ctx))
  else if decide (url = $ "/api/eject") then CallEject
  else if url_starts ($ "/api/jobs/") url then
    match split_id_action (drop 10 url) 64 with
    | None => CallError HTTP_BAD_REQUEST ($ "malformed job action URL")
    | Some (id, action) =>
      if decide (action = $ "pause") then CallPause id
      else if decide (action = $ "resume") then CallResume id
      else if decide (action = $ "cancel") then CallCancel id
      else if decide (action = $ "retry") then CallRetry id
      else if decide (action = $ "install-pkgs") then CallInstall id (bf_data (cc_raw_body ctx))
      else CallError HTTP_NOT_FOUND ($ "unknown job action")
    end
  else CallError HTTP_NOT_FOUND ($ "unknown API route").

Definition route_delete (url : cstr) : api_call :=
  if url_starts ($ "/api/jobs/") url then
    match drop 10 url with
    | [] => CallError HTTP_BAD_REQUEST ($ "missing job id")
    | id => CallDelete id
    end
  else CallError HTTP_NOT_FOUND ($ "unknown API route").

(** ** The calls of the server for one request *)

Definition METHOD_POST : cstr := $ "POST".

(** The first call; [pp_created] is whether the form parser could be made. *)
Definition request_begin (method : cstr) (content_type : option cstr) (pp_created : bool) : conn_ctx :=
  let multipart :=
    bool_decide (method = METHOD_POST) &&
    match content_type with Some t => url_starts ($ "multipart/form-data") t | None => false end in
  ConnCtx multipart (multipart && pp_created) no_buffer no_buffer (UploadForm [] [] [] false false).

(** A call with data: the bytes, and what the form parser makes of them. *)
Record body_chunk := BodyChunk { bc_data : list byte; bc_pieces : list form_piece }.

Definition request_data (ctx : conn_ctx) (c : body_chunk) : option conn_ctx :=
  if cc_is_multipart ctx && cc_pp ctx
  then foldl (λ ctx p, match ctx with Some ctx => upload_iterator p ctx | None => None end) (Some ctx) (bc_pieces c)
  else match buf_append (bc_data c) (cc_raw_body ctx) with Some b => Some (set_raw_body b ctx) | None => None end.

(** The last call; [None]: the connection is closed without an answer. *)
Definition request_end (method url : cstr) (ctx : conn_ctx) : option api_call :=
  if bool_decide (method = $ "GET") || bool_decide (method = $ "HEAD") then Some (route_get url)
  else if decide (method = METHOD_POST) then Some (route_post url ctx)
  else if decide (method = $ "DELETE") then Some (route_delete url)
  else None.

(** All calls of [on_request] for one request. Only a POST has calls with data;
    other methods answer at the second call. *)
Record request := Request {
  rq_method : cstr;
  rq_url : cstr;
  rq_content_type : option cstr;
  rq_pp_created : bool;
  rq_chunks : list body_chunk;
}.

Definition on_request (r : request) : option api_call :=
  let ctx := request_begin (rq_method r) (rq_content_type r) (rq_pp_created r) in
  let chunks := if decide (rq_method r = METHOD_POST) then rq_chunks r else [] in
  match foldl (λ ctx c, match ctx with Some ctx => request_data ctx c | None => None end) (Some ctx) chunks with
  | Some ctx => request_end (rq_method r) (rq_url r) ctx
  | None => None
  end.

(** ** Assets *)

Definition PATH_MAX : nat := Z.to_nat 1024.

Fixpoint asset_normalize_path (url : cstr) : cstr :=
  match url with
  | [] => []
  | c :: rest =>
    if bool_decide (c = slash) && bool_decide (head rest = Some slash) then asset_normalize_path rest
    else c :: asset_normalize_path rest
  end.

Record asset := Asset { as_path : cstr; as_mime : cstr; as_data : list byte }.

(** [asset_register]: the list has the newest first. *)
Definition asset_register (a : asset) (assets : list asset) : list asset := a :: assets.

(** The asset served, [None] in it for the page that is not there; [None] as a
    whole when the path is written beyond [path[PATH_MAX]]. *)
Definition asset_request (assets : list asset) (url : cstr) : option (option asset) :=
  let path := asset_normalize_path url in
  if (PATH_MAX <=? length path)%nat then None
  else Some (snd <$> list_find (λ a, as_path a = path) assets).

(** ** Serving *)

(** What the outside decides during one request: the outcomes of writes, the
    random bytes, the clock, and the figures other threads keep. *)
Record call_env := CallEnv {
  ce_w1 : write_outcome;
  ce_w2 : write_outcome;
  ce_cancel_writes : nat → write_outcome * write_outcome;
  ce_upload : upload_outcome;
  ce_scratch : list byte;
  ce_random : list byte;
  ce_progress : app_progress;
  ce_saved : bool;
  ce_now_ms : Z;
  ce_active_conns : Z;
  ce_log : log_state;
}.

Section serve.
Context `{JsonCodec}.
Context (tree : cstr → node) (read_file : cstr → option (list byte * bool))
  (installer : cstr → Z * Z) (xml_parse : list (list byte) → list xml_event * bool).

(** Answers that are not JSON, an asset or [Status.api_logs_download], are left
    out here; neither changes the state. *)
Definition serve (c : api_call) (e : call_env) (st : app_state * stats) : app_state * stats * option response :=
  let '(a, s) := st in
  let answer (r : app_state * response) := (r.1, s, Some r.2) in
  let w1 := ce_w1 e in
  let w2 := ce_w2 e in
  match c with
  | CallStatus =>
    let '(s, r) := api_status_get (ce_now_ms e) (ce_progress e) (a_queue a) (ce_active_conns e)
                     (nc_max_connections (ac_nntp (settings a))) (ce_log e) s in
    (a, s, Some r)
  | CallJobsList => answer (api_jobs_list tree (ce_progress e) a)
  | CallConfigGet => answer (a, api_config_get (settings a))
  | CallLogs => answer (a, api_logs_get (ce_log e))
  | CallLogsDownload | CallAsset _ => (a, s, None)
  | CallJobsGet id => answer (api_jobs_get tree (ce_progress e) id a)
  | CallNfo id => answer (api_jobs_get_nfo tree read_file id a)
  | CallError status message => answer (a, json_respond_error status message)
  | CallCreate nzb_data f =>
    answer (api_jobs_create xml_parse w1 w2 (ce_upload e) (ce_scratch e) (ce_random e) (ce_progress e) nzb_data f a)
  | CallConfigPost body =>
    let '(c, r) := api_config_post (ce_saved e) body (a_config a) in answer (with_config c a, r)
  | CallEject => answer (api_system_eject (ce_cancel_writes e) a)
  | CallPause id => answer (api_jobs_pause w1 w2 id a)
  | CallResume id => answer (api_jobs_resume w1 w2 id a)
  | CallCancel id => answer (api_jobs_cancel w1 w2 id a)
  | CallRetry id => answer (api_jobs_retry w1 w2 id a)
  | CallInstall id body => answer (api_jobs_install_pkgs tree installer id body a)
  | CallDelete id => answer (api_jobs_delete id a)
  end.

(** A request served; a request that is closed without an answer changes
    nothing. *)
Definition handle (r : request) (e : call_env) (st : app_state * stats) : app_state * stats * option response :=
  match on_request r with
  | Some c => serve c e st
  | None => (st, None)
  end.

(** The server among the other threads, which change single jobs and count
    bytes. *)
Inductive server_step : app_state * stats → app_state * stats → Prop :=
  | step_request r e st :
      create_pre (a_queue st.1) (ce_random e) → server_step st (handle r e st).1
  | step_thread a s q fs n :
      queue_step (queue_of a) (q, fs) → server_step (a, s) (with_queue q fs a, count_bytes n s).

Lemma serve_steps c e st :
  create_pre (a_queue st.1) (ce_random e) →
  rtc queue_step (queue_of st.1) (queue_of (serve c e st).1.1).
Proof.
  destruct st as [a s]. cbn [fst]. intros Hpre.
  destruct c; cbn [serve fst snd]; try done.
  - apply list_steps.
  - apply get_steps.
  - apply nfo_steps.
  - by apply create_steps.
  - by destruct (api_config_post _ _ _).
  - unfold api_system_eject. cbn [fst]. apply (cancel_active_steps (ce_cancel_writes e) (with_effect _ a)).
  - by apply (action_steps (ce_w1 e) (ce_w2 e) (QPause id)).
  - by apply (action_steps (ce_w1 e) (ce_w2 e) (QResume id)).
  - by apply (action_steps (ce_w1 e) (ce_w2 e) (QCancel id)).
  - by apply (action_steps (ce_w1 e) (ce_w2 e) (QRetry id)).
  - apply install_steps.
  - apply delete_steps.
Qed.
End serve.

(** ** The settings *)

Lemma effects_config {A} (f : A → effect) l st : a_config (foldl (λ st x, with_effect (f x) st) st l) = a_config st.
Proof. revert st. induction l as [|x l IH]; intros st; [done|]. cbn [foldl]. by rewrite IH. Qed.

Lemma post_typed `{JsonCodec} saved body c :
  config_typed (cf_config c) → config_typed (cf_config (api_config_post saved body c).1).
Proof.
  intros Hc. unfold api_config_post, config_prepare. destruct body as [|b body]; [done|].
  destruct (parse _) as [root|]; [|done]. cbn. by apply merge_typed.
Qed.

Section settings.
Context `{JsonCodec}.
Context (tree : cstr → node) (read_file : cstr → option (list byte * bool))
  (installer : cstr → Z * Z) (xml_parse : list (list byte) → list xml_event * bool).

Lemma serve_typed c e st :
  config_typed (settings st.1) → config_typed (settings (serve tree read_file installer xml_parse c e st).1.1).
Proof.
  destruct st as [a s]. cbn [fst]. intros Ha. unfold settings in *.
  destruct c; cbn [serve fst snd]; try done.
  - unfold api_jobs_get. by destruct (find_job _ _) as [[i j]|].
  - unfold api_jobs_get_nfo. by destruct (find_job _ _) as [[i j]|].
  - unfold api_jobs_create. repeat (case_match; try done); by destruct (_ <? 0).
  - pose proof (post_typed (ce_saved e) body (a_config a) Ha) as H1.
    by destruct (api_config_post _ _ _) as [c r].
  - unfold api_system_eject. cbn [fst with_effect request_shutdown a_config].
    by destruct (cancel_active_keeps (ce_cancel_writes e) (with_effect (Respond (json_respond HTTP_OK (JObj []))) a))
      as (_ & _ & -> & _).
  - unfold api_jobs_pause, run_action. destruct (queue_pause_job _ _ _ _ _) as [[q fs] rc]. by destruct (rc <? 0).
  - unfold api_jobs_resume, run_action. destruct (queue_resume_job _ _ _ _ _) as [[q fs] rc]. by destruct (rc <? 0).
  - unfold api_jobs_cancel, run_action. destruct (queue_cancel_job _ _ _ _ _) as [[q fs] rc]. by destruct (rc <? 0).
  - unfold api_jobs_retry, run_action. destruct (queue_retry_job _ _ _ _ _) as [[q fs] rc]. by destruct (rc <? 0).
  - unfold api_jobs_install_pkgs. destruct (find_job _ _) as [[i j]|]; [|done].
    destruct (selected_pkgs _ _) as [|path paths]; [done|].
    pose proof (install_each_keeps installer (path :: paths) (store_job i (job_ensure_pkg_scanned (settings a) tree j) a))
      as (_ & Hk & _).
    destruct (install_each _ _ _) as [st' results]. cbn [fst] in *. by rewrite Hk.
  - unfold api_jobs_delete. destruct (queue_remove_job _ _ _) as [[q fs] rc].
    destruct (rc =? -2); [done|]. destruct (rc <? 0); [done|]. cbn [fst]. by rewrite (effects_config RemoveTree).
Qed.

Lemma queue_steps_inv st st' : rtc queue_step st st' → queue_inv st.1 → queue_inv st'.1.
Proof. induction 1 as [|st st1 st2 Hstep _ IH]; [done|]. intros Hq. apply IH. by eapply queue_step_inv. Qed.

Lemma server_step_inv st st' :
  server_step tree read_file installer xml_parse st st' →
  queue_inv (a_queue st.1) ∧ config_typed (settings st.1) → queue_inv (a_queue st'.1) ∧ config_typed (settings st'.1).
Proof.
  intros [r e st0 Hpre|a s q fs n Hstep] [Hq Hc]; cbn [fst with_queue a_queue].
  - unfold handle. destruct (on_request r) as [c|]; [|done]. split; [|by apply serve_typed].
    exact (queue_steps_inv _ _ (serve_steps tree read_file installer xml_parse c e st0 Hpre) Hq).
  - split; [by apply (queue_step_inv _ _ Hstep)|done].
Qed.
End settings.

(** ** Properties *)

(** C11: whatever requests come in, with any method, URL, form and body, in any
    number, with any write failures, and whatever the worker threads do to the
    jobs in between, the queue keeps distinct ids in strictly increasing [int]
    priorities and every setting fits its buffer and its range. *)
Theorem requests_keep_state `{codec : JsonCodec} (tree : cstr → node) (read_file : cstr → option (list byte * bool))
    (installer : cstr → Z * Z) (xml_parse : list (list byte) → list xml_event * bool)
    (st st' : app_state * stats) (Hreach : rtc (server_step tree read_file installer xml_parse) st st')
    (Hqueue : queue_inv (a_queue st.1)) (Hconfig : config_typed (settings st.1)) :
  queue_inv (a_queue st'.1) ∧ config_typed (settings st'.1).
Proof.
  induction Hreach as [|st st1 st2 Hstep _ IH]; [done|].
  destruct (server_step_inv _ _ _ _ _ _ Hstep (conj Hqueue Hconfig)) as [H1 H2]. by apply IH.
Qed.

(** ** Buffers grow enough and not too much *)

Record buffer_ok (b : buffer) : Prop := {
  bo_room : Z.of_nat (length (bf_data b)) <= bf_cap b;
  bo_slack : bf_cap b <= Z.max 4096 (2 * Z.of_nat (length (bf_data b)));
  bo_null : bf_data b = [] → bf_cap b = 0;
}.

Lemma no_buffer_ok : buffer_ok no_buffer.
Proof. split; cbn; [lia|lia|done]. Qed.

Lemma grow_cap_enough fuel c need :
  0 < c → need <= 2 ^ 62 → need <= c * 2 ^ Z.of_nat fuel →
  ∃ c', grow_cap fuel c need = Some c' ∧ need <= c' ∧ (c' = c ∨ c' < 2 * need).
Proof.
  revert c. induction fuel as [|fuel IH]; intros c Hc Hn Hf; cbn [grow_cap]; destruct (Z.ltb_spec c need) as [Hlt|Hge].
  - cbn in Hf. lia.
  - exists c. split_and!; [done|lia|by left].
  - rewrite u64_id by lia.
    destruct (IH (c * 2)) as (c' & -> & Hge & Hc'); [lia|done|rewrite Nat2Z.inj_succ, Z.pow_succ_r in Hf; lia|].
    exists c'. split_and!; [done|done|]. right. destruct Hc' as [->|]; lia.
  - exists c. split_and!; [done|lia|by left].
Qed.

Lemma buf_append_ok data b :
  buffer_ok b → Z.of_nat (length (bf_data b ++ data)) <= 2 ^ 62 →
  ∃ b', buf_append data b = Some b' ∧ bf_data b' = bf_data b ++ data ∧ buffer_ok b'.
Proof.
  intros [Hr Hs Hz] Hb. rewrite length_app in Hb. unfold buf_append. rewrite u64_id by lia.
  destruct (Z.ltb_spec (bf_cap b) (Z.of_nat (length (bf_data b)) + Z.of_nat (length data))) as [Hlt|Hge].
  - set (c0 := if bf_cap b =? 0 then 4096 else u64 (bf_cap b * 2)).
    assert (0 < c0 ∧ c0 <= Z.max 4096 (2 * bf_cap b)) as [Hc0 Hc1].
    { unfold c0. destruct (Z.eqb_spec (bf_cap b) 0); [lia|]. rewrite u64_id by lia. lia. }
    destruct (grow_cap_enough 64 c0 (Z.of_nat (length (bf_data b)) + Z.of_nat (length data))) as (c' & -> & Hge & Hc');
      [lia|lia|change (2 ^ Z.of_nat 64) with (2 ^ 64); lia|].
    eexists. split_and!; [done|done|]. split; cbn [bf_data bf_cap]; rewrite ?length_app; [lia|lia|].
    intros E%(f_equal length). rewrite length_app in E. cbn in E. lia.
  - eexists. split_and!; [done|done|]. split; cbn [bf_data bf_cap]; rewrite ?length_app; [lia|lia|].
    intros [E _]%app_eq_nil. auto.
Qed.

(** ** Uploads *)

Definition is_nzb (p : form_piece) : Prop := fp_key p = $ "nzb".

#[local] Instance is_nzb_dec p : Decision (is_nzb p).
Proof. unfold is_nzb. apply _. Defined.

(** The bytes of the uploaded file. *)
Definition nzb_bytes (pieces : list form_piece) : list byte := mjoin (fp_value <$> filter is_nzb pieces).

Lemma nzb_bytes_cons p pieces :
  nzb_bytes (p :: pieces) = (if decide (is_nzb p) then fp_value p else []) ++ nzb_bytes pieces.
Proof. unfold nzb_bytes. rewrite filter_cons. case_decide; [|done]. by rewrite fmap_cons, mjoin_cons. Qed.

Lemma nzb_bytes_app a b : nzb_bytes (a ++ b) = nzb_bytes a ++ nzb_bytes b.
Proof. induction a as [|p a IH]; [done|]. cbn [app]. by rewrite !nzb_bytes_cons, IH, app_assoc. Qed.

Definition add_piece (ctx : option conn_ctx) (p : form_piece) : option conn_ctx :=
  match ctx with Some ctx => upload_iterator p ctx | None => None end.

(** Pieces are taken in order, whatever the calls they come in. *)
Lemma pieces_added pieces ctx :
  buffer_ok (cc_upload ctx) → Z.of_nat (length (bf_data (cc_upload ctx) ++ nzb_bytes pieces)) <= 2 ^ 62 →
  ∃ ctx', foldl add_piece (Some ctx) pieces = Some ctx' ∧
    bf_data (cc_upload ctx') = bf_data (cc_upload ctx) ++ nzb_bytes pieces ∧ buffer_ok (cc_upload ctx') ∧
    cc_form ctx' = foldl (λ f p, form_field p f) (cc_form ctx) pieces ∧
    cc_is_multipart ctx' = cc_is_multipart ctx ∧ cc_pp ctx' = cc_pp ctx.
Proof.
  revert ctx. induction pieces as [|p pieces IH]; intros ctx Hok Hlen.
  { exists ctx. cbn. by rewrite app_nil_r. }
  rewrite nzb_bytes_cons in *. cbn [foldl add_piece]. unfold upload_iterator at 1.
  destruct (decide (is_nzb p)) as [Hp|Hp]; [rewrite (decide_True (P := fp_key p = _)) by exact Hp|
    rewrite (decide_False (P := fp_key p = _)) by exact Hp].
  - destruct (buf_append_ok (fp_value p) (cc_upload ctx) Hok) as (b & Ha & Hd & Hb).
    { rewrite !length_app in *. lia. }
    cbn [with_form cc_upload]. rewrite Ha.
    destruct (IH (set_upload b (with_form (form_field p (cc_form ctx)) ctx)) Hb) as (ctx' & Hf & H1 & H2 & H3 & H4 & H5).
    { cbn [set_upload cc_upload]. rewrite Hd. by rewrite <- app_assoc. }
    exists ctx'. rewrite Hf. cbn [set_upload with_form cc_upload cc_form cc_is_multipart cc_pp] in *.
    split_and!; [done| |done..]. by rewrite H1, Hd, app_assoc.
  - destruct (IH (with_form (form_field p (cc_form ctx)) ctx) Hok Hlen) as (ctx' & Hf & H1 & H2 & H3 & H4 & H5).
    exists ctx'. by rewrite Hf.
Qed.

Lemma chunks_added chunks ctx :
  cc_is_multipart ctx = true → cc_pp ctx = true → buffer_ok (cc_upload ctx) →
  Z.of_nat (length (bf_data (cc_upload ctx) ++ nzb_bytes (mjoin (bc_pieces <$> chunks)))) <= 2 ^ 62 →
  ∃ ctx', foldl (λ ctx c, match ctx with Some ctx => request_data ctx c | None => None end) (Some ctx) chunks = Some ctx' ∧
    bf_data (cc_upload ctx') = bf_data (cc_upload ctx) ++ nzb_bytes (mjoin (bc_pieces <$> chunks)) ∧
    buffer_ok (cc_upload ctx') ∧
    cc_form ctx' = foldl (λ f p, form_field p f) (cc_form ctx) (mjoin (bc_pieces <$> chunks)).
Proof.
  revert ctx. induction chunks as [|c chunks IH]; intros ctx Hm Hpp Hok Hlen.
  { exists ctx. cbn. by rewrite app_nil_r. }
  rewrite fmap_cons, mjoin_cons, nzb_bytes_app, foldl_app in *. cbn [foldl].
  unfold request_data at 2. rewrite Hm, Hpp. cbn [andb].
  destruct (pieces_added (bc_pieces c) ctx Hok) as (ctx1 & Hf & H1 & H2 & H3 & H4 & H5).
  { rewrite !length_app in *. lia. }
  unfold add_piece in Hf. rewrite Hf.
  destruct (IH ctx1) as (ctx' & Hf' & H1' & H2' & H3'); [congruence|congruence|done| |].
  { by rewrite H1, <- app_assoc. }
  exists ctx'. rewrite Hf', H1', H1, H3', H3. by rewrite app_assoc.
Qed.

(** The text fields fit their buffers. *)
Record form_fits (f : upload_form) : Prop := {
  ff_filename : (length (uf_filename f) < 256)%nat;
  ff_display_name : (length (uf_display_name f) < 256)%nat;
  ff_output_dir : (length (uf_output_dir f) < 512)%nat;
}.

Lemma c_str_length l : (length (c_str l) <= length l)%nat.
Proof. induction l as [|c l IH]; cbn; [lia|]. case_decide; cbn; lia. Qed.

Lemma form_field_fits p f : form_fits f → form_fits (form_field p f).
Proof.
  intros [H1 H2 H3].
  pose proof (c_str_length (take 255 (fp_value p))) as Hd. pose proof (c_str_length (take 511 (fp_value p))) as Ho.
  rewrite length_take in Hd, Ho. unfold form_field.
  repeat case_decide; repeat case_match; split; cbn [uf_filename uf_display_name uf_output_dir]; try lia.
  unfold str_fit. rewrite length_take. lia.
Qed.

Lemma form_fields_fit pieces f : form_fits f → form_fits (foldl (λ f p, form_field p f) f pieces).
Proof. revert f. induction pieces as [|p l IH]; intros f Hf; [done|]. apply IH. by apply form_field_fits. Qed.

(** C15: an upload arrives whole: however the form's body is cut into calls and
    the file into pieces, with the other fields anywhere between, the handler
    is given the bytes of the file in order and the last first piece of every
    field, each within its buffer. Without a byte of a file the answer is 400. *)
Theorem upload_assembled (url content_type : cstr) (chunks : list body_chunk)
    (pieces := mjoin (bc_pieces <$> chunks))
    (Hurl : url = $ "/api/jobs" ∨ url = $ "/api/upload")
    (Htype : url_starts ($ "multipart/form-data") content_type = true)
    (Hsize : Z.of_nat (length (nzb_bytes pieces)) <= 2 ^ 62) :
  ∃ f, form_fits f ∧ f = foldl (λ f p, form_field p f) (UploadForm [] [] [] false false) pieces ∧
    on_request (Request METHOD_POST url (Some content_type) true chunks) =
    Some (if bool_decide (nzb_bytes pieces = []) then CallError HTTP_BAD_REQUEST ($ "missing 'nzb' file field")
          else CallCreate (nzb_bytes pieces) f).
Proof.
  eexists. split; [|split; [reflexivity|]].
  { apply form_fields_fit. split; cbn; lia. }
  unfold on_request, request_begin. cbn [rq_method rq_url rq_content_type rq_pp_created rq_chunks].
  rewrite bool_decide_eq_true_2, Htype, decide_True by done. cbn [andb].
  destruct (chunks_added chunks (ConnCtx true true no_buffer no_buffer (UploadForm [] [] [] false false)))
    as (ctx & -> & Hd & Hok & Hf); [done|done|apply no_buffer_ok|done|].
  cbn [no_buffer cc_upload bf_data app cc_form] in Hd, Hf. fold pieces in Hd, Hf.
  unfold request_end. cbn [orb]. rewrite !bool_decide_eq_false_2, decide_True by done. cbn [orb]. f_equal.
  unfold route_post.
  assert (bool_decide (url = $ "/api/jobs") || bool_decide (url = $ "/api/upload") = true) as ->.
  { by destruct Hurl as [-> | ->]. }
  rewrite Hd, Hf. destruct Hok as [Hr _ Hz]. rewrite Hd in Hr, Hz.
  destruct (nzb_bytes pieces) as [|b l]; [by rewrite Hz, bool_decide_eq_true_2 by done|].
  rewrite bool_decide_eq_false_2 by done. cbn [length] in Hr. by rewrite (proj2 (Z.eqb_neq _ 0)) by lia.
Qed.

Definition sample_chunks : list body_chunk :=
  [BodyChunk [] [FormPiece ($ "display_name") None ($ "My show") 0; FormPiece ($ "nzb") (Some ($ "a.nzb")) ($ "<nz") 0];
   BodyChunk [] [FormPiece ($ "nzb") (Some ($ "a.nzb")) ($ "b/>") 3; FormPiece ($ "auto_install_pkgs") None ($ "1") 0]].

Lemma upload_assembled_witness :
  on_request (Request METHOD_POST ($ "/api/upload") (Some ($ "multipart/form-data; boundary=x")) true sample_chunks) =
  Some (CallCreate ($ "<nzb/>") (UploadForm ($ "a.nzb") ($ "My show") [] false true)).
Proof.
  destruct (upload_assembled ($ "/api/upload") ($ "multipart/form-data; boundary=x") sample_chunks
    (or_intror eq_refl) eq_refl) as (f & _ & -> & H); [apply Z.leb_le; reflexivity|].
  exact H.
Defined.

Definition quiet_env : call_env :=
  CallEnv all_good all_good (λ _, (all_good, all_good)) UploadNoDir [] (replicate 6 x00) idle_progress true 5000 0 log_zero.

Lemma requests_keep_state_witness :
  let st := (working_app, Stats 0 0 0 0) in
  let st' := (handle (H := toy_codec) (λ _, NOther) (λ _, None) (λ _, (0, 0)) (λ _, ([], false))
               (Request METHOD_POST ($ "/api/jobs/aa/cancel") None false []) quiet_env st).1 in
  queue_inv (a_queue st'.1) ∧ config_typed (settings st'.1).
Proof.
  refine (requests_keep_state (codec := toy_codec) (λ _, NOther) (λ _, None) (λ _, (0, 0)) (λ _, ([], false)) _ _ _ _ _).
  - apply rtc_once. apply (step_request (H := toy_codec)). split; [|by intros l [= <-]].
    apply (bool_decide_unpack _). vm_compute. exact I.
  - exact working_app_inv.
  - split; cbn; lia.
Defined.

(** ** URLs of jobs *)

Definition job_url (id : cstr) : cstr := $ "/api/jobs/" ++ id.

(** The ids the program makes are of this kind ([Job.generate_job_id]). *)
Definition url_id (id : cstr) : Prop := id ≠ [] ∧ (length id < 64)%nat ∧ (x2f ∉ id).

Lemma split_action id action : url_id id → split_id_action (id ++ x2f :: action) 64 = Some (id, action).
Proof.
  intros (Hne & Hl & Hs). unfold split_id_action. rewrite split_at_app.
  - rewrite (proj2 (Nat.eqb_neq _ 0)) by (destruct id; cbn; [done|lia]).
    by rewrite (proj2 (Nat.leb_gt _ _)) by done.
  - apply Forall_forall. intros c Hc ->. done.
Qed.

Lemma split_no_action id : (x2f ∉ id) → split_id_action id 64 = None.
Proof.
  intros Hs. unfold split_id_action. rewrite split_at_None; [done|]. apply Forall_forall. intros c Hc ->. done.
Qed.

Lemma job_url_routes rest ctx :
  rest ≠ [] →
  route_get (job_url rest) =
    match split_id_action rest 64 with
    | Some (id, action) =>
      if decide (action = $ "nfo") then CallNfo id else CallError HTTP_NOT_FOUND ($ "unknown job sub-resource")
    | None => CallJobsGet rest
    end ∧
  route_post (job_url rest) ctx =
    match split_id_action rest 64 with
    | None => CallError HTTP_BAD_REQUEST ($ "malformed job action URL")
    | Some (id, action) =>
      if decide (action = $ "pause") then CallPause id
      else if decide (action = $ "resume") then CallResume id
      else if decide (action = $ "cancel") then CallCancel id
      else if decide (action = $ "retry") then CallRetry id
      else if decide (action = $ "install-pkgs") then CallInstall id (bf_data (cc_raw_body ctx))
      else CallError HTTP_NOT_FOUND ($ "unknown job action")
    end ∧
  route_delete (job_url rest) = CallDelete rest.
Proof. intros Hne. destruct rest as [|c rest]; [done|]. split_and!; reflexivity. Qed.

(** The bytes of an id are hexadecimal digits. *)
Lemma generated_url_id random : length random = 6%nat → url_id (generate_job_id random).
Proof.
  intros Hl. do 6 (destruct random as [|? random]; [done|]). destruct random; [|done].
  unfold generate_job_id, url_id. split_and!; [done|cbn; lia|].
  assert (∀ z, hex_digit (z mod 16) ≠ x2f) as Hx.
  { intros z. pose proof (Z.mod_pos_bound z 16 ltac:(lia)) as Hz. revert Hz. generalize (z mod 16).
    intros d Hd. assert (d ∈ seqZ 0 16) as Hin by (apply elem_of_seqZ; lia). clear Hd.
    revert d Hin. apply Forall_forall. apply (bool_decide_unpack _). vm_compute. exact I. }
  assert (∀ x : byte, hex_digit (b2z x / 16) ≠ x2f) as Hy.
  { intros x. destruct x; by compute. }
  intros Hi. cbn in Hi.
  repeat (apply elem_of_cons in Hi as [Hi|Hi]; [first [by destruct (Hy _ (eq_sym Hi))|by destruct (Hx _ (eq_sym Hi))]|]). by apply elem_of_nil in Hi.
Qed.

(** The id of every job the program makes leads, in the URLs of the web
    page, to that job: reading it, its NFO file, each command, the installation
    with the request's body, and the removal. *)
Theorem job_urls_routed (random : list byte) (body : list byte) (Hlen : length random = 6%nat)
    (id := generate_job_id random)
    (post := λ action, on_request (Request METHOD_POST (job_url id ++ $ "/" ++ action) None false [BodyChunk body []]))
    (Hbody : Z.of_nat (length body) <= 2 ^ 62) :
  on_request (Request ($ "GET") (job_url id) None false []) = Some (CallJobsGet id) ∧
  on_request (Request ($ "GET") (job_url id ++ $ "/nfo") None false []) = Some (CallNfo id) ∧
  post ($ "pause") = Some (CallPause id) ∧ post ($ "resume") = Some (CallResume id) ∧
  post ($ "cancel") = Some (CallCancel id) ∧ post ($ "retry") = Some (CallRetry id) ∧
  post ($ "install-pkgs") = Some (CallInstall id body) ∧
  on_request (Request ($ "DELETE") (job_url id) None false []) = Some (CallDelete id).
Proof.
  pose proof (generated_url_id random Hlen) as Hid. fold id in Hid. clearbody id.
  assert (∀ action, job_url id ++ $ "/" ++ action = job_url (id ++ x2f :: action)) as Hurl
    by (intros; unfold job_url; by rewrite <- app_assoc).
  destruct (buf_append_ok body no_buffer no_buffer_ok) as (b & Hb & Hd & _); [done|]. cbn in Hd.
  assert (∀ action, post action = Some (route_post (job_url (id ++ x2f :: action))
    (ConnCtx false false b no_buffer (UploadForm [] [] [] false false)))) as Hpost.
  { intros action. unfold post, on_request. cbn [rq_method rq_url rq_chunks rq_content_type rq_pp_created].
    rewrite decide_True by done. cbn [foldl]. unfold request_data, request_begin.
    cbn [cc_is_multipart cc_pp andb bc_data cc_raw_body]. rewrite andb_false_r. cbn [andb].
    rewrite Hb. by rewrite Hurl. }
  assert (id ++ x2f :: $ "nfo" ≠ [] ∧ id ≠ []) as [Hn1 Hn2] by (split; [by destruct id|apply Hid]).
  assert (∀ action, id ++ x2f :: action ≠ []) as Hne by by destruct id.
  change (job_url id ++ $ "/nfo") with (job_url id ++ $ "/" ++ $ "nfo"). rewrite !Hpost, Hurl.
  unfold on_request. cbn [rq_method rq_url]. unfold request_end.
  repeat match goal with |- context [route_post (job_url ?r) ?c] =>
    rewrite (proj1 (proj2 (job_url_routes r c (Hne _)))) end.
  rewrite !split_action by done. cbn [cc_raw_body]. rewrite Hd. split_and!; try reflexivity.
  - apply (f_equal Some). etrans; [apply (job_url_routes id (request_begin [] None false) Hn2)|].
    by rewrite split_no_action by apply Hid.
  - apply (f_equal Some). etrans; [apply (job_url_routes _ (request_begin [] None false) Hn1)|].
    by rewrite split_action by done.
  - apply (f_equal Some). apply (job_url_routes id (request_begin [] None false) Hn2).
Qed.

Lemma job_urls_routed_witness :
  on_request (Request METHOD_POST ($ "/api/jobs/00ff10203040/cancel") None false [BodyChunk [] []]) =
    Some (CallCancel ($ "00ff10203040")).
Proof.
  apply (job_urls_routed [x00; xff; x10; x20; x30; x40] [] eq_refl). apply Z.leb_le. reflexivity.
Defined.

(** ** Assets *)

Lemma normalize_head url : head (asset_normalize_path url) = head url ∨ head url = Some slash.
Proof.
  destruct url as [|c rest]; [by left|]. cbn. case_bool_decide as E; cbn; [right; congruence|by left].
Qed.

(** No two slashes in a row are left, and a path without such is kept. *)
Lemma normalized_single_slashes url i :
  asset_normalize_path url !! i = Some slash → asset_normalize_path url !! S i ≠ Some slash.
Proof.
  revert i. induction url as [|c rest IH]; intros i; [done|]. cbn [asset_normalize_path].
  destruct (bool_decide (c = slash)) eqn:Ec; cbn [andb]; [|destruct i as [|i]; [|apply IH]].
  - destruct (bool_decide (head rest = Some slash)) eqn:Er; [apply IH|]. apply bool_decide_eq_false in Er.
    destruct i as [|i]; [|apply IH]. intros _. cbn. intros E. destruct (normalize_head rest) as [Hh|Hh]; [|done].
    apply Er. rewrite <- Hh. by destruct (asset_normalize_path rest).
  - apply bool_decide_eq_false in Ec. intros [= E]. done.
Qed.

Lemma normalize_plain url : (slash ∉ url) → asset_normalize_path url = url.
Proof.
  induction url as [|c rest IH]; intros Hs; [done|]. apply not_elem_of_cons in Hs as [Hc Hs]. cbn.
  rewrite bool_decide_eq_false_2 by congruence. cbn. by rewrite IH.
Qed.

Lemma normalize_name name : (slash ∉ name) → asset_normalize_path (slash :: name) = slash :: name.
Proof.
  intros Hs. cbn. rewrite (bool_decide_eq_false_2 (head name = Some slash)).
  - rewrite andb_false_r. by rewrite normalize_plain.
  - intros E. destruct name as [|c name]; [done|]. injection E as ->. apply Hs. left.
Qed.

(** A URL of more than 1023 bytes overruns the path buffer on the stack:
    any GET for a name that long is sent to [asset_request], which copies it
    without looking at its length. *)
Theorem long_url_overruns_path (name : cstr) (assets : list asset)
    (Hname : (slash ∉ name)) (Hlen : (1023 <= length name)%nat) :
  on_request (Request ($ "GET") (slash :: name) None false []) = Some (CallAsset (slash :: name)) ∧
  asset_request assets (slash :: name) = None.
Proof.
  split.
  - unfold on_request, request_end, route_get. cbn [rq_method rq_url].
    assert (∀ prefix, (length prefix < 1000)%nat → slash ∈ tail prefix →
      url_starts prefix (slash :: name) = false ∧ slash :: name ≠ prefix) as Hno.
    { intros prefix Hl Hin. destruct prefix as [|p prefix]; [by apply elem_of_nil in Hin|]. cbn in Hl, Hin. split.
      - apply bool_decide_eq_false. cbn. intros [= _ E]. rewrite <- E in Hin.
        apply elem_of_take in Hin as (i & Hi & _). by apply list_elem_of_lookup_2 in Hi.
      - intros [= _ ->]. done. }
    rewrite (decide_False (P := $ "GET" = METHOD_POST)) by done. cbn [foldl]. rewrite (bool_decide_eq_true_2 ($ "GET" = $ "GET")) by done. cbn [orb].
    do 5 rewrite decide_False by (apply Hno; [cbn; lia|by apply (bool_decide_unpack _)]).
    destruct (Hno ($ "/api/jobs/")) as [-> _]; [cbn; lia|by apply (bool_decide_unpack _)|].
    destruct (Hno ($ "/api/")) as [-> _]; [cbn; lia|by apply (bool_decide_unpack _)|].
    rewrite !decide_False; [done|done|]. intros [= ->]. cbn in Hlen. lia.
  - unfold asset_request. rewrite normalize_name by done. rewrite (proj2 (Nat.leb_le _ _)); [done|].
    unfold PATH_MAX. cbn [length]. lia.
Qed.

Lemma long_url_overruns_path_witness :
  asset_request [Asset ($ "/index.html") ($ "text/html") []] (slash :: replicate (Z.to_nat 2000) x61) = None.
Proof.
  apply (long_url_overruns_path (replicate (Z.to_nat 2000) x61)).
  - intros H%elem_of_replicate. by destruct H.
  - rewrite length_replicate. lia.
Defined.

Example asset_served :
  asset_request (asset_register (Asset ($ "/main.js") ($ "text/javascript") []) [Asset ($ "/index.html") ($ "text/html") []])
    ($ "//index.html") = Some (Some (Asset ($ "/index.html") ($ "text/html") [])).
Proof. vm_compute. done. Qed.
